(* ===== verification/_CoqProject ===== *)
-Q . S2P
Prelude.v
GoText.v
Address.v
Float64.v
GoFlags.v
GoFlagsSpec.v
Backoff.v
Metrics.v
MetricsSafety.v
GoHeap.v
LeaseShard.v
Protocol.v
EnumNames.v
Server.v
ServerSpec.v
ServerLifecycle.v
Launcher.v
Quorum.v
Ring.v
Wire.v
Codec.v
Frame.v
Connection.v
ConnectionSafety.v
Prometheus.v
Endpoints.v
Discovery.v
LoadClients.v
Registration.v
EtcdLease.v
ServerFlags.v
LoadStats.v
LoadStatsSafety.v
LoadWork.v
Client.v
Replica.v
ReplicaSafety.v
Generation.v
Manager.v
Readiness.v
ClientSafety.v
ClientProgress.v
Healing.v
System.v
Client1of1.v
Client1of1Safety.v
Errors.v
LoadOptions.v
LoadOptionsSafety.v
Futures.v
Session1of1.v
DummyClient.v
DummyClientSafety.v
DummyServer.v
DummyServerSafety.v
CommandFlags.v
LoadRun.v
DummyRun.v
