(* ===== verification/Prelude.v ===== *)
(** * RedLease: a verification library

    RedLease is a lease-based lock service. Independent lock-servers keep leases
    of 64-bit keys in memory; a quorum client acquires, renews and releases a
    lease on a majority of them, a 1/1 client does so on one server. The servers
    never talk to each other, keep nothing on disk, and wait out a quarantine of
    the maximum TTL after every start. This library models the Go code of the
    repository as Rocq definitions and proves what makes it correct.

    ** The program and its model

    Vocabulary
    - this file: machine integers with their wrap-around, Go's durations and
      instants, the shared tactics and the list, map and counting lemmas;
    - [GoText]: what the commands use of strings and strconv;
      [Float64]: IEEE binary64 rounding, for the jitter of the back-off and the
      reports of the load generator;
    - [GoFlags]: the flag package with its integers and durations;
      [GoFlagsSpec]: the grammar of command lines, how values are printed, and the
      interface (class [PrintedFlags]) from which the commands get their round
      trips.

    The lock-server (src/server)
    - [GoHeap]: container/heap over an interface (class [HeapInterface] with the
      laws [HeapLaws]);
    - [LeaseShard]: state.go, the map of pooled lease records of a shard and the
      deadline heap over the same records, with the back-pointers;
    - [Server]: server.go and the handlers of state.go, the phases quarantine,
      active, failed and closed, the key counter, cleanup and the counters;
    - [ServerSpec]: the abstract server, a finite map from keys to an identity
      and a deadline; [ServerLifecycle]: runs of one server, their invariant and
      the refinement of the abstract server;
    - [Connection], [ConnectionSafety]: connection.go, sessions, shard queues and
      workers, the accept loop, all interleaved.

    Messages (src/internal, src/fbs)
    - [Protocol]: operations, statuses and responses; [EnumNames]: their names;
      [Wire]: the generated accessors and builders; [Codec]: both clients' and the
      server's encoders and decoders; [Frame]: the frame reader and writer, and
      the dial of a connection;
    - [Ring]: the lock-free MPSC ring and its notifying wrapper, one step per
      atomic operation;
    - [Backoff]: retry delays.

    The quorum client (src/client)
    - [Quorum]: quorum sizes, the conservative expiry of a reply, the best
      quorum; [Client]: Acquire, Renew, Release, late replies, confirmations and
      healing as functions of the events they consume;
    - [Replica], [ReplicaSafety]: pending calls and the waits of an operation;
      [Generation]: what one TCP connection sends; [Manager]: the reconnect loop;
      [Readiness]: WaitReady and Close;
    - [ClientSafety], [ClientProgress], [Healing]: their properties, the last one
      for the race of Release with healing.

    The 1/1 client (src/client1of1)
    - [Client1of1], [Client1of1Safety]: operations and their comparison with the
      quorum client; [Futures]: calls and pooled futures; [Session1of1]: the
      connection loop with its writer and reader.

    [Errors]: the error values of both clients, [errors.Is] on them, and what the
    load generator makes of them.

    Metrics (src/clientmetrics, src/internal/clientmetrics, src/server/prometheus)
    - [Metrics], [MetricsSafety]: the sharded recorder and its snapshots at the
      granularity of atomic operations; [Prometheus]: the collectors;
      [Endpoints]: the registries of the commands and the exchange of the exported
      server (src/cmd/redlease-server/main.go, src/cmd/redlease-load/metrics.go).

    Commands (src/cmd)
    - redlease-server: [ServerFlags] has its flags and run, [Launcher] the
      lifecycle, [Address] the check of an advertised address, [Registration] the
      slots in etcd, [EtcdLease] the lease of a registration;
    - redlease-load: [CommandFlags], [LoadOptions], [LoadOptionsSafety],
      [Discovery], [LoadClients], [LoadWork], [LoadStats], [LoadStatsSafety], and
      [LoadRun] with runCase and run;
    - redlease-dummy-client: [CommandFlags], [DummyClient], [DummyClientSafety],
      and [DummyRun] with run;
    - redlease-dummy-server: [CommandFlags], [DummyServer], [DummyServerSafety],
      and [DummyRun] with the accept loop.

    The whole deployment: [System] composes server processes that crash and
    restart, clients and the clocks of both.

    ** How code becomes definitions

    A sequential function of the source is a function here, with the same guards
    in the same order; its error is a value and a panic is [None] or the error
    the code recovers to. State that goroutines share is one record; each critical
    section, channel operation or atomic operation is one step, and a run is the
    reflexive and transitive closure of the step relation, so that a theorem on
    reachable states covers all interleavings. Results of the operating system,
    clock readings, random numbers and arrival orders are arguments of the
    definitions or of their steps, over which the theorems quantify.

    ** What is proved

    - Mutual exclusion of the deployment (C1), from: the server refines the table
      of live leases and protects a live one (C2, C4), a lease the client
      considers valid is backed by a quorum (C3), two quorums intersect, and the
      quarantine outlasts what a crashed process granted.
    - The server never loses count of its keys and only moves forward through its
      phases (C8, C9), and every response on a connection answers a request of
      that connection (C14).
    - Requests, responses and frames round-trip over the wire (C11, C12, C13),
      and the ring is a FIFO that loses no wake-up (C6, C18).
    - Acquire, Renew and Release behave on every branch (C7, C15, C16, C19), a
      failed Acquire is undone and its error tells what happened (C17), operations
      end (C21), and healing runs exactly when needed and never after a Release
      (C10, C23); closing the client does not end it
      ([healing_respawns_after_close]).
    - Every call is answered once and nobody waits for ever (C5, C20, C26);
      connections send the queued requests in order (C22, C32); reconnection
      leaves nothing behind (C27) and readiness misses no change (C33).
    - The 1/1 client agrees with the quorum client at one of one (C24, C25).
    - The server command: its command lines mean what they say (C38); from them
      to its end it serves only while registered and leaves nothing behind (C28);
      no two launchers share a slot (C29); a registration is revoked once, after
      its last renewal ([registration_close_once]); the endpoint exports the
      running server ([endpoint_exports_server]).
    - Discovery, reconfiguration, options, cells and measurement of the load
      generator (C30, C31, C34, C37, C39), its matrix and what it starts and
      closes ([load_run_matrix]); the benchmark commands (C36,
      [dummy_run_ends], [dummy_server_answers], [benchmark_flags_roundtrip]);
      metric snapshots (C35) and retry delays (C40).

    ** Assumptions

    - Clocks are monotone within a process; in [System], while a client's clock
      advances by at most the maximum TTL, a server's clock gains at most the
      safety margin on it. Nothing else is assumed of clocks or of the network.
    - Positions of the ring have not wrapped around 64 bits in the theorems that
      say so; everywhere else the wrap-around is part of the definitions.
    - Code outside the repository is an interface with its documented laws, and
      each class has a concrete instance: [FlatBuffers], [FlatBuffersLaws] and
      [FlatBuffersLayout] (instance plainBuffers), [PrometheusLibrary] (instance
      plainLibrary), [PrometheusRegistry] (instance plainRegistry), [EtcdHistory]
      and [EtcdService] (instances in their files). The hash of keys, the dial and
      the object pool are arguments.
    - What Go leaves unspecified, the conversion of a large float to an integer,
      is an argument ([unspecified]) of the durations that use it.

    ** Fuel

    The loops of the heap take as fuel the size of the heap plus one; more fuel
    does not change the result ([down_loop_enough], [up_loop_enough]). The parser
    of IPv6 groups takes eight rounds, since each adds two of the sixteen bytes.
    The parser of durations takes the length of its text ([durationLoop_enough])
    and the printer of numbers twenty digits, which hold every 64-bit value.
    All other loops recurse on the data they walk through: the list of events, of
    bytes, of replicas. An operation that has consumed all its events and still
    waits returns [None]; [operations_terminate] shows how many events suffice.

    ** Not modelled

    - The HTTP server that answers requests to the metrics endpoints, signal
      handlers (a signal is an event), usage texts, printed reports and log lines:
      glue around the standard library.
    - The pools of timers and builders, where a value is reset before every use.
    - The nil checks of the collectors' constructors by reflection.
    - Tests and the documentation.

    ** Plan

    The order followed is: server, wire, quorum client, whole system, 1/1 client,
    metrics, commands. What is left are the text of the printed reports and the
    pools of timers and builders. *)
From stdpp Require Import base gmap list numbers tactics.

#[local] Open Scope Z_scope.

(** ** Machine integers

    A Go integer of width [w] is a [Z]; every operation of the source that can
    leave the range is followed by the conversion below, so that wrap-around is
    visible in the definitions. *)

Definition u8 (z : Z) : Z := z mod 2 ^ 8.
Definition u32 (z : Z) : Z := z mod 2 ^ 32.
Definition u64 (z : Z) : Z := z mod 2 ^ 64.
Definition i64 (z : Z) : Z := (z + 2 ^ 63) mod 2 ^ 64 - 2 ^ 63.

Definition is_u8 (z : Z) : Prop := 0 <= z < 2 ^ 8.
Definition is_u32 (z : Z) : Prop := 0 <= z < 2 ^ 32.
Definition is_u64 (z : Z) : Prop := 0 <= z < 2 ^ 64.
Definition is_i64 (z : Z) : Prop := - 2 ^ 63 <= z < 2 ^ 63.

(** Range side conditions are linear arithmetic over the unfolded bounds. *)
Ltac in_range := unfold is_u8, is_u32, is_u64, is_i64 in *; lia.

Lemma u8_small z : is_u8 z -> u8 z = z.
Proof. unfold u8, is_u8. apply Z.mod_small. Qed.

Lemma u32_small z : is_u32 z -> u32 z = z.
Proof. unfold u32, is_u32. apply Z.mod_small. Qed.

Lemma u64_small z : is_u64 z -> u64 z = z.
Proof. unfold u64, is_u64. apply Z.mod_small. Qed.

Lemma i64_small z : is_i64 z -> i64 z = z.
Proof. unfold i64, is_i64. intros H. rewrite Z.mod_small; lia. Qed.

Lemma u64_range z : is_u64 (u64 z).
Proof. unfold is_u64, u64. apply Z.mod_pos_bound. lia. Qed.

Lemma i64_range z : is_i64 (i64 z).
Proof.
  unfold is_i64, i64.
  pose proof (Z.mod_pos_bound (z + 2 ^ 63) (2 ^ 64)). lia.
Qed.

(** A mask bounds an index. *)
Lemma land_le_r a b : 0 <= a -> 0 <= b -> 0 <= Z.land a b <= b.
Proof.
  intros Ha Hb. split; [apply Z.land_nonneg; by left|].
  destruct a as [|p|p], b as [|q|q]; try lia; [done..|].
  change (Z.of_N (N.land (Npos p) (Npos q)) <= Z.of_N (Npos q)).
  apply N2Z.inj_le, N.land_le_r.
Qed.

(** [n & (n - 1) == 0] recognises the powers of two. *)
Lemma land_pred_pow2 n : 0 < n -> Z.land n (n - 1) = 0 -> exists k, 0 <= k /\ n = 2 ^ k.
Proof.
  intros Hn Hland. exists (Z.log2 n). pose proof (Z.log2_nonneg n) as Hk. split; [done|].
  pose proof (Z.log2_spec n Hn) as [Hle Hlt]. destruct (decide (n = 2 ^ Z.log2 n)) as [|Hne]; [done|].
  exfalso. assert (Hlog : Z.log2 (n - 1) = Z.log2 n) by (apply Z.log2_unique; lia).
  assert (Hbit : Z.testbit (Z.land n (n - 1)) (Z.log2 n) = true).
  { rewrite Z.land_spec, Z.bit_log2 by lia. rewrite <- Hlog at 1. rewrite Z.bit_log2; [done|].
    pose proof (Z.pow_pos_nonneg 2 (Z.log2 n)). lia. }
  rewrite Hland, Z.bits_0 in Hbit. done.
Qed.

(** ** Monotonic time

    [time.Time] values taken from [time.Now()] carry a monotonic reading; it is
    a number of nanoseconds. [time.Duration] is an [int64] of nanoseconds. *)

Definition Millisecond : Z := 1000000.
Definition Second : Z := 1000000000.

(** [time.Duration(n) * time.Millisecond] for an [uint64] count [n]. *)
Definition durationMS (n : Z) : Z := i64 (i64 n * Millisecond).

(** [Duration.Milliseconds]: integer division truncated towards zero. *)
Definition Milliseconds (d : Z) : Z := Z.quot d Millisecond.

(** [Time.Sub] saturates at the limits of [Duration]. *)
Definition timeSub (t u : Z) : Z := Z.max (- 2 ^ 63) (Z.min (2 ^ 63 - 1) (t - u)).

Definition timeAfter (t u : Z) : bool := u <? t.
Definition timeBefore (t u : Z) : bool := t <? u.
Definition timeAdd (t d : Z) : Z := t + d.

Lemma durationMS_small n :
  0 <= n <= 5000 -> durationMS n = n * Millisecond.
Proof.
  intros H. unfold durationMS, Millisecond.
  rewrite (i64_small n) by in_range. apply i64_small. in_range.
Qed.

Lemma timeSub_small t u : - 2 ^ 63 <= t - u < 2 ^ 63 -> timeSub t u = t - u.
Proof. unfold timeSub. lia. Qed.

Lemma Milliseconds_le d : 0 <= d -> Milliseconds d * Millisecond <= d.
Proof.
  intros Hd. unfold Milliseconds, Millisecond.
  rewrite Z.quot_div_nonneg by lia.
  pose proof (Z.mul_div_le d 1000000). lia.
Qed.

Lemma Milliseconds_mul n : Milliseconds (n * Millisecond) = n.
Proof. unfold Milliseconds, Millisecond. apply Z.quot_mul. lia. Qed.

Lemma Milliseconds_pos d : 0 < Milliseconds d <-> Millisecond <= d.
Proof.
  unfold Milliseconds, Millisecond. split; intros H.
  - destruct (Z.le_gt_cases 1000000 d); [done|].
    destruct (Z.le_gt_cases 0 d).
    + rewrite Z.quot_small in H; lia.
    + pose proof (Z.quot_le_upper_bound d 1000000 0). lia.
  - rewrite Z.quot_div_nonneg by lia. apply Z.div_str_pos. lia.
Qed.

(** The zero [time.Time{}] has no monotonic reading; compared with a reading it
    falls back to the wall clock, where it is the year 1. It is represented by
    an instant that precedes every monotonic reading, which is non-negative. *)
Definition zeroTime : Z := - 2 ^ 63.

(** ** Lists *)

Section Lists.
Context {A : Type}.
Implicit Types l : list A.

(** Exchange of two in-range positions of a slice: [s[i], s[j] = s[j], s[i]]. *)
Definition list_swap (l : list A) (i j : nat) : list A :=
  match l !! i, l !! j with
  | Some a, Some b => <[i := b]> (<[j := a]> l)
  | _, _ => l
  end.

Lemma length_list_swap l i j : length (list_swap l i j) = length l.
Proof. unfold list_swap. repeat case_match; rewrite ?length_insert; done. Qed.

Lemma lookup_list_swap l i j k :
  (i < length l)%nat -> (j < length l)%nat ->
  list_swap l i j !! k =
    if decide (k = i) then l !! j else if decide (k = j) then l !! i else l !! k.
Proof.
  intros [a Ha]%lookup_lt_is_Some_2 [b Hb]%lookup_lt_is_Some_2.
  unfold list_swap. rewrite Ha, Hb.
  pose proof (lookup_lt_Some _ _ _ Ha). pose proof (lookup_lt_Some _ _ _ Hb).
  destruct (decide (k = i)) as [->|].
  - by rewrite list_lookup_insert_eq by (rewrite length_insert; lia).
  - rewrite list_lookup_insert_ne by done. case_decide as Hk; [subst|].
    + by rewrite list_lookup_insert_eq by lia.
    + by rewrite list_lookup_insert_ne.
Qed.

Lemma list_swap_Permutation l i j : list_swap l i j ≡ₚ l.
Proof.
  unfold list_swap. destruct (l !! i) as [a|] eqn:Ha; [|done].
  destruct (l !! j) as [b|] eqn:Hb; [|done].
  destruct (decide (i = j)) as [->|Hij].
  { replace b with a by congruence. by rewrite list_insert_insert_eq, list_insert_id. }
  pose proof (lookup_lt_Some _ _ _ Ha). pose proof (lookup_lt_Some _ _ _ Hb).
  assert (Hb' : <[i:=b]> (<[j:=a]> l) !! j = Some a)
    by (rewrite list_lookup_insert_ne by done; by rewrite list_lookup_insert_eq).
  rewrite (Permutation_inj (<[i:=b]> (<[j:=a]> l)) l). split.
  - by rewrite !length_insert.
  - exists (fun k => if decide (k = i) then j else if decide (k = j) then i else k).
    split.
    + intros x y. repeat case_decide; subst; congruence.
    + intros k. repeat case_decide; subst; try done.
      * by rewrite list_lookup_insert_eq by (rewrite length_insert; lia).
      * by rewrite Hb'.
      * by rewrite !list_lookup_insert_ne.
Qed.

Lemma list_insert_Permutation l i x y : l !! i = Some x -> <[i := y]> l ≡ₚ y :: delete i l.
Proof.
  revert i. induction l as [|z l IH]; intros [|i] Hi; simplify_eq/=; [done|].
  rewrite (IH i Hi). by constructor.
Qed.

Lemma lookup_last_removelast l n x :
  length l = S n -> l !! n = Some x -> take n l ++ [x] = l.
Proof.
  intros Hl Hx. rewrite <- (take_drop n l) at 2. f_equal.
  by rewrite (drop_S l x n), drop_ge by (done || lia).
Qed.

End Lists.

Lemma sum_list_with_insert {A} (f : A -> nat) (l : list A) i x y :
  l !! i = Some x ->
  (sum_list_with f (<[i:=y]> l) + f x = sum_list_with f l + f y)%nat.
Proof.
  revert i. induction l as [|z l IH]; intros [|i] Hi; simplify_eq/=; [lia|].
  specialize (IH i Hi). lia.
Qed.

Lemma sum_list_with_lookup_le {A} (f : A -> nat) (l : list A) i x :
  l !! i = Some x -> (f x <= sum_list_with f l)%nat.
Proof.
  revert i. induction l as [|z l IH]; intros [|i] Hi; simplify_eq/=; [lia|].
  specialize (IH i Hi). lia.
Qed.

(** ** Finite maps *)

(** A list of maps in which a key lives in at most one map. *)
Section MapList.
Context `{Countable K} {V : Type}.
Implicit Types ms : list (gmap K V).

Lemma lookup_union_list_home ms j k :
  (forall i m, ms !! i = Some m -> is_Some (m !! k) -> i = j) ->
  (⋃ ms) !! k = ms !! j ≫= (.!! k).
Proof.
  revert j. induction ms as [|m ms IH]; intros j Hj; simpl; [by rewrite lookup_empty|].
  destruct (m !! k) as [v|] eqn:Hk.
  - rewrite (lookup_union_Some_l _ _ _ v) by done.
    assert (O = j) as <- by (by apply (Hj O m)). simpl. by rewrite Hk.
  - rewrite lookup_union_r by done. destruct j as [|j]; simpl.
    + rewrite Hk. rewrite (IH (length ms)); [by rewrite (lookup_ge_None_2 ms)|].
      intros i m' Hi Hs. specialize (Hj (S i) m' Hi Hs). done.
    + apply IH. intros i m' Hi Hs. specialize (Hj (S i) m' Hi Hs). lia.
Qed.

Lemma size_union_list ms :
  (forall i j m m' k, ms !! i = Some m -> ms !! j = Some m' ->
    is_Some (m !! k) -> is_Some (m' !! k) -> i = j) ->
  size (⋃ ms) = sum_list_with size ms.
Proof.
  induction ms as [|m ms IH]; intros Hd; simpl; [by rewrite map_size_empty|].
  rewrite map_size_disj_union.
  - rewrite IH; [done|]. intros i j m1 m2 k Hi Hj H1 H2.
    specialize (Hd (S i) (S j) m1 m2 k Hi Hj H1 H2). lia.
  - apply map_disjoint_spec. intros k v w Hv Hw.
    destruct (decide (Exists (fun m' => is_Some (m' !! k)) ms)) as [He|He].
    + apply list.Exists_exists in He as (m' & Hin & Hs). apply list_elem_of_lookup in Hin as [j Hj].
      specialize (Hd O (S j) m m' k eq_refl Hj). rewrite Hv in Hd. by discriminate Hd.
    + apply He. clear -Hw. induction ms as [|m' ms IH]; simpl in Hw; [by rewrite lookup_empty in Hw|].
      destruct (m' !! k) eqn:Hk; [left; by rewrite Hk|right; apply IH].
      by rewrite lookup_union_r in Hw.
Qed.

End MapList.

Lemma map_size_delete_S `{Countable K} {V} (m : gmap K V) k v :
  m !! k = Some v -> size m = S (size (delete k m)).
Proof.
  intros Hk. rewrite <- (insert_delete_id m k v Hk) at 1.
  apply map_size_insert_None. apply lookup_delete_eq.
Qed.
