(* ===== verification/GoText.v ===== *)
(** * Strings and numbers as the commands read them

    What the commands use of the packages strings and strconv of the standard
    library. A text is a list of code points, or of bytes where it holds an
    address or a number. *)

From stdpp Require Import base list numbers strings.
From S2P Require Import Prelude.

#[local] Open Scope Z_scope.

Notation text := (list Z).

(** [unicode.IsSpace]. *)
Definition IsSpace (r : Z) : bool :=
  bool_decide (r ∈ [9; 10; 11; 12; 13; 32; 133; 160; 5760; 8232; 8233; 8239; 8287; 12288]) ||
  ((8192 <=? r) && (r <=? 8202)).

Fixpoint trimLeft (s : text) : text :=
  match s with
  | [] => []
  | r :: s' => if IsSpace r then trimLeft s' else s
  end.

Definition TrimSpace (s : text) : text := reverse (trimLeft (reverse (trimLeft s))).

Definition comma : Z := 44.

(** [strings.Split(s, ",")]. *)
Fixpoint Split (s : text) : list text :=
  match s with
  | [] => [[]]
  | r :: s =>
      if r =? comma then [] :: Split s
      else match Split s with
           | [] => [[r]]
           | part :: parts => (r :: part) :: parts
           end
  end.

Definition isDigit (r : Z) : bool := (48 <=? r) && (r <=? 57).

Definition digitsValue : text -> Z := foldl (fun v r => 10 * v + (r - 48)) 0.

(** A leading sign: whether it is negative, and the rest. *)
Definition splitSign (s : text) : bool * text :=
  match s with
  | [] => (false, [])
  | r :: rest => if r =? 45 then (true, rest) else if r =? 43 then (false, rest) else (false, s)
  end.

(** [strconv.Atoi]; [None] is a syntax or a range error. *)
Definition Atoi (s : text) : option Z :=
  let '(negative, digits) := splitSign s in
  if bool_decide (digits = []) || negb (forallb isDigit digits) then None
  else
    let v := if negative : bool then - digitsValue digits else digitsValue digits in
    if bool_decide (is_i64 v) then Some v else None.

(** The bytes of a string. *)
Fixpoint bytesOf (s : string) : text :=
  match s with
  | EmptyString => []
  | String c s => Z.of_N (Ascii.N_of_ascii c) :: bytesOf s
  end.

(** [strconv.ParseUint(s, 10, bits)]. *)
Definition ParseUint10 (bits : Z) (s : text) : option Z :=
  if bool_decide (s = []) || negb (forallb isDigit s) then None
  else if digitsValue s <? 2 ^ bits then Some (digitsValue s) else None.

(** The string with the given bytes. *)
Definition stringOf (s : text) : string := String.string_of_list_ascii ((fun b => Ascii.ascii_of_N (Z.to_N b)) <$> s).

Lemma stringOf_bytesOf s : stringOf (bytesOf s) = s.
Proof.
  unfold stringOf. induction s as [|a s IH]; [done|]. simpl. rewrite N2Z.id, Ascii.ascii_N_embedding. f_equal. exact IH.
Qed.

Lemma bytesOf_inj s t : bytesOf s = bytesOf t -> s = t.
Proof. intros H. by rewrite <- (stringOf_bytesOf s), H, stringOf_bytesOf. Qed.
