(* ===== verification/Address.v ===== *)
(** * Advertised addresses (src/cmd/redlease-server/etcd_registration.go)

    [validateEtcdAdvertiseAddress] with what it uses of package net:
    [SplitHostPort] and [ParseIP], which reads IPv4 and IPv6 addresses with
    state machines over the bytes. *)

From stdpp Require Import base list numbers strings.
From S2P Require Import Prelude GoText.

#[local] Open Scope Z_scope.

Definition dot : Z := 46.
Definition colon : Z := 58.
Definition percent : Z := 37.
Definition openBracket : Z := 91.
Definition closeBracket : Z := 93.

(** ** [net.SplitHostPort] *)

(** [IndexByteString] and [LastIndexByteString]. *)
Fixpoint indexByte (c : Z) (s : text) : option nat :=
  match s with
  | [] => None
  | b :: s => if b =? c then Some 0%nat else S <$> indexByte c s
  end.

Definition lastIndexByte (c : Z) (s : text) : option nat :=
  i ← indexByte c (reverse s);
  Some (length s - 1 - i)%nat.

Inductive splitError := missingPort | tooManyColons | missingBracket | unexpectedOpen | unexpectedClose.

(** The checks for stray brackets at the end of [SplitHostPort]. *)
Definition finishSplit (hostport host : text) (i j k : nat) : splitError + text * text :=
  match indexByte openBracket (drop j hostport), indexByte closeBracket (drop k hostport) with
  | Some _, _ => inl unexpectedOpen
  | None, Some _ => inl unexpectedClose
  | None, None => inr (host, drop (S i) hostport)
  end.

Definition SplitHostPort (hostport : text) : splitError + text * text :=
  match lastIndexByte colon hostport with
  | None => inl missingPort
  | Some i =>
      if decide (head hostport = Some openBracket) then
        match indexByte closeBracket hostport with
        | None => inl missingBracket
        | Some close =>
            if decide (S close = length hostport) then inl missingPort
            else if decide (S close = i) then finishSplit hostport (take (close - 1) (drop 1 hostport)) i 1 (S close)
            else if decide (hostport !! S close = Some colon) then inl tooManyColons
            else inl missingPort
        end
      else
        let host := take i hostport in
        match indexByte colon host with
        | Some _ => inl tooManyColons
        | None => finishSplit hostport host i 0 0
        end
  end.

(** ** [net.ParseIP] *)

(** The loop of [parseIPv4Fields]: the byte before, the value and the number of
    digits of the current field, and the fields before it. *)
Fixpoint parseIPv4Fields (prev : option Z) (val digLen : Z) (fields : list Z) (s : text) : option (list Z) :=
  match s with
  | [] => if (Z.of_nat (length fields) <? 3) then None else Some (fields ++ [u8 val])
  | c :: s =>
      if isDigit c then
        if (digLen =? 1) && (val =? 0) then None
        else
          let val := val * 10 + (c - 48) in
          if 255 <? val then None else parseIPv4Fields (Some c) val (digLen + 1) fields s
      else if c =? dot then
        if decide (prev = None \/ s = [] \/ prev = Some dot) then None
        else if decide (length fields = 3%nat) then None
        else parseIPv4Fields (Some c) 0 0 (fields ++ [u8 val]) s
      else None
  end.

Definition parseIPv4 (s : text) : option (list Z) := parseIPv4Fields None 0 0 [] s.

Definition hexDigit (c : Z) : option Z :=
  if isDigit c then Some (c - 48)
  else if (97 <=? c) && (c <=? 102) then Some (c - 97 + 10)
  else if (65 <=? c) && (c <=? 70) then Some (c - 65 + 10)
  else None.

(** The inner loop of [parseIPv6]: the value, the number of digits and the rest.
    [None]: more than four digits. *)
Fixpoint hexGroup (off : nat) (acc : Z) (s : text) : option (Z * nat * text) :=
  match s with
  | [] => Some (acc, off, [])
  | c :: s' =>
      match hexDigit c with
      | None => Some (acc, off, s)
      | Some d =>
          let acc := Z.shiftl acc 4 + d in
          if decide (3 < off)%nat then None
          else if 65535 <? acc then None
          else hexGroup (S off) acc s'
      end
  end.

(** The outer loop of [parseIPv6], with the bytes of the address so far and the
    position of the ellipsis: the bytes, the ellipsis and the rest of the text.
    A round adds two bytes, so that eight rounds are enough. *)
Fixpoint parseIPv6Groups (fuel : nat) (ip : list Z) (ellipsis : option nat) (s : text) : option (list Z * option nat * text) :=
  match fuel with
  | O => Some (ip, ellipsis, s)
  | S fuel =>
      if decide (16 <= length ip)%nat then Some (ip, ellipsis, s)
      else
        '(acc, off, rest) ← hexGroup 0 0 s;
        if decide (off = 0%nat) then None
        else if decide (head rest = Some dot) then
          if decide (ellipsis = None /\ length ip <> 12%nat) then None
          else if decide (16 < length ip + 4)%nat then None
          else fields ← parseIPv4Fields None 0 0 [] s; Some (ip ++ fields, ellipsis, [])
        else
          let ip := ip ++ [u8 (Z.shiftr acc 8); u8 acc] in
          match rest with
          | [] => Some (ip, ellipsis, [])
          | c :: rest =>
              if negb (c =? colon) then None
              else match rest with
                   | [] => None
                   | c2 :: rest2 =>
                       if c2 =? colon then
                         match ellipsis with
                         | Some _ => None
                         | None => match rest2 with
                                   | [] => Some (ip, Some (length ip), [])
                                   | _ => parseIPv6Groups fuel ip (Some (length ip)) rest2
                                   end
                         end
                       else parseIPv6Groups fuel ip ellipsis rest
                   end
          end
  end.

(** The end of [parseIPv6]. *)
Definition finishIPv6 (ip : list Z) (ellipsis : option nat) (rest : text) : option (list Z) :=
  if decide (rest <> []) then None
  else if decide (length ip < 16)%nat then
    match ellipsis with
    | None => None
    | Some e => Some (take e ip ++ replicate (16 - length ip) 0 ++ drop e ip)
    end
  else match ellipsis with Some _ => None | None => Some ip end.

(** [parseIPv6]: the address and whether it has a zone. *)
Definition parseIPv6 (s : text) : option (list Z * bool) :=
  '(s, zone) ← match indexByte percent s with
               | None => Some (s, false)
               | Some i => if decide (drop (S i) s = []) then None else Some (take i s, true)
               end;
  let unspecified := replicate 16 0 in
  match s with
  | c1 :: c2 :: rest =>
      if (c1 =? colon) && (c2 =? colon) then
        match rest with
        | [] => Some (unspecified, zone)
        | _ => '(ip, ellipsis, rest) ← parseIPv6Groups 8 [] (Some 0%nat) rest; ip ← finishIPv6 ip ellipsis rest; Some (ip, zone)
        end
      else '(ip, ellipsis, rest) ← parseIPv6Groups 8 [] None s; ip ← finishIPv6 ip ellipsis rest; Some (ip, zone)
  | _ => '(ip, ellipsis, rest) ← parseIPv6Groups 8 [] None s; ip ← finishIPv6 ip ellipsis rest; Some (ip, zone)
  end.

(** [netip.ParseAddr]: the first of the bytes '.', ':' and '%' decides. *)
Fixpoint addressKind (s : text) : option Z :=
  match s with
  | [] => None
  | c :: s => if (c =? dot) || (c =? colon) || (c =? percent) then Some c else addressKind s
  end.

(** [net.ParseIP]; an address with a zone is none. *)
Definition ParseIP (s : text) : option (list Z) :=
  match addressKind s with
  | Some c =>
      if c =? dot then parseIPv4 s
      else if c =? colon then
        match parseIPv6 s with
        | Some (ip, false) => Some ip
        | _ => None
        end
      else None
  | None => None
  end.

(** ** [validateEtcdAdvertiseAddress] *)

Inductive addressError := errSplit (e : splitError) | errNotIP | errPort.

Definition validateEtcdAdvertiseAddress (address : text) : option addressError :=
  match SplitHostPort address with
  | inl e => Some (errSplit e)
  | inr (host, rawPort) =>
      match ParseIP host with
      | None => Some errNotIP
      | Some _ =>
          match ParseUint10 16 rawPort with
          | None => Some errPort
          | Some port => if port =? 0 then Some errPort else None
          end
      end
  end.

Example addresses_accepted :
  (validateEtcdAdvertiseAddress ∘ bytesOf) <$> ["127.0.0.1:17379"; "[::1]:80"; "[2001:db8::7:1.2.3.4]:65535"; "[1:2:3:4:5:6:7:8]:1"] =
  [None; None; None; None].
Proof. vm_compute. reflexivity. Qed.

Example addresses_refused :
  (validateEtcdAdvertiseAddress ∘ bytesOf) <$>
    ["127.0.0.1"; "localhost:1"; "127.0.0.01:1"; "127.0.0.1:0"; "127.0.0.1:65536"; "::1:80"; "[::1%eth0]:80"; "[::1]"; "[1::2::3]:1"; "[12345::]:1"] =
  [Some (errSplit missingPort); Some errNotIP; Some errNotIP; Some errPort; Some errPort; Some (errSplit tooManyColons);
   Some errNotIP; Some (errSplit missingPort); Some errNotIP; Some errNotIP].
Proof. vm_compute. reflexivity. Qed.

(** ** The reference: four decimal numbers *)

Definition digit (c : Z) : Prop := 48 <= c <= 57.

(** A number up to 255 without leading zeros. *)
Definition octet (p : text) : Prop :=
  p <> [] /\ Forall digit p /\ (length p = 1%nat \/ head p <> Some 48) /\ digitsValue p <= 255.

Fixpoint joinDots (parts : list text) : text :=
  match parts with
  | [] => []
  | [p] => p
  | p :: parts => p ++ dot :: joinDots parts
  end.

(** What follows the first part. *)
Definition dotted (parts : list text) : text := match parts with [] => [] | _ => dot :: joinDots parts end.

Lemma joinDots_cons p parts : joinDots (p :: parts) = p ++ dotted parts.
Proof. destruct parts; simpl; [by rewrite app_nil_r|done]. Qed.

Lemma isDigit_spec c : isDigit c = true <-> digit c.
Proof. unfold isDigit, digit. rewrite andb_true_iff, !Z.leb_le. done. Qed.

Lemma isDigit_false c : isDigit c = false <-> ~ digit c.
Proof. rewrite <- isDigit_spec. by destruct (isDigit c). Qed.

Lemma digit_not c : digit c -> c <> dot /\ c <> colon /\ c <> percent /\ c <> openBracket /\ c <> closeBracket.
Proof. unfold digit, dot, colon, percent, openBracket, closeBracket. lia. Qed.

Lemma digitsValue_snoc p c : digitsValue (p ++ [c]) = digitsValue p * 10 + (c - 48).
Proof. unfold digitsValue. rewrite foldl_app. simpl. lia. Qed.

Lemma digitsValue_mono p q : Forall digit (p ++ q) -> 0 <= digitsValue p <= digitsValue (p ++ q).
Proof.
  induction q as [|c q IH] using rev_ind; intros Hd.
  - rewrite app_nil_r in *. split; [|done]. induction p as [|c p IH] using rev_ind; [done|].
    apply Forall_app in Hd as [Hp Hc]. apply Forall_cons_1 in Hc as [Hc _]. rewrite digitsValue_snoc. specialize (IH Hp). unfold digit in Hc. lia.
  - rewrite app_assoc in *. apply Forall_app in Hd as [Hpq Hc]. apply Forall_cons_1 in Hc as [Hc _]. rewrite digitsValue_snoc.
    specialize (IH Hpq). unfold digit in Hc. lia.
Qed.

(** The digits before the first dot belong to the first part. *)
Lemma first_part cur s p parts :
  Forall digit cur -> Forall octet (p :: parts) -> cur ++ s = joinDots (p :: parts) ->
  exists q, p = cur ++ q /\ s = q ++ dotted parts.
Proof.
  intros Hcur Hparts Heq. rewrite joinDots_cons in Heq. apply app_eq_inv in Heq as [(k & -> & Hs)|(k & -> & Hs)].
  - destruct k as [|c k]; [exists []; simpl in *; by rewrite !app_nil_r|].
    exfalso. apply Forall_app in Hcur as [_ Hk]. apply Forall_cons_1 in Hk as [Hc _].
    destruct parts; simpl in Hs; [done|]. injection Hs as <- _. by apply digit_not in Hc as [? _].
  - exists k. done.
Qed.

Lemma octet_nonempty parts : Forall octet parts -> parts <> [] -> joinDots parts <> [].
Proof.
  intros Hf Hne. destruct parts as [|p parts]; [done|]. apply Forall_cons_1 in Hf as [[Hp _] _]. rewrite joinDots_cons.
  by destruct p.
Qed.

Lemma joinDots_chars parts c : Forall octet parts -> c ∈ joinDots parts -> digit c \/ c = dot.
Proof.
  induction 1 as [|p parts (_ & Hd & _) _ IH]; [by intros ?%not_elem_of_nil|]. rewrite joinDots_cons, elem_of_app.
  intros [Hc|Hc]; [left; by eapply Forall_forall in Hd|]. destruct parts; [by apply not_elem_of_nil in Hc|].
  apply elem_of_cons in Hc as [->|Hc]; [by right|by apply IH].
Qed.

(** The state machine accepts exactly the rest of a dotted address. *)
Lemma parseIPv4Fields_spec s : forall prev cur fields out,
  (cur = [] \/ octet cur) ->
  (cur = [] -> (prev = None \/ prev = Some dot) /\ (fields <> [] -> s <> [])) ->
  (cur <> [] -> exists c, prev = Some c /\ digit c) ->
  (length fields <= 3)%nat ->
  parseIPv4Fields prev (digitsValue cur) (Z.of_nat (length cur)) fields s = Some out <->
  exists parts, (length parts + length fields = 4)%nat /\ Forall octet parts /\ cur ++ s = joinDots parts /\
    out = fields ++ (digitsValue <$> parts).
Proof.
  induction s as [|c s IH]; intros prev cur fields out Hcur Hempty Hprev Hlen; simpl.
  - rewrite app_nil_r. destruct (Z.ltb_spec (Z.of_nat (length fields)) 3) as [Hlt|Hge].
    + split; [done|]. intros (parts & Hn & Hf & Hj & _). destruct parts as [|p [|p2 parts]]; simpl in Hn; try lia.
      assert (Hd : dot ∈ cur) by (rewrite Hj; simpl; apply elem_of_app; right; by left).
      destruct Hcur as [->|(_ & Hd' & _)]; [by apply not_elem_of_nil in Hd|].
      eapply Forall_forall in Hd' as [Hx _]%digit_not; [|exact Hd]. done.
    + assert (Hne : cur <> []) by (intros Hc; destruct (Hempty Hc) as [_ He]; apply He; [by destruct fields|done]).
      destruct Hcur as [->|Ho]; [done|]. pose proof Ho as (_ & Hd & _ & Hv).
      pose proof (digitsValue_mono cur [] ltac:(by rewrite app_nil_r)) as [H0 _]. rewrite u8_small by in_range. split.
      * intros [= <-]. exists [cur]. split_and!; [simpl; lia|by constructor|done|done].
      * intros (parts & Hn & Hf & Hj & ->). destruct parts as [|p [|]]; simpl in Hn; try lia. simpl in Hj. by subst.
  - destruct (isDigit c) eqn:Hdig.
    + apply isDigit_spec in Hdig.
      assert (Hcd : Forall digit (cur ++ [c])).
      { apply Forall_app. split; [|by constructor]. destruct Hcur as [->|(_ & ? & _)]; [constructor|done]. }
      destruct ((Z.of_nat (length cur) =? 1) && (digitsValue cur =? 0)) eqn:Hz.
      * apply andb_true_iff in Hz as [Hl Hv]. apply Z.eqb_eq in Hl, Hv. destruct cur as [|c0 [|]]; simpl in Hl; try lia.
        unfold digitsValue in Hv. simpl in Hv. assert (c0 = 48) as -> by lia. split; [done|].
        intros (parts & _ & Hf & Hj & _). destruct parts as [|p parts]; [done|].
        destruct (first_part [48; c] s p parts) as (q & -> & _); [done..|].
        apply Forall_cons_1 in Hf as [(_ & _ & [Hx|Hx] & _) _]; simpl in Hx; [lia|done].
      * rewrite <- digitsValue_snoc. assert (Hv0 : forall q, Forall digit ((cur ++ [c]) ++ q) -> digitsValue (cur ++ [c]) <= digitsValue ((cur ++ [c]) ++ q))
          by (intros q Hq; by apply digitsValue_mono).
        destruct (Z.ltb_spec 255 (digitsValue (cur ++ [c]))) as [Hbig|Hsmall].
        -- split; [done|]. intros (parts & _ & Hf & Hj & _). destruct parts as [|p parts]; [by destruct cur|].
           rewrite (app_assoc cur [c] s) in Hj || (change (c :: s) with ([c] ++ s) in Hj; rewrite app_assoc in Hj).
           destruct (first_part (cur ++ [c]) s p parts) as (q & -> & _); [done..|].
           apply Forall_cons_1 in Hf as [(_ & Hd & _ & Hv) _]. specialize (Hv0 q Hd). lia.
        -- replace (Z.of_nat (length cur) + 1) with (Z.of_nat (length (cur ++ [c]))) by (rewrite length_app; simpl; lia).
           rewrite IH; [by rewrite <- app_assoc| |by destruct cur|intros _; by exists c|done].
           right. split_and!; [by destruct cur|done| |done]. destruct Hcur as [->|(Hne & Hd & Hh & _)]; [by left|].
           right. destruct cur as [|c0 cur]; [done|]. simpl. intros [= ->]. destruct Hh as [Hl|Hh]; [|by apply Hh].
           destruct cur; [|simpl in Hl; lia]. by rewrite andb_false_iff in Hz; destruct Hz as [Hz|Hz]; apply Z.eqb_neq in Hz; [simpl in Hz; lia|unfold digitsValue in Hz; simpl in Hz; lia].
    + apply isDigit_false in Hdig. destruct (Z.eqb_spec c dot) as [->|Hnd].
      * case_decide as Hbad.
        -- split; [done|]. intros (parts & Hn & Hf & Hj & _). destruct parts as [|p parts]; [by destruct cur|].
           assert (Hcd : Forall digit cur) by (destruct Hcur as [->|(_ & ? & _)]; [constructor|done]).
           destruct (first_part cur (dot :: s) p parts) as (q & -> & Hs); [done..|].
           pose proof Hf as [(Hne & Hdq & _) Hfs]%Forall_cons_1. apply Forall_app in Hdq as [_ Hdq].
           destruct q as [|c0 q]; [|injection Hs as <- _; apply Forall_cons_1 in Hdq as [?%digit_not _]; naive_solver].
           rewrite app_nil_r in Hne. destruct (Hprev Hne) as (c1 & -> & Hc1). apply digit_not in Hc1 as [Hc1 _].
           destruct Hbad as [|[->|[= ->]]]; [done| |done]. destruct parts as [|p2 parts]; simpl in Hs; [done|].
           injection Hs as Hs. by apply (octet_nonempty (p2 :: parts)) in Hfs.
        -- case_decide as H3.
           ++ split; [done|]. intros (parts & Hn & Hf & Hj & _). destruct parts as [|p [|]]; simpl in Hn; try lia. simpl in Hj.
              apply Forall_cons_1 in Hf as [(_ & Hd & _) _]. assert (Hin : dot ∈ p) by (rewrite <- Hj; apply elem_of_app; right; by left).
              eapply Forall_forall in Hd as [Hx _]%digit_not; [|exact Hin]. done.
           ++ assert (Hne : cur <> []) by (intros Hc; destruct (Hempty Hc) as [[]]; naive_solver).
              destruct Hcur as [->|Ho]; [done|]. pose proof Ho as (_ & Hd & _ & Hv).
              pose proof (digitsValue_mono cur [] ltac:(by rewrite app_nil_r)) as [H0 _]. rewrite u8_small by in_range.
              rewrite (IH (Some dot) [] (fields ++ [digitsValue cur])); [|by left| |done|rewrite length_app; simpl; lia].
              ** split; intros (parts & Hn & Hf & Hj & Hout).
                 --- exists (cur :: parts). rewrite length_app in Hn. simpl in *. split_and!; [lia|by constructor| |].
                     +++ destruct parts; [simpl in Hn; lia|]. by rewrite Hj.
                     +++ by rewrite Hout, <- app_assoc.
                 --- destruct parts as [|p parts]; [by destruct cur|].
                     destruct (first_part cur (dot :: s) p parts) as (q & -> & Hs); [done..|].
                     pose proof Hf as [(_ & Hdq & _) Hfs]%Forall_cons_1. apply Forall_app in Hdq as [_ Hdq].
                     destruct q as [|c0 q]; [|injection Hs as <- _; apply Forall_cons_1 in Hdq as [?%digit_not _]; naive_solver].
                     rewrite app_nil_r in *. exists parts. rewrite length_app. simpl in *. destruct parts as [|p2 parts]; [done|].
                     injection Hs as ->. split_and!; [lia|done|done|]. by rewrite Hout, <- app_assoc.
              ** intros _. split; [by right|]. intros _ ->. apply Hbad. auto.
      * split; [done|]. intros (parts & _ & Hf & Hj & _).
        assert (Hin : c ∈ joinDots parts) by (rewrite <- Hj; apply elem_of_app; right; by left).
        by destruct (joinDots_chars parts c Hf Hin).
Qed.

Lemma parseIPv4_exact s out :
  s <> [] -> parseIPv4 s = Some out <->
  exists parts, length parts = 4%nat /\ Forall octet parts /\ s = joinDots parts /\ out = digitsValue <$> parts.
Proof.
  intros Hs. unfold parseIPv4. rewrite (parseIPv4Fields_spec s None [] [] out); [|by left|auto|done|simpl; lia].
  split; intros (parts & Hn & Hf & Hj & Ho); exists parts; simpl in *; split_and!; try done; lia.
Qed.

(** ** Splitting *)

Lemma indexByte_None c s : indexByte c s = None <-> c ∉ s.
Proof.
  induction s as [|b s IH]; simpl; [split; [by intros _ ?%not_elem_of_nil|done]|].
  rewrite not_elem_of_cons. destruct (Z.eqb_spec b c) as [->|Hne]; [naive_solver|]. rewrite fmap_None, IH. naive_solver.
Qed.

Lemma indexByte_first c a b : c ∉ a -> indexByte c (a ++ c :: b) = Some (length a).
Proof.
  induction a as [|x a IH]; intros Hn; simpl; [by rewrite Z.eqb_refl|]. apply not_elem_of_cons in Hn as [Hx Hn].
  destruct (Z.eqb_spec x c); [done|]. by rewrite IH.
Qed.

Lemma indexByte_Some c s i : indexByte c s = Some i -> exists a b, s = a ++ c :: b /\ length a = i /\ c ∉ a.
Proof.
  revert i. induction s as [|x s IH]; intros i Hi; simpl in Hi; [done|]. destruct (Z.eqb_spec x c) as [->|Hne].
  - injection Hi as <-. exists [], s. split_and!; try done. by apply not_elem_of_nil.
  - apply fmap_Some in Hi as (j & Hj & ->). apply IH in Hj as (a & b & -> & <- & Hn). exists (x :: a), b.
    split_and!; try done. by apply not_elem_of_cons.
Qed.

Lemma lastIndexByte_app c a b : c ∉ b -> lastIndexByte c (a ++ c :: b) = Some (length a).
Proof.
  intros Hn. unfold lastIndexByte. rewrite reverse_app, reverse_cons, <- app_assoc. simpl.
  rewrite indexByte_first by by rewrite elem_of_reverse. simpl. rewrite length_app, length_reverse. simpl. f_equal. lia.
Qed.

Lemma lastIndexByte_Some c s i : lastIndexByte c s = Some i -> exists a b, s = a ++ c :: b /\ length a = i /\ c ∉ b.
Proof.
  unfold lastIndexByte. intros Hi. destruct (indexByte c (reverse s)) as [j|] eqn:Hj; [|done]. injection Hi as <-.
  apply indexByte_Some in Hj as (a & b & Heq & <- & Hn). apply (f_equal reverse) in Heq.
  rewrite reverse_involutive, reverse_app, reverse_cons, <- app_assoc in Heq. simpl in Heq.
  exists (reverse b), (reverse a). split_and!; [done| |by rewrite elem_of_reverse].
  rewrite Heq, length_app, !length_reverse. simpl. rewrite length_reverse. lia.
Qed.

(** Without brackets the address is split at its only colon. *)
Lemma SplitHostPort_plain s host port :
  head s <> Some openBracket ->
  SplitHostPort s = inr (host, port) <->
  s = host ++ colon :: port /\ colon ∉ host /\ colon ∉ port /\ openBracket ∉ s /\ closeBracket ∉ s.
Proof.
  intros Hh. unfold SplitHostPort. split.
  - destruct (lastIndexByte colon s) as [i|] eqn:Hi; [|done]. rewrite decide_False by done.
    apply lastIndexByte_Some in Hi as (a & b & -> & <- & Hb). rewrite take_app_length.
    destruct (indexByte colon a) eqn:Ha; [done|]. apply indexByte_None in Ha. unfold finishSplit. rewrite !drop_0.
    destruct (indexByte openBracket _) eqn:Ho; [done|]. destruct (indexByte closeBracket _) eqn:Hc; [done|].
    apply indexByte_None in Ho, Hc. intros [= <- Hport]. rewrite drop_app_ge in Hport by lia.
    replace (S (length a) - length a)%nat with 1%nat in Hport by lia. simpl in Hport. rewrite drop_0 in Hport. by subst.
  - intros (-> & Ha & Hb & Ho & Hc). rewrite lastIndexByte_app by done. rewrite decide_False by done.
    rewrite take_app_length. apply indexByte_None in Ha as ->. unfold finishSplit. rewrite !drop_0.
    apply indexByte_None in Ho as ->. apply indexByte_None in Hc as ->. rewrite drop_app_ge by lia.
    replace (S (length host) - length host)%nat with 1%nat by lia. simpl. by rewrite drop_0.
Qed.

Lemma addressKind_dot s : addressKind s = Some dot -> s <> [].
Proof. by destruct s. Qed.

Lemma addressKind_joined p q rest : Forall digit p -> p ++ dot :: rest = q -> addressKind q = Some dot.
Proof.
  intros Hp <-. induction Hp as [|c p Hc _ IH]; simpl; [done|]. destruct (digit_not c Hc) as (H1 & H2 & H3 & _).
  apply Z.eqb_neq in H1, H2, H3. by rewrite H1, H2, H3.
Qed.

Lemma addressKind_in s c : addressKind s = Some c -> c ∈ s.
Proof.
  induction s as [|x s IH]; simpl; [done|]. destruct (_ || _); [intros [= ->]; by left|]. intros Hc. right. by apply IH.
Qed.

(** A host without a colon is an IP address exactly if it is four octets. *)
Lemma ParseIP_plain host out :
  colon ∉ host ->
  ParseIP host = Some out <->
  exists parts, length parts = 4%nat /\ Forall octet parts /\ host = joinDots parts /\ out = digitsValue <$> parts.
Proof.
  intros Hc. unfold ParseIP. split.
  - destruct (addressKind host) as [c|] eqn:Hk; [|done]. destruct (Z.eqb_spec c dot) as [->|Hne].
    + intros Hp. apply parseIPv4_exact; [by apply addressKind_dot|done].
    + destruct (Z.eqb_spec c colon) as [->|]; [|done]. by apply addressKind_in in Hk.
  - intros (parts & Hn & Hf & Hj & Ho). destruct parts as [|p [|p2 parts]]; simpl in Hn; try lia.
    assert (Hk : addressKind host = Some dot).
    { apply (addressKind_joined p _ (joinDots (p2 :: parts))); [|by rewrite Hj]. by apply Forall_cons_1 in Hf as [(_ & ? & _) _]. }
    rewrite Hk. simpl. apply parseIPv4_exact; [by apply addressKind_dot|]. by exists (p :: p2 :: parts).
Qed.

Lemma ParseUint10_Some bits s v :
  ParseUint10 bits s = Some v <-> s <> [] /\ Forall digit s /\ digitsValue s < 2 ^ bits /\ v = digitsValue s.
Proof.
  unfold ParseUint10. assert (Hd : forallb isDigit s = true <-> Forall digit s).
  { rewrite forallb_forall, List.Forall_forall. by setoid_rewrite isDigit_spec. }
  destruct (forallb isDigit s) eqn:Hs; simpl.
  - rewrite orb_false_r. case_bool_decide; [naive_solver|]. destruct (Z.ltb_spec (digitsValue s) (2 ^ bits)); naive_solver (eauto || lia).
  - rewrite orb_true_r. naive_solver.
Qed.

(** The launcher advertises an unbracketed address exactly if it is an IPv4
    address and a port: four decimal numbers from 0 to 255 without leading zeros,
    joined by dots, then a colon and digits whose value lies between 1 and 65535.
    The state machines that read the address agree with this description; host
    names, missing parts and other characters are refused. *)
Theorem advertise_address_exact address :
  head address <> Some openBracket ->
  validateEtcdAdvertiseAddress address = None <->
  exists parts port, length parts = 4%nat /\ Forall octet parts /\ port <> [] /\ Forall digit port /\
    1 <= digitsValue port <= 65535 /\ address = joinDots parts ++ colon :: port.
Proof.
  intros Hh. unfold validateEtcdAdvertiseAddress. split.
  - destruct (SplitHostPort address) as [|[host port]] eqn:Hs; [done|]. apply SplitHostPort_plain in Hs as (-> & Hc & _); [|done].
    destruct (ParseIP host) as [ip|] eqn:Hip; [|done]. apply ParseIP_plain in Hip as (parts & Hn & Hf & -> & _); [|done].
    destruct (ParseUint10 16 port) as [v|] eqn:Hp; [|done]. apply ParseUint10_Some in Hp as (Hne & Hd & Hlt & ->).
    destruct (Z.eqb_spec (digitsValue port) 0); [done|]. intros _. exists parts, port. split_and!; try done; [|lia].
    pose proof (digitsValue_mono port [] ltac:(by rewrite app_nil_r)). lia.
  - intros (parts & port & Hn & Hf & Hne & Hd & Hv & ->).
    assert (Hchars : forall c, c ∈ joinDots parts ++ colon :: port -> digit c \/ c = dot \/ c = colon).
    { intros c [Hc|[->|Hc]%elem_of_cons]%elem_of_app; [apply joinDots_chars in Hc; naive_solver|auto|left].
      by eapply Forall_forall in Hd. }
    assert (Hcolon : colon ∉ joinDots parts).
    { intros [Hc|Hc]%joinDots_chars; [unfold digit, colon in Hc; lia|done|done]. }
    rewrite (proj2 (SplitHostPort_plain _ (joinDots parts) port Hh)).
    + rewrite (proj2 (ParseIP_plain (joinDots parts) (digitsValue <$> parts) Hcolon)); [|by exists parts].
      rewrite (proj2 (ParseUint10_Some 16 port (digitsValue port))) by (split_and!; (done || lia)).
      destruct (Z.eqb_spec (digitsValue port) 0); [lia|done].
    + split_and!; [done| | | |].
      * done.
      * intros Hc. eapply Forall_forall in Hd; [|exact Hc]. unfold digit, colon in Hd. lia.
      * intros [Hc|[Hc|Hc]]%Hchars; [unfold digit, openBracket in Hc; lia|done|done].
      * intros [Hc|[Hc|Hc]]%Hchars; [unfold digit, closeBracket in Hc; lia|done|done].
Qed.

Lemma advertise_address_exact_witness :
  validateEtcdAdvertiseAddress (bytesOf "10.0.255.7:17379") = None /\
  exists parts port, length parts = 4%nat /\ Forall octet parts /\ port <> [] /\ Forall digit port /\
    1 <= digitsValue port <= 65535 /\ bytesOf "10.0.255.7:17379" = joinDots parts ++ colon :: port.
Proof.
  split; [vm_compute; reflexivity|]. apply (advertise_address_exact (bytesOf "10.0.255.7:17379")); [discriminate|].
  vm_compute. reflexivity.
Defined.
