(* ===== verification/Float64.v ===== *)
(** * IEEE 754 binary64 numbers

    The few floating-point operations of the source (the jitter of the back-off
    and the values handed to Prometheus) are those of the Standard Library's
    executable specification of IEEE 754 arithmetic at the parameters of Go's
    [float64]. *)

From Stdlib Require Import ZArith SpecFloat.
From stdpp Require Import base numbers.
From S2P Require Import Prelude.

#[local] Open Scope Z_scope.

Notation float64 := spec_float.

Definition prec : Z := 53.
Definition emax : Z := 1024.

Definition fadd : float64 -> float64 -> float64 := SFadd prec emax.
Definition fsub : float64 -> float64 -> float64 := SFsub prec emax.
Definition fmul : float64 -> float64 -> float64 := SFmul prec emax.
Definition fdiv : float64 -> float64 -> float64 := SFdiv prec emax.
Definition fleb : float64 -> float64 -> bool := SFleb.

(** The conversion [float64(n)] of an integer: rounded to nearest, ties to even. *)
Definition floatOfZ (n : Z) : float64 := binary_normalize prec emax n 0 false.

(** The mathematical value [m * 2^e] truncated towards zero. *)
Definition truncated (s : bool) (m : positive) (e : Z) : Z :=
  let magnitude := if 0 <=? e then Z.pos m * 2 ^ e else Z.pos m / 2 ^ (- e) in
  if s then - magnitude else magnitude.

(** The conversion [int64(x)]. Outside the range of the integer type its result
    is left to the implementation; [unspecified] is that result. *)
Definition int64OfFloat (unspecified : Z) (x : float64) : Z :=
  match x with
  | S754_zero _ => 0
  | S754_infinity _ | S754_nan => i64 unspecified
  | S754_finite s m e =>
      let z := truncated s m e in
      if bool_decide (- 2 ^ 63 <= z < 2 ^ 63) then z else i64 unspecified
  end.

(** [Duration.Seconds]. *)
Definition Seconds (d : Z) : float64 :=
  fadd (floatOfZ (Z.quot d Second)) (fdiv (floatOfZ (Z.rem d Second)) (floatOfZ 1000000000)).

Lemma int64OfFloat_range unspecified x : is_i64 (int64OfFloat unspecified x).
Proof.
  destruct x as [| | |s m e]; simpl; try apply i64_range; [in_range|].
  case_bool_decide as Hd; [in_range|apply i64_range].
Qed.

Lemma floatOfZ_exact_examples :
  floatOfZ 0 = S754_zero false /\ int64OfFloat 0 (floatOfZ 2000000000) = 2000000000 /\
  int64OfFloat 0 (floatOfZ (2 ^ 53 + 1)) = 2 ^ 53.
Proof. split_and!; vm_compute; reflexivity. Qed.
