(* ===== verification/GoFlags.v ===== *)
(** * Command lines as the commands read them

    The package flag of the standard library as far as the commands use it, with
    the values of their flags: strings, unsigned and signed integers with an
    optional base prefix, and durations (strconv.ParseUint and ParseInt at base 0,
    time.ParseDuration). An argument is the list of its code points. *)

From Stdlib Require Import SpecFloat.
From stdpp Require Import base list numbers strings.
From S2P Require Import Prelude GoText Float64.

#[local] Open Scope Z_scope.

(** ** Integers with an optional base prefix *)

Definition underscore : Z := 95.
Definition zeroDigit : Z := 48.

(** [lower] of strconv. *)
Definition lower (c : Z) : Z := Z.lor c 32.

Definition digitValue (c : Z) : option Z :=
  if isDigit c then Some (c - 48)
  else if (97 <=? lower c) && (lower c <=? 122) then Some (lower c - 97 + 10)
  else None.

(** The loop of [ParseUint] at base 0; underscores are skipped. *)
Fixpoint uintLoop (base maxVal n : Z) (s : text) : option Z :=
  match s with
  | [] => Some n
  | c :: s =>
      if c =? underscore then uintLoop base maxVal n s
      else
        d ← digitValue c;
        if base <=? d then None
        else if (2 ^ 64 - 1) / base + 1 <=? n then None
        else
          let n := u64 (n * base) in
          let n1 := u64 (n + d) in
          if (n1 <? n) || (maxVal <? n1) then None else uintLoop base maxVal n1 s
  end.

(** The base the prefix of a number selects, and the digits after the prefix. *)
Definition basePrefix (s : text) : Z * text :=
  match s with
  | c :: rest =>
      if c =? zeroDigit then
        match rest with
        | p :: _ :: _ =>
            if lower p =? 98 then (2, tail rest)
            else if lower p =? 111 then (8, tail rest)
            else if lower p =? 120 then (16, tail rest)
            else (8, rest)
        | _ => (8, rest)
        end
      else (10, s)
  | [] => (10, [])
  end.

(** The last character [underscoreOK] has seen. *)
Inductive seen := sawStart | sawDigit | sawUnderscore | sawOther.

Fixpoint underscoreLoop (hex : bool) (saw : seen) (s : text) : bool :=
  match s with
  | [] => match saw with sawUnderscore => false | _ => true end
  | c :: s =>
      if isDigit c || (hex && ((97 <=? lower c) && (lower c <=? 102))) then underscoreLoop hex sawDigit s
      else if c =? underscore then
        match saw with sawDigit => underscoreLoop hex sawUnderscore s | _ => false end
      else match saw with sawUnderscore => false | _ => underscoreLoop hex sawOther s end
  end.

Definition underscoreOK (s : text) : bool :=
  let s := (splitSign s).2 in
  match s with
  | c :: p :: rest =>
      if (c =? zeroDigit) && bool_decide (lower p ∈ [98; 111; 120]) then
        underscoreLoop (lower p =? 120) sawDigit rest
      else underscoreLoop false sawStart s
  | _ => underscoreLoop false sawStart s
  end.

(** [strconv.ParseUint(s, 0, bits)]; [None] is a syntax or a range error. *)
Definition ParseUint0 (bits : Z) (s : text) : option Z :=
  match s with
  | [] => None
  | _ =>
      let '(base, digits) := basePrefix s in
      n ← uintLoop base (2 ^ bits - 1) 0 digits;
      if bool_decide (underscore ∈ digits) && negb (underscoreOK s) then None else Some n
  end.

(** [strconv.ParseInt(s, 0, 64)]. A range error of [ParseUint] is one here too. *)
Definition ParseInt0 (s : text) : option Z :=
  match s with
  | [] => None
  | _ =>
      let '(negative, digits) := splitSign s in
      un ← ParseUint0 64 digits;
      if negb negative && (2 ^ 63 <=? un) then None
      else if negative && (2 ^ 63 <? un) then None
      else Some (i64 (if negative : bool then - i64 un else i64 un))
  end.

(** ** Durations *)

Definition period : Z := 46.

(** [leadingInt]; [None] is an overflow. *)
Fixpoint leadingInt (x : Z) (s : text) : option (Z * text) :=
  match s with
  | [] => Some (x, [])
  | c :: rest =>
      if isDigit c then
        if 2 ^ 63 / 10 <? x then None
        else
          let x := u64 (u64 (x * 10) + (c - 48)) in
          if 2 ^ 63 <? x then None else leadingInt x rest
      else Some (x, s)
  end.

(** [leadingFraction]: the digits, the power of ten they are divided by, and the
    rest. Digits beyond the precision are dropped. *)
Fixpoint leadingFraction (x : Z) (scale : float64) (overflow : bool) (s : text) : Z * float64 * text :=
  match s with
  | [] => (x, scale, [])
  | c :: rest =>
      if isDigit c then
        if overflow then leadingFraction x scale true rest
        else if (2 ^ 63 - 1) / 10 <? x then leadingFraction x scale true rest
        else
          let y := u64 (u64 (x * 10) + (c - 48)) in
          if 2 ^ 63 <? y then leadingFraction x scale true rest
          else leadingFraction y (fmul scale (floatOfZ 10)) false rest
      else (x, scale, s)
  end.

Definition Minute : Z := 60 * Second.
Definition Hour : Z := 60 * Minute.

(** [unitMap]: the units are nanoseconds, microseconds (in three spellings),
    milliseconds, seconds, minutes and hours. *)
Definition unitMap : list (text * Z) :=
  [([110; 115], 1); ([117; 115], 1000); ([181; 115], 1000); ([956; 115], 1000); ([109; 115], Millisecond);
   ([115], Second); ([109], Minute); ([104], Hour)].

Definition unitOf (u : text) : option Z := snd <$> (snd <$> list_find (fun e => e.1 = u) unitMap).

Fixpoint spanUnit (s : text) : text * text :=
  match s with
  | [] => ([], [])
  | c :: rest =>
      if (c =? period) || isDigit c then ([], s)
      else let '(u, rest) := spanUnit rest in (c :: u, rest)
  end.

(** [uint64(x)] of a non-negative number in range; the result for others is left
    to the implementation ([unspecified]). *)
Definition uint64OfFloat (unspecified : Z) (x : float64) : Z :=
  match x with
  | S754_zero _ => 0
  | S754_infinity _ | S754_nan => u64 unspecified
  | S754_finite s m e =>
      let z := truncated s m e in
      if bool_decide (is_u64 z) then z else u64 unspecified
  end.

(** The fraction after an integer: its digits, the power of ten, the rest, and
    whether there are digits. *)
Definition fractionPart (s : text) : Z * float64 * text * bool :=
  match s with
  | c :: rest =>
      if c =? period then
        let '(f, scale, rest') := leadingFraction 0 (floatOfZ 1) false rest in
        (f, scale, rest', negb (length rest =? length rest')%nat)
      else (0, floatOfZ 1, s, false)
  | [] => (0, floatOfZ 1, s, false)
  end.

(** The unit after a number [v + f/scale], and the product. *)
Definition unitPart (unspecified v f : Z) (scale : float64) (s : text) : option (Z * text) :=
  let '(u, rest) := spanUnit s in
  if decide (u = []) then None
  else
    unit ← unitOf u;
    if 2 ^ 63 / unit <? v then None
    else
      let v := u64 (v * unit) in
      if 0 <? f then
        let v := u64 (v + uint64OfFloat unspecified (fmul (floatOfZ f) (fdiv (floatOfZ unit) scale))) in
        if 2 ^ 63 <? v then None else Some (v, rest)
      else Some (v, rest).

(** One round of the loop of [ParseDuration]: the value of a number with its unit,
    and the rest. *)
Definition durationPart (unspecified : Z) (s : text) : option (Z * text) :=
  match s with
  | [] => None
  | c :: _ =>
      if (c =? period) || isDigit c then
        '(v, rest) ← leadingInt 0 s;
        let pre := negb (length s =? length rest)%nat in
        let '(f, scale, rest, post) := fractionPart rest in
        if negb pre && negb post then None else unitPart unspecified v f scale rest
      else None
  end.

(** The loop of [ParseDuration]. A round takes at least one character. *)
Fixpoint durationLoop (fuel : nat) (unspecified d : Z) (s : text) : option Z :=
  match s with
  | [] => Some d
  | _ =>
      match fuel with
      | O => None
      | S fuel =>
          '(v, rest) ← durationPart unspecified s;
          let d := u64 (d + v) in
          if 2 ^ 63 <? d then None else durationLoop fuel unspecified d rest
      end
  end.

(** [time.ParseDuration] *)
Definition ParseDuration (unspecified : Z) (s : text) : option Z :=
  let '(negative, s) := splitSign s in
  if decide (s = [zeroDigit]) then Some 0
  else if decide (s = []) then None
  else
    d ← durationLoop (length s) unspecified 0 s;
    if negative : bool then Some (i64 (- i64 d))
    else if 2 ^ 63 - 1 <? d then None
    else Some (i64 d).

(** The fuel of [durationLoop] is enough: a round takes a part of the text. *)
Lemma leadingInt_length x s v rest : leadingInt x s = Some (v, rest) -> (length rest <= length s)%nat.
Proof.
  revert x. induction s as [|c s IH]; intros x; simpl; [by intros [= _ <-]|].
  destruct (isDigit c); [|intros [= _ <-]; simpl; lia].
  destruct (_ <? x); [done|]. destruct (2 ^ 63 <? _); [done|]. intros ?%IH. lia.
Qed.

Lemma leadingFraction_length s x scale overflow f scale' rest :
  leadingFraction x scale overflow s = (f, scale', rest) -> (length rest <= length s)%nat.
Proof.
  revert x scale overflow. induction s as [|c s IH]; intros x scale overflow; simpl; [by intros [= _ _ <-]|].
  destruct (isDigit c); [|intros [= _ _ <-]; simpl; lia].
  destruct overflow; [intros ?%IH; lia|]. destruct (_ <? x); [intros ?%IH; lia|].
  destruct (2 ^ 63 <? _); intros ?%IH; lia.
Qed.

Lemma spanUnit_length s u rest : spanUnit s = (u, rest) -> length s = (length u + length rest)%nat.
Proof.
  revert u rest. induction s as [|c s IH]; intros u rest; simpl; [by intros [= <- <-]|].
  destruct (_ || _); [by intros [= <- <-]|]. destruct (spanUnit s) as [u' rest'].
  intros [= <- <-]. simpl. by rewrite (IH _ _ eq_refl).
Qed.

Lemma fractionPart_length s f scale rest post :
  fractionPart s = (f, scale, rest, post) -> (length rest <= length s)%nat.
Proof.
  unfold fractionPart. destruct s as [|c s]; [intros [= _ _ <- _]; simpl; lia|].
  destruct (c =? period); [|intros [= _ _ <- _]; simpl; lia].
  destruct (leadingFraction 0 (floatOfZ 1) false s) as [[f' scale'] rest'] eqn:Hf. apply leadingFraction_length in Hf.
  intros [= _ _ <- _]. simpl. lia.
Qed.

Lemma unitPart_shorter unspecified v f scale s d rest :
  unitPart unspecified v f scale s = Some (d, rest) -> (length rest < length s)%nat.
Proof.
  unfold unitPart. destruct (spanUnit s) as [u r] eqn:Hu. apply spanUnit_length in Hu.
  case_decide as Hne; [done|]. destruct u; [done|]. simpl in Hu. destruct (unitOf _); [simpl|done].
  repeat (match goal with |- (if ?b then _ else _) = _ -> _ => destruct b end); try done; intros [= _ <-]; lia.
Qed.

Lemma durationPart_shorter unspecified s v rest :
  durationPart unspecified s = Some (v, rest) -> (length rest < length s)%nat.
Proof.
  unfold durationPart. destruct s as [|c s]; [done|]. destruct (_ || isDigit c); [|done].
  destruct (leadingInt 0 (c :: s)) as [[v0 r0]|] eqn:Hi; [cbn [mbind option_bind]|done]. apply leadingInt_length in Hi.
  destruct (fractionPart r0) as [[[f scale] r1] post] eqn:Hf. apply fractionPart_length in Hf.
  match goal with |- (if ?b then _ else _) = _ -> _ => destruct b end; [done|]. intros ?%unitPart_shorter. lia.
Qed.

Lemma durationLoop_enough fuel1 fuel2 unspecified d s :
  (length s <= fuel1)%nat -> (length s <= fuel2)%nat ->
  durationLoop fuel1 unspecified d s = durationLoop fuel2 unspecified d s.
Proof.
  revert fuel2 d s. induction fuel1 as [|fuel1 IH]; intros [|fuel2] d [|c s] H1 H2; simpl length in *; try done; try lia.
  cbn [durationLoop].
  destruct (durationPart unspecified (c :: s)) as [[v rest]|] eqn:Hp; [cbn [mbind option_bind]|done].
  apply durationPart_shorter in Hp. simpl in Hp. destruct (2 ^ 63 <? _); [done|]. apply IH; lia.
Qed.

(** ** Flag sets *)

Definition minus : Z := 45.
Definition equals : Z := 61.

(** What an argument is: no flag, the end of the flags, a flag with or without a
    value of its own, or an error. *)
Inductive argument :=
  | argPlain
  | argTerminator
  | argBad
  | argFlag (name : text) (value : option text).

(** The name up to an equals sign that is not its first character. *)
Fixpoint cutEquals (s : text) : text * option text :=
  match s with
  | [] => ([], None)
  | c :: s =>
      if c =? equals then ([], Some s)
      else let '(name, value) := cutEquals s in (c :: name, value)
  end.

Definition scanName (s : text) : argument :=
  match s with
  | [] => argBad
  | c :: rest =>
      if (c =? minus) || (c =? equals) then argBad
      else let '(name, value) := cutEquals rest in argFlag (c :: name) value
  end.

Definition scanArgument (s : text) : argument :=
  match s with
  | c :: d :: rest =>
      if c =? minus then
        if d =? minus then match rest with [] => argTerminator | _ => scanName rest end
        else scanName (d :: rest)
      else argPlain
  | _ => argPlain
  end.

Inductive flagError :=
  | errFlagSyntax (argument : text)
  | errHelp
  | errUndefined (name : text)
  | errNeedsArgument (name : text)
  | errInvalidValue (value name : text).

(** A flag of a command whose flags set the fields of [C]: its name and its [Set],
    which fails on an invalid value. *)
Record flagDef (C : Type) := mkFlag { flag_name : text; flag_set : text -> C -> option C }.
Arguments mkFlag {C}.
Arguments flag_name {C}.
Arguments flag_set {C}.

Definition findFlag {C} (formal : list (flagDef C)) (name : text) : option (flagDef C) :=
  snd <$> list_find (fun f => flag_name f = name) formal.

Definition helpNames : list text := [bytesOf "help"; bytesOf "h"].

(** [FlagSet.Parse] without boolean flags: the fields and the arguments left. *)
Fixpoint Parse {C} (formal : list (flagDef C)) (args : list text) (c : C) : flagError + C * list text :=
  match args with
  | [] => inr (c, [])
  | s :: rest =>
      match scanArgument s with
      | argPlain => inr (c, args)
      | argTerminator => inr (c, rest)
      | argBad => inl (errFlagSyntax s)
      | argFlag name value =>
          match findFlag formal name with
          | None => inl (if decide (name ∈ helpNames) then errHelp else errUndefined name)
          | Some f =>
              match value, rest with
              | Some value, _ =>
                  match flag_set f value c with
                  | None => inl (errInvalidValue value name)
                  | Some c => Parse formal rest c
                  end
              | None, value :: rest =>
                  match flag_set f value c with
                  | None => inl (errInvalidValue value name)
                  | Some c => Parse formal rest c
                  end
              | None, [] => inl (errNeedsArgument name)
              end
          end
      end
  end.

(** ** What the commands add *)

Inductive argumentError :=
  | errFlag (e : flagError)
  | errPositional (args : list text).

(** The end of every command's parsing: positional arguments are refused. *)
Definition noPositional {C} (r : flagError + C * list text) : argumentError + C :=
  match r with
  | inl e => inl (errFlag e)
  | inr (c, []) => inr c
  | inr (_, args) => inl (errPositional args)
  end.
