(* ===== verification/GoFlagsSpec.v ===== *)
(** * What a command line says

    A command line is a sequence of settings, each in one of four spellings,
    followed by the remaining arguments: [Parse] accepts exactly these and applies
    the settings in their order. Flags whose values can be printed are read back,
    in any order and spelling. *)

From stdpp Require Import base sets list numbers strings.
From S2P Require Import Prelude GoText Float64 GoFlags.

#[local] Open Scope Z_scope.

(** ** The grammar *)

(** A name a flag can have on a command line. *)
Definition goodName (name : text) : Prop :=
  equals ∉ name /\ exists c rest, name = c :: rest /\ c <> minus.

Definition dashes (d : text) : Prop := d = [minus] \/ d = [minus; minus].

(** The spellings of one setting. *)
Inductive spelled (name value : text) : list text -> Prop :=
  | sp_joined d : dashes d -> spelled name value [d ++ name ++ equals :: value]
  | sp_split d : dashes d -> spelled name value [d ++ name; value].

(** The arguments after the last setting, and what is left of them. *)
Inductive remainder : list text -> list text -> Prop :=
  | rem_none : remainder [] []
  | rem_terminator rest : remainder ([minus; minus] :: rest) rest
  | rem_plain s rest : (forall s', s = minus :: s' -> s' = []) -> remainder (s :: rest) (s :: rest).

Inductive commandLine : list (text * text) -> list text -> list text -> Prop :=
  | cl_end args rest : remainder args rest -> commandLine [] args rest
  | cl_setting name value settings part args rest :
      spelled name value part -> commandLine settings args rest ->
      commandLine ((name, value) :: settings) (part ++ args) rest.

(** The settings applied in their order. *)
Definition applySetting {C} (formal : list (flagDef C)) (c : option C) (setting : text * text) : option C :=
  c ← c; f ← findFlag formal setting.1; flag_set f setting.2 c.
Definition applySettings {C} (formal : list (flagDef C)) (settings : list (text * text)) (c : C) : option C :=
  foldl (applySetting formal) (Some c) settings.

Definition goodFlags {C} (formal : list (flagDef C)) : Prop := Forall (fun f => goodName (flag_name f)) formal.

Lemma cutEquals_none name : equals ∉ name -> cutEquals name = (name, None).
Proof.
  induction name as [|c name IH]; [done|]. intros Hn. simpl.
  rewrite (proj2 (Z.eqb_neq c equals)) by set_solver. by rewrite IH by set_solver.
Qed.

Lemma cutEquals_some name value : equals ∉ name -> cutEquals (name ++ equals :: value) = (name, Some value).
Proof.
  induction name as [|c name IH]; [done|]. intros Hn. simpl.
  rewrite (proj2 (Z.eqb_neq c equals)) by set_solver. by rewrite IH by set_solver.
Qed.

Lemma cutEquals_inv s name value :
  cutEquals s = (name, value) ->
  equals ∉ name /\ s = name ++ match value with Some v => equals :: v | None => [] end.
Proof.
  revert name value. induction s as [|c s IH]; intros name value; simpl; [intros [= <- <-]; set_solver|].
  destruct (Z.eqb_spec c equals) as [->|Hc]; [intros [= <- <-]; set_solver|].
  destruct (cutEquals s) as [n v]. destruct (IH n v eq_refl) as [Hn ->]. intros [= <- <-]. set_solver.
Qed.

Lemma scanName_good name value :
  goodName name ->
  scanName (name ++ match value with Some v => equals :: v | None => [] end) = argFlag name value.
Proof.
  intros (Hn & c & rest & -> & Hc). simpl. rewrite (proj2 (Z.eqb_neq c minus)) by done.
  rewrite (proj2 (Z.eqb_neq c equals)) by set_solver. simpl.
  destruct value as [v|]; rewrite ?app_nil_r; [rewrite cutEquals_some by set_solver|rewrite cutEquals_none by set_solver]; done.
Qed.

Lemma scanName_inv s name value :
  scanName s = argFlag name value ->
  goodName name /\ s = name ++ match value with Some v => equals :: v | None => [] end.
Proof.
  unfold scanName. destruct s as [|c rest]; [done|].
  destruct (Z.eqb_spec c minus) as [|Hm]; [done|]. destruct (Z.eqb_spec c equals) as [|He]; [done|]. simpl.
  destruct (cutEquals rest) as [n v] eqn:Hcut. apply cutEquals_inv in Hcut as [Hn ->]. intros [= <- <-].
  split; [|done]. split; [set_solver|]. eauto.
Qed.

Lemma scanArgument_good d name value :
  dashes d -> goodName name ->
  scanArgument (d ++ name ++ match value with Some v => equals :: v | None => [] end) = argFlag name value.
Proof.
  intros Hd Hg. pose proof (scanName_good name value Hg) as Hs. destruct Hg as (Hn & c & rest & -> & Hc).
  destruct Hd as [->| ->]; simpl app in *; unfold scanArgument; rewrite Z.eqb_refl; [|done].
  by rewrite (proj2 (Z.eqb_neq c minus)).
Qed.

(** The kinds of arguments, seen from their text. *)
Lemma scanArgument_inv s :
  match scanArgument s with
  | argPlain => forall s', s = minus :: s' -> s' = []
  | argTerminator => s = [minus; minus]
  | argBad => True
  | argFlag name value => goodName name /\
      exists d, dashes d /\ s = d ++ name ++ match value with Some v => equals :: v | None => [] end
  end.
Proof.
  destruct (scanArgument s) as [| | |name value] eqn:Hs; try done; unfold scanArgument in Hs.
  - destruct s as [|c [|d rest]]; [by intros|by intros s' [= _ <-]|].
    destruct (Z.eqb_spec c minus) as [|Hc]; [|by intros s' [= ? _]].
    assert (Hno : forall x, scanName x <> argPlain).
    { intros x. unfold scanName. destruct x as [|y x]; [done|]. destruct (_ || _); [done|]. by destruct (cutEquals x). }
    destruct (d =? minus); [destruct rest|]; by try apply Hno in Hs.
  - assert (Hno : forall x, scanName x <> argTerminator).
    { intros x. unfold scanName. destruct x as [|y x]; [done|]. destruct (_ || _); [done|]. by destruct (cutEquals x). }
    destruct s as [|c [|d rest]]; try done. destruct (Z.eqb_spec c minus) as [->|]; [|done].
    destruct (Z.eqb_spec d minus) as [->|]; [destruct rest; [done|]|]; by apply Hno in Hs.
  - destruct s as [|c [|d rest]]; try done. destruct (Z.eqb_spec c minus) as [->|]; [|done].
    destruct (Z.eqb_spec d minus) as [->|Hd].
    + destruct rest as [|e rest]; [done|]. apply scanName_inv in Hs as [Hg ->]. split; [done|].
      exists [minus; minus]. split; [by right|done].
    + apply scanName_inv in Hs as [Hg Heq]. split; [done|]. exists [minus]. split; [by left|]. by rewrite Heq.
Qed.

Lemma findFlag_name {C} (formal : list (flagDef C)) name f : findFlag formal name = Some f -> flag_name f = name /\ f ∈ formal.
Proof.
  unfold findFlag. destruct (list_find _ formal) as [[i x]|] eqn:Hf; [|done].
  apply list_find_Some in Hf as (Hi & Hn & _). intros [= <-]. split; [done|]. by eapply list_elem_of_lookup_2.
Qed.

Lemma applySettings_None {C} (formal : list (flagDef C)) settings : foldl (applySetting formal) None settings = None.
Proof. by induction settings. Qed.

Lemma applySettings_cons {C} (formal : list (flagDef C)) name value settings c :
  applySettings formal ((name, value) :: settings) c =
  f ← findFlag formal name; c ← flag_set f value c; applySettings formal settings c.
Proof.
  unfold applySettings. simpl. destruct (findFlag formal name) as [f|]; simpl; [|apply applySettings_None].
  by destruct (flag_set f value c); [|apply applySettings_None].
Qed.

Lemma remainder_Parse {C} (formal : list (flagDef C)) args rest c :
  remainder args rest -> Parse formal args c = inr (c, rest).
Proof.
  intros [|rest'|s rest' Hs]; [done|done|]. simpl. pose proof (scanArgument_inv s) as Hi.
  unfold scanArgument in *. destruct s as [|x [|y s]]; try done.
  destruct (Z.eqb_spec x minus) as [->|]; [|done]. by specialize (Hs _ eq_refl).
Qed.

Lemma commandLine_Parse {C} (formal : list (flagDef C)) settings args rest c c' :
  goodFlags formal -> commandLine settings args rest ->
  applySettings formal settings c = Some c' -> Parse formal args c = inr (c', rest).
Proof.
  intros Hg Hcl. revert c. induction Hcl as [args rest Hr|name value settings part args rest Hsp _ IH]; intros c.
  - intros [= <-]. by apply remainder_Parse.
  - rewrite applySettings_cons. destruct (findFlag formal name) as [f|] eqn:Hf; [simpl|done].
    destruct (flag_set f value c) as [c1|] eqn:Hset; [simpl|done]. intros Hap.
    assert (Hn : goodName name).
    { destruct (findFlag_name _ _ _ Hf) as [<- Hin]. by apply (proj1 (Forall_forall _ _) Hg). }
    destruct Hsp as [d Hd|d Hd]; simpl.
    + rewrite (scanArgument_good d name (Some value) Hd Hn), Hf, Hset. auto.
    + pose proof (scanArgument_good d name None Hd Hn) as Hs. rewrite app_nil_r in Hs. rewrite Hs, Hf, Hset. auto.
Qed.

Lemma Parse_commandLine {C} (formal : list (flagDef C)) args c c' rest :
  Parse formal args c = inr (c', rest) ->
  exists settings, commandLine settings args rest /\ applySettings formal settings c = Some c'.
Proof.
  remember (length args) as n eqn:Hlen. revert args Hlen c.
  induction n as [n IH] using (well_founded_induction Nat.lt_wf_0). intros args -> c.
  destruct args as [|s args]; simpl; [intros [= <- <-]; exists []; split; [do 2 constructor|done]|].
  pose proof (scanArgument_inv s) as Hi. destruct (scanArgument s) as [| | |name value]; [..|].
  - intros [= <- <-]. exists []. split; [by do 2 constructor|done].
  - intros [= <- <-]. exists []. subst s. split; [do 2 constructor|done].
  - done.
  - destruct Hi as (Hn & d & Hd & ->). destruct (findFlag formal name) as [f|] eqn:Hf; [|done].
    assert (Hstep : forall v part args', args' `suffix_of` args -> spelled name v part ->
      match flag_set f v c with None => inl (errInvalidValue v name) | Some c1 => Parse formal args' c1 end = inr (c', rest) ->
      exists settings, commandLine settings (part ++ args') rest /\ applySettings formal settings c = Some c').
    { intros v part args' Hsuf Hsp. destruct (flag_set f v c) as [c1|] eqn:Hset; [|done]. intros Hp.
      destruct (IH (length args')) with (args := args') (c := c1) as (settings & Hcl & Hap); [|done..|].
      { apply suffix_length in Hsuf. simpl. lia. }
      exists ((name, v) :: settings). split; [by constructor|]. by rewrite applySettings_cons, Hf; simpl; rewrite Hset. }
    destruct value as [v|].
    + apply (Hstep v [_]); [done|by constructor].
    + rewrite app_nil_r in *. destruct args as [|v args]; [done|].
      apply (Hstep v [_; v]); [by exists [v]|by constructor].
Qed.

(** [Parse] accepts exactly the command lines whose settings can be applied. *)
Lemma Parse_exact {C} (formal : list (flagDef C)) args c c' rest :
  goodFlags formal ->
  Parse formal args c = inr (c', rest) <->
  exists settings, commandLine settings args rest /\ applySettings formal settings c = Some c'.
Proof.
  intros Hg. split; [apply Parse_commandLine|]. intros (settings & Hcl & Hap). by eapply commandLine_Parse.
Qed.

(** ** Printed values *)

(** A number below [10^fuel] in decimal digits. *)
Fixpoint decimalDigits (fuel : nat) (z : Z) : text :=
  match fuel with
  | O => []
  | S fuel => if z <? 10 then [48 + z] else decimalDigits fuel (z / 10) ++ [48 + z mod 10]
  end.

(** Twenty digits hold every 64-bit number. *)
Definition decimal (z : Z) : text := decimalDigits 20 z.

Definition signedDecimal (z : Z) : text := if z <? 0 then minus :: decimal (- z) else decimal z.

(** A duration in nanoseconds. *)
Definition nanoseconds (d : Z) : text := signedDecimal d ++ [110; 115].

(** Reading digits on top of a value. *)
Definition readOn : Z -> text -> Z := foldl (fun v r => 10 * v + (r - 48)).

Lemma decimalDigits_spec fuel z :
  0 <= z < 10 ^ Z.of_nat fuel -> (0 < fuel)%nat ->
  forallb isDigit (decimalDigits fuel z) = true /\ readOn 0 (decimalDigits fuel z) = z /\
  exists c s, decimalDigits fuel z = c :: s /\ (c = zeroDigit -> z = 0 /\ s = []).
Proof.
  revert z. induction fuel as [|fuel IH]; intros z Hz Hf; [lia|]. cbn [decimalDigits].
  destruct (Z.ltb_spec z 10) as [Hlt|Hge].
  - split_and!; [unfold isDigit; cbn [forallb]; rewrite andb_true_r; lia|cbn; lia|].
    exists (48 + z), []. split; [done|]. unfold zeroDigit. split; [lia|done].
  - assert (Hd : 0 <= z / 10 < 10 ^ Z.of_nat fuel).
    { split; [apply Z.div_pos; lia|]. apply Z.div_lt_upper_bound; [lia|].
      rewrite <- Z.pow_succ_r, <- Nat2Z.inj_succ by lia. apply Hz. }
    assert (Hfuel : (0 < fuel)%nat) by (destruct fuel; [simpl in Hd; assert (1 <= z / 10) by (apply Z.div_le_lower_bound; lia); lia|lia]).
    destruct (IH (z / 10) Hd Hfuel) as (H1 & H2 & c & s & Heq & Hc). pose proof (Z.mod_pos_bound z 10 ltac:(lia)) as Hm.
    split_and!.
    + rewrite forallb_app, H1. unfold isDigit. cbn [forallb]. rewrite andb_true_r. simpl. lia.
    + unfold readOn in *. rewrite foldl_app, H2. cbn [foldl]. pose proof (Z.div_mod z 10). lia.
    + rewrite Heq. exists c, (s ++ [48 + z mod 10]). split; [done|]. intros ->. destruct (Hc eq_refl) as [H0 _].
      assert (1 <= z / 10) by (apply Z.div_le_lower_bound; lia). lia.
Qed.

Lemma decimal_spec z :
  is_u64 z ->
  forallb isDigit (decimal z) = true /\ readOn 0 (decimal z) = z /\
  exists c s, decimal z = c :: s /\ (c = zeroDigit -> z = 0 /\ s = []).
Proof. intros Hz. apply decimalDigits_spec; [|lia]. change (Z.of_nat 20) with 20. in_range. Qed.

Lemma readOn_grows v s : forallb isDigit s = true -> 0 <= v -> v <= readOn v s.
Proof.
  revert v. induction s as [|c s IH]; intros v Hs Hv; simpl in *; [lia|].
  apply andb_prop in Hs as [Hc Hs]. unfold isDigit in Hc. specialize (IH (10 * v + (c - 48)) Hs). unfold readOn in *. simpl. lia.
Qed.

Lemma ParseUint10_decimal bits z : is_u64 z -> z < 2 ^ bits -> ParseUint10 bits (decimal z) = Some z.
Proof.
  intros Hz Hb. destruct (decimal_spec z Hz) as (H1 & H2 & c & s & Heq & _). unfold ParseUint10.
  rewrite bool_decide_false by (by rewrite Heq). rewrite H1. simpl.
  change (digitsValue (decimal z)) with (readOn 0 (decimal z)). rewrite H2. by rewrite (proj2 (Z.ltb_lt _ _)).
Qed.

Lemma isDigit_not c : isDigit c = true -> c <> underscore /\ c <> minus /\ c <> 43 /\ c <> period.
Proof. unfold isDigit, underscore, minus, period. lia. Qed.

Lemma uintLoop_decimal max n s :
  max < 2 ^ 64 -> 0 <= n -> forallb isDigit s = true -> readOn n s <= max -> uintLoop 10 max n s = Some (readOn n s).
Proof.
  intros Hmax. revert n. induction s as [|c s IH]; intros n Hn Hs Hle; [done|].
  simpl in Hs. apply andb_prop in Hs as [Hc Hs].
  assert (Hv : readOn n (c :: s) = readOn (10 * n + (c - 48)) s) by done. rewrite Hv in *.
  assert (Hc' : 48 <= c <= 57) by (unfold isDigit in Hc; lia).
  pose proof (readOn_grows (10 * n + (c - 48)) s Hs ltac:(lia)) as Hg.
  cbn [uintLoop]. rewrite (proj2 (Z.eqb_neq c underscore)) by (unfold underscore; lia).
  unfold digitValue. rewrite Hc. cbn [mbind option_bind].
  rewrite (proj2 (Z.leb_gt 10 (c - 48))) by lia.
  assert (Hcut : n <= (2 ^ 64 - 1) / 10) by (apply Z.div_le_lower_bound; lia).
  rewrite (proj2 (Z.leb_gt _ _)) by lia. rewrite (u64_small (n * 10)) by in_range.
  rewrite u64_small by in_range. replace (n * 10 + (c - 48)) with (10 * n + (c - 48)) by lia.
  rewrite (proj2 (Z.ltb_ge _ (n * 10))), (proj2 (Z.ltb_ge max _)) by lia. simpl. apply IH; [lia|done..].
Qed.

Lemma decimal_no_underscore z : is_u64 z -> underscore ∉ decimal z.
Proof.
  intros Hz. destruct (decimal_spec z Hz) as (Hd & _). intros Hin. rewrite forallb_forall in Hd.
  apply list_elem_of_In in Hin. apply Hd in Hin. by vm_compute in Hin.
Qed.

Lemma ParseUint0_decimal z : is_u64 z -> ParseUint0 64 (decimal z) = Some z.
Proof.
  intros Hz. destruct (decimal_spec z Hz) as (H1 & H2 & c & s & Heq & Hc). pose proof (decimal_no_underscore z Hz) as Hu.
  unfold ParseUint0. rewrite Heq in *. unfold basePrefix. destruct (Z.eqb_spec c zeroDigit) as [->|Hne].
  - destruct (Hc eq_refl) as [-> ->]. done.
  - rewrite uintLoop_decimal; [|lia|lia|done|rewrite H2; in_range]. rewrite H2. cbn [mbind option_bind].
    by rewrite bool_decide_false.
Qed.

Lemma splitSign_decimal z rest : is_u64 z -> splitSign (decimal z ++ rest) = (false, decimal z ++ rest).
Proof.
  intros Hz. destruct (decimal_spec z Hz) as (H1 & _ & c & s & Heq & _). rewrite Heq in *. simpl in H1.
  apply andb_prop in H1 as [(_ & Hm & Hp & _)%isDigit_not _]. unfold minus in Hm. simpl. by rewrite !(proj2 (Z.eqb_neq c _)).
Qed.

Lemma splitSign_signed z rest :
  is_i64 z -> splitSign (signedDecimal z ++ rest) = (z <? 0, decimal (Z.abs z) ++ rest).
Proof.
  intros Hz. unfold signedDecimal. destruct (Z.ltb_spec z 0).
  - simpl. by rewrite Z.abs_neq by lia.
  - rewrite splitSign_decimal by in_range. by rewrite Z.abs_eq by lia.
Qed.

Lemma signedDecimal_nonempty z : is_i64 z -> exists c s, signedDecimal z = c :: s.
Proof.
  intros Hz. unfold signedDecimal. destruct (z <? 0) eqn:Hs; [eauto|].
  destruct (decimal_spec z) as (_ & _ & c & s & Heq & _); [in_range|]. eauto.
Qed.

(** What is parsed fits its width. *)
Lemma uintLoop_range base max n s v : 0 <= max -> 0 <= n <= max -> uintLoop base max n s = Some v -> 0 <= v <= max.
Proof.
  intros Hm. revert n. induction s as [|c s IH]; intros n Hn; simpl; [by intros [= <-]|].
  destruct (c =? underscore); [by apply IH|]. destruct (digitValue c) as [d|]; [cbn [mbind option_bind]|done].
  destruct (base <=? d); [done|]. destruct (_ <=? n); [done|]. destruct (_ || _) eqn:Hb; [done|].
  apply IH. pose proof (u64_range (u64 (n * base) + d)) as Hr. apply orb_false_iff in Hb as [_ Hlt]. split; [in_range|lia].
Qed.

Lemma ParseUint0_range s v : ParseUint0 64 s = Some v -> is_u64 v.
Proof.
  unfold ParseUint0. destruct s as [|c s]; [done|]. destruct (basePrefix (c :: s)) as [base digits].
  destruct (uintLoop base (2 ^ 64 - 1) 0 digits) as [n|] eqn:Hl; [cbn [mbind option_bind]|done].
  apply uintLoop_range in Hl; [|lia..]. destruct (_ && _); [done|]. intros [= <-]. in_range.
Qed.

Lemma ParseUint10_range bits s v : 0 <= bits -> ParseUint10 bits s = Some v -> 0 <= v < 2 ^ bits.
Proof.
  intros Hb. unfold ParseUint10. destruct (bool_decide _ || _) eqn:Hd; [done|]. apply orb_false_iff in Hd as [_ Hd].
  destruct (Z.ltb_spec (digitsValue s) (2 ^ bits)) as [Hlt|]; [|done]. intros [= <-]. split; [|done].
  apply (readOn_grows 0 s); [|lia]. by destruct (forallb isDigit s).
Qed.

Lemma ParseInt0_range s v : ParseInt0 s = Some v -> is_i64 v.
Proof.
  unfold ParseInt0. destruct s as [|c s]; [done|]. destruct (splitSign (c :: s)) as [negative digits].
  destruct (ParseUint0 64 digits); [cbn [mbind option_bind]|done]. destruct (_ && _); [done|]. destruct (_ && _); [done|].
  intros [= <-]. apply i64_range.
Qed.

Lemma ParseDuration_range unspecified s v : ParseDuration unspecified s = Some v -> is_i64 v.
Proof.
  unfold ParseDuration. destruct (splitSign s) as [negative rest]. case_decide; [intros [= <-]; in_range|].
  case_decide; [done|]. destruct (durationLoop _ _ _ _); [cbn [mbind option_bind]|done].
  destruct negative; [intros [= <-]; apply i64_range|]. destruct (_ <? _); [done|]. intros [= <-]. apply i64_range.
Qed.

Lemma decimal_inj a b : is_u64 a -> is_u64 b -> decimal a = decimal b -> a = b.
Proof. intros Ha Hb Heq. destruct (decimal_spec a Ha) as (_ & <- & _), (decimal_spec b Hb) as (_ & <- & _). by rewrite Heq. Qed.

Lemma i64_negated z : is_i64 z -> z < 0 -> i64 (- i64 (Z.abs z)) = z.
Proof.
  intros Hz Hn. destruct (decide (z = - 2 ^ 63)) as [->|]; [reflexivity|]. rewrite Z.abs_neq by lia.
  rewrite (i64_small (- z)), Z.opp_involutive by in_range. by apply i64_small.
Qed.

Lemma ParseInt0_decimal z : is_i64 z -> ParseInt0 (signedDecimal z) = Some z.
Proof.
  intros Hz. unfold ParseInt0. destruct (signedDecimal_nonempty z Hz) as (c & s & Heq). rewrite Heq, <- Heq. clear c s Heq.
  pose proof (splitSign_signed z [] Hz) as Hs. rewrite !app_nil_r in Hs. rewrite Hs.
  rewrite ParseUint0_decimal by in_range. cbn [mbind option_bind].
  destruct (Z.ltb_spec z 0); simpl.
  - rewrite (proj2 (Z.ltb_ge _ _)) by in_range. f_equal. by apply i64_negated.
  - rewrite (proj2 (Z.leb_gt _ _)) by in_range. f_equal. rewrite Z.abs_eq by lia. by rewrite !(i64_small z).
Qed.

Lemma signedDecimal_inj a b : is_i64 a -> is_i64 b -> signedDecimal a = signedDecimal b -> a = b.
Proof. intros Ha Hb Heq. pose proof (ParseInt0_decimal a Ha) as H. rewrite Heq, ParseInt0_decimal in H by done. congruence. Qed.

Lemma leadingInt_digits x s rest :
  0 <= x -> forallb isDigit s = true -> readOn x s <= 2 ^ 63 -> (forall c, head rest = Some c -> isDigit c = false) ->
  leadingInt x (s ++ rest) = Some (readOn x s, rest).
Proof.
  intros Hx Hs Hle Hrest. revert x Hx Hle. induction s as [|c s IH]; intros x Hx Hle.
  - simpl. destruct rest as [|c rest]; [done|]. simpl. by rewrite (Hrest c eq_refl).
  - simpl in Hs. apply andb_prop in Hs as [Hc Hs].
    assert (Hv : readOn x (c :: s) = readOn (10 * x + (c - 48)) s) by done. rewrite Hv in *.
    assert (Hc' : 48 <= c <= 57) by (unfold isDigit in Hc; lia).
    pose proof (readOn_grows (10 * x + (c - 48)) s Hs ltac:(lia)) as Hg.
    cbn [app leadingInt]. rewrite Hc.
    assert (Hcut : x <= 2 ^ 63 / 10) by (apply Z.div_le_lower_bound; lia).
    rewrite (proj2 (Z.ltb_ge _ x)) by lia. rewrite (u64_small (x * 10)), u64_small by in_range.
    replace (x * 10 + (c - 48)) with (10 * x + (c - 48)) by lia.
    rewrite (proj2 (Z.ltb_ge _ _)) by lia. apply IH; [done|lia|done].
Qed.

(** The text of a duration: digits followed by the unit. *)
Lemma durationPart_nanoseconds unspecified z :
  0 <= z <= 2 ^ 63 -> durationPart unspecified (decimal z ++ [110; 115]) = Some (z, []).
Proof.
  intros Hz. destruct (decimal_spec z) as (H1 & H2 & c & s & Heq & _); [in_range|].
  pose proof (leadingInt_digits 0 (decimal z) [110; 115] ltac:(lia) H1) as Hl. rewrite H2 in Hl.
  specialize (Hl ltac:(lia)). rewrite Heq in *. simpl in H1. apply andb_prop in H1 as [Hc _].
  cbn [app] in *. unfold durationPart. rewrite Hc, orb_true_r, Hl by (by intros ? [= <-]).
  cbn [mbind option_bind fractionPart]. change (110 =? period) with false. cbn [mbind option_bind].
  assert (Hlen : Nat.eqb (length (c :: s ++ [110; 115])) (length [110; 115]) = false).
  { apply Nat.eqb_neq. simpl. rewrite length_app. simpl. lia. }
  rewrite Hlen. simpl negb. cbn [andb]. unfold unitPart. change (spanUnit [110; 115]) with ([110; 115], @nil Z). cbv beta iota.
  rewrite decide_False by done. change (unitOf [110; 115]) with (Some 1). cbn [mbind option_bind].
  rewrite Z.div_1_r, (proj2 (Z.ltb_ge _ _)) by lia. by rewrite Z.mul_1_r, (u64_small z) by in_range.
Qed.

Lemma ParseDuration_nanoseconds unspecified d : is_i64 d -> ParseDuration unspecified (nanoseconds d) = Some d.
Proof.
  intros Hd. unfold ParseDuration, nanoseconds. rewrite splitSign_signed by done.
  destruct (decimal_spec (Z.abs d)) as (_ & _ & c & s & Heq & _); [in_range|].
  rewrite decide_False by (rewrite Heq; intros [=]; by destruct s). rewrite decide_False by (by rewrite Heq).
  rewrite (durationLoop_enough _ (S (length (decimal (Z.abs d) ++ [110; 115])))) by lia.
  assert (Hloop : forall fuel, durationLoop (S fuel) unspecified 0 (decimal (Z.abs d) ++ [110; 115]) = Some (Z.abs d)).
  { intros fuel. pose proof (durationPart_nanoseconds unspecified (Z.abs d) ltac:(in_range)) as Hp. rewrite Heq in *.
    cbn [app durationLoop] in *. rewrite Hp. cbn [mbind option_bind]. rewrite Z.add_0_l, u64_small by in_range.
    rewrite (proj2 (Z.ltb_ge _ _)) by in_range. by destruct fuel. }
  rewrite Hloop. cbn [mbind option_bind]. destruct (Z.ltb_spec d 0).
  - f_equal. by apply i64_negated.
  - rewrite Z.abs_eq by lia. rewrite (proj2 (Z.ltb_ge _ _)) by in_range. f_equal. by apply i64_small.
Qed.

Lemma nanoseconds_inj a b : is_i64 a -> is_i64 b -> nanoseconds a = nanoseconds b -> a = b.
Proof.
  intros Ha Hb Heq. pose proof (ParseDuration_nanoseconds 0 a Ha) as H. rewrite Heq, ParseDuration_nanoseconds in H by done.
  congruence.
Qed.

(** ** Settings that describe a configuration *)

(** A flag with the text that sets it to the value it has in a configuration. *)
Record printedFlag (C : Type) := mkPrinted { pf_flag : flagDef C; pf_show : C -> text }.
Arguments mkPrinted {C}.
Arguments pf_flag {C}.
Arguments pf_show {C}.

Notation pf_name p := (flag_name (pf_flag p)).

(** The flags of a command set independent fields, each to the value it shows, and
    the values they show determine the configuration. *)
Class PrintedFlags {C : Type} (typed : C -> Prop) (flags : list (printedFlag C)) := {
  pl_good : goodFlags (pf_flag <$> flags);
  pl_nodup : NoDup ((fun p => pf_name p) <$> flags);
  pl_set : forall p c cur, p ∈ flags -> typed c -> typed cur ->
    exists cur', flag_set (pf_flag p) (pf_show p c) cur = Some cur' /\ typed cur' /\ pf_show p cur' = pf_show p c /\
      forall q, q ∈ flags -> pf_name q <> pf_name p -> pf_show q cur' = pf_show q cur;
  pl_ext : forall a b, typed a -> typed b -> (forall p, p ∈ flags -> pf_show p a = pf_show p b) -> a = b
}.

Section Printed.
Context {C : Type} (typed : C -> Prop) (flags : list (printedFlag C)) `{!PrintedFlags typed flags}.

(** The settings of a configuration. *)
Definition settingsOf (c : C) : list (text * text) := (fun p => (pf_name p, pf_show p c)) <$> flags.

(** Settings that lead from one configuration to another: each is one of the
    second, and those that differ from the first are there. *)
Definition describes (c0 c : C) (settings : list (text * text)) : Prop :=
  settings ⊆ settingsOf c /\
  forall p, p ∈ flags -> pf_show p c0 = pf_show p c \/ (pf_name p, pf_show p c) ∈ settings.

Lemma findFlag_printed p : p ∈ flags -> findFlag (pf_flag <$> flags) (pf_name p) = Some (pf_flag p).
Proof using PrintedFlags0.
  intros Hp. pose proof pl_nodup as Hnd. unfold findFlag.
  apply list_elem_of_lookup_1 in Hp as (i & Hi).
  assert (Hf : list_find (fun f => flag_name f = pf_name p) (pf_flag <$> flags) = Some (i, pf_flag p)); [|by rewrite Hf].
  apply list_find_Some. split_and!; [by rewrite list_lookup_fmap, Hi|done|].
  intros j f Hj Hlt Heq. rewrite list_lookup_fmap in Hj. destruct (flags !! j) as [q|] eqn:Hq; [|done].
  injection Hj as <-. apply (NoDup_lookup _ j i (pf_name p)) in Hnd; [lia|..]; rewrite list_lookup_fmap, ?Hq, ?Hi; simpl; congruence.
Qed.

(** Settings are read back, whatever their order and number. *)
Lemma applySettings_describes c0 c settings :
  typed c0 -> typed c -> describes c0 c settings -> applySettings (pf_flag <$> flags) settings c0 = Some c.
Proof using PrintedFlags0.
  intros H0 Hc. revert c0 H0. induction settings as [|[name value] settings IH]; intros c0 H0 [Hin Hall].
  - simpl. f_equal. apply pl_ext; [done..|]. intros p Hp. destruct (Hall p Hp) as [|Hel]; [done|set_solver].
  - assert (Hnv : (name, value) ∈ settingsOf c) by set_solver.
    apply list_elem_of_fmap in Hnv as (p & [= -> ->] & Hp).
    destruct (pl_set p c c0 Hp Hc H0) as (cur & Hset & Ht & Hshow & Hother).
    rewrite applySettings_cons, findFlag_printed by done. cbn [mbind option_bind]. rewrite Hset. cbn [mbind option_bind].
    apply IH; [done|]. split; [set_solver|]. intros q Hq.
    destruct (decide (pf_name q = pf_name p)) as [Heq|Hne].
    + left. replace q with p; [done|]. pose proof pl_nodup as Hnd.
      apply list_elem_of_lookup_1 in Hp as (i & Hi). apply list_elem_of_lookup_1 in Hq as (j & Hj).
      assert (i = j) as <-; [|congruence].
      apply (NoDup_lookup _ i j (pf_name p) Hnd); rewrite list_lookup_fmap, ?Hi, ?Hj; simpl; congruence.
    + rewrite (Hother q Hq Hne). destruct (Hall q Hq) as [|Hel]; [by left|].
      right. apply elem_of_cons in Hel as [[= ? _]|]; [congruence|done].
Qed.

(** What every flag preserves holds of what was parsed. *)
Lemma Parse_preserves {C'} (formal : list (flagDef C')) (P : C' -> Prop) args c c' rest :
  Forall (fun f => forall v a b, P a -> flag_set f v a = Some b -> P b) formal ->
  P c -> Parse formal args c = inr (c', rest) -> P c'.
Proof.
  intros Hf Hc (settings & _ & Hap)%Parse_commandLine. clear args rest. revert c Hc Hap.
  induction settings as [|[name value] settings IH]; intros c Hc; [by intros [= <-]|].
  rewrite applySettings_cons. destruct (findFlag formal name) as [f|] eqn:Hfind; [cbn [mbind option_bind]|done].
  destruct (flag_set f value c) as [c1|] eqn:Hset; [cbn [mbind option_bind]|done]. apply IH.
  apply findFlag_name in Hfind as [_ Hin]. rewrite Forall_forall in Hf. by eapply Hf.
Qed.

Lemma Parse_describes c0 c settings args rest :
  typed c0 -> typed c -> describes c0 c settings -> commandLine settings args rest ->
  Parse (pf_flag <$> flags) args c0 = inr (c, rest).
Proof using PrintedFlags0.
  intros H0 Hc Hd Hcl. eapply commandLine_Parse; [apply pl_good|done|]. by apply applySettings_describes.
Qed.

End Printed.

Lemma noPositional_exact {C} (r : flagError + C * list text) c : noPositional r = inr c <-> r = inr (c, []).
Proof. destruct r as [|[c1 [|]]]; simpl; split; try done; by intros [= ->]. Qed.

(** The laws of a list of printed flags, flag by flag. *)
Ltac each_flag :=
  refine (proj1 (Forall_forall _ _) _); repeat first [apply Forall_nil_2 | apply Forall_cons_2].

Ltac printed_flag tac :=
  eexists; split; [unfold compose; simpl; tac; reflexivity|]; split; [done|]; split; [done|];
  each_flag; simpl; first [done | intros Hne; by destruct (Hne eq_refl)].
