(* ===== verification/Backoff.v ===== *)
(** * Retry delays (src/internal/backoff/backoff.go)

    The delays between attempts to connect, to heal and of the load generator.
    The random number of the jitter is an argument of [Duration]. *)

From S2P Require Import Prelude Float64.
From Stdlib Require Import SpecFloat.
From stdpp Require Import base numbers tactics.

#[local] Open Scope Z_scope.

Record Exponential := mkExponential {
  initial : Z;                     (* time.Duration, nanoseconds *)
  maximum : Z;
  jitter : float64
}.

Definition newExponential (initial maximum : Z) (jitter : float64) : Exponential :=
  mkExponential initial maximum jitter.

Definition defaultInitial : Z := 50 * Millisecond.
Definition defaultMaximum : Z := 2 * Second.

(** The constant [0.2], rounded to the nearest binary64 number. *)
Definition defaultJitter : float64 := fdiv (floatOfZ 2) (floatOfZ 10).

Definition Default : Exponential := newExponential defaultInitial defaultMaximum defaultJitter.

(** The loop of [Duration]: [base] doubles until the maximum stops it. *)
Fixpoint doubling (b : Exponential) (attempt : nat) (base : Z) : Z :=
  match attempt with
  | O => base
  | S attempt =>
      if maximum b <=? base then maximum b
      else if Z.quot (maximum b) 2 <? base then maximum b
      else doubling b attempt (i64 (base * 2))
  end.

Definition baseDelay (b : Exponential) (attempt : nat) : Z :=
  doubling b attempt (Z.min (initial b) (maximum b)).

(** [random] is the result of [rand.Float64]; [unspecified] what the conversion of
    an unrepresentable number would give. *)
Definition Duration (b : Exponential) (random : float64) (unspecified : Z) (attempt : nat) : Z :=
  let base := baseDelay b attempt in
  if fleb (jitter b) (floatOfZ 0) || (base <=? 0) then base
  else
    let factor := fadd (fsub (floatOfZ 1) (jitter b)) (fmul (fmul (floatOfZ 2) (jitter b)) random) in
    let delay := int64OfFloat unspecified (fmul (floatOfZ base) factor) in
    if delay <? 0 then 0
    else if maximum b <? delay then maximum b
    else delay.

(** [Wait]: whether the full delay passed. A positive delay ends with the timer
    or with the context, whichever [timerFirst] says; otherwise only the context
    is looked at. *)
Definition Wait (ctxDone timerFirst : bool) (delay : Z) : bool :=
  if delay <=? 0 then negb ctxDone
  else timerFirst.

(** ** Correctness *)

Definition policy_ok (b : Exponential) : Prop :=
  0 <= initial b /\ 0 <= maximum b < 2 ^ 63.

Lemma pow_S n : 2 ^ Z.of_nat (S n) = 2 * 2 ^ Z.of_nat n.
Proof. rewrite Nat2Z.inj_succ, Z.pow_succ_r by lia. done. Qed.

Lemma doubling_spec b attempt base :
  0 <= base <= maximum b -> maximum b < 2 ^ 63 ->
  doubling b attempt base = Z.min (maximum b) (base * 2 ^ Z.of_nat attempt).
Proof.
  revert base. induction attempt as [|n IH]; intros base Hb Hm; simpl; [lia|].
  pose proof (Z.pow_pos_nonneg 2 (Z.of_nat n)) as Hp.
  destruct (Z.leb_spec (maximum b) base).
  { rewrite pow_S. nia. }
  rewrite Z.quot_div_nonneg by lia. pose proof (Z.div_mod (maximum b) 2). pose proof (Z.mod_pos_bound (maximum b) 2).
  destruct (Z.ltb_spec (maximum b / 2) base).
  { rewrite pow_S. nia. }
  rewrite i64_small by in_range. rewrite IH by lia. rewrite pow_S. f_equal. lia.
Qed.

(** The base delay doubles with every attempt up to the maximum, without ever
    leaving the range of a [time.Duration]. *)
Lemma baseDelay_spec b attempt :
  policy_ok b -> baseDelay b attempt = Z.min (maximum b) (initial b * 2 ^ Z.of_nat attempt).
Proof.
  intros [Hi Hm]. unfold baseDelay. rewrite doubling_spec by lia.
  pose proof (Z.pow_pos_nonneg 2 (Z.of_nat attempt)).
  destruct (Z.min_spec (initial b) (maximum b)) as [[? ->]|[? ->]]; nia.
Qed.

Lemma Duration_range b random unspecified attempt :
  policy_ok b -> 0 <= Duration b random unspecified attempt <= maximum b.
Proof.
  intros Hok. pose proof (baseDelay_spec b attempt Hok) as Hb. destruct Hok as [Hi Hm].
  pose proof (Z.pow_pos_nonneg 2 (Z.of_nat attempt)).
  assert (0 <= baseDelay b attempt <= maximum b) by nia.
  unfold Duration. destruct (_ || _); [lia|].
  destruct (Z.ltb_spec (int64OfFloat unspecified
    (fmul (floatOfZ (baseDelay b attempt)) (fadd (fsub (floatOfZ 1) (jitter b))
       (fmul (fmul (floatOfZ 2) (jitter b)) random)))) 0); [lia|].
  destruct (Z.ltb_spec (maximum b) (int64OfFloat unspecified
    (fmul (floatOfZ (baseDelay b attempt)) (fadd (fsub (floatOfZ 1) (jitter b))
       (fmul (fmul (floatOfZ 2) (jitter b)) random))))); lia.
Qed.

Lemma Duration_unjittered b random unspecified attempt :
  fleb (jitter b) (floatOfZ 0) = true -> Duration b random unspecified attempt = baseDelay b attempt.
Proof. unfold Duration. by intros ->. Qed.

Lemma Default_ok : policy_ok Default.
Proof. split; vm_compute; [done|]. split; [done|reflexivity]. Qed.

(** ** Theorems *)

(** C40: retry delays are exponential and bounded. Every delay of a policy lies
    between zero and the maximum, whatever number the generator of the jitter
    returns and for every attempt count; without jitter the delay of attempt n
    is the initial delay times 2^n, capped at the maximum, with no overflow on
    the way; and the delays never shrink from one attempt to the next. *)
Theorem backoff_exponential_bounded b random unspecified attempt :
  policy_ok b ->
  0 <= Duration b random unspecified attempt <= maximum b /\
  (fleb (jitter b) (floatOfZ 0) = true ->
     Duration b random unspecified attempt = Z.min (maximum b) (initial b * 2 ^ Z.of_nat attempt) /\
     Duration b random unspecified attempt <= Duration b random unspecified (S attempt)).
Proof.
  intros Hok. split; [by apply Duration_range|]. intros Hj.
  rewrite !Duration_unjittered, !baseDelay_spec by done. split; [done|]. rewrite pow_S.
  pose proof (Z.pow_pos_nonneg 2 (Z.of_nat attempt)). destruct Hok. nia.
Qed.

Lemma backoff_exponential_bounded_witness :
  0 <= Duration Default (floatOfZ 1) 0 3 <= maximum Default /\
  Duration (mkExponential (50 * Millisecond) (2 * Second) (floatOfZ 0)) (floatOfZ 1) 0 3 = 400 * Millisecond.
Proof.
  split.
  - apply (backoff_exponential_bounded Default (floatOfZ 1) 0 3). exact Default_ok.
  - etrans; [apply (backoff_exponential_bounded
      (mkExponential (50 * Millisecond) (2 * Second) (floatOfZ 0)) (floatOfZ 1) 0 3)|vm_compute; reflexivity].
    + split; vm_compute; [done|]. split; [done|reflexivity].
    + vm_compute. reflexivity.
Defined.
