(* ===== verification/Metrics.v ===== *)
(** * Latency metrics of the clients (src/clientmetrics, src/internal/clientmetrics)

    A [Recorder] has one pair of histograms per shard; an observation is two
    atomic additions and a snapshot is a sequence of atomic loads, so a snapshot
    is taken while observations go on. *)

From stdpp Require Import base list numbers option.
From S2P Require Import Prelude.

#[local] Open Scope Z_scope.

(** ** Public types (src/clientmetrics/metrics.go) *)

Definition AcquireLatencyBucketCount : nat := 17.
Definition firstAcquireLatencyBucketExponent : Z := 17.

Record LatencyBucket := mkBucket { UpperBound : Z; bucketCount : Z }.

Record LatencyHistogram := mkLatency {
  Count : Z;
  SumMicroseconds : Z;
  Buckets : list LatencyBucket
}.

Record Snapshot := mkMetrics { Acquired : LatencyHistogram; NotAcquired : LatencyHistogram }.

Definition AcquireLatencyBucketUpperBounds : list Z :=
  (fun index : nat => Z.shiftl 1 (firstAcquireLatencyBucketExponent + Z.of_nat index)) <$>
    seq 0 AcquireLatencyBucketCount.

(** ** The recorder (src/internal/clientmetrics/recorder.go) *)

Definition recorderShardCount : nat := 64.
Definition overflowBucket : Z := Z.of_nat AcquireLatencyBucketCount.

Record latencyHistogram := mkHistogram { buckets : list Z; sumMicroseconds : Z }.
Record recorderShard := mkShard { acquired : latencyHistogram; notAcquired : latencyHistogram }.

Definition newHistogram : latencyHistogram := mkHistogram (replicate (S AcquireLatencyBucketCount) 0) 0.
Definition newRecorder : list recorderShard :=
  replicate recorderShardCount (mkShard newHistogram newHistogram).

(** [bits.Len64]. *)
Definition Len64 (n : Z) : Z := if n =? 0 then 0 else Z.log2 n + 1.

(** [Duration.Microseconds]. *)
Definition Microseconds (d : Z) : Z := Z.quot d 1000.

Definition acquireLatencyBucket (elapsed : Z) : Z :=
  let firstBucketExponent := 17 in
  if elapsed <=? Z.shiftl 1 firstBucketExponent then 0
  else Z.min (Len64 (u64 (u64 elapsed - 1)) - firstBucketExponent) overflowBucket.

Definition recorderIndex (shardKey : Z) : nat := Z.to_nat (Z.land shardKey (Z.of_nat recorderShardCount - 1)).

Definition setHistogram (was : bool) (f : latencyHistogram -> latencyHistogram) (s : recorderShard) : recorderShard :=
  if was then mkShard (f (acquired s)) (notAcquired s) else mkShard (acquired s) (f (notAcquired s)).

(** The two atomic additions of an observation. *)
Inductive recorderOp :=
  | addBucket (shardKey elapsed : Z) (was : bool)
  | addSum (shardKey elapsed : Z) (was : bool).

Definition atomicAdd (r : list recorderShard) (op : recorderOp) : list recorderShard :=
  match op with
  | addBucket shardKey elapsed was =>
      let elapsed := if elapsed <? 0 then 0 else elapsed in
      alter (setHistogram was (fun h =>
        mkHistogram (alter (fun n => u64 (n + 1)) (Z.to_nat (acquireLatencyBucket elapsed)) (buckets h))
          (sumMicroseconds h))) (recorderIndex shardKey) r
  | addSum shardKey elapsed was =>
      let elapsed := if elapsed <? 0 then 0 else elapsed in
      alter (setHistogram was (fun h =>
        mkHistogram (buckets h) (u64 (sumMicroseconds h + u64 (Microseconds elapsed))))) (recorderIndex shardKey) r
  end.

Definition ObserveAcquire (r : list recorderShard) (shardKey elapsed : Z) (was : bool) : list recorderShard :=
  foldl atomicAdd r [addBucket shardKey elapsed was; addSum shardKey elapsed was].

(** The loads of a snapshot: [mem n] is the recorder at the [n]-th load. *)
Definition memory := nat -> list recorderShard.

Definition histogramAt (mem : memory) (n shard : nat) (was : bool) : latencyHistogram :=
  match mem n !! shard with
  | Some s => if was then acquired s else notAcquired s
  | None => newHistogram
  end.

(** The body of the inner loop of [snapshotHistogram]: the number of loads so
    far, the count of the bucket and the sum. *)
Definition loadShard (mem : memory) (was : bool) (bucket : nat) (st : nat * Z * Z) (shard : nat) : nat * Z * Z :=
  let '(n, count, sum) := st in
  let count := u64 (count + default 0 (buckets (histogramAt mem n shard was) !! bucket)) in
  if decide (bucket = 0%nat) then
    (S (S n), count, u64 (sum + sumMicroseconds (histogramAt mem (S n) shard was)))
  else (S n, count, sum).

Definition loadBucket (mem : memory) (was : bool) (st : nat * Z * Z * list LatencyBucket) (bucket : nat)
    : nat * Z * Z * list LatencyBucket :=
  let '(n, cumulative, sum, out) := st in
  let '(n, count, sum) := foldl (loadShard mem was bucket) (n, 0, sum) (seq 0 recorderShardCount) in
  let cumulative := u64 (cumulative + count) in
  (n, cumulative, sum,
   if decide (bucket < AcquireLatencyBucketCount)%nat
   then out ++ [mkBucket (AcquireLatencyBucketUpperBounds !!! bucket) cumulative] else out).

(** [snapshotHistogram], with the number of the load it starts at and ends at. *)
Definition snapshotHistogram (mem : memory) (n : nat) (was : bool) : nat * LatencyHistogram :=
  let '(n, cumulative, sum, out) :=
    foldl (loadBucket mem was) (n, 0, 0, []) (seq 0 (S AcquireLatencyBucketCount)) in
  (n, mkLatency cumulative sum out).

Definition takeSnapshot (mem : memory) : Snapshot :=
  let '(n, got) := snapshotHistogram mem 0 true in
  let '(_, not) := snapshotHistogram mem n false in
  mkMetrics got not.

(** A snapshot during which nothing is observed. *)
Definition quietSnapshot (r : list recorderShard) : Snapshot := takeSnapshot (fun _ => r).

(** ** Aggregation over clients (src/cmd/redlease-load/metrics.go) *)

Definition addLoadLatencyHistogram (target source : LatencyHistogram) : LatencyHistogram :=
  mkLatency (u64 (Count target + Count source)) (u64 (SumMicroseconds target + SumMicroseconds source))
    (imap (fun index b => mkBucket (UpperBound b)
       (u64 (bucketCount b + from_option bucketCount 0 (Buckets source !! index)))) (Buckets target)).

Definition emptyLatency : LatencyHistogram :=
  mkLatency 0 0 ((fun bound => mkBucket bound 0) <$> AcquireLatencyBucketUpperBounds).

Definition aggregateLoadClientMetrics (snapshots : list Snapshot) : Snapshot :=
  foldl (fun result snapshot =>
    mkMetrics (addLoadLatencyHistogram (Acquired result) (Acquired snapshot))
      (addLoadLatencyHistogram (NotAcquired result) (NotAcquired snapshot)))
    (mkMetrics emptyLatency emptyLatency) snapshots.

Example observe_two :
  let r := ObserveAcquire (ObserveAcquire newRecorder 3 131072 true) 67 131073 true in
  (bucketCount <$> take 3 (Buckets (Acquired (quietSnapshot r))), Count (Acquired (quietSnapshot r)),
   SumMicroseconds (Acquired (quietSnapshot r)), Count (NotAcquired (quietSnapshot r))) = ([1; 2; 2], 2, 262, 0).
Proof. vm_compute. reflexivity. Qed.
