(* ===== verification/MetricsSafety.v ===== *)
(** * What a snapshot of the latency metrics shows

    The counters of a [Recorder] only grow, so every value a snapshot shows lies
    between what had been observed when the snapshot began and when it ended. *)

From stdpp Require Import base list numbers option.
From S2P Require Import Prelude Metrics.

#[local] Open Scope Z_scope.

(** ** Buckets *)

Definition clamp (elapsed : Z) : Z := if elapsed <? 0 then 0 else elapsed.

Lemma clamp_nonneg e : 0 <= clamp e.
Proof. unfold clamp. destruct (Z.ltb_spec e 0); lia. Qed.

Lemma acquireLatencyBucket_range e : 0 <= e -> is_i64 e -> 0 <= acquireLatencyBucket e <= 17.
Proof.
  intros He Hi. unfold acquireLatencyBucket, overflowBucket, AcquireLatencyBucketCount.
  change (Z.shiftl 1 17) with 131072. destruct (Z.leb_spec e 131072); [lia|].
  rewrite !(u64_small e), u64_small by in_range. unfold Len64. destruct (Z.eqb_spec (e - 1) 0); [lia|].
  pose proof (Z.log2_le_mono 131072 (e - 1)) as Hl. change (Z.log2 131072) with 17 in Hl. lia.
Qed.

(** The bucket of a latency is the first whose upper bound is not below it. *)
Lemma acquireLatencyBucket_least e i :
  0 <= e -> is_i64 e -> 0 <= i < 17 -> (acquireLatencyBucket e <= i <-> e <= 2 ^ (17 + i)).
Proof.
  intros He Hi Hr. unfold acquireLatencyBucket, overflowBucket, AcquireLatencyBucketCount.
  change (Z.shiftl 1 17) with (2 ^ 17). destruct (Z.leb_spec e (2 ^ 17)) as [Hle|Hgt].
  - pose proof (Z.pow_le_mono_r 2 17 (17 + i)). lia.
  - rewrite !(u64_small e), u64_small by in_range. unfold Len64. destruct (Z.eqb_spec (e - 1) 0); [lia|].
    pose proof (Z.log2_lt_pow2 (e - 1) (17 + i)). lia.
Qed.

(** ** Counters *)

Definition bucketOf (elapsed : Z) : nat := Z.to_nat (acquireLatencyBucket (clamp elapsed)).

Definition bucketAt (r : list recorderShard) (was : bool) (shard bucket : nat) : Z :=
  default 0 (buckets (histogramAt (fun _ => r) 0 shard was) !! bucket).

Definition sumAt (r : list recorderShard) (was : bool) (shard : nat) : Z :=
  sumMicroseconds (histogramAt (fun _ => r) 0 shard was).

Definition hits (was : bool) (shard bucket : nat) (op : recorderOp) : nat :=
  match op with
  | addBucket key e w => if decide (w = was /\ recorderIndex key = shard /\ bucketOf e = bucket) then 1 else 0
  | addSum _ _ _ => 0
  end.

Definition gains (was : bool) (shard : nat) (op : recorderOp) : nat :=
  match op with
  | addBucket _ _ _ => 0
  | addSum key e w =>
      if decide (w = was /\ recorderIndex key = shard) then Z.to_nat (Microseconds (clamp e)) else 0
  end.

Definition stateOf (ops : list recorderOp) : list recorderShard := foldl atomicAdd newRecorder ops.

Definition histogram_shaped (h : latencyHistogram) : Prop := length (buckets h) = 18%nat.

Record recorder_shaped (r : list recorderShard) : Prop := {
  rs_shards : length r = recorderShardCount;
  rs_histograms : forall i s, r !! i = Some s -> histogram_shaped (acquired s) /\ histogram_shaped (notAcquired s)
}.

Lemma newRecorder_shaped : recorder_shaped newRecorder.
Proof. split; [done|]. intros i s [-> _]%lookup_replicate. done. Qed.

Lemma setHistogram_shaped r i was f :
  (forall h, length (buckets (f h)) = length (buckets h)) ->
  recorder_shaped r -> recorder_shaped (alter (setHistogram was f) i r).
Proof.
  intros Hf [Hl Hh]. split; [by rewrite length_alter|]. intros j s Hs.
  destruct (decide (i = j)) as [->|Hij]; [|rewrite list_lookup_alter_ne in Hs by done; eauto].
  rewrite list_lookup_alter_eq in Hs. apply fmap_Some in Hs as (s0 & Hs0 & ->).
  destruct (Hh j s0 Hs0). destruct was; simpl; unfold histogram_shaped; rewrite ?Hf; done.
Qed.

Lemma atomicAdd_shaped r op : recorder_shaped r -> recorder_shaped (atomicAdd r op).
Proof. intros Hr. destruct op; apply setHistogram_shaped; simpl; intros; rewrite ?length_alter; done. Qed.

Lemma stateOf_shaped ops : recorder_shaped (stateOf ops).
Proof.
  unfold stateOf. induction ops as [|op ops IH] using rev_ind; [apply newRecorder_shaped|].
  rewrite foldl_app. by apply atomicAdd_shaped.
Qed.

Lemma recorderIndex_lt key : (recorderIndex key < recorderShardCount)%nat.
Proof.
  unfold recorderIndex, recorderShardCount. destruct (Z.le_gt_cases 0 (Z.land key (Z.of_nat 64 - 1))); [|lia].
  pose proof (Z.land_ones key 6). change (Z.ones 6) with (Z.of_nat 64 - 1) in *.
  pose proof (Z.mod_pos_bound key (2 ^ 6)). lia.
Qed.

(** The histogram a shard has after one of its two histograms is changed. *)
Lemma histogramAt_alter r i w f shard was :
  recorder_shaped r -> (i < recorderShardCount)%nat ->
  histogramAt (fun _ => alter (setHistogram w f) i r) 0 shard was =
    (if decide (w = was /\ i = shard) then f else id) (histogramAt (fun _ => r) 0 shard was).
Proof.
  intros [Hl _] Hi. unfold histogramAt. destruct (decide (i = shard)) as [->|Hne].
  - rewrite list_lookup_alter_eq. destruct (r !! shard) as [s|] eqn:Hs.
    + destruct (decide (w = was /\ shard = shard)) as [[-> _]|Hne]; [by destruct was|].
      destruct w, was; naive_solver.
    + apply lookup_ge_None in Hs. lia.
  - rewrite list_lookup_alter_ne, decide_False by naive_solver. done.
Qed.

Lemma bucketAt_add r op was shard bucket :
  recorder_shaped r -> (bucket < 18)%nat -> (shard < recorderShardCount)%nat ->
  bucketAt (atomicAdd r op) was shard bucket =
    (if decide (hits was shard bucket op = 0%nat) then bucketAt r was shard bucket
     else u64 (bucketAt r was shard bucket + 1)).
Proof.
  intros Hr Hb Hs. unfold bucketAt. destruct op as [key e w|key e w]; simpl;
    rewrite histogramAt_alter by (done || apply recorderIndex_lt); fold (clamp e).
  - change (Z.to_nat (acquireLatencyBucket (clamp e))) with (bucketOf e).
    destruct (decide (w = was /\ recorderIndex key = shard)) as [[-> <-]|Hne].
    + simpl. destruct (decide (bucketOf e = bucket)) as [<-|Hb'].
      * rewrite list_lookup_alter_eq. case_decide as Hd; [case_decide; naive_solver|].
        destruct (buckets _ !! bucketOf e) eqn:Hl; simpl; [done|].
        apply lookup_ge_None in Hl. unfold histogramAt in Hl.
        destruct (r !! recorderIndex key) as [s|] eqn:Hk; [|simpl in Hl; lia].
        destruct (rs_histograms _ Hr _ _ Hk) as [H1 H2]. unfold histogram_shaped in *. destruct was; lia.
      * rewrite list_lookup_alter_ne by done. case_decide as Hd; [done|]. case_decide; naive_solver.
    + case_decide as Hd; [done|]. case_decide; naive_solver.
  - by case_decide.
Qed.

Definition op_typed (op : recorderOp) : Prop :=
  match op with addBucket _ e _ | addSum _ e _ => is_i64 e end.

Lemma sumAt_add r op was shard :
  recorder_shaped r -> is_u64 (sumAt r was shard) -> op_typed op ->
  sumAt (atomicAdd r op) was shard = u64 (sumAt r was shard + Z.of_nat (gains was shard op)).
Proof.
  intros Hr Hu Ht. unfold sumAt in *. destruct op as [key e w|key e w]; simpl in Ht; simpl;
    rewrite histogramAt_alter by (done || apply recorderIndex_lt); fold (clamp e).
  - rewrite Z.add_0_r, u64_small by done. by case_decide.
  - case_decide; simpl; [|by rewrite Z.add_0_r, u64_small].
    assert (0 <= Microseconds (clamp e) < 2 ^ 63).
    { unfold clamp, Microseconds. destruct (Z.ltb_spec e 0); [done|].
      rewrite Z.quot_div_nonneg by lia. split; [apply Z.div_pos; lia|].
      pose proof (Z.div_le_upper_bound e 1000 e). in_range. }
    rewrite Z2Nat.id by lia. do 2 f_equal. apply u64_small. in_range.
Qed.

Lemma bucketAt_state ops was shard bucket :
  (bucket < 18)%nat -> (shard < recorderShardCount)%nat ->
  Z.of_nat (sum_list_with (hits was shard bucket) ops) < 2 ^ 64 ->
  bucketAt (stateOf ops) was shard bucket = Z.of_nat (sum_list_with (hits was shard bucket) ops).
Proof.
  intros Hb Hs. induction ops as [|op ops IH] using rev_ind; intros Hlt.
  { unfold bucketAt, histogramAt, stateOf. simpl foldl. unfold newRecorder. rewrite lookup_replicate_2 by done.
    destruct was; do 18 (destruct bucket as [|bucket]; [done|]); lia. }
  rewrite sum_list_with_app in *. simpl in *. unfold stateOf. rewrite foldl_app. simpl. fold (stateOf ops).
  rewrite bucketAt_add, IH by (done || apply stateOf_shaped || lia).
  assert (hits was shard bucket op <= 1)%nat by (destruct op; simpl; [case_decide|]; lia).
  case_decide; [f_equal; lia|]. rewrite u64_small by in_range. lia.
Qed.

Lemma sumAt_state ops was shard :
  (shard < recorderShardCount)%nat -> Forall op_typed ops ->
  Z.of_nat (sum_list_with (gains was shard) ops) < 2 ^ 64 ->
  sumAt (stateOf ops) was shard = Z.of_nat (sum_list_with (gains was shard) ops).
Proof.
  intros Hs. induction ops as [|op ops IH] using rev_ind; intros Ht Hlt.
  { unfold sumAt, histogramAt, stateOf. simpl foldl. unfold newRecorder. rewrite lookup_replicate_2 by done.
    by destruct was. }
  apply Forall_app in Ht as [Ht Hop]. rewrite Forall_singleton in Hop.
  rewrite sum_list_with_app in *. simpl in *. unfold stateOf. rewrite foldl_app. simpl. fold (stateOf ops).
  rewrite sumAt_add; [|apply stateOf_shaped|rewrite IH by (done || lia); in_range|done].
  rewrite IH, u64_small by (done || in_range). lia.
Qed.

(** ** The loads of a snapshot *)

Lemma u64_idemp_l a b : u64 (u64 a + b) = u64 (a + b).
Proof. apply Zplus_mod_idemp_l. Qed.

Lemma u64_idemp_r a b : u64 (a + u64 b) = u64 (a + b).
Proof. apply Zplus_mod_idemp_r. Qed.

Lemma sum_list_with_mono {A} (f g : A -> nat) l :
  (forall x, (f x <= g x)%nat) -> (sum_list_with f l <= sum_list_with g l)%nat.
Proof. intros H. induction l as [|x l IH]; simpl; [lia|]. specialize (H x). lia. Qed.

Lemma sum_list_with_prefix {A} (f : A -> nat) l l' :
  l `prefix_of` l' -> (sum_list_with f l <= sum_list_with f l')%nat.
Proof. intros [k ->]. rewrite sum_list_with_app. lia. Qed.

Section Loads.
Context (ops : nat -> list recorderOp) (was : bool) (last : nat).
Context (Hgrow : forall n, ops n `prefix_of` ops (S n)).
Context (Htyped : Forall op_typed (ops last)).
Context (Hcounts : forall shard bucket, Z.of_nat (sum_list_with (hits was shard bucket) (ops last)) < 2 ^ 64).
Context (Hsums : forall shard, Z.of_nat (sum_list_with (gains was shard) (ops last)) < 2 ^ 64).

#[local] Notation mem := (fun n => stateOf (ops n)).

Lemma ops_prefix n n' : (n <= n')%nat -> ops n `prefix_of` ops n'.
Proof. induction 1 as [|n' _ IH]; [done|]. by trans (ops n'). Qed.

Definition cnt (bucket n shard : nat) : nat := sum_list_with (hits was shard bucket) (ops n).
Definition tot (n shard : nat) : nat := sum_list_with (gains was shard) (ops n).

Lemma cnt_mono bucket n n' shard : (n <= n')%nat -> (cnt bucket n shard <= cnt bucket n' shard)%nat.
Proof. intros Hn. by apply sum_list_with_prefix, ops_prefix. Qed.

Lemma tot_mono n n' shard : (n <= n')%nat -> (tot n shard <= tot n' shard)%nat.
Proof. intros Hn. by apply sum_list_with_prefix, ops_prefix. Qed.

Lemma cnts_mono bucket n n' shards :
  (n <= n')%nat -> (sum_list_with (cnt bucket n) shards <= sum_list_with (cnt bucket n') shards)%nat.
Proof. intros Hn. apply sum_list_with_mono. intros s. by apply cnt_mono. Qed.

Lemma tots_mono n n' shards :
  (n <= n')%nat -> (sum_list_with (tot n) shards <= sum_list_with (tot n') shards)%nat.
Proof. intros Hn. apply sum_list_with_mono. intros s. by apply tot_mono. Qed.

Lemma loaded_bucket n shard bucket :
  (n <= last)%nat -> (bucket < 18)%nat -> (shard < recorderShardCount)%nat ->
  default 0 (buckets (histogramAt mem n shard was) !! bucket) = Z.of_nat (cnt bucket n shard).
Proof.
  intros Hn Hb Hs. apply (bucketAt_state (ops n) was shard bucket Hb Hs).
  pose proof (cnt_mono bucket n last shard Hn). pose proof (Hcounts shard bucket). unfold cnt in *. lia.
Qed.

Lemma loaded_sum n shard :
  (n <= last)%nat -> (shard < recorderShardCount)%nat ->
  sumMicroseconds (histogramAt mem n shard was) = Z.of_nat (tot n shard).
Proof.
  intros Hn Hs. apply (sumAt_state (ops n) was shard Hs).
  - destruct (ops_prefix n last Hn) as [k Hk]. rewrite Hk in Htyped. by apply Forall_app in Htyped as [? _].
  - pose proof (tot_mono n last shard Hn). pose proof (Hsums shard). unfold tot in *. lia.
Qed.

(** The number of loads a bucket takes per shard. *)
Definition loads (bucket : nat) : nat := if decide (bucket = 0%nat) then 2 else 1.

Lemma loadShard_loads bucket shards : forall n c sum,
  (foldl (loadShard mem was bucket) (n, c, sum) shards).1.1 = (n + loads bucket * length shards)%nat.
Proof.
  induction shards as [|s shards IH]; intros n c sum; simpl; [lia|]. unfold loads in *.
  case_decide; rewrite IH; lia.
Qed.

Lemma loadShard_fold bucket shards : forall n c sum n' c' sum',
  (bucket < 18)%nat -> Forall (fun s => s < recorderShardCount)%nat shards -> is_u64 c -> is_u64 sum ->
  foldl (loadShard mem was bucket) (n, c, sum) shards = (n', c', sum') -> (n' <= last)%nat ->
  n' = (n + loads bucket * length shards)%nat /\
  exists k m, c' = u64 (c + Z.of_nat k) /\ sum' = u64 (sum + Z.of_nat m) /\
    (sum_list_with (cnt bucket n) shards <= k <= sum_list_with (cnt bucket n') shards)%nat /\
    (if decide (bucket = 0%nat)
     then (sum_list_with (tot n) shards <= m <= sum_list_with (tot n') shards)%nat else m = 0%nat).
Proof.
  induction shards as [|s shards IH]; intros n c sum n' c' sum' Hb Hs Hc Hsum Hf Hn; simpl in Hf.
  { injection Hf as <- <- <-. split; [simpl; lia|]. exists 0%nat, 0%nat.
    rewrite !Z.add_0_r, !u64_small by done. simpl. by case_decide. }
  apply Forall_cons_1 in Hs as [Hs Hss]. unfold loads in *.
  destruct (decide (bucket = 0%nat)) as [Hz|Hz].
  - apply IH in Hf as (-> & k & m & -> & -> & Hk & Hm); try done; try apply u64_range.
    rewrite loaded_bucket, loaded_sum by (done || lia).
    split; [simpl; lia|]. exists (cnt bucket n s + k)%nat, (tot (S n) s + m)%nat.
    rewrite !u64_idemp_l, !Nat2Z.inj_add, !Z.add_assoc.
    set (n' := (n + 2 * length (s :: shards))%nat). replace (S (S n) + 2 * length shards)%nat with n' in * by (subst n'; simpl; lia).
    assert (Hle : (S n <= n')%nat) by (subst n'; simpl; lia). clearbody n'.
    pose proof (cnts_mono bucket n (S (S n)) shards). pose proof (cnt_mono bucket n n' s).
    pose proof (tots_mono n (S (S n)) shards). pose proof (tot_mono n (S n) s). pose proof (tot_mono (S n) n' s).
    split_and!; try done; simpl; lia.
  - apply IH in Hf as (-> & k & m & -> & -> & Hk & ->); try done; try apply u64_range.
    rewrite loaded_bucket by (done || lia).
    split; [simpl; lia|]. exists (cnt bucket n s + k)%nat, 0%nat.
    rewrite !u64_idemp_l, !Nat2Z.inj_add, !Z.add_assoc.
    set (n' := (n + 1 * length (s :: shards))%nat). replace (S n + 1 * length shards)%nat with n' in * by (subst n'; simpl; lia).
    assert (Hle : (S n <= n')%nat) by (subst n'; simpl; lia). clearbody n'.
    pose proof (cnts_mono bucket n (S n) shards). pose proof (cnt_mono bucket n n' s).
    split_and!; try done; simpl; lia.
Qed.

#[local] Notation shards := (seq 0 recorderShardCount).

(** What the first buckets of all shards hold together. *)
Definition below (j n : nat) : nat := sum_list_with (fun bucket => sum_list_with (cnt bucket n) shards) (seq 0 j).

Lemma below_S j n : below (S j) n = (below j n + sum_list_with (cnt j n) shards)%nat.
Proof. unfold below. rewrite seq_S, sum_list_with_app. simpl. lia. Qed.

Lemma below_mono j n n' : (n <= n')%nat -> (below j n <= below j n')%nat.
Proof. intros Hn. apply sum_list_with_mono. intros b. by apply cnts_mono. Qed.

(** The load a bucket starts at. *)
Definition loadsBefore (j : nat) : nat := if decide (j = 0%nat) then 0 else (64 * j + 64)%nat.

Lemma loadBucket_loads n0 j :
  (foldl (loadBucket mem was) (n0, 0, 0, []) (seq 0 j)).1.1.1 = (n0 + loadsBefore j)%nat.
Proof.
  induction j as [|j IH]; [unfold loadsBefore; simpl; lia|]. rewrite seq_S, foldl_app. simpl.
  destruct (foldl (loadBucket mem was) (n0, 0, 0, []) (seq 0 j)) as [[[n1 cum1] sum1] out1].
  unfold loadBucket. pose proof (loadShard_loads j shards n1 0 sum1) as Hl.
  destruct (foldl (loadShard mem was j) (n1, 0, sum1) shards) as [[n2 c2] sum2]. rewrite length_seq in Hl. simpl in *.
  unfold loadsBefore, loads, recorderShardCount in *. repeat case_decide; simpl in *; lia.
Qed.

Lemma loadBucket_fold n0 j : (j <= 18)%nat -> forall n' cum sum out,
  foldl (loadBucket mem was) (n0, 0, 0, []) (seq 0 j) = (n', cum, sum, out) -> (n' <= last)%nat ->
  n' = (n0 + loadsBefore j)%nat /\
  (exists K : nat -> nat, K 0%nat = 0%nat /\ cum = u64 (Z.of_nat (K j)) /\
    (forall b, (b <= j)%nat -> (below b n0 <= K b <= below b n')%nat) /\
    (forall b, (b < j)%nat -> (K b <= K (S b))%nat) /\
    out = ((fun b => mkBucket (AcquireLatencyBucketUpperBounds !!! b) (u64 (Z.of_nat (K (S b))))) <$>
      seq 0 (j `min` 17))) /\
  (exists m, sum = u64 (Z.of_nat m) /\
    (if decide (j = 0%nat) then m = 0%nat
     else (sum_list_with (tot n0) shards <= m <= sum_list_with (tot n') shards)%nat)).
Proof.
  induction j as [|j IH]; intros Hj n' cum sum out Hf Hn.
  { injection Hf as <- <- <- <-. split; [unfold loadsBefore; simpl; lia|]. split.
    - exists (fun _ => 0%nat). split_and!; try done. intros b Hb. by replace b with 0%nat by lia.
    - by exists 0%nat. }
  rewrite seq_S, foldl_app in Hf. simpl in Hf.
  destruct (foldl (loadBucket mem was) (n0, 0, 0, []) (seq 0 j)) as [[[n1 cum1] sum1] out1] eqn:H1.
  unfold loadBucket in Hf.
  destruct (foldl (loadShard mem was j) (n1, 0, sum1) shards) as [[n2 c2] sum2] eqn:H2. injection Hf as <- <- <- <-.
  assert (Hn2 : n2 = (n1 + loads j * recorderShardCount)%nat).
  { pose proof (loadShard_loads j shards n1 0 sum1) as Hl. rewrite H2 in Hl. done. }
  destruct (IH ltac:(lia) _ _ _ _ eq_refl ltac:(lia)) as (Hn1 & (K & HK0 & -> & HK & HKs & ->) & m & -> & Hm).
  apply loadShard_fold in H2 as (_ & k & m' & -> & -> & Hk & Hm');
    [|lia|by apply list.Forall_forall; intros s [_ ?]%elem_of_seq|in_range|apply u64_range|done].
  assert (Hle : (n0 <= n1 <= n2)%nat) by lia. clear IH H1.
  split; [unfold loads, loadsBefore, recorderShardCount in *; repeat case_decide; simpl in *; lia|]. split.
  - exists (fun b => if decide (b <= j)%nat then K b else (K j + k)%nat). split_and!.
    + by rewrite decide_True by lia.
    + rewrite decide_False by lia. by rewrite u64_idemp_l, Z.add_0_l, u64_idemp_r, Nat2Z.inj_add.
    + intros b Hb. destruct (decide (b <= j)%nat).
      * pose proof (HK b). pose proof (below_mono b n1 n2). lia.
      * replace b with (S j) by lia. rewrite !below_S. pose proof (HK j). pose proof (below_mono j n1 n2).
        pose proof (cnts_mono j n0 n1 shards). lia.
    + intros b Hb. pose proof (HKs b). destruct (decide (b <= j)%nat), (decide (S b <= j)%nat); try lia. replace b with j by lia. lia.
    + destruct (decide (j < AcquireLatencyBucketCount)%nat) as [Hlt|Hlt]; unfold AcquireLatencyBucketCount in Hlt.
      * rewrite !Nat.min_l, seq_S, fmap_app by lia. f_equal.
        -- apply list_fmap_ext. intros i b [-> ?]%lookup_seq. by rewrite decide_True by lia.
        -- simpl. rewrite decide_False by lia. by rewrite u64_idemp_l, Z.add_0_l, u64_idemp_r, Nat2Z.inj_add.
      * rewrite !Nat.min_r by lia. apply list_fmap_ext. intros i b [-> ?]%lookup_seq. by rewrite decide_True by lia.
  - exists (m + m')%nat. split; [by rewrite u64_idemp_l, Nat2Z.inj_add|]. rewrite (decide_False (P := S j = 0%nat)) by lia.
    destruct (decide (j = 0%nat)) as [->|Hj0].
    + pose proof (tots_mono n0 n1 shards). subst m. lia.
    + pose proof (tots_mono n1 n2 shards). lia.
Qed.

End Loads.

(** ** Counting observations *)

Lemma sum_list_with_swap {A B} (f : A -> B -> nat) l k :
  sum_list_with (fun x => sum_list_with (f x) k) l = sum_list_with (fun y => sum_list_with (fun x => f x y) l) k.
Proof.
  induction l as [|x l IH]; simpl.
  - induction k; simpl; lia.
  - rewrite IH. clear IH. induction k as [|y k IHk]; simpl; lia.
Qed.

Lemma sum_list_with_ext {A} (f g : A -> nat) l :
  (forall x, x ∈ l -> f x = g x) -> sum_list_with f l = sum_list_with g l.
Proof.
  induction l as [|x l IH]; intros H; simpl; [done|]. rewrite (H x), IH; [done| |left].
  intros y Hy. apply H. by right.
Qed.

Lemma sum_seq_single m x c :
  sum_list_with (fun i => if decide (x = i) then c else 0%nat) (seq 0 m) = if decide (x < m)%nat then c else 0%nat.
Proof.
  induction m as [|m IH]; [done|]. rewrite seq_S, sum_list_with_app, IH. simpl. repeat case_decide; lia.
Qed.

(** The observations of a result that took at most [bound], all of them, and the
    microseconds added for them. *)
Definition observedWithin (was : bool) (bound : Z) : list recorderOp -> nat :=
  sum_list_with (fun op => match op with
    | addBucket _ e w => if decide (w = was /\ clamp e <= bound) then 1%nat else 0%nat
    | addSum _ _ _ => 0%nat end).

Definition observed (was : bool) : list recorderOp -> nat :=
  sum_list_with (fun op => match op with
    | addBucket _ e w => if decide (w = was) then 1%nat else 0%nat
    | addSum _ _ _ => 0%nat end).

Definition observedSum (was : bool) : list recorderOp -> nat :=
  sum_list_with (fun op => match op with
    | addBucket _ _ _ => 0%nat
    | addSum _ e w => if decide (w = was) then Z.to_nat (Microseconds (clamp e)) else 0%nat end).

Lemma hits_total was j op :
  sum_list_with (fun bucket => sum_list_with (fun s => hits was s bucket op) (seq 0 recorderShardCount)) (seq 0 j) =
    match op with
    | addBucket _ e w => if decide (w = was /\ (bucketOf e < j)%nat) then 1%nat else 0%nat
    | addSum _ _ _ => 0%nat
    end.
Proof.
  destruct op as [key e w|key e w]; simpl hits.
  - destruct (decide (w = was)) as [->|Hw].
    + rewrite (sum_list_with_ext _ (fun bucket => if decide (bucketOf e = bucket) then 1%nat else 0%nat)).
      { rewrite sum_seq_single. repeat case_decide; naive_solver. }
      intros b _.
      rewrite (sum_list_with_ext _ (fun s => if decide (recorderIndex key = s)
        then (if decide (bucketOf e = b) then 1%nat else 0%nat) else 0%nat))
        by (intros s _; repeat case_decide; naive_solver).
      rewrite sum_seq_single. pose proof (recorderIndex_lt key). by rewrite decide_True.
    + rewrite decide_False by naive_solver.
      rewrite (sum_list_with_ext _ (fun _ => 0%nat)); [induction (seq 0 j); simpl; lia|].
      intros b _. rewrite (sum_list_with_ext _ (fun _ => 0%nat)); [induction (seq 0 recorderShardCount); simpl; lia|].
      intros s _. by rewrite decide_False by naive_solver.
  - rewrite (sum_list_with_ext _ (fun _ => 0%nat)); [induction (seq 0 j); simpl; lia|].
    intros b _. induction (seq 0 recorderShardCount); simpl; lia.
Qed.

Lemma below_hits ops was j n : below ops was j n =
  sum_list_with (fun op => match op with
    | addBucket _ e w => if decide (w = was /\ (bucketOf e < j)%nat) then 1%nat else 0%nat
    | addSum _ _ _ => 0%nat end) (ops n).
Proof.
  unfold below, cnt.
  rewrite (sum_list_with_ext _ (fun bucket => sum_list_with (fun op =>
    sum_list_with (fun s => hits was s bucket op) (seq 0 recorderShardCount)) (ops n)))
    by (intros; apply sum_list_with_swap).
  rewrite (sum_list_with_swap _ (seq 0 j)). apply sum_list_with_ext. intros op _. apply hits_total.
Qed.

Lemma below_within ops was i n :
  Forall op_typed (ops n) -> (i < 17)%nat ->
  below ops was (S i) n = observedWithin was (2 ^ (17 + Z.of_nat i)) (ops n).
Proof.
  intros Ht Hi. rewrite below_hits. apply sum_list_with_ext. intros op Hop.
  rewrite list.Forall_forall in Ht. specialize (Ht op Hop). destruct op as [key e w|]; [|done]. simpl in Ht.
  pose proof (clamp_nonneg e). assert (Hc : is_i64 (clamp e)) by (unfold clamp; destruct (e <? 0); in_range).
  pose proof (acquireLatencyBucket_least (clamp e) (Z.of_nat i)).
  pose proof (acquireLatencyBucket_range (clamp e)). unfold bucketOf. repeat case_decide; try done; naive_solver lia.
Qed.

Lemma below_all ops was n : Forall op_typed (ops n) -> below ops was 18 n = observed was (ops n).
Proof.
  intros Ht. rewrite below_hits. apply sum_list_with_ext. intros op Hop.
  rewrite list.Forall_forall in Ht. specialize (Ht op Hop). destruct op as [key e w|]; [|done]. simpl in Ht.
  pose proof (clamp_nonneg e). assert (Hc : is_i64 (clamp e)) by (unfold clamp; destruct (e <? 0); in_range).
  pose proof (acquireLatencyBucket_range (clamp e)). unfold bucketOf. repeat case_decide; try done; naive_solver lia.
Qed.

Lemma tot_all ops was n : sum_list_with (tot ops was n) (seq 0 recorderShardCount) = observedSum was (ops n).
Proof.
  unfold tot. rewrite sum_list_with_swap. apply sum_list_with_ext. intros op _.
  destruct op as [key e w|key e w]; simpl gains; [induction (seq 0 recorderShardCount); simpl; lia|].
  destruct (decide (w = was)) as [->|Hw].
  - rewrite (sum_list_with_ext _ (fun s => if decide (recorderIndex key = s)
      then Z.to_nat (Microseconds (clamp e)) else 0%nat)) by (intros s _; repeat case_decide; naive_solver).
    rewrite sum_seq_single. pose proof (recorderIndex_lt key). by rewrite decide_True.
  - rewrite (sum_list_with_ext _ (fun _ => 0%nat)); [induction (seq 0 recorderShardCount); simpl; lia|].
    intros s _. by rewrite decide_False by naive_solver.
Qed.

(** ** The histograms of a snapshot *)

(** A histogram is consistent with what was observed by the first and the last
    of its loads. *)
Record consistent (was : bool) (before after : list recorderOp) (h : LatencyHistogram) : Prop := {
  co_bounds : UpperBound <$> Buckets h = (fun i : nat => 2 ^ (17 + Z.of_nat i)) <$> seq 0 17;
  co_buckets : forall i b, Buckets h !! i = Some b ->
    Z.of_nat (observedWithin was (UpperBound b) before) <= bucketCount b <=
      Z.of_nat (observedWithin was (UpperBound b) after);
  co_cumulative : forall i b b', Buckets h !! i = Some b -> Buckets h !! (S i) = Some b' ->
    bucketCount b <= bucketCount b';
  co_finite : forall i b, Buckets h !! i = Some b -> bucketCount b <= Count h;
  co_count : Z.of_nat (observed was before) <= Count h <= Z.of_nat (observed was after);
  co_sum : Z.of_nat (observedSum was before) <= SumMicroseconds h <= Z.of_nat (observedSum was after)
}.

Lemma observed_length was l : (observed was l <= length l)%nat.
Proof. induction l as [|[] l IH]; simpl; [done|case_decide; lia|lia]. Qed.

Lemma hits_length was s b l : (sum_list_with (hits was s b) l <= length l)%nat.
Proof. induction l as [|[] l IH]; simpl; [done|case_decide; lia|lia]. Qed.

Lemma gains_observed was s l : (sum_list_with (gains was s) l <= observedSum was l)%nat.
Proof. apply sum_list_with_mono. intros []; simpl; [lia|]. repeat case_decide; naive_solver lia. Qed.

Lemma upperBound_at i : (i < 17)%nat -> AcquireLatencyBucketUpperBounds !!! i = 2 ^ (17 + Z.of_nat i).
Proof.
  intros Hi. apply list_lookup_total_correct. unfold AcquireLatencyBucketUpperBounds.
  rewrite list_lookup_fmap, lookup_seq_lt by done. simpl. by rewrite Z.shiftl_1_l.
Qed.

Lemma snapshotHistogram_consistent ops was n0 :
  (forall n, ops n `prefix_of` ops (S n)) ->
  Forall op_typed (ops (n0 + 1216)%nat) -> Z.of_nat (length (ops (n0 + 1216)%nat)) < 2 ^ 64 ->
  Z.of_nat (observedSum was (ops (n0 + 1216)%nat)) < 2 ^ 64 ->
  exists h, snapshotHistogram (fun n => stateOf (ops n)) n0 was = ((n0 + 1216)%nat, h) /\
    consistent was (ops n0) (ops (n0 + 1216)%nat) h.
Proof.
  intros Hg Ht Hl Hs. set (last := (n0 + 1216)%nat) in *. unfold snapshotHistogram.
  destruct (foldl _ _ _) as [[[n' cum] sum] out] eqn:Hf.
  pose proof (loadBucket_loads ops was n0 18) as Hn'. change (S AcquireLatencyBucketCount) with 18%nat in Hf.
  rewrite Hf in Hn'. simpl in Hn'. change (loadsBefore 18) with 1216%nat in Hn'. fold last in Hn'. subst n'.
  assert (Hc : forall s b, Z.of_nat (sum_list_with (hits was s b) (ops last)) < 2 ^ 64)
    by (intros s b; pose proof (hits_length was s b (ops last)); lia).
  assert (Hg' : forall s, Z.of_nat (sum_list_with (gains was s) (ops last)) < 2 ^ 64)
    by (intros s; pose proof (gains_observed was s (ops last)); lia).
  destruct (loadBucket_fold ops was last Hg Ht Hc Hg' n0 18 ltac:(lia) _ _ _ _ Hf ltac:(lia))
    as (_ & (K & HK0 & -> & HK & HKs & ->) & m & -> & Hm).
  change (18 `min` 17)%nat with 17%nat. rewrite decide_False in Hm by lia.
  assert (Ht0 : Forall op_typed (ops n0)).
  { destruct (ops_prefix ops Hg n0 last ltac:(lia)) as [k Hk]. rewrite Hk in Ht. by apply Forall_app in Ht as [? _]. }
  rewrite !tot_all in Hm.
  pose proof (below_all ops was last Ht) as Hall. pose proof (below_all ops was n0 Ht0) as Hall0.
  pose proof (observed_length was (ops last)).
  assert (HKle : forall b, (b <= 18)%nat -> (K b <= K 18)%nat).
  { intros b Hb. remember (18 - b)%nat as d eqn:Hd. revert b Hb Hd. induction d as [|d IHd]; intros b Hb Hd.
    - by replace b with 18%nat by lia.
    - pose proof (HKs b). pose proof (IHd (S b)). lia. }
  pose proof (HK 18%nat ltac:(lia)) as H18.
  assert (Hu : forall b, (b <= 18)%nat -> u64 (Z.of_nat (K b)) = Z.of_nat (K b)).
  { intros b Hb. apply u64_small. pose proof (HKle b Hb). in_range. }
  assert (Hin : forall i b, ((fun b => mkBucket (AcquireLatencyBucketUpperBounds !!! b) (u64 (Z.of_nat (K (S b))))) <$>
      seq 0 17) !! i = Some b -> (i < 17)%nat /\ b = mkBucket (2 ^ (17 + Z.of_nat i)) (Z.of_nat (K (S i)))).
  { intros i b (j & -> & [-> Hi]%lookup_seq)%list_lookup_fmap_Some. split; [lia|].
    by rewrite upperBound_at, Hu by lia. }
  eexists. split; [done|]. split; cbn [Count SumMicroseconds Buckets].
  - by rewrite <- list_fmap_compose.
  - intros i b [Hi ->]%Hin. simpl. pose proof (HK (S i) ltac:(lia)) as Hb. by rewrite !below_within in Hb by (done || lia); lia.
  - intros i b b' [Hi ->]%Hin [Hi' ->]%Hin. simpl. pose proof (HKs (S i)). lia.
  - intros i b [Hi ->]%Hin. simpl. rewrite Hu by lia. pose proof (HKle (S i)). lia.
  - rewrite Hu by lia. lia.
  - rewrite u64_small by in_range. lia.
Qed.

Lemma consistent_widen was before before' after after' h :
  before' `prefix_of` before -> after `prefix_of` after' ->
  consistent was before after h -> consistent was before' after' h.
Proof.
  intros Hb Ha [H1 H2 H3 H4 H5 H6].
  pose proof (fun f => sum_list_with_prefix f _ _ Hb) as Pb. pose proof (fun f => sum_list_with_prefix f _ _ Ha) as Pa.
  unfold observedWithin, observed, observedSum in *. split; try done.
  - intros i b Hi. specialize (H2 i b Hi).
    split; [etrans; [|apply H2]; apply Nat2Z.inj_le, Pb|etrans; [apply H2|]; apply Nat2Z.inj_le, Pa].
  - split; [etrans; [|apply H5]; apply Nat2Z.inj_le, Pb|etrans; [apply H5|]; apply Nat2Z.inj_le, Pa].
  - split; [etrans; [|apply H6]; apply Nat2Z.inj_le, Pb|etrans; [apply H6|]; apply Nat2Z.inj_le, Pa].
Qed.

(** The aggregation starts from a histogram of nothing. *)
Lemma emptyLatency_consistent was : consistent was [] [] emptyLatency.
Proof.
  assert (H : forall i b, Buckets emptyLatency !! i = Some b -> bucketCount b = 0).
  { intros i b (bound & -> & _)%list_lookup_fmap_Some. done. }
  split; [by vm_compute|intros i b Hb; by rewrite (H i b Hb)| | |done|done].
  - intros i b b' Hb Hb'. by rewrite (H i b Hb), (H _ b' Hb').
  - intros i b Hb. by rewrite (H i b Hb).
Qed.

Lemma observedWithin_le was bound l : (observedWithin was bound l <= observed was l)%nat.
Proof. apply sum_list_with_mono. intros [key e w|]; [|done]. repeat case_decide; naive_solver lia. Qed.

(** The sum of two histograms is consistent with the observations of both. *)
Lemma addLoadLatencyHistogram_consistent was b1 a1 h1 b2 a2 h2 :
  consistent was b1 a1 h1 -> consistent was b2 a2 h2 ->
  Z.of_nat (length (a1 ++ a2)) < 2 ^ 64 -> Z.of_nat (observedSum was (a1 ++ a2)) < 2 ^ 64 ->
  consistent was (b1 ++ b2) (a1 ++ a2) (addLoadLatencyHistogram h1 h2).
Proof.
  intros H1 H2 Hl Hs. pose proof (observed_length was (a1 ++ a2)) as Ho.
  unfold observed, observedSum in *. rewrite !sum_list_with_app in *.
  fold (observed was) in *. fold (observedSum was) in *.
  destruct H1 as [Hb1 Hc1 Hm1 Hf1 Hn1 Hs1], H2 as [Hb2 Hc2 Hm2 Hf2 Hn2 Hs2].
  assert (Hin : forall i b, Buckets (addLoadLatencyHistogram h1 h2) !! i = Some b ->
    exists x y, Buckets h1 !! i = Some x /\ Buckets h2 !! i = Some y /\ UpperBound x = UpperBound y /\
      b = mkBucket (UpperBound x) (bucketCount x + bucketCount y)).
  { intros i b Hi. simpl in Hi. rewrite list_lookup_imap in Hi.
    destruct (Buckets h1 !! i) as [x|] eqn:Hx; [|done]. simpl in Hi. injection Hi as <-.
    pose proof (f_equal (.!! i) Hb1) as E1. rewrite <- Hb2 in E1. rewrite !list_lookup_fmap, Hx in E1.
    destruct (Buckets h2 !! i) as [y|] eqn:Hy; [|done]. injection E1 as Exy.
    exists x, y. split_and!; try done. simpl. rewrite u64_small; [done|].
    pose proof (Hc1 i x Hx). pose proof (Hc2 i y Hy).
    pose proof (observedWithin_le was (UpperBound x) a1). pose proof (observedWithin_le was (UpperBound y) a2).
    in_range. }
  split.
  - rewrite <- Hb1. apply list_eq. intros i. simpl. rewrite !list_lookup_fmap, list_lookup_imap.
    by destruct (Buckets h1 !! i).
  - intros i b (x & y & Hx & Hy & Hxy & ->)%Hin. simpl. unfold observedWithin. rewrite !sum_list_with_app.
    fold (observedWithin was (UpperBound x)). pose proof (Hc1 i x Hx). pose proof (Hc2 i y Hy).
    rewrite <- Hxy in *. lia.
  - intros i b b' (x & y & Hx & Hy & _ & ->)%Hin (x' & y' & Hx' & Hy' & _ & ->)%Hin. simpl.
    pose proof (Hm1 i x x' Hx Hx'). pose proof (Hm2 i y y' Hy Hy'). lia.
  - intros i b (x & y & Hx & Hy & _ & ->)%Hin. simpl. pose proof (Hf1 i x Hx). pose proof (Hf2 i y Hy).
    rewrite u64_small by in_range. lia.
  - simpl. unfold observed. rewrite !sum_list_with_app. fold (observed was). rewrite u64_small by in_range. lia.
  - simpl. unfold observedSum. rewrite !sum_list_with_app. fold (observedSum was). rewrite u64_small by in_range. lia.
Qed.

(** The loads of [Snapshot]: 64 shards, 18 buckets and a sum, for two results. *)
Definition snapshotLoads : nat := 2432.

(** ** Theorems *)

(** C35: a snapshot of the client metrics is consistent whatever is observed while
    it is taken. The observations go on between its loads; each of the two
    histograms has the bounds [2^17] to [2^33] ns, its buckets are cumulative and
    none exceeds the total, and every bucket, the total and the sum lie between
    the number (the microseconds) of the Acquire calls with that result, and for
    a bucket a latency up to its bound, recorded before the snapshot began and
    before it ended: with no concurrent call they are exact. *)
Theorem snapshot_consistent ops :
  (forall n, ops n `prefix_of` ops (S n)) -> Forall op_typed (ops snapshotLoads) ->
  Z.of_nat (length (ops snapshotLoads)) < 2 ^ 64 ->
  (forall was, Z.of_nat (observedSum was (ops snapshotLoads)) < 2 ^ 64) ->
  consistent true (ops 0%nat) (ops snapshotLoads) (Acquired (takeSnapshot (fun n => stateOf (ops n)))) /\
  consistent false (ops 0%nat) (ops snapshotLoads) (NotAcquired (takeSnapshot (fun n => stateOf (ops n)))).
Proof.
  intros Hg Ht Hl Hs. unfold takeSnapshot.
  assert (Hp : ops 1216%nat `prefix_of` ops snapshotLoads) by (apply ops_prefix; [done|unfold snapshotLoads; lia]).
  assert (H0 : ops 0%nat `prefix_of` ops 1216%nat) by (apply ops_prefix; [done|lia]).
  destruct (snapshotHistogram_consistent ops true 0) as (h & -> & Hh); [done|..].
  - destruct Hp as [k Hk]. rewrite Hk in Ht. by apply Forall_app in Ht as [? _].
  - pose proof (prefix_length _ _ Hp). simpl. lia.
  - pose proof (sum_list_with_prefix (fun op => match op with
      | addBucket _ _ _ => 0%nat
      | addSum _ e w => if decide (w = true) then Z.to_nat (Microseconds (clamp e)) else 0%nat end) _ _ Hp).
    specialize (Hs true). unfold observedSum in *. simpl. lia.
  - destruct (snapshotHistogram_consistent ops false 1216) as (h' & Hh' & Hc'); [done|done|done|apply Hs|].
    change (0 + 1216)%nat with 1216%nat in *. rewrite Hh'. cbn [Acquired NotAcquired]. split.
    + exact (consistent_widen true _ _ _ _ h (reflexivity _) Hp Hh).
    + exact (consistent_widen false _ _ _ _ h' H0 (reflexivity _) Hc').
Qed.

Lemma snapshot_consistent_witness :
  exists ops : nat -> list recorderOp, ops 0%nat = [] /\ (ops snapshotLoads = addBucket 1 200000 true :: []) /\
    consistent true (ops 0%nat) (ops snapshotLoads) (Acquired (takeSnapshot (fun n => stateOf (ops n)))).
Proof.
  exists (fun n => if (n <? 100)%nat then [] else addBucket 1 200000 true :: []). split_and!; [reflexivity..|].
  apply (snapshot_consistent (fun n => if (n <? 100)%nat then [] else addBucket 1 200000 true :: [])).
  - intros n. destruct (Nat.ltb_spec n 100), (Nat.ltb_spec (S n) 100); try lia; try done. apply prefix_nil.
  - repeat constructor; vm_compute; done.
  - vm_compute. done.
  - intros []; vm_compute; done.
Defined.

Lemma aggregate_fold cs : forall bacc aacc acc,
  Forall (fun '(before, after, s) =>
    consistent true before after (Acquired s) /\ consistent false before after (NotAcquired s)) cs ->
  consistent true bacc aacc (Acquired acc) -> consistent false bacc aacc (NotAcquired acc) ->
  Z.of_nat (length (aacc ++ concat ((fun c => c.1.2) <$> cs))) < 2 ^ 64 ->
  (forall was, Z.of_nat (observedSum was (aacc ++ concat ((fun c => c.1.2) <$> cs))) < 2 ^ 64) ->
  let all := foldl (fun result snapshot =>
    mkMetrics (addLoadLatencyHistogram (Acquired result) (Acquired snapshot))
      (addLoadLatencyHistogram (NotAcquired result) (NotAcquired snapshot))) acc (snd <$> cs) in
  consistent true (bacc ++ concat ((fun c => c.1.1) <$> cs)) (aacc ++ concat ((fun c => c.1.2) <$> cs)) (Acquired all) /\
  consistent false (bacc ++ concat ((fun c => c.1.1) <$> cs)) (aacc ++ concat ((fun c => c.1.2) <$> cs)) (NotAcquired all).
Proof.
  induction cs as [|[[before after] s] cs IH]; intros bacc aacc acc Hcs Ht Hf Hl Hs; simpl in *.
  { by rewrite !app_nil_r. }
  apply Forall_cons_1 in Hcs as [[Hst Hsf] Hcs]. rewrite !(app_assoc _ before), !(app_assoc _ after) in *.
  assert (Hl' : Z.of_nat (length (aacc ++ after)) < 2 ^ 64) by (rewrite length_app in Hl; lia).
  assert (Hs' : forall was, Z.of_nat (observedSum was (aacc ++ after)) < 2 ^ 64).
  { intros was. specialize (Hs was). unfold observedSum in *. rewrite sum_list_with_app in Hs. lia. }
  apply IH; [done|simpl; by apply addLoadLatencyHistogram_consistent..|done|done].
Qed.

(** The load generator's metrics aggregate its clients exactly. Each client's
    snapshot being consistent with what that client recorded before and during
    the collection, the aggregated histograms are consistent with the records of
    all clients together: the same bounds, cumulative buckets, and every value
    between the totals before and after. *)
Theorem aggregate_consistent cs :
  Forall (fun '(before, after, s) =>
    consistent true before after (Acquired s) /\ consistent false before after (NotAcquired s)) cs ->
  Z.of_nat (length (concat ((fun c => c.1.2) <$> cs))) < 2 ^ 64 ->
  (forall was, Z.of_nat (observedSum was (concat ((fun c => c.1.2) <$> cs))) < 2 ^ 64) ->
  consistent true (concat ((fun c => c.1.1) <$> cs)) (concat ((fun c => c.1.2) <$> cs))
    (Acquired (aggregateLoadClientMetrics (snd <$> cs))) /\
  consistent false (concat ((fun c => c.1.1) <$> cs)) (concat ((fun c => c.1.2) <$> cs))
    (NotAcquired (aggregateLoadClientMetrics (snd <$> cs))).
Proof.
  intros Hcs Hl Hs. unfold aggregateLoadClientMetrics.
  by apply (aggregate_fold cs [] [] (mkMetrics emptyLatency emptyLatency)); try apply emptyLatency_consistent.
Qed.

Lemma aggregate_consistent_witness :
  let empty := mkMetrics emptyLatency emptyLatency in
  consistent true [] [] (Acquired (aggregateLoadClientMetrics [empty; empty])).
Proof.
  apply (aggregate_consistent [(([], []), mkMetrics emptyLatency emptyLatency);
    (([], []), mkMetrics emptyLatency emptyLatency)]).
  - by apply Forall_cons_2; [|apply Forall_cons_2; [|apply Forall_nil_2]]; split; apply emptyLatency_consistent.
  - vm_compute. done.
  - intros []; vm_compute; done.
Defined.
