(* ===== verification/GoHeap.v ===== *)
(** * Go's [container/heap]

    The server keeps the leases of a shard in a min-heap managed by the
    standard library package [container/heap] (src/server/state.go calls
    [heap.Push], [heap.Pop], [heap.Remove] and [heap.Fix]). This file models the
    part of that package the server relies on, over an abstract
    [heap.Interface], and proves it correct against the laws of that interface.
    [LeaseShard] instantiates the interface with [leaseDeadlineHeap]. *)

From S2P Require Import Prelude.
From stdpp Require Import base gmap list numbers tactics.

(** [heap.Interface]: the methods the algorithms call while they reorder. The
    [Push] and [Pop] methods, which change the length, stay with the client. *)
Class HeapInterface (H : Type) := {
  Len : H -> nat;
  Less : H -> nat -> nat -> bool;
  Swap : H -> nat -> nat -> H
}.

Definition parent (j : nat) : nat := (j - 1) / 2.

Section Algorithms.
Context {H : Type} {HI : HeapInterface H}.

(** [func up(h Interface, j int)]. *)
Fixpoint up_loop (fuel : nat) (h : H) (j : nat) : H :=
  match fuel with
  | O => h
  | S fuel =>
      let i := parent j in
      if (i =? j) || negb (Less h j i) then h
      else up_loop fuel (Swap h i j) i
  end.

Definition up (h : H) (j : nat) : H := up_loop (S j) h j.

(** [func down(h Interface, i0, n int) bool]. *)
Definition minChild (h : H) (i n : nat) : nat :=
  let j1 := 2 * i + 1 in
  if (S j1 <? n) && Less h (S j1) j1 then S j1 else j1.

Fixpoint down_loop (fuel : nat) (h : H) (i n : nat) : H * nat :=
  match fuel with
  | O => (h, i)
  | S fuel =>
      if n <=? 2 * i + 1 then (h, i)
      else
        let j := minChild h i n in
        if negb (Less h j i) then (h, i)
        else down_loop fuel (Swap h i j) j n
  end.

Definition down (h : H) (i0 n : nat) : H * bool :=
  let '(h', i) := down_loop (S n) h i0 n in (h', i0 <? i).

(** The reordering done by [heap.Fix(h, i)] and, on the first [n] elements, by
    [heap.Remove]: [if !down(h, i, n) { up(h, i) }]. *)
Definition fixAt (h : H) (i n : nat) : H :=
  let '(h', moved) := down h i n in
  if moved then h' else up h' i.

End Algorithms.

(** ** Heap order on a priority assignment *)

Section Order.
#[local] Open Scope Z_scope.

Implicit Types p : nat -> Z.

Definition pswap (p : nat -> Z) (i j k : nat) : Z :=
  if decide (k = i) then p j else if decide (k = j) then p i else p k.

Definition ordered (n : nat) (p : nat -> Z) : Prop :=
  forall c, (0 < c < n)%nat -> p (parent c) <= p c.

(** Everything is ordered except, possibly, the edges that touch [i]; the
    parent of [i] is below the children of [i]. *)
Definition hole (n i : nat) (p : nat -> Z) : Prop :=
  (forall c, (0 < c < n)%nat -> c <> i -> parent c <> i -> p (parent c) <= p c) /\
  (forall c, (0 < i)%nat -> (0 < c < n)%nat -> parent c = i -> p (parent i) <= p c).

Definition below_children (n i : nat) (p : nat -> Z) : Prop :=
  forall c, (0 < c < n)%nat -> parent c = i -> p i <= p c.

Definition above_parent (i : nat) (p : nat -> Z) : Prop :=
  (0 < i)%nat -> p (parent i) <= p i.

Lemma parent_lt c : (0 < c)%nat -> (parent c < c)%nat.
Proof. unfold parent. intros. apply Nat.Div0.div_lt_upper_bound. lia. Qed.

Lemma parent_0 c : parent c = c <-> c = O.
Proof.
  split; [|intros ->; reflexivity].
  destruct (decide (c = O)) as [|Hc]; [done|]. pose proof (parent_lt c). lia.
Qed.

Lemma parent_children c i :
  (0 < c)%nat -> parent c = i <-> c = (2 * i + 1)%nat \/ c = (2 * i + 2)%nat.
Proof.
  unfold parent. intros Hc.
  pose proof (Nat.div_mod_eq (c - 1) 2). pose proof (Nat.mod_upper_bound (c - 1) 2). lia.
Qed.

Lemma ordered_hole n i p : ordered n p -> hole n i p.
Proof.
  intros Ho. split; [eauto|]. intros c Hi Hc <-.
  pose proof (parent_lt c). pose proof (Ho c Hc).
  assert (p (parent (parent c)) <= p (parent c)) by (apply Ho; lia). lia.
Qed.

Lemma ordered_le n m p : ordered m p -> (n <= m)%nat -> ordered n p.
Proof. intros Ho Hn c Hc. apply Ho. lia. Qed.

(** Changing the priority of one element only. *)
Lemma hole_update n i p q :
  ordered n p -> (forall k, k <> i -> q k = p k) -> hole n i q.
Proof.
  intros Ho Hq. pose proof (ordered_hole n i p Ho) as [Hh Hg]. split.
  - intros c Hc Hci Hpi. rewrite !Hq by done. by apply Ho.
  - intros c Hi Hc Hp. pose proof (parent_lt c). pose proof (parent_lt i).
    rewrite !Hq by lia. by apply Hg.
Qed.

(** Moving the last element to [i], as [heap.Remove] and [heap.Pop] do. *)
Lemma hole_swap_last n i p : ordered (S n) p -> hole n i (pswap p i n).
Proof.
  intros Ho. pose proof (ordered_hole (S n) i p Ho) as [Hh Hg].
  split.
  - intros c Hc Hci Hpi. pose proof (parent_lt c). unfold pswap.
    rewrite !decide_False by lia. apply Ho. lia.
  - intros c Hi Hc Hp. pose proof (parent_lt c). pose proof (parent_lt i). unfold pswap.
    rewrite !decide_False by lia. apply Hg; lia.
Qed.

Lemma hole_ordered n i p :
  hole n i p -> below_children n i p -> above_parent i p -> ordered n p.
Proof.
  intros [Hh _] Hb Ha c Hc.
  destruct (decide (c = i)) as [->|]; [apply Ha; lia|].
  destruct (decide (parent c = i)) as [<-|]; [by apply Hb|]. by apply Hh.
Qed.

Lemma ordered_min n p i : ordered n p -> (i < n)%nat -> p O <= p i.
Proof.
  intros Ho. induction (lt_wf i) as [i _ IH]. intros Hi.
  destruct (decide (i = O)) as [->|]; [lia|].
  pose proof (parent_lt i). pose proof (Ho i).
  specialize (IH (parent i)). lia.
Qed.

(** One iteration of [up]: the element at [j] is smaller than its parent. *)
Lemma up_step n j p :
  (j < n)%nat -> (0 < j)%nat -> hole n j p -> below_children n j p ->
  p j < p (parent j) ->
  hole n (parent j) (pswap p (parent j) j) /\
  below_children n (parent j) (pswap p (parent j) j).
Proof.
  intros Hjn Hj [Hh Hg] Hb Hlt.
  pose proof (parent_lt j Hj) as Hpj.
  assert (Hsib : forall c, (0 < c < n)%nat -> c <> j -> parent c = parent j ->
    p (parent j) <= p c).
  { intros c Hc Hne He. rewrite <- He. apply Hh; [lia|done|]. lia. }
  split; [split|].
  - intros c Hc Hci Hpc. unfold pswap.
    repeat case_decide; subst; try lia; try congruence.
    + apply Hg; lia.
    + apply Hh; lia.
  - intros c Hi Hc He.
    assert (Hgp : p (parent (parent j)) <= p (parent j)).
    { apply Hh; [lia..|]. pose proof (parent_lt (parent j)). lia. }
    pose proof (parent_lt (parent j) Hi). pose proof (parent_lt c).
    unfold pswap. repeat case_decide; subst; try lia.
    specialize (Hsib c). lia.
  - intros c Hc He. pose proof (parent_lt c).
    unfold pswap. repeat case_decide; subst; try lia.
    specialize (Hsib c). lia.
Qed.

(** One iteration of [down]: the smallest child [j] is smaller than [i]. *)
Lemma down_step n i j p :
  (0 < j < n)%nat -> parent j = i -> hole n i p -> above_parent i p ->
  (forall c, (0 < c < n)%nat -> parent c = i -> p j <= p c) ->
  p j < p i ->
  hole n j (pswap p i j) /\ above_parent j (pswap p i j).
Proof.
  intros Hj Hp [Hh Hg] Ha Hmin Hlt.
  pose proof (parent_lt j). split; [split|].
  - intros c Hc Hcj Hpc. pose proof (parent_lt c).
    unfold pswap. repeat case_decide; subst; try lia; try congruence.
    + apply Hmin; [lia|done].
    + apply Hg; lia.
    + apply Hh; lia.
  - intros c _ Hc He. pose proof (parent_lt c).
    unfold pswap. repeat case_decide; subst; try lia; try congruence.
    apply Hh; lia.
  - intros _. unfold pswap. repeat case_decide; subst; try lia; try congruence.
Qed.

End Order.

#[export] Instance pswap_Proper :
  Proper (pointwise_relation nat eq ==> eq ==> eq ==> eq ==> eq) pswap.
Proof. intros p q Hpq ? i -> ? j -> ? k ->. unfold pswap. by rewrite !Hpq. Qed.

#[export] Instance ordered_Proper n :
  Proper (pointwise_relation nat eq ==> iff) (ordered n).
Proof. intros p q Hpq. unfold ordered. by setoid_rewrite Hpq. Qed.

#[export] Instance hole_Proper n i :
  Proper (pointwise_relation nat eq ==> iff) (hole n i).
Proof. intros p q Hpq. unfold hole. by setoid_rewrite Hpq. Qed.

#[export] Instance below_children_Proper n i :
  Proper (pointwise_relation nat eq ==> iff) (below_children n i).
Proof. intros p q Hpq. unfold below_children. by setoid_rewrite Hpq. Qed.

#[export] Instance above_parent_Proper i :
  Proper (pointwise_relation nat eq ==> iff) (above_parent i).
Proof. intros p q Hpq. unfold above_parent. by setoid_rewrite Hpq. Qed.

(** ** What [container/heap] expects from its client *)

Class HeapLaws (H : Type) `{HeapInterface H} := {
  prio : H -> nat -> Z;
  Swap_Len : forall h i j, i < Len h -> j < Len h -> Len (Swap h i j) = Len h;
  Less_prio : forall h i j, i < Len h -> j < Len h ->
    Less h i j = (prio h i <? prio h j)%Z;
  Swap_prio : forall h i j, i < Len h -> j < Len h ->
    pointwise_relation nat eq (prio (Swap h i j)) (pswap (prio h) i j)
}.

Section Correctness.
Context {H : Type} {HI : HeapInterface H} {HL : HeapLaws H}.

(** A predicate that every exchange within the first [n] elements preserves. *)
Definition swap_closed (n : nat) (P : H -> Prop) : Prop :=
  forall h i j, P h -> n <= Len h -> i < n -> j < n -> P (Swap h i j).

Lemma minChild_spec h i n :
  2 * i + 1 < n -> n <= Len h ->
  let j := minChild h i n in
  0 < j < n /\ parent j = i /\
  forall c, 0 < c < n -> parent c = i -> (prio h j <= prio h c)%Z.
Proof.
  intros Hn Hlen. unfold minChild. cbv zeta.
  assert (Hch : forall c, 0 < c -> parent c = i -> c = 2 * i + 1 \/ c = S (2 * i + 1)).
  { intros c Hc Hp. apply parent_children in Hp; lia. }
  assert (parent (2 * i + 1) = i /\ parent (S (2 * i + 1)) = i) as [Hp1 Hp2].
  { split; apply parent_children; lia. }
  set (j1 := 2 * i + 1) in *. destruct (S j1 <? n) eqn:E2; cbn [andb].
  - apply Nat.ltb_lt in E2. rewrite Less_prio by lia.
    destruct (_ <? _)%Z eqn:E; (split; [lia|split; [done|]]);
      intros c Hc Hp; destruct (Hch c) as [-> | ->]; try done; lia.
  - apply Nat.ltb_ge in E2. split; [lia|split; [done|]].
    intros c Hc Hp. destruct (Hch c) as [-> | ->]; try done; lia.
Qed.

Lemma down_loop_closed P fuel h i n :
  swap_closed n P -> P h -> n <= Len h ->
  P (down_loop fuel h i n).1 /\ Len (down_loop fuel h i n).1 = Len h.
Proof.
  intros HP. revert h i. induction fuel as [|fuel IH]; intros h i Hh Hn; simpl; [done|].
  destruct (n <=? _) eqn:E; [done|]. apply Nat.leb_gt in E.
  destruct (minChild_spec h i n) as (Hj & Hpar & _); [lia..|].
  destruct (negb _); [done|].
  assert (i < n) by (pose proof (parent_lt (minChild h i n)); lia).
  rewrite <- (Swap_Len h i (minChild h i n)) by lia.
  apply IH; [apply HP; lia || done|]. rewrite Swap_Len; lia.
Qed.

Lemma up_loop_closed P fuel h j n :
  swap_closed n P -> P h -> j < n -> n <= Len h ->
  P (up_loop fuel h j) /\ Len (up_loop fuel h j) = Len h.
Proof.
  intros HP. revert h j. induction fuel as [|fuel IH]; intros h j Hh Hj Hn; simpl; [done|].
  destruct (_ =? _) eqn:E; simpl; [done|]. apply Nat.eqb_neq in E.
  destruct (negb _); [done|].
  assert (parent j < j) by (apply parent_lt; destruct j; [done|lia]).
  rewrite <- (Swap_Len h (parent j) j) by lia.
  apply IH; [apply HP; lia || done|lia|]. rewrite Swap_Len; lia.
Qed.

Lemma up_closed P h j n :
  swap_closed n P -> P h -> j < n -> n <= Len h ->
  P (up h j) /\ Len (up h j) = Len h.
Proof. apply up_loop_closed. Qed.

Lemma down_closed P h i n :
  swap_closed n P -> P h -> n <= Len h ->
  P (down h i n).1 /\ Len (down h i n).1 = Len h.
Proof.
  intros HP Hh Hn. unfold down.
  pose proof (down_loop_closed P (S n) h i n HP Hh Hn) as Hd.
  by destruct (down_loop _ _ _ _).
Qed.

Lemma fixAt_closed P h i n :
  swap_closed n P -> P h -> i < n -> n <= Len h ->
  P (fixAt h i n) /\ Len (fixAt h i n) = Len h.
Proof.
  intros HP Hh Hi Hn. unfold fixAt.
  destruct (down_closed P h i n) as [Hd Hl]; [done..|].
  destruct (down h i n) as [h' moved]. simpl in *.
  destruct moved; [done|].
  destruct (up_closed P h' i n) as [Hu Hul]; [done|done|lia|lia|]. split; [done|lia].
Qed.

(** The bound [S n] given to [down] is never the reason why its loop stops:
    more fuel does not change the result. *)
Lemma down_loop_enough fuel1 fuel2 h i n :
  n - i < fuel1 -> n - i < fuel2 -> down_loop fuel1 h i n = down_loop fuel2 h i n.
Proof.
  revert fuel2 h i. induction fuel1 as [|f1 IH]; intros [|f2] h i Hf1 Hf2; try lia.
  simpl. destruct (n <=? _) eqn:E; [done|]. apply Nat.leb_gt in E.
  destruct (negb _); [done|].
  assert (i < minChild h i n) by (unfold minChild; destruct (_ && _); lia).
  apply IH; lia.
Qed.

(** The loop equation of [up], without fuel. *)
Lemma up_loop_enough fuel1 fuel2 h j :
  j < fuel1 -> j < fuel2 -> up_loop fuel1 h j = up_loop fuel2 h j.
Proof.
  revert fuel2 h j. induction fuel1 as [|f1 IH]; intros [|f2] h j H1 H2; try lia.
  simpl. destruct (parent j =? j) eqn:E; simpl; [done|]. apply Nat.eqb_neq in E.
  destruct (negb _); [done|].
  assert (parent j < j) by (apply parent_lt; destruct j; [done|lia]).
  apply IH; lia.
Qed.

Lemma up_unfold h j :
  up h j =
  if (parent j =? j) || negb (Less h j (parent j)) then h
  else up (Swap h (parent j) j) (parent j).
Proof.
  unfold up at 1. simpl. destruct (parent j =? j) eqn:E; simpl; [done|].
  apply Nat.eqb_neq in E. destruct (negb _); [done|].
  assert (parent j < j) by (apply parent_lt; destruct j; [done|lia]).
  unfold up. apply up_loop_enough; lia.
Qed.

Lemma up_ordered h j n :
  n <= Len h -> j < n -> hole n j (prio h) -> below_children n j (prio h) ->
  ordered n (prio (up h j)).
Proof.
  revert h. induction (lt_wf j) as [j _ IH]. intros h Hn Hj Hh Hb.
  rewrite up_unfold. destruct (parent j =? j) eqn:E; simpl.
  - apply Nat.eqb_eq, parent_0 in E as ->.
    apply (hole_ordered n 0); [done|done|]. intros ?. lia.
  - apply Nat.eqb_neq in E.
    assert (0 < j) by (destruct j; [done|lia]). pose proof (parent_lt j).
    rewrite Less_prio by lia. destruct (_ <? _)%Z eqn:El; simpl.
    + destruct (up_step n j (prio h)) as [Hs1 Hs2]; [lia..|done|done|lia|].
      apply IH; [lia|rewrite Swap_Len; lia|lia|by rewrite Swap_prio by lia..].
    + apply (hole_ordered n j); [done|done|]. intros ?. lia.
Qed.

Lemma down_loop_ordered fuel h i n :
  n <= Len h -> n - i < fuel -> hole n i (prio h) -> above_parent i (prio h) ->
  ordered n (prio (down_loop fuel h i n).1).
Proof.
  revert h i. induction fuel as [|fuel IH]; intros h i Hn Hf Hh Ha; [lia|]. simpl.
  destruct (n <=? _) eqn:E.
  { apply Nat.leb_le in E. apply (hole_ordered n i); [done| |done].
    intros c Hc [-> | ->]%parent_children; lia. }
  apply Nat.leb_gt in E.
  destruct (minChild_spec h i n) as (Hj & Hpar & Hmin); [lia..|].
  pose proof (parent_lt (minChild h i n)).
  rewrite Less_prio by lia. destruct (_ <? _)%Z eqn:El; simpl.
  - destruct (down_step n i (minChild h i n) (prio h)) as [Hs1 Hs2]; [done..|lia|].
    apply IH; [rewrite Swap_Len; lia|lia|by rewrite Swap_prio by lia..].
  - apply (hole_ordered n i); [done| |done].
    intros c Hc Hp. specialize (Hmin c Hc Hp). lia.
Qed.

(** An element that violates the order with its parent never moves down. *)
Lemma down_loop_stay fuel h i n :
  n <= Len h -> i < n -> below_children n i (prio h) ->
  down_loop fuel h i n = (h, i).
Proof.
  intros Hn Hi Hb. destruct fuel as [|fuel]; simpl; [done|].
  destruct (n <=? _) eqn:E; [done|]. apply Nat.leb_gt in E.
  destruct (minChild_spec h i n) as (Hj & Hpar & _); [lia..|].
  rewrite Less_prio by lia. specialize (Hb _ Hj Hpar).
  destruct (_ <? _)%Z eqn:El; simpl; [lia|done].
Qed.

Lemma down_loop_index fuel h i n : (i <= (down_loop fuel h i n).2).
Proof.
  revert h i. induction fuel as [|fuel IH]; intros h i; simpl; [done|].
  destruct (_ <=? _); [done|]. destruct (negb _); [done|].
  etrans; [|apply IH]. unfold minChild. destruct (_ && _); lia.
Qed.

Lemma down_loop_unmoved fuel h i n :
  (down_loop fuel h i n).2 <= i -> (down_loop fuel h i n).1 = h.
Proof.
  destruct fuel as [|fuel]; simpl; [done|].
  destruct (_ <=? _); [done|]. destruct (negb _); [done|].
  intros Hle. pose proof (down_loop_index fuel (Swap h i (minChild h i n)) (minChild h i n) n).
  assert (i < minChild h i n) by (unfold minChild; destruct (_ && _); lia). lia.
Qed.

(** Re-establishing the order after the element at [i] changed arbitrarily:
    the core of [heap.Fix] and [heap.Remove]. *)
Lemma fixAt_ordered h i n :
  n <= Len h -> i < n -> hole n i (prio h) -> ordered n (prio (fixAt h i n)).
Proof.
  intros Hn Hi Hh. unfold fixAt, down.
  destruct (decide (above_parent i (prio h))) as [Ha|Ha].
  - pose proof (down_loop_ordered (S n) h i n Hn ltac:(lia) Hh Ha) as Ho.
    destruct (down_loop_closed (fun _ => True) (S n) h i n) as [_ Hl]; [done..|].
    destruct (down_loop _ _ _ _) as [h' i'] eqn:E. simpl in *.
    destruct (i <? i') eqn:Ei; [done|].
    apply up_ordered; [lia|lia|by apply ordered_hole|].
    intros c Hc <-. apply Ho. lia.
  - assert (Hb : below_children n i (prio h)).
    { intros c Hc Hp. destruct Hh as [_ Hg].
      destruct (decide (0 < i)) as [H0|H0]; [|exfalso; apply Ha; intros ?; lia].
      specialize (Hg c H0 Hc Hp).
      destruct (decide (prio h (parent i) <= prio h i)%Z) as [|]; [|lia].
      exfalso. apply Ha. by intros _. }
    rewrite down_loop_stay by done. rewrite Nat.ltb_irrefl.
    by apply up_ordered.
Qed.

(** [down] alone restores the order when the root was replaced, as in [heap.Pop]. *)
Lemma down_root_ordered h n :
  n <= Len h -> hole n 0 (prio h) -> ordered n (prio (down h 0 n).1).
Proof.
  intros Hn Hh. unfold down.
  pose proof (down_loop_ordered (S n) h 0 n Hn ltac:(lia) Hh) as Ho.
  destruct (down_loop _ _ _ _); simpl in *. apply Ho. intros ?. lia.
Qed.

End Correctness.
