(* ===== verification/LeaseShard.v ===== *)
(** * Lease shards (src/server/state.go)

    A shard owns a map from keys to lease objects, a min-heap of the same
    objects ordered by deadline and a pool of recycled objects. The map and the
    heap share the objects, so the model keeps an explicit memory of lease
    objects: pointers are addresses into it, and writing a field through one
    pointer is seen through the other. *)

From S2P Require Import Prelude GoHeap.
From stdpp Require Import base gmap list numbers tactics.

#[local] Open Scope Z_scope.

(** [type leaseID struct]. *)
Record leaseID := LeaseID { clientID : Z; bootID : Z; leaseSeq : Z }.

#[export] Instance leaseID_eq_dec : EqDecision leaseID.
Proof. solve_decision. Defined.

(** [type lease struct]. *)
Record lease := Lease {
  l_key : Z;
  l_id : leaseID;
  l_deadline : Z;
  l_heapIndex : Z
}.

(** [lease{}], the value a recycled object is reset to. *)
Definition zeroLease : lease := Lease 0 (LeaseID 0 0 0) zeroTime 0.

Definition set_heapIndex (i : Z) (l : lease) : lease :=
  Lease (l_key l) (l_id l) (l_deadline l) i.
Definition set_deadline (d : Z) (l : lease) : lease :=
  Lease (l_key l) (l_id l) d (l_heapIndex l).

(** ** [leaseDeadlineHeap] and its [heap.Interface] methods *)

(** The slice of pointers together with the memory the pointers lead to. *)
Record leaseDeadlineHeap := DeadlineHeap {
  h_objs : gmap nat lease;
  h_slice : list nat
}.

Definition deadlineAt (h : leaseDeadlineHeap) (i : nat) : Z :=
  match h_slice h !! i with
  | Some p => from_option l_deadline zeroTime (h_objs h !! p)
  | None => zeroTime
  end.

Definition hLen (h : leaseDeadlineHeap) : nat := length (h_slice h).

Definition hLess (h : leaseDeadlineHeap) (i j : nat) : bool :=
  timeBefore (deadlineAt h i) (deadlineAt h j).

Definition hSwap (h : leaseDeadlineHeap) (i j : nat) : leaseDeadlineHeap :=
  match h_slice h !! i, h_slice h !! j with
  | Some pi, Some pj =>
      DeadlineHeap
        (alter (set_heapIndex (Z.of_nat j)) pi
          (alter (set_heapIndex (Z.of_nat i)) pj (h_objs h)))
        (list_swap (h_slice h) i j)
  | _, _ => h
  end.

Definition hPush (h : leaseDeadlineHeap) (current : nat) : leaseDeadlineHeap :=
  DeadlineHeap
    (alter (set_heapIndex (Z.of_nat (hLen h))) current (h_objs h))
    (h_slice h ++ [current]).

(** [None] is the run-time panic of indexing an empty slice. *)
Definition hPop (h : leaseDeadlineHeap) : option (leaseDeadlineHeap * nat) :=
  let last := (hLen h - 1)%nat in
  match h_slice h !! last with
  | Some current =>
      Some (DeadlineHeap (alter (set_heapIndex (-1)) current (h_objs h))
              (take last (h_slice h)), current)
  | None => None
  end.

#[export] Instance leaseDeadlineHeap_Interface : HeapInterface leaseDeadlineHeap := {
  Len := hLen; Less := hLess; Swap := hSwap
}.

(** [heap.Push], [heap.Pop], [heap.Remove] and [heap.Fix] on it. An index that
    leaves the slice makes the exchange or the comparison panic ([None]). *)
Definition heapPush (h : leaseDeadlineHeap) (current : nat) : leaseDeadlineHeap :=
  let h := hPush h current in up h (hLen h - 1).

Definition heapPop (h : leaseDeadlineHeap) : option (leaseDeadlineHeap * nat) :=
  if decide (hLen h = O) then None
  else
    let n := (hLen h - 1)%nat in
    hPop (down (hSwap h 0 n) 0 n).1.

Definition heapRemove (h : leaseDeadlineHeap) (index : Z) : option (leaseDeadlineHeap * nat) :=
  if decide (0 <= index < Z.of_nat (hLen h)) then
    let i := Z.to_nat index in
    let n := (hLen h - 1)%nat in
    if decide (n = i) then hPop h else hPop (fixAt (hSwap h i n) i n)
  else None.

Definition heapFix (h : leaseDeadlineHeap) (index : Z) : option leaseDeadlineHeap :=
  if decide (0 <= index < Z.of_nat (hLen h)) then
    Some (fixAt h (Z.to_nat index) (hLen h))
  else if decide (index = -1 \/ index = 0) then Some h
  else None.

(** ** [leaseShard] *)

Record leaseShard := Shard {
  objs : gmap nat lease;
  nextLoc : nat;
  leases : gmap Z nat;
  deadlines : list nat;
  leasePool : list nat
}.

Definition newShard : leaseShard := Shard ∅ 0 ∅ [] [].

Definition shardHeap (s : leaseShard) : leaseDeadlineHeap :=
  DeadlineHeap (objs s) (deadlines s).

Definition withHeap (s : leaseShard) (h : leaseDeadlineHeap) : leaseShard :=
  Shard (h_objs h) (nextLoc s) (leases s) (h_slice h) (leasePool s).

(** [sync.Pool.Get]: any pooled object or [nil]; [got] is the pool's choice. *)
Definition poolGet (s : leaseShard) (got : option nat) : option nat * list nat :=
  match got ≫= (fun n => (n,.) <$> leasePool s !! n) with
  | Some (n, p) => (Some p, delete n (leasePool s))
  | None => (None, leasePool s)
  end.

Definition addLease (s : leaseShard) (key : Z) (id : leaseID) (deadline : Z)
    (got : option nat) : leaseShard :=
  let '(pooled, pool) := poolGet s got in
  let '(current, next) :=
    match pooled with
    | Some p => (p, nextLoc s)
    | None => (nextLoc s, S (nextLoc s))
    end in
  let objs1 := <[current := Lease key id deadline (-1)]> (objs s) in
  let h := heapPush (DeadlineHeap objs1 (deadlines s)) current in
  Shard (h_objs h) next (<[key := current]> (leases s)) (h_slice h) pool.

Definition recycleLease (s : leaseShard) (current : nat) : leaseShard :=
  Shard (<[current := zeroLease]> (objs s)) (nextLoc s) (leases s) (deadlines s)
    (leasePool s ++ [current]).

(** Every argument of [removeLease] in the source is a live pointer. *)
Definition removeLease (s : leaseShard) (current : nat) : option leaseShard :=
  l ← objs s !! current;
  let s1 := Shard (objs s) (nextLoc s) (delete (l_key l) (leases s))
              (deadlines s) (leasePool s) in
  '(h, _) ← heapRemove (shardHeap s1) (l_heapIndex l);
  Some (recycleLease (withHeap s1 h) current).

(** The loop of [removeExpiredLeases]; each round shortens the heap. *)
Fixpoint removeExpiredLoop (fuel : nat) (s : leaseShard) (now deleted : Z)
    : option (leaseShard * Z) :=
  match fuel with
  | O => Some (s, deleted)
  | S fuel =>
      if decide (deadlines s ≠ []) then
        if negb (timeAfter (deadlineAt (shardHeap s) 0) now) then
          '(h, current) ← heapPop (shardHeap s);
          l ← h_objs h !! current;
          let s1 := withHeap s h in
          let s2 := Shard (objs s1) (nextLoc s1) (delete (l_key l) (leases s1))
                      (deadlines s1) (leasePool s1) in
          removeExpiredLoop fuel (recycleLease s2 current) now (u64 (deleted + 1))
        else Some (s, deleted)
      else Some (s, deleted)
  end.

Definition removeExpiredLeases (s : leaseShard) (now : Z) : option (leaseShard * Z) :=
  removeExpiredLoop (S (length (deadlines s))) s now 0.

(** [current.deadline = candidate; heap.Fix(&shard.deadlines, current.heapIndex)]
    of [renew]. *)
Definition extendLease (s : leaseShard) (current : nat) (candidate : Z) : option leaseShard :=
  l ← objs s !! current;
  let objs1 := <[current := set_deadline candidate l]> (objs s) in
  h ← heapFix (DeadlineHeap objs1 (deadlines s)) (l_heapIndex l);
  Some (withHeap s h).

(** ** The heap keeps its indices and its order *)

(** What a lease object says, apart from its position in the heap. *)
Definition content (l : lease) : Z * leaseID * Z := (l_key l, l_id l, l_deadline l).

Lemma content_set_heapIndex i (m : gmap nat lease) p :
  content <$> alter (set_heapIndex i) p m = content <$> m.
Proof.
  apply map_eq. intros q. rewrite !lookup_fmap, lookup_alter.
  case_decide; subst; [|done]. by destruct (m !! q).
Qed.

Lemma deadlineAt_content h i :
  deadlineAt h i =
  match h_slice h !! i with
  | Some p => from_option snd zeroTime ((content <$> h_objs h) !! p)
  | None => zeroTime
  end.
Proof.
  unfold deadlineAt. destruct (h_slice h !! i) as [p|]; [|done].
  rewrite lookup_fmap. by destruct (h_objs h !! p).
Qed.

Lemma hSwap_Some h i j pi pj :
  h_slice h !! i = Some pi -> h_slice h !! j = Some pj ->
  hSwap h i j = DeadlineHeap
    (alter (set_heapIndex (Z.of_nat j)) pi
      (alter (set_heapIndex (Z.of_nat i)) pj (h_objs h)))
    (list_swap (h_slice h) i j).
Proof. intros Hi Hj. unfold hSwap. by rewrite Hi, Hj. Qed.

Lemma hSwap_slice h i j : h_slice (hSwap h i j) = list_swap (h_slice h) i j.
Proof. unfold hSwap, list_swap. by destruct (h_slice h !! i), (h_slice h !! j). Qed.

Lemma hSwap_content h i j : content <$> h_objs (hSwap h i j) = content <$> h_objs h.
Proof.
  unfold hSwap. destruct (h_slice h !! i), (h_slice h !! j); simpl; rewrite ?content_set_heapIndex; done.
Qed.

Lemma hSwap_Len h i j : hLen (hSwap h i j) = hLen h.
Proof. unfold hLen. by rewrite hSwap_slice, length_list_swap. Qed.

Lemma hSwap_deadlineAt h i j :
  (i < hLen h)%nat -> (j < hLen h)%nat ->
  pointwise_relation nat eq (deadlineAt (hSwap h i j)) (pswap (deadlineAt h) i j).
Proof.
  intros Hi Hj k. unfold pswap.
  rewrite !deadlineAt_content. rewrite hSwap_content, hSwap_slice.
  rewrite lookup_list_swap by done. by repeat case_decide.
Qed.

#[export] Instance leaseDeadlineHeap_Laws : HeapLaws leaseDeadlineHeap := {
  prio := deadlineAt;
  Swap_Len := fun h i j _ _ => hSwap_Len h i j;
  Less_prio := fun h i j _ _ => eq_refl;
  Swap_prio := hSwap_deadlineAt
}.

(** Every pointer of the heap leads to an object that knows its position. *)
Definition indexed (h : leaseDeadlineHeap) : Prop :=
  forall i p, h_slice h !! i = Some p ->
    exists l, h_objs h !! p = Some l /\ l_heapIndex l = Z.of_nat i.

Lemma indexed_inj h i j p :
  indexed h -> h_slice h !! i = Some p -> h_slice h !! j = Some p -> i = j.
Proof.
  intros Hh Hi Hj. destruct (Hh _ _ Hi) as (l & Hl & Hx), (Hh _ _ Hj) as (l' & Hl' & Hy).
  simplify_eq. lia.
Qed.

Lemma indexed_NoDup h : indexed h -> NoDup (h_slice h).
Proof. intros Hh. apply NoDup_alt. intros i j p. by apply indexed_inj. Qed.

Lemma indexed_swap h i j :
  indexed h -> (i < hLen h)%nat -> (j < hLen h)%nat -> indexed (hSwap h i j).
Proof.
  intros Hh Hi Hj.
  destruct (lookup_lt_is_Some_2 _ _ Hi) as [pi Hpi].
  destruct (lookup_lt_is_Some_2 _ _ Hj) as [pj Hpj].
  rewrite (hSwap_Some _ _ _ _ _ Hpi Hpj). intros k p. simpl.
  rewrite lookup_list_swap by done.
  destruct (Hh _ _ Hpi) as (li & Hli & Hxi), (Hh _ _ Hpj) as (lj & Hlj & Hxj).
  destruct (decide (k = i)) as [->|Hki]; [|destruct (decide (k = j)) as [->|Hkj]];
    intros Hk.
  - assert (pj = p) as -> by congruence. destruct (decide (pi = p)) as [->|].
    + assert (i = j) as -> by eauto using indexed_inj.
      rewrite !lookup_alter_eq, Hli. by eexists.
    + rewrite lookup_alter_ne, lookup_alter_eq, Hlj by done. by eexists.
  - assert (pi = p) as -> by congruence.
    rewrite lookup_alter_eq. destruct (decide (pj = p)) as [->|].
    + rewrite lookup_alter_eq, Hlj. by eexists.
    + rewrite lookup_alter_ne, Hli by done. by eexists.
  - destruct (Hh _ _ Hk) as (l & Hl & Hx).
    assert (pi <> p) by (intros ->; assert (k = i) by eauto using indexed_inj; done).
    assert (pj <> p) by (intros ->; assert (k = j) by eauto using indexed_inj; done).
    rewrite !lookup_alter_ne by done. by eexists.
Qed.

(** The reordering algorithms only permute the pointers and rewrite indices;
    elements beyond the first [n] stay where they are. *)
Definition shuffled (n : nat) (h h' : leaseDeadlineHeap) : Prop :=
  indexed h' /\ h_slice h' ≡ₚ h_slice h /\
  content <$> h_objs h' = content <$> h_objs h /\
  (forall k, (n <= k)%nat -> h_slice h' !! k = h_slice h !! k).

Lemma shuffled_refl n h : indexed h -> shuffled n h h.
Proof. intros Hh. unfold shuffled. by split_and!. Qed.

Lemma shuffled_closed n h : swap_closed n (shuffled n h).
Proof.
  intros h' i j (Hi & Hp & Hc & Hk) Hn Hni Hnj. simpl in *. unfold shuffled. split_and!.
  - apply indexed_swap; [done|lia..].
  - by rewrite hSwap_slice, list_swap_Permutation.
  - by rewrite hSwap_content.
  - intros k Hnk. rewrite hSwap_slice, lookup_list_swap; [|unfold hLen in *; lia..].
    rewrite !decide_False by lia. by apply Hk.
Qed.

Lemma shuffled_trans n h1 h2 h3 :
  shuffled n h1 h2 -> shuffled n h2 h3 -> shuffled n h1 h3.
Proof.
  intros (?&?&?&Hk) (?&?&?&Hk'). unfold shuffled. split_and!; [done|by etrans|by etrans|].
  intros k Hnk. rewrite Hk', Hk; done.
Qed.

Lemma hPop_shuffled h h' n p :
  shuffled n h h' -> hLen h = S n -> h_slice h !! n = Some p ->
  exists h'', hPop h' = Some (h'', p) /\ h_slice h'' ≡ₚ take n (h_slice h) /\
    h_slice h'' = take n (h_slice h') /\ indexed h'' /\
    content <$> h_objs h'' = content <$> h_objs h.
Proof.
  intros (Hi & Hp & Hc & Hk) Hn Hl. unfold hPop, hLen in *.
  assert (Hlen : length (h_slice h') = S n) by by rewrite Hp.
  rewrite Hlen. replace (S n - 1)%nat with n by lia.
  rewrite (Hk n), Hl by lia. eexists. split; [done|]. simpl.
  assert (Hn' : h_slice h' !! n = Some p) by by rewrite Hk by lia.
  assert (Hperm : take n (h_slice h') ≡ₚ take n (h_slice h)).
  { apply (Permutation_app_inv_r [p]).
    by rewrite (lookup_last_removelast (h_slice h')), (lookup_last_removelast (h_slice h)). }
  split_and!; [done|done| |by rewrite content_set_heapIndex].
  intros i q. simpl. rewrite lookup_take_Some. intros [Hq Hin].
  destruct (Hi _ _ Hq) as (l & Hlq & Hx). exists l. split; [|done].
  rewrite lookup_alter_ne; [done|]. intros ->.
  assert (i = n) by eauto using indexed_inj. lia.
Qed.

(** The heap as the shard relies on it. *)
Definition heap_ok (h : leaseDeadlineHeap) : Prop :=
  indexed h /\ ordered (hLen h) (deadlineAt h).

Lemma ordered_pop h h' n :
  ordered n (deadlineAt h) -> h_slice h' = take n (h_slice h) ->
  content <$> h_objs h' = content <$> h_objs h -> ordered (hLen h') (deadlineAt h').
Proof.
  intros Ho Hs Hc c Hlt. unfold hLen in Hlt. rewrite Hs, length_take in Hlt.
  pose proof (parent_lt c). rewrite !deadlineAt_content, Hs, Hc.
  rewrite !lookup_take_lt by lia.
  rewrite <- !deadlineAt_content. apply Ho. lia.
Qed.

Lemma heapPush_spec h p :
  heap_ok h -> p ∉ h_slice h -> is_Some (h_objs h !! p) ->
  heap_ok (heapPush h p) /\ h_slice (heapPush h p) ≡ₚ p :: h_slice h /\
  content <$> h_objs (heapPush h p) = content <$> h_objs h.
Proof.
  intros [Hi Ho] Hp [l Hl].
  assert (Hi1 : indexed (hPush h p)).
  { intros i q. simpl. rewrite lookup_app_Some, list_lookup_singleton_Some.
    intros [Hq|(Hge & Hz & <-)].
    - rewrite lookup_alter_ne by (intros ->; by apply Hp, list_elem_of_lookup_2 with i). eauto.
    - rewrite lookup_alter_eq, Hl. simpl. eexists. split; [done|]. simpl. unfold hLen. lia. }
  assert (Hlen : hLen (hPush h p) = S (hLen h)) by (unfold hLen; simpl; rewrite length_app; simpl; lia).
  unfold heapPush. rewrite Hlen. replace (S (hLen h) - 1)%nat with (hLen h) by lia.
  destruct (up_closed (shuffled (S (hLen h)) (hPush h p)) (hPush h p) (hLen h) (S (hLen h)))
    as [(Hi2 & Hp2 & Hc2 & _) Hl2]; [apply shuffled_closed|by apply shuffled_refl|lia|simpl; lia|].
  simpl in Hl2. split_and!.
  - split; [done|]. rewrite Hl2, Hlen.
    assert (Hq : forall k, (k < hLen h)%nat -> deadlineAt (hPush h p) k = deadlineAt h k).
    { intros k Hk. rewrite !deadlineAt_content. simpl. rewrite content_set_heapIndex.
      by rewrite lookup_app_l. }
    apply (up_ordered (HL:=leaseDeadlineHeap_Laws)); [simpl; lia|lia|split|].
    + intros c Hc Hne _. pose proof (parent_lt c). simpl. rewrite !Hq by lia. apply Ho. lia.
    + intros c _ Hc Hpar. pose proof (parent_lt c). lia.
    + intros c Hc Hpar. pose proof (parent_lt c). lia.
  - rewrite Hp2. simpl. by rewrite (Permutation_app_comm (h_slice h)).
  - rewrite Hc2. simpl. apply content_set_heapIndex.
Qed.

Lemma hPop_ok h h1 h2 n p :
  hLen h = S n -> shuffled n h1 h2 -> h_slice h1 !! n = Some p ->
  h_slice h1 ≡ₚ h_slice h -> content <$> h_objs h1 = content <$> h_objs h ->
  ordered n (deadlineAt h2) ->
  exists h', hPop h2 = Some (h', p) /\ heap_ok h' /\
    h_slice h ≡ₚ p :: h_slice h' /\ content <$> h_objs h' = content <$> h_objs h.
Proof.
  intros Hn Hs Hlast Hperm Hc Hord.
  assert (hLen h1 = S n) as Hlen1 by (unfold hLen in *; by rewrite Hperm).
  destruct (hPop_shuffled h1 h2 n p) as (h' & Hpop & Hp1 & Hs1 & Hi1 & Hc1); [done..|].
  exists h'. split_and!; [done|split; [done|]| |by rewrite Hc1].
  - eapply ordered_pop; [done..|]. destruct Hs as (_ & _ & Hc2 & _). by rewrite Hc1, Hc2.
  - rewrite Hp1, <- Hperm.
    rewrite <- (lookup_last_removelast (h_slice h1) n p) at 1 by done.
    by rewrite (Permutation_app_comm (take n _)).
Qed.

(** After the exchange of position [i] with the last position [n]. *)
Lemma swap_last_ok h i n p :
  heap_ok h -> hLen h = S n -> h_slice h !! i = Some p ->
  indexed (hSwap h i n) /\ hLen (hSwap h i n) = S n /\
  h_slice (hSwap h i n) !! n = Some p /\ h_slice (hSwap h i n) ≡ₚ h_slice h /\
  hole n i (deadlineAt (hSwap h i n)).
Proof.
  intros [Hi Ho] Hn Hp. pose proof (lookup_lt_Some _ _ _ Hp) as Hlt.
  assert (Hil : (i < hLen h)%nat) by done. assert (Hnl : (n < hLen h)%nat) by lia.
  split_and!.
  - by apply indexed_swap.
  - by rewrite hSwap_Len.
  - rewrite hSwap_slice, lookup_list_swap by done.
    destruct (decide (n = i)) as [->|]; [done|]. by rewrite decide_True.
  - by rewrite hSwap_slice, list_swap_Permutation.
  - rewrite hSwap_deadlineAt by done. apply hole_swap_last. by rewrite <- Hn.
Qed.

Lemma heapRemove_spec h i p :
  heap_ok h -> h_slice h !! i = Some p ->
  exists h', heapRemove h (Z.of_nat i) = Some (h', p) /\ heap_ok h' /\
    h_slice h ≡ₚ p :: h_slice h' /\ content <$> h_objs h' = content <$> h_objs h.
Proof.
  intros Hh Hp. pose proof (lookup_lt_Some _ _ _ Hp) as Hlt. fold (hLen h) in Hlt.
  unfold heapRemove. rewrite decide_True by lia. rewrite Nat2Z.id.
  destruct (hLen h) as [|n] eqn:Hn; [lia|]. replace (S n - 1)%nat with n by lia.
  destruct (decide (n = i)) as [->|Hne].
  - destruct Hh as [Hi Ho]. rewrite Hn in Ho.
    apply (hPop_ok h h h i); [done|by apply shuffled_refl|done..|].
    apply ordered_le with (S i); [done|lia].
  - destruct (swap_last_ok h i n p) as (Hi & Hl & Hlast & Hperm & Hhole); [done..|].
    apply (hPop_ok h (hSwap h i n) _ n p); [done| |done|done|apply hSwap_content|].
    + apply (fixAt_closed (shuffled n (hSwap h i n)));
        [apply shuffled_closed|by apply shuffled_refl|lia|simpl; lia].
    + apply (fixAt_ordered (HL:=leaseDeadlineHeap_Laws)); [simpl; lia|lia|done].
Qed.

Lemma heapPop_spec h p :
  heap_ok h -> h_slice h !! O = Some p ->
  exists h', heapPop h = Some (h', p) /\ heap_ok h' /\
    h_slice h ≡ₚ p :: h_slice h' /\ content <$> h_objs h' = content <$> h_objs h.
Proof.
  intros Hh Hp. pose proof (lookup_lt_Some _ _ _ Hp) as Hlt. fold (hLen h) in Hlt.
  unfold heapPop. destruct (hLen h) as [|n] eqn:Hn; [lia|].
  rewrite decide_False by done. replace (S n - 1)%nat with n by lia.
  destruct (swap_last_ok h 0 n p) as (Hi & Hl & Hlast & Hperm & Hhole); [done..|].
  apply (hPop_ok h (hSwap h 0 n) _ n p); [done| |done|done|apply hSwap_content|].
  - apply (down_closed (shuffled n (hSwap h 0 n)));
      [apply shuffled_closed|by apply shuffled_refl|simpl; lia].
  - apply (down_root_ordered (HL:=leaseDeadlineHeap_Laws)); [simpl; lia|done].
Qed.

Lemma heapFix_spec h i :
  indexed h -> (i < hLen h)%nat -> hole (hLen h) i (deadlineAt h) ->
  exists h', heapFix h (Z.of_nat i) = Some h' /\ heap_ok h' /\
    h_slice h' ≡ₚ h_slice h /\ content <$> h_objs h' = content <$> h_objs h.
Proof.
  intros Hi Hlt Hhole. unfold heapFix. rewrite decide_True by lia. rewrite Nat2Z.id.
  destruct (fixAt_closed (shuffled (hLen h) h) h i (hLen h)) as [(Hi' & Hp & Hc & _) Hl];
    [apply shuffled_closed|by apply shuffled_refl|done|done|].
  eexists. split_and!; [done|split; [done|]|done..].
  simpl in Hl. rewrite Hl. by apply (fixAt_ordered (HL:=leaseDeadlineHeap_Laws)).
Qed.

(** ** The shard invariant *)

Definition keyOf (m : gmap nat lease) (p : nat) : option Z := l_key <$> (m !! p).
Definition valueOf (m : gmap nat lease) (p : nat) : option (leaseID * Z) :=
  (fun l => (l_id l, l_deadline l)) <$> (m !! p).

(** The map and the heap hold the same objects, each under its own key; pooled
    objects are in neither. This part does not depend on the heap positions. *)
Record map_ok (m : gmap nat lease) (next : nat) (ls : gmap Z nat) (sl pool : list nat)
    : Prop := {
  ok_map : forall k p, ls !! k = Some p <-> p ∈ sl /\ keyOf m p = Some k;
  ok_pool_NoDup : NoDup pool;
  ok_pool : forall p, p ∈ pool -> (p ∉ sl) /\ is_Some (m !! p);
  ok_fresh : forall p, (next <= p)%nat -> m !! p = None
}.

Definition shard_inv (s : leaseShard) : Prop :=
  heap_ok (shardHeap s) /\
  map_ok (objs s) (nextLoc s) (leases s) (deadlines s) (leasePool s).

(** The table of leases a shard stands for. *)
Definition shardTable (s : leaseShard) : gmap Z (leaseID * Z) :=
  omap (valueOf (objs s)) (leases s).

Section Content.
Context (m m' : gmap nat lease) (Hc : content <$> m' = content <$> m).

Lemma content_lookup p : content <$> (m' !! p) = content <$> (m !! p).
Proof. by rewrite <- !lookup_fmap, Hc. Qed.

Lemma content_keyOf p : keyOf m' p = keyOf m p.
Proof.
  pose proof (content_lookup p) as He. unfold keyOf.
  destruct (m' !! p), (m !! p); simplify_eq/=; congruence.
Qed.

Lemma content_valueOf p : valueOf m' p = valueOf m p.
Proof.
  pose proof (content_lookup p) as He. unfold valueOf.
  destruct (m' !! p), (m !! p); simplify_eq/=; congruence.
Qed.

Lemma content_None p : m' !! p = None <-> m !! p = None.
Proof.
  pose proof (content_lookup p) as He. destruct (m' !! p), (m !! p); by simplify_eq/=.
Qed.

Lemma content_is_Some p : is_Some (m' !! p) <-> is_Some (m !! p).
Proof. rewrite <- !not_eq_None_Some. by rewrite content_None. Qed.

Lemma map_ok_shuffle next ls sl sl' pool :
  map_ok m next ls sl pool -> sl' ≡ₚ sl -> map_ok m' next ls sl' pool.
Proof.
  intros [Hm Hn Hp Hf] Hsl. split.
  - intros k p. by rewrite content_keyOf, Hsl.
  - done.
  - intros p Hin. rewrite Hsl, content_is_Some. by apply Hp.
  - intros p Hle. rewrite content_None. by apply Hf.
Qed.

End Content.

Lemma map_ok_add m next ls sl pool current key id d i next' pool' :
  map_ok m next ls sl pool -> ls !! key = None -> current ∉ sl -> current ∉ pool' ->
  NoDup pool' -> (forall p, p ∈ pool' -> p ∈ pool) ->
  (current < next')%nat -> (next <= next')%nat ->
  map_ok (<[current := Lease key id d i]> m) next' (<[key := current]> ls)
    (current :: sl) pool'.
Proof.
  intros [Hm Hn Hp Hf] Hkey Hcs Hcp Hnd Hsub Hlt Hle. split; [|done|..].
  - intros k p. unfold keyOf. rewrite !lookup_insert, elem_of_cons.
    destruct (decide (key = k)) as [<-|Hk], (decide (current = p)) as [<-|Hcp']; simpl;
      rewrite ?Hm; unfold keyOf.
    + naive_solver.
    + split; [congruence|]. intros [[->|Hin] Hkp]; [done|].
      assert (ls !! key = Some p) by by apply Hm. congruence.
    + naive_solver.
    + naive_solver.
  - intros p Hin. destruct (Hp p (Hsub p Hin)) as [Hns Hso].
    assert (p <> current) by set_solver. split; [set_solver|]. by rewrite lookup_insert_ne.
  - intros p Hlep. rewrite lookup_insert_ne by lia. apply Hf. lia.
Qed.

Lemma map_ok_remove m next ls sl pool current k :
  map_ok m next ls (current :: sl) pool -> current ∉ sl -> keyOf m current = Some k ->
  map_ok (<[current := zeroLease]> m) next (delete k ls) sl (pool ++ [current]).
Proof.
  intros [Hm Hn Hp Hf] Hcs Hk.
  assert (Hcp : current ∉ pool) by (intros Hin; destruct (Hp _ Hin); set_solver).
  assert (Hsome : is_Some (m !! current)) by (unfold keyOf in Hk; destruct (m !! current); done).
  assert (Hls : ls !! k = Some current) by (apply Hm; set_solver).
  split.
  - intros k' p. unfold keyOf. rewrite lookup_delete, lookup_insert.
    destruct (decide (k = k')) as [<-|Hkk].
    + split; [done|]. intros [Hin Hkp]. exfalso.
      rewrite decide_False in Hkp by set_solver.
      assert (ls !! k = Some p) by (apply Hm; set_solver). set_solver.
    + rewrite Hm, elem_of_cons. destruct (decide (current = p)) as [<-|]; unfold keyOf.
      * split; [|naive_solver]. intros [_ Hx]. unfold keyOf in Hk. congruence.
      * naive_solver.
  - apply list.NoDup_app. split_and!; [done|set_solver|apply NoDup_singleton].
  - intros p. rewrite elem_of_app, list_elem_of_singleton, lookup_insert.
    case_decide; subst; [done|]. intros [Hin| ->]; [|done].
    destruct (Hp p Hin). set_solver.
  - intros p Hle. rewrite lookup_insert_ne; [by apply Hf|]. intros ->.
    destruct Hsome as [l Hl]. by rewrite Hf in Hl.
Qed.

Lemma map_ok_set_deadline m next ls sl pool current l d :
  map_ok m next ls sl pool -> m !! current = Some l ->
  map_ok (<[current := set_deadline d l]> m) next ls sl pool.
Proof.
  intros [Hm Hn Hp Hf] Hl. split; [|done|..].
  - intros k p. rewrite Hm. unfold keyOf. rewrite lookup_insert.
    case_decide; subst; [by rewrite Hl|done].
  - intros p Hin. rewrite lookup_insert. case_decide; subst; [naive_solver|by apply Hp].
  - intros p Hle. rewrite lookup_insert_ne; [by apply Hf|]. intros ->. by rewrite Hf in Hl.
Qed.

(** ** The operations of a shard on its table *)

Lemma shardTable_lookup s k : shardTable s !! k = leases s !! k ≫= valueOf (objs s).
Proof. unfold shardTable. by rewrite lookup_omap. Qed.

Lemma shard_inv_object s k p :
  shard_inv s -> leases s !! k = Some p ->
  exists l i, objs s !! p = Some l /\ l_key l = k /\ l_heapIndex l = Z.of_nat i /\
    deadlines s !! i = Some p.
Proof.
  intros [[Hi _] Hm] Hp. apply (ok_map _ _ _ _ _ Hm) in Hp as [Hin Hk].
  apply list_elem_of_lookup in Hin as [i Hi']. destruct (Hi i p Hi') as (l & Hl & Hx).
  simpl in Hl. exists l, i. unfold keyOf in Hk. rewrite Hl in Hk. naive_solver.
Qed.

Lemma shardTable_object s k p l :
  leases s !! k = Some p -> objs s !! p = Some l ->
  shardTable s !! k = Some (l_id l, l_deadline l).
Proof. intros Hp Hl. rewrite shardTable_lookup, Hp. simpl. unfold valueOf. by rewrite Hl. Qed.

Lemma shardTable_None s k :
  shard_inv s -> shardTable s !! k = None <-> leases s !! k = None.
Proof.
  intros Hinv. split; [|intros Hn; by rewrite shardTable_lookup, Hn].
  destruct (leases s !! k) as [p|] eqn:Hp; [|done].
  destruct (shard_inv_object s k p Hinv Hp) as (l & i & Hl & _).
  by rewrite (shardTable_object s k p l).
Qed.

Lemma shardTable_Some s k id d :
  shard_inv s -> shardTable s !! k = Some (id, d) ->
  exists p l, leases s !! k = Some p /\ objs s !! p = Some l /\ l_id l = id /\ l_deadline l = d.
Proof.
  intros _. rewrite shardTable_lookup. intros (p & Hp & (l & Hl & Heq)%fmap_Some)%bind_Some.
  simplify_eq/=. eauto 10.
Qed.

(** Distinct keys never share an object. *)
Lemma leases_inj s k k' p :
  shard_inv s -> leases s !! k = Some p -> leases s !! k' = Some p -> k = k'.
Proof.
  intros [_ Hm] [_ Hk]%(ok_map _ _ _ _ _ Hm) [_ Hk']%(ok_map _ _ _ _ _ Hm). congruence.
Qed.

Lemma newShard_inv : shard_inv newShard.
Proof.
  split; [split|split]; simpl.
  - intros i p. simpl. by rewrite lookup_nil.
  - intros c Hc. unfold hLen in Hc. simpl in Hc. lia.
  - intros k p. rewrite lookup_empty. set_solver.
  - apply NoDup_nil_2.
  - set_solver.
  - intros p _. apply lookup_empty.
Qed.

Lemma newShard_table : shardTable newShard = ∅.
Proof. apply map_eq. intros k. by rewrite shardTable_lookup, !lookup_empty. Qed.

(** Objects outside the heap can be rewritten freely. *)
Lemma heap_ok_insert m sl p l :
  heap_ok (DeadlineHeap m sl) -> p ∉ sl -> heap_ok (DeadlineHeap (<[p:=l]> m) sl).
Proof.
  intros [Hi Ho] Hp.
  assert (Hne : forall i q, sl !! i = Some q -> p <> q).
  { intros i q Hq ->. by apply Hp, list_elem_of_lookup_2 with i. }
  split.
  - intros i q Hq. simpl in *. rewrite lookup_insert_ne by eauto. by apply Hi.
  - assert (Hd : forall k, deadlineAt (DeadlineHeap (<[p:=l]> m) sl) k = deadlineAt (DeadlineHeap m sl) k).
    { intros k. unfold deadlineAt. simpl. destruct (sl !! k) eqn:Ek; [|done].
      by rewrite lookup_insert_ne by eauto. }
    intros c Hc. rewrite !Hd. by apply Ho.
Qed.

Lemma poolGet_spec s got pooled pool :
  shard_inv s -> poolGet s got = (pooled, pool) ->
  NoDup pool /\ (forall p, p ∈ pool -> p ∈ leasePool s) /\
  (forall p, pooled = Some p -> p ∈ leasePool s /\ p ∉ pool).
Proof.
  intros [_ Hm]. pose proof (ok_pool_NoDup _ _ _ _ _ Hm) as Hnd. unfold poolGet.
  destruct (got ≫= _) as [[n p]|] eqn:E; intros [= <- <-]; [|by split_and!].
  apply bind_Some in E as (n' & -> & E). apply fmap_Some in E as (p' & Hp & [= -> ->]).
  pose proof (delete_Permutation _ _ _ Hp) as Hperm. rewrite Hperm in Hnd.
  apply list.NoDup_cons in Hnd as [Hnin Hnd].
  split_and!; [done|intros q Hq; rewrite Hperm; set_solver|].
  intros q [= <-]. split; [|done]. by apply list_elem_of_lookup_2 with n'.
Qed.

(** The object [addLease] writes is neither in the heap nor left in the pool. *)
Lemma poolGet_unused s got pooled pool :
  shard_inv s -> poolGet s got = (pooled, pool) ->
  let '(current, next) :=
    match pooled with Some p => (p, nextLoc s) | None => (nextLoc s, S (nextLoc s)) end in
  current ∉ deadlines s /\ current ∉ pool /\ (current < next)%nat /\ (nextLoc s <= next)%nat.
Proof.
  intros Hinv Hpg. destruct (poolGet_spec s got pooled pool Hinv Hpg) as (Hnd & Hsub & Hgot).
  destruct Hinv as [[Hidx _] Hm]. destruct pooled as [p|].
  - destruct (Hgot p eq_refl) as [Hin Hout].
    destruct (ok_pool _ _ _ _ _ Hm p Hin) as [Hnot [l Hl]]. split_and!; [done|done| |done].
    destruct (decide (nextLoc s <= p)%nat) as [Hle|]; [|lia].
    by rewrite (ok_fresh _ _ _ _ _ Hm p Hle) in Hl.
  - pose proof (ok_fresh _ _ _ _ _ Hm (nextLoc s) ltac:(lia)) as Hf. split_and!; [| |lia|lia].
    + intros [i Hi]%list_elem_of_lookup.
      destruct (Hidx i (nextLoc s) Hi) as (l & Hl & _). simpl in Hl. congruence.
    + intros Hin%Hsub. destruct (ok_pool _ _ _ _ _ Hm _ Hin) as [_ [l Hl]]. congruence.
Qed.

(** [addLease] stores the lease under its key and touches no other key. *)
Lemma addLease_spec s key id deadline got :
  shard_inv s -> leases s !! key = None ->
  shard_inv (addLease s key id deadline got) /\
  shardTable (addLease s key id deadline got) = <[key := (id, deadline)]> (shardTable s).
Proof.
  intros Hinv Hkey. unfold addLease.
  destruct (poolGet s got) as [pooled pool] eqn:Hpg.
  destruct (poolGet_spec s got pooled pool Hinv Hpg) as (Hnd & Hsub & _).
  pose proof (poolGet_unused s got pooled pool Hinv Hpg) as Hcn.
  destruct (match pooled with Some p => _ | None => _ end) as [current next].
  destruct Hcn as (Hcd & Hcp & Hlt & Hnx). clear Hpg.
  set (h1 := DeadlineHeap (<[current := Lease key id deadline (-1)]> (objs s)) (deadlines s)).
  destruct Hinv as [Hheap Hm].
  destruct (heapPush_spec h1 current) as (Hok & Hperm & Hc);
    [by apply heap_ok_insert|done|simpl; rewrite lookup_insert_eq; by eexists|].
  split; [split; [done|]|].
  - simpl. apply (map_ok_shuffle _ _ Hc _ _ (current :: deadlines s)); [|done].
    by apply (map_ok_add _ _ _ _ _ _ _ _ _ _ _ _ Hm).
  - apply map_eq. intros k. rewrite shardTable_lookup, !lookup_insert. simpl.
    rewrite lookup_insert. case_decide as Hk; simpl; rewrite ?shardTable_lookup.
    + rewrite (content_valueOf _ _ Hc). unfold valueOf. simpl. by rewrite lookup_insert_eq.
    + destruct (leases s !! k) as [p|] eqn:Hp; [|done]. simpl.
      rewrite (content_valueOf _ _ Hc). unfold valueOf. simpl. rewrite lookup_insert_ne; [done|].
      intros ->. apply (ok_map _ _ _ _ _ Hm) in Hp as [Hp _]. done.
Qed.

(** Taking the object of key [k] out of the heap, forgetting the key and
    recycling the object: the common end of every removal. *)
Lemma dropLease_spec s h k p :
  shard_inv s -> leases s !! k = Some p -> heap_ok h ->
  deadlines s ≡ₚ p :: h_slice h -> content <$> h_objs h = content <$> objs s ->
  let s' := recycleLease
    (Shard (h_objs h) (nextLoc s) (delete k (leases s)) (h_slice h) (leasePool s)) p in
  shard_inv s' /\ shardTable s' = delete k (shardTable s).
Proof.
  intros [[Hidx _] Hm] Hp Hok Hperm Hc s'.
  apply (ok_map _ _ _ _ _ Hm) in Hp as Hpk. destruct Hpk as [_ Hk].
  assert (Hnin : p ∉ h_slice h).
  { pose proof (indexed_NoDup _ Hidx) as Hnd. simpl in Hnd. rewrite Hperm in Hnd.
    by apply list.NoDup_cons in Hnd as [? _]. }
  split; [split|].
  - apply heap_ok_insert; [by destruct h|done].
  - simpl. apply map_ok_remove; [|done|by rewrite (content_keyOf _ _ Hc)].
    by apply (map_ok_shuffle _ _ Hc _ _ (deadlines s)).
  - apply map_eq. intros k'. rewrite shardTable_lookup, !lookup_delete. simpl.
    rewrite lookup_delete. case_decide as Hkk; [done|]. rewrite shardTable_lookup.
    destruct (leases s !! k') as [q|] eqn:Hq; [|done]. simpl.
    rewrite <- (content_valueOf _ _ Hc). unfold valueOf. rewrite lookup_insert_ne; [done|].
    intros ->. apply (ok_map _ _ _ _ _ Hm) in Hq as [_ Hq]. congruence.
Qed.

(** [removeLease] never panics on a resident lease and removes exactly it. *)
Lemma removeLease_spec s k p :
  shard_inv s -> leases s !! k = Some p ->
  exists s', removeLease s p = Some s' /\ shard_inv s' /\
    shardTable s' = delete k (shardTable s).
Proof.
  intros Hinv Hp. destruct (shard_inv_object s k p Hinv Hp) as (l & i & Hl & <- & Hx & Hi).
  unfold removeLease. rewrite Hl. simpl. rewrite Hx.
  destruct (heapRemove_spec (shardHeap s) i p) as (h & Hrem & Hok & Hperm & Hc);
    [apply Hinv|done|].
  unfold shardHeap in Hrem. simpl. unfold shardHeap. simpl. rewrite Hrem. simpl.
  eexists. split; [done|]. by apply (dropLease_spec s h (l_key l) p).
Qed.

(** Only the leases whose deadline has not passed survive a cleanup. *)
Definition unexpired (now : Z) (kv : Z * (leaseID * Z)) : Prop := now < kv.2.2.

#[export] Instance unexpired_dec now kv : Decision (unexpired now kv).
Proof. unfold unexpired. apply _. Defined.

Lemma removeExpired_stop s now :
  shard_inv s ->
  (deadlines s = [] \/ timeAfter (deadlineAt (shardHeap s) 0) now = true) ->
  filter (unexpired now) (shardTable s) = shardTable s.
Proof.
  intros Hinv Hstop. apply map_filter_id. intros k [id d] Hk. unfold unexpired. simpl.
  destruct (shardTable_Some s k id d Hinv Hk) as (p & l & Hp & Hl & <- & <-).
  destruct (shard_inv_object s k p Hinv Hp) as (l' & i & Hl' & _ & _ & Hi). simplify_eq.
  destruct Hstop as [Hnil|Hroot]; [by rewrite Hnil in Hi|].
  destruct Hinv as [[_ Ho] _].
  pose proof (ordered_min _ _ i Ho (lookup_lt_Some _ _ _ Hi)) as Hmin.
  unfold timeAfter in Hroot. unfold deadlineAt at 2 in Hmin. simpl in Hmin.
  rewrite Hi, Hl in Hmin. simpl in Hmin. lia.
Qed.

(** One round of the cleanup: the root of the heap is dropped. *)
Lemma popLease_spec s p sl :
  shard_inv s -> deadlines s = p :: sl ->
  exists h l, heapPop (shardHeap s) = Some (h, p) /\ h_objs h !! p = Some l /\
    let s' := recycleLease
      (Shard (h_objs h) (nextLoc s) (delete (l_key l) (leases s)) (h_slice h) (leasePool s)) p in
    shard_inv s' /\ shardTable s' = delete (l_key l) (shardTable s) /\
    length (deadlines s) = S (length (deadlines s')) /\
    shardTable s !! l_key l = Some (l_id l, deadlineAt (shardHeap s) 0).
Proof.
  intros Hinv Hsl.
  assert (Hp0 : h_slice (shardHeap s) !! O = Some p) by (simpl; by rewrite Hsl).
  destruct (heapPop_spec (shardHeap s) p) as (h & Hpop & Hok & Hperm & Hc);
    [apply Hinv|done|].
  destruct (proj1 (proj1 Hinv) _ _ Hp0) as (l0 & Hl0 & _). simpl in Hl0.
  pose proof (content_lookup _ _ Hc p) as Hcl. simpl in Hcl. rewrite Hl0 in Hcl.
  apply fmap_Some in Hcl as (l & Hl & Hcl). injection Hcl as Hkl Hid Hdl.
  assert (Hk : leases s !! l_key l = Some p).
  { apply (ok_map _ _ _ _ _ (proj2 Hinv)). unfold keyOf. rewrite Hl0, <- Hkl, Hsl. set_solver. }
  destruct (dropLease_spec s h (l_key l) p) as [Hinv' Htab]; [done..|].
  exists h, l. cbv zeta. split_and!; [done|done|done|done| |].
  - apply Permutation_length in Hperm. done.
  - rewrite (shardTable_object s _ p l0) by done. unfold deadlineAt. rewrite Hp0. simpl.
    rewrite Hl0. simpl. by rewrite Hid.
Qed.

Lemma removeExpiredLoop_spec fuel s now deleted :
  shard_inv s -> (length (deadlines s) < fuel)%nat ->
  0 <= deleted -> deleted + Z.of_nat (size (shardTable s)) < 2 ^ 64 ->
  exists s' n, removeExpiredLoop fuel s now deleted = Some (s', deleted + Z.of_nat n) /\
    shard_inv s' /\ shardTable s' = filter (unexpired now) (shardTable s) /\
    size (shardTable s) = (n + size (shardTable s'))%nat.
Proof.
  revert s deleted. induction fuel as [|fuel IH]; intros s deleted Hinv Hf H0 Hb; [lia|].
  assert (Hstop : deadlines s = [] \/ timeAfter (deadlineAt (shardHeap s) 0) now = true ->
    exists s' n, Some (s, deleted) = Some (s', deleted + Z.of_nat n) /\ shard_inv s' /\
      shardTable s' = filter (unexpired now) (shardTable s) /\
      size (shardTable s) = (n + size (shardTable s'))%nat).
  { intros Hs. exists s, O. rewrite Z.add_0_r, removeExpired_stop by done. done. }
  simpl. destruct (decide (deadlines s ≠ [])) as [Hne|Hnil];
    [|apply Hstop; left; by apply dec_stable].
  destruct (timeAfter _ now) eqn:Hroot; simpl; [apply Hstop; by right|].
  destruct (deadlines s) as [|p sl] eqn:Hsl; [done|]. clear Hne Hstop.
  destruct (popLease_spec s p sl Hinv Hsl) as (h & l & -> & Hl & Hinv' & Htab & Hlen & Hval).
  simpl. rewrite Hl. simpl. set (s' := recycleLease _ p) in *.
  assert (Hsz : size (shardTable s) = S (size (shardTable s')))
    by (rewrite Htab; by eapply map_size_delete_S).
  rewrite u64_small by in_range.
  destruct (IH s' (deleted + 1)) as (s'' & n & Hrun & Hinv'' & Htab' & Hsize);
    [done|rewrite Hsl in Hlen; simpl in *; lia|lia|lia|].
  exists s'', (S n). split_and!; [etrans; [apply Hrun|do 2 f_equal; lia]|done| |lia].
  rewrite Htab', Htab. apply map_filter_delete_not. intros v Hv.
  rewrite Hval in Hv. injection Hv as <-. unfold unexpired, timeAfter in *. simpl. lia.
Qed.

(** [removeExpiredLeases] terminates without a panic, keeps the shard well
    formed, leaves exactly the unexpired leases and counts the removed ones. *)
Lemma removeExpiredLeases_spec s now :
  shard_inv s -> Z.of_nat (size (shardTable s)) < 2 ^ 64 ->
  exists s' n, removeExpiredLeases s now = Some (s', Z.of_nat n) /\
    shard_inv s' /\ shardTable s' = filter (unexpired now) (shardTable s) /\
    size (shardTable s) = (n + size (shardTable s'))%nat.
Proof.
  intros Hinv Hb. unfold removeExpiredLeases.
  destruct (removeExpiredLoop_spec (S (length (deadlines s))) s now 0) as (s' & n & Hr);
    [done|lia|lia|lia|]. exists s', n. by rewrite Z.add_0_l in Hr.
Qed.

(** Moving a deadline re-sorts the heap and changes nothing else. *)
Lemma extendLease_spec s k p l candidate :
  shard_inv s -> leases s !! k = Some p -> objs s !! p = Some l ->
  exists s', extendLease s p candidate = Some s' /\ shard_inv s' /\
    shardTable s' = <[k := (l_id l, candidate)]> (shardTable s).
Proof.
  intros Hinv Hp Hl. destruct (shard_inv_object s k p Hinv Hp) as (l' & i & Hl' & <- & Hx & Hi).
  simplify_eq. unfold extendLease. rewrite Hl. simpl. rewrite Hx.
  set (h1 := DeadlineHeap (<[p := set_deadline candidate l]> (objs s)) (deadlines s)).
  destruct Hinv as [[Hidx Ho] Hm].
  destruct (heapFix_spec h1 i) as (h & Hfix & Hok & Hperm & Hc).
  { intros j q Hq. simpl in *. rewrite lookup_insert. case_decide; subst.
    - rewrite (indexed_inj _ _ _ _ Hidx Hq Hi). eauto.
    - by apply Hidx. }
  { by apply lookup_lt_Some in Hi. }
  { apply hole_update with (deadlineAt (shardHeap s)); [done|].
    intros j Hj. unfold deadlineAt. simpl. destruct (deadlines s !! j) as [q|] eqn:Hq; [|done].
    rewrite lookup_insert_ne; [done|]. intros ->. by pose proof (indexed_inj _ _ _ _ Hidx Hq Hi). }
  rewrite Hfix. simpl. eexists. split; [done|]. split; [split; [by destruct h|]|].
  - simpl. apply (map_ok_shuffle _ _ Hc _ _ (deadlines s)); [|done]. by apply map_ok_set_deadline.
  - apply map_eq. intros k. rewrite shardTable_lookup. simpl. rewrite lookup_insert.
    case_decide as Hk; [subst|rewrite shardTable_lookup].
    + rewrite Hp. simpl. rewrite (content_valueOf _ _ Hc). unfold valueOf. simpl.
      by rewrite lookup_insert_eq.
    + destruct (leases s !! k) as [q|] eqn:Hq; [|done]. simpl.
      rewrite (content_valueOf _ _ Hc). unfold valueOf. simpl.
      rewrite lookup_insert_ne; [done|]. intros ->.
      apply (ok_map _ _ _ _ _ Hm) in Hp as [_ Hp], Hq as [_ Hq]. congruence.
Qed.
