(* ===== verification/Protocol.v ===== *)
(** * Protocol constants and owned responses
    (src/internal/protocol/message.go, src/fbs/redlease/v1/redlease_generated.go)

    The generated enumerations are open Go [byte] types: a decoder can produce a
    value outside the named constants, so they are 8-bit numbers here too. *)

From S2P Require Import Prelude.
From stdpp Require Import base numbers.

#[local] Open Scope Z_scope.

(** [type ClientOperation byte]. *)
Definition ClientOperationNONE : Z := 0.
Definition ClientOperationACQUIRE : Z := 1.
Definition ClientOperationRENEW : Z := 2.
Definition ClientOperationRELEASE : Z := 3.
Definition ClientOperationGET_TTL : Z := 4.

(** [type LeaseStatus byte]. *)
Definition LeaseStatusOK : Z := 0.
Definition LeaseStatusALREADY_OWNED : Z := 1.
Definition LeaseStatusBUSY : Z := 2.
Definition LeaseStatusSTALE : Z := 3.
Definition LeaseStatusNOT_READY : Z := 4.
Definition LeaseStatusKEY_LIMIT_REACHED : Z := 5.

(** [type ServerResult byte]. *)
Definition ServerResultNONE : Z := 0.
Definition ServerResultACQUIRE : Z := 1.
Definition ServerResultRENEW : Z := 2.
Definition ServerResultRELEASE : Z := 3.
Definition ServerResultGET_TTL : Z := 4.

(** [const MaxTTLMS uint64 = 5_000]. *)
Definition MaxTTLMS : Z := 5000.

(** [type Response struct]. *)
Record Response := mkResponse {
  RequestID : Z;
  Operation : Z;
  Status : Z;
  TTLMS : Z
}.

#[export] Instance Response_eq_dec : EqDecision Response.
Proof. solve_decision. Defined.

Definition zeroResponse : Response := mkResponse 0 0 0 0.
