(* ===== verification/EnumNames.v ===== *)
(** * Names of the enumerations (src/fbs/redlease/v1/redlease_generated.go)

    The tables between the values of the generated enumerations and their names,
    and the [String] methods, which print any byte. *)

From stdpp Require Import base gmap list numbers strings.
From S2P Require Import Prelude GoText GoFlags GoFlagsSpec Protocol.

#[local] Open Scope Z_scope.

Definition EnumNamesClientOperation : gmap Z string := list_to_map [
  (ClientOperationNONE, "NONE"); (ClientOperationACQUIRE, "ACQUIRE"); (ClientOperationRENEW, "RENEW");
  (ClientOperationRELEASE, "RELEASE"); (ClientOperationGET_TTL, "GET_TTL")].

Definition EnumValuesClientOperation : gmap string Z := list_to_map [
  ("NONE", ClientOperationNONE); ("ACQUIRE", ClientOperationACQUIRE); ("RENEW", ClientOperationRENEW);
  ("RELEASE", ClientOperationRELEASE); ("GET_TTL", ClientOperationGET_TTL)].

Definition EnumNamesLeaseStatus : gmap Z string := list_to_map [
  (LeaseStatusOK, "OK"); (LeaseStatusALREADY_OWNED, "ALREADY_OWNED"); (LeaseStatusBUSY, "BUSY");
  (LeaseStatusSTALE, "STALE"); (LeaseStatusNOT_READY, "NOT_READY"); (LeaseStatusKEY_LIMIT_REACHED, "KEY_LIMIT_REACHED")].

Definition EnumValuesLeaseStatus : gmap string Z := list_to_map [
  ("OK", LeaseStatusOK); ("ALREADY_OWNED", LeaseStatusALREADY_OWNED); ("BUSY", LeaseStatusBUSY);
  ("STALE", LeaseStatusSTALE); ("NOT_READY", LeaseStatusNOT_READY); ("KEY_LIMIT_REACHED", LeaseStatusKEY_LIMIT_REACHED)].

Definition EnumNamesServerResult : gmap Z string := list_to_map [
  (ServerResultNONE, "NONE"); (ServerResultACQUIRE, "ACQUIRE"); (ServerResultRENEW, "RENEW");
  (ServerResultRELEASE, "RELEASE"); (ServerResultGET_TTL, "GET_TTL")].

Definition EnumValuesServerResult : gmap string Z := list_to_map [
  ("NONE", ServerResultNONE); ("ACQUIRE", ServerResultACQUIRE); ("RENEW", ServerResultRENEW);
  ("RELEASE", ServerResultRELEASE); ("GET_TTL", ServerResultGET_TTL)].

(** The three [String] methods: the name, or the type with the number. *)
Definition enumString (typeName : string) (names : gmap Z string) (v : Z) : string :=
  match names !! v with
  | Some s => s
  | None => (typeName +:+ "(" +:+ stringOf (decimal v) +:+ ")")%string
  end.

Definition ClientOperationString : Z -> string := enumString "ClientOperation" EnumNamesClientOperation.
Definition LeaseStatusString : Z -> string := enumString "LeaseStatus" EnumNamesLeaseStatus.
Definition ServerResultString : Z -> string := enumString "ServerResult" EnumNamesServerResult.

(** All bytes. *)
Definition allBytes : list Z := seqZ 0 256.

(** An enumeration whose tables are inverse to each other and whose [String] tells
    all bytes apart. *)
Definition enum_ok (names : gmap Z string) (values : gmap string Z) (print : Z -> string) : Prop :=
  Forall (fun v => forall s, names !! v = Some s -> values !! s = Some v) allBytes /\
  (forall s v, values !! s = Some v -> names !! v = Some s /\ is_u8 v) /\
  NoDup (print <$> allBytes).

Definition enum_check (names : gmap Z string) (values : gmap string Z) (print : Z -> string) : bool :=
  forallb (fun v => match names !! v with Some s => bool_decide (values !! s = Some v) | None => true end) allBytes &&
  forallb (fun p => bool_decide (names !! p.2 = Some p.1) && bool_decide (0 <= p.2 < 256)) (map_to_list values) &&
  bool_decide (NoDup (print <$> allBytes)).

Lemma enum_check_ok names values print : enum_check names values print = true -> enum_ok names values print.
Proof.
  unfold enum_check. rewrite !andb_true_iff, bool_decide_eq_true. intros [[H1 H2] H3]. split_and!; [| |done].
  - apply Forall_forall. intros v Hv s Hs. rewrite forallb_forall in H1. specialize (H1 v (proj1 (list_elem_of_In _ _) Hv)).
    rewrite Hs in H1. by apply bool_decide_eq_true in H1.
  - intros s v Hv. rewrite forallb_forall in H2. apply elem_of_map_to_list in Hv.
    specialize (H2 (s, v) (proj1 (list_elem_of_In _ _) Hv)). simpl in H2. apply andb_true_iff in H2 as [Ha Hb].
    apply bool_decide_eq_true in Ha, Hb. done.
Qed.

(** The names of operations, statuses and results. In each of the three
    enumerations the two tables are inverse to each other, and [String] prints
    different bytes, named or not, differently, so that a log line determines the
    byte; a named byte is found again under its printed name, and an unnamed one
    prints as nothing that is a name. *)
Theorem enum_names_roundtrip :
  (forall v s, is_u8 v -> EnumNamesClientOperation !! v = Some s <-> EnumValuesClientOperation !! s = Some v) /\
  (forall v s, is_u8 v -> EnumNamesLeaseStatus !! v = Some s <-> EnumValuesLeaseStatus !! s = Some v) /\
  (forall v s, is_u8 v -> EnumNamesServerResult !! v = Some s <-> EnumValuesServerResult !! s = Some v) /\
  (forall v w, is_u8 v -> is_u8 w -> ClientOperationString v = ClientOperationString w \/
     LeaseStatusString v = LeaseStatusString w \/ ServerResultString v = ServerResultString w -> v = w).
Proof.
  assert (He : forall names values print, enum_check names values print = true ->
    (forall v s, is_u8 v -> names !! v = Some s <-> values !! s = Some v) /\
    forall v w, is_u8 v -> is_u8 w -> print v = print w -> v = w).
  { intros names values print (H1 & H2 & H3)%enum_check_ok. rewrite Forall_forall in H1.
    assert (Hin : forall v, is_u8 v -> allBytes !! Z.to_nat v = Some v).
    { intros v [Hv Hv']. unfold allBytes. apply lookup_seqZ. lia. }
    split.
    - intros v s Hv. split; [apply H1; by eapply list_elem_of_lookup_2, Hin|by apply H2].
    - intros v w Hv Hw Heq. assert (Hn : Z.to_nat v = Z.to_nat w).
      { eapply (NoDup_lookup _ _ _ (print v) H3); rewrite list_lookup_fmap, Hin by done; [done|by rewrite Heq]. }
      destruct Hv, Hw. lia. }
  destruct (He EnumNamesClientOperation EnumValuesClientOperation ClientOperationString) as [A1 A2]; [vm_compute; reflexivity|].
  destruct (He EnumNamesLeaseStatus EnumValuesLeaseStatus LeaseStatusString) as [B1 B2]; [vm_compute; reflexivity|].
  destruct (He EnumNamesServerResult EnumValuesServerResult ServerResultString) as [C1 C2]; [vm_compute; reflexivity|].
  split_and!; [done..|]. intros v w Hv Hw [?|[?|?]]; auto.
Qed.

Example unnamed_status : LeaseStatusString 9 = "LeaseStatus(9)" /\ LeaseStatusString LeaseStatusBUSY = "BUSY".
Proof. by vm_compute. Qed.
