(* ===== verification/Server.v ===== *)
(** * The lock-server (src/server/server.go, src/server/state.go)

    The state of a [Server] and its operations as functions on that state. A
    handler receives the reading of [time.Now()] it takes and the choice of the
    object pool; [None] is a run-time panic. This file is the sequential
    semantics: one handler runs at a time. *)

From S2P Require Import Prelude GoHeap LeaseShard Protocol.
From stdpp Require Import base gmap list numbers strings tactics.

#[local] Open Scope Z_scope.

(** ** Configuration *)

Inductive Level := LevelInfo | LevelWarn | LevelError.

(** A [slog.Logger] decides which levels it records. *)
Record Logger := mkLogger { Enabled : Level -> bool }.

Record Config := mkConfig {
  MaxTTL : Z;
  MaxKeys : Z;
  cfgLogger : option Logger;
  ShardCount : Z
}.

Definition ProtocolMaxTTL : Z := durationMS MaxTTLMS.
Definition safetyMargin : Z := 100 * Millisecond.
Definition RestartQuarantineDuration : Z := ProtocolMaxTTL + safetyMargin + Millisecond.
Definition DefaultMaxKeys : Z := 10000.
Definition defaultShardCount : Z := 256.

Inductive configError :=
  | errLoggerNil
  | errMaxTTLZero
  | errMaxTTLTooLarge
  | errShardCount.

Definition Validate (c : Config) : option configError :=
  if decide (cfgLogger c = None) then Some errLoggerNil
  else if decide (MaxTTL c = 0) then Some errMaxTTLZero
  else if decide (Z.quot ProtocolMaxTTL Millisecond < MaxTTL c) then Some errMaxTTLTooLarge
  else if decide (ShardCount c <> 0 /\
                  Z.land (ShardCount c) (u32 (ShardCount c - 1)) <> 0)
       then Some errShardCount
  else None.

Definition resolveConfig (c : Config) : configError + Config :=
  match Validate c with
  | Some e => inl e
  | None =>
      inr (mkConfig (MaxTTL c)
             (if decide (MaxKeys c = 0) then DefaultMaxKeys else MaxKeys c)
             (cfgLogger c)
             (if decide (ShardCount c = 0) then defaultShardCount else ShardCount c))
  end.

(** ** Operations and responses *)

Inductive operationKind := operationAcquire | operationRenew | operationRelease.

#[export] Instance operationKind_eq_dec : EqDecision operationKind.
Proof. solve_decision. Defined.

Record operation := mkOperation {
  op_requestID : Z;
  op_kind : operationKind;
  op_key : Z;
  op_leaseID : leaseID;
  op_requestedTTLMS : Z
}.

Definition acquireResponse (requestID status ttlMS : Z) : Response :=
  mkResponse requestID ClientOperationACQUIRE status ttlMS.
Definition renewResponse (requestID status ttlMS : Z) : Response :=
  mkResponse requestID ClientOperationRENEW status ttlMS.
Definition releaseResponse (requestID status : Z) : Response :=
  mkResponse requestID ClientOperationRELEASE status 0.

Definition statusResponse (op : operation) (status : Z) : Response :=
  match op_kind op with
  | operationAcquire => acquireResponse (op_requestID op) status 0
  | operationRenew => renewResponse (op_requestID op) status 0
  | operationRelease => releaseResponse (op_requestID op) status
  end.

Definition remainingTTLMS (deadline now maximum : Z) : Z :=
  let remaining := Milliseconds (timeSub deadline now) in
  if decide (remaining <= 0) then 0 else Z.min (u64 remaining) maximum.

(** ** Server state *)

Inductive serverPhase := phaseQuarantine | phaseActive | phaseFailed | phaseClosed.

#[export] Instance serverPhase_eq_dec : EqDecision serverPhase.
Proof. solve_decision. Defined.

(** The causes the code passes to [fail]. *)
Inductive failure :=
  | failKeyUnderflow (count current : Z)
  | failEncodeResponse
  | failAccept.

Inductive logEntry :=
  | logServer (message state : string)
  | logFailure (cause : failure)
  | logLease (message operationName reason : string)
      (key requestID : Z) (id : leaseID) (expiredByMS : option Z).

Record Server := mkServer {
  config : Config;
  phase : serverPhase;
  keys : Z;
  activeConnections : Z;
  operationTotals : operationKind -> Z;
  ctxDone : bool;                  (* [s.ctx] is cancelled *)
  fatal : list failure;            (* the buffered channel [s.fatal] *)
  shards : list leaseShard;
  shardMask : Z;
  listenerOpen : bool;
  connections : gset nat;
  failOnce : bool;                 (* [s.failOnce] has run *)
  closeOnce : bool;                (* [s.closeOnce] has run *)
  logs : list logEntry
}.

Definition setShards (s : Server) (l : list leaseShard) : Server :=
  mkServer (config s) (phase s) (keys s) (activeConnections s) (operationTotals s)
    (ctxDone s) (fatal s) l (shardMask s) (listenerOpen s) (connections s)
    (failOnce s) (closeOnce s) (logs s).

Definition setShard (s : Server) (i : nat) (sh : leaseShard) : Server :=
  setShards s (<[i := sh]> (shards s)).

Definition setKeys (s : Server) (n : Z) : Server :=
  mkServer (config s) (phase s) n (activeConnections s) (operationTotals s)
    (ctxDone s) (fatal s) (shards s) (shardMask s) (listenerOpen s) (connections s)
    (failOnce s) (closeOnce s) (logs s).

Definition countOperation (s : Server) (kind : operationKind) : Server :=
  mkServer (config s) (phase s) (keys s) (activeConnections s)
    (fun k => if decide (k = kind) then u64 (operationTotals s k + 1) else operationTotals s k)
    (ctxDone s) (fatal s) (shards s) (shardMask s) (listenerOpen s) (connections s)
    (failOnce s) (closeOnce s) (logs s).

Definition setPhase (s : Server) (p : serverPhase) : Server :=
  mkServer (config s) p (keys s) (activeConnections s) (operationTotals s)
    (ctxDone s) (fatal s) (shards s) (shardMask s) (listenerOpen s) (connections s)
    (failOnce s) (closeOnce s) (logs s).

Definition logEnabled (s : Server) (level : Level) : bool :=
  from_option (fun l => Enabled l level) false (cfgLogger (config s)).

(** A record reaches the owner's handler when its level is enabled. *)
Definition writeLog (s : Server) (level : Level) (e : logEntry) : Server :=
  mkServer (config s) (phase s) (keys s) (activeConnections s) (operationTotals s)
    (ctxDone s) (fatal s) (shards s) (shardMask s) (listenerOpen s) (connections s)
    (failOnce s) (closeOnce s)
    (if logEnabled s level then logs s ++ [e] else logs s).

(** [s.cancel()] followed by [s.closeConnections()]: the context is done, the
    listener and every registered connection are closed. Closed connections
    stay in the map until their own goroutine deletes them. *)
Definition cancelAndClose (s : Server) : Server :=
  mkServer (config s) (phase s) (keys s) (activeConnections s) (operationTotals s)
    true (fatal s) (shards s) (shardMask s) false (connections s)
    (failOnce s) (closeOnce s) (logs s).

Definition markFailOnce (s : Server) : Server :=
  mkServer (config s) (phase s) (keys s) (activeConnections s) (operationTotals s)
    (ctxDone s) (fatal s) (shards s) (shardMask s) (listenerOpen s) (connections s)
    true (closeOnce s) (logs s).

Definition markCloseOnce (s : Server) : Server :=
  mkServer (config s) (phase s) (keys s) (activeConnections s) (operationTotals s)
    (ctxDone s) (fatal s) (shards s) (shardMask s) (listenerOpen s) (connections s)
    (failOnce s) true (logs s).

Definition sendFatal (s : Server) (f : failure) : Server :=
  mkServer (config s) (phase s) (keys s) (activeConnections s) (operationTotals s)
    (ctxDone s) (fatal s ++ [f]) (shards s) (shardMask s) (listenerOpen s) (connections s)
    (failOnce s) (closeOnce s) (logs s).

(** Registration of connections by [runListener] and [runConnection]. *)
Definition setConnections (s : Server) (conns : gset nat) (activeConns : Z) : Server :=
  mkServer (config s) (phase s) (keys s) activeConns (operationTotals s) (ctxDone s) (fatal s)
    (shards s) (shardMask s) (listenerOpen s) conns (failOnce s) (closeOnce s) (logs s).

(** ** Lifecycle *)

Definition active (s : Server) : bool := bool_decide (phase s = phaseActive).

Definition fail (s : Server) (cause : failure) : Server :=
  if failOnce s then s
  else
    let s := markFailOnce s in
    if decide (phase s = phaseClosed) then s
    else writeLog (sendFatal (cancelAndClose (setPhase s phaseFailed)) cause)
           LevelError (logFailure cause).

Definition logLeaseOperation (s : Server) (level : Level)
    (message operationName reason : string) (op : operation)
    (includeExpiredBy : bool) (expiredByMS : Z) : Server :=
  if negb (logEnabled s level) then s
  else writeLog s level (logLease message operationName reason
         (op_key op) (op_requestID op) (op_leaseID op)
         (if includeExpiredBy then Some expiredByMS else None)).

(** ** The key counter

    The [CompareAndSwap] loops end with the first successful exchange; run
    alone, that is the first round. *)

Definition reserveKey (s : Server) : Server * bool :=
  if decide (MaxKeys (config s) <= keys s) then (s, false)
  else (setKeys s (u64 (keys s + 1)), true).

Definition releaseKeys (s : Server) (count : Z) : Server :=
  if decide (count = 0) then s
  else if decide (keys s < count) then fail s (failKeyUnderflow count (keys s))
  else setKeys s (u64 (keys s - count)).

(** ** Cleanup of expired keys *)

Fixpoint removeExpiredKeysLoop (l : list leaseShard) (now deleted : Z)
    : option (list leaseShard * Z) :=
  match l with
  | [] => Some ([], deleted)
  | shard :: l =>
      '(shard, n) ← removeExpiredLeases shard now;
      '(l, deleted) ← removeExpiredKeysLoop l now (u64 (deleted + n));
      Some (shard :: l, deleted)
  end.

Definition removeExpiredKeys (s : Server) (now : Z) : option Server :=
  '(l, deleted) ← removeExpiredKeysLoop (shards s) now 0;
  Some (releaseKeys (setShards s l) deleted).

(** ** Acquire *)

(** The end of [acquireLocked], once no record of the key is left. *)
Definition acquireVacant (s : Server) (i : nat) (op : operation)
    (now effectiveTTLMS : Z) (got : option nat) : option (Server * (Response * bool)) :=
  if decide (effectiveTTLMS = 0) then
    Some (s, (acquireResponse (op_requestID op) LeaseStatusOK 0, false))
  else
    let '(s, reserved) := reserveKey s in
    if negb reserved then Some (s, (zeroResponse, true))
    else
      shard ← shards s !! i;
      let shard := addLease shard (op_key op) (op_leaseID op)
                     (timeAdd now (durationMS effectiveTTLMS)) got in
      Some (setShard s i shard,
            (acquireResponse (op_requestID op) LeaseStatusOK effectiveTTLMS, false)).

Definition acquireLocked (s : Server) (i : nat) (op : operation)
    (now effectiveTTLMS : Z) (got : option nat) : option (Server * (Response * bool)) :=
  shard ← shards s !! i;
  match leases shard !! op_key op with
  | Some current =>
      l ← objs shard !! current;
      if timeAfter (l_deadline l) now && bool_decide (l_id l = op_leaseID op) then
        Some (s, (acquireResponse (op_requestID op) LeaseStatusALREADY_OWNED
                    (remainingTTLMS (l_deadline l) now (MaxTTL (config s))), false))
      else if timeAfter (l_deadline l) now then
        Some (s, (acquireResponse (op_requestID op) LeaseStatusBUSY 0, false))
      else
        shard ← removeLease shard current;
        acquireVacant (releaseKeys (setShard s i shard) 1) i op now effectiveTTLMS got
  | None => acquireVacant s i op now effectiveTTLMS got
  end.

(** The loop runs at most twice: [cleanupAttempted] ends the second round. *)
Fixpoint acquireLoop (fuel : nat) (s : Server) (i : nat) (op : operation)
    (now effectiveTTLMS : Z) (got : option nat) (cleanupAttempted : bool)
    : option (Server * Response) :=
  match fuel with
  | O => None
  | S fuel =>
      '(s, (response, capacityFull)) ← acquireLocked s i op now effectiveTTLMS got;
      if negb capacityFull then Some (s, response)
      else if cleanupAttempted then
        Some (s, acquireResponse (op_requestID op) LeaseStatusKEY_LIMIT_REACHED 0)
      else
        s ← removeExpiredKeys s now;
        acquireLoop fuel s i op now effectiveTTLMS got true
  end.

Definition acquire (s : Server) (i : nat) (op : operation) (now : Z) (got : option nat)
    : option (Server * Response) :=
  acquireLoop 2 s i op now (Z.min (op_requestedTTLMS op) (MaxTTL (config s))) got false.

(** ** Renew *)

Definition renew (s : Server) (i : nat) (op : operation) (now : Z)
    : option (Server * Response) :=
  shard ← shards s !! i;
  let stale := renewResponse (op_requestID op) LeaseStatusSTALE 0 in
  match leases shard !! op_key op with
  | None =>
      Some (logLeaseOperation s LevelWarn "renew rejected because lease does not exist"
              "renew" "not_found" op false 0, stale)
  | Some current =>
      l ← objs shard !! current;
      if negb (timeAfter (l_deadline l) now) then
        let expiredByMS := u64 (Milliseconds (timeSub now (l_deadline l))) in
        shard ← removeLease shard current;
        let s := releaseKeys (setShard s i shard) 1 in
        Some (logLeaseOperation s LevelWarn "renew rejected because lease has expired"
                "renew" "expired" op true expiredByMS, stale)
      else if negb (bool_decide (l_id l = op_leaseID op)) then Some (s, stale)
      else
        let effectiveTTLMS := Z.min (op_requestedTTLMS op) (MaxTTL (config s)) in
        let candidate := timeAdd now (durationMS effectiveTTLMS) in
        if timeAfter candidate (l_deadline l) then
          shard ← extendLease shard current candidate;
          Some (setShard s i shard,
                renewResponse (op_requestID op) LeaseStatusOK
                  (remainingTTLMS candidate now (MaxTTL (config s))))
        else
          Some (s, renewResponse (op_requestID op) LeaseStatusOK
                  (remainingTTLMS (l_deadline l) now (MaxTTL (config s))))
  end.

(** ** Release *)

Definition release (s : Server) (i : nat) (op : operation) (now : Z)
    : option (Server * Response) :=
  shard ← shards s !! i;
  let ok := releaseResponse (op_requestID op) LeaseStatusOK in
  match leases shard !! op_key op with
  | None => Some (s, ok)
  | Some current =>
      l ← objs shard !! current;
      if negb (timeAfter (l_deadline l) now) then
        let expiredByMS := u64 (Milliseconds (timeSub now (l_deadline l))) in
        shard ← removeLease shard current;
        let s := releaseKeys (setShard s i shard) 1 in
        Some (logLeaseOperation s LevelWarn "release found an expired lease"
                "release" "expired" op true expiredByMS, ok)
      else if bool_decide (l_id l = op_leaseID op) then
        shard ← removeLease shard current;
        Some (releaseKeys (setShard s i shard) 1, ok)
      else Some (s, ok)
  end.

(** ** Dispatch *)

Definition apply (s : Server) (i : nat) (op : operation) (now : Z) (got : option nat)
    : option (Server * Response) :=
  let s := countOperation s (op_kind op) in
  match op_kind op with
  | operationAcquire => acquire s i op now got
  | operationRenew => renew s i op now
  | operationRelease => release s i op now
  end.

(** [applyOperation]: the response goes to the session of the operation; an
    operation that meets a server that is not active gets none. *)
Definition applyOperation (s : Server) (i : nat) (op : operation) (now : Z)
    (got : option nat) : option (Server * option Response) :=
  if negb (active s) then Some (s, None)
  else
    '(s, response) ← apply s i op now got;
    Some (s, Some response).

(** [maphash.Comparable(hashSeed, key)] is a function of the process; [hash] is
    any such function. *)
Definition shardIndex (hash : Z -> Z) (s : Server) (key : Z) : nat :=
  Z.to_nat (Z.land (u64 (hash key)) (shardMask s)).

(** An operation is enqueued on the shard of its key and applied by the worker
    of that shard. *)
Definition submitOperation (hash : Z -> Z) (s : Server) (op : operation) (now : Z)
    (got : option nat) : option (Server * option Response) :=
  applyOperation s (shardIndex hash s (op_key op)) op now got.

(** ** Construction, quarantine, close *)

Inductive newError := errListenerNil | errConfig (e : configError).

Definition New (listener : bool) (c : Config) : newError + Server :=
  if negb listener then inl errListenerNil
  else
    match resolveConfig c with
    | inl e => inl (errConfig e)
    | inr config =>
        let s := mkServer config phaseQuarantine 0 0 (fun _ => 0) false []
                   (replicate (Z.to_nat (ShardCount config)) newShard)
                   (u64 (u32 (ShardCount config - 1)))
                   true ∅ false false [] in
        inr (writeLog s LevelInfo (logServer "server started" "QUARANTINE"))
    end.

(** The timer branch of [runQuarantine]. *)
Definition quarantineElapsed (s : Server) : Server :=
  if decide (phase s = phaseQuarantine) then
    writeLog (setPhase s phaseActive) LevelInfo
      (logServer "server entered active state" "ACTIVE")
  else s.

(** One tick of [runExpiredLeaseCleanup]. *)
Definition cleanupTick (s : Server) (now : Z) : option Server :=
  if active s then removeExpiredKeys s now else Some s.

(** [Close]; waiting for the goroutines has no effect on this state. *)
Definition Close (s : Server) : Server :=
  if closeOnce s then s
  else writeLog (cancelAndClose (setPhase (markCloseOnce s) phaseClosed))
         LevelInfo (logServer "server stopped" "CLOSED").

(** ** Metrics (src/server/metrics.go) *)

Definition metricsState (p : serverPhase) : string :=
  match p with
  | phaseQuarantine => "quarantine"
  | phaseActive => "active"
  | phaseFailed => "failed"
  | phaseClosed => "closed"
  end.
