(* ===== verification/ServerSpec.v ===== *)
(** * Specification of the lock-server and its refinement

    The abstract server is the table of live leases of the architecture
    document: a map from keys to a lease identity and a deadline. The theorems
    show that the handlers of [Server], working on sharded maps, pointer heaps
    and a shared key counter, implement it, never panic and never reach the
    fail-stop path. *)

From S2P Require Import Prelude GoHeap LeaseShard Protocol Server.
From stdpp Require Import base gmap list numbers strings tactics.

#[local] Open Scope Z_scope.

(** ** The abstract server *)

(** The records that are still valid at [now]. *)
Definition live (now : Z) (t : gmap Z (leaseID * Z)) : gmap Z (leaseID * Z) :=
  filter (unexpired now) t.

Definition specRemaining (maxTTL deadline now : Z) : Z :=
  Z.min ((deadline - now) / Millisecond) maxTTL.

(** Acquire on a table of live leases: an identical owner is confirmed, another
    owner makes the key busy, a vacant key is taken if there is room. *)
Definition specAcquire (maxTTL maxKeys : Z) (t : gmap Z (leaseID * Z))
    (op : operation) (now : Z) : gmap Z (leaseID * Z) * Response :=
  let ttl := Z.min (op_requestedTTLMS op) maxTTL in
  let reply := acquireResponse (op_requestID op) in
  match t !! op_key op with
  | Some (id, deadline) =>
      if decide (id = op_leaseID op) then
        (t, reply LeaseStatusALREADY_OWNED (specRemaining maxTTL deadline now))
      else (t, reply LeaseStatusBUSY 0)
  | None =>
      if decide (ttl = 0) then (t, reply LeaseStatusOK 0)
      else if decide (maxKeys <= Z.of_nat (size t)) then
        (t, reply LeaseStatusKEY_LIMIT_REACHED 0)
      else (<[op_key op := (op_leaseID op, now + ttl * Millisecond)]> t,
            reply LeaseStatusOK ttl)
  end.

(** Renew never shortens a lease and never resurrects or transfers one. *)
Definition specRenew (maxTTL : Z) (t : gmap Z (leaseID * Z))
    (op : operation) (now : Z) : gmap Z (leaseID * Z) * Response :=
  let reply := renewResponse (op_requestID op) in
  match t !! op_key op with
  | Some (id, deadline) =>
      if decide (id = op_leaseID op) then
        let deadline := Z.max deadline
          (now + Z.min (op_requestedTTLMS op) maxTTL * Millisecond) in
        (<[op_key op := (id, deadline)]> t,
         reply LeaseStatusOK (specRemaining maxTTL deadline now))
      else (t, reply LeaseStatusSTALE 0)
  | None => (t, reply LeaseStatusSTALE 0)
  end.

(** Release deletes the lease only for its owner; it always answers OK. *)
Definition specRelease (t : gmap Z (leaseID * Z)) (op : operation)
    : gmap Z (leaseID * Z) * Response :=
  (match t !! op_key op with
   | Some (id, _) => if decide (id = op_leaseID op) then delete (op_key op) t else t
   | None => t
   end, releaseResponse (op_requestID op) LeaseStatusOK).

Definition specApply (maxTTL maxKeys : Z) (t : gmap Z (leaseID * Z))
    (op : operation) (now : Z) : gmap Z (leaseID * Z) * Response :=
  match op_kind op with
  | operationAcquire => specAcquire maxTTL maxKeys t op now
  | operationRenew => specRenew maxTTL t op now
  | operationRelease => specRelease t op
  end.

(** ** The server invariant *)

Definition tableOf (l : list leaseShard) : gmap Z (leaseID * Z) := ⋃ (shardTable <$> l).
Definition serverTable (s : Server) : gmap Z (leaseID * Z) := tableOf (shards s).

Definition home (hash : Z -> Z) (mask key : Z) : nat :=
  Z.to_nat (Z.land (u64 (hash key)) mask).

(** Every shard is well formed and holds only the keys hashed to it. *)
Record shards_ok (hash : Z -> Z) (mask : Z) (l : list leaseShard) : Prop := {
  so_mask : 0 <= mask;
  so_length : length l = Z.to_nat (mask + 1);
  so_inv : forall i sh, l !! i = Some sh -> shard_inv sh;
  so_home : forall i sh k, l !! i = Some sh -> is_Some (shardTable sh !! k) ->
    home hash mask k = i
}.

(** The counter equals the number of resident records and respects the limit. *)
Record server_inv (hash : Z -> Z) (s : Server) : Prop := {
  si_ttl : 0 < MaxTTL (config s) <= MaxTTLMS;
  si_maxKeys : 0 < MaxKeys (config s) < 2 ^ 64;
  si_shards : shards_ok hash (shardMask s) (shards s);
  si_keys : keys s = Z.of_nat (size (serverTable s));
  si_limit : keys s <= MaxKeys (config s)
}.

(** The part of the state no lease operation touches. *)
Definition lifecycle (s : Server) :=
  (config s, phase s, activeConnections s, ctxDone s, fatal s, shardMask s,
   listenerOpen s, connections s, failOnce s, closeOnce s).

Lemma lifecycle_config s s' :
  lifecycle s' = lifecycle s -> config s' = config s /\ shardMask s' = shardMask s.
Proof. unfold lifecycle. intros Hl. by simplify_eq/=. Qed.

Lemma lifecycle_phase s s' : lifecycle s' = lifecycle s -> phase s' = phase s.
Proof. unfold lifecycle. intros Hl. by simplify_eq/=. Qed.

Lemma lifecycle_fatal s s' : lifecycle s' = lifecycle s -> fatal s' = fatal s.
Proof. unfold lifecycle. intros Hl. by simplify_eq/=. Qed.

(** ** Live tables *)

Section Live.
Implicit Types t : gmap Z (leaseID * Z).

Lemma live_Some now t k id d :
  live now t !! k = Some (id, d) <-> t !! k = Some (id, d) /\ now < d.
Proof. unfold live. by rewrite map_lookup_filter_Some. Qed.

Lemma live_None now t k :
  (forall id d, t !! k = Some (id, d) -> d <= now) -> live now t !! k = None.
Proof.
  intros Hk. apply eq_None_not_Some. intros [[id d] [Hl Hd]%live_Some].
  specialize (Hk id d Hl). lia.
Qed.

Lemma live_delete_expired now t k id d :
  t !! k = Some (id, d) -> d <= now -> live now (delete k t) = live now t.
Proof.
  intros Hk Hd. apply map_filter_delete_not. intros v Hv. unfold unexpired.
  assert (v = (id, d)) as -> by congruence. simpl. lia.
Qed.

Lemma live_delete now t k : live now (delete k t) = delete k (live now t).
Proof. apply map_filter_delete. Qed.

Lemma live_insert now t k id d :
  now < d -> live now (<[k := (id, d)]> t) = <[k := (id, d)]> (live now t).
Proof. intros Hd. by apply map_filter_insert_True. Qed.

Lemma live_live now t : live now (live now t) = live now t.
Proof. apply map_filter_id. intros k [id d] [_ Hd]%live_Some. done. Qed.

Lemma size_live now t : (size (live now t) <= size t)%nat.
Proof. apply map_subseteq_size, map_filter_subseteq. Qed.

End Live.

Lemma remainingTTLMS_spec deadline now maximum :
  now < deadline -> 0 <= maximum <= MaxTTLMS ->
  remainingTTLMS deadline now maximum = specRemaining maximum deadline now.
Proof.
  intros Hd Hm. unfold remainingTTLMS, specRemaining, timeSub, Milliseconds, Millisecond, MaxTTLMS in *.
  rewrite Z.quot_div_nonneg by lia.
  set (r := Z.max _ _). pose proof (Z.div_pos r 1000000) as Hp.
  pose proof (Z.div_lt_upper_bound r 1000000 (2 ^ 63)) as Hu.
  assert (Hcase : r = deadline - now \/ r = 2 ^ 63 - 1 /\ 2 ^ 63 - 1 <= deadline - now) by lia.
  destruct Hcase as [Hr|[Hr Hge]].
  - rewrite Hr in *. case_decide as H0.
    + replace ((deadline - now) / 1000000) with 0 by lia. lia.
    + by rewrite u64_small by in_range.
  - pose proof (Z.div_le_mono (2 ^ 63 - 1) (deadline - now) 1000000 ltac:(lia) Hge) as Hmono.
    rewrite Hr in *. change ((2 ^ 63 - 1) / 1000000) with 9223372036854 in *.
    rewrite decide_False by lia. rewrite u64_small by in_range. lia.
Qed.

Section Refinement.
Context (hash : Z -> Z).

Lemma home_lt mask k : 0 <= mask -> (home hash mask k < Z.to_nat (mask + 1))%nat.
Proof.
  intros Hm. unfold home. pose proof (u64_range (hash k)) as [Hh _].
  pose proof (land_le_r (u64 (hash k)) mask). lia.
Qed.

Lemma tableOf_lookup mask l k :
  shards_ok hash mask l ->
  tableOf l !! k = sh ← l !! home hash mask k; shardTable sh !! k.
Proof.
  intros Hok. unfold tableOf. rewrite (lookup_union_list_home _ (home hash mask k)).
  - rewrite list_lookup_fmap. by destruct (l !! home hash mask k).
  - intros i m Hi Hs. rewrite list_lookup_fmap in Hi. apply fmap_Some in Hi as (sh & Hsh & ->).
    symmetry. by eapply so_home.
Qed.

Lemma size_tableOf mask l :
  shards_ok hash mask l -> size (tableOf l) = sum_list_with (fun sh => size (shardTable sh)) l.
Proof.
  intros Hok. unfold tableOf. rewrite size_union_list.
  - clear Hok. induction l as [|sh l IH]; [done|]. csimpl. by rewrite <- IH.
  - intros i j m m' k Hi Hj Hm Hm'. rewrite !list_lookup_fmap in *.
    apply fmap_Some in Hi as (sh & Hsh & ->). apply fmap_Some in Hj as (sh' & Hsh' & ->).
    by rewrite <- (so_home _ _ _ Hok i sh k), <- (so_home _ _ _ Hok j sh' k).
Qed.

(** Replacing the shard [i] of a key [k] by one that differs only at [k]. *)
Lemma shards_ok_update mask l i sh sh' k o :
  shards_ok hash mask l -> l !! i = Some sh -> home hash mask k = i -> shard_inv sh' ->
  (forall k', shardTable sh' !! k' = if decide (k = k') then o else shardTable sh !! k') ->
  shards_ok hash mask (<[i := sh']> l) /\
  (forall k', tableOf (<[i := sh']> l) !! k' = if decide (k = k') then o else tableOf l !! k').
Proof.
  intros Hok Hi Hk Hinv Ht. pose proof (lookup_lt_Some _ _ _ Hi).
  assert (Hok' : shards_ok hash mask (<[i := sh']> l)).
  { split; [apply Hok|rewrite length_insert; apply Hok|..].
    - intros j sj. rewrite list_lookup_insert. case_decide; [naive_solver|]. apply Hok.
    - intros j sj k'. rewrite list_lookup_insert. case_decide as Hj; [|apply Hok].
      intros [= <-]. destruct Hj as [<- _]. rewrite Ht. case_decide; [by subst|].
      by apply (so_home _ _ _ Hok). }
  split; [done|]. intros k'. rewrite !(tableOf_lookup mask) by done.
  rewrite list_lookup_insert. case_decide as Hj.
  - destruct Hj as [<- _]. simpl. rewrite Ht, Hi. by simpl.
  - case_decide as Hkk; [|done]. subst. exfalso. apply Hj. split; [done|]. lia.
Qed.

(** ** One handler step at a time *)

Lemma setKeys_inv s n :
  server_inv hash s -> n = Z.of_nat (size (serverTable s)) -> n <= MaxKeys (config s) ->
  server_inv hash (setKeys s n).
Proof. intros [Ht Hm Hs _ _] Hn Hle. by split. Qed.

(** Removing a record gives its reservation back; the counter cannot underflow. *)
Lemma dropKey_spec s i sh k p :
  server_inv hash s -> shards s !! i = Some sh -> leases sh !! k = Some p ->
  exists sh', removeLease sh p = Some sh' /\
    let s' := releaseKeys (setShard s i sh') 1 in
    server_inv hash s' /\ lifecycle s' = lifecycle s /\ logs s' = logs s /\
    operationTotals s' = operationTotals s /\
    serverTable s' = delete k (serverTable s) /\
    shards s' = <[i := sh']> (shards s) /\ shard_inv sh' /\ leases sh' !! k = None.
Proof.
  intros Hinv Hi Hp. pose proof (si_shards _ _ Hinv) as Hok.
  pose proof (so_inv _ _ _ Hok i sh Hi) as Hsh.
  destruct (removeLease_spec sh k p Hsh Hp) as (sh' & Hrem & Hsh' & Htab).
  exists sh'. split; [done|].
  destruct (shard_inv_object sh k p Hsh Hp) as (l & j & Hl & _).
  pose proof (shardTable_object sh k p l Hp Hl) as Hk.
  assert (Hhome : home hash (shardMask s) k = i) by (eapply so_home; [done..|by rewrite Hk]).
  destruct (shards_ok_update (shardMask s) (shards s) i sh sh' k None)
    as [Hok' Htab']; [done..| |].
  { intros k'. by rewrite Htab, lookup_delete. }
  assert (Ht : tableOf (<[i:=sh']> (shards s)) = delete k (serverTable s))
    by (apply map_eq; intros k'; by rewrite Htab', lookup_delete).
  assert (Hsz : size (serverTable s) = S (size (delete k (serverTable s)))).
  { apply map_size_delete_S with (l_id l, l_deadline l). unfold serverTable.
    by rewrite (tableOf_lookup (shardMask s)), Hhome, Hi. }
  pose proof (si_keys _ _ Hinv) as Hkeys. pose proof (si_limit _ _ Hinv) as Hlim.
  pose proof (si_maxKeys _ _ Hinv) as Hmax.
  unfold releaseKeys. rewrite decide_False by done. simpl. rewrite decide_False by lia.
  rewrite u64_small by in_range.
  split_and!; [|done..| |].
  - split; simpl; [apply Hinv|done|done| |lia]. unfold serverTable. simpl. rewrite Ht. lia.
  - done.
  - apply (shardTable_None sh' k Hsh'). rewrite Htab. apply lookup_delete_eq.
Qed.

Lemma removeExpiredKeysLoop_spec l now deleted :
  (forall i sh, l !! i = Some sh -> shard_inv sh) -> 0 <= deleted ->
  deleted + Z.of_nat (sum_list_with (fun sh => size (shardTable sh)) l) < 2 ^ 64 ->
  exists l' n, removeExpiredKeysLoop l now deleted = Some (l', deleted + Z.of_nat n) /\
    length l' = length l /\
    (forall i sh', l' !! i = Some sh' -> shard_inv sh' /\
      exists sh, l !! i = Some sh /\ shardTable sh' = live now (shardTable sh)) /\
    (sum_list_with (fun sh => size (shardTable sh)) l =
     n + sum_list_with (fun sh => size (shardTable sh)) l')%nat.
Proof.
  revert deleted. induction l as [|sh l IH]; intros deleted Hinv H0 Hb; simpl in *.
  { exists [], O. rewrite Z.add_0_r. split_and!; [done|done| |done]. intros i sh'. by rewrite lookup_nil. }
  destruct (removeExpiredLeases_spec sh now) as (sh' & n & -> & Hsh' & Htab & Hsz);
    [by apply (Hinv O)|lia|]. simpl.
  rewrite u64_small by in_range.
  destruct (IH (deleted + Z.of_nat n)) as (l' & n' & -> & Hlen & Hl' & Hsum);
    [intros i; apply (Hinv (S i))|lia|lia|]. simpl.
  exists (sh' :: l'), (n + n')%nat. split_and!; [do 2 f_equal; lia|simpl; lia| |simpl; lia].
  intros [|i] sh'' Hi; simpl in Hi; [|by apply Hl']. injection Hi as <-. split; [done|].
  exists sh. done.
Qed.

(** Cleanup removes exactly the expired records and returns their room. *)
Lemma removeExpiredKeys_spec s now :
  server_inv hash s ->
  exists s', removeExpiredKeys s now = Some s' /\ server_inv hash s' /\
    lifecycle s' = lifecycle s /\ logs s' = logs s /\
    operationTotals s' = operationTotals s /\ serverTable s' = live now (serverTable s).
Proof.
  intros Hinv. pose proof (si_shards _ _ Hinv) as Hok.
  pose proof (size_tableOf _ _ Hok) as Hsize. fold (serverTable s) in Hsize.
  pose proof (si_keys _ _ Hinv) as Hkeys. pose proof (si_limit _ _ Hinv) as Hlim.
  pose proof (si_maxKeys _ _ Hinv) as Hmax.
  destruct (removeExpiredKeysLoop_spec (shards s) now 0) as (l' & n & Hrun & Hlen & Hl' & Hsum);
    [apply Hok|lia|lia|].
  rewrite Z.add_0_l in Hrun. unfold removeExpiredKeys. rewrite Hrun. simpl. eexists. split; [done|].
  assert (Hok' : shards_ok hash (shardMask s) l').
  { split; [apply Hok|rewrite Hlen; apply Hok|intros i sh' Hi; by apply Hl' in Hi as [? _]|].
    intros i sh' k Hi [v Hv]. destruct (Hl' i sh' Hi) as (_ & sh & Hsh & Ht).
    rewrite Ht in Hv. apply map_lookup_filter_Some in Hv as [Hv _].
    apply (so_home _ _ _ Hok i sh k Hsh). by eexists. }
  assert (Ht : tableOf l' = live now (serverTable s)).
  { apply map_eq. intros k. unfold live, serverTable.
    rewrite map_lookup_filter, !(tableOf_lookup (shardMask s)) by done.
    destruct (l' !! home hash (shardMask s) k) as [sh'|] eqn:Hsh'; simpl.
    - destruct (Hl' _ _ Hsh') as (_ & sh & -> & ->). simpl. unfold live. by rewrite map_lookup_filter.
    - apply lookup_ge_None in Hsh'. rewrite Hlen in Hsh'. apply lookup_ge_None in Hsh'. by rewrite Hsh'. }
  pose proof (size_tableOf _ _ Hok') as Hsize'.
  assert (Hrel : releaseKeys (setShards s l') (Z.of_nat n) =
    setKeys (setShards s l') (Z.of_nat (size (tableOf l')))).
  { unfold releaseKeys. case_decide as Hn; simpl.
    - replace (Z.of_nat (size (tableOf l'))) with (keys s) by lia. by destruct s.
    - rewrite decide_False by lia. rewrite u64_small by in_range. f_equal. lia. }
  rewrite Hrel. split_and!; [|done..]. split; simpl; [apply Hinv|done|done|done|lia].
Qed.

(** Storing a lease under a vacant key when there is room. *)
Lemma addKey_spec s i sh k id d got :
  server_inv hash s -> shards s !! i = Some sh -> home hash (shardMask s) k = i ->
  leases sh !! k = None -> keys s < MaxKeys (config s) ->
  let s' := setShard (setKeys s (u64 (keys s + 1))) i (addLease sh k id d got) in
  server_inv hash s' /\ lifecycle s' = lifecycle s /\
  serverTable s' = <[k := (id, d)]> (serverTable s).
Proof.
  intros Hinv Hi Hhome Hk Hlt s'. pose proof (si_shards _ _ Hinv) as Hok.
  pose proof (so_inv _ _ _ Hok i sh Hi) as Hsh.
  destruct (addLease_spec sh k id d got Hsh Hk) as [Hsh' Htab].
  destruct (shards_ok_update (shardMask s) (shards s) i sh (addLease sh k id d got) k
    (Some (id, d))) as [Hok' Htab']; [done..| |].
  { intros k'. by rewrite Htab, lookup_insert. }
  assert (Ht : serverTable s' = <[k := (id, d)]> (serverTable s))
    by (apply map_eq; intros k'; rewrite lookup_insert; apply Htab').
  assert (Hnone : serverTable s !! k = None).
  { unfold serverTable. rewrite (tableOf_lookup (shardMask s)), Hhome, Hi by done.
    simpl. by apply shardTable_None. }
  pose proof (si_keys _ _ Hinv) as Hkeys. pose proof (si_maxKeys _ _ Hinv) as Hmax.
  split_and!; [|done|done]. split; simpl; [apply Hinv|done|done| |].
  - rewrite Ht, map_size_insert_None, u64_small by (done || in_range). lia.
  - rewrite u64_small by in_range. lia.
Qed.

(** The shard of a key exists and answers for the whole server. *)
Lemma shard_of_key s k :
  server_inv hash s ->
  exists sh, shards s !! home hash (shardMask s) k = Some sh /\ shard_inv sh /\
    serverTable s !! k = shardTable sh !! k.
Proof.
  intros Hinv. pose proof (si_shards _ _ Hinv) as Hok.
  destruct (lookup_lt_is_Some_2 (shards s) (home hash (shardMask s) k)) as [sh Hsh].
  { rewrite (so_length _ _ _ Hok). apply home_lt. apply Hok. }
  exists sh. split_and!; [done|by eapply so_inv|].
  unfold serverTable. by rewrite (tableOf_lookup (shardMask s)), Hsh.
Qed.

Lemma acquireVacant_spec s i sh op now eff got :
  server_inv hash s -> shards s !! i = Some sh -> home hash (shardMask s) (op_key op) = i ->
  leases sh !! op_key op = None -> 0 <= eff <= MaxTTLMS ->
  exists s' r full, acquireVacant s i op now eff got = Some (s', (r, full)) /\
    server_inv hash s' /\ lifecycle s' = lifecycle s /\
    if full then s' = s /\ eff <> 0 /\ MaxKeys (config s) <= keys s
    else (eff = 0 /\ s' = s /\ r = acquireResponse (op_requestID op) LeaseStatusOK 0) \/
      (eff <> 0 /\ keys s < MaxKeys (config s) /\
       serverTable s' = <[op_key op := (op_leaseID op, now + eff * Millisecond)]> (serverTable s) /\
       r = acquireResponse (op_requestID op) LeaseStatusOK eff).
Proof.
  intros Hinv Hi Hhome Hk Heff. unfold acquireVacant.
  case_decide as H0; [do 3 eexists; split; [done|]; naive_solver|].
  unfold reserveKey. case_decide as Hfull; simpl; [do 3 eexists; split; [done|]; naive_solver|].
  rewrite Hi. simpl.
  destruct (addKey_spec s i sh (op_key op) (op_leaseID op) (timeAdd now (durationMS eff)) got)
    as (Hinv' & Hlife & Htab); [done..|lia|].
  do 3 eexists. split; [done|]. split_and!; [done|done|]. right.
  split_and!; [done|lia| |done].
  rewrite Htab. unfold timeAdd. by rewrite durationMS_small.
Qed.

(** What one round of [acquireLocked] establishes, relative to the live table
    [t] before it: either the specified outcome or a full server. *)
Definition acquireRound (s : Server) (op : operation) (now : Z)
    (res : option (Server * (Response * bool))) : Prop :=
  let eff := Z.min (op_requestedTTLMS op) (MaxTTL (config s)) in
  let t := live now (serverTable s) in
  exists s' r (full : bool), res = Some (s', (r, full)) /\
    server_inv hash s' /\ lifecycle s' = lifecycle s /\
    if full then
      live now (serverTable s') = t /\ t !! op_key op = None /\ eff <> 0 /\
      MaxKeys (config s) <= keys s' <= keys s
    else (live now (serverTable s'), r) =
      specAcquire (MaxTTL (config s)) (MaxKeys (config s)) t op now.

Lemma acquireVacant_round s s1 sh1 op now got :
  let i := home hash (shardMask s) (op_key op) in
  let eff := Z.min (op_requestedTTLMS op) (MaxTTL (config s)) in
  let t := live now (serverTable s) in
  server_inv hash s1 -> lifecycle s1 = lifecycle s -> 0 <= op_requestedTTLMS op ->
  shards s1 !! i = Some sh1 -> leases sh1 !! op_key op = None ->
  live now (serverTable s1) = t -> t !! op_key op = None -> keys s1 <= keys s ->
  acquireRound s op now (acquireVacant s1 i op now eff got).
Proof.
  intros i eff t Hinv1 Hlife Hreq Hi1 Hk1 Ht1 Hnone Hle.
  assert (config s1 = config s /\ shardMask s1 = shardMask s) as [Hcfg Hmask] by (by simplify_eq/=).
  pose proof (si_ttl _ _ Hinv1) as Httl. rewrite Hcfg in Httl.
  destruct (acquireVacant_spec s1 i sh1 op now eff got) as (s' & r & full & Hr & Hinv' & Hl & Hcase);
    [done|done|by rewrite Hmask|done|unfold eff, MaxTTLMS in *; lia|].
  exists s', r, full. split_and!; [done|done|congruence|]. rewrite Hcfg in Hcase. fold t.
  destruct full; [naive_solver|]. unfold specAcquire. fold eff. rewrite Hnone.
  destruct Hcase as [(H0 & -> & ->)|(H0 & Hlt & Htab & ->)].
  - rewrite decide_True by done. by rewrite Ht1.
  - rewrite decide_False by done. pose proof (si_keys _ _ Hinv1).
    pose proof (size_live now (serverTable s1)).
    rewrite decide_False by (rewrite <- Ht1; lia).
    rewrite Htab, live_insert, Ht1; [done|unfold eff, Millisecond in *; lia].
Qed.

Lemma acquireLocked_round s op now got :
  server_inv hash s -> 0 <= op_requestedTTLMS op ->
  acquireRound s op now
    (acquireLocked s (home hash (shardMask s) (op_key op)) op now
       (Z.min (op_requestedTTLMS op) (MaxTTL (config s))) got).
Proof.
  intros Hinv Hreq. pose proof (si_ttl _ _ Hinv) as Httl.
  destruct (shard_of_key s (op_key op) Hinv) as (sh & Hi & Hsh & Htk).
  unfold acquireLocked. rewrite Hi. simpl.
  destruct (leases sh !! op_key op) as [p|] eqn:Hp.
  2:{ apply acquireVacant_round with sh; try done. apply live_None. intros id d Hid.
      rewrite Htk in Hid. by rewrite (proj2 (shardTable_None sh _ Hsh)) in Hid. }
  destruct (shard_inv_object sh _ p Hsh Hp) as (l & j & Hl & _). rewrite Hl. simpl.
  rewrite (shardTable_object sh _ p l Hp Hl) in Htk.
  unfold timeAfter. destruct (now <? l_deadline l) eqn:Hd; simpl.
  - unfold acquireRound, specAcquire. cbv zeta.
    rewrite (proj2 (live_Some now (serverTable s) (op_key op) (l_id l) (l_deadline l)))
      by (split; [done|lia]).
    case_bool_decide as Hid.
    + rewrite (decide_True _ _ Hid). do 3 eexists. split; [done|]. split_and!; [done..|].
      rewrite remainingTTLMS_spec by lia. done.
    + rewrite (decide_False _ _ Hid). do 3 eexists. split; [done|]. by split_and!.
  - destruct (dropKey_spec s _ sh _ p Hinv Hi Hp)
      as (sh' & -> & Hinv1 & Hlife & _ & _ & Htab & Hshards & _ & Hk'). simpl.
    apply acquireVacant_round with sh'; [done|done|done| |done| | |].
    + rewrite Hshards, list_lookup_insert_eq; [done|]. by apply lookup_lt_Some in Hi.
    + rewrite Htab. apply live_delete_expired with (l_id l) (l_deadline l); [done|lia].
    + apply live_None. intros id d Hid. rewrite Htk in Hid. simplify_eq. lia.
    + rewrite (si_keys _ _ Hinv1), (si_keys _ _ Hinv), Htab.
      apply inj_le, map_subseteq_size, delete_subseteq.
Qed.

(** ** The handlers implement the specification *)

(** The server after a handler: still well formed, its lifecycle untouched and
    its live table and reply the specified ones. *)
Definition refines (s : Server) (now : Z) (out : gmap Z (leaseID * Z) * Response)
    (res : option (Server * Response)) : Prop :=
  exists s' r, res = Some (s', r) /\ server_inv hash s' /\ lifecycle s' = lifecycle s /\
    (live now (serverTable s'), r) = out.

Lemma acquire_spec s op now got :
  server_inv hash s -> 0 <= op_requestedTTLMS op ->
  refines s now
    (specAcquire (MaxTTL (config s)) (MaxKeys (config s)) (live now (serverTable s)) op now)
    (acquire s (shardIndex hash s (op_key op)) op now got).
Proof.
  intros Hinv Hreq. unfold acquire, acquireLoop.
  change (shardIndex hash s (op_key op)) with (home hash (shardMask s) (op_key op)).
  destruct (acquireLocked_round s op now got Hinv Hreq)
    as (s1 & r1 & full1 & -> & Hinv1 & Hlife1 & Hcase1). simpl.
  destruct full1; simpl; [|by exists s1, r1].
  destruct Hcase1 as (Ht1 & Hnone & Heff & Hfull).
  destruct (removeExpiredKeys_spec s1 now Hinv1) as (s2 & -> & Hinv2 & Hlife2 & _ & _ & Ht2). simpl.
  assert (config s2 = config s /\ shardMask s2 = shardMask s) as [Hcfg Hmask]
    by (rewrite Hlife1 in Hlife2; by simplify_eq/=).
  destruct (acquireLocked_round s2 op now got Hinv2 Hreq)
    as (s3 & r3 & full3 & Hr3 & Hinv3 & Hlife3 & Hcase3).
  rewrite Hcfg, Hmask in Hr3. rewrite Hr3. simpl. rewrite Hcfg, Ht2, live_live, Ht1 in Hcase3.
  destruct full3; simpl.
  - exists s3, (acquireResponse (op_requestID op) LeaseStatusKEY_LIMIT_REACHED 0).
    split_and!; [done|done|congruence|]. destruct Hcase3 as (Ht3 & _ & _ & Hfull3).
    unfold specAcquire. rewrite Hnone, Ht3, decide_False by done.
    rewrite decide_True; [done|].
    pose proof (si_keys _ _ Hinv2) as Hk2. rewrite <- Ht1, <- Ht2. lia.
  - exists s3, r3. split_and!; [done|done|congruence|done].
Qed.

Lemma refines_log s now out s' level msg name reason op b n r :
  refines s now out (Some (s', r)) ->
  refines s now out (Some (logLeaseOperation s' level msg name reason op b n, r)).
Proof.
  intros (s0 & r0 & Heq & Hinv & Hlife & Hout). injection Heq as <- <-.
  unfold logLeaseOperation. destruct (negb _); [by exists s', r|].
  eexists _, r. split; [done|]. split_and!; [|done..].
  destruct Hinv. by split.
Qed.

(** A record found under the key of an operation, as both views see it. *)
Lemma resident_key s op :
  server_inv hash s ->
  exists sh, shards s !! home hash (shardMask s) (op_key op) = Some sh /\ shard_inv sh /\
    match leases sh !! op_key op with
    | None => serverTable s !! op_key op = None
    | Some p => exists l, objs sh !! p = Some l /\
        serverTable s !! op_key op = Some (l_id l, l_deadline l)
    end.
Proof.
  intros Hinv. destruct (shard_of_key s (op_key op) Hinv) as (sh & Hi & Hsh & Htk).
  exists sh. split_and!; [done|done|]. destruct (leases sh !! op_key op) as [p|] eqn:Hp.
  - destruct (shard_inv_object sh _ p Hsh Hp) as (l & _ & Hl & _).
    exists l. rewrite Htk. split; [done|]. by apply shardTable_object with p.
  - rewrite Htk. by apply shardTable_None.
Qed.

(** Dropping the expired record of a key leaves the live table alone. *)
Lemma drop_expired_refines s sh p l op now (r : Response) :
  server_inv hash s -> shards s !! home hash (shardMask s) (op_key op) = Some sh ->
  leases sh !! op_key op = Some p ->
  serverTable s !! op_key op = Some (l_id l, l_deadline l) -> l_deadline l <= now ->
  exists sh', removeLease sh p = Some sh' /\
    refines s now (live now (serverTable s), r)
      (Some (releaseKeys (setShard s (home hash (shardMask s) (op_key op)) sh') 1, r)).
Proof.
  intros Hinv Hi Hp Htk Hd.
  destruct (dropKey_spec s _ sh _ p Hinv Hi Hp)
    as (sh' & Hrem & Hinv1 & Hlife & _ & _ & Htab & _).
  exists sh'. split; [done|]. eexists _, r. split; [done|]. split_and!; [done|done|].
  rewrite Htab. f_equal. by apply live_delete_expired with (l_id l) (l_deadline l).
Qed.

(** Storing a later deadline for the owner of a key. *)
Lemma extendKey_spec s sh p l k candidate :
  server_inv hash s -> shards s !! home hash (shardMask s) k = Some sh -> shard_inv sh ->
  leases sh !! k = Some p -> objs sh !! p = Some l ->
  exists sh', extendLease sh p candidate = Some sh' /\
    let s' := setShard s (home hash (shardMask s) k) sh' in
    server_inv hash s' /\ lifecycle s' = lifecycle s /\
    serverTable s' = <[k := (l_id l, candidate)]> (serverTable s).
Proof.
  intros Hinv Hi Hsh Hp Hl. pose proof (si_shards _ _ Hinv) as Hok.
  destruct (extendLease_spec sh k p l candidate Hsh Hp Hl) as (sh' & Hext & Hsh' & Htab).
  exists sh'. split; [done|]. intros s'.
  destruct (shards_ok_update (shardMask s) (shards s) (home hash (shardMask s) k) sh sh' k (Some (l_id l, candidate)))
    as [Hok' Htab']; [done..| |].
  { intros k'. by rewrite Htab, lookup_insert. }
  assert (Ht : serverTable s' = <[k := (l_id l, candidate)]> (serverTable s))
    by (apply map_eq; intros k'; rewrite lookup_insert; apply Htab').
  assert (Hsz : size (serverTable s') = size (serverTable s)).
  { rewrite Ht. apply map_size_insert_Some. exists (l_id l, l_deadline l).
    unfold serverTable. rewrite (tableOf_lookup (shardMask s)), Hi by done.
    simpl. by apply shardTable_object with p. }
  split_and!; [|done|done]. destruct Hinv. split; try done. by rewrite Hsz.
Qed.

Lemma renew_spec s op now :
  server_inv hash s -> 0 <= op_requestedTTLMS op ->
  refines s now (specRenew (MaxTTL (config s)) (live now (serverTable s)) op now)
    (renew s (shardIndex hash s (op_key op)) op now).
Proof.
  intros Hinv Hreq. pose proof (si_ttl _ _ Hinv) as Httl. unfold renew, specRenew.
  change (shardIndex hash s (op_key op)) with (home hash (shardMask s) (op_key op)).
  destruct (resident_key s op Hinv) as (sh & Hi & Hsh & Hkey). rewrite Hi. simpl.
  destruct (leases sh !! op_key op) as [p|] eqn:Hp.
  2:{ rewrite live_None by (rewrite Hkey; done). apply refines_log. by exists s, (renewResponse (op_requestID op) LeaseStatusSTALE 0). }
  destruct Hkey as (l & Hl & Htk). rewrite Hl. simpl.
  unfold timeAfter at 1. destruct (now <? l_deadline l) eqn:Hd; simpl.
  2:{ rewrite live_None by (intros ?? He; rewrite Htk in He; simplify_eq; lia).
      destruct (drop_expired_refines s sh p l op now
        (renewResponse (op_requestID op) LeaseStatusSTALE 0)) as (sh' & -> & Href); [done..|lia|].
      simpl. by apply refines_log. }
  rewrite (proj2 (live_Some now (serverTable s) (op_key op) (l_id l) (l_deadline l)))
    by (split; [done|lia]).
  case_bool_decide as Hid; simpl; [rewrite decide_True by done|rewrite decide_False by done].
  2:{ by exists s, (renewResponse (op_requestID op) LeaseStatusSTALE 0). }
  set (eff := Z.min _ _). unfold MaxTTLMS in *.
  assert (Heff : timeAdd now (durationMS eff) = now + eff * Millisecond)
    by (unfold timeAdd; rewrite durationMS_small by (unfold eff; lia); done).
  rewrite Heff. unfold timeAfter. destruct (l_deadline l <? now + eff * Millisecond) eqn:Hc; simpl.
  - destruct (extendKey_spec s sh p l (op_key op) (now + eff * Millisecond))
      as (sh' & -> & Hinv' & Hlife & Htab); [done..|]. simpl.
    rewrite Z.max_r by lia. eexists _, _. split; [done|]. split_and!; [done|done|].
    rewrite Htab, live_insert, remainingTTLMS_spec by (unfold MaxTTLMS; lia). done.
  - rewrite Z.max_l by lia. eexists _, _. split; [done|]. split_and!; [done|done|].
    rewrite remainingTTLMS_spec by (unfold MaxTTLMS; lia). f_equal.
    symmetry. apply insert_id. apply live_Some. split; [done|lia].
Qed.

Lemma release_spec s op now :
  server_inv hash s ->
  refines s now (specRelease (live now (serverTable s)) op)
    (release s (shardIndex hash s (op_key op)) op now).
Proof.
  intros Hinv. unfold release, specRelease.
  change (shardIndex hash s (op_key op)) with (home hash (shardMask s) (op_key op)).
  destruct (resident_key s op Hinv) as (sh & Hi & Hsh & Hkey). rewrite Hi. simpl.
  destruct (leases sh !! op_key op) as [p|] eqn:Hp.
  2:{ rewrite live_None by (rewrite Hkey; done). by exists s, (releaseResponse (op_requestID op) LeaseStatusOK). }
  destruct Hkey as (l & Hl & Htk). rewrite Hl. simpl.
  unfold timeAfter. destruct (now <? l_deadline l) eqn:Hd; simpl.
  2:{ rewrite live_None by (intros ?? He; rewrite Htk in He; simplify_eq; lia).
      destruct (drop_expired_refines s sh p l op now
        (releaseResponse (op_requestID op) LeaseStatusOK)) as (sh' & -> & Href); [done..|lia|].
      simpl. by apply refines_log. }
  rewrite (proj2 (live_Some now (serverTable s) (op_key op) (l_id l) (l_deadline l)))
    by (split; [done|lia]).
  case_bool_decide as Hid; simpl; [rewrite decide_True by done|rewrite decide_False by done].
  - destruct (dropKey_spec s _ sh _ p Hinv Hi Hp)
      as (sh' & -> & Hinv1 & Hlife & _ & _ & Htab & _). simpl.
    eexists _, _. split; [done|]. split_and!; [done|done|]. by rewrite Htab, live_delete.
  - by exists s, (releaseResponse (op_requestID op) LeaseStatusOK).
Qed.

End Refinement.
