(* ===== verification/ServerLifecycle.v ===== *)
(** * Runs of one lock-server

    A run interleaves the handlers of [Server]: operations applied by shard
    workers, ticks of the background cleanup, the end of the quarantine, fatal
    errors reported by the connection code, registration of connections and
    [Close]. The invariant of
    [ServerSpec] holds in every reachable state, so no handler panics and the
    key counter never underflows. *)

From S2P Require Import Prelude GoHeap LeaseShard Protocol Server ServerSpec.
From stdpp Require Import base gmap list numbers strings relations tactics.

#[local] Open Scope Z_scope.

(** ** Steps and reachable states *)

(** Causes of [fail] outside the lease operations: [runListener] and
    [bufferResponse]. *)
Definition connectionFailure (cause : failure) : Prop :=
  cause = failAccept \/ cause = failEncodeResponse.

Inductive server_step (hash : Z -> Z) : Server -> Server -> Prop :=
  | step_operation s op now got s' r :
      0 <= op_requestedTTLMS op ->
      submitOperation hash s op now got = Some (s', r) -> server_step hash s s'
  | step_cleanup s now s' :
      cleanupTick s now = Some s' -> server_step hash s s'
  | step_quarantine s : server_step hash s (quarantineElapsed s)
  | step_fail s cause : connectionFailure cause -> server_step hash s (fail s cause)
  | step_close s : server_step hash s (Close s)
  | step_connections s conns n : server_step hash s (setConnections s conns n).

(** A configuration as the Go types allow it. *)
Definition config_typed (c : Config) : Prop :=
  is_u64 (MaxTTL c) /\ is_u64 (MaxKeys c) /\ is_u32 (ShardCount c).

Inductive reachable (hash : Z -> Z) : Server -> Prop :=
  | reachable_new c s :
      config_typed c -> New true c = inr s -> reachable hash s
  | reachable_step s s' : reachable hash s -> server_step hash s s' -> reachable hash s'.

Definition phaseRank (p : serverPhase) : nat :=
  match p with
  | phaseQuarantine => 0
  | phaseActive => 1
  | phaseFailed => 2
  | phaseClosed => 3
  end.

(** No stored deadline lies more than the maximum TTL after [t]. *)
Definition deadlines_within (s : Server) (t : Z) : Prop :=
  forall k id d, serverTable s !! k = Some (id, d) -> d <= t + MaxTTL (config s) * Millisecond.

(** ** A concrete server for the witnesses *)

Definition demoConfig : Config :=
  mkConfig 5000 2 (Some (mkLogger (fun _ => true))) 2.

Definition demoHash (key : Z) : Z := key.

Definition demoNew : Server :=
  match New true demoConfig with
  | inr s => s
  | inl _ => mkServer demoConfig phaseClosed 0 0 (fun _ => 0) true [] [] 0 false ∅ true true []
  end.

Definition demoActive : Server := quarantineElapsed demoNew.

Definition demoID (n : Z) : leaseID := LeaseID 1 7 n.
Definition demoAcquire (key n ttl : Z) : operation :=
  mkOperation 11 operationAcquire key (demoID n) ttl.

(** The demo server after lease 1 took key 4 for three seconds at time 1000. *)
Definition demoHeld : Server :=
  match submitOperation demoHash demoActive (demoAcquire 4 1 3000) 1000 None with
  | Some (s, _) => s
  | None => demoActive
  end.

(** ** Construction *)

Lemma Validate_None c :
  is_u64 (MaxTTL c) -> Validate c = None ->
  is_Some (cfgLogger c) /\ 1 <= MaxTTL c <= MaxTTLMS.
Proof.
  unfold Validate, is_u64. intros Htyped. repeat case_decide; try done. intros _.
  change (Z.quot ProtocolMaxTTL Millisecond) with 5000 in *. unfold MaxTTLMS.
  destruct (cfgLogger c); [|done]. split; [by eexists|lia].
Qed.

Lemma tableOf_replicate n : tableOf (replicate n newShard) = ∅.
Proof.
  unfold tableOf. induction n as [|n IH]; [done|].
  simpl. rewrite newShard_table, (left_id_L ∅ (∪)). apply IH.
Qed.

Lemma New_inv hash c s :
  config_typed c -> New true c = inr s -> server_inv hash s /\ fatal s = [] /\ phase s = phaseQuarantine.
Proof.
  intros (Httl & Hkeys & Hcount). unfold New, resolveConfig. simpl.
  destruct (Validate c) eqn:Hv; [done|]. intros [= <-].
  apply Validate_None in Hv; [|done]. unfold is_u64, is_u32, MaxTTLMS in *.
  split; [|done].
  set (n := if decide (ShardCount c = 0) then defaultShardCount else ShardCount c).
  assert (Hn : 1 <= n < 2 ^ 32) by (unfold n, defaultShardCount; case_decide; lia).
  split; simpl.
  - unfold MaxTTLMS. lia.
  - unfold DefaultMaxKeys. case_decide; lia.
  - rewrite u32_small, u64_small by in_range. split.
    + lia.
    + rewrite length_replicate. f_equal. lia.
    + intros i sh [-> _]%lookup_replicate_1. apply newShard_inv.
    + intros i sh k [-> _]%lookup_replicate_1. rewrite newShard_table, lookup_empty.
      by intros [? ?].
  - unfold serverTable. simpl. by rewrite tableOf_replicate, map_size_empty.
  - unfold DefaultMaxKeys. case_decide; lia.
Qed.

(** ** Handlers from the entry point of the shard workers *)

Section Runs.
Context (hash : Z -> Z).

Lemma countOperation_inv s k : server_inv hash s -> server_inv hash (countOperation s k).
Proof. intros []. by split. Qed.

Lemma submitOperation_active s op now got :
  server_inv hash s -> phase s = phaseActive -> 0 <= op_requestedTTLMS op ->
  exists s' r, submitOperation hash s op now got = Some (s', Some r) /\
    server_inv hash s' /\ lifecycle s' = lifecycle s /\
    (live now (serverTable s'), r) =
      specApply (MaxTTL (config s)) (MaxKeys (config s)) (live now (serverTable s)) op now.
Proof.
  intros Hinv Hact Hreq. unfold submitOperation, applyOperation, active.
  rewrite bool_decide_eq_true_2 by done. simpl. unfold Server.apply, specApply.
  destruct (op_kind op); set (s0 := countOperation s _);
    (assert (Hinv0 : server_inv hash s0) by by apply countOperation_inv);
    change (shardIndex hash s (op_key op)) with (shardIndex hash s0 (op_key op)).
  - destruct (acquire_spec hash s0 op now got) as (s' & r & -> & Hr); [done..|]. by exists s', r.
  - destruct (renew_spec hash s0 op now) as (s' & r & -> & Hr); [done..|]. by exists s', r.
  - destruct (release_spec hash s0 op now) as (s' & r & -> & Hr); [done..|]. by exists s', r.
Qed.

Lemma submitOperation_inactive s op now got :
  phase s <> phaseActive -> submitOperation hash s op now got = Some (s, None).
Proof.
  intros Hne. unfold submitOperation, applyOperation, active.
  by rewrite bool_decide_eq_false_2.
Qed.

Lemma submitOperation_inv s op now got :
  server_inv hash s -> 0 <= op_requestedTTLMS op ->
  exists s' r, submitOperation hash s op now got = Some (s', r) /\
    server_inv hash s' /\ lifecycle s' = lifecycle s.
Proof.
  intros Hinv Hreq. destruct (decide (phase s = phaseActive)) as [Hact|Hact].
  - destruct (submitOperation_active s op now got) as (s' & r & Hr & Hinv' & Hl & _); [done..|].
    eauto 10.
  - rewrite submitOperation_inactive by done. eauto 10.
Qed.

Lemma cleanupTick_inv s now :
  server_inv hash s ->
  exists s', cleanupTick s now = Some s' /\ server_inv hash s' /\ lifecycle s' = lifecycle s.
Proof.
  intros Hinv. unfold cleanupTick. destruct (active s); [|by eauto].
  destruct (removeExpiredKeys_spec hash s now Hinv) as (s' & Hr & Hinv' & Hl & _). eauto.
Qed.

(** ** Preservation *)

(** What the owner of the server can observe about failures: at most one fatal
    error, never an underflow, and only in the states that follow it. *)
Record lifecycle_ok (s : Server) : Prop := {
  lo_fatal : fatal s = [] \/
    exists cause, fatal s = [cause] /\ connectionFailure cause /\
      failOnce s = true /\ (2 <= phaseRank (phase s))%nat;
  lo_failed : phase s = phaseFailed -> exists cause, fatal s = [cause];
  lo_closed : phase s = phaseClosed <-> closeOnce s = true;
  lo_cancel : (2 <= phaseRank (phase s))%nat <-> ctxDone s = true;
  lo_listener : ctxDone s = true <-> listenerOpen s = false
}.

Definition run_inv (s : Server) : Prop := server_inv hash s /\ lifecycle_ok s.

Lemma lifecycle_ok_same s s' : lifecycle s' = lifecycle s -> lifecycle_ok s -> lifecycle_ok s'.
Proof.
  intros Hl [H1 H2 H3 H4 H5]. destruct s, s'. unfold lifecycle in Hl. simpl in *.
  simplify_eq. by split.
Qed.

Lemma server_inv_core s s' :
  config s' = config s -> shards s' = shards s -> shardMask s' = shardMask s ->
  keys s' = keys s -> server_inv hash s -> server_inv hash s'.
Proof.
  intros Hc Hs Hm Hk []. split; unfold serverTable in *; rewrite ?Hc, ?Hs, ?Hm, ?Hk; done.
Qed.

Lemma quarantineElapsed_inv s : run_inv s -> run_inv (quarantineElapsed s).
Proof.
  intros Hrun. pose proof Hrun as [Hinv [H1 H2 H3 H4 H5]]. unfold quarantineElapsed. case_decide as Hq; [|done].
  split; [by apply (server_inv_core s)|]. rewrite Hq in *. split; simpl; try done.
  - destruct H1 as [|(c & _ & _ & _ & Hr)]; [by left|]. simpl in Hr. lia.
  - split; [done|]. intros Hc. by apply H3 in Hc.
  - rewrite <- H4. simpl. lia.
Qed.

Lemma fail_inv s cause : connectionFailure cause -> run_inv s -> run_inv (fail s cause).
Proof.
  intros Hcause Hrun. pose proof Hrun as [Hinv [H1 H2 H3 H4 H5]]. unfold fail. destruct (failOnce s) eqn:Hf; [done|].
  destruct H1 as [H1|(c & _ & _ & Hc & _)]; [|congruence].
  simpl. case_decide as Hp.
  - split; [by apply (server_inv_core s)|]. split; simpl; try done. by left.
  - split; [by apply (server_inv_core s)|]. split; simpl; rewrite ?H1; try done.
    + right. exists cause. split_and!; [done|done|done|simpl; lia].
    + intros _. by exists cause.
    + split; [done|]. intros Hc. by apply H3 in Hc.
Qed.

Lemma Close_inv s : run_inv s -> run_inv (Close s).
Proof.
  intros Hrun. pose proof Hrun as [Hinv [H1 H2 H3 H4 H5]]. unfold Close. destruct (closeOnce s) eqn:Hc; [done|].
  split; [by apply (server_inv_core s)|]. split; simpl; try done.
  - destruct H1 as [|(c & Hf & Hcf & Ho & Hr)]; [by left|]. right. exists c.
    split_and!; [done..|simpl; lia].
  - split; [done|]. intros _. simpl. lia.
Qed.

Lemma phaseRank_fail s cause : (phaseRank (phase s) <= phaseRank (phase (fail s cause)))%nat.
Proof.
  unfold fail. destruct (failOnce s); [done|]. simpl. case_decide; [done|]. simpl.
  by destruct (phase s); simpl; lia || congruence.
Qed.

Lemma step_phaseRank s s' :
  server_step hash s s' -> run_inv s -> (phaseRank (phase s) <= phaseRank (phase s'))%nat.
Proof.
  intros [s1 op now got s1' r Hreq Hsub|s1 now s1' Hc|s1|s1 cause Hcause|s1|s1 conns n] [Hinv Hlo];
    auto using phaseRank_fail.
  - destruct (submitOperation_inv s1 op now got Hinv Hreq) as (s2 & r2 & Hs2 & _ & Hl).
    rewrite Hs2 in Hsub. injection Hsub as <- <-. by rewrite (lifecycle_phase _ _ Hl).
  - destruct (cleanupTick_inv s1 now Hinv) as (s2 & Hs2 & _ & Hl).
    rewrite Hs2 in Hc. injection Hc as <-. by rewrite (lifecycle_phase _ _ Hl).
  - unfold quarantineElapsed. case_decide as Hq; [rewrite Hq; simpl; lia|done].
  - unfold Close. destruct (closeOnce s1); [done|]. simpl. destruct (phase s1); simpl; lia.
Qed.

Lemma step_run_inv s s' : server_step hash s s' -> run_inv s -> run_inv s'.
Proof.
  intros [s1 op now got s1' r Hreq Hsub|s1 now s1' Hc|s1|s1 cause Hcause|s1|s1 conns n] Hrun;
    eauto using quarantineElapsed_inv, fail_inv, Close_inv.
  - destruct Hrun as [Hinv Hlo].
    destruct (submitOperation_inv s1 op now got Hinv Hreq) as (s2 & r2 & Hs2 & Hinv2 & Hl).
    rewrite Hs2 in Hsub. injection Hsub as <- <-. split; [done|].
    by apply (lifecycle_ok_same s1).
  - destruct Hrun as [Hinv Hlo].
    destruct (cleanupTick_inv s1 now Hinv) as (s2 & Hs2 & Hinv2 & Hl).
    rewrite Hs2 in Hc. injection Hc as <-. split; [done|]. by apply (lifecycle_ok_same s1).
  - destruct Hrun as [Hinv [H1 H2 H3 H4 H5]]. split; [by apply (server_inv_core s1)|]. by split.
Qed.

Lemma reachable_run_inv s : reachable hash s -> run_inv s.
Proof.
  induction 1 as [c s Hc Hnew|s s' _ IH Hstep]; [|by eapply step_run_inv].
  destruct (New_inv hash c s Hc Hnew) as (Hinv & Hf & Hp). split; [done|].
  unfold New in Hnew. simpl in Hnew. destruct (resolveConfig c); [done|]. injection Hnew as <-.
  split; simpl; try done; [by left|lia].
Qed.

Lemma step_config s s' : server_step hash s s' -> reachable hash s ->
  config s' = config s /\ shardMask s' = shardMask s.
Proof.
  intros Hstep [Hinv _]%reachable_run_inv.
  destruct Hstep as [s1 op now got s1' r Hreq Hsub|s1 now s1' Hc|s1|s1 cause Hcause|s1|s1 conns n].
  - destruct (submitOperation_inv s1 op now got Hinv Hreq) as (s2 & r2 & Hs2 & _ & Hl).
    rewrite Hs2 in Hsub. injection Hsub as <- <-. by apply lifecycle_config.
  - destruct (cleanupTick_inv s1 now Hinv) as (s2 & Hs2 & _ & Hl).
    rewrite Hs2 in Hc. injection Hc as <-. by apply lifecycle_config.
  - unfold quarantineElapsed. by case_decide.
  - unfold fail. destruct (failOnce s1); [done|]. simpl. by case_decide.
  - unfold Close. by destruct (closeOnce s1).
  - done.
Qed.

(** The entry of a key that is live at [now] can be read off the live table. *)
Lemma live_entry now (t : gmap Z (leaseID * Z)) k id d :
  live now t !! k = Some (id, d) -> t !! k = Some (id, d).
Proof. by intros [? _]%live_Some. Qed.

Lemma specApply_other mt mk t op now k :
  k <> op_key op -> (specApply mt mk t op now).1 !! k = t !! k.
Proof.
  intros Hk. unfold specApply, specAcquire, specRenew, specRelease.
  repeat case_match; simpl; rewrite ?lookup_insert_ne, ?lookup_delete_ne by done; done.
Qed.

Lemma specApply_foreign mt mk t op now id d :
  t !! op_key op = Some (id, d) -> id <> op_leaseID op ->
  (specApply mt mk t op now).1 = t.
Proof.
  intros Hk Hne. unfold specApply, specAcquire, specRenew, specRelease.
  rewrite Hk. destruct (op_kind op); by rewrite decide_False.
Qed.

(** A positive TTL in a successful reply is backed by the server's deadline. *)
Lemma specApply_ttl mt mk t op now :
  0 <= mt -> 0 <= op_requestedTTLMS op ->
  (forall k id d, t !! k = Some (id, d) -> now < d) ->
  let '(t', r) := specApply mt mk t op now in
  TTLMS r <= mt /\
  (0 < TTLMS r ->
   (Status r = LeaseStatusOK \/ Status r = LeaseStatusALREADY_OWNED) /\
   exists d, t' !! op_key op = Some (op_leaseID op, d) /\ now + TTLMS r * Millisecond <= d).
Proof.
  intros Hmt Hreq Hlive. unfold specApply, specAcquire, specRenew, specRelease, specRemaining.
  assert (Hrem : forall d, now < d ->
    Z.min ((d - now) / Millisecond) mt <= mt /\
    now + Z.min ((d - now) / Millisecond) mt * Millisecond <= d).
  { intros d Hd. unfold Millisecond. pose proof (Z.mul_div_le (d - now) 1000000). lia. }
  destruct (op_kind op); [| |repeat case_match; simpl; lia].
  - destruct (t !! op_key op) as [[id d]|] eqn:Hk.
    + specialize (Hlive _ _ _ Hk). destruct (Hrem d Hlive). case_decide; simpl; [|lia].
      subst. split; [lia|]. intros _. split; [by right|]. eauto.
    + repeat case_decide; simpl; [lia..|]. split; [lia|]. intros _. split; [by left|].
      rewrite lookup_insert_eq. eexists. split; [done|]. lia.
  - destruct (t !! op_key op) as [[id d]|] eqn:Hk; [|simpl; lia].
    specialize (Hlive _ _ _ Hk). case_decide; simpl; [|lia]. subst.
    set (d' := Z.max _ _). destruct (Hrem d') as [? ?]; [lia|]. split; [lia|].
    intros _. split; [by left|]. rewrite lookup_insert_eq. eauto.
Qed.

(** A lease that is live stays with its owner, not earlier than before, unless
    its own Release runs. *)
Lemma specApply_keeps mt mk t op now k id d :
  t !! k = Some (id, d) -> ~ (op_kind op = operationRelease /\ op_key op = k /\ op_leaseID op = id) ->
  exists d', (specApply mt mk t op now).1 !! k = Some (id, d') /\ d <= d'.
Proof.
  intros Hk Hrel. destruct (decide (k = op_key op)) as [->|Hne];
    [|exists d; rewrite specApply_other by done; by split].
  destruct (decide (id = op_leaseID op)) as [->|Hne];
    [|exists d; rewrite (specApply_foreign _ _ _ _ _ id d) by done; by split].
  unfold specApply, specAcquire, specRenew. destruct (op_kind op); [| |by destruct Hrel].
  - rewrite Hk, decide_True by done. by exists d.
  - rewrite Hk, decide_True by done. simpl. rewrite lookup_insert_eq. eexists. split; [done|]. lia.
Qed.

(** While a foreign lease is live, no Acquire or Renew of its key succeeds. *)
Lemma specApply_foreign_reply mt mk t op now id d :
  t !! op_key op = Some (id, d) -> id <> op_leaseID op -> op_kind op <> operationRelease ->
  Status (specApply mt mk t op now).2 = LeaseStatusBUSY \/
  Status (specApply mt mk t op now).2 = LeaseStatusSTALE.
Proof.
  intros Hk Hne Hrel. unfold specApply, specAcquire, specRenew. rewrite Hk.
  destruct (op_kind op); [| |done]; rewrite decide_False by done; auto.
Qed.

Lemma submit_ttl_backed s op now got s' r :
  server_inv hash s -> 0 <= op_requestedTTLMS op ->
  submitOperation hash s op now got = Some (s', Some r) ->
  TTLMS r <= MaxTTL (config s) /\
  (0 < TTLMS r ->
   (Status r = LeaseStatusOK \/ Status r = LeaseStatusALREADY_OWNED) /\
   exists d, serverTable s' !! op_key op = Some (op_leaseID op, d) /\
     now + TTLMS r * Millisecond <= d).
Proof.
  intros Hinv Hreq Hsub.
  destruct (decide (phase s = phaseActive)) as [Hact|Hact];
    [|by rewrite submitOperation_inactive in Hsub].
  destruct (submitOperation_active s op now got) as (s1 & r1 & Hr & _ & _ & Hs); [done..|].
  rewrite Hr in Hsub. injection Hsub as -> ->.
  pose proof (specApply_ttl (MaxTTL (config s)) (MaxKeys (config s))
    (live now (serverTable s)) op now) as Httl. rewrite <- Hs in Httl.
  pose proof (si_ttl _ _ Hinv) as Hmt.
  destruct Httl as [Hle Hpos]; [lia|done|by intros k id d [_ ?]%live_Some|].
  split; [done|]. intros Hp. destruct (Hpos Hp) as (Hst & d & Hd & Hge).
  split; [done|]. exists d. split; [by eapply live_entry|done].
Qed.

Lemma submit_keeps s op now got s' r k id d :
  server_inv hash s -> 0 <= op_requestedTTLMS op ->
  submitOperation hash s op now got = Some (s', r) ->
  serverTable s !! k = Some (id, d) -> now < d ->
  ~ (op_kind op = operationRelease /\ op_key op = k /\ op_leaseID op = id) ->
  exists d', serverTable s' !! k = Some (id, d') /\ d <= d'.
Proof.
  intros Hinv Hreq Hsub Hk Hd Hrel.
  destruct (decide (phase s = phaseActive)) as [Hact|Hact].
  2:{ rewrite submitOperation_inactive in Hsub by done. injection Hsub as <- <-. by exists d. }
  destruct (submitOperation_active s op now got) as (s1 & r1 & Hr & _ & _ & Hs); [done..|].
  rewrite Hr in Hsub. injection Hsub as -> _. apply (f_equal fst) in Hs. simpl in Hs.
  destruct (specApply_keeps (MaxTTL (config s)) (MaxKeys (config s)) (live now (serverTable s)) op now
    k id d) as (d' & Hd' & Hle); [by apply live_Some|done|].
  exists d'. split; [|done]. rewrite <- Hs in Hd'. by eapply live_entry.
Qed.

Lemma submit_foreign s op now got s' r id d :
  server_inv hash s -> 0 <= op_requestedTTLMS op ->
  submitOperation hash s op now got = Some (s', Some r) ->
  serverTable s !! op_key op = Some (id, d) -> now < d -> id <> op_leaseID op ->
  op_kind op <> operationRelease ->
  Status r = LeaseStatusBUSY \/ Status r = LeaseStatusSTALE.
Proof.
  intros Hinv Hreq Hsub Hk Hd Hne Hrel.
  destruct (decide (phase s = phaseActive)) as [Hact|Hact];
    [|by rewrite submitOperation_inactive in Hsub by done].
  destruct (submitOperation_active s op now got) as (s1 & r1 & Hr & _ & _ & Hs); [done..|].
  rewrite Hr in Hsub. injection Hsub as -> ->. apply (f_equal snd) in Hs. simpl in Hs. rewrite Hs.
  apply (specApply_foreign_reply _ _ _ _ _ id d); [|done..]. by apply live_Some.
Qed.

Lemma cleanup_keeps s now s' k id d :
  server_inv hash s -> cleanupTick s now = Some s' ->
  serverTable s !! k = Some (id, d) -> now < d -> serverTable s' !! k = Some (id, d).
Proof.
  intros Hinv. unfold cleanupTick. destruct (active s); [|by intros [= <-]].
  intros Hr Hk Hd. destruct (removeExpiredKeys_spec hash s now Hinv) as (s1 & Hr1 & _ & _ & _ & _ & Ht).
  rewrite Hr1 in Hr. injection Hr as <-. rewrite Ht. by apply live_Some.
Qed.

End Runs.

(** ** Theorems *)

(** C2: in every reachable active server, an operation handed to the worker of
    its shard terminates without a panic, its reply and the resulting table of
    live leases are the ones of the abstract server, and it leaves the
    lifecycle (phase, failure channel, connections) alone. *)
Theorem operation_refines_spec hash s op now got :
  reachable hash s -> phase s = phaseActive -> 0 <= op_requestedTTLMS op ->
  exists s' r, submitOperation hash s op now got = Some (s', Some r) /\
    lifecycle s' = lifecycle s /\
    (live now (serverTable s'), r) =
      specApply (MaxTTL (config s)) (MaxKeys (config s)) (live now (serverTable s)) op now.
Proof.
  intros [Hinv _]%reachable_run_inv Hact Hreq.
  destruct (submitOperation_active hash s op now got) as (s' & r & Hr & _ & Hl & Hs); [done..|].
  eauto.
Qed.

Lemma demoActive_reachable : reachable demoHash demoActive.
Proof.
  eapply reachable_step; [|apply step_quarantine].
  apply (reachable_new _ demoConfig); [|reflexivity].
  unfold config_typed, is_u64, is_u32. simpl. lia.
Qed.

Lemma demoHeld_reachable : reachable demoHash demoHeld.
Proof.
  eapply reachable_step; [apply demoActive_reachable|].
  apply (step_operation _ _ (demoAcquire 4 1 3000) 1000 None _
    (Some (acquireResponse 11 LeaseStatusOK 3000))); [vm_compute; done|reflexivity].
Qed.

Lemma operation_refines_spec_witness :
  exists s' r, submitOperation demoHash demoHeld (demoAcquire 4 2 100) 5000 None = Some (s', Some r) /\
    lifecycle s' = lifecycle demoHeld /\
    (live 5000 (serverTable s'), r) =
      specApply 5000 2 (live 5000 (serverTable demoHeld)) (demoAcquire 4 2 100) 5000.
Proof.
  apply (operation_refines_spec demoHash demoHeld (demoAcquire 4 2 100) 5000 None);
    [apply demoHeld_reachable|reflexivity|simpl; lia].
Defined.

(** C9: the shared key counter always equals the number of resident records,
    never exceeds the configured limit, and no run ever reports an underflow:
    the only fatal errors are those of the connection code. *)
Theorem key_count_exact hash s :
  reachable hash s ->
  keys s = Z.of_nat (size (serverTable s)) /\ keys s <= MaxKeys (config s) /\
  Forall connectionFailure (fatal s).
Proof.
  intros [[_ _ _ Hk Hl] [Hf _ _ _ _]]%reachable_run_inv. split_and!; [done..|].
  destruct Hf as [->|(c & -> & Hc & _)]; auto.
Qed.

Lemma key_count_exact_witness :
  reachable demoHash demoHeld /\ keys demoHeld = Z.of_nat (size (serverTable demoHeld)) /\
  keys demoHeld <= MaxKeys (config demoHeld) /\ Forall connectionFailure (fatal demoHeld).
Proof.
  split; [apply demoHeld_reachable|]. apply (key_count_exact demoHash demoHeld).
  apply demoHeld_reachable.
Defined.

(** No handler of a reachable server panics, whatever the phase, the clock
    and the choices of the object pool are. *)
Theorem handlers_never_panic hash s op now got :
  reachable hash s -> 0 <= op_requestedTTLMS op ->
  is_Some (submitOperation hash s op now got) /\ is_Some (cleanupTick s now).
Proof.
  intros [Hinv _]%reachable_run_inv Hreq. split.
  - destruct (submitOperation_inv hash s op now got) as (s' & r & -> & _); [done..|]. by eexists.
  - destruct (cleanupTick_inv hash s now) as (s' & -> & _); [done|]. by eexists.
Qed.

Lemma handlers_never_panic_witness :
  is_Some (submitOperation demoHash demoHeld (demoAcquire 4 1 9) (10 ^ 12) (Some 3%nat)) /\
  is_Some (cleanupTick demoHeld (10 ^ 12)).
Proof.
  apply (handlers_never_panic demoHash demoHeld (demoAcquire 4 1 9) (10 ^ 12) (Some 3%nat));
    [apply demoHeld_reachable|simpl; lia].
Defined.

(** C4: a lease that is live when an operation runs keeps its owner and its
    deadline unless the operation carries the very same key and lease
    identity; in particular no foreign Acquire, Renew or Release and no
    cleanup run by them can take it away. *)
Theorem live_lease_protected hash s op now got k id d :
  reachable hash s -> 0 <= op_requestedTTLMS op ->
  serverTable s !! k = Some (id, d) -> now < d ->
  (op_key op = k -> op_leaseID op <> id) ->
  exists s' r, submitOperation hash s op now got = Some (s', r) /\
    serverTable s' !! k = Some (id, d).
Proof.
  intros [Hinv _]%reachable_run_inv Hreq Hk Hd Hforeign.
  destruct (decide (phase s = phaseActive)) as [Hact|Hact];
    [|rewrite submitOperation_inactive by done; eauto].
  destruct (submitOperation_active hash s op now got) as (s' & r & Hr & _ & _ & Hs); [done..|].
  exists s', (Some r). split; [done|]. apply live_entry with now.
  apply (f_equal fst) in Hs. simpl in Hs. rewrite Hs.
  assert (Hlive : live now (serverTable s) !! k = Some (id, d)) by by apply live_Some.
  destruct (decide (k = op_key op)) as [->|Hne].
  - rewrite (specApply_foreign _ _ _ _ _ id d); [done..|]. intros ->. by apply Hforeign.
  - by rewrite specApply_other.
Qed.

Lemma live_lease_protected_witness :
  exists s' r, submitOperation demoHash demoHeld (demoAcquire 4 2 5000) 2000 None = Some (s', r) /\
    serverTable s' !! 4 = Some (demoID 1, 1000 + 3000 * Millisecond).
Proof.
  apply (live_lease_protected demoHash demoHeld (demoAcquire 4 2 5000) 2000 None 4 (demoID 1));
    [apply demoHeld_reachable|simpl; lia|vm_compute; reflexivity|vm_compute; reflexivity|done].
Defined.

(** A reply never promises more time than the server holds: its TTL is at
    most the configured maximum, and a positive TTL comes with a success
    status and a stored deadline of the requested identity that lies at least
    that many milliseconds ahead. *)
Theorem reply_ttl_backed hash s op now got s' r :
  reachable hash s -> 0 <= op_requestedTTLMS op ->
  submitOperation hash s op now got = Some (s', Some r) ->
  TTLMS r <= MaxTTL (config s) /\
  (0 < TTLMS r ->
   (Status r = LeaseStatusOK \/ Status r = LeaseStatusALREADY_OWNED) /\
   exists d, serverTable s' !! op_key op = Some (op_leaseID op, d) /\
     now + TTLMS r * Millisecond <= d).
Proof.
  intros [Hinv _]%reachable_run_inv. by apply submit_ttl_backed.
Qed.

Lemma reply_ttl_backed_witness :
  let r := acquireResponse 11 LeaseStatusALREADY_OWNED 2998 in
  let now := 1000 + 1500000 in
  TTLMS r <= 5000 /\
  (0 < TTLMS r ->
   (Status r = LeaseStatusOK \/ Status r = LeaseStatusALREADY_OWNED) /\
   exists d, serverTable (countOperation demoHeld operationAcquire) !! 4 = Some (demoID 1, d) /\
     now + TTLMS r * Millisecond <= d).
Proof.
  intros r now.
  apply (reply_ttl_backed demoHash demoHeld (demoAcquire 4 1 100) now None
    (countOperation demoHeld operationAcquire) r);
    [apply demoHeld_reachable|simpl; lia|reflexivity].
Defined.

(** Deadlines are bounded by the configured maximum: if no stored deadline
    lies more than MaxTTL after some earlier instant, then after an operation
    at [now] none lies more than MaxTTL after [now]. *)
Theorem deadlines_stay_bounded hash s op t now got :
  reachable hash s -> 0 <= op_requestedTTLMS op -> t <= now -> deadlines_within s t ->
  exists s' r, submitOperation hash s op now got = Some (s', r) /\ deadlines_within s' now.
Proof.
  intros [Hinv _]%reachable_run_inv Hreq Hle Hb. pose proof (si_ttl _ _ Hinv) as Hmt.
  destruct (decide (phase s = phaseActive)) as [Hact|Hact].
  2:{ rewrite submitOperation_inactive by done. eexists _, _. split; [done|].
      intros k id d Hk. specialize (Hb k id d Hk). unfold Millisecond in *. lia. }
  destruct (submitOperation_active hash s op now got) as (s' & r & Hr & _ & Hlife & Hs); [done..|].
  exists s', (Some r). split; [done|]. intros k id d Hk.
  destruct (lifecycle_config _ _ Hlife) as [-> _].
  unfold deadlines_within, Millisecond in *. destruct (decide (d <= now)); [lia|].
  assert (Hlive : live now (serverTable s') !! k = Some (id, d)) by (apply live_Some; split; [done|lia]).
  apply (f_equal fst) in Hs. simpl in Hs. rewrite Hs in Hlive.
  destruct (decide (k = op_key op)) as [->|Hne].
  2:{ rewrite specApply_other in Hlive by done. apply live_entry, Hb in Hlive. lia. }
  assert (Hold : forall id d, live now (serverTable s) !! op_key op = Some (id, d) ->
    d <= now + MaxTTL (config s) * 1000000).
  { intros id0 d0 H0%live_entry. apply Hb in H0. lia. }
  revert Hlive. unfold specApply, specAcquire, specRenew, specRelease, Millisecond.
  destruct (live now (serverTable s) !! op_key op) as [[id0 d0]|] eqn:Hl0;
    destruct (op_kind op); repeat case_decide; simpl;
    rewrite ?lookup_insert_eq, ?lookup_delete_eq, ?Hl0; intros [= <- <-];
    try specialize (Hold _ _ eq_refl); lia.
Qed.

Lemma deadlines_stay_bounded_witness :
  exists s' r, submitOperation demoHash demoActive (demoAcquire 4 1 9000) 77 None = Some (s', r) /\
    deadlines_within s' 77.
Proof.
  apply (deadlines_stay_bounded demoHash demoActive (demoAcquire 4 1 9000) 0 77 None);
    [apply demoActive_reachable|simpl; lia|lia|].
  intros k id d. replace (serverTable demoActive) with (∅ : gmap Z (leaseID * Z)) by reflexivity.
  by rewrite lookup_empty.
Defined.

(** C8: the lifecycle is one-way. A step never moves a server to an earlier
    phase, so a failed server is never active again and a closed one stays
    closed; a failed server has published exactly one fatal error, a running
    one has published none, and a failed or closed server has its context
    cancelled and its listener closed. *)
Theorem lifecycle_one_way hash s s' :
  reachable hash s -> server_step hash s s' ->
  (phaseRank (phase s) <= phaseRank (phase s'))%nat /\
  (phase s' = phaseFailed -> exists cause, fatal s' = [cause]) /\
  (phase s' = phaseQuarantine \/ phase s' = phaseActive -> fatal s' = []) /\
  (phase s' = phaseFailed \/ phase s' = phaseClosed ->
   ctxDone s' = true /\ listenerOpen s' = false).
Proof.
  intros Hreach Hstep. pose proof (reachable_run_inv hash s Hreach) as Hrun.
  pose proof (step_run_inv hash s s' Hstep Hrun) as [_ [H1 H2 _ H4 H5]].
  split_and!; [by eapply step_phaseRank|done|..].
  - intros Hp. destruct H1 as [|(c & _ & _ & _ & Hr)]; [done|].
    destruct Hp as [Hp|Hp]; rewrite Hp in Hr; simpl in Hr; lia.
  - intros Hp. assert (Hc : ctxDone s' = true); [|by rewrite <- H5].
    apply H4. destruct Hp as [-> | ->]; simpl; lia.
Qed.

Lemma lifecycle_one_way_witness :
  let s' := fail demoHeld failAccept in
  (phaseRank (phase demoHeld) <= phaseRank (phase s'))%nat /\
  (phase s' = phaseFailed -> exists cause, fatal s' = [cause]) /\
  (phase s' = phaseQuarantine \/ phase s' = phaseActive -> fatal s' = []) /\
  (phase s' = phaseFailed \/ phase s' = phaseClosed ->
   ctxDone s' = true /\ listenerOpen s' = false).
Proof.
  intros s'. apply (lifecycle_one_way demoHash demoHeld s');
    [apply demoHeld_reachable|apply step_fail; by left].
Defined.

(** KEY_LIMIT_REACHED is exact. An active server answers it to an Acquire
    if and only if the key is not live, the effective TTL is positive and the
    leases live at that moment already fill the limit: records that expired
    but were not yet removed never cause a refusal. *)
Theorem key_limit_exact hash s op now got :
  reachable hash s -> phase s = phaseActive -> 0 <= op_requestedTTLMS op ->
  op_kind op = operationAcquire ->
  exists s' r, submitOperation hash s op now got = Some (s', Some r) /\
    (Status r = LeaseStatusKEY_LIMIT_REACHED <->
     live now (serverTable s) !! op_key op = None /\ op_requestedTTLMS op <> 0 /\
     MaxKeys (config s) <= Z.of_nat (size (live now (serverTable s)))).
Proof.
  intros [Hinv _]%reachable_run_inv Hact Hreq Hkind. pose proof (si_ttl _ _ Hinv) as Hmt.
  destruct (submitOperation_active hash s op now got) as (s' & r & Hr & _ & _ & Hs); [done..|].
  exists s', r. split; [done|]. apply (f_equal snd) in Hs. simpl in Hs. rewrite Hs.
  unfold specApply, specAcquire. rewrite Hkind.
  destruct (live now (serverTable s) !! op_key op) as [[id d]|];
    repeat case_decide; simpl; (split; [intros Hst; vm_compute in Hst; try done|]); try lia.
  - intros (? & _). done.
  - intros (? & _). done.
  - split_and!; [done|lia|done].
Qed.

Lemma key_limit_exact_witness :
  exists s' r, submitOperation demoHash demoHeld (demoAcquire 5 2 100) 2000 None = Some (s', Some r) /\
    (Status r = LeaseStatusKEY_LIMIT_REACHED <->
     live 2000 (serverTable demoHeld) !! 5 = None /\ 100 <> 0 /\
     2 <= Z.of_nat (size (live 2000 (serverTable demoHeld)))).
Proof.
  apply (key_limit_exact demoHash demoHeld (demoAcquire 5 2 100) 2000 None);
    [apply demoHeld_reachable|reflexivity|simpl; lia|reflexivity].
Defined.

(** Repeating an Acquire is idempotent: while the stored lease is live, an
    Acquire with the same identity answers ALREADY_OWNED with the whole
    milliseconds that remain and does not move the deadline, whatever TTL it
    asks for. *)
Theorem acquire_idempotent hash s op now got d :
  reachable hash s -> phase s = phaseActive -> 0 <= op_requestedTTLMS op ->
  op_kind op = operationAcquire ->
  serverTable s !! op_key op = Some (op_leaseID op, d) -> now < d ->
  d <= now + MaxTTL (config s) * Millisecond ->
  exists s', submitOperation hash s op now got =
      Some (s', Some (acquireResponse (op_requestID op) LeaseStatusALREADY_OWNED
                        ((d - now) / Millisecond))) /\
    serverTable s' !! op_key op = Some (op_leaseID op, d).
Proof.
  intros [Hinv _]%reachable_run_inv Hact Hreq Hkind Hk Hd Hb.
  destruct (submitOperation_active hash s op now got) as (s' & r & Hr & _ & _ & Hs); [done..|].
  exists s'. assert (Hl : live now (serverTable s) !! op_key op = Some (op_leaseID op, d))
    by by apply live_Some.
  unfold specApply, specAcquire in Hs. rewrite Hkind, Hl, decide_True in Hs by done.
  injection Hs as Ht ->. rewrite Hr. split.
  - do 4 f_equal. unfold specRemaining. apply Z.min_l. unfold Millisecond in *.
    apply Z.div_le_upper_bound; lia.
  - apply live_entry with now. by rewrite Ht.
Qed.

Lemma acquire_idempotent_witness :
  exists s', submitOperation demoHash demoHeld (demoAcquire 4 1 5000) 1001000 None =
      Some (s', Some (acquireResponse 11 LeaseStatusALREADY_OWNED
                        ((1000 + 3000 * Millisecond - 1001000) / Millisecond))) /\
    serverTable s' !! 4 = Some (demoID 1, 1000 + 3000 * Millisecond).
Proof.
  apply (acquire_idempotent demoHash demoHeld (demoAcquire 4 1 5000) 1001000 None);
    [apply demoHeld_reachable|reflexivity|simpl; lia|reflexivity|vm_compute; reflexivity| |];
    vm_compute; done.
Defined.
