(* ===== verification/Launcher.v ===== *)
(** * The launcher of a server (src/cmd/redlease-server/main.go)

    [launcherLifecycle.run] waits for the end of the process, of the metrics
    endpoint, of a slot acquisition, of the registration or of the server. With
    etcd the server runs only while the launcher holds a slot. The outcomes of the
    operating system, of the Prometheus registry and of etcd are arguments. *)

From stdpp Require Import base gmap sets list numbers.
From S2P Require Import Prelude GoHeap LeaseShard Protocol Server.

(** ** Configuration *)

(** [serverConfig]: the flags with the library's default for [MaxKeys]. *)
Definition serverConfig (configuredMaxTTLMS maxKeys shardCount : Z) (logger : option Logger) : configError + Config :=
  let maxKeys := if (maxKeys =? 0)%Z then DefaultMaxKeys else maxKeys in
  let result := mkConfig configuredMaxTTLMS maxKeys logger shardCount in
  match Validate result with
  | Some e => inl e
  | None => inr result
  end.

(** ** The metrics endpoint *)

(** The collector in the registry is named by its server. *)
Record metricsEndpoint := mkEndpoint { me_collector : option nat; me_closed : bool }.

(** [setServer], with what [Unregister] and [Register] answer; the flag is
    whether it returns an error. *)
Definition setServer (e : metricsEndpoint) (server : option nat) (unregistered registered : bool) : metricsEndpoint * bool :=
  match me_collector e with
  | Some _ =>
      if unregistered then
        match server with
        | None => (mkEndpoint None (me_closed e), false)
        | Some s => if registered then (mkEndpoint (Some s) (me_closed e), false) else (mkEndpoint None (me_closed e), true)
        end
      else (e, true)
  | None =>
      match server with
      | None => (e, false)
      | Some s => if registered then (mkEndpoint (Some s) (me_closed e), false) else (e, true)
      end
  end.

(** ** [launcherLifecycle] *)

(** The goroutine of an acquisition: it runs, has put its result into the channel
    ([None] is an error), or the result has been received. *)
Inductive acquisitionState := acqRunning | acqDone (registration : option nat) | acqReceived.

(** Servers and registrations are named by numbers; [la_openServers] and
    [la_openRegistrations] are those not yet closed. [la_acquisition] is the field
    [acquisition] (nil or not) and [la_goroutine] the goroutine behind it. *)
Record launcher := mkLauncher {
  la_ctxDone : bool;
  la_etcd : bool;
  la_metrics : option metricsEndpoint;
  la_registration : option nat;
  la_acquisition : bool;
  la_goroutine : acquisitionState;
  la_server : option nat;
  la_next : nat;
  la_openServers : gset nat;
  la_openRegistrations : gset nat
}.

Inductive launchError :=
  | errMetrics
  | errAcquire
  | errListen
  | errSetServer
  | errStop
  | errFatal.

Definition setLauncherServer (l : launcher) (metrics : option metricsEndpoint) (server : option nat) (next : nat)
    (openServers : gset nat) : launcher :=
  mkLauncher (la_ctxDone l) (la_etcd l) metrics (la_registration l) (la_acquisition l) (la_goroutine l) server next
    openServers (la_openRegistrations l).

Definition setRegistration (l : launcher) (registration : option nat) (acquisition : bool) (g : acquisitionState)
    (openRegistrations : gset nat) : launcher :=
  mkLauncher (la_ctxDone l) (la_etcd l) (la_metrics l) registration acquisition g (la_server l) (la_next l)
    (la_openServers l) openRegistrations.

(** [startServer] with whether [Listen] succeeds and what the registry answers.
    [server.New] accepts every configuration [serverConfig] returns. *)
Definition startServer (l : launcher) (listens unregistered registered : bool) : launcher * option launchError :=
  if listens then
    let s := la_next l in
    match la_metrics l with
    | None => (setLauncherServer l None (Some s) (S s) ({[s]} ∪ la_openServers l), None)
    | Some e =>
        let '(e, failed) := setServer e (Some s) unregistered registered in
        if failed : bool then
          (* the new server is closed again *)
          (setLauncherServer l (Some e) (la_server l) (S s) (la_openServers l), Some errSetServer)
        else (setLauncherServer l (Some e) (Some s) (S s) ({[s]} ∪ la_openServers l), None)
    end
  else (l, Some errListen).

(** [stopServer] with what the registry answers and whether [Server.Close] returns
    an error; the server is closed in any case. *)
Definition stopServer (l : launcher) (unregistered closeFails : bool) : launcher * option launchError :=
  match la_server l with
  | None => (l, None)
  | Some s =>
      let '(metrics, failed) :=
        match la_metrics l with
        | None => (None, false)
        | Some e => let '(e, failed) := setServer e None unregistered true in (Some e, failed)
        end in
      (setLauncherServer l metrics None (la_next l) (la_openServers l ∖ {[s]}),
       if failed || closeFails then Some errStop else None)
  end.

(** [startEtcdAcquisition] *)
Definition startEtcdAcquisition (l : launcher) : launcher :=
  setRegistration l (la_registration l) true acqRunning (la_openRegistrations l).

Definition finishAcquisition (l : launcher) (result : option nat) (listens unregistered registered : bool)
    : launcher * option launchError :=
  match result with
  | None => (setRegistration l (la_registration l) false acqReceived (la_openRegistrations l), Some errAcquire)
  | Some r =>
      startServer (setRegistration l (Some r) false acqReceived (la_openRegistrations l)) listens unregistered registered
  end.

Definition recoverRegistration (l : launcher) (unregistered closeFails : bool) : launcher * option launchError :=
  match stopServer l unregistered closeFails with
  | (l, Some e) => (l, Some e)
  | (l, None) =>
      let openRegistrations := match la_registration l with Some r => la_openRegistrations l ∖ {[r]} | None => la_openRegistrations l end in
      (startEtcdAcquisition (setRegistration l None (la_acquisition l) (la_goroutine l) openRegistrations), None)
  end.

(** [etcdAcquisition.Close], when the goroutine has ended: the registration it
    closes, if the acquisition obtained one. *)
Definition closeAcquisition (g : acquisitionState) : option nat :=
  match g with acqDone registration => registration | _ => None end.

(** [Close], when the goroutine of a pending acquisition has ended. *)
Definition closeLauncher (l : launcher) (unregistered closeFails : bool) : launcher :=
  let l := (stopServer l unregistered closeFails).1 in
  let fromAcquisition := if la_acquisition l then closeAcquisition (la_goroutine l) else None in
  let closed : gset nat :=
    match fromAcquisition with Some r => {[r]} | None => ∅ end ∪ match la_registration l with Some r => {[r]} | None => ∅ end in
  mkLauncher (la_ctxDone l) (la_etcd l) ((fun e => mkEndpoint (me_collector e) true) <$> la_metrics l) (la_registration l)
    (la_acquisition l) acqReceived (la_server l) (la_next l) (la_openServers l) (la_openRegistrations l ∖ closed).

(** ** [run] *)

(** The cases of the select of [run]. *)
Inductive runEvent :=
  | runMetrics (serverClosed : bool)
  | runShutdown
  | runAcquired (listens unregistered registered : bool)
  | runLost (unregistered closeFails : bool)
  | runFatal.

(** One iteration: [inl] is the launcher that goes on, [inr] the one that returns
    with its result. [None]: the case is not ready. *)
Definition runLauncher (l : launcher) (e : runEvent) : option (launcher + (launcher * option launchError)) :=
  match e with
  | runMetrics serverClosed =>
      match la_metrics l with
      | Some _ => Some (inr (l, if serverClosed then None else Some errMetrics))
      | None => None
      end
  | runShutdown => if la_ctxDone l then Some (inr (l, None)) else None
  | runAcquired listens unregistered registered =>
      match la_acquisition l, la_goroutine l with
      | true, acqDone result =>
          match finishAcquisition l result listens unregistered registered with
          | (l, None) => Some (inl l)
          | (l, Some e) => Some (inr (l, Some e))
          end
      | _, _ => None
      end
  | runLost unregistered closeFails =>
      match la_registration l with
      | Some _ =>
          match recoverRegistration l unregistered closeFails with
          | (l, None) => Some (inl l)
          | (l, Some e) => Some (inr (l, Some e))
          end
      | None => None
      end
  | runFatal => match la_server l with Some _ => Some (inr (l, Some errFatal)) | None => None end
  end.

(** What [main.run] returns for an error of the acquisition when the process was
    told to stop: nothing. *)
Definition runResult (ctxDone canceled : bool) (e : option launchError) : option launchError :=
  match e with
  | Some errAcquire => if canceled && ctxDone then None else e
  | _ => e
  end.

(** The launcher runs, closes after [run] returned, or has ended. *)
Inductive launchState :=
  | launchRunning (l : launcher)
  | launchClosing (l : launcher) (result : option launchError)
  | launchEnded (l : launcher) (result : option launchError).

Definition startLauncher (withEtcd withMetrics : bool) : launcher :=
  mkLauncher false withEtcd (if withMetrics then Some (mkEndpoint None false) else None) None false acqReceived None 0 ∅ ∅.

(** The goroutine of the acquisition ends; a new registration is a fresh name. *)
Definition finishGoroutine (l : launcher) (acquired : bool) : option launcher :=
  match la_goroutine l with
  | acqRunning =>
      let r := la_next l in
      Some (mkLauncher (la_ctxDone l) (la_etcd l) (la_metrics l) (la_registration l) (la_acquisition l)
              (acqDone (if acquired then Some r else None)) (la_server l) (S r) (la_openServers l)
              (if acquired then {[r]} ∪ la_openRegistrations l else la_openRegistrations l))
  | _ => None
  end.

Inductive launch_step : launchState -> launchState -> Prop :=
  | la_run l e l' : runLauncher l e = Some (inl l') -> launch_step (launchRunning l) (launchRunning l')
  | la_return l e l' r : runLauncher l e = Some (inr (l', r)) -> launch_step (launchRunning l) (launchClosing l' r)
  | la_goroutine_ends l acquired l' :
      finishGoroutine l acquired = Some l' -> launch_step (launchRunning l) (launchRunning l')
  | la_late l r acquired l' :
      finishGoroutine l acquired = Some l' -> launch_step (launchClosing l r) (launchClosing l' r)
  | la_signal l :
      launch_step (launchRunning l)
        (launchRunning (mkLauncher true (la_etcd l) (la_metrics l) (la_registration l) (la_acquisition l) (la_goroutine l)
           (la_server l) (la_next l) (la_openServers l) (la_openRegistrations l)))
  (* [acquisition.Close] waits until the goroutine has ended *)
  | la_close l r unregistered closeFails :
      (la_acquisition l = true -> la_goroutine l <> acqRunning) ->
      launch_step (launchClosing l r) (launchEnded (closeLauncher l unregistered closeFails) r).

Inductive launch_reachable : launchState -> Prop :=
  | lre_etcd withMetrics :
      launch_reachable (launchRunning (startEtcdAcquisition (startLauncher true withMetrics)))
  | lre_plain withMetrics listens registered l :
      startServer (startLauncher false withMetrics) listens true registered = (l, None) ->
      launch_reachable (launchRunning l)
  | lre_failed withMetrics listens registered l e :
      startServer (startLauncher false withMetrics) listens true registered = (l, Some e) ->
      launch_reachable (launchClosing l (Some e))
  | lre_step s s' : launch_reachable s -> launch_step s s' -> launch_reachable s'.

(** ** Invariants *)

Definition optionSet (o : option nat) : gset nat := match o with Some n => {[n]} | None => ∅ end.

(** The registration that waits in the channel of the acquisition. *)
Definition pendingRegistration (l : launcher) : option nat :=
  match la_goroutine l with acqDone r => r | _ => None end.

(** What holds whether or not [run] has returned. *)
Record launcher_inv (l : launcher) : Prop := {
  lv_servers : la_openServers l = optionSet (la_server l);
  lv_registrations : la_openRegistrations l = optionSet (la_registration l) ∪ optionSet (pendingRegistration l);
  lv_acquisition : if la_acquisition l then la_goroutine l <> acqReceived /\ la_registration l = None /\ la_server l = None
    else la_goroutine l = acqReceived;
  lv_registered : la_etcd l = true -> la_server l <> None -> la_registration l <> None;
  lv_plain : la_etcd l = false -> la_registration l = None /\ la_acquisition l = false;
  lv_fresh : forall n, n ∈ la_openServers l \/ n ∈ la_openRegistrations l -> (n < la_next l)%nat;
  lv_metrics : forall e, la_metrics l = Some e -> me_closed e = false
}.

(** What holds while [run] runs. *)
Record running_inv (l : launcher) : Prop := {
  rv_inv : launcher_inv l;
  rv_collector : forall e, la_metrics l = Some e -> me_collector e = la_server l;
  rv_etcd : la_etcd l = true -> la_acquisition l = true \/ (la_registration l <> None /\ la_server l <> None);
  rv_plain : la_etcd l = false -> la_server l <> None
}.

Lemma startServer_inv l listens unregistered registered l' err :
  launcher_inv l -> la_server l = None -> la_acquisition l = false ->
  (forall e, la_metrics l = Some e -> me_collector e = None) -> (la_etcd l = true -> la_registration l <> None) ->
  startServer l listens unregistered registered = (l', err) ->
  launcher_inv l' /\ (err = None -> running_inv l').
Proof.
  intros [H1 H2 H3 H4 H5 H6 H7] Hs Ha Hc Hr Hst. unfold startServer in Hst. rewrite Hs in H1. simpl in H1.
  destruct listens; [|injection Hst as <- <-; split; [split; try done; by rewrite Hs|done]].
  assert (Hnew : forall metrics, (forall e, metrics = Some e -> me_closed e = false /\ me_collector e = Some (la_next l)) ->
    running_inv (setLauncherServer l metrics (Some (la_next l)) (S (la_next l)) ({[la_next l]} ∪ la_openServers l))).
  { intros metrics Hm. split; simpl; [|by intros e [_ ?]%Hm|right; auto|done]. split; simpl; try done.
    - rewrite H1. set_solver.
    - by rewrite Ha in *.
    - auto.
    - intros n. rewrite elem_of_union, elem_of_singleton. intros [[->|Hn]|Hn]; [lia|..]; enough (n < la_next l)%nat by lia; apply H6; auto.
    - by intros e [? _]%Hm. }
  assert (Hfail : forall metrics, (forall e, metrics = Some e -> me_closed e = false) ->
    launcher_inv (setLauncherServer l metrics (la_server l) (S (la_next l)) (la_openServers l))).
  { intros metrics Hm. split; simpl; try done; [by rewrite Hs|]. intros n Hn. enough (n < la_next l)%nat by lia. by apply H6. }
  destruct (la_metrics l) as [e|].
  - unfold setServer in Hst. rewrite (Hc e eq_refl) in Hst. destruct registered; injection Hst as <- <-.
    + assert (Hrun : running_inv (setLauncherServer l (Some (mkEndpoint (Some (la_next l)) (me_closed e))) (Some (la_next l))
        (S (la_next l)) ({[la_next l]} ∪ la_openServers l))) by (apply Hnew; intros x [= <-]; simpl; auto).
      split; [apply Hrun|done].
    + split; [|done]. apply Hfail. intros x [= <-]. auto.
  - injection Hst as <- <-. split; [by apply Hnew|intros _; by apply Hnew].
Qed.

Lemma stopServer_spec l unregistered closeFails l' err :
  launcher_inv l -> stopServer l unregistered closeFails = (l', err) ->
  launcher_inv l' /\ la_server l' = None /\ la_registration l' = la_registration l /\
  la_acquisition l' = la_acquisition l /\ la_goroutine l' = la_goroutine l /\ la_etcd l' = la_etcd l /\
  (err = None -> (forall e, la_metrics l = Some e -> me_collector e = la_server l) ->
     forall e, la_metrics l' = Some e -> me_collector e = None).
Proof.
  intros Hl Hst. pose proof Hl as [H1 H2 H3 H4 H5 H6 H7]. unfold stopServer in Hst.
  destruct (la_server l) as [s|] eqn:Hs; [|injection Hst as <- <-; split_and!; try done; auto].
  assert (Hinv : forall metrics, (forall e, metrics = Some e -> me_closed e = false) ->
    launcher_inv (setLauncherServer l metrics None (la_next l) (la_openServers l ∖ {[s]}))).
  { intros metrics Hm. split; simpl; try done.
    - rewrite H1. simpl. set_solver.
    - destruct (la_acquisition l); [|done]. naive_solver.
    - intros n Hn. apply H6. set_solver. }
  destruct (la_metrics l) as [e|] eqn:Hme.
  - destruct (setServer e None unregistered true) as [e' failed] eqn:Hset. injection Hst as <- <-.
    assert (Hc : me_closed e' = me_closed e /\ (failed = false -> me_collector e' = None)).
    { unfold setServer in Hset. destruct (me_collector e) eqn:Hme'; [destruct unregistered|]; injection Hset as <- <-; done. }
    split_and!; try done.
    + apply Hinv. intros x [= <-]. destruct Hc as [-> _]. by apply H7.
    + simpl. intros He _ x [= <-]. apply Hc. by destruct failed.
  - injection Hst as <- <-. split_and!; try done. by apply Hinv.
Qed.

Lemma recoverRegistration_inv l unregistered closeFails l' err :
  running_inv l -> la_registration l <> None -> recoverRegistration l unregistered closeFails = (l', err) ->
  launcher_inv l' /\ (err = None -> running_inv l').
Proof.
  intros [Hl Hc He Hp] Hreg Hr. unfold recoverRegistration in Hr.
  destruct (stopServer l unregistered closeFails) as [l1 e1] eqn:Hst.
  destruct (stopServer_spec _ _ _ _ _ Hl Hst) as (Hl1 & Hs1 & Hr1 & Ha1 & Hg1 & He1 & Hm1).
  destruct e1 as [e1|]; [by injection Hr as <- <-|].
  assert (Hna : la_acquisition l = false).
  { pose proof (lv_acquisition _ Hl) as Hacq. destruct (la_acquisition l); naive_solver. }
  injection Hr as <- <-. destruct Hl1 as [H1 H2 H3 H4 H5 H6 H7]. rewrite Ha1, Hna in H3.
  destruct (la_registration l) as [r|] eqn:Hrl; [|done].
  assert (Het : la_etcd l1 = true) by (destruct (la_etcd l1) eqn:Hx; [done|]; destruct (H5 eq_refl); congruence).
  unfold pendingRegistration in H2. rewrite H3, Hr1 in H2. simpl in H2. rewrite Hr1.
  assert (Hinv : launcher_inv (startEtcdAcquisition (setRegistration l1 None (la_acquisition l1) (la_goroutine l1)
    (la_openRegistrations l1 ∖ {[r]})))).
  { split; simpl; try done; try congruence.
    - rewrite H2. unfold pendingRegistration. simpl. set_solver.
    - intros n Hn. apply H6. set_solver. }
  split; [done|]. intros _. split; simpl; [done| |by left|congruence].
  intros e Hme. rewrite Hs1. by apply Hm1.
Qed.

Lemma finishAcquisition_inv l result listens unregistered registered l' err :
  running_inv l -> la_acquisition l = true -> la_goroutine l = acqDone result ->
  finishAcquisition l result listens unregistered registered = (l', err) ->
  launcher_inv l' /\ (err = None -> running_inv l').
Proof.
  intros [Hl Hc He Hp] Ha Hg Hf. destruct Hl as [H1 H2 H3 H4 H5 H6 H7].
  rewrite Ha in H3. destruct H3 as (_ & Hnr & Hns). unfold pendingRegistration in H2. rewrite Hg, Hnr in H2. simpl in H2.
  assert (Het : la_etcd l = true) by (destruct (la_etcd l) eqn:Hx; [done|]; destruct (H5 eq_refl); congruence).
  unfold finishAcquisition in Hf. destruct result as [r|].
  - eapply startServer_inv in Hf; [done| |done|done| |done].
    + split; simpl; try done; try congruence; rewrite H2; set_solver.
    + simpl. intros e Hme. rewrite (Hc e Hme). done.
  - injection Hf as <- <-. split; [|done]. split; simpl; try done.
    rewrite H2, Hnr. unfold pendingRegistration. simpl. set_solver.
Qed.

Lemma finishGoroutine_inv l acquired l' :
  finishGoroutine l acquired = Some l' -> launcher_inv l ->
  launcher_inv l' /\ (running_inv l -> running_inv l').
Proof.
  intros Hf [H1 H2 H3 H4 H5 H6 H7]. unfold finishGoroutine in Hf.
  destruct (la_goroutine l) eqn:Hg; try done. injection Hf as <-.
  assert (Ha : la_acquisition l = true) by (destruct (la_acquisition l); done).
  unfold pendingRegistration in H2. rewrite Hg in H2. simpl in H2.
  assert (Hinv : launcher_inv (mkLauncher (la_ctxDone l) (la_etcd l) (la_metrics l) (la_registration l) (la_acquisition l)
    (acqDone (if acquired then Some (la_next l) else None)) (la_server l) (S (la_next l)) (la_openServers l)
    (if acquired then {[la_next l]} ∪ la_openRegistrations l else la_openRegistrations l))).
  { split; simpl; try done.
    - unfold pendingRegistration. simpl. destruct acquired; simpl; rewrite H2; set_solver.
    - rewrite Ha in *. naive_solver.
    - intros n Hn. destruct acquired; [|enough (n < la_next l)%nat by lia; by apply H6].
      destruct (decide (n = la_next l)) as [->|Hne]; [lia|]. enough (n < la_next l)%nat by lia. apply H6. set_solver. }
  split; [done|]. intros [_ Hc He Hp]. by split.
Qed.

Lemma closeLauncher_ended l unregistered closeFails :
  launcher_inv l -> (la_acquisition l = true -> la_goroutine l <> acqRunning) ->
  la_openServers (closeLauncher l unregistered closeFails) = ∅ /\
  la_openRegistrations (closeLauncher l unregistered closeFails) = ∅ /\
  la_goroutine (closeLauncher l unregistered closeFails) <> acqRunning /\
  forall e, la_metrics (closeLauncher l unregistered closeFails) = Some e -> me_closed e = true.
Proof.
  intros Hl Hg. unfold closeLauncher, closeAcquisition. destruct (stopServer l unregistered closeFails) as [l1 e1] eqn:Hst.
  destruct (stopServer_spec _ _ _ _ _ Hl Hst) as (Hl1 & Hs1 & Hr1 & Ha1 & Hg1 & _). simpl.
  destruct Hl1 as [H1 H2 H3 H4 H5 H6 H7]. split_and!; [by rewrite H1, Hs1| |done|].
  - rewrite H2. unfold pendingRegistration, optionSet. rewrite <- Ha1, <- Hg1 in Hg.
    destruct (la_acquisition l1); [|rewrite H3]; [|set_solver].
    destruct (la_goroutine l1); [by destruct (Hg eq_refl)|set_solver|set_solver].
  - intros e He. destruct (la_metrics l1); [|done]. by injection He as <-.
Qed.

Definition state_inv (s : launchState) : Prop :=
  match s with
  | launchRunning l => running_inv l
  | launchClosing l _ => launcher_inv l
  | launchEnded l _ =>
      la_openServers l = ∅ /\ la_openRegistrations l = ∅ /\ la_goroutine l <> acqRunning /\
      forall e, la_metrics l = Some e -> me_closed e = true
  end.

Lemma runLauncher_inv l e r : runLauncher l e = Some r -> running_inv l ->
  match r with inl l' => running_inv l' | inr (l', _) => launcher_inv l' end.
Proof.
  intros Hr Hl. pose proof (rv_inv _ Hl) as Hi. destruct e as [closed| |listens unreg reg|unreg fails|]; simpl in Hr.
  - destruct (la_metrics l); [|done]. by injection Hr as <-.
  - destruct (la_ctxDone l); [|done]. by injection Hr as <-.
  - destruct (la_acquisition l) eqn:Ha; [|done]. destruct (la_goroutine l) as [|result|] eqn:Hg; try done.
    destruct (finishAcquisition l result listens unreg reg) as [l' err] eqn:Hf.
    destruct (finishAcquisition_inv _ _ _ _ _ _ _ Hl Ha Hg Hf) as [? ?]. destruct err; injection Hr as <-; auto.
  - destruct (la_registration l) eqn:Hreg; [|done].
    destruct (recoverRegistration l unreg fails) as [l' err] eqn:Hf.
    destruct (recoverRegistration_inv _ _ _ _ _ Hl ltac:(congruence) Hf) as [? ?]. destruct err; injection Hr as <-; auto.
  - destruct (la_server l); [|done]. by injection Hr as <-.
Qed.

Lemma launch_step_inv s s' : launch_step s s' -> state_inv s -> state_inv s'.
Proof.
  destruct 1 as [l e l' Hr|l e l' r Hr|l acquired l' Hf|l r acquired l' Hf|l|l r unreg fails Hg]; simpl; intros Hl.
  - by apply (runLauncher_inv _ _ _ Hr).
  - by apply (runLauncher_inv _ _ _ Hr Hl).
  - pose proof (rv_inv _ Hl). destruct (finishGoroutine_inv _ _ _ Hf) as [_ ?]; auto.
  - by destruct (finishGoroutine_inv _ _ _ Hf) as [? _].
  - destruct Hl as [[H1 H2 H3 H4 H5 H6 H7] Hc He Hp]. split; [split|..]; done.
  - by apply closeLauncher_ended.
Qed.

Lemma startLauncher_inv withEtcd withMetrics : launcher_inv (startLauncher withEtcd withMetrics).
Proof.
  split; simpl; try done; [set_solver|]. intros e. destruct withMetrics; [|done]. by intros [= <-].
Qed.

Lemma launch_reachable_inv s : launch_reachable s -> state_inv s.
Proof.
  assert (Hplain : forall withMetrics listens registered l err,
    startServer (startLauncher false withMetrics) listens true registered = (l, err) ->
    launcher_inv l /\ (err = None -> running_inv l)).
  { intros withMetrics listens registered l err Hs. eapply startServer_inv; [apply startLauncher_inv| | | | |exact Hs]; try done.
    simpl. intros e. destruct withMetrics; [|done]. by intros [= <-]. }
  induction 1 as [withMetrics|withMetrics listens registered l Hs|withMetrics listens registered l e Hs|s s' _ IH Hs].
  - split; simpl; [|by destruct withMetrics; [intros e [= <-]|]|by left|done].
    split; simpl; try done; [set_solver|]. intros e. destruct withMetrics; [|done]. by intros [= <-].
  - by apply (Hplain _ _ _ _ _ Hs).
  - by destruct (Hplain _ _ _ _ _ Hs).
  - by eapply launch_step_inv.
Qed.

(** What the launcher guarantees of a state, with or without etcd: at most one
    server is open, the one the launcher runs; with etcd it runs only together with
    an open registration, and the launcher has either a pending acquisition or a
    registration with a server; the exported metrics are those of the running
    server; every registration obtained is the launcher's or waits in the
    acquisition's channel; and when the process has ended, every server and every
    registration ever opened has been closed, no acquisition runs and the endpoint
    is closed. *)
Definition launch_guarantee (etcd : bool) (s : launchState) : Prop :=
  match s with
  | launchRunning l =>
      la_openServers l = optionSet (la_server l) /\
      la_openRegistrations l = optionSet (la_registration l) ∪ optionSet (pendingRegistration l) /\
      (etcd = true ->
         (la_acquisition l = true /\ la_server l = None /\ la_registration l = None) \/
         (la_acquisition l = false /\ la_server l <> None /\ exists r, la_registration l = Some r /\ r ∈ la_openRegistrations l)) /\
      (etcd = false -> la_server l <> None /\ la_registration l = None) /\
      (forall e, la_metrics l = Some e -> me_collector e = la_server l)
  | launchClosing l _ =>
      la_openServers l = optionSet (la_server l) /\
      la_openRegistrations l = optionSet (la_registration l) ∪ optionSet (pendingRegistration l)
  | launchEnded l _ =>
      la_openServers l = ∅ /\ la_openRegistrations l = ∅ /\ la_goroutine l <> acqRunning /\
      forall e, la_metrics l = Some e -> me_closed e = true
  end.

Definition launcherOf (s : launchState) : launcher :=
  match s with launchRunning l | launchClosing l _ | launchEnded l _ => l end.

Lemma launcher_lifecycle s : launch_reachable s -> launch_guarantee (la_etcd (launcherOf s)) s.
Proof.
  intros Hr. pose proof (launch_reachable_inv s Hr) as Hs. destruct s as [l|l r|l r]; simpl in Hs |- *; [|by destruct Hs|done].
  destruct Hs as [[H1 H2 H3 H4 H5 H6 H7] Hc He Hp]. split_and!; try done.
  - intros Het. destruct (He Het) as [Ha|[Hreg Hsv]].
    + left. rewrite Ha in H3. naive_solver.
    + right. destruct (la_acquisition l); [naive_solver|]. split_and!; try done.
      destruct (la_registration l) as [r|]; [|done]. exists r. split; [done|]. rewrite H2. simpl. set_solver.
  - intros Het. split; [by apply Hp|]. by destruct (H5 Het).
Qed.

(** What the flags fixed stays: whether there is etcd, and whether there is an
    endpoint for the metrics. *)
Definition launchOptions (l : launcher) : bool * bool := (la_etcd l, bool_decide (la_metrics l <> None)).

Lemma startServer_options l listens unregistered registered :
  launchOptions (startServer l listens unregistered registered).1 = launchOptions l.
Proof.
  unfold startServer. destruct listens; [|done]. unfold launchOptions. destruct (la_metrics l) as [e|]; [|done].
  by destruct (setServer e _ unregistered registered) as [e' []].
Qed.

Lemma stopServer_options l unregistered closeFails : launchOptions (stopServer l unregistered closeFails).1 = launchOptions l.
Proof.
  unfold stopServer. destruct (la_server l); [|done]. unfold launchOptions. destruct (la_metrics l) as [e|]; [|done].
  by destruct (setServer e _ unregistered true) as [e' []].
Qed.

Lemma runLauncher_options l e r :
  runLauncher l e = Some r -> launchOptions (match r with inl l' => l' | inr (l', _) => l' end) = launchOptions l.
Proof.
  unfold runLauncher, finishAcquisition, recoverRegistration. destruct e as [| |listens u re|u f|].
  - destruct (la_metrics l); [|done]. by intros [= <-].
  - destruct (la_ctxDone l); [|done]. by intros [= <-].
  - destruct (la_acquisition l), (la_goroutine l) as [|[n|]|]; try done; [|by intros [= <-]].
    pose proof (startServer_options (setRegistration l (Some n) false acqReceived (la_openRegistrations l)) listens u re) as Ho.
    destruct (startServer _ listens u re) as [l' [e|]]; by intros [= <-].
  - destruct (la_registration l); [|done]. pose proof (stopServer_options l u f) as Ho.
    destruct (stopServer l u f) as [l' [e|]]; by intros [= <-].
  - destruct (la_server l); [|done]. by intros [= <-].
Qed.

Lemma launch_step_options s s' : launch_step s s' -> launchOptions (launcherOf s') = launchOptions (launcherOf s).
Proof.
  assert (Hg : forall l acquired l', finishGoroutine l acquired = Some l' -> launchOptions l' = launchOptions l).
  { intros l acquired l'. unfold finishGoroutine. destruct (la_goroutine l); [|done..]. by intros [= <-]. }
  destruct 1 as [l e l' Hr|l e l' r Hr|l acquired l' Hf|l r acquired l' Hf|l|l r u f Hw]; simpl.
  - apply (runLauncher_options _ _ _ Hr).
  - apply (runLauncher_options _ _ _ Hr).
  - by eapply Hg.
  - by eapply Hg.
  - done.
  - rewrite <- (stopServer_options l u f). unfold closeLauncher, launchOptions. simpl.
    by destruct (la_metrics (stopServer l u f).1).
Qed.

(** The servers the launcher starts have a configuration [New] accepts. *)
Lemma serverConfig_accepted ttl maxKeys shardCount logger c :
  serverConfig ttl maxKeys shardCount logger = inr c -> exists s, New true c = inr s.
Proof.
  unfold serverConfig, New, resolveConfig. destruct (Validate _) eqn:Hv; [done|]. intros [= <-]. rewrite Hv. by eexists.
Qed.
