(* ===== verification/Quorum.v ===== *)
(** * Quorum arithmetic of the client
    (src/client/quorum.go and the quorum helpers of src/client/acquire.go)

    The client waits for a majority of replies, computes for each successful
    reply a conservative local expiry and selects the quorum that stays valid
    longest. *)

From S2P Require Import Prelude Protocol.
From stdpp Require Import base list numbers sorting gmap tactics.

#[local] Open Scope Z_scope.

(** [type Quorum uint8]. *)
Definition Quorum1Of1 : Z := 1.
Definition Quorum2Of3 : Z := 2.
Definition Quorum3Of5 : Z := 3.

Definition maxServerCount : nat := 5.
Definition safetyMarginMS : Z := 100.

(** [(serverCount, quorumSize, valid)]. *)
Definition parameters (q : Z) : nat * nat * bool :=
  if decide (q = Quorum1Of1) then (1, 1, true)%nat
  else if decide (q = Quorum2Of3) then (3, 2, true)%nat
  else if decide (q = Quorum3Of5) then (5, 3, true)%nat
  else (0, 0, false)%nat.

Definition quorumServers (q : Z) : nat := (parameters q).1.1.
Definition quorumSize (q : Z) : nat := (parameters q).1.2.
Definition quorumValid (q : Z) : bool := (parameters q).2.

(** [uint64] subtraction; the guard keeps it from wrapping. *)
Definition candidateValidUntil (operationStart ttlMS : Z) : Z :=
  if decide (ttlMS <= safetyMarginMS \/ MaxTTLMS < ttlMS) then operationStart
  else timeAdd operationStart (durationMS (u64 (ttlMS - safetyMarginMS))).

Definition isSuccessfulAcquire (status : Z) : bool :=
  bool_decide (status = LeaseStatusOK) || bool_decide (status = LeaseStatusALREADY_OWNED).

(** The candidates of the successful replicas, in replica order: the content of
    the array [best] before it is sorted. *)
Fixpoint successfulCandidates (candidates : list Z) (successful : list bool) : list Z :=
  match candidates, successful with
  | c :: candidates, true :: successful => c :: successfulCandidates candidates successful
  | _ :: candidates, false :: successful => successfulCandidates candidates successful
  | _, _ => []
  end.

Definition bestAcquireQuorum (candidates : list Z) (successful : list bool)
    (quorumSize : nat) : Z * bool :=
  let best := successfulCandidates candidates successful in
  let successfulCount := length best in
  if (successfulCount <? quorumSize)%nat then (zeroTime, false)
  else (nth (successfulCount - quorumSize) (merge_sort Z.le best) zeroTime, true).

Fixpoint usableCount (candidates : list Z) (successful : list bool) (now : Z) : nat :=
  match candidates, successful with
  | c :: candidates, s :: successful =>
      ((if s && timeBefore now c then 1 else 0) + usableCount candidates successful now)%nat
  | _, _ => 0%nat
  end.

Definition acquireQuorumStillPossible (candidates : list Z) (successful : list bool)
    (remaining : nat) (now : Z) (quorumSize : nat) : bool :=
  (quorumSize <=? usableCount candidates successful now + remaining)%nat.

(** ** Counting *)

(** How many members of [l] are at least (more than) [t]. *)
Definition atLeast (t : Z) (l : list Z) : nat := length (filter (fun c => t <= c) l).
Definition moreThan (t : Z) (l : list Z) : nat := length (filter (fun c => t < c) l).

Lemma atLeast_app t l k : atLeast t (l ++ k) = (atLeast t l + atLeast t k)%nat.
Proof. unfold atLeast. by rewrite list.filter_app, length_app. Qed.

Lemma moreThan_app t l k : moreThan t (l ++ k) = (moreThan t l + moreThan t k)%nat.
Proof. unfold moreThan. by rewrite list.filter_app, length_app. Qed.

Lemma atLeast_all t l : (forall c, c ∈ l -> t <= c) -> atLeast t l = length l.
Proof.
  intros Hl. unfold atLeast. f_equal. induction l as [|c l IH]; [done|].
  rewrite filter_cons_True by set_solver. f_equal. apply IH. set_solver.
Qed.

Lemma moreThan_none t l : (forall c, c ∈ l -> c <= t) -> moreThan t l = 0%nat.
Proof.
  intros Hl. unfold moreThan. induction l as [|c l IH]; [done|].
  rewrite filter_cons_False by (specialize (Hl c); set_solver by lia). apply IH. set_solver.
Qed.

Lemma atLeast_succ t l : atLeast (t + 1) l = moreThan t l.
Proof.
  unfold atLeast, moreThan. f_equal. apply list_filter_iff. intros c. lia.
Qed.

#[export] Instance atLeast_Proper t : Proper ((≡ₚ) ==> eq) (atLeast t).
Proof. intros l k Hlk. unfold atLeast. by rewrite Hlk. Qed.

#[export] Instance moreThan_Proper t : Proper ((≡ₚ) ==> eq) (moreThan t).
Proof. intros l k Hlk. unfold moreThan. by rewrite Hlk. Qed.

(** In a sorted list the element at distance [q] from the end is reached by [q]
    members and exceeded by fewer. *)
Lemma sorted_rank (l : list Z) q :
  (0 < q <= length l)%nat ->
  let t := nth (length l - q) (merge_sort Z.le l) zeroTime in
  t ∈ l /\ (q <= atLeast t l)%nat /\ (moreThan t l < q)%nat.
Proof.
  intros Hq t. set (s := merge_sort Z.le l) in *.
  assert (Hperm : s ≡ₚ l) by apply merge_sort_Permutation.
  assert (Hsort : StronglySorted Z.le s) by apply (StronglySorted_merge_sort Z.le l).
  assert (Hlen : length s = length l) by by rewrite Hperm.
  destruct (lookup_lt_is_Some_2 s (length l - q)%nat) as [x Hx]; [lia|].
  assert (Hs : s = take (length l - q) s ++ x :: drop (S (length l - q)) s)
    by by rewrite take_drop_middle.
  assert (t = x) as -> by (unfold t; by apply nth_lookup_Some).
  rewrite Hs in Hsort. apply StronglySorted_app in Hsort as (Hlow & _ & Hhigh).
  apply StronglySorted_cons in Hhigh as [Hhigh _]. rewrite list.Forall_forall in Hhigh.
  split_and!.
  - rewrite <- Hperm, Hs. set_solver.
  - rewrite <- Hperm, Hs, atLeast_app, (atLeast_all x (x :: _)).
    + simpl. rewrite length_drop. lia.
    + set_solver by lia.
  - rewrite <- Hperm, Hs. rewrite (cons_middle x), app_assoc, moreThan_app.
    rewrite moreThan_none by set_solver by lia.
    unfold moreThan. pose proof (length_filter (fun c => x < c) (drop (S (length l - q)) s)).
    rewrite length_drop in *. lia.
Qed.

Lemma usableCount_moreThan candidates successful now :
  usableCount candidates successful now =
  moreThan now (successfulCandidates candidates successful).
Proof.
  revert successful. induction candidates as [|c cs IH]; intros [|[] ss]; simpl; try done.
  unfold moreThan, timeBefore in *. rewrite filter_cons, IH.
  destruct (now <? c) eqn:E; case_decide; simpl; lia.
Qed.

Lemma atLeast_moreThan t t' l : t < t' -> (atLeast t' l <= moreThan t l)%nat.
Proof.
  intros Hlt. unfold atLeast, moreThan. induction l as [|c l IH]; [done|].
  rewrite !filter_cons. repeat case_decide; simpl; lia.
Qed.

Lemma bestAcquireQuorum_Some candidates successful q t :
  (0 < q)%nat -> bestAcquireQuorum candidates successful q = (t, true) ->
  let l := successfulCandidates candidates successful in
  t ∈ l /\ (q <= atLeast t l)%nat /\ (moreThan t l < q)%nat.
Proof.
  intros Hq. unfold bestAcquireQuorum. cbv zeta.
  destruct (_ <? q)%nat eqn:E; [done|]. apply Nat.ltb_ge in E.
  intros [= <-]. apply sorted_rank. lia.
Qed.

Lemma bestAcquireQuorum_false candidates successful q t :
  bestAcquireQuorum candidates successful q = (t, false) ->
  (length (successfulCandidates candidates successful) < q)%nat.
Proof.
  unfold bestAcquireQuorum. cbv zeta. destruct (_ <? q)%nat eqn:E; [|done].
  by apply Nat.ltb_lt in E.
Qed.

Lemma candidate_eq start ttl :
  is_u64 ttl ->
  candidateValidUntil start ttl =
  if decide (safetyMarginMS < ttl <= MaxTTLMS)
  then start + (ttl - safetyMarginMS) * Millisecond else start.
Proof.
  unfold is_u64, candidateValidUntil, safetyMarginMS, MaxTTLMS. intros Ht.
  destruct (decide (ttl <= 100 \/ 5000 < ttl)); [rewrite decide_False by lia; done|].
  rewrite decide_True by lia. unfold timeAdd.
  by rewrite u64_small, durationMS_small by in_range.
Qed.

(** Every supported configuration is a majority: two sets of replicas that
    each reach the quorum size share a replica. *)
Lemma quorums_intersect q (X Y : gset nat) :
  quorumValid q = true ->
  X ⊆ set_seq 0 (quorumServers q) -> Y ⊆ set_seq 0 (quorumServers q) ->
  (quorumSize q <= size X)%nat -> (quorumSize q <= size Y)%nat ->
  exists i, i ∈ X /\ i ∈ Y.
Proof.
  intros Hv HX HY HqX HqY.
  destruct (decide (X ∩ Y = ∅)) as [Hempty|Hne].
  2:{ apply set_choose_L in Hne as [i Hi]. set_solver. }
  exfalso.
  assert (Hsize : (size (X ∪ Y) <= quorumServers q)%nat).
  { rewrite <- (size_set_seq (C:=gset nat) 0 (quorumServers q)). apply subseteq_size. set_solver. }
  rewrite size_union in Hsize by set_solver.
  unfold quorumValid, quorumSize, quorumServers, parameters in *.
  repeat case_decide; simpl in *; lia || done.
Qed.

(** A local expiry after the start of the operation is the granted TTL less the
    safety margin. *)
Lemma candidate_later start ttl :
  start < candidateValidUntil start ttl ->
  safetyMarginMS < ttl <= MaxTTLMS /\
  candidateValidUntil start ttl = start + ttl * Millisecond - safetyMarginMS * Millisecond.
Proof.
  unfold candidateValidUntil. case_decide as Hd; [lia|]. intros _. split; [lia|].
  unfold safetyMarginMS, MaxTTLMS, timeAdd in *. rewrite u64_small by in_range.
  rewrite durationMS_small by lia. lia.
Qed.

(** ** Theorems *)

(** C19: the chosen quorum is the best one. The selected instant is the expiry
    of some successful replica, at least [q] successful replicas are valid
    until then, and no later instant has that property. *)
Theorem best_quorum_optimal candidates successful q t :
  (0 < q)%nat -> bestAcquireQuorum candidates successful q = (t, true) ->
  let l := successfulCandidates candidates successful in
  t ∈ l /\ (q <= atLeast t l)%nat /\
  (forall t', t < t' -> (atLeast t' l < q)%nat).
Proof.
  intros Hq Hb. destruct (bestAcquireQuorum_Some _ _ _ _ Hq Hb) as (Hin & Hge & Hlt).
  split_and!; [done..|]. intros t' Ht.
  pose proof (atLeast_moreThan t t' (successfulCandidates candidates successful) Ht). lia.
Qed.

Lemma best_quorum_optimal_witness :
  let l := [40; 70; 50; 90] in
  70 ∈ l /\ (2 <= atLeast 70 l)%nat /\ (forall t', 70 < t' -> (atLeast t' l < 2)%nat).
Proof.
  apply (best_quorum_optimal [40; 70; 10; 50; 90] [true; true; false; true; true] 2 70);
    [lia|vm_compute; reflexivity].
Defined.

(** Giving up early is exact. [acquireQuorumStillPossible] is false exactly
    when no set of further successful replies, at most one per outstanding
    replica, can complete a quorum that is still valid. *)
Theorem still_possible_exact candidates successful remaining now q :
  (0 < q)%nat ->
  acquireQuorumStillPossible candidates successful remaining now q = true <->
  exists extra candidates' successful' t,
    (length extra <= remaining)%nat /\
    successfulCandidates candidates' successful' ≡ₚ
      successfulCandidates candidates successful ++ extra /\
    bestAcquireQuorum candidates' successful' q = (t, true) /\ now < t.
Proof.
  intros Hq. unfold acquireQuorumStillPossible. rewrite usableCount_moreThan, Nat.leb_le.
  set (l := successfulCandidates candidates successful). split.
  - intros Hle. set (extra := replicate remaining (now + 1)).
    set (all := l ++ extra).
    assert (Hsc : forall k, successfulCandidates k (replicate (length k) true) = k).
    { induction k as [|c k IH]; [done|]. simpl. by rewrite IH. }
    assert (Hall : (q <= moreThan now all)%nat).
    { unfold all, extra. rewrite moreThan_app, <- (atLeast_succ now (replicate _ _)).
      rewrite atLeast_all, length_replicate; [done|]. intros c [-> _]%elem_of_replicate. lia. }
    destruct (bestAcquireQuorum all (replicate (length all) true) q) as [t b] eqn:Hb.
    exists extra, all, (replicate (length all) true), t. rewrite Hsc.
    split_and!; [unfold extra; by rewrite length_replicate|done|..].
    + destruct b; [done|]. apply bestAcquireQuorum_false in Hb. rewrite Hsc in Hb.
      pose proof (length_filter (fun c => now < c) all). unfold moreThan in Hall. lia.
    + destruct b.
      2:{ apply bestAcquireQuorum_false in Hb. rewrite Hsc in Hb.
          pose proof (length_filter (fun c => now < c) all). unfold moreThan in Hall. lia. }
      apply bestAcquireQuorum_Some in Hb as (_ & _ & Hlt); [|done]. rewrite Hsc in Hlt.
      destruct (decide (now < t)); [done|].
      destruct (decide (t = now)) as [->|]; [lia|].
      pose proof (atLeast_moreThan t (now + 1) all). rewrite atLeast_succ in H. lia.
  - intros (extra & cs & ss & t & Hlen & Hperm & Hb & Ht).
    apply bestAcquireQuorum_Some in Hb as (_ & Hge & _); [|done]. rewrite Hperm, atLeast_app in Hge.
    pose proof (atLeast_moreThan now t l Ht).
    pose proof (length_filter (fun c => t <= c) extra). unfold atLeast in Hge at 2. lia.
Qed.

Lemma still_possible_exact_witness :
  acquireQuorumStillPossible [40; 70; 0] [true; false; false] 1 30 2 = true <->
  exists extra candidates' successful' t,
    (length extra <= 1)%nat /\
    successfulCandidates candidates' successful' ≡ₚ [40] ++ extra /\
    bestAcquireQuorum candidates' successful' 2 = (t, true) /\ 30 < t.
Proof. apply (still_possible_exact [40; 70; 0] [true; false; false] 1 30 2). lia. Defined.

(** A client never trusts a lease longer than the server granted it: the
    local expiry of a reply that took effect is the granted TTL, counted from
    before the request was sent, less the safety margin; replies with a TTL
    within the margin or above the protocol maximum grant nothing. *)
Theorem candidate_conservative operationStart ttlMS :
  is_u64 ttlMS ->
  (operationStart < candidateValidUntil operationStart ttlMS ->
   safetyMarginMS < ttlMS <= MaxTTLMS /\
   candidateValidUntil operationStart ttlMS =
     operationStart + ttlMS * Millisecond - safetyMarginMS * Millisecond) /\
  operationStart <= candidateValidUntil operationStart ttlMS.
Proof.
  intros Ht. rewrite candidate_eq by done. unfold safetyMarginMS, MaxTTLMS, Millisecond.
  case_decide; lia.
Qed.

Lemma candidate_conservative_witness :
  (7 < candidateValidUntil 7 3000 ->
   safetyMarginMS < 3000 <= MaxTTLMS /\
   candidateValidUntil 7 3000 = 7 + 3000 * Millisecond - safetyMarginMS * Millisecond) /\
  7 <= candidateValidUntil 7 3000.
Proof. apply (candidate_conservative 7 3000). unfold is_u64. lia. Defined.
