(* ===== verification/Ring.v ===== *)
(** * The bounded multi-producer, single-consumer ring (src/internal/mpscring/ring.go)

    The ring is shared by any number of producers and one consumer. Its state
    is the Go struct; the routines are sequences of atomic steps, one per
    access to shared memory, and a run interleaves them freely. A step touches
    the shared state exactly as the source line does, with positions at 64
    bits. Two ghost lists record the run: [claims], the value of each claimed
    position, and [taken], the values handed to the consumer. *)

From S2P Require Import Prelude.
From stdpp Require Import base functions list numbers relations tactics.

#[local] Open Scope Z_scope.

Section Ring.
Context {T : Type} (zero : T).

(** ** State *)

Record slot := mkSlot { sequence : Z; value : T }.

Record ring := mkRing {
  head : Z;
  tail : Z;
  slots : list slot;
  mask : Z;
  capacity : Z
}.

Definition minimumCapacity : Z := 2.

(** [None] is the panic on an unusable capacity. *)
Definition newRing (cap : Z) : option ring :=
  if decide (cap < minimumCapacity \/ Z.land cap (cap - 1) <> 0) then None
  else Some (mkRing 0 0 ((fun i => mkSlot (Z.of_nat i) zero) <$> seq 0 (Z.to_nat cap))
               (cap - 1) cap).

(** [q.slots[position & q.mask]] *)
Definition slotIndex (q : ring) (position : Z) : nat := Z.to_nat (Z.land position (mask q)).

Definition slotAt (q : ring) (position : Z) : slot :=
  default (mkSlot 0 zero) (slots q !! slotIndex q position).

Definition seqAt (q : ring) (position : Z) : Z := sequence (slotAt q position).
Definition valueAt (q : ring) (position : Z) : T := value (slotAt q position).

Definition setSlot (q : ring) (position : Z) (s : slot) : ring :=
  mkRing (head q) (tail q) (<[slotIndex q position := s]> (slots q)) (mask q) (capacity q).

Definition storeSeq (q : ring) (position sequence : Z) : ring :=
  setSlot q position (mkSlot sequence (valueAt q position)).

Definition storeValue (q : ring) (position : Z) (v : T) : ring :=
  setSlot q position (mkSlot (seqAt q position) v).

Definition storeHead (q : ring) (h : Z) : ring :=
  mkRing h (tail q) (slots q) (mask q) (capacity q).

Definition storeTail (q : ring) (t : Z) : ring :=
  mkRing (head q) t (slots q) (mask q) (capacity q).

(** [len]: the number of claimed positions. *)
Definition len (q : ring) : Z := u64 (tail q - head q).

(** ** The routines run alone

    What one call does when no other call overlaps it. A retry of [tryEnqueue]
    then meets the same state; the fuel bounds the retries. *)

Fixpoint tryEnqueueLoop (fuel : nat) (q : ring) (v : T) : option (ring * bool) :=
  match fuel with
  | O => None
  | S fuel =>
      let position := tail q in
      let sequence := seqAt q position in
      if decide (sequence = position) then
        let q := storeTail q (u64 (position + 1)) in
        let q := storeValue q position v in
        Some (storeSeq q position (u64 (position + 1)), true)
      else if decide (sequence < position) then Some (q, false)
      else tryEnqueueLoop fuel q v
  end.

Definition tryEnqueue (q : ring) (v : T) : option (ring * bool) := tryEnqueueLoop 1 q v.

Definition tryDequeue (q : ring) : ring * option T :=
  let position := head q in
  if decide (seqAt q position <> u64 (position + 1)) then (q, None)
  else
    let v := valueAt q position in
    let q := storeValue q position zero in
    let q := storeHead q (u64 (position + 1)) in
    (storeSeq q position (u64 (position + capacity q)), Some v).

(** ** Producers

    [Some v] is [TryEnqueue(v)]; [None] is [TryStartEnqueue()], after which the
    producer fills the slot in place and calls [FinishEnqueue]. *)

Inductive producerPC :=
  | PIdle
  | PLoadTail (request : option T)
  | PLoadSeq (request : option T) (position : Z)
  | PCas (request : option T) (position : Z)
  | PWrite (v : T) (position : Z)          (* tryEnqueue owns the position *)
  | PHold (position : Z)                   (* tryStartEnqueue has returned a ticket *)
  | PPublish (position : Z)                (* about to store the sequence *)
  | PSignal                                (* about to signal [ready] *)
  | PReturn (ok : bool).

(** The slot index a producer owns. *)
Definition holding (pc : producerPC) : option Z :=
  match pc with
  | PWrite _ p | PHold p | PPublish p => Some p
  | _ => None
  end.

(** The next step of [tryEnqueue], [tryStartEnqueue], [finishEnqueue] and of the
    signal that follows them. *)
Definition producerStep (q : ring) (pc : producerPC) : ring * producerPC :=
  match pc with
  | PLoadTail r => (q, PLoadSeq r (tail q))
  | PLoadSeq r position =>
      let sequence := seqAt q position in
      if decide (sequence = position) then (q, PCas r position)
      else if decide (sequence < position) then (q, PReturn false)
      else (q, PLoadTail r)
  | PCas r position =>
      if decide (tail q = position) then
        (storeTail q (u64 (position + 1)),
         match r with Some v => PWrite v position | None => PHold position end)
      else (q, PLoadTail r)
  | PWrite v position => (storeValue q position v, PPublish position)
  | PPublish position => (storeSeq q position (u64 (position + 1)), PSignal)
  | PSignal => (q, PReturn true)
  | PIdle | PHold _ | PReturn _ => (q, pc)
  end.

(** ** The consumer *)

(** [takeValue] is [TryDequeue]; [takeInPlace] is [TryStartDequeue], after which
    the consumer works on the slot and calls [FinishDequeue]. *)
Inductive takeKind := takeValue | takeInPlace.

Inductive consumerPC :=
  | CIdle
  | CLoadHead (k : takeKind)
  | CLoadSeq (k : takeKind) (position : Z)
  | CEmpty                          (* nothing available; may wait on [ready] *)
  | CRead (position : Z)
  | CHold (position : Z)            (* tryStartDequeue has returned the slot *)
  | CFinish                         (* finishDequeue is about to load head *)
  | CZero (position : Z)
  | CStoreHead (position : Z)
  | CStoreSeq (position : Z).

Definition consumerStep (q : ring) (pc : consumerPC) : ring * consumerPC :=
  match pc with
  | CLoadHead k => (q, CLoadSeq k (head q))
  | CLoadSeq k position =>
      if decide (seqAt q position <> u64 (position + 1)) then (q, CEmpty)
      else (q, match k with takeValue => CRead position | takeInPlace => CHold position end)
  | CRead position => (q, CZero position)
  | CFinish => (q, CZero (head q))
  | CZero position => (storeValue q position zero, CStoreHead position)
  | CStoreHead position => (storeHead q (u64 (position + 1)), CStoreSeq position)
  | CStoreSeq position => (storeSeq q position (u64 (position + capacity q)), CIdle)
  | CIdle | CEmpty | CHold _ => (q, pc)
  end.

(** ** Runs *)

Record config := mkCfg {
  rq : ring;
  producers : nat -> producerPC;
  consumer : consumerPC;
  ready : bool;                  (* the buffered channel [ready] holds a signal *)
  claims : list T;
  taken : list T
}.

Definition setProducer (c : config) (tid : nat) (q : ring) (pc : producerPC)
    (ready : bool) (claims : list T) : config :=
  mkCfg q (<[tid := pc]> (producers c)) (consumer c) ready claims (taken c).

Definition setConsumer (c : config) (q : ring) (pc : consumerPC) (ready : bool)
    (taken : list T) : config :=
  mkCfg q (producers c) pc ready (claims c) taken.

(** The ghost log of claims: a successful exchange claims the next position. *)
Definition claimsAfter (c : config) (pc : producerPC) : list T :=
  match pc with
  | PCas r position =>
      if decide (tail (rq c) = position) then claims c ++ [default zero r] else claims c
  | _ => claims c
  end.

Definition isSignal (pc : producerPC) : bool :=
  match pc with PSignal => true | _ => false end.

(** The consumer obtains a value by reading it or by being handed its slot. *)
Definition takenAfter (c : config) : list T :=
  match consumer c with
  | CRead position => taken c ++ [valueAt (rq c) position]
  | CLoadSeq takeInPlace position =>
      if decide (seqAt (rq c) position <> u64 (position + 1)) then taken c
      else taken c ++ [valueAt (rq c) position]
  | _ => taken c
  end.

Definition canCall (pc : producerPC) : bool :=
  match pc with PIdle | PReturn _ => true | _ => false end.

Inductive ring_step (c : config) : config -> Prop :=
  | step_call tid request :
      canCall (producers c tid) = true ->
      ring_step c (setProducer c tid (rq c) (PLoadTail request) (ready c) (claims c))
  | step_producer tid :
      ring_step c (setProducer c tid (producerStep (rq c) (producers c tid)).1
                     (producerStep (rq c) (producers c tid)).2
                     (ready c || isSignal (producers c tid))
                     (claimsAfter c (producers c tid)))
  | step_fill tid position v :
      producers c tid = PHold position ->
      ring_step c (setProducer c tid (storeValue (rq c) position v) (PHold position) (ready c)
                     (<[Z.to_nat position := v]> (claims c)))
  | step_finishEnqueue tid position :
      producers c tid = PHold position ->
      ring_step c (setProducer c tid (rq c) (PPublish position) (ready c) (claims c))
  | step_dequeue k :
      consumer c = CIdle ->
      ring_step c (setConsumer c (rq c) (CLoadHead k) (ready c) (taken c))
  | step_consumer :
      ring_step c (setConsumer c (consumerStep (rq c) (consumer c)).1
                     (consumerStep (rq c) (consumer c)).2 (ready c) (takenAfter c))
  | step_finishDequeue position :
      consumer c = CHold position ->
      ring_step c (setConsumer c (rq c) CFinish (ready c) (taken c))
  | step_wake :
      consumer c = CEmpty -> ready c = true ->
      ring_step c (setConsumer c (rq c) CIdle false (taken c))
  | step_leave :
      consumer c = CEmpty ->
      ring_step c (setConsumer c (rq c) CIdle (ready c) (taken c)).

Definition ring_init (q : ring) : config := mkCfg q (fun _ => PIdle) CIdle false [] [].

Inductive ring_reachable (q0 : ring) : config -> Prop :=
  | ring_reach_init : ring_reachable q0 (ring_init q0)
  | ring_reach_step c c' : ring_reachable q0 c -> ring_step c c' -> ring_reachable q0 c'.

(** No call is in progress. *)
Definition quiescent (c : config) : Prop :=
  (forall tid, canCall (producers c tid) = true) /\ consumer c = CIdle.

(** The values claimed and not yet handed over. *)
Definition waiting (c : config) : list T := drop (length (taken c)) (claims c).

(** ** Invariant *)

(** Positions below [freed] have been given back to the producers. *)
Definition freed (c : config) : Z :=
  match consumer c with CStoreSeq _ => head (rq c) - 1 | _ => head (rq c) end.

(** How many values the consumer has obtained. *)
Definition takenCount (c : config) : Z :=
  match consumer c with
  | CHold _ | CFinish | CZero _ | CStoreHead _ => head (rq c) + 1
  | _ => head (rq c)
  end.

(** The consumer has cleared the value of the position it is taking. *)
Definition cleared (c : config) (p : Z) : Prop :=
  match consumer c with
  | CStoreHead _ | CStoreSeq _ => p = freed c
  | _ => False
  end.

Definition claimAt (c : config) (p : Z) : option T := claims c !! Z.to_nat p.

Definition published (c : config) (p : Z) : Prop :=
  freed c <= p < tail (rq c) /\ seqAt (rq c) p = p + 1.

Definition owned (c : config) (p : Z) : Prop :=
  freed c <= p < tail (rq c) /\ seqAt (rq c) p = p.

Definition producer_ok (c : config) (pc : producerPC) : Prop :=
  match pc with
  | PLoadSeq _ p => 0 <= p <= tail (rq c)
  | PCas _ p => 0 <= p <= tail (rq c) /\ p < freed c + capacity (rq c)
  | PWrite v p => owned c p /\ claimAt c p = Some v
  | PHold p | PPublish p => owned c p /\ claimAt c p = Some (valueAt (rq c) p)
  | PIdle | PLoadTail _ | PSignal | PReturn _ => True
  end.

Definition consumer_ok (c : config) : Prop :=
  match consumer c with
  | CLoadSeq _ p => p = head (rq c)
  | CRead p | CHold p | CZero p | CStoreHead p => p = head (rq c) /\ published c p
  | CFinish => published c (head (rq c))
  | CStoreSeq p => p + 1 = head (rq c) /\ published c p
  | CIdle | CLoadHead _ | CEmpty => True
  end.

Record shape_ok (q : ring) : Prop := {
  sh_pow : exists k, 1 <= k /\ capacity q = 2 ^ k;
  sh_mask : mask q = capacity q - 1;
  sh_slots : length (slots q) = Z.to_nat (capacity q)
}.

Record ring_inv (c : config) : Prop := {
  ri_shape : shape_ok (rq c);
  ri_tail : tail (rq c) = Z.of_nat (length (claims c));
  ri_window : 0 <= freed c <= tail (rq c) /\ tail (rq c) <= freed c + capacity (rq c);
  ri_taken : taken c = take (Z.to_nat (takenCount c)) (claims c);
  ri_count : takenCount c <= tail (rq c);
  ri_seq : forall p, freed c <= p < freed c + capacity (rq c) ->
    seqAt (rq c) p = p \/ (p < tail (rq c) /\ seqAt (rq c) p = p + 1);
  ri_value : forall p, published c p -> ~ cleared c p -> claimAt c p = Some (valueAt (rq c) p);
  ri_free : forall p, tail (rq c) <= p < freed c + capacity (rq c) -> valueAt (rq c) p = zero;
  ri_cleared : forall p, freed c <= p -> cleared c p -> valueAt (rq c) p = zero;
  ri_producers : forall tid, producer_ok c (producers c tid);
  ri_unique : forall t1 t2 p, holding (producers c t1) = Some p ->
    holding (producers c t2) = Some p -> t1 = t2;
  ri_owner : forall p, owned c p -> exists tid, holding (producers c tid) = Some p;
  ri_consumer : consumer_ok c;
  ri_signal : consumer c = CEmpty -> published c (head (rq c)) ->
    ready c = true \/ exists tid, producers c tid = PSignal
}.

(** ** Slots of a power-of-two ring *)

Implicit Types (c : config) (q : ring) (p : Z).

Lemma capacity_ge q : shape_ok q -> 2 <= capacity q.
Proof. intros [(k & Hk & ->) _ _]. change 2 with (2 ^ 1) at 1. apply Z.pow_le_mono_r; lia. Qed.

Lemma slotIndex_mod q p : shape_ok q -> slotIndex q p = Z.to_nat (p mod capacity q).
Proof.
  intros [(k & Hk & Hc) Hm _]. unfold slotIndex. rewrite Hm, Hc, <- Z.land_ones by lia.
  f_equal. f_equal. rewrite Z.ones_equiv. lia.
Qed.

Lemma slotIndex_lt q p : shape_ok q -> (slotIndex q p < length (slots q))%nat.
Proof.
  intros Hs. rewrite slotIndex_mod, (sh_slots q Hs) by done. pose proof (capacity_ge q Hs).
  pose proof (Z.mod_pos_bound p (capacity q)). lia.
Qed.

Lemma slotIndex_inj q p p' : shape_ok q -> Z.abs (p - p') < capacity q ->
  slotIndex q p = slotIndex q p' -> p = p'.
Proof.
  intros Hs Habs. rewrite !slotIndex_mod by done. pose proof (capacity_ge q Hs).
  pose proof (Z.mod_pos_bound p (capacity q)). pose proof (Z.mod_pos_bound p' (capacity q)).
  intros Heq. assert (Hm : p mod capacity q = p' mod capacity q) by lia.
  pose proof (Z.div_mod p (capacity q)). pose proof (Z.div_mod p' (capacity q)).
  assert (p / capacity q = p' / capacity q) by nia. nia.
Qed.

Lemma slotAt_setSlot q p p' s : shape_ok q -> Z.abs (p' - p) < capacity q ->
  slotAt (setSlot q p s) p' = if decide (p' = p) then s else slotAt q p'.
Proof.
  intros Hs Habs. unfold slotAt. change (slotIndex (setSlot q p s) p') with (slotIndex q p').
  simpl. case_decide as Hp.
  - subst. by rewrite list_lookup_insert_eq by (by apply slotIndex_lt).
  - rewrite list_lookup_insert_ne; [done|]. intros Heq. apply Hp. symmetry.
    apply (slotIndex_inj q); [done|lia|done].
Qed.

Lemma seqAt_storeSeq q p p' x : shape_ok q -> Z.abs (p' - p) < capacity q ->
  seqAt (storeSeq q p x) p' = if decide (p' = p) then x else seqAt q p'.
Proof. intros. unfold seqAt, storeSeq. rewrite slotAt_setSlot by done. by case_decide. Qed.

Lemma valueAt_storeSeq q p p' x : shape_ok q -> Z.abs (p' - p) < capacity q ->
  valueAt (storeSeq q p x) p' = valueAt q p'.
Proof.
  intros. unfold valueAt at 1, storeSeq. rewrite slotAt_setSlot by done.
  case_decide; by subst.
Qed.

Lemma seqAt_storeValue q p p' v : shape_ok q -> Z.abs (p' - p) < capacity q ->
  seqAt (storeValue q p v) p' = seqAt q p'.
Proof.
  intros. unfold seqAt at 1, storeValue. rewrite slotAt_setSlot by done.
  case_decide; by subst.
Qed.

Lemma valueAt_storeValue q p p' v : shape_ok q -> Z.abs (p' - p) < capacity q ->
  valueAt (storeValue q p v) p' = if decide (p' = p) then v else valueAt q p'.
Proof. intros. unfold valueAt, storeValue. rewrite slotAt_setSlot by done. by case_decide. Qed.

Lemma shape_setSlot q p s : shape_ok q -> shape_ok (setSlot q p s).
Proof. intros [Hp Hm Hl]. split; simpl; [done..|]. by rewrite length_insert. Qed.

(** Every position shares its slot with one of the current window. *)
Lemma seqAt_window c p : ring_inv c ->
  exists p', freed c <= p' < freed c + capacity (rq c) /\
    p' mod capacity (rq c) = p mod capacity (rq c) /\ seqAt (rq c) p = seqAt (rq c) p'.
Proof.
  intros Hinv. pose proof (ri_shape c Hinv) as Hs. pose proof (capacity_ge _ Hs) as Hc.
  set (n := capacity (rq c)) in *. exists (freed c + (p - freed c) mod n).
  pose proof (Z.mod_pos_bound (p - freed c) n). split; [lia|].
  assert (Hm : (freed c + (p - freed c) mod n) mod n = p mod n).
  { rewrite Zplus_mod_idemp_r. f_equal. lia. }
  split; [done|]. unfold seqAt, slotAt. rewrite !slotIndex_mod by done. fold n. by rewrite Hm.
Qed.

(** When every position is claimed, the tail shares its slot with the oldest
    position, whose sequence is behind. *)
Lemma full_sequence c : ring_inv c -> tail (rq c) = freed c + capacity (rq c) ->
  seqAt (rq c) (tail (rq c)) < tail (rq c).
Proof.
  intros Hinv Hfull. pose proof (capacity_ge _ (ri_shape c Hinv)) as Hc.
  destruct (seqAt_window c (tail (rq c)) Hinv) as (p' & Hw & Hmod & ->).
  destruct (ri_seq c Hinv p' Hw); [lia|]. assert (p' = freed c); [|lia].
  rewrite Hfull, <- Zplus_mod_idemp_r, Z_mod_same_full, Z.add_0_r in Hmod.
  pose proof (Z.div_mod p' (capacity (rq c))). pose proof (Z.div_mod (freed c) (capacity (rq c))).
  assert (p' / capacity (rq c) = freed c / capacity (rq c)) by nia. nia.
Qed.

(** What a producer learns from the sequence of the slot it looks at. *)
Lemma observed_sequence c p : ring_inv c -> 0 <= p <= tail (rq c) ->
  (seqAt (rq c) p = p -> p < freed c + capacity (rq c)) /\
  (seqAt (rq c) p < p -> p = tail (rq c) /\ tail (rq c) = freed c + capacity (rq c)).
Proof.
  intros Hinv Hp. pose proof (capacity_ge _ (ri_shape c Hinv)) as Hc.
  destruct (seqAt_window c p Hinv) as (p' & Hw & Hmod & Heq).
  pose proof (ri_seq c Hinv p' Hw) as Hseq. pose proof (ri_window c Hinv) as Hwin.
  assert (Hcase : p < freed c + capacity (rq c) \/
                  p = tail (rq c) /\ tail (rq c) = freed c + capacity (rq c)) by lia.
  rewrite Heq. split; intros Hx; destruct Hcase as [Hlt|Hfull]; try done.
  - exfalso. destruct Hfull as [Hpt Hfull]. pose proof (full_sequence c Hinv Hfull).
    rewrite <- Heq, Hpt in Hx. lia.
  - exfalso. destruct (decide (freed c <= p)); [|lia].
    assert (p' = p); [|lia].
    apply (slotIndex_inj (rq c)); [apply Hinv|lia|]. rewrite !slotIndex_mod by apply Hinv. by f_equal.
Qed.

(** ** Preservation *)

Lemma holding_owned c tid p :
  ring_inv c -> holding (producers c tid) = Some p -> owned c p /\ 0 <= p.
Proof.
  intros Hinv Hh. pose proof (ri_producers c Hinv tid) as Hok. pose proof (ri_window c Hinv).
  destruct (producers c tid); simplify_eq/=; destruct Hok as [[? ?] _]; split; try done; lia.
Qed.

(** A producer moves on without touching the ring. *)
Lemma inv_producer_pc c tid pc' ready' :
  ring_inv c -> producer_ok c pc' -> holding pc' = holding (producers c tid) ->
  (ready c = true \/ producers c tid = PSignal -> ready' = true) ->
  ring_inv (setProducer c tid (rq c) pc' ready' (claims c)).
Proof.
  intros Hinv Hok Hhold Hready.
  assert (Hh : forall t, holding (<[tid:=pc']> (producers c) t) = holding (producers c t)).
  { intros t. destruct (decide (tid = t)) as [<-|Hne];
      [by rewrite fn_lookup_insert|by rewrite fn_lookup_insert_ne]. }
  split; try apply Hinv; simpl.
  - intros t. destruct (decide (tid = t)) as [<-|Hne];
      [by rewrite fn_lookup_insert|rewrite fn_lookup_insert_ne by done; apply Hinv].
  - intros t1 t2 p. rewrite !Hh. apply Hinv.
  - intros p Hp. destruct (ri_owner c Hinv p Hp) as [t Ht]. exists t. by rewrite Hh.
  - intros He Hp. destruct (ri_signal c Hinv He Hp) as [Hr|[t Ht]]; [auto|].
    destruct (decide (tid = t)) as [<-|Hne]; [auto|].
    right. exists t. by rewrite fn_lookup_insert_ne.
Qed.

(** The consumer moves on without touching the ring. *)
Lemma inv_consumer_pc c pc' ready' taken' :
  let c' := setConsumer c (rq c) pc' ready' taken' in
  ring_inv c ->
  freed c' = freed c -> (forall p, ~ cleared c p) -> (forall p, ~ cleared c' p) ->
  takenCount c' <= tail (rq c) -> taken' = take (Z.to_nat (takenCount c')) (claims c) ->
  consumer_ok c' ->
  (pc' = CEmpty -> published c (head (rq c)) ->
   ready' = true \/ exists tid, producers c tid = PSignal) ->
  ring_inv c'.
Proof.
  intros c' Hinv Hf Hncl Hncl' Hcount Htaken Hcons Hsig.
  assert (Hpub : forall p, published c' p <-> published c p) by (intros p; unfold published; by rewrite Hf).
  assert (Hown : forall p, owned c' p <-> owned c p) by (intros p; unfold owned; by rewrite Hf).
  split; try done; rewrite ?Hf; try apply Hinv.
  - intros p Hp%Hpub _. by apply Hinv.
  - intros p _ Hp. by destruct (Hncl' p).
  - intros tid. pose proof (ri_producers c Hinv tid) as Hok. simpl.
    destruct (producers c tid); simpl in *; rewrite ?Hown, ?Hf; apply Hok.
  - intros p Hp%Hown. by apply Hinv.
  - intros He Hp%Hpub. by apply Hsig.
Qed.

(** A successful exchange of [tail] claims the next position. *)
Definition claimed c (tid : nat) (r : option T) p : config :=
  setProducer c tid (storeTail (rq c) (u64 (p + 1)))
    (match r with Some v => PWrite v p | None => PHold p end)
    (ready c) (claims c ++ [default zero r]).

Lemma claimed_views c tid r p :
  ring_inv c -> producers c tid = PCas r p -> tail (rq c) = p -> tail (rq c) + capacity (rq c) < 2 ^ 64 ->
  let c' := claimed c tid r p in
  0 <= p < freed c + capacity (rq c) /\ tail (rq c') = p + 1 /\ seqAt (rq c) p = p /\
  (forall p0, owned c' p0 <-> owned c p0 \/ p0 = p) /\
  (forall p0, published c' p0 <-> published c p0).
Proof.
  intros Hinv Hpc Ht Hb c'.
  pose proof (ri_producers c Hinv tid) as Hok. rewrite Hpc in Hok. destruct Hok as [Hp Hlt].
  pose proof (capacity_ge _ (ri_shape c Hinv)) as Hcap. pose proof (ri_window c Hinv) as Hwin.
  assert (Ht' : tail (rq c') = p + 1) by (simpl; apply u64_small; in_range).
  assert (Hseqp : seqAt (rq c) p = p) by (destruct (ri_seq c Hinv p); lia).
  split_and!; [lia|lia|done|done| |].
  - intros p0. unfold owned. rewrite Ht'. change (seqAt (rq c') p0) with (seqAt (rq c) p0).
    change (freed c') with (freed c). split; [intros [? ?]|intros [[? ?]| ->]]; lia.
  - intros p0. unfold published. rewrite Ht'. change (seqAt (rq c') p0) with (seqAt (rq c) p0).
    change (freed c') with (freed c). split; intros [? Hs]; (split; [|done]); [|lia].
    destruct (decide (p0 = p)) as [->|]; lia.
Qed.

Lemma inv_claim c tid r p :
  ring_inv c -> producers c tid = PCas r p -> tail (rq c) = p ->
  tail (rq c) + capacity (rq c) < 2 ^ 64 -> ring_inv (claimed c tid r p).
Proof.
  intros Hinv Hpc Ht Hb.
  destruct (claimed_views c tid r p Hinv Hpc Ht Hb) as (Hp & Ht' & Hseqp & Hown & Hpub).
  set (c' := claimed c tid r p) in *.
  pose proof (ri_window c Hinv) as Hwin. pose proof (ri_tail c Hinv) as Htail.
  pose proof (ri_count c Hinv) as Hcnt.
  assert (Hclaim : forall p0 v, claimAt c p0 = Some v -> claimAt c' p0 = Some v).
  { intros p0 v Hv. by apply lookup_app_l_Some. }
  assert (Hnew : claimAt c' p = Some (default zero r)).
  { unfold claimAt. simpl. rewrite lookup_app_r by lia.
    replace (Z.to_nat p - length (claims c))%nat with 0%nat by lia. done. }
  assert (Hprev : forall pc, producer_ok c pc -> producer_ok c' pc).
  { intros pc Hpcok. destruct pc; simpl in *; rewrite ?Ht'; rewrite ?Hown; try done;
      change (freed c') with (freed c); try lia; destruct Hpcok as [? ?]; split; auto. }
  split; try apply Hinv.
  all: try (rewrite Ht'; change (freed c') with (freed c)).
  - destruct (ri_shape c Hinv). by split.
  - change (claims c') with (claims c ++ [default zero r]). rewrite length_app. simpl. lia.
  - change (rq c') with (storeTail (rq c) (u64 (p + 1))). simpl capacity. lia.
  - change (takenCount c') with (takenCount c).
    change (claims c') with (claims c ++ [default zero r]). rewrite take_app_le by lia. apply Hinv.
  - change (takenCount c') with (takenCount c). lia.
  - intros p0 Hp0. destruct (ri_seq c Hinv p0 Hp0) as [|[? ?]]; [by left|right]. split; [lia|done].
  - intros p0 Hp0%Hpub Hncl. apply Hclaim. by apply Hinv.
  - intros p0 Hp0. apply (ri_free c Hinv). simpl in Hp0. lia.
  - intros t. simpl. destruct (decide (tid = t)) as [<-|Hne].
    + rewrite fn_lookup_insert. destruct r as [v|]; simpl; rewrite Hown; split; auto.
      change (valueAt (rq c') p) with (valueAt (rq c) p). rewrite Hnew. simpl. f_equal.
      symmetry. apply (ri_free c Hinv). lia.
    + rewrite fn_lookup_insert_ne by done. apply Hprev, Hinv.
  - intros t1 t2 p0. simpl. unfold insert, fn_insert.
    assert (Hhp : holding (match r with Some v => PWrite v p | None => PHold p end) = Some p)
      by by destruct r.
    assert (Hnoh : forall t, holding (producers c t) <> Some p).
    { intros t Hh. apply holding_owned in Hh as [[? ?] _]; [lia|done]. }
    do 2 case_decide; subst; rewrite ?Hhp; [done|..]; intros H1 H2; simplify_eq;
      [by destruct (Hnoh t2)|by destruct (Hnoh t1)|by eapply (ri_unique c Hinv)].
  - intros p0 [Hp0| ->]%Hown.
    + destruct (ri_owner c Hinv p0 Hp0) as [t Hh]. exists t. simpl. rewrite fn_lookup_insert_ne; [done|].
      intros <-. by rewrite Hpc in Hh.
    + exists tid. simpl. rewrite fn_lookup_insert. by destruct r.
  - pose proof (ri_consumer c Hinv) as Hc. unfold consumer_ok in *. simpl.
    destruct (consumer c); rewrite ?Hpub; apply Hc.
  - intros He Hp0%Hpub. destruct (ri_signal c Hinv He Hp0) as [|[t Hs]]; [by left|right].
    exists t. simpl. rewrite fn_lookup_insert_ne; [done|]. intros <-. congruence.
Qed.

Lemma cleared_published c p : ring_inv c -> cleared c p -> published c p.
Proof.
  intros Hinv Hcl. pose proof (ri_consumer c Hinv) as Hc. unfold consumer_ok, cleared in *.
  destruct (consumer c) eqn:Hcons; try done; unfold freed in Hcl; rewrite Hcons in Hcl;
    destruct Hc as [? Hc]; replace p with position by lia; done.
Qed.

(** Unpublished positions have not been handed to the consumer. *)
Lemma owned_not_taken c p : ring_inv c -> owned c p -> takenCount c <= p.
Proof.
  intros Hinv [Hp Hs]. pose proof (ri_consumer c Hinv) as Hc. unfold consumer_ok in Hc.
  assert (Hne : forall p', published c p' -> p' <> p) by (intros p' [_ ?] ->; lia).
  unfold takenCount, freed in *. destruct (consumer c); try lia.
  all: try destruct Hc as [-> Hc]; try apply Hne in Hc; try lia.
  destruct Hc as [? Hc]. apply Hne in Hc. lia.
Qed.

(** A step of producer [tid], the owner of [p], that changes only that slot. *)
Record slot_step c c' (tid : nat) p : Prop := {
  ss_shape : shape_ok (rq c');
  ss_freed : freed c' = freed c;
  ss_tail : tail (rq c') = tail (rq c);
  ss_cap : capacity (rq c') = capacity (rq c);
  ss_count : takenCount c' = takenCount c;
  ss_cons : consumer c' = consumer c;
  ss_taken : taken c' = taken c;
  ss_seq : forall p0, freed c <= p0 < freed c + capacity (rq c) -> p0 <> p ->
    seqAt (rq c') p0 = seqAt (rq c) p0;
  ss_value : forall p0, freed c <= p0 < freed c + capacity (rq c) -> p0 <> p ->
    valueAt (rq c') p0 = valueAt (rq c) p0;
  ss_length : length (claims c') = length (claims c);
  ss_claims : forall p0, 0 <= p0 -> p0 <> p -> claimAt c' p0 = claimAt c p0;
  ss_others : forall t, t <> tid -> producers c' t = producers c t
}.

Lemma slot_step_views c c' tid p :
  ring_inv c -> owned c p -> slot_step c c' tid p ->
  (forall p0, freed c <= p0 < freed c + capacity (rq c) -> p0 <> p ->
     (owned c' p0 <-> owned c p0) /\ (published c' p0 <-> published c p0)) /\
  (forall p0, cleared c' p0 <-> cleared c p0) /\ ~ published c p /\
  (forall p0, published c p0 -> published c' p0).
Proof.
  intros Hinv Hownp [Hshape Hf Ht Hcap Hcnt Hcons Htk Hseq Hval Hlen Hcl Hoth]. pose proof Hownp as [Hp Hseqp].
  pose proof (ri_window c Hinv) as Hwin.
  assert (Hsame : forall p0, freed c <= p0 < freed c + capacity (rq c) -> p0 <> p ->
    (owned c' p0 <-> owned c p0) /\ (published c' p0 <-> published c p0)).
  { intros p0 Hw Hne. unfold owned, published. by rewrite Hf, Ht, Hseq. }
  assert (Hnp : ~ published c p) by (intros [_ ?]; lia).
  split_and!; [done| |done|].
  - intros p0. unfold cleared. by rewrite Hcons, Hf.
  - intros p0 Hx. apply Hsame; [destruct Hx; lia|by intros ->|done].
Qed.

(** The other producers do not notice such a step. *)
Lemma slot_step_others c c' tid p t :
  ring_inv c -> holding (producers c tid) = Some p -> slot_step c c' tid p -> t <> tid ->
  producer_ok c' (producers c' t).
Proof.
  intros Hinv Hh Hstep Hne. destruct (holding_owned c tid p Hinv Hh) as [Hownp Hp0].
  destruct (slot_step_views c c' tid p Hinv Hownp Hstep) as (Hsame & _).
  destruct Hstep as [Hshape Hf Ht Hcap Hcnt Hcons Htk Hseq Hval Hlen Hcl Hoth].
  pose proof (ri_window c Hinv) as Hwin. rewrite Hoth by done.
  pose proof (ri_producers c Hinv t) as Hokt.
  destruct (producers c t) eqn:Hpc; simpl in *; rewrite ?Ht, ?Hf, ?Hcap; try done.
  all: assert (position <> p) by (intros ->; apply Hne, (ri_unique c Hinv _ _ p); [by rewrite Hpc|done]).
  all: destruct Hokt as [Ho Hx]; split; [apply Hsame; try done; destruct Ho; lia|].
  all: rewrite Hcl, ?Hval; (done || destruct Ho; lia).
Qed.

Lemma inv_slot_step c c' tid p :
  ring_inv c -> holding (producers c tid) = Some p -> slot_step c c' tid p ->
  (seqAt (rq c') p = p /\ holding (producers c' tid) = Some p \/
   seqAt (rq c') p = p + 1 /\ producers c' tid = PSignal /\ claimAt c' p = Some (valueAt (rq c') p)) ->
  producer_ok c' (producers c' tid) -> (ready c = true -> ready c' = true) ->
  head (rq c') = head (rq c) ->
  ring_inv c'.
Proof.
  intros Hinv Hh Hstep Hcase Hok Hready Hhd.
  destruct (holding_owned c tid p Hinv Hh) as [Hownp Hp0]. pose proof Hownp as [Hp Hseqp].
  destruct (slot_step_views c c' tid p Hinv Hownp Hstep) as (Hsame & Hclr & Hnp & Hpub).
  pose proof (fun t => slot_step_others c c' tid p t Hinv Hh Hstep) as Hothers.
  destruct Hstep as [Hshape Hf Ht Hcap Hcnt Hcons Htk Hseq Hval Hlen Hcl Hoth].
  pose proof (ri_window c Hinv) as Hwin. pose proof (owned_not_taken c p Hinv Hownp) as Hnt.
  pose proof (ri_tail c Hinv) as Htail.
  split; rewrite ?Hf, ?Ht, ?Hcap, ?Hcnt, ?Htk, ?Hlen; try apply Hinv; try done.
  - rewrite (ri_taken c Hinv). apply list_eq. intros i. rewrite !lookup_take. case_decide; [|done].
    pose proof (Hcl (Z.of_nat i)) as Hi. unfold claimAt in Hi. rewrite Nat2Z.id in Hi.
    symmetry. apply Hi; lia.
  - intros p0 Hw. destruct (decide (p0 = p)) as [->|Hne].
    + destruct Hcase as [[-> _]|[-> _]]; [by left|right; lia].
    + rewrite Hseq by done. by apply Hinv.
  - intros p0 Hx Hncl. rewrite Hclr in Hncl. destruct (decide (p0 = p)) as [->|Hne].
    + destruct Hcase as [[Hs _]|(_ & _ & Hv)]; [destruct Hx; lia|done].
    + assert (0 <= p0 /\ freed c <= p0 < tail (rq c)) by (destruct Hx; lia).
      rewrite Hcl, Hval by (done || lia). apply Hinv; [apply Hsame; done || lia|done].
  - intros p0 Hw. rewrite Hval by lia. by apply Hinv.
  - intros p0 Hle Hx%Hclr. pose proof (cleared_published c p0 Hinv Hx) as Hpb.
    rewrite Hval; [by apply (ri_cleared c Hinv)|destruct Hpb; lia|by intros ->].
  - intros t. destruct (decide (t = tid)) as [->|Hne]; auto.
  - intros t1 t2 p0 H1 H2.
    assert (Hback : forall t, holding (producers c' t) = Some p0 -> holding (producers c t) = Some p0).
    { intros t Hx. destruct (decide (t = tid)) as [->|Hne]; [|by rewrite <- Hoth].
      destruct Hcase as [[_ Hy]|(_ & Hy & _)]; [congruence|by rewrite Hy in Hx]. }
    by apply (ri_unique c Hinv _ _ p0); apply Hback.
  - intros p0 Hx. destruct (decide (p0 = p)) as [->|Hne].
    + destruct Hcase as [[_ ?]|[Hs _]]; [by exists tid|destruct Hx; lia].
    + apply Hsame in Hx as Hy; [|destruct Hx; lia|done].
      destruct (ri_owner c Hinv p0 Hy) as [t Hht]. exists t. rewrite Hoth; [done|congruence].
  - pose proof (ri_consumer c Hinv) as Hc. unfold consumer_ok in *. rewrite Hcons, ?Hhd.
    destruct (consumer c); first [done|by apply Hpub|by destruct Hc; auto].
  - rewrite Hcons. intros He Hx. rewrite Hhd in Hx.
    destruct Hcase as [[Hs Hht]|(_ & Hsig & _)]; [|right; by exists tid].
    assert (Hne : head (rq c) <> p) by (intros <-; destruct Hx; lia).
    apply Hsame in Hx as Hy; [|destruct Hx; lia|done].
    destruct (ri_signal c Hinv He Hy) as [|[t Hpt]]; [auto|right; exists t].
    rewrite Hoth; [done|]. intros ->. by rewrite Hpt in Hh.
Qed.

(** The owner of a position writes its value. *)
Lemma inv_store_value c tid p v pc' :
  ring_inv c -> holding (producers c tid) = Some p -> pc' = PHold p \/ pc' = PPublish p ->
  ring_inv (setProducer c tid (storeValue (rq c) p v) pc' (ready c)
              (<[Z.to_nat p := v]> (claims c))).
Proof.
  intros Hinv Hh Hpc'. destruct (holding_owned c tid p Hinv Hh) as [[Hp Hseqp] Hp0].
  pose proof (ri_shape c Hinv) as Hs. pose proof (ri_window c Hinv) as Hwin.
  pose proof (ri_tail c Hinv) as Htail.
  assert (Hh' : holding pc' = Some p) by by destruct Hpc' as [-> | ->].
  assert (Hcl : <[Z.to_nat p:=v]> (claims c) !! Z.to_nat p = Some v)
    by (apply list_lookup_insert_eq; lia).
  apply (inv_slot_step c _ tid p); try done; simpl.
  - split; try done; simpl.
    + by apply shape_setSlot.
    + intros p0 ? ?. apply seqAt_storeValue; [done|lia].
    + intros p0 ? ?. rewrite valueAt_storeValue, decide_False by (done || lia). done.
    + by rewrite length_insert.
    + intros p0 ? ?. apply list_lookup_insert_ne. lia.
    + intros t ?. by rewrite fn_lookup_insert_ne.
  - left. rewrite seqAt_storeValue, fn_lookup_insert by (done || lia). done.
  - rewrite fn_lookup_insert.
    assert (Hv : valueAt (storeValue (rq c) p v) p = v)
      by (rewrite valueAt_storeValue, decide_True by (done || lia); done).
    assert (Ho : seqAt (storeValue (rq c) p v) p = p) by (rewrite seqAt_storeValue; done || lia).
    destruct Hpc' as [-> | ->]; simpl; unfold owned, claimAt; simpl; rewrite Hv, Ho; auto.
Qed.

(** The owner of a position publishes it. *)
Lemma inv_publish c tid p :
  ring_inv c -> producers c tid = PPublish p -> tail (rq c) + capacity (rq c) < 2 ^ 64 ->
  ring_inv (setProducer c tid (storeSeq (rq c) p (u64 (p + 1))) PSignal (ready c) (claims c)).
Proof.
  intros Hinv Hpc Hb. pose proof (ri_producers c Hinv tid) as Hok. rewrite Hpc in Hok.
  destruct Hok as [[Hp Hseqp] Hclm]. pose proof (ri_shape c Hinv) as Hs.
  pose proof (ri_window c Hinv) as Hwin. pose proof (capacity_ge _ Hs).
  rewrite u64_small by in_range.
  apply (inv_slot_step c _ tid p); try done; simpl; [by rewrite Hpc|..].
  - split; try done; simpl.
    + by apply shape_setSlot.
    + intros p0 ? ?. rewrite seqAt_storeSeq, decide_False by (done || lia). done.
    + intros p0 ? ?. apply valueAt_storeSeq; [done|lia].
    + intros t ?. by rewrite fn_lookup_insert_ne.
  - right. rewrite fn_lookup_insert, seqAt_storeSeq, decide_True, valueAt_storeSeq by (done || lia).
    done.
  - by rewrite fn_lookup_insert.
Qed.

(** A consumer step after which the value of the oldest position is clear. *)
Lemma inv_clear_step c c' :
  ring_inv c -> shape_ok (rq c') -> freed c < tail (rq c) ->
  freed c' = freed c -> tail (rq c') = tail (rq c) -> capacity (rq c') = capacity (rq c) ->
  takenCount c' = takenCount c -> producers c' = producers c -> claims c' = claims c ->
  taken c' = taken c ->
  (forall p, freed c <= p < freed c + capacity (rq c) -> seqAt (rq c') p = seqAt (rq c) p) ->
  (forall p, freed c <= p < freed c + capacity (rq c) -> p <> freed c ->
   valueAt (rq c') p = valueAt (rq c) p) ->
  valueAt (rq c') (freed c) = zero -> seqAt (rq c) (freed c) = freed c + 1 ->
  (forall p, cleared c' p <-> p = freed c) -> (forall p, cleared c p -> p = freed c) ->
  consumer_ok c' -> consumer c' <> CEmpty ->
  ring_inv c'.
Proof.
  intros Hinv Hshape Hlt Hf Ht Hcap Hcnt Hprod Hclm Htk Hseq Hval Hzero Hsf Hcl Hclo Hcons Hne.
  pose proof (ri_window c Hinv) as Hwin. pose proof (capacity_ge _ (ri_shape c Hinv)) as Hc2.
  assert (Hca : forall p, claimAt c' p = claimAt c p) by (intros; unfold claimAt; by rewrite Hclm).
  assert (Hsame : forall p, freed c <= p < tail (rq c) ->
    (published c' p <-> published c p) /\ (owned c' p <-> owned c p)).
  { intros p Hp. unfold published, owned. by rewrite Hf, Ht, Hseq by lia. }
  assert (Hpb : forall p, published c' p -> published c p).
  { intros p Hx. apply Hsame; [|done]. destruct Hx. lia. }
  assert (Hob : forall p, owned c' p -> owned c p).
  { intros p Hx. apply Hsame; [|done]. destruct Hx. lia. }
  assert (Hnf : forall p, owned c p -> p <> freed c) by (intros p [_ ?] ->; lia).
  split; rewrite ?Hf, ?Ht, ?Hcap, ?Hcnt, ?Hclm, ?Htk, ?Hprod; try apply Hinv; try done.
  - intros p Hp. rewrite Hseq by done. by apply (ri_seq c Hinv).
  - intros p Hx Hncl. rewrite Hcl in Hncl. apply Hpb in Hx. destruct (Hx) as [? _].
    rewrite Hca, Hval by (done || lia). apply (ri_value c Hinv); [done|by intros ?%Hclo].
  - intros p Hp. rewrite Hval by lia. by apply (ri_free c Hinv).
  - by intros p _ ->%Hcl.
  - intros tid. pose proof (ri_producers c Hinv tid) as Hok.
    destruct (producers c tid); simpl in *; rewrite ?Ht, ?Hf, ?Hcap, ?Hca; try done.
    all: destruct Hok as [Ho Hx]; pose proof (Hnf _ Ho); pose proof Ho as [? _].
    all: split; [by apply Hsame|]; rewrite ?Hval; done || lia.
  - intros p Hx. by apply (ri_owner c Hinv), Hob.
Qed.

Lemma inv_zero c p : ring_inv c -> consumer c = CZero p ->
  ring_inv (setConsumer c (storeValue (rq c) p zero) (CStoreHead p) (ready c) (taken c)).
Proof.
  intros Hinv Hpc. pose proof (ri_consumer c Hinv) as Hc. unfold consumer_ok in Hc. rewrite Hpc in Hc.
  destruct Hc as [-> [Hp Hseqp]]. pose proof (ri_shape c Hinv) as Hs.
  pose proof (ri_window c Hinv) as Hwin. pose proof (capacity_ge _ Hs).
  assert (Hf : freed c = head (rq c)) by (unfold freed; by rewrite Hpc).
  apply (inv_clear_step c); try done; simpl; rewrite ?Hf in *.
  - by apply shape_setSlot.
  - lia.
  - unfold takenCount. by rewrite Hpc.
  - intros p0 ?. apply seqAt_storeValue; [done|lia].
  - intros p0 ? ?. rewrite valueAt_storeValue, decide_False by (done || lia). done.
  - rewrite valueAt_storeValue, decide_True by (done || lia). done.
  - done.
  - by intros p0.
  - intros p0. unfold cleared. by rewrite Hpc.
  - split; [done|]. unfold published, freed. simpl. rewrite seqAt_storeValue by (done || lia). lia.
Qed.

Lemma inv_store_head c p : ring_inv c -> consumer c = CStoreHead p ->
  tail (rq c) + capacity (rq c) < 2 ^ 64 ->
  ring_inv (setConsumer c (storeHead (rq c) (u64 (p + 1))) (CStoreSeq p) (ready c) (taken c)).
Proof.
  intros Hinv Hpc Hb. pose proof (ri_consumer c Hinv) as Hc. unfold consumer_ok in Hc. rewrite Hpc in Hc.
  destruct Hc as [-> [Hp Hseqp]]. pose proof (ri_shape c Hinv) as Hs.
  pose proof (ri_window c Hinv) as Hwin. pose proof (capacity_ge _ Hs).
  assert (Hf : freed c = head (rq c)) by (unfold freed; by rewrite Hpc).
  rewrite u64_small by in_range.
  assert (Hcl : forall p, cleared c p <-> p = head (rq c)) by (intros p; unfold cleared; by rewrite Hpc, Hf).
  assert (Hf1 : head (rq c) + 1 - 1 = head (rq c)) by lia.
  apply (inv_clear_step c); try done; simpl; rewrite ?Hf in *.
  - by destruct Hs.
  - lia.
  - unfold freed. simpl. lia.
  - unfold takenCount. by rewrite Hpc.
  - apply (ri_cleared c Hinv); [lia|by apply Hcl].
  - done.
  - intros p0. unfold cleared, freed. simpl. by rewrite Hf1.
  - by intros p0 ?%Hcl.
  - split; [done|]. unfold published, freed. simpl. change (seqAt _ _) with (seqAt (rq c) (head (rq c))). lia.
Qed.

(** The consumer gives the slot back to the producers of the next lap. *)
Lemma inv_free_slot c p : ring_inv c -> consumer c = CStoreSeq p ->
  tail (rq c) + capacity (rq c) < 2 ^ 64 ->
  ring_inv (setConsumer c (storeSeq (rq c) p (u64 (p + capacity (rq c)))) CIdle (ready c) (taken c)).
Proof.
  intros Hinv Hpc Hb. pose proof (ri_consumer c Hinv) as Hc. unfold consumer_ok in Hc. rewrite Hpc in Hc.
  destruct Hc as [Hhd Hpubp]. pose proof (ri_shape c Hinv) as Hs. pose proof (ri_window c Hinv) as Hwin.
  pose proof (capacity_ge _ Hs). set (n := capacity (rq c)) in *. destruct (Hpubp) as [Hp Hseqp].
  rewrite u64_small by in_range. set (c' := setConsumer _ _ _ _ _).
  assert (Hf : freed c = p) by (unfold freed; rewrite Hpc; lia).
  assert (Hf' : freed c' = p + 1) by (unfold freed; simpl; lia).
  assert (Hcl : forall p0, cleared c p0 <-> p0 = p) by (intros p0; unfold cleared; by rewrite Hpc, Hf).
  assert (Hseq : forall p0, p < p0 < p + n -> seqAt (rq c') p0 = seqAt (rq c) p0).
  { intros p0 ?. simpl. rewrite seqAt_storeSeq, decide_False by (done || lia). done. }
  assert (Hval : forall p0, p < p0 < p + n -> valueAt (rq c') p0 = valueAt (rq c) p0).
  { intros p0 ?. simpl. rewrite valueAt_storeSeq by (done || lia). done. }
  assert (Hlap : forall q0, shape_ok q0 -> capacity q0 = n -> slotAt q0 (p + n) = slotAt q0 p).
  { intros q0 Hq0 Hn. unfold slotAt. rewrite !slotIndex_mod, Hn by done.
    by rewrite <- Zplus_mod_idemp_r, Z_mod_same_full, Z.add_0_r. }
  assert (Hs' : shape_ok (rq c')) by by apply shape_setSlot.
  assert (Hnext : seqAt (rq c') (p + n) = p + n /\ valueAt (rq c') (p + n) = zero).
  { unfold seqAt at 1, valueAt at 1. rewrite (Hlap (rq c')) by done. split.
    - change (seqAt (rq c') p = p + n). simpl. rewrite seqAt_storeSeq, decide_True by (done || lia). done.
    - change (valueAt (rq c') p = zero). simpl. rewrite valueAt_storeSeq by (done || lia).
      apply (ri_cleared c Hinv); [lia|by apply Hcl]. }
  assert (Hsame : forall p0, p < p0 < tail (rq c) ->
    (published c' p0 <-> published c p0) /\ (owned c' p0 <-> owned c p0)).
  { intros p0 Hp0. unfold published, owned. rewrite Hf, Hf', Hseq by lia. simpl tail. split; split; lia. }
  assert (Hnp : forall p0, owned c p0 -> p < p0 < tail (rq c)).
  { intros p0 [Hx Hy]. destruct (decide (p0 = p)) as [->|]; lia. }
  split; rewrite ?Hf'; try apply Hinv; try done.
  - simpl tail. change (capacity (rq c')) with n. lia.
  - change (taken c = take (Z.to_nat (head (rq c))) (claims c)). rewrite (ri_taken c Hinv). unfold takenCount. by rewrite Hpc.
  - change (takenCount c') with (head (rq c)). simpl. lia.
  - change (capacity (rq c')) with n. intros p0 Hp0. destruct (decide (p0 = p + n)) as [->|]; [left; apply Hnext|].
    rewrite Hseq by lia. apply (ri_seq c Hinv). fold n. lia.
  - intros p0 Hx _. assert (Hw : p < p0 < tail (rq c)) by (destruct Hx as [[? ?] _]; simpl in *; lia).
    rewrite Hval by lia. apply (ri_value c Hinv); [by apply Hsame|rewrite Hcl; lia].
  - change (capacity (rq c')) with n. intros p0 Hp0. destruct (decide (p0 = p + n)) as [->|]; [apply Hnext|].
    rewrite Hval by (simpl in *; lia). apply (ri_free c Hinv). fold n. simpl in *. lia.
  - intros tid. pose proof (ri_producers c Hinv tid) as Hok.
    simpl. destruct (producers c tid); simpl in *; rewrite ?Hf'; try done; try (unfold n in *; lia).
    all: destruct Hok as [Ho Hx]; specialize (Hnp _ Ho).
    all: split; [by apply Hsame|]; try done; by rewrite Hval by lia.
  - intros p0 Hx. apply (ri_owner c Hinv), Hsame; [|done]. destruct Hx as [[? ?] _]. simpl in *. lia.
Qed.

Lemma step_producer_inv c tid :
  ring_inv c -> tail (rq c) + capacity (rq c) < 2 ^ 64 ->
  ring_inv (setProducer c tid (producerStep (rq c) (producers c tid)).1
    (producerStep (rq c) (producers c tid)).2 (ready c || isSignal (producers c tid))
    (claimsAfter c (producers c tid))).
Proof.
  intros Hinv Hb. pose proof (ri_producers c Hinv tid) as Hok. pose proof (ri_window c Hinv) as Hwin.
  destruct (producers c tid) as [|r|r p|r p|v p|p|p| |ok] eqn:Hpc;
    unfold claimsAfter; simpl in *; rewrite ?orb_false_r, ?orb_true_r.
  - apply inv_producer_pc; rewrite ?Hpc; naive_solver.
  - apply inv_producer_pc; rewrite ?Hpc; simpl; try done; [lia|naive_solver].
  - destruct (observed_sequence c p Hinv Hok) as [Heq _].
    repeat case_decide; simpl; apply inv_producer_pc; rewrite ?Hpc; naive_solver.
  - case_decide as Ht; simpl; [by apply inv_claim|].
    apply inv_producer_pc; rewrite ?Hpc; naive_solver.
  - rewrite <- (list_insert_id (claims c) (Z.to_nat p) v) by apply Hok.
    apply inv_store_value; [done|by rewrite Hpc|by right].
  - apply inv_producer_pc; rewrite ?Hpc; naive_solver.
  - by apply inv_publish.
  - apply inv_producer_pc; rewrite ?Hpc; naive_solver.
  - apply inv_producer_pc; rewrite ?Hpc; naive_solver.
Qed.

Lemma take_claim c p : ring_inv c -> published c p -> ~ cleared c p ->
  take (Z.to_nat p) (claims c) ++ [valueAt (rq c) p] = take (Z.to_nat (p + 1)) (claims c).
Proof.
  intros Hinv Hp Hncl. pose proof (ri_value c Hinv p Hp Hncl) as Hv. pose proof (ri_window c Hinv).
  destruct Hp as [Hp _]. rewrite Z2Nat.inj_add, Nat.add_1_r by lia. by rewrite (take_S_r _ _ _ Hv).
Qed.

Lemma head_published c : ring_inv c -> freed c = head (rq c) ->
  seqAt (rq c) (head (rq c)) = head (rq c) + 1 -> published c (head (rq c)).
Proof.
  intros Hinv Hf Hs. pose proof (ri_window c Hinv). pose proof (capacity_ge _ (ri_shape c Hinv)).
  destruct (ri_seq c Hinv (head (rq c))) as [|[? _]]; [lia..|]. split; [lia|done].
Qed.

(** The consumer looks at the oldest position. *)
Lemma inv_look c k p : ring_inv c -> tail (rq c) + capacity (rq c) < 2 ^ 64 ->
  consumer c = CLoadSeq k p ->
  ring_inv (setConsumer c (rq c) (consumerStep (rq c) (CLoadSeq k p)).2 (ready c) (takenAfter c)).
Proof.
  intros Hinv Hb Hpc. pose proof (ri_consumer c Hinv) as Hok. unfold consumer_ok in Hok.
  rewrite Hpc in Hok. subst p. assert (Hf : freed c = head (rq c)) by (unfold freed; by rewrite Hpc).
  pose proof (ri_window c Hinv) as Hwin. pose proof (capacity_ge _ (ri_shape c Hinv)) as Hcap.
  pose proof (ri_taken c Hinv) as Htk. pose proof (ri_count c Hinv) as Hcnt.
  unfold takenCount in Htk, Hcnt. rewrite Hpc in Htk, Hcnt.
  assert (Hncl : forall p, ~ cleared c p) by (intros p; unfold cleared; rewrite Hpc; tauto).
  unfold takenAfter. rewrite Hpc. simpl. rewrite (u64_small (head (rq c) + 1)) by in_range.
  destruct (decide (seqAt (rq c) (head (rq c)) <> head (rq c) + 1)) as [Hs|Hs]; simpl.
  - destruct k; apply inv_consumer_pc; try done; unfold freed; simpl; try (by rewrite Hpc);
      solve [intros _ [_ ?]; done | intros ?; tauto].
  - assert (Hs' : seqAt (rq c) (head (rq c)) = head (rq c) + 1) by lia.
    pose proof (head_published c Hinv Hf Hs') as Hpub.
    pose proof (take_claim c (head (rq c)) Hinv Hpub (Hncl _)) as Htc. pose proof Hpub as [Hlt _].
    destruct k; apply inv_consumer_pc; try done; unfold freed; simpl; try (by rewrite Hpc);
      try (intros ?; tauto).
    + split; [done|]. unfold published, freed. simpl. split; [lia|done].
    + unfold takenCount. simpl. lia.
    + by rewrite Htk, Htc.
    + split; [done|]. unfold published, freed. simpl. split; [lia|done].
Qed.

Lemma step_consumer_inv c :
  ring_inv c -> tail (rq c) + capacity (rq c) < 2 ^ 64 ->
  ring_inv (setConsumer c (consumerStep (rq c) (consumer c)).1
    (consumerStep (rq c) (consumer c)).2 (ready c) (takenAfter c)).
Proof.
  intros Hinv Hb. pose proof (ri_consumer c Hinv) as Hok.
  pose proof (ri_taken c Hinv) as Htk. pose proof (ri_count c Hinv) as Hcnt.
  pose proof (ri_signal c Hinv) as Hsig. pose proof (inv_look c) as Hlook.
  unfold takenAfter in *. unfold consumer_ok in Hok. unfold takenCount in Htk, Hcnt.
  destruct (consumer c) as [|k|k p| |p|p| |p|p|p] eqn:Hpc.
  3:{ replace ((consumerStep _ _).1) with (rq c) by (simpl; by case_decide). by apply Hlook. }
  all: try (by apply inv_zero); try (by apply inv_store_head); try (by apply inv_free_slot); simpl.
  all: apply inv_consumer_pc; unfold freed, cleared; simpl; rewrite ?Hpc; try done; try naive_solver.
  - unfold takenCount. simpl. destruct Hok as [-> [? _]]. lia.
  - unfold takenCount. simpl. destruct Hok as [-> Hok]. rewrite Htk. apply take_claim; [done..|].
    unfold cleared. rewrite Hpc. tauto.
  - unfold consumer_ok, published, freed in *. simpl. by rewrite Hpc in Hok.
  - unfold consumer_ok, published, freed in *. simpl. by rewrite Hpc in Hok.
  - unfold consumer_ok, published, freed in *. simpl. by rewrite Hpc in Hok.
Qed.

Lemma ring_step_inv c c' :
  ring_inv c -> ring_step c c' -> tail (rq c) + capacity (rq c) < 2 ^ 64 -> ring_inv c'.
Proof.
  intros Hinv Hstep Hb. pose proof (ri_consumer c Hinv) as Hok.
  pose proof (ri_taken c Hinv) as Htk. pose proof (ri_count c Hinv) as Hcnt.
  unfold consumer_ok in Hok. unfold takenCount in Htk, Hcnt. destruct Hstep.
  - apply inv_producer_pc; try done; destruct (producers c tid); naive_solver.
  - by apply step_producer_inv.
  - apply inv_store_value; [done|by rewrite H|by left].
  - pose proof (ri_producers c Hinv tid) as Hp. rewrite H in Hp.
    apply inv_producer_pc; rewrite ?H; naive_solver.
  - rewrite H in *. apply inv_consumer_pc; unfold freed, cleared; simpl; rewrite ?H; solve [done|tauto].
  - by apply step_consumer_inv.
  - rewrite H in *. apply inv_consumer_pc; unfold freed, cleared; simpl; rewrite ?H; try done; try tauto.
    destruct Hok as [-> Hok]. unfold consumer_ok, published, freed in *. simpl. by rewrite H in Hok.
  - rewrite H in *. apply inv_consumer_pc; unfold freed, cleared; simpl; rewrite ?H; solve [done|tauto].
  - rewrite H in *. apply inv_consumer_pc; unfold freed, cleared; simpl; rewrite ?H; solve [done|tauto].
Qed.

Lemma ring_step_claims c c' : ring_step c c' ->
  capacity (rq c') = capacity (rq c) /\ (length (claims c) <= length (claims c'))%nat.
Proof.
  intros []; simpl; rewrite ?length_insert; try (split; [done|lia]).
  - destruct (producers c tid); simpl; repeat case_decide; simpl; rewrite ?length_app; split; done || lia.
  - destruct (consumer c); simpl; repeat case_decide; simpl; split; done || lia.
Qed.

Lemma init_inv q cap : newRing cap = Some q -> ring_inv (ring_init q).
Proof.
  unfold newRing, minimumCapacity. case_decide as Hbad; [done|]. intros [= <-].
  assert (Hc : 2 <= cap) by lia. assert (Hland : Z.land cap (cap - 1) = 0) by lia.
  destruct (land_pred_pow2 cap) as (k & Hk & Hpow); [lia|done|].
  assert (1 <= k) by (destruct (decide (k = 0)) as [->|]; [simpl in Hpow; lia|lia]).
  assert (Hshape : shape_ok (rq (ring_init (mkRing 0 0
    ((fun i => mkSlot (Z.of_nat i) zero) <$> seq 0 (Z.to_nat cap)) (cap - 1) cap)))).
  { split; simpl; [eauto|done|]. by rewrite length_fmap, length_seq. }
  assert (Hslot : forall p, 0 <= p < cap -> slotAt (rq (ring_init (mkRing 0 0
    ((fun i => mkSlot (Z.of_nat i) zero) <$> seq 0 (Z.to_nat cap)) (cap - 1) cap))) p = mkSlot p zero).
  { intros p Hp. unfold slotAt. rewrite slotIndex_mod by done. simpl.
    rewrite Z.mod_small, list_lookup_fmap, lookup_seq_lt by lia. simpl. by rewrite Z2Nat.id by lia. }
  split; try done; simpl; unfold freed, published, owned, seqAt, valueAt; simpl; try lia.
  - intros p Hp. left. by rewrite Hslot by lia.
  - intros p [Hp _]. change (0 <= p < 0) in Hp. lia.
  - intros p Hp. by rewrite Hslot by lia.
  - intros p [Hp _]. change (0 <= p < 0) in Hp. lia.
Qed.

Lemma ring_reachable_inv q cap c :
  newRing cap = Some q -> ring_reachable q c ->
  capacity (rq c) = cap /\
  (Z.of_nat (length (claims c)) + cap < 2 ^ 64 -> ring_inv c).
Proof.
  intros Hq Hreach. induction Hreach as [|c c' _ [IHc IH] Hstep].
  - pose proof (init_inv q cap Hq) as Hi. split; [|done]. revert Hq. unfold newRing.
    case_decide; [done|]. by intros [= <-].
  - destruct (ring_step_claims c c' Hstep) as [Hcap Hlen]. rewrite Hcap. split; [done|]. intros Hb.
    assert (Hinv : ring_inv c) by (apply IH; lia). apply (ring_step_inv c); [done..|].
    rewrite (ri_tail c Hinv). lia.
Qed.

(** ** Calls that run alone *)

Lemma ring_reachable_trans q c c' :
  ring_reachable q c -> rtc ring_step c c' -> ring_reachable q c'.
Proof. intros Hr. induction 1 as [|c1 c2 c3 Hs _ IH]; [done|]. apply IH. by eapply ring_reach_step. Qed.

Lemma quiescent_published c p :
  ring_inv c -> quiescent c -> head (rq c) <= p < tail (rq c) -> published c p.
Proof.
  intros Hinv [Hp Hc] Hr. assert (Hf : freed c = head (rq c)) by (unfold freed; by rewrite Hc).
  pose proof (ri_window c Hinv) as Hwin.
  destruct (ri_seq c Hinv p) as [Hs|[? ?]]; [lia| |split; [lia|done]].
  destruct (ri_owner c Hinv p) as [t Ht]; [split; [lia|done]|].
  specialize (Hp t). by destruct (producers c t).
Qed.

Lemma length_taken c : ring_inv c -> quiescent c -> Z.of_nat (length (taken c)) = head (rq c).
Proof.
  intros Hinv [_ Hc]. pose proof (ri_tail c Hinv). pose proof (ri_count c Hinv) as Hn.
  pose proof (ri_window c Hinv) as Hw. unfold takenCount, freed in *. rewrite Hc in *.
  rewrite (ri_taken c Hinv). unfold takenCount. rewrite Hc, length_take. lia.
Qed.

Lemma length_waiting c : ring_inv c -> quiescent c ->
  Z.of_nat (length (waiting c)) = tail (rq c) - head (rq c).
Proof.
  intros Hinv Hq. unfold waiting. rewrite length_drop. pose proof (length_taken c Hinv Hq).
  pose proof (ri_tail c Hinv). pose proof (ri_window c Hinv). destruct Hq as [_ Hc].
  unfold freed in *. rewrite Hc in *. lia.
Qed.

Lemma step_producer_to c tid pc q' pc' :
  producers c tid = pc -> producerStep (rq c) pc = (q', pc') ->
  ring_step c (setProducer c tid q' pc' (ready c || isSignal pc) (claimsAfter c pc)).
Proof.
  intros Hpc Hs. pose proof (step_producer c tid) as Hstep. rewrite Hpc, Hs in Hstep. done.
Qed.

Lemma step_consumer_to c pc q' pc' tk :
  consumer c = pc -> consumerStep (rq c) pc = (q', pc') -> takenAfter c = tk ->
  ring_step c (setConsumer c q' pc' (ready c) tk).
Proof.
  intros Hpc Hs Ht. pose proof (step_consumer c) as Hstep. rewrite Hpc, Hs, Ht in Hstep. done.
Qed.

Ltac producer_move :=
  eapply rtc_l; [apply (step_producer_to _ 0);
    [simpl; apply fn_lookup_insert|simpl; rewrite ?decide_True by done; reflexivity]|].
Ltac consumer_move :=
  eapply rtc_l; [eapply step_consumer_to;
    [reflexivity|simpl; rewrite ?decide_False by done; reflexivity|reflexivity]|].

(** The steps of a [TryEnqueue] that nothing overlaps. *)
Lemma enqueue_steps c v :
  quiescent c -> seqAt (rq c) (tail (rq c)) = tail (rq c) ->
  exists c', rtc ring_step c c' /\ quiescent c' /\
    tryEnqueue (rq c) v = Some (rq c', true) /\
    claims c' = claims c ++ [v] /\ taken c' = taken c.
Proof.
  intros [Hp Hc] Hs. eexists. split; [|split_and!].
  - eapply rtc_l; [apply (step_call _ 0 (Some v)), Hp|].
    do 6 producer_move. apply rtc_refl.
  - split; [|done]. intros tid. simpl. destruct (decide (0%nat = tid)) as [<-|Hne];
      [by rewrite fn_lookup_insert|by rewrite !fn_lookup_insert_ne by done].
  - unfold tryEnqueue. simpl. by rewrite decide_True.
  - simpl. by rewrite decide_True.
  - done.
Qed.

(** A value published while the consumer is about to wait. *)
Lemma enqueue_while_waiting c v :
  (forall tid, producers c tid = PIdle) -> consumer c = CEmpty ->
  seqAt (rq c) (tail (rq c)) = tail (rq c) ->
  exists c', rtc ring_step c c' /\ claims c' = claims c ++ [v] /\ consumer c' = CEmpty /\
    head (rq c') = head (rq c) /\ tail (rq c') = u64 (tail (rq c) + 1) /\
    (forall tid p, holding (producers c' tid) <> Some p).
Proof.
  intros Hp Hc Hs. eexists. split; [|split_and!].
  - eapply rtc_l; [apply (step_call _ 0 (Some v)); by rewrite Hp|].
    do 5 producer_move. apply rtc_refl.
  - simpl. by rewrite decide_True.
  - done.
  - done.
  - done.
  - intros tid p. simpl. destruct (decide (0%nat = tid)) as [<-|Hne];
      [by rewrite fn_lookup_insert|by rewrite !fn_lookup_insert_ne, Hp by done].
Qed.

(** The steps of a [TryDequeue] that nothing overlaps. *)
Lemma dequeue_steps c :
  quiescent c -> seqAt (rq c) (head (rq c)) = u64 (head (rq c) + 1) ->
  exists c', rtc ring_step c c' /\ quiescent c' /\
    tryDequeue (rq c) = (rq c', Some (valueAt (rq c) (head (rq c)))) /\
    claims c' = claims c /\ taken c' = taken c ++ [valueAt (rq c) (head (rq c))].
Proof.
  intros [Hp Hc] Hs. eexists. split; [|split_and!].
  - eapply rtc_l; [by apply (step_dequeue _ takeValue)|].
    assert (Hd : ~ (seqAt (rq c) (head (rq c)) <> u64 (head (rq c) + 1))) by lia.
    do 6 consumer_move. apply rtc_refl.
  - by split.
  - unfold tryDequeue. by rewrite decide_False by lia.
  - done.
  - done.
Qed.

End Ring.

(** ** Theorems *)

(** A ring of two slots, and a run in which the value 7 waits. *)
Definition demoRing : @ring Z := default (mkRing 0 0 [] 0 0) (newRing 0 2).

Lemma demoRing_new : newRing 0 2 = Some demoRing.
Proof. reflexivity. Qed.

Lemma demo_waiting : exists c, ring_reachable 0 demoRing c /\ quiescent c /\
  claims c = [7] /\ taken c = [] .
Proof.
  destruct (enqueue_steps 0 (ring_init demoRing) 7) as (c & Hr & Hq & _ & Hcl & Ht);
    [by split|reflexivity|].
  exists c. split_and!; [|done..]. eapply ring_reachable_trans; [apply ring_reach_init|done].
Qed.

(** C6: the ring is a FIFO without loss or duplication. In every interleaving
    of producers and the consumer, the values handed to the consumer are a
    prefix of the claimed ones, in claim order; never more than the capacity of
    positions is claimed and not given back; and while the consumer works on a
    slot in place, the slot holds the value it was handed. The positions must
    not have wrapped around 64 bits. *)
Theorem ring_fifo {T} (zero : T) cap q c :
  newRing zero cap = Some q -> ring_reachable zero q c ->
  Z.of_nat (length (claims c)) + cap < 2 ^ 64 ->
  taken c = take (length (taken c)) (claims c) /\
  0 <= tail (rq c) - freed c <= cap /\
  (forall p, consumer c = CHold p -> exists l, taken c = l ++ [valueAt zero (rq c) p]).
Proof.
  intros Hq Hr Hb. destruct (ring_reachable_inv zero q cap c Hq Hr) as [Hc Hinv].
  specialize (Hinv Hb). pose proof (ri_window _ _ Hinv) as Hw. rewrite Hc in Hw.
  pose proof (ri_taken _ _ Hinv) as Ht. pose proof (ri_tail _ _ Hinv) as Htl.
  pose proof (ri_count _ _ Hinv) as Hn. split_and!; [|lia..|].
  - rewrite Ht at 2. rewrite length_take, Ht.
    symmetry. rewrite Nat.min_l; [done|lia].
  - intros p Hp. pose proof (ri_consumer _ _ Hinv) as Hok. unfold consumer_ok in Hok.
    rewrite Hp in Hok. destruct Hok as [-> Hpub].
    rewrite Ht. unfold takenCount. rewrite Hp.
    rewrite <- (take_claim zero c); [by eexists|done..|]. unfold cleared. rewrite Hp. tauto.
Qed.

Lemma ring_fifo_witness :
  exists c, ring_reachable 0 demoRing c /\ claims c = [7] /\
  taken c = take (length (taken c)) (claims c) /\ 0 <= tail (rq c) - freed c <= 2 /\
  (forall p, consumer c = CHold p -> exists l, taken c = l ++ [valueAt 0 (rq c) p]).
Proof.
  destruct demo_waiting as (c & Hr & _ & Hcl & _). exists c. split; [done|]. split; [done|].
  apply (ring_fifo 0 2 demoRing c); [apply demoRing_new|done|]. rewrite Hcl. simpl. lia.
Defined.

(** Refusals are justified. A producer that is told the ring is full saw it
    with all its positions claimed and not given back; a consumer that is told
    nothing is available saw it empty or with its oldest position still owned
    by a producer. *)
Theorem ring_refusals_justified {T} (zero : T) cap q c :
  newRing zero cap = Some q -> ring_reachable zero q c ->
  Z.of_nat (length (claims c)) + cap < 2 ^ 64 ->
  (forall tid r p, producers c tid = PLoadSeq r p ->
     (producerStep zero (rq c) (producers c tid)).2 = PReturn false ->
     tail (rq c) = freed c + cap) /\
  (forall k p, consumer c = CLoadSeq k p ->
     (consumerStep zero (rq c) (consumer c)).2 = CEmpty ->
     head (rq c) = tail (rq c) \/
     exists tid, holding (producers c tid) = Some (head (rq c))).
Proof.
  intros Hq Hr Hb. destruct (ring_reachable_inv zero q cap c Hq Hr) as [Hc Hinv].
  specialize (Hinv Hb). pose proof (ri_window _ _ Hinv) as Hw. rewrite Hc in Hw.
  pose proof (capacity_ge _ (ri_shape _ _ Hinv)) as Hcap. pose proof (ri_tail _ _ Hinv) as Htl. split.
  - intros tid r p Hpc Hs. pose proof (ri_producers _ _ Hinv tid) as Hok. rewrite Hpc in Hok, Hs.
    destruct (observed_sequence zero c p Hinv Hok) as [_ Hfull]. simpl in Hs.
    repeat case_decide; try done. rewrite <- Hc. by apply Hfull.
  - intros k p Hpc Hs. pose proof (ri_consumer _ _ Hinv) as Hok. unfold consumer_ok in Hok.
    rewrite Hpc in Hok, Hs. subst p. assert (Hf : freed c = head (rq c)) by (unfold freed; by rewrite Hpc).
    destruct (decide (head (rq c) = tail (rq c))) as [|Hne]; [by left|right]. simpl in Hs.
    rewrite u64_small in Hs by in_range. case_decide as Hd; [|by destruct k].
    apply (ri_owner _ _ Hinv). split; [lia|].
    destruct (ri_seq _ _ Hinv (head (rq c))) as [|[_ ?]]; [lia|done|done].
Qed.

Lemma ring_refusals_justified_witness :
  (forall tid r p, producers (ring_init demoRing) tid = PLoadSeq r p ->
     (producerStep 0 demoRing (producers (ring_init demoRing) tid)).2 = PReturn false ->
     tail demoRing = freed (ring_init demoRing) + 2) /\
  (forall k p, consumer (ring_init demoRing) = CLoadSeq k p ->
     (consumerStep 0 demoRing (consumer (ring_init demoRing))).2 = CEmpty ->
     head demoRing = tail demoRing \/
     exists tid, holding (producers (ring_init demoRing) tid) = Some (head demoRing)).
Proof.
  apply (ring_refusals_justified 0 2 demoRing (ring_init demoRing));
    [apply demoRing_new|apply ring_reach_init|simpl; lia].
Defined.

(** C18: no wake-up is lost. A consumer that found nothing and is about to wait
    on [Ready] while its next value has meanwhile been published finds the
    signal in the channel, or a producer is about to send it. *)
Theorem ring_no_lost_wakeup {T} (zero : T) cap q c :
  newRing zero cap = Some q -> ring_reachable zero q c ->
  Z.of_nat (length (claims c)) + cap < 2 ^ 64 ->
  consumer c = CEmpty -> head (rq c) < tail (rq c) ->
  (forall tid, holding (producers c tid) <> Some (head (rq c))) ->
  ready c = true \/ exists tid, producers c tid = PSignal.
Proof.
  intros Hq Hr Hb He Hlt Hno. destruct (ring_reachable_inv zero q cap c Hq Hr) as [Hc Hinv].
  specialize (Hinv Hb). assert (Hf : freed c = head (rq c)) by (unfold freed; by rewrite He).
  pose proof (ri_window _ _ Hinv) as Hw. apply (ri_signal _ _ Hinv He). split; [lia|].
  destruct (ri_seq _ _ Hinv (head (rq c))) as [Hs|[_ ?]]; [lia| |done].
  destruct (ri_owner _ _ Hinv (head (rq c))) as [t Ht]; [split; [lia|done]|]. by destruct (Hno t).
Qed.

Lemma ring_no_lost_wakeup_witness :
  exists c, ring_reachable 0 demoRing c /\ consumer c = CEmpty /\
    head (rq c) < tail (rq c) /\ (ready c = true \/ exists tid, producers c tid = PSignal).
Proof.
  set (look := mkCfg demoRing (fun _ => PIdle) CEmpty false [] []).
  assert (Hlook : ring_reachable 0 demoRing look).
  { eapply ring_reachable_trans; [apply ring_reach_init|].
    eapply rtc_l; [by apply (step_dequeue _ _ takeValue)|].
    do 2 (eapply rtc_l; [apply step_consumer|]). apply rtc_refl. }
  destruct (enqueue_while_waiting 0 look 7) as (c & Hst & Hcl & He & Hh & Ht & Hno); [done..|].
  assert (Hr : ring_reachable 0 demoRing c) by by eapply ring_reachable_trans.
  assert (Hlt : head (rq c) < tail (rq c)) by (rewrite Hh, Ht; reflexivity).
  exists c. split; [done|]. split; [done|]. split; [done|].
  apply (ring_no_lost_wakeup 0 2 demoRing c);
    [apply demoRing_new|done|rewrite Hcl; simpl; lia|done|done|done].
Defined.

(** Calls that do not overlap see a bounded queue. [TryEnqueue] appends and
    reports true exactly while fewer than the capacity of values wait, and
    otherwise refuses and changes nothing; [TryDequeue] returns the oldest
    waiting value, and nothing from an empty ring. *)
Theorem ring_sequential_queue {T} (zero : T) cap q c v :
  newRing zero cap = Some q -> ring_reachable zero q c -> quiescent c ->
  Z.of_nat (length (claims c)) + cap < 2 ^ 64 ->
  (if decide (Z.of_nat (length (waiting c)) < cap) then
     exists c', ring_reachable zero q c' /\ quiescent c' /\
       tryEnqueue zero (rq c) v = Some (rq c', true) /\ waiting c' = waiting c ++ [v]
   else tryEnqueue zero (rq c) v = Some (rq c, false)) /\
  match waiting c with
  | [] => tryDequeue zero (rq c) = (rq c, None)
  | x :: w => exists c', ring_reachable zero q c' /\ quiescent c' /\
       tryDequeue zero (rq c) = (rq c', Some x) /\ waiting c' = w
  end.
Proof.
  intros Hq Hr Hqs Hb. destruct (ring_reachable_inv zero q cap c Hq Hr) as [Hc Hinv].
  specialize (Hinv Hb). pose proof (ri_window _ _ Hinv) as Hw. rewrite Hc in Hw.
  pose proof (capacity_ge _ (ri_shape _ _ Hinv)) as Hcap. pose proof (ri_tail _ _ Hinv) as Htl.
  pose proof (length_waiting _ c Hinv Hqs) as Hlen. pose proof (length_taken _ c Hinv Hqs) as Htk.
  assert (Hf : freed c = head (rq c)) by (unfold freed; destruct Hqs as [_ Hx]; by rewrite Hx).
  split.
  - case_decide as Hd.
    + destruct (enqueue_steps zero c v Hqs) as (c' & Hst & Hq' & Hte & Hcl & Ht).
      { destruct (ri_seq _ _ Hinv (tail (rq c))) as [|[? _]]; [lia|done|lia]. }
      exists c'. split_and!; [by eapply ring_reachable_trans|done..|].
      unfold waiting. rewrite Hcl, Ht. apply drop_app_le. lia.
    + unfold tryEnqueue. simpl. pose proof (full_sequence zero c Hinv ltac:(lia)) as Hfull.
      rewrite decide_False, decide_True by lia. done.
  - unfold waiting in *. destruct (drop (length (taken c)) (claims c)) as [|x w] eqn:Hdrop; simpl in Hlen.
    + unfold tryDequeue. rewrite u64_small, decide_True; [done| |in_range].
      destruct (ri_seq _ _ Hinv (head (rq c))) as [|[? _]]; lia.
    + assert (Hpub : published zero c (head (rq c))) by (apply quiescent_published; [done..|lia]).
      pose proof Hpub as [_ Hs]. assert (Hx : claimAt c (head (rq c)) = Some x).
      { unfold claimAt. rewrite <- Htk, Nat2Z.id, <- (Nat.add_0_r (length _)), <- lookup_drop.
        by rewrite Hdrop. }
      rewrite (ri_value _ _ Hinv _ Hpub) in Hx
        by (unfold cleared; destruct Hqs as [_ Hcs]; rewrite Hcs; tauto).
      destruct (dequeue_steps zero c Hqs) as (c' & Hst & Hq' & Htd & Hcl & Ht).
      { rewrite u64_small by in_range. done. }
      injection Hx as <-. exists c'. split_and!; [by eapply ring_reachable_trans|done..|].
      rewrite Hcl, Ht, length_app. simpl. rewrite Nat.add_1_r, <- (Nat.add_1_r (length _)).
      rewrite <- drop_drop, Hdrop. done.
Qed.

Lemma ring_sequential_queue_witness :
  exists c, claims c = [7] /\ waiting c = [7] /\
  (exists c', ring_reachable 0 demoRing c' /\ quiescent c' /\
     tryEnqueue 0 (rq c) 8 = Some (rq c', true) /\ waiting c' = [7; 8]) /\
  (exists c', ring_reachable 0 demoRing c' /\ quiescent c' /\
     tryDequeue 0 (rq c) = (rq c', Some 7) /\ waiting c' = []).
Proof.
  destruct demo_waiting as (c & Hr & Hq & Hcl & Ht). exists c.
  assert (Hw : waiting c = [7]) by (unfold waiting; by rewrite Hcl, Ht).
  split; [done|]. split; [done|].
  pose proof (ring_sequential_queue 0 2 demoRing c 8) as H. rewrite Hcl, Hw in H.
  apply H; [apply demoRing_new|done|done|simpl; lia].
Defined.
