(* ===== verification/Wire.v ===== *)
(** * The wire schema (src/fbs/redlease/v1/redlease_generated.go)

    The generated accessors and builders of the two root tables and of their
    structs. The FlatBuffers runtime is not part of the repository: the class
    [FlatBuffers] holds what the generated code uses of it, [FlatBuffersLaws]
    what its documentation promises of buffers it built itself. Reading a byte
    outside a buffer panics, which is [None]. *)

From S2P Require Import Prelude Protocol.
From stdpp Require Import base gmap list numbers tactics.

#[local] Open Scope Z_scope.

(** ** Little-endian scalars *)

Fixpoint leBytes (n : nat) (z : Z) : list Z :=
  match n with
  | O => []
  | S n => z mod 256 :: leBytes n (z / 256)
  end.

Fixpoint leVal (bs : list Z) : Z :=
  match bs with
  | [] => 0
  | b :: bs => b + 256 * leVal bs
  end.

(** [buf[off:off+n]] *)
Definition slice (buf : list Z) (off : Z) (n : nat) : option (list Z) :=
  if decide (0 <= off /\ off + Z.of_nat n <= Z.of_nat (length buf))
  then Some (take n (drop (Z.to_nat off) buf)) else None.

Definition getUint64 (buf : list Z) (off : Z) : option Z := leVal <$> slice buf off 8.
Definition getUint32 (buf : list Z) (off : Z) : option Z := leVal <$> slice buf off 4.
Definition getByte (buf : list Z) (off : Z) : option Z := leVal <$> slice buf off 1.

(** ** The FlatBuffers runtime *)

(** A table under construction: the bytes of each slot that was set. *)
Notation fbTable := (gmap nat (list Z)).

Class FlatBuffers := {
  (** [Builder.FinishSizePrefixed] and [FinishedBytes] of a finished table *)
  fbFinish : fbTable -> list Z;
  (** [Table.Offset]: buffer, position of the table, vtable offset of the slot *)
  fbOffset : list Z -> Z -> Z -> option Z
}.

(** The tables of the schema have at most six slots of at most 32 bytes. *)
Definition schemaTable (t : fbTable) : Prop :=
  forall k bs, t !! k = Some bs -> (k < 6)%nat /\ (length bs <= 32)%nat /\ Forall is_u8 bs.

Definition SizeUint32 : Z := 4.

Class FlatBuffersLaws `{FlatBuffers} := {
  (** A finished buffer starts with the length of the rest, and a table of this
      schema fits in one frame. *)
  fb_prefix t : schemaTable t -> exists payload,
    fbFinish t = leBytes 4 (Z.of_nat (length payload)) ++ payload /\
    4 <= Z.of_nat (length payload) <= 1020;
  (** The root offset leads to a table whose slots hold what was stored. *)
  fb_slots t : schemaTable t -> exists n,
    getUint32 (fbFinish t) SizeUint32 = Some n /\
    forall k, (k < 6)%nat ->
      exists o, fbOffset (fbFinish t) (u32 (n + SizeUint32)) (4 + 2 * Z.of_nat k) = Some o /\
        match t !! k with
        | None => o = 0
        | Some bs => o <> 0 /\ slice (fbFinish t) (u32 (o + u32 (n + SizeUint32))) (length bs) = Some bs
                     /\ u32 (o + u32 (n + SizeUint32)) + Z.of_nat (length bs) < 2 ^ 32
        end
}.

(** ** Building *)

Definition prependUint64 (x : Z) (bs : list Z) : list Z := leBytes 8 x ++ bs.
Definition prependUint32 (x : Z) (bs : list Z) : list Z := leBytes 4 x ++ bs.
Definition prependByte (x : Z) (bs : list Z) : list Z := leBytes 1 x ++ bs.
Definition pad (n : nat) (bs : list Z) : list Z := replicate n 0 ++ bs.

(** Scalars equal to the default of the schema are not stored. *)
Definition PrependUint64Slot (k : nat) (x d : Z) (t : fbTable) : fbTable :=
  if decide (x = d) then t else <[k := leBytes 8 x]> t.
Definition PrependByteSlot (k : nat) (x d : Z) (t : fbTable) : fbTable :=
  if decide (x = d) then t else <[k := leBytes 1 x]> t.
Definition PrependStructSlot (k : nat) (s : list Z) (t : fbTable) : fbTable := <[k := s]> t.

Definition CreateAcquireRequest (key clientId bootId leaseSeq requestedTtlMs : Z) : list Z :=
  prependUint64 key (prependUint32 clientId (prependUint32 bootId
    (prependUint64 leaseSeq (prependUint64 requestedTtlMs [])))).

Definition CreateRenewRequest (key clientId bootId leaseSeq requestedTtlMs : Z) : list Z :=
  prependUint64 key (prependUint32 clientId (prependUint32 bootId
    (prependUint64 leaseSeq (prependUint64 requestedTtlMs [])))).

Definition CreateReleaseRequest (key clientId bootId leaseSeq : Z) : list Z :=
  prependUint64 key (prependUint32 clientId (prependUint32 bootId (prependUint64 leaseSeq []))).

Definition CreateAcquireResponse (status ttlMs : Z) : list Z :=
  prependByte status (pad 7 (prependUint64 ttlMs [])).

Definition CreateRenewResponse (status ttlMs : Z) : list Z :=
  prependByte status (pad 7 (prependUint64 ttlMs [])).

Definition CreateReleaseResponse (status : Z) : list Z := prependByte status [].

Definition CreateGetTTLResponse (configuredMaxTtlMs : Z) : list Z :=
  prependUint64 configuredMaxTtlMs [].

Definition ClientRequestStart : fbTable := ∅.
Definition ClientRequestAddRequestId (requestId : Z) : fbTable -> fbTable :=
  PrependUint64Slot 0 requestId 0.
Definition ClientRequestAddOperation (operation : Z) : fbTable -> fbTable :=
  PrependByteSlot 1 operation 0.
Definition ClientRequestAddAcquire (s : list Z) : fbTable -> fbTable := PrependStructSlot 2 s.
Definition ClientRequestAddRenew (s : list Z) : fbTable -> fbTable := PrependStructSlot 3 s.
Definition ClientRequestAddRelease (s : list Z) : fbTable -> fbTable := PrependStructSlot 4 s.

Definition ServerResponseStart : fbTable := ∅.
Definition ServerResponseAddRequestId (requestId : Z) : fbTable -> fbTable :=
  PrependUint64Slot 0 requestId 0.
Definition ServerResponseAddResult (result : Z) : fbTable -> fbTable :=
  PrependByteSlot 1 result 0.
Definition ServerResponseAddAcquire (s : list Z) : fbTable -> fbTable := PrependStructSlot 2 s.
Definition ServerResponseAddRenew (s : list Z) : fbTable -> fbTable := PrependStructSlot 3 s.
Definition ServerResponseAddRelease (s : list Z) : fbTable -> fbTable := PrependStructSlot 4 s.
Definition ServerResponseAddGetTtl (s : list Z) : fbTable -> fbTable := PrependStructSlot 5 s.

(** ** Reading *)

(** A table or a struct inside a buffer: [_tab.Bytes] and [_tab.Pos]. *)
Record fbRef := mkRef { Bytes : list Z; Pos : Z }.

Section Reading.
Context `{FlatBuffers}.

Definition GetSizePrefixedRootAsClientRequest (buf : list Z) : option fbRef :=
  n ← getUint32 buf SizeUint32; Some (mkRef buf (u32 (n + SizeUint32))).
Definition GetSizePrefixedRootAsServerResponse (buf : list Z) : option fbRef :=
  n ← getUint32 buf SizeUint32; Some (mkRef buf (u32 (n + SizeUint32))).

(** The shape of every generated table accessor. *)
Definition uint64Field (vt : Z) (r : fbRef) : option Z :=
  o ← fbOffset (Bytes r) (Pos r) vt;
  if decide (o <> 0) then getUint64 (Bytes r) (u32 (o + Pos r)) else Some 0.
Definition byteField (vt : Z) (r : fbRef) : option Z :=
  o ← fbOffset (Bytes r) (Pos r) vt;
  if decide (o <> 0) then getByte (Bytes r) (u32 (o + Pos r)) else Some 0.
Definition structField (vt : Z) (r : fbRef) : option (option fbRef) :=
  o ← fbOffset (Bytes r) (Pos r) vt;
  Some (if decide (o <> 0) then Some (mkRef (Bytes r) (u32 (o + Pos r))) else None).

Definition ClientRequest_RequestId : fbRef -> option Z := uint64Field 4.
Definition ClientRequest_Operation : fbRef -> option Z := byteField 6.
Definition ClientRequest_Acquire : fbRef -> option (option fbRef) := structField 8.
Definition ClientRequest_Renew : fbRef -> option (option fbRef) := structField 10.
Definition ClientRequest_Release : fbRef -> option (option fbRef) := structField 12.

Definition ServerResponse_RequestId : fbRef -> option Z := uint64Field 4.
Definition ServerResponse_Result : fbRef -> option Z := byteField 6.
Definition ServerResponse_Acquire : fbRef -> option (option fbRef) := structField 8.
Definition ServerResponse_Renew : fbRef -> option (option fbRef) := structField 10.
Definition ServerResponse_Release : fbRef -> option (option fbRef) := structField 12.
Definition ServerResponse_GetTtl : fbRef -> option (option fbRef) := structField 14.

End Reading.

(** The fields of the structs, at their fixed offsets. *)
Definition uint64At (off : Z) (r : fbRef) : option Z := getUint64 (Bytes r) (u32 (Pos r + off)).
Definition uint32At (off : Z) (r : fbRef) : option Z := getUint32 (Bytes r) (u32 (Pos r + off)).
Definition byteAt (off : Z) (r : fbRef) : option Z := getByte (Bytes r) (u32 (Pos r + off)).

Definition AcquireRequest_Key : fbRef -> option Z := uint64At 0.
Definition AcquireRequest_ClientId : fbRef -> option Z := uint32At 8.
Definition AcquireRequest_BootId : fbRef -> option Z := uint32At 12.
Definition AcquireRequest_LeaseSeq : fbRef -> option Z := uint64At 16.
Definition AcquireRequest_RequestedTtlMs : fbRef -> option Z := uint64At 24.

Definition RenewRequest_Key : fbRef -> option Z := uint64At 0.
Definition RenewRequest_ClientId : fbRef -> option Z := uint32At 8.
Definition RenewRequest_BootId : fbRef -> option Z := uint32At 12.
Definition RenewRequest_LeaseSeq : fbRef -> option Z := uint64At 16.
Definition RenewRequest_RequestedTtlMs : fbRef -> option Z := uint64At 24.

Definition ReleaseRequest_Key : fbRef -> option Z := uint64At 0.
Definition ReleaseRequest_ClientId : fbRef -> option Z := uint32At 8.
Definition ReleaseRequest_BootId : fbRef -> option Z := uint32At 12.
Definition ReleaseRequest_LeaseSeq : fbRef -> option Z := uint64At 16.

Definition AcquireResponse_Status : fbRef -> option Z := byteAt 0.
Definition AcquireResponse_TtlMs : fbRef -> option Z := uint64At 8.
Definition RenewResponse_Status : fbRef -> option Z := byteAt 0.
Definition RenewResponse_TtlMs : fbRef -> option Z := uint64At 8.
Definition ReleaseResponse_Status : fbRef -> option Z := byteAt 0.
Definition GetTTLResponse_ConfiguredMaxTtlMs : fbRef -> option Z := uint64At 0.

(** ** A plain layout

    A realisation of the runtime interface that meets its laws: six fixed
    blocks of 33 bytes, a presence byte and the padded contents. *)

Definition plainBlock (t : fbTable) (k : nat) : list Z :=
  match t !! k with
  | None => replicate 33 0
  | Some bs => 1 :: bs ++ replicate (32 - length bs) 0
  end.

Definition plainPayload (t : fbTable) : list Z :=
  leBytes 4 4 ++ mjoin (plainBlock t <$> seq 0 6).

Definition plainBuffers : FlatBuffers := {|
  fbFinish t := leBytes 4 (Z.of_nat (length (plainPayload t))) ++ plainPayload t;
  fbOffset buf pos vt :=
    let k := (vt - 4) / 2 in
    b ← getByte buf (pos + 33 * k);
    Some (if decide (b = 0) then 0 else 33 * k + 1)
|}.

(** ** Lemmas on bytes *)

Lemma length_leBytes n z : length (leBytes n z) = n.
Proof. revert z. induction n as [|n IH]; intros z; [done|]. simpl. by rewrite IH. Qed.

Lemma leVal_leBytes n z : 0 <= z < 256 ^ Z.of_nat n -> leVal (leBytes n z) = z.
Proof.
  revert z. induction n as [|n IH]; intros z Hz; [simpl in *; lia|].
  rewrite Nat2Z.inj_succ, Z.pow_succ_r in Hz by lia. simpl. rewrite IH.
  - pose proof (Z.div_mod z 256). lia.
  - split; [apply Z.div_pos; lia|apply Z.div_lt_upper_bound; lia].
Qed.

Lemma leBytes_u8 n z : Forall is_u8 (leBytes n z).
Proof.
  revert z. induction n as [|n IH]; intros z; constructor; [|done].
  unfold is_u8. pose proof (Z.mod_pos_bound z 256). lia.
Qed.

(** A slice of a slice. *)
Lemma slice_sub buf off bs i n :
  slice buf off (length bs) = Some bs -> (i + n <= length bs)%nat ->
  slice buf (off + Z.of_nat i) n = Some (take n (drop i bs)).
Proof.
  unfold slice. case_decide as Hr; [|done]. intros [= Hbs] Hin.
  rewrite decide_True by lia. f_equal. rewrite <- Hbs.
  replace (Z.to_nat (off + Z.of_nat i)) with (Z.to_nat off + i)%nat by lia.
  rewrite skipn_firstn_comm, take_take, drop_drop. f_equal. lia.
Qed.

(** ** Reading back what was built *)

Lemma u32_add a b : 0 <= a -> 0 <= b -> a + b < 2 ^ 32 -> u32 (a + b) = a + b.
Proof. intros. apply u32_small. in_range. Qed.

Section RoundTrip.
Context `{FlatBuffersLaws}.

(** The reference to a struct inside a finished buffer. *)
Definition structAt (r : fbRef) (bs : list Z) : Prop :=
  0 <= Pos r /\ Pos r + Z.of_nat (length bs) < 2 ^ 32 /\
  slice (Bytes r) (Pos r) (length bs) = Some bs.

Lemma structAt_slice r bs off n :
  structAt r bs -> (off + n <= length bs)%nat ->
  slice (Bytes r) (u32 (Pos r + Z.of_nat off)) n = Some (take n (drop off bs)).
Proof.
  intros (Hp & Hlt & Hs) Hin. rewrite u32_add by lia. by apply slice_sub.
Qed.

(** What the accessors of a finished table return. *)
Record readsBack (t : fbTable) (r : fbRef) : Prop := {
  rb_uint64 k z : (k < 6)%nat -> 0 <= z < 2 ^ 64 -> t !! k = Some (leBytes 8 z) ->
    uint64Field (4 + 2 * Z.of_nat k) r = Some z;
  rb_byte k z : (k < 6)%nat -> 0 <= z < 2 ^ 8 -> t !! k = Some (leBytes 1 z) ->
    byteField (4 + 2 * Z.of_nat k) r = Some z;
  rb_absent64 k : (k < 6)%nat -> t !! k = None -> uint64Field (4 + 2 * Z.of_nat k) r = Some 0;
  rb_absent8 k : (k < 6)%nat -> t !! k = None -> byteField (4 + 2 * Z.of_nat k) r = Some 0;
  rb_struct k bs : (k < 6)%nat -> t !! k = Some bs ->
    exists s, structField (4 + 2 * Z.of_nat k) r = Some (Some s) /\ structAt s bs
}.

Lemma root_readsBack t : schemaTable t ->
  exists r, GetSizePrefixedRootAsClientRequest (fbFinish t) = Some r /\ readsBack t r.
Proof.
  intros Ht. destruct (fb_slots t Ht) as (n & Hn & Hslots). set (p := u32 (n + SizeUint32)) in *.
  exists (mkRef (fbFinish t) p). split; [unfold GetSizePrefixedRootAsClientRequest; by rewrite Hn|].
  split; intros k; [intros z Hk Hz Hl|intros z Hk Hz Hl|intros Hk Hl|intros Hk Hl|intros bs Hk Hl];
    destruct (Hslots k Hk) as (o & Ho & Hm); rewrite Hl in Hm;
    unfold uint64Field, byteField, structField; simpl Bytes; simpl Pos; rewrite Ho; simpl.
  - destruct Hm as (Hne & Hs & _). rewrite length_leBytes in Hs.
    rewrite decide_True by done. unfold getUint64. rewrite Hs.
    change (Some (leVal (leBytes 8 z)) = Some z). by rewrite leVal_leBytes.
  - destruct Hm as (Hne & Hs & _). rewrite length_leBytes in Hs.
    rewrite decide_True by done. unfold getByte. rewrite Hs.
    change (Some (leVal (leBytes 1 z)) = Some z). by rewrite leVal_leBytes.
  - rewrite decide_False; [done|]. by intros ?.
  - rewrite decide_False; [done|]. by intros ?.
  - destruct Hm as (Hne & Hs & Hlt). rewrite decide_True by done. eexists. split; [done|].
    split_and!; [|done..]. unfold u32. apply Z.mod_pos_bound. lia.
Qed.

End RoundTrip.

(** ** The plain layout meets the laws *)

Lemma length_plainBlock t k : schemaTable t -> length (plainBlock t k) = 33%nat.
Proof.
  intros Ht. unfold plainBlock. destruct (t !! k) as [bs|] eqn:Hk; [|done].
  destruct (Ht k bs Hk) as (_ & Hl & _). simpl. rewrite length_app, length_replicate. lia.
Qed.

Lemma take_drop_mjoin (bl : list (list Z)) n k b :
  Forall (fun x => length x = n) bl -> bl !! k = Some b ->
  take n (drop (n * k) (mjoin bl)) = b.
Proof.
  intros Hf. revert k. induction Hf as [|x bl Hx Hf IH]; intros k Hk; [done|].
  simpl. destruct k as [|k]; simpl in Hk.
  - injection Hk as <-. rewrite Nat.mul_0_r, drop_0, take_app_le, firstn_all2; [done|lia..].
  - rewrite drop_app_ge by lia. rewrite <- (IH k Hk). do 2 f_equal. lia.
Qed.

Lemma length_plainPayload t : schemaTable t -> length (plainPayload t) = 202%nat.
Proof.
  intros Ht. unfold plainPayload. simpl. rewrite !length_app, !length_plainBlock by done. done.
Qed.

Lemma plain_finish t : fbFinish (FlatBuffers:=plainBuffers) t =
  leBytes 4 (Z.of_nat (length (plainPayload t))) ++ plainPayload t.
Proof. done. Qed.

Lemma length_plain_finish t : schemaTable t ->
  length (fbFinish (FlatBuffers:=plainBuffers) t) = 206%nat.
Proof.
  intros Ht. rewrite plain_finish. by rewrite length_app, length_leBytes, length_plainPayload.
Qed.

Lemma plain_block_slice t k : schemaTable t -> (k < 6)%nat ->
  slice (fbFinish (FlatBuffers:=plainBuffers) t) (8 + 33 * Z.of_nat k) 33 = Some (plainBlock t k).
Proof.
  intros Ht Hk. unfold slice. rewrite length_plain_finish by done.
  rewrite decide_True by lia. f_equal.
  rewrite plain_finish. unfold plainPayload at 2. rewrite app_assoc.
  replace (Z.to_nat (8 + 33 * Z.of_nat k)) with (8 + 33 * k)%nat by lia.
  rewrite <- drop_drop, drop_app_length' by (by rewrite length_app, !length_leBytes).
  apply take_drop_mjoin.
  - apply list.Forall_forall. intros x (j & -> & _)%list_elem_of_fmap. by apply length_plainBlock.
  - rewrite list_lookup_fmap, lookup_seq_lt by done. done.
Qed.

Lemma plainBuffers_laws : FlatBuffersLaws (H:=plainBuffers).
Proof.
  split.
  - intros t Ht. exists (plainPayload t). split; [done|]. rewrite length_plainPayload by done. lia.
  - intros t Ht. exists 4. split.
    { unfold getUint32, slice, SizeUint32. rewrite length_plain_finish by done.
      by rewrite decide_True by lia. }
    change (u32 (4 + SizeUint32)) with 8. intros k Hk.
    pose proof (plain_block_slice t k Ht Hk) as Hb. pose proof (length_plainBlock t k Ht) as Hlen.
    rewrite <- Hlen in Hb. cbn [fbOffset plainBuffers].
    replace ((4 + 2 * Z.of_nat k - 4) / 2) with (Z.of_nat k)
      by (replace (4 + 2 * Z.of_nat k - 4) with (Z.of_nat k * 2) by lia; by rewrite Z.div_mul).
    unfold getByte.
    pose proof (slice_sub _ _ _ 0 1 Hb ltac:(lia)) as Hp. rewrite Z.add_0_r in Hp.
    rewrite Hp. unfold plainBlock in *.
    destruct (t !! k) as [bs|] eqn:Hk'.
    + exists (33 * Z.of_nat k + 1). split; [done|]. destruct (Ht k bs Hk') as (_ & Hl & _).
      rewrite (u32_add (33 * Z.of_nat k + 1) 8) by lia. split_and!; [lia| |lia].
      replace (33 * Z.of_nat k + 1 + 8) with (8 + 33 * Z.of_nat k + Z.of_nat 1) by lia.
      rewrite (slice_sub _ _ _ 1 (length bs) Hb) by lia. f_equal. simpl.
      by rewrite drop_0, take_app_length.
    + by eexists.
Qed.
