(* ===== verification/Codec.v ===== *)
(** * Encoding and decoding of messages

    Client side: [encodeRequest] (src/client/connection_generation.go), the
    request builders of the 1/1 client (src/client1of1/lease.go) and
    [DecodeResponse] (src/internal/transport/client_codec.go). Server side: the
    decoding part of [processRequest] (src/server/connection.go) and
    [encodeResponse] (src/server/response.go). *)

From S2P Require Import Prelude LeaseShard Protocol Server Wire.
From stdpp Require Import base gmap list numbers tactics.

#[local] Open Scope Z_scope.

(** ** Requests *)

Record outboundConnectionRequest := mkOutbound {
  req_requestID : Z;
  req_key : Z;
  req_sequence : Z;
  req_ttlMS : Z;
  req_clientID : Z;
  req_bootID : Z;
  req_operation : Z
}.

Section Codec.
Context `{FlatBuffers}.

Definition encodeRequest (r : outboundConnectionRequest) : list Z :=
  let t := ClientRequestAddOperation (req_operation r)
             (ClientRequestAddRequestId (req_requestID r) ClientRequestStart) in
  fbFinish
    (if decide (req_operation r = ClientOperationACQUIRE) then
       ClientRequestAddAcquire (CreateAcquireRequest (req_key r) (req_clientID r)
         (req_bootID r) (req_sequence r) (req_ttlMS r)) t
     else if decide (req_operation r = ClientOperationRENEW) then
       ClientRequestAddRenew (CreateRenewRequest (req_key r) (req_clientID r)
         (req_bootID r) (req_sequence r) (req_ttlMS r)) t
     else if decide (req_operation r = ClientOperationRELEASE) then
       ClientRequestAddRelease (CreateReleaseRequest (req_key r) (req_clientID r)
         (req_bootID r) (req_sequence r)) t
     else t).

(** The 1/1 client builds the same messages without an owned request. *)
Definition newAcquireRequest1of1 (requestID key clientID bootID sequence ttlMS : Z) : list Z :=
  fbFinish (ClientRequestAddAcquire (CreateAcquireRequest key clientID bootID sequence ttlMS)
    (ClientRequestAddOperation ClientOperationACQUIRE
      (ClientRequestAddRequestId requestID ClientRequestStart))).

Definition newRenewRequest1of1 (requestID key clientID bootID sequence ttlMS : Z) : list Z :=
  fbFinish (ClientRequestAddRenew (CreateRenewRequest key clientID bootID sequence ttlMS)
    (ClientRequestAddOperation ClientOperationRENEW
      (ClientRequestAddRequestId requestID ClientRequestStart))).

Definition newReleaseRequest1of1 (requestID key clientID bootID sequence : Z) : list Z :=
  fbFinish (ClientRequestAddRelease (CreateReleaseRequest key clientID bootID sequence)
    (ClientRequestAddOperation ClientOperationRELEASE
      (ClientRequestAddRequestId requestID ClientRequestStart))).

(** What [processRequest] makes of a frame before it looks at the phase. *)
Inductive decoded :=
  | decodedOperation (op : operation)
  | decodedGetTTL (requestID : Z)
  | decodedMalformed.

(** [None] is a panic of the accessors. *)
Definition decodeRequestBody (frame : list Z) : option decoded :=
  request ← GetSizePrefixedRootAsClientRequest frame;
  operation ← ClientRequest_Operation request;
  if decide (operation = ClientOperationACQUIRE) then
    acquire ← ClientRequest_Acquire request;
    match acquire with
    | None => Some decodedMalformed
    | Some acquire =>
        requestID ← ClientRequest_RequestId request;
        key ← AcquireRequest_Key acquire;
        clientID ← AcquireRequest_ClientId acquire;
        bootID ← AcquireRequest_BootId acquire;
        leaseSeq ← AcquireRequest_LeaseSeq acquire;
        ttl ← AcquireRequest_RequestedTtlMs acquire;
        Some (decodedOperation
          (mkOperation requestID operationAcquire key (LeaseID clientID bootID leaseSeq) ttl))
    end
  else if decide (operation = ClientOperationRENEW) then
    renew ← ClientRequest_Renew request;
    match renew with
    | None => Some decodedMalformed
    | Some renew =>
        requestID ← ClientRequest_RequestId request;
        key ← RenewRequest_Key renew;
        clientID ← RenewRequest_ClientId renew;
        bootID ← RenewRequest_BootId renew;
        leaseSeq ← RenewRequest_LeaseSeq renew;
        ttl ← RenewRequest_RequestedTtlMs renew;
        Some (decodedOperation
          (mkOperation requestID operationRenew key (LeaseID clientID bootID leaseSeq) ttl))
    end
  else if decide (operation = ClientOperationRELEASE) then
    release ← ClientRequest_Release request;
    match release with
    | None => Some decodedMalformed
    | Some release =>
        requestID ← ClientRequest_RequestId request;
        key ← ReleaseRequest_Key release;
        clientID ← ReleaseRequest_ClientId release;
        bootID ← ReleaseRequest_BootId release;
        leaseSeq ← ReleaseRequest_LeaseSeq release;
        Some (decodedOperation
          (mkOperation requestID operationRelease key (LeaseID clientID bootID leaseSeq) 0))
    end
  else if decide (operation = ClientOperationGET_TTL) then
    requestID ← ClientRequest_RequestId request;
    Some (decodedGetTTL requestID)
  else Some decodedMalformed.

(** The deferred [recover] turns a panic into a malformed frame. *)
Definition decodeRequest (frame : list Z) : decoded :=
  default decodedMalformed (decodeRequestBody frame).

(** ** Responses *)

(** [None]: unsupported status or operation. *)
Definition encodeResponse (r : Response) : option (list Z) :=
  if decide (LeaseStatusKEY_LIMIT_REACHED < Status r) then None
  else if decide (Operation r < ClientOperationACQUIRE \/ ClientOperationGET_TTL < Operation r)
  then None
  else
    let t := ServerResponseAddRequestId (RequestID r) ServerResponseStart in
    if decide (Operation r = ClientOperationACQUIRE) then
      Some (fbFinish (ServerResponseAddAcquire (CreateAcquireResponse (Status r) (TTLMS r))
        (ServerResponseAddResult ServerResultACQUIRE t)))
    else if decide (Operation r = ClientOperationRENEW) then
      Some (fbFinish (ServerResponseAddRenew (CreateRenewResponse (Status r) (TTLMS r))
        (ServerResponseAddResult ServerResultRENEW t)))
    else if decide (Operation r = ClientOperationRELEASE) then
      Some (fbFinish (ServerResponseAddRelease (CreateReleaseResponse (Status r))
        (ServerResponseAddResult ServerResultRELEASE t)))
    else if decide (Operation r = ClientOperationGET_TTL) then
      Some (fbFinish (ServerResponseAddGetTtl (CreateGetTTLResponse (TTLMS r))
        (ServerResponseAddResult ServerResultGET_TTL t)))
    else None.

Definition validStatus (status : Z) : bool :=
  bool_decide (LeaseStatusOK <= status /\ status <= LeaseStatusKEY_LIMIT_REACHED).

(** The switch of [DecodeResponse]: [None] a panic, [Some None] a missing or
    unsupported result. *)
Definition decodeResponseBody (frame : list Z) : option (option Response) :=
  root ← GetSizePrefixedRootAsServerResponse frame;
  requestID ← ServerResponse_RequestId root;
  result ← ServerResponse_Result root;
  if decide (result = ServerResultACQUIRE) then
    acquire ← ServerResponse_Acquire root;
    match acquire with
    | None => Some None
    | Some acquire =>
        status ← AcquireResponse_Status acquire;
        ttl ← AcquireResponse_TtlMs acquire;
        Some (Some (mkResponse requestID ClientOperationACQUIRE status ttl))
    end
  else if decide (result = ServerResultRENEW) then
    renew ← ServerResponse_Renew root;
    match renew with
    | None => Some None
    | Some renew =>
        status ← RenewResponse_Status renew;
        ttl ← RenewResponse_TtlMs renew;
        Some (Some (mkResponse requestID ClientOperationRENEW status ttl))
    end
  else if decide (result = ServerResultRELEASE) then
    release ← ServerResponse_Release root;
    match release with
    | None => Some None
    | Some release =>
        status ← ReleaseResponse_Status release;
        Some (Some (mkResponse requestID ClientOperationRELEASE status 0))
    end
  else if decide (result = ServerResultGET_TTL) then
    getTTL ← ServerResponse_GetTtl root;
    match getTTL with
    | None => Some None
    | Some getTTL =>
        ttl ← GetTTLResponse_ConfiguredMaxTtlMs getTTL;
        Some (Some (mkResponse requestID ClientOperationGET_TTL LeaseStatusOK ttl))
    end
  else Some None.

(** [None] is [ErrMalformedFrame]. *)
Definition DecodeResponse (frame : list Z) : option Response :=
  match decodeResponseBody frame with
  | Some (Some r) => if validStatus (Status r) then Some r else None
  | _ => None
  end.

End Codec.

(** ** Typing and normal forms *)

Record request_typed (r : outboundConnectionRequest) : Prop := {
  rt_id : is_u64 (req_requestID r);
  rt_key : is_u64 (req_key r);
  rt_seq : is_u64 (req_sequence r);
  rt_ttl : is_u64 (req_ttlMS r);
  rt_client : is_u32 (req_clientID r);
  rt_boot : is_u32 (req_bootID r)
}.

(** The operation a request asks for. *)
Definition requestedOperation (r : outboundConnectionRequest) : option operation :=
  let id := LeaseID (req_clientID r) (req_bootID r) (req_sequence r) in
  if decide (req_operation r = ClientOperationACQUIRE) then
    Some (mkOperation (req_requestID r) operationAcquire (req_key r) id (req_ttlMS r))
  else if decide (req_operation r = ClientOperationRENEW) then
    Some (mkOperation (req_requestID r) operationRenew (req_key r) id (req_ttlMS r))
  else if decide (req_operation r = ClientOperationRELEASE) then
    Some (mkOperation (req_requestID r) operationRelease (req_key r) id 0)
  else None.

Record response_typed (r : Response) : Prop := {
  rs_id : is_u64 (RequestID r);
  rs_op : is_u8 (Operation r);
  rs_status : is_u8 (Status r);
  rs_ttl : is_u64 (TTLMS r)
}.

Definition encodable (r : Response) : Prop :=
  Status r <= LeaseStatusKEY_LIMIT_REACHED /\
  ClientOperationACQUIRE <= Operation r <= ClientOperationGET_TTL.

(** A Release carries no TTL and a GetTTL no status. *)
Definition wireNormal (r : Response) : Prop :=
  (Operation r = ClientOperationRELEASE -> TTLMS r = 0) /\
  (Operation r = ClientOperationGET_TTL -> Status r = LeaseStatusOK).

(** ** Lemmas *)

Lemma schemaTable_insert k bs t :
  schemaTable t -> (k < 6)%nat -> (length bs <= 32)%nat -> Forall is_u8 bs ->
  schemaTable (<[k := bs]> t).
Proof.
  intros Ht Hk Hl Hu k' bs' [[<- <-]|[_ Hx]]%lookup_insert_Some; [done|by apply Ht].
Qed.

Lemma schemaTable_empty : schemaTable ∅.
Proof. intros k bs Hx. by rewrite lookup_empty in Hx. Qed.

Lemma schemaTable_uint64 k x t : schemaTable t -> (k < 6)%nat -> schemaTable (PrependUint64Slot k x 0 t).
Proof.
  intros Ht Hk. unfold PrependUint64Slot. case_decide; [done|].
  apply schemaTable_insert; [done..| |apply leBytes_u8]. rewrite length_leBytes. lia.
Qed.

Lemma schemaTable_byte k x t : schemaTable t -> (k < 6)%nat -> schemaTable (PrependByteSlot k x 0 t).
Proof.
  intros Ht Hk. unfold PrependByteSlot. case_decide; [done|].
  apply schemaTable_insert; [done..| |apply leBytes_u8]. rewrite length_leBytes. lia.
Qed.

Create HintDb wire.
#[export] Hint Resolve schemaTable_empty schemaTable_uint64 schemaTable_byte schemaTable_insert
  leBytes_u8 : wire.
#[export] Hint Extern 1 (_ < _)%nat => lia : wire.

(** Reading a message whose fields are known. *)
Ltac read_with Hroot :=
  unfold ClientRequest_RequestId, ClientRequest_Operation, ClientRequest_Acquire,
    ClientRequest_Renew, ClientRequest_Release, AcquireRequest_Key, AcquireRequest_ClientId,
    AcquireRequest_BootId, AcquireRequest_LeaseSeq, AcquireRequest_RequestedTtlMs,
    RenewRequest_Key, RenewRequest_ClientId, RenewRequest_BootId, RenewRequest_LeaseSeq,
    RenewRequest_RequestedTtlMs, ReleaseRequest_Key, ReleaseRequest_ClientId,
    ReleaseRequest_BootId, ReleaseRequest_LeaseSeq, ServerResponse_RequestId,
    ServerResponse_Result, ServerResponse_Acquire, ServerResponse_Renew,
    ServerResponse_Release, ServerResponse_GetTtl, AcquireResponse_Status,
    AcquireResponse_TtlMs, RenewResponse_Status, RenewResponse_TtlMs, ReleaseResponse_Status,
    GetTTLResponse_ConfiguredMaxTtlMs;
  rewrite Hroot; cbn [mbind option_bind];
  repeat match goal with
  | E : ?x = Some _ |- context [?x] => rewrite E; cbn [mbind option_bind]
  end; try reflexivity.

Section RoundTrips.
Context `{FlatBuffersLaws}.

(** The head every message shares. *)
Definition headed (id kind : Z) (k : nat) (bs : list Z) : fbTable :=
  <[k := bs]> (PrependByteSlot 1 kind 0 (PrependUint64Slot 0 id 0 ∅)).

Lemma headed_reads id kind k bs :
  is_u64 id -> is_u8 kind -> (2 <= k < 6)%nat -> (length bs <= 32)%nat -> Forall is_u8 bs ->
  exists r s, GetSizePrefixedRootAsClientRequest (fbFinish (headed id kind k bs)) = Some r /\
    uint64Field 4 r = Some id /\ byteField 6 r = Some kind /\
    structField (4 + 2 * Z.of_nat k) r = Some (Some s) /\ structAt s bs.
Proof.
  intros Hid Hkind Hk Hl Hu. set (t := headed id kind k bs).
  destruct (root_readsBack t) as (r & Hr & Hrb).
  { unfold t, headed. auto with wire lia. }
  assert (Ht0 : t !! 0%nat = if decide (id = 0) then None else Some (leBytes 8 id)).
  { unfold t, headed, PrependByteSlot, PrependUint64Slot. rewrite lookup_insert_ne by lia.
    repeat case_decide; rewrite ?lookup_insert_ne, ?lookup_insert_eq by lia; done. }
  assert (Ht1 : t !! 1%nat = if decide (kind = 0) then None else Some (leBytes 1 kind)).
  { unfold t, headed, PrependByteSlot, PrependUint64Slot. rewrite lookup_insert_ne by lia.
    repeat case_decide; rewrite ?lookup_insert_eq, ?lookup_insert_ne by lia; done. }
  destruct (rb_struct _ _ Hrb k bs) as (s & Hs & Hsa); [lia|by apply lookup_insert_eq|].
  exists r, s. split_and!; [done| | |done..].
  - destruct (decide (id = 0)); subst; [apply (rb_absent64 _ _ Hrb 0)|apply (rb_uint64 _ _ Hrb 0)]; done || lia.
  - destruct (decide (kind = 0)); subst; [apply (rb_absent8 _ _ Hrb 1)|apply (rb_byte _ _ Hrb 1)]; done || lia.
Qed.

Lemma structAt_uint64 s bs off z : structAt s bs -> (off + 8 <= length bs)%nat ->
  take 8 (drop off bs) = leBytes 8 z -> is_u64 z -> uint64At (Z.of_nat off) s = Some z.
Proof.
  intros Hs Hl Hb Hz. unfold uint64At, getUint64. rewrite (structAt_slice s bs) by done.
  rewrite Hb. change (Some (leVal (leBytes 8 z)) = Some z). by rewrite leVal_leBytes.
Qed.

Lemma structAt_uint32 s bs off z : structAt s bs -> (off + 4 <= length bs)%nat ->
  take 4 (drop off bs) = leBytes 4 z -> is_u32 z -> uint32At (Z.of_nat off) s = Some z.
Proof.
  intros Hs Hl Hb Hz. unfold uint32At, getUint32. rewrite (structAt_slice s bs) by done.
  rewrite Hb. change (Some (leVal (leBytes 4 z)) = Some z). by rewrite leVal_leBytes.
Qed.

Lemma structAt_byte s bs off z : structAt s bs -> (off + 1 <= length bs)%nat ->
  take 1 (drop off bs) = leBytes 1 z -> is_u8 z -> byteAt (Z.of_nat off) s = Some z.
Proof.
  intros Hs Hl Hb Hz. unfold byteAt, getByte. rewrite (structAt_slice s bs) by done.
  rewrite Hb. change (Some (leVal (leBytes 1 z)) = Some z). by rewrite leVal_leBytes.
Qed.

(** The five leading fields of a request struct. *)
Lemma request_struct_reads s key cl boot seq rest :
  structAt s (prependUint64 key (prependUint32 cl (prependUint32 boot (prependUint64 seq rest)))) ->
  is_u64 key -> is_u32 cl -> is_u32 boot -> is_u64 seq ->
  uint64At 0 s = Some key /\ uint32At 8 s = Some cl /\ uint32At 12 s = Some boot /\
  uint64At 16 s = Some seq /\
  (forall ttl, is_u64 ttl -> rest = leBytes 8 ttl -> uint64At 24 s = Some ttl).
Proof.
  intros Hs Hk Hc Hb Hq.
  assert (Hlen : (24 <= length (prependUint64 key (prependUint32 cl (prependUint32 boot
    (prependUint64 seq rest)))))%nat).
  { unfold prependUint64, prependUint32. rewrite !length_app, !length_leBytes. lia. }
  split_and!.
  - eapply (structAt_uint64 s _ 0); [exact Hs|lia|reflexivity|done].
  - eapply (structAt_uint32 s _ 8); [exact Hs|lia|reflexivity|done].
  - eapply (structAt_uint32 s _ 12); [exact Hs|lia|reflexivity|done].
  - eapply (structAt_uint64 s _ 16); [exact Hs|lia|reflexivity|done].
  - intros ttl Ht ->. eapply (structAt_uint64 s _ 24); [exact Hs|simpl; lia|reflexivity|done].
Qed.

Lemma request_struct_ok key cl boot seq rest :
  (length rest <= 8)%nat -> Forall is_u8 rest ->
  let bs := prependUint64 key (prependUint32 cl (prependUint32 boot (prependUint64 seq rest))) in
  (length bs <= 32)%nat /\ Forall is_u8 bs.
Proof.
  intros Hl Hu bs. unfold bs, prependUint64, prependUint32. split.
  - rewrite !length_app, !length_leBytes. lia.
  - rewrite !Forall_app. auto using leBytes_u8.
Qed.

Lemma decode_request_struct r id kind k key cl boot seq rest :
  is_u64 id -> is_u8 kind -> is_u64 key -> is_u32 cl -> is_u32 boot -> is_u64 seq ->
  (length rest <= 8)%nat -> Forall is_u8 rest -> (2 <= k < 6)%nat ->
  r = fbFinish (headed id kind k (prependUint64 key (prependUint32 cl (prependUint32 boot
        (prependUint64 seq rest))))) ->
  exists root s, GetSizePrefixedRootAsClientRequest r = Some root /\
    uint64Field 4 root = Some id /\ byteField 6 root = Some kind /\
    structField (4 + 2 * Z.of_nat k) root = Some (Some s) /\
    uint64At 0 s = Some key /\ uint32At 8 s = Some cl /\ uint32At 12 s = Some boot /\
    uint64At 16 s = Some seq /\
    (forall ttl, is_u64 ttl -> rest = leBytes 8 ttl -> uint64At 24 s = Some ttl).
Proof.
  intros Hid Hkind Hkey Hcl Hboot Hseq Hl Hu Hk ->.
  destruct (request_struct_ok key cl boot seq rest Hl Hu) as [Hl' Hu'].
  destruct (headed_reads id kind k _ Hid Hkind Hk Hl' Hu') as (root & s & ? & ? & ? & ? & Hsa).
  exists root, s. split_and!; try done; by apply (request_struct_reads _ _ _ _ _ _ Hsa).
Qed.

Lemma decode_encode_request r op :
  request_typed r -> requestedOperation r = Some op ->
  decodeRequest (encodeRequest r) = decodedOperation op.
Proof.
  intros [Hid Hkey Hseq Httl Hcl Hboot] Hop. unfold decodeRequest, encodeRequest.
  assert (H8 : Forall is_u8 (leBytes 8 (req_ttlMS r))) by apply leBytes_u8.
  unfold requestedOperation in Hop. repeat case_decide; simplify_eq.
  all: match goal with Hk : req_operation _ = _ |- _ => rewrite Hk end.
  all: match goal with |- context [fbFinish ?t] => set (frame := fbFinish t) end.
  - destruct (decode_request_struct frame (req_requestID r) 1 2 (req_key r) (req_clientID r)
      (req_bootID r) (req_sequence r) (leBytes 8 (req_ttlMS r)))
      as (root & s & Hroot & E0 & E1 & E2 & E3 & E4 & E5 & E6 & E7); try done; try lia.
    change (4 + 2 * Z.of_nat 2) with 8 in E2.
    specialize (E7 _ Httl eq_refl). unfold decodeRequestBody. read_with Hroot.
  - destruct (decode_request_struct frame (req_requestID r) 2 3 (req_key r) (req_clientID r)
      (req_bootID r) (req_sequence r) (leBytes 8 (req_ttlMS r)))
      as (root & s & Hroot & E0 & E1 & E2 & E3 & E4 & E5 & E6 & E7); try done; try lia.
    change (4 + 2 * Z.of_nat 3) with 10 in E2.
    specialize (E7 _ Httl eq_refl). unfold decodeRequestBody. read_with Hroot.
  - destruct (decode_request_struct frame (req_requestID r) 3 4 (req_key r) (req_clientID r)
      (req_bootID r) (req_sequence r) [])
      as (root & s & Hroot & E0 & E1 & E2 & E3 & E4 & E5 & E6 & E7); try done; try (simpl; lia).
    change (4 + 2 * Z.of_nat 4) with 12 in E2. unfold decodeRequestBody. read_with Hroot.
Qed.

Lemma encodeResponse_Some r : is_Some (encodeResponse r) <-> encodable r.
Proof.
  unfold encodeResponse, encodable, ClientOperationACQUIRE, ClientOperationRENEW,
    ClientOperationRELEASE, ClientOperationGET_TTL.
  repeat case_decide; split; try (intros [? ?]; done); try (intros; by eexists); lia.
Qed.

(** The struct of an Acquire or Renew response. *)
Lemma response_struct_reads s status ttl :
  structAt s (prependByte status (pad 7 (prependUint64 ttl []))) -> is_u8 status -> is_u64 ttl ->
  byteAt 0 s = Some status /\ uint64At 8 s = Some ttl.
Proof.
  intros Hs Hst Ht. split.
  - eapply (structAt_byte s _ 0); [exact Hs|simpl; lia|reflexivity|done].
  - eapply (structAt_uint64 s _ 8); [exact Hs|simpl; lia|reflexivity|done].
Qed.

Lemma response_struct_ok status ttl :
  (length (prependByte status (pad 7 (prependUint64 ttl []))) <= 32)%nat /\
  Forall is_u8 (prependByte status (pad 7 (prependUint64 ttl []))).
Proof.
  split; [simpl; lia|]. unfold prependByte, pad, prependUint64.
  rewrite !Forall_app. split_and!; try apply leBytes_u8; [|done].
  apply Forall_replicate. in_range.
Qed.

(** The frame of an Acquire or Renew response, read back. *)
Lemma timed_response_reads r result k :
  response_typed r -> is_u8 result -> (2 <= k < 6)%nat ->
  exists root s,
    GetSizePrefixedRootAsServerResponse (fbFinish (headed (RequestID r) result k
      (prependByte (Status r) (pad 7 (prependUint64 (TTLMS r) []))))) = Some root /\
    uint64Field 4 root = Some (RequestID r) /\ byteField 6 root = Some result /\
    structField (4 + 2 * Z.of_nat k) root = Some (Some s) /\
    byteAt 0 s = Some (Status r) /\ uint64At 8 s = Some (TTLMS r).
Proof.
  intros [Hid _ Hst Httl] Hresult Hk. destruct (response_struct_ok (Status r) (TTLMS r)) as [Hl Hu].
  destruct (headed_reads (RequestID r) result k _ Hid Hresult Hk Hl Hu)
    as (root & s & Hroot & E0 & E1 & E2 & Hsa).
  exists root, s. split_and!; [done..|by eapply response_struct_reads|by eapply response_struct_reads].
Qed.

Lemma decode_encode_response r frame :
  response_typed r -> wireNormal r -> encodeResponse r = Some frame ->
  DecodeResponse frame = Some r.
Proof.
  intros Ht [Hrel Hget] Henc. pose proof Ht as [Hid Hop Hst Httl].
  assert (Hok : encodable r) by (apply encodeResponse_Some; by rewrite Henc).
  assert (Hvs : validStatus (Status r) = true).
  { unfold validStatus. apply bool_decide_eq_true_2. destruct Hok. unfold LeaseStatusOK. in_range. }
  assert (Hresp : r = mkResponse (RequestID r) (Operation r) (Status r) (TTLMS r)) by by destruct r.
  unfold encodeResponse in Henc. rewrite !decide_False in Henc by (destruct Hok; lia).
  unfold DecodeResponse, decodeResponseBody.
  repeat case_decide; simplify_eq.
  all: match goal with |- context [fbFinish ?t] => set (frame := fbFinish t) end.
  - destruct (timed_response_reads r 1 2 Ht ltac:(in_range) ltac:(lia))
      as (root & s & Hroot & E0 & E1 & E2 & E3 & E4).
    change (4 + 2 * Z.of_nat 2) with 8 in E2.
    change (GetSizePrefixedRootAsServerResponse frame = Some root) in Hroot.
    read_with Hroot. simpl. rewrite Hvs. congruence.
  - destruct (timed_response_reads r 2 3 Ht ltac:(in_range) ltac:(lia))
      as (root & s & Hroot & E0 & E1 & E2 & E3 & E4).
    change (4 + 2 * Z.of_nat 3) with 10 in E2.
    change (GetSizePrefixedRootAsServerResponse frame = Some root) in Hroot.
    read_with Hroot. simpl. rewrite Hvs. congruence.
  - destruct (headed_reads (RequestID r) 3 4 (CreateReleaseResponse (Status r)) Hid
      ltac:(unfold is_u8; lia) ltac:(lia) ltac:(simpl; lia) (leBytes_u8 1 (Status r)))
      as (root & s & Hroot & E0 & E1 & E2 & Hsa).
    assert (E3 : byteAt 0 s = Some (Status r))
      by (eapply (structAt_byte s _ 0); [exact Hsa|simpl; lia|reflexivity|done]).
    change (4 + 2 * Z.of_nat 4) with 12 in E2.
    change (GetSizePrefixedRootAsServerResponse frame = Some root) in Hroot.
    read_with Hroot. simpl. rewrite Hvs. rewrite Hrel in Hresp by done. congruence.
  - destruct (headed_reads (RequestID r) 4 5 (CreateGetTTLResponse (TTLMS r)) Hid
      ltac:(unfold is_u8; lia) ltac:(lia) ltac:(simpl; lia) (leBytes_u8 8 (TTLMS r)))
      as (root & s & Hroot & E0 & E1 & E2 & Hsa).
    assert (E3 : uint64At 0 s = Some (TTLMS r))
      by (eapply (structAt_uint64 s _ 0); [exact Hsa|simpl; lia|reflexivity|done]).
    change (4 + 2 * Z.of_nat 5) with 14 in E2.
    change (GetSizePrefixedRootAsServerResponse frame = Some root) in Hroot.
    read_with Hroot. simpl. rewrite Hget in Hresp by done. congruence.
Qed.

End RoundTrips.

(** ** Theorems *)

(** C11: requests survive the wire. The server decodes the frame of a
    well-typed Acquire, Renew or Release request to exactly the operation the
    client asked for, and the frames of the 1/1 client are byte for byte those
    of the quorum client. *)
Theorem request_roundtrip `{FlatBuffersLaws} r op :
  request_typed r -> requestedOperation r = Some op ->
  decodeRequest (encodeRequest r) = decodedOperation op /\
  encodeRequest r =
    match op_kind op with
    | operationAcquire => newAcquireRequest1of1 (req_requestID r) (req_key r) (req_clientID r)
                            (req_bootID r) (req_sequence r) (req_ttlMS r)
    | operationRenew => newRenewRequest1of1 (req_requestID r) (req_key r) (req_clientID r)
                          (req_bootID r) (req_sequence r) (req_ttlMS r)
    | operationRelease => newReleaseRequest1of1 (req_requestID r) (req_key r) (req_clientID r)
                            (req_bootID r) (req_sequence r)
    end.
Proof.
  intros Hr Hop. split; [by apply decode_encode_request|].
  unfold requestedOperation in Hop. unfold encodeRequest. repeat case_decide; simplify_eq.
  all: match goal with Hk : req_operation _ = _ |- _ => by rewrite Hk end.
Qed.

Definition demoRequest : outboundConnectionRequest :=
  mkOutbound 9 77 3 2500 12 (2 ^ 32 - 1) ClientOperationACQUIRE.

Lemma request_roundtrip_witness :
  let op := mkOperation 9 operationAcquire 77 (LeaseID 12 (2 ^ 32 - 1) 3) 2500 in
  decodeRequest (H:=plainBuffers) (encodeRequest (H:=plainBuffers) demoRequest)
    = decodedOperation op /\
  encodeRequest (H:=plainBuffers) demoRequest =
    newAcquireRequest1of1 (H:=plainBuffers) 9 77 12 (2 ^ 32 - 1) 3 2500.
Proof.
  intros op. apply (@request_roundtrip plainBuffers plainBuffers_laws demoRequest op);
    [split; unfold is_u64, is_u32; simpl; lia|reflexivity].
Defined.

(** C12: responses survive the wire. The server refuses to encode a response
    exactly when its status or operation is outside the protocol, and the
    client decodes an encoded response to the same response; a Release carries
    no TTL and a GetTTL no status. *)
Theorem response_roundtrip `{FlatBuffersLaws} r :
  response_typed r -> wireNormal r ->
  match encodeResponse r with
  | None => ~ encodable r
  | Some frame => encodable r /\ DecodeResponse frame = Some r
  end.
Proof.
  intros Ht Hn. pose proof (encodeResponse_Some r) as He.
  destruct (encodeResponse r) as [frame|] eqn:Hf.
  - split; [by apply He|by apply decode_encode_response].
  - intros Hr%He. by destruct Hr.
Qed.

Lemma response_roundtrip_witness :
  match encodeResponse (H:=plainBuffers) (mkResponse 5 ClientOperationRENEW LeaseStatusSTALE 40) with
  | None => ~ encodable (mkResponse 5 ClientOperationRENEW LeaseStatusSTALE 40)
  | Some frame => encodable (mkResponse 5 ClientOperationRENEW LeaseStatusSTALE 40) /\
      DecodeResponse (H:=plainBuffers) frame =
        Some (mkResponse 5 ClientOperationRENEW LeaseStatusSTALE 40)
  end.
Proof.
  apply (@response_roundtrip plainBuffers plainBuffers_laws
    (mkResponse 5 ClientOperationRENEW LeaseStatusSTALE 40)).
  - split; unfold is_u64, is_u8; simpl; unfold ClientOperationRENEW, LeaseStatusSTALE; lia.
  - by split.
Defined.

(** Whatever bytes a peer sends, a response that [DecodeResponse] accepts
    has a supported operation and status and is in wire-normal form, so it
    could have been produced by [encodeResponse]. *)
Theorem decoded_response_valid `{FlatBuffers} frame r :
  DecodeResponse frame = Some r -> encodable r /\ wireNormal r /\ LeaseStatusOK <= Status r.
Proof.
  unfold DecodeResponse. destruct (decodeResponseBody frame) as [[r'|]|] eqn:Hb; [|done..].
  destruct (validStatus (Status r')) eqn:Hv; [|done]. intros [= <-].
  apply bool_decide_eq_true_1 in Hv. unfold decodeResponseBody in Hb.
  assert (Hop : wireNormal r' /\ ClientOperationACQUIRE <= Operation r' <= ClientOperationGET_TTL).
  { repeat (simplify_option_eq || case_match); unfold wireNormal; simpl;
      unfold ClientOperationACQUIRE, ClientOperationRENEW, ClientOperationRELEASE,
        ClientOperationGET_TTL; repeat split; try done; try lia. }
  destruct Hop. unfold encodable. split_and!; try done; lia.
Qed.

Lemma decoded_response_valid_witness :
  let r := mkResponse 5 ClientOperationRENEW LeaseStatusSTALE 40 in
  encodable r /\ wireNormal r /\ LeaseStatusOK <= Status r.
Proof.
  apply (@decoded_response_valid plainBuffers
    (default [] (encodeResponse (H:=plainBuffers) (mkResponse 5 ClientOperationRENEW LeaseStatusSTALE 40)))).
  vm_compute. reflexivity.
Defined.
