(* ===== verification/Frame.v ===== *)
(** * Frames on a connection (src/internal/transport/frame_rw.go and client_connection.go)

    A frame is a size-prefixed FlatBuffer. The reader sees the bytes the peer
    sends before its stream ends; the writer collects frames in a buffer and
    hands whole batches to the connection. *)

From S2P Require Import Prelude Wire.
From stdpp Require Import base gmap list numbers tactics.

#[local] Open Scope Z_scope.

Definition MaxFrameBytes : Z := 1024.
Definition connectionWriteBufferBytes : Z := 64 * 1024.
Definition SizeUOffsetT : Z := 4.

(** ** Reading *)

Inductive readError := EOF | ErrUnexpectedEOF | ErrConnection.

#[export] Instance readError_eq_dec : EqDecision readError.
Proof. solve_decision. Defined.

Inductive frameError :=
  | ErrMalformedFrame (payloadSize : Z)
  | ErrRead (e : readError).

(** [rInput]: the bytes still to be delivered; [rEnd]: the error that follows
    them. *)
Record FrameReader := mkReader {
  rInput : list Z;
  rEnd : readError;
  pendingBytes : nat
}.

Definition newFrameReader (input : list Z) (e : readError) : FrameReader := mkReader input e 0.

(** [bufio.Reader.Peek] of at most the buffer size: the bytes, or what there is
    of them and the error. *)
Definition peek (r : FrameReader) (n : nat) : list Z * option readError :=
  if decide (n <= length (rInput r))%nat then (take n (rInput r), None)
  else (rInput r, Some (rEnd r)).

Definition frameReadError (partial : list Z) (e : readError) : frameError :=
  if decide (e = EOF /\ length partial <> 0%nat) then ErrRead ErrUnexpectedEOF else ErrRead e.

Definition ReadFrame (r : FrameReader) : FrameReader * (frameError + list Z) :=
  if decide (length (rInput r) < pendingBytes r)%nat then
    (mkReader [] (rEnd r) (pendingBytes r), inl (ErrRead (rEnd r)))
  else
    let r := mkReader (drop (pendingBytes r) (rInput r)) (rEnd r) 0 in
    match peek r 4 with
    | (prefix, Some e) => (r, inl (frameReadError prefix e))
    | (prefix, None) =>
        let payloadSize := leVal prefix in
        if decide (payloadSize < SizeUOffsetT \/ MaxFrameBytes - SizeUint32 < payloadSize)
        then (r, inl (ErrMalformedFrame payloadSize))
        else
          let frameSize := Z.to_nat (SizeUint32 + payloadSize) in
          match peek r frameSize with
          | (frame, Some e) => (r, inl (frameReadError frame e))
          | (frame, None) => (mkReader (rInput r) (rEnd r) frameSize, inr frame)
          end
    end.

(** ** Writing *)

Inductive writeError := ErrFrameTooLarge | ErrFlush.

(** [wBuffer]: the batch under construction; [wSent]: the writes that
    reached the connection;
    [wFailed]: the sticky error of [bufio.Writer]. *)
Record FrameWriter := mkWriter {
  wBuffer : list Z;
  wSent : list (list Z);
  wFailed : bool
}.

Definition newFrameWriter : FrameWriter := mkWriter [] [] false.

(** What the connection makes of a flush: it cannot set the deadline, or the
    write fails after [n] bytes. *)
Inductive flushOutcome := flushOK | flushDeadlineError | flushWriteError (n : nat).

(** [Flush]; [bufio.Writer.Flush] keeps the bytes it could not write and its
    error. *)
Definition Flush (outcome : flushOutcome) (w : FrameWriter) : FrameWriter * option writeError :=
  if decide (length (wBuffer w) = 0%nat) then (w, None)
  else
    match outcome with
    | flushDeadlineError => (w, Some ErrFlush)
    | flushOK =>
        if wFailed w then (w, Some ErrFlush)
        else (mkWriter [] (wSent w ++ [wBuffer w]) false, None)
    | flushWriteError n =>
        if wFailed w then (w, Some ErrFlush)
        else (mkWriter (drop n (wBuffer w)) (wSent w ++ [take n (wBuffer w)]) true, Some ErrFlush)
    end.

Definition BufferFrame (ok : flushOutcome) (w : FrameWriter) (frame : list Z)
    : FrameWriter * option writeError :=
  if decide (connectionWriteBufferBytes < Z.of_nat (length frame)) then (w, Some ErrFrameTooLarge)
  else
    let available := connectionWriteBufferBytes - Z.of_nat (length (wBuffer w)) in
    let '(w, err) := if decide (available < Z.of_nat (length frame)) then Flush ok w else (w, None) in
    match err with
    | Some e => (w, Some e)
    | None =>
        if wFailed w then (w, Some ErrFlush)
        else (mkWriter (wBuffer w ++ frame) (wSent w) false, None)
    end.

Fixpoint bufferFrames (w : FrameWriter) (frames : list (list Z)) : option FrameWriter :=
  match frames with
  | [] => Some w
  | f :: frames =>
      match BufferFrame flushOK w f with
      | (w, None) => bufferFrames w frames
      | (_, Some _) => None
      end
  end.

Fixpoint readFrames (n : nat) (r : FrameReader) : FrameReader * list (frameError + list Z) :=
  match n with
  | O => (r, [])
  | S n =>
      let '(r, x) := ReadFrame r in
      let '(r, l) := readFrames n r in
      (r, x :: l)
  end.

(** A complete frame as the peer may send it. *)
Definition wellFramed (f : list Z) : Prop :=
  exists payload, f = leBytes 4 (Z.of_nat (length payload)) ++ payload /\
    SizeUOffsetT <= Z.of_nat (length payload) <= MaxFrameBytes - SizeUint32.

(** ** Lemmas *)

Lemma wellFramed_length f : wellFramed f -> (8 <= length f <= 1024)%nat.
Proof.
  intros (p & -> & Hp). rewrite length_app, length_leBytes.
  unfold SizeUOffsetT, MaxFrameBytes, SizeUint32 in *. lia.
Qed.

(** The reader after [n] bytes of the current frame have been handed out. *)
Lemma ReadFrame_wellFramed f done_ rest e :
  wellFramed f ->
  ReadFrame (mkReader (done_ ++ f ++ rest) e (length done_)) =
    (mkReader (f ++ rest) e (length f), inr f).
Proof.
  intros Hf. pose proof (wellFramed_length f Hf) as Hlen. destruct Hf as (p & Hfp & Hp).
  unfold ReadFrame. simpl. rewrite length_app, decide_False by lia.
  rewrite drop_app_length. unfold peek. simpl. rewrite length_app, decide_True by lia. simpl.
  assert (Hpre : take 4 (f ++ rest) = leBytes 4 (Z.of_nat (length p))).
  { rewrite Hfp, <- app_assoc. apply take_app_length'. by rewrite length_leBytes. }
  rewrite Hpre, leVal_leBytes by (unfold SizeUOffsetT, MaxFrameBytes, SizeUint32 in *; simpl; lia).
  rewrite decide_False by lia.
  assert (Hsize : Z.to_nat (SizeUint32 + Z.of_nat (length p)) = length f).
  { rewrite Hfp, length_app, length_leBytes. unfold SizeUint32. lia. }
  rewrite Hsize, decide_True by lia. by rewrite take_app_length.
Qed.

Lemma readFrames_wellFramed fs done_ e :
  Forall wellFramed fs ->
  exists r, readFrames (length fs) (mkReader (done_ ++ mjoin fs) e (length done_)) = (r, inr <$> fs) /\
    rEnd r = e /\ length (rInput r) = pendingBytes r.
Proof.
  intros Hfs. revert done_. induction Hfs as [|f fs Hf Hfs IH]; intros done_; simpl.
  - eexists. split; [done|]. simpl. by rewrite app_nil_r.
  - rewrite ReadFrame_wellFramed by done. destruct (IH f) as (r & -> & Hr). by exists r.
Qed.

Lemma BufferFrame_ok w f :
  wellFramed f -> wFailed w = false ->
  Z.of_nat (length (wBuffer w)) <= connectionWriteBufferBytes ->
  exists w', BufferFrame flushOK w f = (w', None) /\ wFailed w' = false /\
    Z.of_nat (length (wBuffer w')) <= connectionWriteBufferBytes /\
    mjoin (wSent w') ++ wBuffer w' = mjoin (wSent w) ++ wBuffer w ++ f.
Proof.
  intros Hf Hw Hb. pose proof (wellFramed_length f Hf). unfold BufferFrame, connectionWriteBufferBytes in *.
  rewrite decide_False by lia. unfold Flush. rewrite Hw.
  repeat case_decide; try (exfalso; lia); simpl; rewrite ?Hw; eexists; (split; [done|]); simpl;
    rewrite ?length_app; split_and!; try done; try lia.
  rewrite join_app. simpl. by rewrite app_nil_r, <- app_assoc.
Qed.

Lemma bufferFrames_ok w fs :
  Forall wellFramed fs -> wFailed w = false ->
  Z.of_nat (length (wBuffer w)) <= connectionWriteBufferBytes ->
  exists w', bufferFrames w fs = Some w' /\ wFailed w' = false /\
    mjoin (wSent w') ++ wBuffer w' = mjoin (wSent w) ++ wBuffer w ++ mjoin fs.
Proof.
  intros Hfs. revert w. induction Hfs as [|f fs Hf Hfs IH]; intros w Hw Hb; simpl.
  - exists w. by rewrite app_nil_r.
  - destruct (BufferFrame_ok w f Hf Hw Hb) as (w1 & -> & Hw1 & Hb1 & Hs1).
    destruct (IH w1 Hw1 Hb1) as (w2 & -> & Hw2 & Hs2). exists w2. split_and!; [done..|].
    rewrite Hs2, app_assoc, Hs1, <- !app_assoc. done.
Qed.

Lemma Flush_ok w : wFailed w = false ->
  exists w', Flush flushOK w = (w', None) /\ mjoin (wSent w') = mjoin (wSent w) ++ wBuffer w.
Proof.
  intros Hw. unfold Flush. rewrite Hw. case_decide as Hl; eexists; (split; [done|]); simpl.
  - apply length_zero_iff_nil in Hl. by rewrite Hl, app_nil_r.
  - rewrite join_app. simpl. by rewrite app_nil_r.
Qed.

(** ** Client connections *)

(** A connection has a name; what its peer will send is known to the reader. *)
Record ClientConnection := mkConnection {
  ccConn : nat;
  ccWriter : FrameWriter;
  ccReader : FrameReader
}.

Inductive dialError := errDialContext | errNoDelay.

Definition NewClientConnection (conn : nat) (input : list Z) (e : readError) : ClientConnection :=
  mkConnection conn newFrameWriter (newFrameReader input e).

(** [Dial] with what [DialContext] returns (the connection and whether it is a TCP
    connection) and whether [SetNoDelay] fails. The second component are the
    connections it closed. *)
Definition Dial (dialled : option (nat * bool)) (noDelayFails : bool) (input : list Z) (e : readError)
    : (dialError + ClientConnection) * list nat :=
  match dialled with
  | None => (inl errDialContext, [])
  | Some (conn, isTCP) =>
      if isTCP && noDelayFails then (inl errNoDelay, [conn])
      else (inr (NewClientConnection conn input e), [])
  end.

(** A connection that was opened is handed to the caller, unused, or closed. *)
Lemma dial_no_leak conn isTCP noDelayFails input e :
  match Dial (Some (conn, isTCP)) noDelayFails input e with
  | (inr c, closed) => ccConn c = conn /\ closed = [] /\ wSent (ccWriter c) = [] /\ rInput (ccReader c) = input
  | (inl _, closed) => closed = [conn]
  end.
Proof. unfold Dial. by destruct (isTCP && noDelayFails). Qed.

(** ** Theorems *)

(** C13: frames survive the byte stream. Any sequence of well-formed frames that
    the writer buffers and flushes is read back unchanged and in order, however
    the writer split it into batches, and the reader then reports the end of
    the stream; no frame is merged, split or lost. *)
Theorem frames_roundtrip fs :
  Forall wellFramed fs ->
  exists w w', bufferFrames newFrameWriter fs = Some w /\ Flush flushOK w = (w', None) /\
    exists r, readFrames (length fs) (mkReader (mjoin (wSent w')) EOF 0) = (r, inr <$> fs) /\
      (ReadFrame r).2 = inl (ErrRead EOF).
Proof.
  intros Hfs. destruct (bufferFrames_ok newFrameWriter fs Hfs) as (w & Hw & Hf & Hs);
    [done|vm_compute; done|].
  destruct (Flush_ok w Hf) as (w' & Hw' & Hs'). exists w, w'. split_and!; [done..|].
  destruct (readFrames_wellFramed fs [] EOF Hfs) as (r & Hr & He & Hp).
  rewrite Hs', Hs. exists r. split; [done|].
  unfold ReadFrame. rewrite decide_False by lia. simpl. rewrite <- Hp, drop_all. simpl. by rewrite He.
Qed.

Lemma frames_roundtrip_witness :
  let fs := [leBytes 4 4 ++ [1; 2; 3; 4]; leBytes 4 5 ++ [9; 9; 9; 9; 9]] in
  exists w w', bufferFrames newFrameWriter fs = Some w /\ Flush flushOK w = (w', None) /\
    exists r, readFrames (length fs) (mkReader (mjoin (wSent w')) EOF 0) = (r, inr <$> fs) /\
      (ReadFrame r).2 = inl (ErrRead EOF).
Proof.
  intros fs. apply (frames_roundtrip fs). repeat constructor.
  - exists [1; 2; 3; 4]. split; [done|]. vm_compute. split; congruence.
  - exists [9; 9; 9; 9; 9]. split; [done|]. vm_compute. split; congruence.
Defined.

(** A frame handed to the decoder is exactly the next bytes of the stream,
    and its length is the size prefix plus four, between 8 and 1024 bytes: a
    peer cannot make the reader buffer more than one bounded frame. A stream
    that ends inside a frame is reported as an unexpected end. *)
Theorem read_frame_bounded input e :
  match ReadFrame (mkReader input e 0) with
  | (r, inr frame) =>
      exists rest, input = frame ++ rest /\ pendingBytes r = length frame /\ rInput r = input /\
        8 <= Z.of_nat (length frame) <= MaxFrameBytes /\
        Z.of_nat (length frame) = SizeUint32 + leVal (take 4 frame)
  | (r, inl err) =>
      rInput r = input /\ (input <> [] -> e = EOF -> err <> ErrRead EOF)
  end.
Proof.
  unfold ReadFrame, peek. cbn [rInput rEnd pendingBytes]. rewrite decide_False, drop_0 by lia.
  destruct (decide (4 <= length input)%nat) as [H4|H4].
  - set (n := leVal (take 4 input)). case_decide as Hbad; [split; [done|]; intros; done|].
    assert (Hn : 4 <= n <= 1020) by (unfold SizeUOffsetT, MaxFrameBytes, SizeUint32 in *; lia).
    destruct (decide (Z.to_nat (SizeUint32 + n) <= length input)%nat) as [Hl|Hl]; unfold SizeUint32 in *.
    + exists (drop (Z.to_nat (4 + n)) input). rewrite take_drop, length_take, take_take.
      unfold MaxFrameBytes. rewrite (Nat.min_l 4) by lia. fold n. split_and!; try done; simpl; lia.
    + split; [done|]. intros Hne ->. unfold frameReadError. case_decide as Hd; [done|].
      exfalso. apply Hd. split; [done|]. by destruct input.
  - split; [done|]. intros Hne ->. unfold frameReadError. case_decide as Hd; [done|].
    exfalso. apply Hd. split; [done|]. by destruct input.
Qed.
