(* ===== verification/Connection.v ===== *)
(** * Server connections (src/server/connection.go)

    Every accepted connection is a session with a request reader, a response
    writer and a bounded response queue; decoded operations travel through the
    bounded queue of their shard to the shard's worker. The goroutines are
    step functions on the shared state; a spin loop on a full queue is a state
    of its own, so that other goroutines run between two attempts. *)

From S2P Require Import Prelude GoHeap LeaseShard Protocol Server ServerSpec ServerLifecycle.
From S2P Require Import Wire Codec Frame.
From stdpp Require Import base gmap list numbers strings relations tactics.

#[local] Open Scope Z_scope.

Definition shardQueueCapacity : Z := 256.
Definition responseQueueCapacity : Z := 4096.

(** ** Errors *)

Inductive connError :=
  | errServerFailed                (* ErrServerFailed *)
  | errServerClosed
  | errReading (e : frameError)
  | errMalformed
  | errEncode
  | errBuffer
  | errFlush.

#[export] Instance frameError_eq_dec : EqDecision frameError.
Proof. solve_decision. Defined.
#[export] Instance connError_eq_dec : EqDecision connError.
Proof. solve_decision. Defined.

Definition unavailableError (s : Server) : option connError :=
  match phase s with
  | phaseFailed => Some errServerFailed
  | phaseClosed => Some errServerClosed
  | _ => None
  end.

Definition unavailableErrorUnlessClosed (s : Server) : option connError :=
  if decide (phase s = phaseClosed) then None else unavailableError s.

(** ** Sessions *)

(** [receiveRequests]: reading the next frame, retrying [enqueueResponse] or
    [dispatch] on a full queue, or returned. *)
Inductive readerState :=
  | RReading
  | RReply (r : Response)
  | RDispatch (op : operation)
  | RStopped.

(** [sendResponses]: running ([recvNil]: [recvDone] has been received and set to
    nil) or returned. *)
Inductive writerState :=
  | WRunning (recvNil : bool)
  | WStopped (err : option connError).

Record session := mkSession {
  sInput : FrameReader;
  sReading : readerState;
  respQueue : list Response;
  pending : Z;
  sCtxDone : bool;                       (* the connection's own context *)
  recvDone : option connError;           (* the buffered channel [recvDone] *)
  sWriter : FrameWriter;
  sWriting : writerState;
  received : list (Z * Z);               (* requests accepted: id and operation *)
  answered : list Response               (* responses handed to the writer's buffer *)
}.

Definition newSession (input : FrameReader) : session :=
  mkSession input RReading [] 0 false None newFrameWriter (WRunning false) [] [].

Definition setReading (x : session) (i : FrameReader) (st : readerState) (pend : Z)
    (done : option connError) (recv : list (Z * Z)) : session :=
  mkSession i st (respQueue x) pend (sCtxDone x) done (sWriter x) (sWriting x) recv (answered x).

Definition setQueue (x : session) (q : list Response) : session :=
  mkSession (sInput x) (sReading x) q (pending x) (sCtxDone x) (recvDone x) (sWriter x)
    (sWriting x) (received x) (answered x).

Definition setPending (x : session) (n : Z) : session :=
  mkSession (sInput x) (sReading x) (respQueue x) n (sCtxDone x) (recvDone x) (sWriter x)
    (sWriting x) (received x) (answered x).

Definition setWriting (x : session) (q : list Response) (w : FrameWriter) (st : writerState)
    (done : option connError) (ans : list Response) : session :=
  mkSession (sInput x) (sReading x) q (pending x) (sCtxDone x) done w st (received x) ans.

(** [close(s.responsesDone)] happens once the reader has returned and no
    operation of the session is pending. *)
Definition responsesDone (x : session) : bool :=
  match sReading x with RStopped => bool_decide (pending x = 0) | _ => false end.

(** ** The process *)

Record process := mkProcess {
  server : Server;
  queues : list (list (nat * operation));   (* the operation ring of each shard *)
  workers : list (option (nat * Response)); (* the response a worker is delivering *)
  sessions : gmap nat session
}.

Definition putSession (p : process) (sid : nat) (x : session) : process :=
  mkProcess (server p) (queues p) (workers p) (<[sid := x]> (sessions p)).

Definition putServer (p : process) (s : Server) : process :=
  mkProcess s (queues p) (workers p) (sessions p).

(** The context of a session is a child of the server's. *)
Definition sessionCancelled (p : process) (x : session) : bool := ctxDone (server p) || sCtxDone x.

(** One attempt of the loop of [enqueueResponse]: [None] spins on. *)
Definition enqueueResponse (cancelled : bool) (x : session) (r : Response) : option (session * bool) :=
  if decide (Z.of_nat (length (respQueue x)) < responseQueueCapacity) then
    Some (setQueue x (respQueue x ++ [r]), true)
  else if cancelled then Some (x, false) else None.

(** One attempt of the loop of [dispatch]. *)
Definition dispatch (hash : Z -> Z) (p : process) (cancelled : bool) (sid : nat) (op : operation)
    : option (process * bool) :=
  let i := shardIndex hash (server p) (op_key op) in
  match queues p !! i with
  | None => None
  | Some q =>
      if decide (Z.of_nat (length q) < shardQueueCapacity) then
        Some (mkProcess (server p) (<[i := q ++ [(sid, op)]]> (queues p)) (workers p) (sessions p), true)
      else if cancelled then Some (p, false) else None
  end.

Definition operationCode (k : operationKind) : Z :=
  match k with
  | operationAcquire => ClientOperationACQUIRE
  | operationRenew => ClientOperationRENEW
  | operationRelease => ClientOperationRELEASE
  end.

Definition getTTLResponse (s : Server) (requestID : Z) : Response :=
  mkResponse requestID ClientOperationGET_TTL LeaseStatusOK (MaxTTL (config s)).

Section Connection.
Context `{FlatBuffers} (hash : Z -> Z).

(** [processRequest] up to its first attempt on a queue. *)
Definition processRequest (s : Server) (x : session) (frame : list Z) : session + connError :=
  match decodeRequest frame with
  | decodedMalformed => inr errMalformed
  | decodedGetTTL requestID =>
      inl (setReading x (sInput x) (RReply (getTTLResponse s requestID)) (pending x) (recvDone x)
             (received x ++ [(requestID, ClientOperationGET_TTL)]))
  | decodedOperation op =>
      let recv := received x ++ [(op_requestID op, operationCode (op_kind op))] in
      if decide (phase s = phaseQuarantine) then
        inl (setReading x (sInput x) (RReply (statusResponse op LeaseStatusNOT_READY)) (pending x)
               (recvDone x) recv)
      else
        inl (setReading x (sInput x) (RDispatch op) (pending x + 1) (recvDone x) recv)
  end.

(** One round of [receiveRequests]. *)
Definition receiveStep (p : process) (sid : nat) (x : session) : option process :=
  let put p x := putSession p sid x in
  let stop x err := setReading x (sInput x) RStopped (pending x) err (received x) in
  let cancelled := sessionCancelled p x in
  match sReading x with
  | RStopped => None
  | RReading =>
      let '(input, result) := ReadFrame (sInput x) in
      let x := setReading x input RReading (pending x) (recvDone x) (received x) in
      match result with
      | inl err => Some (put p (stop x (Some (errReading err))))
      | inr frame =>
          match unavailableError (server p) with
          | Some err => Some (put p (stop x (Some err)))
          | None =>
              match processRequest (server p) x frame with
              | inr err => Some (put p (stop x (Some err)))
              | inl x => Some (put p x)
              end
          end
      end
  | RReply r =>
      '(x, ok) ← enqueueResponse cancelled x r;
      if ok : bool then
        Some (put p (setReading x (sInput x) RReading (pending x) (recvDone x) (received x)))
      else Some (put p (stop x (recvDone x)))
  | RDispatch op =>
      '(p, ok) ← dispatch hash p cancelled sid op;
      if ok : bool then
        Some (put p (setReading x (sInput x) RReading (pending x) (recvDone x) (received x)))
      else
        Some (put p (setReading x (sInput x) RStopped (pending x - 1) (recvDone x) (received x)))
  end.

(** One round of the worker [runShard] of shard [i]: [applyOperation] on the next
    queued operation, then the attempts of its [enqueueResponse]. *)
Definition workerStep (p : process) (i : nat) (now : Z) (got : option nat) : option process :=
  delivering ← workers p !! i;
  match delivering with
  | Some (sid, r) =>
      x ← sessions p !! sid;
      '(x, _) ← enqueueResponse (sessionCancelled p x) x r;
      Some (mkProcess (server p) (queues p) (<[i := None]> (workers p))
              (<[sid := setPending x (pending x - 1)]> (sessions p)))
  | None =>
      q ← queues p !! i;
      match q with
      | [] => None
      | (sid, op) :: q =>
          x ← sessions p !! sid;
          '(s, r) ← applyOperation (server p) i op now got;
          match r with
          | Some r =>
              Some (mkProcess s (<[i := q]> (queues p)) (<[i := Some (sid, r)]> (workers p))
                      (sessions p))
          | None =>
              Some (mkProcess s (<[i := q]> (queues p)) (workers p)
                      (<[sid := setPending x (pending x - 1)]> (sessions p)))
          end
      end
  end.

(** [bufferResponse]; [ok] is the outcome of a flush it may cause. *)
Definition bufferResponse (ok : flushOutcome) (s : Server) (w : FrameWriter) (r : Response)
    : Server * FrameWriter * option connError :=
  match unavailableError s with
  | Some err => (s, w, Some err)
  | None =>
      match encodeResponse r with
      | None => (fail s failEncodeResponse, w, Some errEncode)
      | Some frame =>
          match BufferFrame ok w frame with
          | (w, Some _) => (s, w, Some errBuffer)
          | (w, None) => (s, w, None)
          end
      end
  end.

(** The alternatives of the [select] of [sendResponses] on an empty queue. *)
Inductive wakeup := wakeResponsesDone | wakeRecvDone | wakeCtxDone.

(** One round of [sendResponses]: the next response is buffered; on an empty
    queue the batch is flushed, or the [select] proceeds. *)
Definition sendStep (ok : flushOutcome) (choice : wakeup) (p : process) (sid : nat) (x : session)
    : option process :=
  let put s x := putSession (putServer p s) sid x in
  let stop err := setWriting x (respQueue x) (sWriter x) (WStopped err) (recvDone x) (answered x) in
  match sWriting x with
  | WStopped _ => None
  | WRunning recvNil =>
      match respQueue x with
      | r :: q =>
          let '(s, w, err) := bufferResponse ok (server p) (sWriter x) r in
          match err with
          | Some e => Some (put s (setWriting x q w (WStopped (Some e)) (recvDone x) (answered x)))
          | None => Some (put s (setWriting x q w (WRunning recvNil) (recvDone x) (answered x ++ [r])))
          end
      | [] =>
          if decide (wBuffer (sWriter x) <> []) then
            match Flush ok (sWriter x) with
            | (w, None) =>
                Some (put (server p) (setWriting x [] w (WRunning recvNil) (recvDone x) (answered x)))
            | (w, Some _) =>
                Some (put (server p) (setWriting x [] w
                  (WStopped (if ctxDone (server p) then unavailableErrorUnlessClosed (server p)
                             else Some errFlush)) (recvDone x) (answered x)))
            end
          else
            match choice with
            | wakeResponsesDone =>
                if responsesDone x then Some (put (server p) (stop (unavailableErrorUnlessClosed (server p))))
                else None
            | wakeCtxDone =>
                if sessionCancelled p x
                then Some (put (server p) (stop (unavailableErrorUnlessClosed (server p)))) else None
            | wakeRecvDone =>
                match recvDone x with
                | Some err =>
                    if recvNil then None
                    else if decide (err = errReading (ErrRead EOF))
                    then Some (put (server p)
                           (setWriting x [] (sWriter x) (WRunning true) None (answered x)))
                    else Some (put (server p) (setWriting x [] (sWriter x) (WStopped (Some err)) None
                           (answered x)))
                | None => None
                end
            end
      end
  end.

(** ** Life of a connection *)

Definition initialAcceptRetryDelay : Z := 5 * Millisecond.
Definition maximumAcceptRetryDelay : Z := Second.

(** The delay before [Accept] is retried after a temporary error. *)
Definition nextRetryDelay (retryDelay : Z) : Z :=
  if decide (retryDelay = 0) then initialAcceptRetryDelay
  else Z.min (retryDelay * 2) maximumAcceptRetryDelay.

(** A permanent error of [Accept]. *)
Definition acceptFailed (s : Server) : Server :=
  match unavailableError s with
  | None => fail s failAccept
  | Some _ => s
  end.

(** [runListener] registers an accepted connection and [runConnection] starts its
    session; [None]: the connection is closed at once. *)
Definition acceptConnection (p : process) (sid : nat) (input : FrameReader) : option process :=
  match unavailableError (server p) with
  | Some _ => None
  | None =>
      Some (putSession (putServer p (setConnections (server p) ({[sid]} ∪ connections (server p))
              (activeConnections (server p) + 1))) sid (newSession input))
  end.

(** Closing the socket: of the bytes not yet read only some that were already
    buffered remain. *)
Definition closeInput (keep : nat) (x : session) : session :=
  mkSession (mkReader (take keep (rInput (sInput x))) ErrConnection (pendingBytes (sInput x)))
    (sReading x) (respQueue x) (pending x) (sCtxDone x) (recvDone x) (sWriter x) (sWriting x)
    (received x) (answered x).

(** [runConnection] after [sendResponses] has returned: [cancel()] and
    [conn.Close()]. *)
Definition endConnection (keep : nat) (x : session) : session :=
  let x := closeInput keep x in
  mkSession (sInput x) (sReading x) (respQueue x) (pending x) true (recvDone x) (sWriter x)
    (sWriting x) (received x) (answered x).

(** The end of [runConnection], once the reader has returned. *)
Definition finishConnection (p : process) (sid : nat) : process :=
  putServer p (setConnections (server p) (connections (server p) ∖ {[sid]})
    (activeConnections (server p) - 1)).

(** [discardResponses] empties the queue once no operation is pending. *)
Definition discardResponses (x : session) : option session :=
  if responsesDone x then Some (setQueue x []) else None.

(** ** Metrics (src/server/metrics.go) *)

Record MetricsSnapshot := mkSnapshot {
  State : string;
  ResidentKeys : Z;
  QueuedOperations : Z;
  ActiveConnections : Z;
  AcquiresTotal : Z;
  RenewsTotal : Z;
  ReleasesTotal : Z
}.

Definition metricsSnapshot (p : process) : MetricsSnapshot :=
  let s := server p in
  mkSnapshot (metricsState (phase s)) (keys s)
    (foldl (fun queued q => u64 (queued + Z.of_nat (length q))) 0 (queues p))
    (u64 (activeConnections s)) (operationTotals s operationAcquire)
    (operationTotals s operationRenew) (operationTotals s operationRelease).

(** ** Runs *)

Inductive process_step (p : process) : process -> Prop :=
  | pstep_accept sid input p' :
      sessions p !! sid = None -> pendingBytes input = 0%nat -> Forall is_u8 (rInput input) ->
      acceptConnection p sid input = Some p' -> process_step p p'
  | pstep_receive sid x p' :
      sessions p !! sid = Some x -> receiveStep p sid x = Some p' -> process_step p p'
  | pstep_worker i now got p' :
      workerStep p i now got = Some p' -> process_step p p'
  | pstep_send ok choice sid x p' :
      sessions p !! sid = Some x -> sendStep ok choice p sid x = Some p' -> process_step p p'
  | pstep_closed_input keep sid x :
      sessions p !! sid = Some x -> ctxDone (server p) = true ->
      process_step p (putSession p sid (closeInput keep x))
  | pstep_end keep sid x err :
      sessions p !! sid = Some x -> sWriting x = WStopped err ->
      process_step p (putSession p sid (endConnection keep x))
  | pstep_finish sid x err :
      sessions p !! sid = Some x -> sWriting x = WStopped err -> sReading x = RStopped ->
      process_step p (finishConnection p sid)
  | pstep_discard sid x x' err :
      sessions p !! sid = Some x -> sWriting x = WStopped err -> discardResponses x = Some x' ->
      process_step p (putSession p sid x')
  | pstep_cleanup now s' :
      cleanupTick (server p) now = Some s' -> process_step p (putServer p s')
  | pstep_quarantine : process_step p (putServer p (quarantineElapsed (server p)))
  | pstep_accept_failed : process_step p (putServer p (acceptFailed (server p)))
  | pstep_close : process_step p (putServer p (Close (server p))).

(** The process [New] starts. *)
Definition startProcess (s : Server) : process :=
  mkProcess s (replicate (length (shards s)) []) (replicate (length (shards s)) None) ∅.

Inductive process_reachable : process -> Prop :=
  | process_start c s :
      config_typed c -> New true c = inr s -> process_reachable (startProcess s)
  | process_next p p' : process_reachable p -> process_step p p' -> process_reachable p'.

End Connection.
