(* ===== verification/ConnectionSafety.v ===== *)
(** * Requests and responses of a connection

    In every interleaving of readers, workers and writers, a response answers a
    distinct request received on its own connection, and every response the
    server produces can be encoded. *)

From S2P Require Import Prelude GoHeap LeaseShard Protocol Server ServerSpec ServerLifecycle.
From S2P Require Import Wire Codec Frame Connection.
From stdpp Require Import base gmap list numbers strings relations tactics.

#[local] Open Scope Z_scope.

(** ** Accounting *)

(** What identifies a request: its id and its operation. *)
Definition rtag (r : Response) : Z * Z := (RequestID r, Operation r).
Definition otag (op : operation) : Z * Z := (op_requestID op, operationCode (op_kind op)).

Definition readerTags (st : readerState) : list (Z * Z) :=
  match st with
  | RReply r => [rtag r]
  | RDispatch op => [otag op]
  | RReading | RStopped => []
  end.

Definition queueTags (sid : nat) (p : process) : list (Z * Z) :=
  omap (fun e => if decide (e.1 = sid) then Some (otag e.2) else None) (mjoin (queues p)).

Definition workerTags (sid : nat) (p : process) : list (Z * Z) :=
  omap (fun e => match e with
                 | Some (s, r) => if decide (s = sid) then Some (rtag r) else None
                 | None => None
                 end) (workers p).

Definition dispatching (st : readerState) : nat :=
  match st with RDispatch _ => 1 | _ => 0 end.

(** ** Responses the server may send *)

Definition good_response (r : Response) : Prop := response_typed r /\ encodable r /\ wireNormal r.

Definition good_operation (op : operation) : Prop :=
  is_u64 (op_requestID op) /\ is_u64 (op_requestedTTLMS op).

Definition good_reader (st : readerState) : Prop :=
  match st with
  | RReply r => good_response r
  | RDispatch op => good_operation op
  | RReading | RStopped => True
  end.

(** [Q] and [W]: the tags of the session's operations in the shard queues and of
    its responses in the hands of workers. *)
Record session_ok (Q W : list (Z * Z)) (x : session) : Prop := {
  so_bytes : Forall is_u8 (rInput (sInput x));
  so_reader : good_reader (sReading x);
  so_queue : Forall good_response (respQueue x);
  so_account : (rtag <$> answered x) ++ (rtag <$> respQueue x) ++ readerTags (sReading x) ++ Q ++ W
    ⊆+ received x;
  so_pending : pending x = Z.of_nat (dispatching (sReading x) + length Q + length W)
}.

Record process_inv (hash : Z -> Z) (p : process) : Prop := {
  pi_server : reachable hash (server p);
  pi_queues : length (queues p) = Z.to_nat (shardMask (server p) + 1);
  pi_ops : forall i q e, queues p !! i = Some q -> e ∈ q ->
    good_operation e.2 /\ shardIndex hash (server p) (op_key e.2) = i /\ is_Some (sessions p !! e.1);
  pi_workers : forall i sid r, workers p !! i = Some (Some (sid, r)) ->
    good_response r /\ is_Some (sessions p !! sid);
  pi_sessions : forall sid x, sessions p !! sid = Some x ->
    session_ok (queueTags sid p) (workerTags sid p) x
}.

#[export] Instance session_ok_Proper :
  Proper ((≡ₚ) ==> (≡ₚ) ==> eq ==> iff) session_ok.
Proof.
  intros Q Q' HQ W W' HW x ? <-.
  split; intros [H1 H2 H3 H4 H5]; split; try done; [rewrite <- HQ, <- HW|rewrite <- HQ, <- HW|
    rewrite HQ, HW|rewrite HQ, HW]; done.
Qed.

(** ** Replies of the lease table *)

Section Safety.
Context `{FlatBuffers} (hash : Z -> Z).

Lemma response_good id op status ttl :
  is_u64 id -> 1 <= op <= 4 -> 0 <= status <= 5 -> 0 <= ttl <= MaxTTLMS ->
  (op = 3 -> ttl = 0) -> (op = 4 -> status = 0) -> good_response (mkResponse id op status ttl).
Proof.
  unfold MaxTTLMS. intros Hid Hop Hst Httl H3 H4. unfold is_u64 in Hid. split; [|split].
  - split; simpl; unfold is_u64, is_u8; lia.
  - split; simpl; unfold LeaseStatusKEY_LIMIT_REACHED, ClientOperationACQUIRE, ClientOperationGET_TTL; lia.
  - by split.
Qed.

Lemma statusResponse_good op status :
  good_operation op -> 0 <= status <= 5 ->
  good_response (statusResponse op status) /\ rtag (statusResponse op status) = otag op.
Proof.
  intros [Hid _] Hst. destruct op as [id [] key lid ttl]; (split; [|done]);
    apply response_good; unfold ClientOperationACQUIRE, ClientOperationRENEW, ClientOperationRELEASE,
      MaxTTLMS; simpl in *; done || lia.
Qed.

Lemma spec_reply_good mt mk t op now :
  0 < mt <= MaxTTLMS -> good_operation op -> (forall k id d, t !! k = Some (id, d) -> now < d) ->
  let r := (specApply mt mk t op now).2 in good_response r /\ rtag r = otag op.
Proof.
  intros Hmt [Hid Hreq] Hlive. unfold MaxTTLMS in Hmt. unfold is_u64 in Hreq.
  assert (Hrem : forall d, now < d -> 0 <= specRemaining mt d now <= mt).
  { intros d Hd. unfold specRemaining, Millisecond. pose proof (Z.div_pos (d - now) 1000000). lia. }
  unfold specApply, specAcquire, specRenew, specRelease, acquireResponse, renewResponse,
    releaseResponse, rtag, otag.
  destruct (op_kind op) eqn:Hk, (t !! op_key op) as [[id d]|] eqn:Hl; try specialize (Hlive _ _ _ Hl);
    repeat case_decide; simpl; (split; [|done]); apply response_good; try done;
    unfold LeaseStatusOK, LeaseStatusALREADY_OWNED, LeaseStatusBUSY, LeaseStatusSTALE,
      LeaseStatusKEY_LIMIT_REACHED, ClientOperationACQUIRE, ClientOperationRENEW,
      ClientOperationRELEASE, MaxTTLMS; try lia.
  all: match goal with |- context [specRemaining _ ?d _] => specialize (Hrem d); lia end.
Qed.

Lemma reply_good s op now got s' r :
  reachable hash s -> good_operation op ->
  submitOperation hash s op now got = Some (s', Some r) -> good_response r /\ rtag r = otag op.
Proof.
  intros [Hinv _]%reachable_run_inv Hop Hsub.
  destruct (decide (phase s = phaseActive)) as [Hact|Hact];
    [|by rewrite submitOperation_inactive in Hsub].
  destruct (submitOperation_active hash s op now got) as (s1 & r1 & Hr & _ & _ & Hs);
    [done..|destruct Hop as [_ [? _]]; done|].
  rewrite Hr in Hsub. injection Hsub as -> ->. apply (f_equal snd) in Hs. simpl in Hs. rewrite Hs.
  apply spec_reply_good; [apply Hinv|done|]. by intros k id d [_ ?]%live_Some.
Qed.

(** ** Decoded requests are well typed *)

Lemma leVal_bound bs : Forall is_u8 bs -> 0 <= leVal bs < 256 ^ Z.of_nat (length bs).
Proof.
  induction 1 as [|b bs Hb Hbs IH]; [simpl; lia|].
  simpl leVal. simpl length. rewrite Nat2Z.inj_succ, Z.pow_succ_r by lia. unfold is_u8 in Hb. lia.
Qed.

Lemma getUint64_u64 buf off z : Forall is_u8 buf -> getUint64 buf off = Some z -> is_u64 z.
Proof.
  unfold getUint64, slice. intros Hb. case_decide as Hr; [|done]. intros [= <-].
  pose proof (leVal_bound (take 8 (drop (Z.to_nat off) buf))) as Hv.
  rewrite length_take_le in Hv by (rewrite length_drop; lia).
  apply Hv. by apply Forall_take, Forall_drop.
Qed.

Lemma uint64Field_u64 vt r z : Forall is_u8 (Bytes r) -> uint64Field vt r = Some z -> is_u64 z.
Proof.
  unfold uint64Field. intros Hb Hz. destruct (fbOffset _ _ _) as [o|]; [|done]. simpl in Hz.
  case_decide; [by eapply getUint64_u64|]. injection Hz as <-. unfold is_u64. lia.
Qed.

Lemma decodeRequest_good frame : Forall is_u8 frame ->
  match decodeRequest frame with
  | decodedOperation op => good_operation op
  | decodedGetTTL id => is_u64 id
  | decodedMalformed => True
  end.
Proof.
  intros Hb. unfold decodeRequest. destruct (decodeRequestBody frame) as [d|] eqn:Hd; [|done].
  simpl. unfold decodeRequestBody in Hd.
  destruct (GetSizePrefixedRootAsClientRequest frame) as [root|] eqn:Hroot; [|done].
  assert (Hrb : Bytes root = frame).
  { unfold GetSizePrefixedRootAsClientRequest in Hroot. destruct (getUint32 _ _); simplify_eq/=. done. }
  assert (Hst : forall vt s, structField vt root = Some (Some s) -> Bytes s = frame).
  { intros vt s. unfold structField. destruct (fbOffset _ _ _); simpl; [|done].
    case_decide; [|done]. by intros [= <-]. }
  assert (H0 : is_u64 0) by in_range.
  unfold ClientRequest_Operation, ClientRequest_RequestId, ClientRequest_Acquire, ClientRequest_Renew,
    ClientRequest_Release, AcquireRequest_RequestedTtlMs, RenewRequest_RequestedTtlMs, uint64At in Hd.
  simpl in Hd. destruct (byteField 6 root) as [k|]; [|done]. simpl in Hd.
  repeat (case_match || simplify_option_eq); try done.
  all: try (by eapply uint64Field_u64).
  all: split; simpl; first [done | by eapply uint64Field_u64
    | eapply getUint64_u64; [|done]; by erewrite Hst].
Qed.

Lemma ReadFrame_bytes r r' x : Forall is_u8 (rInput r) -> ReadFrame r = (r', x) ->
  Forall is_u8 (rInput r') /\ (forall frame, x = inr frame -> Forall is_u8 frame).
Proof.
  intros Hb. unfold ReadFrame, peek.
  repeat case_match; intros; simplify_eq/=; split; try done; intros; simplify_eq;
    auto using Forall_take, Forall_drop.
Qed.

(** ** Preservation *)

Definition entryTags (sid : nat) (e : nat * operation) : list (Z * Z) :=
  if decide (e.1 = sid) then [otag e.2] else [].

Definition deliveryTags (sid : nat) (e : option (nat * Response)) : list (Z * Z) :=
  match e with
  | Some (s, r) => if decide (s = sid) then [rtag r] else []
  | None => []
  end.

Lemma omap_entry sid e :
  omap (fun e : nat * operation => if decide (e.1 = sid) then Some (otag e.2) else None) [e] =
  entryTags sid e.
Proof. unfold entryTags. simpl. by case_decide. Qed.

Lemma queueTags_push p i q e sid s w ss :
  queues p !! i = Some q ->
  queueTags sid (mkProcess s (<[i := q ++ [e]]> (queues p)) w ss) ≡ₚ queueTags sid p ++ entryTags sid e.
Proof.
  intros Hi. unfold queueTags. simpl. rewrite (list_insert_Permutation _ _ _ (q ++ [e]) Hi).
  rewrite (delete_Permutation _ _ _ Hi) at 2. simpl. rewrite !omap_app, omap_entry. solve_Permutation.
Qed.

Lemma queueTags_pop p i q e sid s w ss :
  queues p !! i = Some (e :: q) ->
  queueTags sid p ≡ₚ entryTags sid e ++ queueTags sid (mkProcess s (<[i := q]> (queues p)) w ss).
Proof.
  intros Hi. unfold queueTags. simpl. rewrite (list_insert_Permutation _ _ _ q Hi).
  rewrite (delete_Permutation _ _ _ Hi) at 1. unfold entryTags. simpl.
  case_decide; simpl; rewrite !omap_app; done.
Qed.

Lemma workerTags_put p i old new sid s q ss :
  workers p !! i = Some old ->
  deliveryTags sid old ++ workerTags sid (mkProcess s q (<[i := new]> (workers p)) ss) ≡ₚ
  deliveryTags sid new ++ workerTags sid p.
Proof.
  intros Hi. unfold workerTags. simpl. rewrite (list_insert_Permutation _ _ _ new Hi).
  rewrite (delete_Permutation _ _ _ Hi) at 2. simpl.
  destruct old as [[s1 r1]|], new as [[s2 r2]|]; simpl; repeat case_decide; simpl; solve_Permutation.
Qed.

Lemma inv_session p sid x :
  process_inv hash p -> session_ok (queueTags sid p) (workerTags sid p) x ->
  process_inv hash (putSession p sid x).
Proof.
  intros [H1 H2 H3 H4 H5] Hx.
  assert (Hsome : forall s, is_Some (sessions p !! s) -> is_Some (<[sid:=x]> (sessions p) !! s)).
  { intros s Hs. destruct (decide (s = sid)) as [->|]; [by rewrite lookup_insert_eq|by rewrite lookup_insert_ne]. }
  split; simpl; try done.
  - intros i q e Hq He. destruct (H3 i q e Hq He) as (? & ? & ?). eauto.
  - intros i s r Hw. destruct (H4 i s r Hw). eauto.
  - intros s y [[<- <-]|[Hne Hy]]%lookup_insert_Some; [done|by apply H5].
Qed.

Lemma inv_server p s :
  process_inv hash p -> s = server p \/ server_step hash (server p) s ->
  process_inv hash (putServer p s).
Proof.
  intros Hp [->|Hs]; [by destruct Hp|]. destruct Hp as [H1 H2 H3 H4 H5].
  destruct (step_config hash _ _ Hs H1) as [Hc Hm].
  split; simpl; try done; [by eapply reachable_step|by rewrite Hm|].
  intros i q e Hq He. unfold shardIndex. rewrite Hm. by apply (H3 i q e).
Qed.

Lemma no_tags p sid : process_inv hash p -> sessions p !! sid = None ->
  queueTags sid p = [] /\ workerTags sid p = [].
Proof.
  intros [_ _ H3 H4 _] Hn. split; apply elem_of_nil_inv; intros y; [unfold queueTags|unfold workerTags];
    rewrite list_elem_of_omap; intros (e & He & Hy).
  - case_decide; [|done]. subst sid. apply list_elem_of_join in He as (q & He & Hq).
    apply list_elem_of_lookup_1 in Hq as [i Hi]. destruct (H3 i q e Hi He) as (_ & _ & [? Hs]). congruence.
  - destruct e as [[sid' r]|]; [|done]. case_decide; [|done]. subst sid'.
    apply list_elem_of_lookup_1 in He as [i Hi]. destruct (H4 i sid r Hi) as (_ & [? Hs]). congruence.
Qed.

Lemma accept_inv p sid input p' :
  process_inv hash p -> sessions p !! sid = None -> Forall is_u8 (rInput input) ->
  acceptConnection p sid input = Some p' -> process_inv hash p'.
Proof.
  intros Hp Hn Hb. unfold acceptConnection. destruct (unavailableError _); [done|]. intros [= <-].
  apply inv_session; [apply inv_server; [done|right; apply step_connections]|].
  destruct (no_tags p sid Hp Hn) as [HQ HW].
  change (queueTags sid (putServer p _)) with (queueTags sid p).
  change (workerTags sid (putServer p _)) with (workerTags sid p). rewrite HQ, HW. by split.
Qed.

Lemma processRequest_ok Q W s x x' frame :
  session_ok Q W x -> sReading x = RReading -> Forall is_u8 frame -> 0 < MaxTTL (config s) <= MaxTTLMS ->
  processRequest s x frame = inl x' -> session_ok Q W x'.
Proof.
  intros [H1 H2 H3 H4 H5] Hr Hf Hm Hx. unfold processRequest in Hx.
  pose proof (decodeRequest_good frame Hf) as Hd. rewrite Hr in *. simpl in H4.
  assert (Hadd : forall t A B, A ++ B ++ Q ++ W ⊆+ received x ->
    A ++ B ++ t :: Q ++ W ⊆+ received x ++ [t]).
  { intros t A B HAB. etrans; [|rewrite (Permutation_app_comm (received x)); by apply submseteq_skip].
    apply Permutation_submseteq. solve_Permutation. }
  destruct (decodeRequest frame) as [op|id|]; [..|done].
  - destruct (statusResponse_good op LeaseStatusNOT_READY) as [Hg Ht];
      [done|unfold LeaseStatusNOT_READY; lia|].
    case_decide; injection Hx as <-; split; simpl; try done; rewrite ?Ht; auto.
    rewrite H5. simpl. lia.
  - injection Hx as <-. split; simpl; try done; auto.
    apply response_good; unfold ClientOperationGET_TTL, LeaseStatusOK; done || lia.
Qed.

(** Accounting is insensitive to order and may forget requests. *)
Lemma account_perm (l l' k : list (Z * Z)) : l' ⊆+ k -> l ≡ₚ l' -> l ⊆+ k.
Proof. intros Hs Hp. by rewrite Hp. Qed.

Lemma account_forget (l l' k m : list (Z * Z)) : l' ⊆+ k -> l' ≡ₚ m ++ l -> l ⊆+ k.
Proof. intros Hs Hp. etrans; [|exact Hs]. rewrite Hp. apply submseteq_inserts_l. reflexivity. Qed.

Lemma stop_ok Q W x done_ :
  session_ok Q W x -> dispatching (sReading x) = 0%nat ->
  session_ok Q W (setReading x (sInput x) RStopped (pending x) done_ (received x)).
Proof.
  intros [H1 H2 H3 H4 H5] Hd. split; simpl; try done; [|by rewrite H5, Hd].
  eapply account_forget; [exact H4|]. instantiate (1 := readerTags (sReading x)). solve_Permutation.
Qed.

(** A response moves from the reader, or from a worker, to the queue. *)
Lemma enqueue_ok Q W cancelled x r x' ok :
  session_ok Q W x -> good_response r -> enqueueResponse cancelled x r = Some (x', ok) ->
  Forall good_response (respQueue x') /\ sInput x' = sInput x /\ sReading x' = sReading x /\
  pending x' = pending x /\ received x' = received x /\ answered x' = answered x /\
  (respQueue x' = respQueue x ++ [r] \/ respQueue x' = respQueue x).
Proof.
  intros Hx Hg. unfold enqueueResponse. pose proof (so_queue _ _ _ Hx).
  repeat case_match; intros; simplify_eq; simpl; split_and!; try done; auto.
  apply Forall_app_2; auto.
Qed.

Lemma reply_ok Q W cancelled x r x' ok done_ st :
  session_ok Q W x -> sReading x = RReply r -> enqueueResponse cancelled x r = Some (x', ok) ->
  st = RReading \/ st = RStopped ->
  session_ok Q W (setReading x' (sInput x') st (pending x') done_ (received x')).
Proof.
  intros Hx Hr He Hst. destruct (Hx) as [H1 H2 H3 H4 H5]. rewrite Hr in *. simpl in *.
  destruct (enqueue_ok Q W cancelled x r x' ok Hx H2 He) as (Hg & Hi & _ & Hp & Hrc & Ha & Hq).
  assert (Hnone : readerTags st = [] /\ dispatching st = 0%nat /\ good_reader st)
    by (destruct Hst as [-> | ->]; done).
  destruct Hnone as (Hn1 & Hn2 & Hn3).
  split; simpl; rewrite ?Hi, ?Hp, ?Hrc, ?Ha, ?Hn1, ?Hn2; try done.
  destruct Hq as [-> | ->].
  - eapply account_perm; [exact H4|]. rewrite fmap_app. simpl. solve_Permutation.
  - eapply account_forget; [exact H4|]. instantiate (1 := [rtag r]). solve_Permutation.
Qed.

Lemma deliver_ok Q W cancelled x r x' ok :
  session_ok Q (rtag r :: W) x -> good_response r -> enqueueResponse cancelled x r = Some (x', ok) ->
  session_ok Q W (setPending x' (pending x' - 1)).
Proof.
  intros Hx Hg He. destruct (Hx) as [H1 H2 H3 H4 H5].
  destruct (enqueue_ok _ _ cancelled x r x' ok Hx Hg He) as (Hg' & Hi & Hr & Hp & Hrc & Ha & Hq).
  split; simpl; rewrite ?Hi, ?Hr, ?Hp, ?Hrc, ?Ha; try done.
  - destruct Hq as [-> | ->].
    + eapply account_perm; [exact H4|]. rewrite fmap_app. simpl. solve_Permutation.
    + eapply account_forget; [exact H4|]. instantiate (1 := [rtag r]). solve_Permutation.
  - rewrite H5. simpl. lia.
Qed.

Lemma dispatch_ok Q W x op done_ :
  session_ok Q W x -> sReading x = RDispatch op ->
  session_ok (Q ++ [otag op]) W (setReading x (sInput x) RReading (pending x) done_ (received x)) /\
  session_ok Q W (setReading x (sInput x) RStopped (pending x - 1) done_ (received x)).
Proof.
  intros [H1 H2 H3 H4 H5] Hr. rewrite Hr in *. simpl in *. split; split; simpl; try done.
  - eapply account_perm; [exact H4|]. solve_Permutation.
  - rewrite H5, length_app. simpl. lia.
  - eapply account_forget; [exact H4|]. instantiate (1 := [otag op]). solve_Permutation.
  - rewrite H5. lia.
Qed.

Lemma inv_maxTTL p : process_inv hash p -> 0 < MaxTTL (config (server p)) <= MaxTTLMS.
Proof. intros Hp. destruct (reachable_run_inv hash _ (pi_server hash p Hp)) as [Hi _]. apply Hi. Qed.

(** A step that concerns one session, its queued operations and the worker
    serving it. *)
Lemma inv_update p s qs ws sid x :
  let p' := mkProcess s qs ws (<[sid := x]> (sessions p)) in
  process_inv hash p -> s = server p \/ server_step hash (server p) s ->
  length qs = length (queues p) ->
  (forall i q e, qs !! i = Some q -> e ∈ q -> good_operation e.2 /\
     shardIndex hash (server p) (op_key e.2) = i /\ is_Some (sessions p !! e.1)) ->
  (forall i s r, ws !! i = Some (Some (s, r)) -> good_response r /\ is_Some (sessions p !! s)) ->
  session_ok (queueTags sid p') (workerTags sid p') x ->
  (forall t, t <> sid -> queueTags t p' ≡ₚ queueTags t p /\ workerTags t p' ≡ₚ workerTags t p) ->
  process_inv hash p'.
Proof.
  intros p' Hp Hs Hlen Hqs Hws Hx Hother. destruct (Hp) as [H1 H2 H3 H4 H5].
  assert (Hcfg : reachable hash s /\ shardMask s = shardMask (server p)).
  { destruct Hs as [->|Hs]; [done|]. split; [by eapply reachable_step|].
    by destruct (step_config hash _ _ Hs H1). }
  destruct Hcfg as [Hr Hm].
  assert (Hsome : forall t, is_Some (sessions p !! t) -> is_Some (<[sid:=x]> (sessions p) !! t)).
  { intros t Ht. destruct (decide (t = sid)) as [->|]; [by rewrite lookup_insert_eq|by rewrite lookup_insert_ne]. }
  split; simpl; try done.
  - by rewrite Hlen, Hm.
  - intros i q e Hq He. destruct (Hqs i q e Hq He) as (? & ? & ?).
    unfold shardIndex. rewrite Hm. split_and!; [done..|by apply Hsome].
  - intros i t r Hw. destruct (Hws i t r Hw). split; [done|by apply Hsome].
  - intros t y [[<- <-]|[Hne Hy]]%lookup_insert_Some; [done|].
    destruct (Hother t) as [-> ->]; [done|]. by apply H5.
Qed.

(** The reader appends the operation to the queue of its shard. *)
Lemma inv_dispatch p sid x op i q :
  process_inv hash p -> sessions p !! sid = Some x -> sReading x = RDispatch op ->
  queues p !! i = Some q -> shardIndex hash (server p) (op_key op) = i ->
  process_inv hash (putSession (mkProcess (server p) (<[i := q ++ [(sid, op)]]> (queues p)) (workers p)
    (sessions p)) sid (setReading x (sInput x) RReading (pending x) (recvDone x) (received x))).
Proof.
  intros Hp Hx Hr Hq Hi. destruct (Hp) as [H1 H2 H3 H4 H5]. pose proof (H5 sid x Hx) as Hok.
  assert (Hop : good_operation op) by (pose proof (so_reader _ _ _ Hok) as Hg; by rewrite Hr in Hg).
  apply (inv_update p (server p) _ (workers p)); simpl; try done; try (by left).
  - by rewrite length_insert.
  - intros j q0 e [(<- & <- & _)|[Hne Hj]]%list_lookup_insert_Some He; [|by apply (H3 j q0)].
    apply elem_of_app in He as [He|He]; [by apply (H3 i q)|].
    apply list_elem_of_singleton in He as ->. simpl. split_and!; [done..|by eexists].
  - rewrite queueTags_push by done. unfold entryTags. simpl. rewrite decide_True by done.
    by apply dispatch_ok.
  - intros t Ht. rewrite queueTags_push by done. unfold entryTags. simpl.
    rewrite decide_False by done. by rewrite app_nil_r.
Qed.

Lemma receive_inv p sid x p' :
  process_inv hash p -> sessions p !! sid = Some x -> receiveStep hash p sid x = Some p' ->
  process_inv hash p'.
Proof.
  intros Hp Hx. pose proof (pi_sessions hash p Hp sid x Hx) as Hok. unfold receiveStep.
  destruct (sReading x) as [|r|op|] eqn:Hr; [..|done].
  - destruct (ReadFrame (sInput x)) as [input res] eqn:Hread.
    destruct (ReadFrame_bytes _ _ _ (so_bytes _ _ _ Hok) Hread) as [Hb Hf].
    set (x1 := setReading x input RReading (pending x) (recvDone x) (received x)).
    assert (Hok1 : session_ok (queueTags sid p) (workerTags sid p) x1)
      by (destruct Hok as [H1 H2 H3 H4 H5]; rewrite Hr in *; by split).
    assert (Hstop : forall d, process_inv hash (putSession p sid
      (setReading x1 (sInput x1) RStopped (pending x1) d (received x1))))
      by (intros d; apply inv_session; [done|by apply stop_ok]).
    destruct res as [err|frame]; [by intros [= <-]|].
    destruct (unavailableError (server p)); [by intros [= <-]|].
    destruct (processRequest (server p) x1 frame) as [x2|err] eqn:Hpr; [|by intros [= <-]].
    intros [= <-]. apply inv_session; [done|].
    eapply processRequest_ok; [exact Hok1|done|by apply Hf|by apply inv_maxTTL|done].
  - destruct (enqueueResponse _ x r) as [[x1 ok]|] eqn:He; [|done]. simpl.
    destruct ok; intros [= <-]; (apply inv_session; [done|]); eapply reply_ok; eauto.
  - unfold dispatch. destruct (queues p !! _) as [q|] eqn:Hq; [|done]. case_decide.
    + intros [= <-]. by eapply inv_dispatch.
    + destruct (sessionCancelled p x); [|done]. intros [= <-].
      apply inv_session; [done|]. by eapply dispatch_ok.
Qed.

(** An operation leaves its queue with a reply or without one. *)
Lemma take_ok Q W x t : session_ok (t :: Q) W x ->
  session_ok Q (t :: W) x /\ session_ok Q W (setPending x (pending x - 1)).
Proof.
  intros [H1 H2 H3 H4 H5]. simpl in *. split; split; simpl; try done.
  - eapply account_perm; [exact H4|]. solve_Permutation.
  - rewrite H5. simpl. lia.
  - eapply account_forget; [exact H4|]. instantiate (1 := [t]). solve_Permutation.
  - rewrite H5. simpl. lia.
Qed.

Lemma deliver_inv p i sid r x x1 ok :
  process_inv hash p -> workers p !! i = Some (Some (sid, r)) -> sessions p !! sid = Some x ->
  enqueueResponse (sessionCancelled p x) x r = Some (x1, ok) ->
  process_inv hash (mkProcess (server p) (queues p) (<[i:=None]> (workers p))
    (<[sid := setPending x1 (pending x1 - 1)]> (sessions p))).
Proof.
  intros Hp Hw Hx He. destruct (Hp) as [H1 H2 H3 H4 H5]. destruct (H4 i sid r Hw) as [Hg _].
  assert (Hput : forall t p', p' = mkProcess (server p) (queues p) (<[i:=None]> (workers p))
    (<[sid := setPending x1 (pending x1 - 1)]> (sessions p)) ->
    deliveryTags t (Some (sid, r)) ++ workerTags t p' ≡ₚ workerTags t p).
  { intros t p' ->. by rewrite (workerTags_put p i (Some (sid, r)) None) by done. }
  apply (inv_update p (server p) (queues p)); simpl; try done; try (by left).
  - intros j s0 r0 [(<- & ? & _)|[Hne Hj]]%list_lookup_insert_Some; [done|by apply (H4 j)].
  - eapply deliver_ok; [|exact Hg|exact He]. specialize (H5 sid x Hx).
    specialize (Hput sid _ eq_refl). simpl in Hput. rewrite decide_True in Hput by done.
    by rewrite <- Hput in H5.
  - intros t Ht. split; [done|]. specialize (Hput t _ eq_refl). simpl in Hput.
    by rewrite decide_False in Hput.
Qed.

Lemma apply_inv p i sid op q x now got s r :
  process_inv hash p -> workers p !! i = Some None -> queues p !! i = Some ((sid, op) :: q) ->
  sessions p !! sid = Some x -> applyOperation (server p) i op now got = Some (s, r) ->
  process_inv hash
    (match r with
     | Some r => mkProcess s (<[i := q]> (queues p)) (<[i := Some (sid, r)]> (workers p)) (sessions p)
     | None => mkProcess s (<[i := q]> (queues p)) (workers p)
                 (<[sid := setPending x (pending x - 1)]> (sessions p))
     end).
Proof.
  intros Hp Hw Hq Hx Ha. destruct (Hp) as [H1 H2 H3 H4 H5].
  destruct (H3 i _ (sid, op) Hq) as (Hop & Hi & _); [left|]. simpl in *.
  assert (Hsub : submitOperation hash (server p) op now got = Some (s, r))
    by (unfold submitOperation; by rewrite Hi).
  assert (Hstep : server_step hash (server p) s)
    by (eapply step_operation; [|exact Hsub]; by destruct Hop as [_ [? _]]).
  assert (Hops : forall j q0 e, <[i:=q]> (queues p) !! j = Some q0 -> e ∈ q0 -> good_operation e.2 /\
    shardIndex hash (server p) (op_key e.2) = j /\ is_Some (sessions p !! e.1)).
  { intros j q0 e [(<- & <- & _)|[Hne Hj]]%list_lookup_insert_Some He; [|by apply (H3 j q0)].
    apply (H3 i ((sid, op) :: q)); [done|by right]. }
  assert (Hpop : forall t w ss, queueTags t p ≡ₚ (if decide (sid = t) then [otag op] else []) ++
    queueTags t (mkProcess s (<[i:=q]> (queues p)) w ss))
    by (intros; by rewrite (queueTags_pop p i q (sid, op) t s w ss) at 1).
  specialize (H5 sid x Hx).
  assert (Hother : forall t w ss, t <> sid -> queueTags t (mkProcess s (<[i:=q]> (queues p)) w ss) ≡ₚ queueTags t p).
  { intros t w ss Hne. rewrite (Hpop t w ss). by rewrite decide_False. }
  assert (Hown : forall w ss, session_ok (otag op :: queueTags sid (mkProcess s (<[i:=q]> (queues p)) w ss))
    (workerTags sid p) x).
  { intros w ss. rewrite (Hpop sid w ss), decide_True in H5 by done. done. }
  destruct r as [r|].
  - destruct (reply_good _ _ _ _ _ _ H1 Hop Hsub) as [Hg Ht].
    rewrite <- (insert_id (sessions p) sid x) by done.
    set (p' := mkProcess _ _ _ _).
    assert (Hput : forall t, workerTags t p' ≡ₚ deliveryTags t (Some (sid, r)) ++ workerTags t p).
    { intros t. exact (workerTags_put p i None (Some (sid, r)) t s (<[i:=q]> (queues p))
        (<[sid:=x]> (sessions p)) Hw). }
    apply (inv_update p); simpl; try done; [by right|by rewrite length_insert|..].
    + intros j s0 r0 [(<- & [= <- <-] & _)|[Hne Hj]]%list_lookup_insert_Some; [by eauto|by apply (H4 j)].
    + fold p'. rewrite (Hput sid). simpl. rewrite decide_True, Ht by done.
      exact (proj1 (take_ok _ _ _ _ (Hown _ _))).
    + intros t Hne. fold p'. rewrite (Hput t). split; [by apply Hother|]. simpl. by rewrite decide_False.
  - apply (inv_update p); simpl; try done; [by right|by rewrite length_insert|..].
    + exact (proj2 (take_ok _ _ _ _ (Hown _ _))).
    + intros t Hne. split; [by apply Hother|done].
Qed.

Lemma worker_inv p i now got p' :
  process_inv hash p -> workerStep p i now got = Some p' -> process_inv hash p'.
Proof.
  intros Hp. unfold workerStep. destruct (workers p !! i) as [[[sid r]|]|] eqn:Hw; [..|done]; simpl.
  - destruct (sessions p !! sid) as [x|] eqn:Hx; [|done]. simpl.
    destruct (enqueueResponse _ x r) as [[x1 ok]|] eqn:He; [|done]. simpl. intros [= <-].
    by eapply deliver_inv.
  - destruct (queues p !! i) as [[|[sid op] q]|] eqn:Hq; [done| |done]. simpl.
    destruct (sessions p !! sid) as [x|] eqn:Hx; [|done]. simpl.
    destruct (applyOperation (server p) i op now got) as [[s r]|] eqn:Ha; [|done]. simpl.
    pose proof (apply_inv p i sid op q x now got s r Hp Hw Hq Hx Ha) as Hinv.
    destruct r; by intros [= <-].
Qed.

(** A response leaves the queue, into the writer's buffer or dropped. *)
Lemma pop_ok Q W x r q w st done_ :
  session_ok Q W x -> respQueue x = r :: q ->
  session_ok Q W (setWriting x q w st done_ (answered x ++ [r])) /\
  session_ok Q W (setWriting x q w st done_ (answered x)).
Proof.
  intros [H1 H2 H3 H4 H5] Hq. rewrite Hq in *. apply list.Forall_cons in H3 as [_ H3].
  split; split; simpl; try done.
  - eapply account_perm; [exact H4|]. rewrite fmap_app. simpl. solve_Permutation.
  - eapply account_forget; [exact H4|]. instantiate (1 := [rtag r]). simpl. solve_Permutation.
Qed.

Lemma writer_only_ok Q W x w st done_ :
  session_ok Q W x -> session_ok Q W (setWriting x (respQueue x) w st done_ (answered x)).
Proof. intros [H1 H2 H3 H4 H5]. by split. Qed.

Lemma bufferResponse_good ok s w r : good_response r -> (bufferResponse ok s w r).1.1 = s.
Proof.
  intros (_ & He & _). unfold bufferResponse. destruct (unavailableError s); [done|].
  apply encodeResponse_Some in He as [frame ->]. by destruct (BufferFrame ok w frame) as [? []].
Qed.

Lemma send_inv ok choice p sid x p' :
  process_inv hash p -> sessions p !! sid = Some x -> sendStep ok choice p sid x = Some p' ->
  process_inv hash p' /\ server p' = server p.
Proof.
  intros Hp Hx. pose proof (pi_sessions hash p Hp sid x Hx) as Hok. unfold sendStep.
  assert (Hs : forall y, session_ok (queueTags sid p) (workerTags sid p) y ->
    process_inv hash (putSession (putServer p (server p)) sid y))
    by (intros y Hy; apply inv_session; [by apply inv_server; [|left]|done]).
  destruct (sWriting x) as [recvNil|]; [|done]. destruct (respQueue x) as [|r q] eqn:Hq.
  - repeat case_match; intros; simplify_eq; (split; [apply Hs|done]); try done;
      rewrite <- Hq; by apply writer_only_ok.
  - assert (Hg : good_response r) by (pose proof (so_queue _ _ _ Hok) as Hf; rewrite Hq in Hf; by inversion Hf).
    pose proof (bufferResponse_good ok (server p) (sWriter x) r Hg) as Hsrv.
    destruct (bufferResponse ok (server p) (sWriter x) r) as [[s w] err]. simpl in Hsrv. subst s.
    destruct err; intros [= <-]; (split; [apply Hs|done]); by apply pop_ok with (r := r).
Qed.

Lemma closeInput_ok Q W keep x : session_ok Q W x -> session_ok Q W (closeInput keep x).
Proof. intros [H1 H2 H3 H4 H5]. split; simpl; try done. by apply Forall_take. Qed.

Lemma process_step_inv p p' :
  process_inv hash p -> process_step hash p p' -> process_inv hash p'.
Proof.
  intros Hp Hstep. pose proof (pi_sessions hash p Hp) as Hss. destruct Hstep.
  - by eapply accept_inv.
  - by eapply receive_inv.
  - by eapply worker_inv.
  - by eapply send_inv.
  - apply inv_session; [done|]. by apply closeInput_ok, Hss.
  - apply inv_session; [done|]. destruct (closeInput_ok _ _ keep x (Hss sid x H0)). by split.
  - apply inv_server; [done|right; apply step_connections].
  - apply inv_session; [done|]. unfold discardResponses in *. destruct (responsesDone x); simplify_eq.
    destruct (Hss sid x H0) as [G1 G2 G3 G4 G5]. split; simpl; try done.
    eapply account_forget; [exact G4|]. instantiate (1 := rtag <$> respQueue x). solve_Permutation.
  - apply inv_server; [done|right; by eapply step_cleanup].
  - apply inv_server; [done|right; apply step_quarantine].
  - apply inv_server; [done|]. unfold acceptFailed. destruct (unavailableError _); [by left|right].
    apply step_fail. by left.
  - apply inv_server; [done|right; apply step_close].
Qed.

Lemma process_reachable_inv p : process_reachable hash p -> process_inv hash p.
Proof.
  induction 1 as [c s Hc Hnew|p p' _ IH Hs]; [|by eapply process_step_inv].
  assert (Hr : reachable hash s) by by eapply reachable_new.
  destruct (reachable_run_inv hash s Hr) as [[_ _ [_ Hlen _ _] _ _] _].
  split; simpl; try done.
  - by rewrite length_replicate.
  - intros i q e [-> _]%lookup_replicate He. by apply elem_of_nil in He.
  - by intros i sid r [? _]%lookup_replicate.
Qed.

End Safety.

(** ** Failures *)

Lemma fatal_step `{FlatBuffers} hash p p' :
  process_inv hash p -> process_step hash p p' ->
  fatal (server p') = fatal (server p) \/ fatal (server p') = fatal (server p) ++ [failAccept].
Proof.
  intros Hp Hstep. destruct (reachable_run_inv hash _ (pi_server hash p Hp)) as [Hinv _].
  destruct Hstep; simpl; auto.
  - unfold acceptConnection in *. destruct (unavailableError _); [done|]. simplify_eq. by left.
  - left. unfold receiveStep, dispatch in *. repeat case_match; simplify_option_eq; try done.
    all: repeat case_match; simplify_eq; done.
  - left. unfold workerStep in *. destruct (workers p !! i) as [[[sid r]|]|]; simplify_option_eq.
    + by repeat case_match; simplify_eq.
    + destruct (queues p !! i) as [[|[sid op] q]|] eqn:Hq; simplify_option_eq.
      destruct (pi_ops hash p Hp i _ (sid, op) Hq) as ([_ [Ht _]] & Hi & _); [left|]. simpl in Ht.
      destruct (submitOperation_inv hash (server p) op now got Hinv Ht) as (s' & r & Hr & _ & Hl).
      apply lifecycle_fatal in Hl. unfold submitOperation in Hr. simpl in Hi. rewrite Hi in Hr.
      simplify_option_eq.
      by repeat case_match; simplify_eq.
  - left. by destruct (send_inv hash ok choice p sid x p' Hp) as [_ ->].
  - left. destruct (cleanupTick_inv hash (server p) now Hinv) as (s2 & Hs2 & _ & Hl).
    apply lifecycle_fatal in Hl. by simplify_eq.
  - left. unfold quarantineElapsed. by case_decide.
  - unfold acceptFailed. destruct (unavailableError _); [by left|]. unfold fail.
    destruct (failOnce _); [by left|]. simpl. case_decide; [by left|by right].
  - left. unfold Close. by destruct (closeOnce _).
Qed.

(** ** A concrete process for the witnesses *)

Definition demoInput : FrameReader :=
  mkReader (encodeRequest (H:=plainBuffers) demoRequest) EOF 0.

Definition demoStart : process := startProcess demoNew.

Definition demoStep (f : process -> session -> option process) (p : process) : process :=
  match sessions p !! 0%nat with
  | Some x => default p (f p x)
  | None => p
  end.

Definition demoAccepted : process := default demoStart (acceptConnection demoStart 0 demoInput).
Definition demoReceived : process :=
  demoStep (fun p x => receiveStep (H:=plainBuffers) demoHash p 0 x) demoAccepted.
Definition demoReplied : process :=
  demoStep (fun p x => receiveStep (H:=plainBuffers) demoHash p 0 x) demoReceived.
Definition demoSent : process :=
  demoStep (fun p x => sendStep (H:=plainBuffers) flushOK wakeCtxDone p 0 x) demoReplied.

Lemma demoAccepted_reachable : process_reachable (H:=plainBuffers) demoHash demoAccepted.
Proof.
  eapply process_next; [apply (process_start _ demoConfig); [|reflexivity]|].
  - unfold config_typed, is_u64, is_u32. simpl. lia.
  - apply (pstep_accept _ _ 0 demoInput); [done|done| |reflexivity].
    apply (bool_decide_unpack (Forall (fun z => 0 <= z < 2 ^ 8) (rInput demoInput))). vm_compute. done.
Qed.

Lemma demoSent_reachable : process_reachable (H:=plainBuffers) demoHash demoSent.
Proof.
  assert (Hs : forall p, sessions p !! 0%nat <> None -> exists x, sessions p !! 0%nat = Some x).
  { intros p. destruct (sessions p !! 0%nat); [eauto|done]. }
  destruct (Hs demoAccepted) as [x1 Hx1]; [vm_compute; done|].
  destruct (Hs demoReceived) as [x2 Hx2]; [vm_compute; done|].
  destruct (Hs demoReplied) as [x3 Hx3]; [vm_compute; done|].
  eapply process_next; [eapply process_next; [eapply process_next;
    [apply demoAccepted_reachable|]|]|].
  - apply (pstep_receive _ _ 0 x1 demoReceived); [done|]. vm_compute in Hx1. injection Hx1 as <-. reflexivity.
  - apply (pstep_receive _ _ 0 x2 demoReplied); [done|]. vm_compute in Hx2. injection Hx2 as <-. reflexivity.
  - apply (pstep_send _ _ flushOK wakeCtxDone 0 x3); [done|]. vm_compute in Hx3. injection Hx3 as <-. reflexivity.
Qed.

(** ** Theorems *)

(** C14: on every connection, the responses written answer distinct requests
    received on that same connection, with their id and operation, however
    reader, shard workers and writer interleave; and the pending counter that
    delays the end of the response stream counts exactly the operations still
    in a queue or in the hands of a worker. *)
Theorem responses_answer_requests `{FlatBuffers} hash p sid x :
  process_reachable hash p -> sessions p !! sid = Some x ->
  rtag <$> answered x ⊆+ received x /\
  pending x = Z.of_nat (dispatching (sReading x) + length (queueTags sid p) + length (workerTags sid p)).
Proof.
  intros Hr Hx. destruct (pi_sessions hash p (process_reachable_inv hash p Hr) sid x Hx) as [_ _ _ Ha Hp].
  split; [|done]. etrans; [|exact Ha]. by apply submseteq_inserts_r.
Qed.

Lemma responses_answer_requests_witness :
  exists x, sessions demoSent !! 0%nat = Some x /\
  (rtag <$> answered x ⊆+ received x /\
   pending x = Z.of_nat (dispatching (sReading x) + length (queueTags 0 demoSent) +
                         length (workerTags 0 demoSent))) /\
  answered x = [acquireResponse 9 LeaseStatusNOT_READY 0].
Proof.
  destruct (sessions demoSent !! 0%nat) as [x|] eqn:Hx; [|vm_compute in Hx; done].
  exists x. split; [done|]. split.
  - apply (@responses_answer_requests plainBuffers demoHash demoSent 0 x);
      [apply demoSent_reachable|done].
  - vm_compute in Hx. injection Hx as <-. reflexivity.
Defined.

(** Every response the server produces can be encoded: no run ever reports
    an encoding failure, so the only fatal error of a server is a failed
    listener. *)
Theorem only_listener_failures `{FlatBuffers} hash p :
  process_reachable hash p -> Forall (eq failAccept) (fatal (server p)).
Proof.
  induction 1 as [c s Hc Hnew|p p' Hr IH Hs].
  - destruct (New_inv hash c s Hc Hnew) as (_ & Hf & _). simpl. by rewrite Hf.
  - destruct (fatal_step hash p p' (process_reachable_inv hash p Hr) Hs) as [-> | ->]; [done|].
    apply Forall_app_2; auto.
Qed.

Lemma only_listener_failures_witness : Forall (eq failAccept) (fatal (server demoSent)).
Proof. apply (@only_listener_failures plainBuffers demoHash demoSent), demoSent_reachable. Defined.

(** What a lock-server does with a client's request. In restart quarantine
    it answers NOT_READY with the request's id and operation and touches no
    lease; afterwards it hands the requested operation, unchanged, to the
    dispatcher and counts it as pending. *)
Theorem request_handling `{FlatBuffersLaws} s x r op :
  request_typed r -> requestedOperation r = Some op ->
  exists x', processRequest s x (encodeRequest r) = inl x' /\
    received x' = received x ++ [otag op] /\
    if decide (phase s = phaseQuarantine)
    then sReading x' = RReply (statusResponse op LeaseStatusNOT_READY) /\ pending x' = pending x
    else sReading x' = RDispatch op /\ pending x' = pending x + 1.
Proof.
  intros Hr Hop. unfold processRequest. rewrite (decode_encode_request r op) by done.
  case_decide; eexists; (split; [done|]); by split_and!.
Qed.

Lemma request_handling_witness :
  let op := mkOperation 9 operationAcquire 77 (LeaseID 12 (2 ^ 32 - 1) 3) 2500 in
  let x := newSession demoInput in
  exists x', processRequest (H:=plainBuffers) demoActive x (encodeRequest (H:=plainBuffers) demoRequest)
      = inl x' /\
    received x' = received x ++ [otag op] /\
    if decide (phase demoActive = phaseQuarantine)
    then sReading x' = RReply (statusResponse op LeaseStatusNOT_READY) /\ pending x' = pending x
    else sReading x' = RDispatch op /\ pending x' = pending x + 1.
Proof.
  intros op x. apply (@request_handling plainBuffers plainBuffers_laws demoActive x demoRequest op);
    [split; unfold is_u64, is_u32; simpl; lia|reflexivity].
Defined.
