(* ===== verification/Prometheus.v ===== *)
(** * Prometheus collectors (src/server/prometheus, src/clientmetrics/prometheus)

    The collectors translate a snapshot into metrics of the Prometheus client
    library, which is a parameter: the type class [PrometheusLibrary] has the
    constructors the collectors call, with their documented error behaviour. *)

From Stdlib Require Import SpecFloat.
From stdpp Require Import base list numbers strings.
From S2P Require Import Prelude Float64 Backoff Metrics MetricsSafety.
From S2P Require Import GoHeap LeaseShard Protocol Server Connection ConnectionSafety.

#[local] Open Scope Z_scope.
#[local] Open Scope string_scope.
#[local] Open Scope list_scope.

Inductive ValueType := GaugeValue | CounterValue.

(** What the collectors use of the library. [NewConstMetric] and
    [NewConstHistogram] fail only when the label values do not fit the variable
    labels of the description. *)
Class PrometheusLibrary := {
  Metric : Type;
  metricError : Type;
  constMetric : string -> ValueType -> float64 -> list string -> Metric;
  constHistogram : string -> Z -> float64 -> list (float64 * Z) -> list string -> Metric;
  NewInvalidMetric : string -> metricError -> Metric;
  NewConstMetric : string * list string -> ValueType -> float64 -> list string -> Metric + metricError;
  NewConstHistogram : string * list string -> Z -> float64 -> list (float64 * Z) -> list string -> Metric + metricError;
  NewConstMetric_labels : forall name labels kind value values,
    length labels = length values -> NewConstMetric (name, labels) kind value values = inl (constMetric name kind value values);
  NewConstHistogram_labels : forall name labels count sum buckets values,
    length labels = length values ->
    NewConstHistogram (name, labels) count sum buckets values = inl (constHistogram name count sum buckets values)
}.

(** A description: its name and its variable labels. *)
Notation Desc := (string * list string)%type.

Section Collectors.
Context `{PrometheusLibrary}.

(** ** The server's collector (src/server/prometheus/collector.go) *)

Definition serverStates : list string := ["quarantine"; "active"; "failed"; "closed"].

Definition stateDesc : Desc := ("redlease_server_state", ["state"]).
Definition residentKeysDesc : Desc := ("redlease_server_resident_keys", []).
Definition queuedOperationsDesc : Desc := ("redlease_server_queued_operations", []).
Definition activeConnectionsDesc : Desc := ("redlease_server_active_connections", []).
Definition acquiresTotalDesc : Desc := ("redlease_server_acquires_total", []).
Definition renewsTotalDesc : Desc := ("redlease_server_renews_total", []).
Definition releasesTotalDesc : Desc := ("redlease_server_releases_total", []).

(** [NewCollector] of a server; [None] is the nil pointer. *)
Definition newServerCollector {A} (server : option A) : option A := server.

Definition DescribeServer : list Desc :=
  [stateDesc; residentKeysDesc; queuedOperationsDesc; activeConnectionsDesc; acquiresTotalDesc; renewsTotalDesc;
   releasesTotalDesc].

Definition emit (description : Desc) (kind : ValueType) (value : float64) (labels : list string) : Metric :=
  match NewConstMetric description kind value labels with
  | inl metric => metric
  | inr err => NewInvalidMetric description.1 err
  end.

Definition CollectServer (snapshot : MetricsSnapshot) : list Metric :=
  ((fun state => emit stateDesc GaugeValue (floatOfZ (if decide (State snapshot = state) then 1 else 0)) [state]) <$>
     serverStates) ++
  [emit residentKeysDesc GaugeValue (floatOfZ (ResidentKeys snapshot)) [];
   emit queuedOperationsDesc GaugeValue (floatOfZ (QueuedOperations snapshot)) [];
   emit activeConnectionsDesc GaugeValue (floatOfZ (ActiveConnections snapshot)) [];
   emit acquiresTotalDesc CounterValue (floatOfZ (AcquiresTotal snapshot)) [];
   emit renewsTotalDesc CounterValue (floatOfZ (RenewsTotal snapshot)) [];
   emit releasesTotalDesc CounterValue (floatOfZ (ReleasesTotal snapshot)) []].

(** ** The clients' collector (src/clientmetrics/prometheus/collector.go) *)

Definition acquireDurationDesc : Desc := ("redlease_client_acquire_duration_seconds", ["result"]).
Definition resultAcquired : string := "acquired".
Definition resultNotAcquired : string := "not_acquired".

(** An assignment to a [map[float64]uint64]; no key is a NaN. *)
Fixpoint mapSet (key : float64) (value : Z) (m : list (float64 * Z)) : list (float64 * Z) :=
  match m with
  | [] => [(key, value)]
  | (k, v) :: m => if SFeqb k key then (k, value) :: m else (k, v) :: mapSet key value m
  end.

Definition emitHistogram (histogram : LatencyHistogram) (result : string) : Metric :=
  let buckets := foldl (fun m b => mapSet (Seconds (UpperBound b)) (bucketCount b) m) [] (Buckets histogram) in
  match NewConstHistogram acquireDurationDesc (Count histogram)
          (fdiv (floatOfZ (SumMicroseconds histogram)) (floatOfZ 1000000)) buckets [result] with
  | inl metric => metric
  | inr err => NewInvalidMetric acquireDurationDesc.1 err
  end.

Definition DescribeClient : list Desc := [acquireDurationDesc].

Definition CollectClient (snapshot : Snapshot) : list Metric :=
  [emitHistogram (Acquired snapshot) resultAcquired; emitHistogram (NotAcquired snapshot) resultNotAcquired].

(** ** Lemmas *)

(** The seventeen bounds are distinct as floating-point seconds. *)
Lemma exported_buckets was before after h :
  consistent was before after h ->
  foldl (fun m b => mapSet (Seconds (UpperBound b)) (bucketCount b) m) [] (Buckets h) =
    (fun b => (Seconds (UpperBound b), bucketCount b)) <$> Buckets h.
Proof.
  intros [Hb _ _ _ _ _]. destruct h as [count sum bs]. simpl in *. clear count sum.
  do 17 (destruct bs as [|[? ?] bs]; [by apply (f_equal length) in Hb|];
    injection Hb as -> Hb).
  destruct bs; [|done]. clear. vm_compute. reflexivity.
Qed.

(** ** Theorems *)

(** The collectors export what the snapshots say. The server's collector
    emits one gauge per state, of which exactly the one of the current phase is 1,
    and the six other values under the announced names; the clients' collector
    emits one histogram per result with the total, the sum in seconds and all
    seventeen buckets, none lost to rounding of its bound, in the order of the
    bounds. None of them is an invalid metric. *)
Theorem collectors_export p before after s :
  consistent true before after (Acquired s) -> consistent false before after (NotAcquired s) ->
  CollectServer (metricsSnapshot p) =
    ((fun state => constMetric "redlease_server_state" GaugeValue
        (floatOfZ (if decide (metricsState (phase (server p)) = state) then 1 else 0)) [state]) <$> serverStates) ++
    [constMetric "redlease_server_resident_keys" GaugeValue (floatOfZ (keys (server p))) [];
     constMetric "redlease_server_queued_operations" GaugeValue (floatOfZ (QueuedOperations (metricsSnapshot p))) [];
     constMetric "redlease_server_active_connections" GaugeValue (floatOfZ (u64 (activeConnections (server p)))) [];
     constMetric "redlease_server_acquires_total" CounterValue (floatOfZ (operationTotals (server p) operationAcquire)) [];
     constMetric "redlease_server_renews_total" CounterValue (floatOfZ (operationTotals (server p) operationRenew)) [];
     constMetric "redlease_server_releases_total" CounterValue (floatOfZ (operationTotals (server p) operationRelease)) []] /\
  length (filter (fun state => metricsState (phase (server p)) = state) serverStates) = 1%nat /\
  CollectClient s =
    (fun '(h, result) => constHistogram "redlease_client_acquire_duration_seconds" (Count h)
       (fdiv (floatOfZ (SumMicroseconds h)) (floatOfZ 1000000))
       ((fun b => (Seconds (UpperBound b), bucketCount b)) <$> Buckets h) [result]) <$>
    [(Acquired s, "acquired"); (NotAcquired s, "not_acquired")].
Proof.
  intros H1 H2. split_and!.
  - unfold CollectServer, serverStates, emit, stateDesc, residentKeysDesc, queuedOperationsDesc, activeConnectionsDesc,
      acquiresTotalDesc, renewsTotalDesc, releasesTotalDesc. simpl. by rewrite !NewConstMetric_labels.
  - by destruct (phase (server p)).
  - unfold CollectClient, emitHistogram, acquireDurationDesc. simpl.
    by rewrite (exported_buckets _ _ _ _ H1), (exported_buckets _ _ _ _ H2), !NewConstHistogram_labels.
Qed.

End Collectors.

(** A library in which a metric is what it was built from. *)
#[export] Instance plainLibrary : PrometheusLibrary := {|
  Metric := (string * ValueType * float64 * list string) + (string * Z * float64 * list (float64 * Z) * list string) + string;
  metricError := unit;
  constMetric name kind value values := inl (inl (name, kind, value, values));
  constHistogram name count sum buckets values := inl (inr (name, count, sum, buckets, values));
  NewInvalidMetric name _ := inr name;
  NewConstMetric d kind value values :=
    if decide (length d.2 = length values) then inl (inl (inl (d.1, kind, value, values))) else inr tt;
  NewConstHistogram d count sum buckets values :=
    if decide (length d.2 = length values) then inl (inl (inr (d.1, count, sum, buckets, values))) else inr tt;
  NewConstMetric_labels := ltac:(intros; simpl; case_decide; done);
  NewConstHistogram_labels := ltac:(intros; simpl; case_decide; done)
|}.

Lemma collectors_export_witness :
  exists s, Count (Acquired s) = 0 /\ length (CollectClient s) = 2%nat /\
    CollectClient s =
    (fun '(h, result) => constHistogram "redlease_client_acquire_duration_seconds" (Count h)
       (fdiv (floatOfZ (SumMicroseconds h)) (floatOfZ 1000000))
       ((fun b => (Seconds (UpperBound b), bucketCount b)) <$> Buckets h) [result]) <$>
    [(Acquired s, "acquired"); (NotAcquired s, "not_acquired")].
Proof.
  exists (mkMetrics emptyLatency emptyLatency). split_and!; [reflexivity..|].
  apply (collectors_export demoStart [] []); apply emptyLatency_consistent.
Defined.
