(* ===== verification/Endpoints.v ===== *)
(** * Metrics endpoints (src/cmd/redlease-server/main.go, src/cmd/redlease-load/metrics.go)

    The registries behind the endpoints and the exchange of the server's
    collector. The registry is that of the Prometheus client library: the class
    [PrometheusRegistry] has its documented behaviour. The HTTP server is present
    only as the path it serves. *)

From stdpp Require Import base sets list numbers strings.
From S2P Require Import Prelude Server Prometheus Launcher.

#[local] Open Scope string_scope.
#[local] Open Scope list_scope.

(** ** The registry *)

(** The collectors of the commands: those of the library for the Go runtime and
    the process, that of a server, and that of the clients of the load generator. *)
Inductive collector := colGo | colProcess | colServer (server : nat) | colClients.

#[export] Instance collector_eq_dec : EqDecision collector.
Proof. solve_decision. Defined.

Section Describe.
Context (goDescs processDescs : list string).

(** The names of the metrics of a collector. *)
Definition collectorNames (c : collector) : list string :=
  match c with
  | colGo => goDescs
  | colProcess => processDescs
  | colServer _ => DescribeServer.*1
  | colClients => DescribeClient.*1
  end.
End Describe.

(** A registry refuses a collector that announces a name in use, and identifies
    the collector to remove by what it announces. *)
Class PrometheusRegistry := {
  goDescs : list string;
  processDescs : list string;
  go_names : Forall (fun name => String.prefix "go_" name = true) goDescs;
  process_names : Forall (fun name => String.prefix "process_" name = true) processDescs;
  Registry : Type;
  NewRegistry : Registry;
  gathered : Registry -> list collector;
  Register : Registry -> collector -> option Registry;
  Unregister : Registry -> collector -> option Registry;
  NewRegistry_empty : gathered NewRegistry = [];
  Register_fresh r c :
    (forall c', c' ∈ gathered r -> collectorNames goDescs processDescs c ## collectorNames goDescs processDescs c') ->
    exists r', Register r c = Some r' /\ gathered r' ≡ₚ c :: gathered r;
  Register_taken r c c' name :
    c' ∈ gathered r -> name ∈ collectorNames goDescs processDescs c -> name ∈ collectorNames goDescs processDescs c' ->
    Register r c = None;
  Unregister_present r c :
    c ∈ gathered r -> exists r' c', Unregister r c = Some r' /\
      collectorNames goDescs processDescs c' = collectorNames goDescs processDescs c /\ gathered r ≡ₚ c' :: gathered r';
  Unregister_absent r c :
    (forall c', c' ∈ gathered r -> collectorNames goDescs processDescs c' <> collectorNames goDescs processDescs c) ->
    Unregister r c = None
}.

Section Endpoint.
Context `{PrometheusRegistry}.

Notation names := (collectorNames goDescs processDescs).

(** [newMetricsRegistry] *)
Definition newMetricsRegistry : option Registry :=
  r ← Register NewRegistry colGo; Register r colProcess.

(** [metricsHandler]: what a request for a path gets. *)
Definition metricsHandler (r : Registry) (path : string) : option (list collector) :=
  if decide (path = "/metrics") then Some (gathered r) else None.

(** [newMetricsHandler] *)
Definition newMetricsHandler (server : option nat) : option Registry :=
  r ← newMetricsRegistry; server ← newServerCollector server; Register r (colServer server).

(** ** The endpoint of the server *)

Record serverEndpoint := mkServerEndpoint { se_registry : Registry; se_collector : option nat }.

Inductive endpointError := errRegistry | errMetricsListen.

Definition startMetricsEndpoint (listens : bool) : endpointError + serverEndpoint :=
  match newMetricsRegistry with
  | None => inl errRegistry
  | Some r => if listens then inr (mkServerEndpoint r None) else inl errMetricsListen
  end.

(** The second half of [setServer], when no collector is left. *)
Definition exportServer (e : serverEndpoint) (server : option nat) : serverEndpoint * bool :=
  match newServerCollector server with
  | None => (e, false)
  | Some s =>
      match Register (se_registry e) (colServer s) with
      | None => (e, true)
      | Some r => (mkServerEndpoint r (Some s), false)
      end
  end.

(** [setServer]; the flag is whether it returns an error. *)
Definition exchangeServer (e : serverEndpoint) (server : option nat) : serverEndpoint * bool :=
  match se_collector e with
  | None => exportServer e server
  | Some old =>
      match Unregister (se_registry e) (colServer old) with
      | None => (e, true)
      | Some r => exportServer (mkServerEndpoint r None) server
      end
  end.

(** [Close]: the errors of the HTTP server and of the listener; that the listener
    is closed already is no error. *)
Definition closeEndpoint (serverErr listenerErr listenerErrClosed : bool) : bool :=
  serverErr || (listenerErr && negb listenerErrClosed).

(** A sequence of calls of [setServer]; [None] when one fails. *)
Fixpoint exchangeServers (e : serverEndpoint) (servers : list (option nat)) : option serverEndpoint :=
  match servers with
  | [] => Some e
  | server :: servers =>
      match exchangeServer e server with
      | (e, false) => exchangeServers e servers
      | (_, true) => None
      end
  end.

(** ** The endpoint of the load generator *)

Definition newLoadMetricsRegistry : option Registry :=
  r ← Register NewRegistry colGo; r ← Register r colProcess; Register r colClients.

Definition startLoadMetricsEndpoint (listens : bool) : endpointError + Registry :=
  match newLoadMetricsRegistry with
  | None => inl errRegistry
  | Some r => if listens then inr r else inl errMetricsListen
  end.

(** ** Lemmas *)

(** The class of a collector by the names it announces. *)
Definition prefixOf (c : collector) : string :=
  match c with colGo => "go_" | colProcess => "process_" | colServer _ => "redlease_server_" | colClients => "redlease_client_" end.

Lemma names_prefixed c : Forall (fun name => String.prefix (prefixOf c) name = true) (names c).
Proof. destruct c; [apply go_names|apply process_names|..]; repeat constructor. Qed.

Lemma prefix_comparable a b name :
  String.prefix a name = true -> String.prefix b name = true -> String.prefix a b = true \/ String.prefix b a = true.
Proof.
  revert a b. induction name as [|x name IH]; intros [|y a] [|z b]; simpl; try done; auto.
  destruct (Ascii.ascii_dec y x) as [->|]; [|done]. destruct (Ascii.ascii_dec z x) as [->|]; [|done].
  destruct (Ascii.ascii_dec x x); [|done]. apply IH.
Qed.

Lemma prefixes_exclusive c c' name :
  String.prefix (prefixOf c) name = true -> String.prefix (prefixOf c') name = true -> prefixOf c = prefixOf c'.
Proof. intros H1 H2. by destruct (prefix_comparable _ _ _ H1 H2) as [Hp|Hp], c, c'; vm_compute in Hp. Qed.

Lemma names_disjoint c c' : prefixOf c <> prefixOf c' -> names c ## names c'.
Proof.
  intros Hne name Hc Hc'. apply Hne. pose proof (names_prefixed c) as H1. pose proof (names_prefixed c') as H2.
  rewrite Forall_forall in H1, H2. eapply prefixes_exclusive; [by apply H1|by apply H2].
Qed.

Lemma Register_new r c l :
  gathered r ≡ₚ l -> prefixOf c ∉ prefixOf <$> l ->
  exists r', Register r c = Some r' /\ gathered r' ≡ₚ c :: l.
Proof.
  intros Hl Hc. destruct (Register_fresh r c) as (r' & Hr & Hg).
  - intros c' Hc'. apply names_disjoint. intros Heq. apply Hc. apply list_elem_of_fmap. exists c'. by rewrite <- Hl.
  - exists r'. by rewrite <- Hl.
Qed.

Lemma newMetricsRegistry_ok : exists r, newMetricsRegistry = Some r /\ gathered r ≡ₚ [colProcess; colGo].
Proof.
  destruct (Register_new NewRegistry colGo []) as (r1 & H1 & G1); [by rewrite NewRegistry_empty|set_solver|].
  destruct (Register_new r1 colProcess [colGo]) as (r2 & H2 & G2); [done|simpl; set_solver|].
  exists r2. unfold newMetricsRegistry. by rewrite H1.
Qed.

Definition current (e : serverEndpoint) : list collector :=
  match se_collector e with Some s => [colServer s] | None => [] end.

Definition endpoint_inv (e : serverEndpoint) : Prop := gathered (se_registry e) ≡ₚ current e ++ [colProcess; colGo].

Lemma exportServer_ok e server :
  endpoint_inv e -> se_collector e = None ->
  exists e', exportServer e server = (e', false) /\ endpoint_inv e' /\ se_collector e' = server.
Proof.
  unfold endpoint_inv, exportServer, current, newServerCollector. intros Hinv Hnone. rewrite Hnone in Hinv.
  destruct server as [s|]; [|exists e; by rewrite Hnone].
  destruct (Register_new (se_registry e) (colServer s) [colProcess; colGo]) as (r & -> & Hg); [done|simpl; set_solver|].
  eexists. split; [done|]. split; [|done]. simpl. by rewrite Hg.
Qed.

(** A collector is taken out before the next one is registered. *)
Lemma exchangeServer_ok e server :
  endpoint_inv e -> exists e', exchangeServer e server = (e', false) /\ endpoint_inv e' /\ se_collector e' = server.
Proof.
  intros Hinv. unfold exchangeServer. destruct (se_collector e) as [old|] eqn:Hold; [|by apply exportServer_ok].
  unfold endpoint_inv, current in Hinv. rewrite Hold in Hinv. simpl in Hinv.
  destruct (Unregister_present (se_registry e) (colServer old)) as (r & c & -> & Hnames & Hperm); [rewrite Hinv; set_solver|].
  apply exportServer_ok; [|done]. unfold endpoint_inv, current. simpl.
  assert (Hc : c = colServer old).
  { assert (Hin : c ∈ [colServer old; colProcess; colGo]) by (rewrite <- Hinv, Hperm; set_solver).
    assert (Hne : forall c', prefixOf c' <> prefixOf (colServer old) -> names c' <> names (colServer old)).
    { intros c' Hp Heq. apply (names_disjoint _ _ Hp "redlease_server_state"); [rewrite Heq|]; simpl; set_solver. }
    apply elem_of_cons in Hin as [->|Hin]; [done|]. exfalso. apply (Hne c); [|done].
    apply elem_of_cons in Hin as [->|Hin]; [done|]. apply list_elem_of_singleton in Hin as ->. done. }
  subst c. rewrite Hinv in Hperm. by apply Permutation_cons_inv in Hperm as <-.
Qed.

(** The calls do what [setServer] of the launcher's model does when the registry
    agrees. *)
Lemma exchangeServer_launcher e server closed e' :
  endpoint_inv e -> exchangeServer e server = (e', false) ->
  setServer (mkEndpoint (se_collector e) closed) server true true = (mkEndpoint (se_collector e') closed, false).
Proof.
  intros Hinv Hex. destruct (exchangeServer_ok e server Hinv) as (e1 & He1 & _ & Hc1). rewrite Hex in He1.
  injection He1 as <-. rewrite Hc1. unfold setServer. simpl. by destruct (se_collector e), server.
Qed.

Lemma newLoadMetricsRegistry_ok : exists r, newLoadMetricsRegistry = Some r /\ gathered r ≡ₚ [colClients; colProcess; colGo].
Proof.
  destruct (Register_new NewRegistry colGo []) as (r1 & H1 & G1); [by rewrite NewRegistry_empty|set_solver|].
  destruct (Register_new r1 colProcess [colGo]) as (r2 & H2 & G2); [done|simpl; set_solver|].
  destruct (Register_new r2 colClients [colProcess; colGo]) as (r3 & H3 & G3); [done|simpl; set_solver|].
  exists r3. unfold newLoadMetricsRegistry. rewrite H1. simpl. by rewrite H2.
Qed.

(** The endpoint never fails for reasons of the registry, and always exports the
    current server. Started on a free address, it takes every sequence of changes
    of the server without an error; a request for /metrics then gets the metrics
    of the Go runtime, of the process and of the last server, if there is one,
    each once; any other path gets nothing. *)
Theorem endpoint_exports_server servers :
  exists e0 e, startMetricsEndpoint true = inr e0 /\ exchangeServers e0 servers = Some e /\
    (exists l, metricsHandler (se_registry e) "/metrics" = Some l /\
       l ≡ₚ (match last servers with Some (Some s) => [colServer s] | _ => [] end) ++ [colProcess; colGo]) /\
    forall path, path <> "/metrics" -> metricsHandler (se_registry e) path = None.
Proof.
  destruct newMetricsRegistry_ok as (r & Hr & Hg).
  assert (Hall : forall e0, endpoint_inv e0 -> exists e, exchangeServers e0 servers = Some e /\ endpoint_inv e /\
    se_collector e = default (se_collector e0) (last servers)).
  { clear. induction servers as [|server servers IH]; intros e0 Hinv; [by exists e0|].
    destruct (exchangeServer_ok e0 server Hinv) as (e1 & He1 & Hinv1 & Hc1).
    destruct (IH e1 Hinv1) as (e & He & Hinv' & Hc). exists e. simpl. rewrite He1. split_and!; [done..|].
    rewrite Hc, Hc1. destruct servers as [|x l]; [done|]. change (last (server :: x :: l)) with (last (x :: l)).
    destruct (last (x :: l)) eqn:Hl; [done|]. by apply last_None in Hl. }
  exists (mkServerEndpoint r None). destruct (Hall (mkServerEndpoint r None)) as (e & He & Hinv & Hc); [done|].
  exists e. unfold startMetricsEndpoint. rewrite Hr. split_and!; [done..| |].
  - eexists. split; [done|]. unfold endpoint_inv, current in Hinv. rewrite Hc in Hinv. simpl in Hinv.
    rewrite Hinv. by destruct (last servers) as [[s|]|].
  - intros path Hp. unfold metricsHandler. by rewrite decide_False.
Qed.

End Endpoint.

(** A registry that is the list of its collectors. *)
Definition plainRegister (r : list collector) (c : collector) : option (list collector) :=
  let announced := collectorNames ["go_goroutines"] ["process_cpu_seconds_total"] in
  if decide (Exists (fun c' => Exists (fun name => name ∈ announced c') (announced c)) r) then None else Some (c :: r).

Definition plainUnregister (r : list collector) (c : collector) : option (list collector) :=
  let announced := collectorNames ["go_goroutines"] ["process_cpu_seconds_total"] in
  '(i, _) ← list_find (fun c' => announced c' = announced c) r; Some (delete i r).

#[export] Instance plainRegistry : PrometheusRegistry.
Proof.
  refine {| goDescs := ["go_goroutines"]; processDescs := ["process_cpu_seconds_total"]; Registry := list collector;
    NewRegistry := []; gathered := id; Register := plainRegister; Unregister := plainUnregister |}; try by repeat constructor.
  - intros r c Hd. exists (c :: r). split; [|done]. unfold plainRegister. rewrite decide_False; [done|].
    rewrite Exists_exists. intros (c' & Hc' & Hex). apply Exists_exists in Hex as (name & H1 & H2). by apply (Hd c' Hc' name).
  - intros r c c' name Hc' H1 H2. unfold plainRegister. rewrite decide_True; [done|].
    apply Exists_exists. exists c'. split; [done|]. apply Exists_exists. by exists name.
  - intros r c Hc. unfold plainUnregister.
    destruct (list_find _ r) as [[i c']|] eqn:Hf; simpl.
    + apply list_find_Some in Hf as (Hi & Hn & _). exists (delete i r), c'. split_and!; [done..|]. by apply delete_Permutation.
    + apply list_find_None in Hf. rewrite Forall_forall in Hf. by destruct (Hf c Hc).
  - intros r c Hall. unfold plainUnregister. replace (list_find _ r) with (@None (nat * collector)); [done|].
    symmetry. apply list_find_None. by apply Forall_forall.
Defined.

Example endpoint_run :
  exchangeServers (H := plainRegistry) (mkServerEndpoint (H := plainRegistry) [colProcess; colGo] None) [Some 1; None; Some 2; Some 3] =
  Some (mkServerEndpoint (H := plainRegistry) [colServer 3; colProcess; colGo] (Some 3)).
Proof. reflexivity. Qed.
