(* ===== verification/Discovery.v ===== *)
(** * Discovery of servers in etcd (src/cmd/redlease-load/etcd_discovery.go)

    The load generator reads the server slots under a prefix, then applies the
    events of a watch that starts at the next revision, and publishes the complete
    lists of targets. etcd is a parameter: its contents at each revision and the
    events that lead from one revision to the next. *)

From stdpp Require Import base gmap sets list numbers strings.
From S2P Require Import Prelude.

#[local] Open Scope string_scope.
#[local] Open Scope list_scope.

(** ** [targetState] *)

(** The channel [changed] is the number of channels closed before it. *)
Record targetState := mkTargets {
  tTargets : list string;
  tVersion : Z;
  tChanged : nat
}.

Definition newTargetState : targetState := mkTargets [] 0 0.

Definition snapshot (s : targetState) : list string * Z * nat := (tTargets s, tVersion s, tChanged s).

Definition update (s : targetState) (targets : list string) (force : bool) : targetState * bool :=
  if decide (force = false /\ tTargets s = targets) then (s, false)
  else (mkTargets targets (u64 (tVersion s + 1)) (S (tChanged s)), true).

(** One pass of [waitReady]: its result, or the channel it waits on. *)
Definition waitReady (s : targetState) : (list string * Z) + nat :=
  let '(targets, version, changed) := snapshot s in
  if decide (length targets <> 0%nat) then inl (targets, version) else inr changed.

(** Whether a channel is closed. *)
Definition channelClosed (s : targetState) (channel : nat) : bool := bool_decide (channel < tChanged s)%nat.

(** ** Slots *)

Definition loadEtcdSlotCount : nat := 5.

Definition slotNames : list string :=
  ["redlease-server-1"; "redlease-server-2"; "redlease-server-3"; "redlease-server-4"; "redlease-server-5"].

Definition loadEtcdSlotKeys (prefix : string) : list string := (fun name => prefix +:+ "-" +:+ name) <$> slotNames.

Definition slotPrefix (prefix : string) : string := prefix +:+ "-redlease-server-".

Definition requiredKey (keys : list string) (key : string) : bool := bool_decide (key ∈ keys).

Inductive targetsError :=
  | errEmptyAddress (key : string)
  | errDuplicateAddress (target : string).

(** The loop of [orderedEtcdTargets] with the targets so far: the targets, an
    incomplete set, or an error. *)
Fixpoint orderTargets (slots : gmap string string) (seen keys : list string) : targetsError + option (list string) :=
  match keys with
  | [] => inr (Some seen)
  | key :: keys =>
      match slots !! key with
      | None => inr None
      | Some target =>
          if decide (target = "") then inl (errEmptyAddress key)
          else if decide (target ∈ seen) then inl (errDuplicateAddress target)
          else orderTargets slots (seen ++ [target]) keys
      end
  end.

Definition orderedEtcdTargets (keys : list string) (slots : gmap string string) : targetsError + option (list string) :=
  orderTargets slots [] keys.

Inductive discoveryLog :=
  | logInvalid (e : targetsError)
  | logIncomplete
  | logDiscovered (targets : list string)
  | logInterrupted.

(** ** The discovery worker *)

(** An event of a watch: a value was put, or the key was deleted. *)
Inductive etcdEvent := evPut (key value : string) | evDelete (key : string).

Definition eventKey (e : etcdEvent) : string := match e with evPut key _ | evDelete key => key end.

(** The place of [run]: the head of its loop, reading a snapshot, watching with
    the slots and the last revision it has seen, or waiting to retry. *)
Inductive discoveryPC :=
  | dHead
  | dReading
  | dWatching (slots : gmap string string) (revision : nat)
  | dRetrying
  | dStopped.

Record discovery := mkDiscovery {
  d_keyPrefix : string;
  d_keys : list string;
  d_targets : targetState;
  d_ctxDone : bool;
  d_pc : discoveryPC;
  d_log : list discoveryLog
}.

(** [startEtcdTargetDiscovery], once the client of etcd has been created; [None]
    rejects the number of slots. *)
Definition startEtcdTargetDiscovery (prefix : string) (requiredSlots : Z) : option discovery :=
  if decide (requiredSlots < 1 \/ Z.of_nat loadEtcdSlotCount < requiredSlots)%Z then None
  else Some (mkDiscovery (slotPrefix prefix) (take (Z.to_nat requiredSlots) (loadEtcdSlotKeys prefix)) newTargetState
               false dHead []).

Definition setTargets (d : discovery) (targets : targetState) (log : list discoveryLog) : discovery :=
  mkDiscovery (d_keyPrefix d) (d_keys d) targets (d_ctxDone d) (d_pc d) (d_log d ++ log).

Definition setDiscovery (d : discovery) (pc : discoveryPC) (log : list discoveryLog) : discovery :=
  mkDiscovery (d_keyPrefix d) (d_keys d) (d_targets d) (d_ctxDone d) pc (d_log d ++ log).

Definition publish (d : discovery) (slots : gmap string string) (force : bool) : discovery :=
  match orderedEtcdTargets (d_keys d) slots with
  | inl err =>
      let '(targets, updated) := update (d_targets d) [] force in
      setTargets d targets (if updated then [logInvalid err] else [])
  | inr None =>
      let '(targets, updated) := update (d_targets d) [] force in
      setTargets d targets (if updated then [logIncomplete] else [])
  | inr (Some found) =>
      let '(targets, updated) := update (d_targets d) found force in
      setTargets d targets (if updated then [logDiscovered found] else [])
  end.

(** The slots [readSnapshot] builds from the pairs of a range response. *)
Definition readSnapshot (keys : list string) (kvs : list (string * string)) : gmap string string :=
  foldl (fun slots kv => if requiredKey keys kv.1 then <[kv.1 := kv.2]> slots else slots) ∅ kvs.

(** The body of the loop of [watch] over the events of a response. *)
Definition applyWatched (keys : list string) (st : gmap string string * bool) (e : etcdEvent) : gmap string string * bool :=
  if requiredKey keys (eventKey e) then
    (match e with evPut key value => <[key := value]> st.1 | evDelete key => delete key st.1 end, true)
  else st.

(** The condition of the loop of [run]. *)
Definition runHead (d : discovery) : option discovery :=
  match d_pc d with
  | dHead => Some (setDiscovery d (if d_ctxDone d then dStopped else dReading) [])
  | _ => None
  end.

(** After an error of [Get] or of [watch]. *)
Definition interrupted (d : discovery) : discovery :=
  if d_ctxDone d then setDiscovery d dStopped [] else setDiscovery d dRetrying [logInterrupted].

(** The result of [Get] in [run]; [None] is an error. *)
Definition runRead (d : discovery) (response : option (list (string * string) * nat)) : option discovery :=
  match d_pc d with
  | dReading =>
      match response with
      | None => Some (interrupted d)
      | Some (kvs, revision) =>
          let slots := readSnapshot (d_keys d) kvs in
          Some (setDiscovery (publish d slots true) (dWatching slots revision) [])
      end
  | _ => None
  end.

(** A response of the watch up to [revision]; [None] is a closed watch or an error. *)
Definition watchResponse (d : discovery) (response : option (list etcdEvent * nat)) : option discovery :=
  match d_pc d with
  | dWatching slots _ =>
      match response with
      | None => Some (interrupted d)
      | Some (events, revision) =>
          let '(slots, requiredKeyChanged) := foldl (applyWatched (d_keys d)) (slots, false) events in
          let d := if requiredKeyChanged then publish d slots true else d in
          Some (setDiscovery d (dWatching slots revision) [])
      end
  | _ => None
  end.

(** [waitLoadEtcdRetry]: the timer or the context. *)
Definition retryRead (d : discovery) (timer : bool) : option discovery :=
  match d_pc d with
  | dRetrying =>
      if timer then Some (setDiscovery d dHead [])
      else if d_ctxDone d then Some (setDiscovery d dStopped []) else None
  | _ => None
  end.

Definition cancelDiscovery (d : discovery) : discovery :=
  mkDiscovery (d_keyPrefix d) (d_keys d) (d_targets d) true (d_pc d) (d_log d).

(** ** Runs against etcd *)

Definition applyEvent (store : gmap string string) (e : etcdEvent) : gmap string string :=
  match e with evPut key value => <[key := value]> store | evDelete key => delete key store end.

(** What the discovery relies on: the events of a revision lead to its contents. *)
Class EtcdHistory := {
  storeAt : nat -> gmap string string;
  eventsAt : nat -> list etcdEvent;
  storeAt_events : forall revision, storeAt (S revision) = foldl applyEvent (storeAt revision) (eventsAt (S revision))
}.

Section Runs.
Context `{EtcdHistory}.

(** The pairs with a prefix, in some order. *)
Definition isRange (prefix : string) (store : gmap string string) (kvs : list (string * string)) : Prop :=
  kvs ≡ₚ map_to_list (filter (fun kv => String.prefix prefix kv.1 = true) store).

(** The events with a prefix of the revisions after [from] up to [upto]. *)
Definition watched (prefix : string) (from upto : nat) : list etcdEvent :=
  filter (fun e => String.prefix prefix (eventKey e) = true) (concat (eventsAt <$> seq (S from) (upto - from))).

Inductive discovery_step (d : discovery) : discovery -> Prop :=
  | ds_head d' : runHead d = Some d' -> discovery_step d d'
  | ds_read kvs revision d' :
      isRange (d_keyPrefix d) (storeAt revision) kvs -> runRead d (Some (kvs, revision)) = Some d' -> discovery_step d d'
  | ds_readFailed d' : runRead d None = Some d' -> discovery_step d d'
  | ds_watch slots from upto d' :
      d_pc d = dWatching slots from -> (from <= upto)%nat ->
      watchResponse d (Some (watched (d_keyPrefix d) from upto, upto)) = Some d' -> discovery_step d d'
  | ds_watchFailed d' : watchResponse d None = Some d' -> discovery_step d d'
  | ds_retry timer d' : retryRead d timer = Some d' -> discovery_step d d'
  | ds_cancel : discovery_step d (cancelDiscovery d).

Inductive discovery_reachable : discovery -> Prop :=
  | dr_start prefix requiredSlots d :
      startEtcdTargetDiscovery prefix requiredSlots = Some d -> discovery_reachable d
  | dr_step d d' : discovery_reachable d -> discovery_step d d' -> discovery_reachable d'.

(** The targets etcd holds at a revision: all slots present, not empty and
    distinct, in the order of the slots; otherwise none. *)
Definition expectedTargets (keys : list string) (store : gmap string string) : list string :=
  match mapM (fun key => store !! key) keys with
  | Some ts => if decide (NoDup ts /\ "" ∉ ts) then ts else []
  | None => []
  end.

End Runs.

(** ** Targets *)

Lemma orderTargets_spec slots keys : forall seen,
  (forall ts, orderTargets slots seen keys = inr (Some ts) <->
    exists ts', mapM (fun key => slots !! key) keys = Some ts' /\ ts = seen ++ ts' /\ NoDup ts' /\ "" ∉ ts' /\
      forall t, t ∈ ts' -> t ∉ seen).
Proof.
  induction keys as [|key keys IH]; intros seen ts; simpl.
  { split; [intros [= <-]; exists []; rewrite app_nil_r; split_and!; set_solver by constructor|].
    intros (ts' & [= <-] & -> & _). by rewrite app_nil_r. }
  destruct (slots !! key) as [target|]; simpl; [|split; [done|naive_solver]].
  destruct (decide (target = "")) as [->|He].
  { split; [done|]. intros (ts' & Hm & _ & _ & Hn & _). destruct (mapM _ keys); [|done]. injection Hm as <-. set_solver. }
  destruct (decide (target ∈ seen)) as [Hs|Hs].
  { split; [done|]. intros (ts' & Hm & _ & _ & _ & Hn). destruct (mapM _ keys); [|done]. injection Hm as <-. set_solver. }
  rewrite IH. split.
  - intros (ts' & -> & -> & Hnd & Hn & Hd). exists (target :: ts'). rewrite <- app_assoc. split_and!; try done; [|set_solver..].
    constructor; [|done]. set_solver.
  - intros (ts' & Hm & -> & Hnd & Hn & Hd). destruct (mapM _ keys) as [l|] eqn:Hl; [|done]. injection Hm as <-.
    exists l. rewrite <- app_assoc. inversion_clear Hnd. split_and!; try done; set_solver.
Qed.

(** The list [publish] makes current. *)
Definition publishedTargets (keys : list string) (slots : gmap string string) : list string :=
  match orderedEtcdTargets keys slots with inr (Some ts) => ts | _ => [] end.

Lemma publishedTargets_expected keys slots : publishedTargets keys slots = expectedTargets keys slots.
Proof.
  unfold publishedTargets, expectedTargets, orderedEtcdTargets. pose proof (orderTargets_spec slots keys []) as Hs.
  destruct (mapM (fun key => slots !! key) keys) as [ts|] eqn:Hm.
  - destruct (decide (NoDup ts /\ "" ∉ ts)) as [[Hn He]|Hd].
    + rewrite (proj2 (Hs ts)); [done|]. exists ts. split_and!; set_solver.
    + destruct (orderTargets slots [] keys) as [|[ts'|]] eqn:Ho; try done.
      destruct (proj1 (Hs ts') eq_refl) as (x & [= <-] & -> & ? & ? & _). naive_solver.
  - destruct (orderTargets slots [] keys) as [|[ts'|]] eqn:Ho; try done.
    destruct (proj1 (Hs ts') eq_refl) as (x & Hx & _). done.
Qed.

Lemma expectedTargets_agree keys s s' :
  (forall key, key ∈ keys -> s !! key = s' !! key) -> expectedTargets keys s = expectedTargets keys s'.
Proof.
  intros Ha. unfold expectedTargets. replace (mapM (fun key => s' !! key) keys) with (mapM (fun key => s !! key) keys); [done|].
  induction keys as [|key keys IH]; simpl; [done|]. rewrite (Ha key) by set_solver. destruct (s' !! key); simpl; [|done].
  rewrite IH; [done|]. intros k Hk. apply Ha. set_solver.
Qed.

Lemma publish_spec d slots :
  tTargets (d_targets (publish d slots true)) = expectedTargets (d_keys d) slots /\
  d_keys (publish d slots true) = d_keys d /\ d_keyPrefix (publish d slots true) = d_keyPrefix d /\
  d_targets (publish d slots true) =
    mkTargets (expectedTargets (d_keys d) slots) (u64 (tVersion (d_targets d) + 1)) (S (tChanged (d_targets d))).
Proof.
  rewrite <- publishedTargets_expected. unfold publish, publishedTargets, update.
  rewrite !(decide_False (P := true = false /\ _)) by naive_solver.
  by destruct (orderedEtcdTargets _ _) as [|[]].
Qed.

(** ** Slots *)

Lemma prefix_app s t : String.prefix s (s +:+ t) = true.
Proof. induction s as [|c s IH]; simpl; [by destruct t|]. destruct (Ascii.ascii_dec c c); [done|congruence]. Qed.

Lemma string_app_assoc (s t u : string) : s +:+ t +:+ u = (s +:+ t) +:+ u.
Proof. induction s as [|c s IH]; [done|]. exact (f_equal (String c) IH). Qed.

Lemma slot_keys_prefixed prefix key :
  key ∈ loadEtcdSlotKeys prefix -> String.prefix (slotPrefix prefix) key = true.
Proof.
  unfold loadEtcdSlotKeys, slotPrefix. intros (name & -> & Hn)%list_elem_of_fmap.
  assert (exists digit, "-" +:+ name = "-redlease-server-" +:+ digit) as [digit ->].
  { unfold slotNames in Hn. repeat (apply elem_of_cons in Hn as [->|Hn]; [by eexists|]). by apply not_elem_of_nil in Hn. }
  rewrite string_app_assoc. apply prefix_app.
Qed.

Lemma readSnapshot_lookup keys kvs key value :
  NoDup kvs.*1 -> readSnapshot keys kvs !! key = Some value <-> key ∈ keys /\ (key, value) ∈ kvs.
Proof.
  unfold readSnapshot. induction kvs as [|[k v] kvs IH] using rev_ind; intros Hn; simpl.
  { rewrite lookup_empty. split; [done|]. intros [_ ?]. set_solver. }
  rewrite fmap_app, list.NoDup_app in Hn. destruct Hn as (Hn & Hd & _). simpl in Hd.
  rewrite foldl_app. simpl. unfold requiredKey. case_bool_decide as Hk.
  - destruct (decide (k = key)) as [->|Hne].
    + rewrite lookup_insert_eq. split; [intros [= ->]; set_solver|]. intros [_ Hin].
      apply elem_of_app in Hin as [Hin|Hin]; [|set_solver].
      exfalso. apply (Hd key); [|set_solver]. apply list_elem_of_fmap. by exists (key, value).
    + rewrite lookup_insert_ne, IH by done. set_solver.
  - rewrite IH by done. split; [set_solver|]. intros [Hkey Hin]. split; [done|].
    apply elem_of_app in Hin as [Hin|Hin]; [done|]. set_solver.
Qed.

Section Tracking.
Context `{EtcdHistory}.

(** The slots have the contents of the store for the required keys. *)
Definition agrees (keys : list string) (slots store : gmap string string) : Prop :=
  forall key, key ∈ keys -> slots !! key = store !! key.

Lemma readSnapshot_agrees prefix keys store kvs :
  (forall key, key ∈ keys -> String.prefix prefix key = true) -> isRange prefix store kvs ->
  agrees keys (readSnapshot keys kvs) store.
Proof.
  intros Hp Hr key Hkey. apply option_eq. intros value.
  assert (Hn : NoDup kvs.*1) by (rewrite Hr; apply NoDup_fst_map_to_list).
  rewrite readSnapshot_lookup by done. rewrite Hr, elem_of_map_to_list, map_lookup_filter_Some. simpl. naive_solver.
Qed.

Lemma storeAt_upto from n :
  storeAt (from + n) = foldl applyEvent (storeAt from) (concat (eventsAt <$> seq (S from) n)).
Proof.
  induction n as [|n IH]; [by rewrite Nat.add_0_r|].
  rewrite seq_S, fmap_app, concat_app, foldl_app, <- IH. simpl. rewrite app_nil_r, Nat.add_succ_r. apply storeAt_events.
Qed.

(** Events with other keys do not matter, and no required key changed when the
    flag is clear. *)
Lemma watched_agrees prefix keys events : forall slots changed store,
  (forall key, key ∈ keys -> String.prefix prefix key = true) -> agrees keys slots store ->
  let '(slots', changed') :=
    foldl (applyWatched keys) (slots, changed) (filter (fun e => String.prefix prefix (eventKey e) = true) events) in
  agrees keys slots' (foldl applyEvent store events) /\
  (changed' = false -> changed = false /\ agrees keys store (foldl applyEvent store events)).
Proof.
  induction events as [|e events IH]; intros slots changed store Hp Ha; simpl; [done|].
  destruct (decide (eventKey e ∈ keys)) as [Hk|Hk].
  - rewrite filter_cons_True by auto. simpl. unfold applyWatched at 2, requiredKey. rewrite bool_decide_eq_true_2 by done.
    assert (Ha' : agrees keys (match e with evPut key value => <[key:=value]> slots | evDelete key => delete key slots end)
      (applyEvent store e)).
    { intros key Hkey. specialize (Ha key Hkey). destruct e as [k v|k]; simpl;
        destruct (decide (k = key)) as [->|]; simplify_map_eq; done. }
    simpl. specialize (IH _ true _ Hp Ha').
    destruct (foldl (applyWatched keys) _ _) as [slots' changed']. destruct IH as [IH1 IH2]. split; [done|].
    intros ->. by destruct (IH2 eq_refl).
  - assert (Hs : agrees keys store (applyEvent store e)).
    { intros key Hkey. destruct e as [k v|k]; simpl in *; destruct (decide (k = key)) as [->|]; simplify_map_eq; done. }
    assert (Ha' : agrees keys slots (applyEvent store e)) by (intros key Hkey; by rewrite (Ha key Hkey), (Hs key Hkey)).
    assert (Hstep : foldl (applyWatched keys) (slots, changed)
        (filter (fun e => String.prefix prefix (eventKey e) = true) (e :: events)) =
      foldl (applyWatched keys) (slots, changed) (filter (fun e => String.prefix prefix (eventKey e) = true) events)).
    { rewrite filter_cons. case_decide; [|done]. simpl. unfold applyWatched at 2, requiredKey.
      by rewrite bool_decide_eq_false_2. }
    rewrite Hstep. specialize (IH _ changed _ Hp Ha').
    destruct (foldl (applyWatched keys) _ _) as [slots' changed']. destruct IH as [IH1 IH2]. split; [done|].
    intros Hc. destruct (IH2 Hc) as [-> IH3]. split; [done|]. intros key Hkey. by rewrite (Hs key Hkey), (IH3 key Hkey).
Qed.

Record discovery_inv (d : discovery) : Prop := {
  di_keys : forall key, key ∈ d_keys d -> String.prefix (d_keyPrefix d) key = true;
  di_watching : forall slots revision, d_pc d = dWatching slots revision ->
    agrees (d_keys d) slots (storeAt revision) /\
    tTargets (d_targets d) = expectedTargets (d_keys d) (storeAt revision);
  di_targets : tTargets (d_targets d) <> [] ->
    exists revision, tTargets (d_targets d) = expectedTargets (d_keys d) (storeAt revision)
}.

(** A step that keeps the targets and does not watch. *)
Lemma discovery_move d pc log :
  (forall slots revision, pc <> dWatching slots revision) -> discovery_inv d -> discovery_inv (setDiscovery d pc log).
Proof. intros Hpc [H1 H2 H3]. split; simpl; [done|naive_solver|done]. Qed.

Lemma discovery_publish d slots revision log :
  discovery_inv d -> agrees (d_keys d) slots (storeAt revision) ->
  discovery_inv (setDiscovery (publish d slots true) (dWatching slots revision) log).
Proof.
  intros [H1 _ _] Ha. destruct (publish_spec d slots) as (Ht & Hk & Hp & _).
  assert (He : tTargets (d_targets (publish d slots true)) = expectedTargets (d_keys d) (storeAt revision)).
  { rewrite Ht. by apply expectedTargets_agree. }
  split; simpl; rewrite ?Hk, ?Hp; [done| |by exists revision]. by intros ? ? [= <- <-].
Qed.

Lemma discovery_step_inv d d' : discovery_step d d' -> discovery_inv d -> discovery_inv d'.
Proof.
  intros Hs Hinv. pose proof Hinv as [H1 H2 H3].
  assert (Hint : discovery_inv (interrupted d)) by (unfold interrupted; destruct (d_ctxDone d); by apply discovery_move).
  destruct Hs as [d' Hs|kvs revision d' Hr Hs|d' Hs|slots from upto d' Hpc Hle Hs|d' Hs|timer d' Hs|].
  - unfold runHead in Hs. destruct (d_pc d); try done. injection Hs as <-. apply discovery_move; [|done].
    by destruct (d_ctxDone d).
  - unfold runRead in Hs. destruct (d_pc d); try done. injection Hs as <-. apply discovery_publish; [done|].
    by eapply readSnapshot_agrees.
  - unfold runRead in Hs. destruct (d_pc d); try done. by injection Hs as <-.
  - unfold watchResponse in Hs. rewrite Hpc in Hs. destruct (H2 _ _ Hpc) as [Ha Ht].
    pose proof (watched_agrees (d_keyPrefix d) (d_keys d) (concat (eventsAt <$> seq (S from) (upto - from)))
      slots false (storeAt from) H1 Ha) as Hw.
    unfold watched in Hs. destruct (foldl (applyWatched (d_keys d)) _ _) as [slots' changed].
    rewrite <- storeAt_upto in Hw. replace (from + (upto - from))%nat with upto in Hw by lia. destruct Hw as [Hw1 Hw2].
    destruct changed; injection Hs as <-; [by apply discovery_publish|].
    assert (He : tTargets (d_targets d) = expectedTargets (d_keys d) (storeAt upto)).
    { rewrite Ht. apply expectedTargets_agree. by destruct (Hw2 eq_refl). }
    split; simpl; try done. by intros ? ? [= <- <-].
  - unfold watchResponse in Hs. destruct (d_pc d); try done. by injection Hs as <-.
  - unfold retryRead in Hs. destruct (d_pc d); try done. destruct timer; [by injection Hs as <-; apply discovery_move|].
    destruct (d_ctxDone d); [|done]. injection Hs as <-. by apply discovery_move.
  - by split.
Qed.

Lemma discovery_reachable_inv d : discovery_reachable d -> discovery_inv d.
Proof.
  induction 1 as [prefix n d Hd|d d' _ IH Hs]; [|by eapply discovery_step_inv].
  unfold startEtcdTargetDiscovery in Hd. destruct (decide _); [done|]. injection Hd as <-. split; simpl; try done.
  intros key Hk. apply slot_keys_prefixed. rewrite <- (take_drop (Z.to_nat n) (loadEtcdSlotKeys prefix)). set_solver.
Qed.

End Tracking.

(** ** Theorems *)

Lemma expectedTargets_complete keys store :
  expectedTargets keys store <> [] ->
  length (expectedTargets keys store) = length keys /\ NoDup (expectedTargets keys store) /\
  "" ∉ expectedTargets keys store.
Proof.
  unfold expectedTargets. destruct (mapM _ keys) as [ts|] eqn:Hm; [|done]. case_decide as Hd; [|done]. intros _.
  split; [|by destruct Hd]. by eapply eq_sym, length_mapM.
Qed.

Lemma discovery_keys_count `{EtcdHistory} d : discovery_reachable d -> (1 <= length (d_keys d) <= 5)%nat.
Proof.
  induction 1 as [prefix n d Hd|d d' _ IH Hs].
  - unfold startEtcdTargetDiscovery, loadEtcdSlotCount in Hd. destruct (decide _) as [|Hn]; [done|]. injection Hd as <-. simpl.
    rewrite length_take. simpl. lia.
  - assert (Hp : forall slots, d_keys (publish d slots true) = d_keys d) by (intros; apply publish_spec).
    enough (d_keys d' = d_keys d) by congruence.
    destruct Hs as [d' Hs|kvs revision d' Hr Hs|d' Hs|slots from upto d' Hpc Hle Hs|d' Hs|timer d' Hs|]; try done;
      unfold runHead, runRead, watchResponse, retryRead, interrupted in Hs; repeat case_match; simplify_eq; simpl;
      rewrite ?Hp; done.
Qed.

(** C30: discovery publishes what etcd holds. In every run, with any failures of
    reads and watches: while a watch is open the published targets are the values
    of all required slots, in the order of the slots, at the revision the watch
    has reached, and none if a slot is missing, empty or duplicated; and whatever
    is published was so at some revision, with one distinct non-empty target per
    required slot. The next response of an open watch is processed, whatever
    revision it reaches. *)
Theorem discovery_tracks_etcd `{EtcdHistory} d :
  discovery_reachable d ->
  (1 <= length (d_keys d) <= 5)%nat /\
  (forall slots revision, d_pc d = dWatching slots revision ->
     tTargets (d_targets d) = expectedTargets (d_keys d) (storeAt revision) /\
     forall upto, (revision <= upto)%nat ->
       exists d' slots', discovery_step d d' /\ d_pc d' = dWatching slots' upto /\
         tTargets (d_targets d') = expectedTargets (d_keys d) (storeAt upto)) /\
  (tTargets (d_targets d) <> [] ->
     (exists revision, tTargets (d_targets d) = expectedTargets (d_keys d) (storeAt revision)) /\
     length (tTargets (d_targets d)) = length (d_keys d) /\ NoDup (tTargets (d_targets d)) /\
     "" ∉ tTargets (d_targets d)).
Proof.
  intros Hr. pose proof (discovery_reachable_inv d Hr) as Hinv. pose proof Hinv as [H1 H2 H3]. split_and!.
  - by apply discovery_keys_count.
  - by apply discovery_keys_count.
  - intros slots revision Hpc. split; [by apply (H2 slots)|]. intros upto Hle.
    destruct (watchResponse d (Some (watched (d_keyPrefix d) revision upto, upto))) as [d'|] eqn:Hw;
      [|unfold watchResponse in Hw; rewrite Hpc in Hw; by destruct (foldl _ _ _)].
    assert (Hs : discovery_step d d') by (by eapply ds_watch).
    assert (exists slots', d_pc d' = dWatching slots' upto /\ d_keys d' = d_keys d) as (slots' & Hpc' & Hk).
    { unfold watchResponse in Hw. rewrite Hpc in Hw. destruct (foldl _ _ _) as [slots' []]; injection Hw as <-;
        exists slots'; simpl; [|done]. by destruct (publish_spec d slots') as (_ & ? & _). }
    exists d', slots'. split_and!; [done|done|]. rewrite <- Hk.
    by apply (di_watching _ (discovery_step_inv d d' Hs Hinv) slots' upto).
  - intros Hne. destruct (H3 Hne) as [revision Hrev]. split; [by exists revision|].
    rewrite Hrev in *. by apply expectedTargets_complete.
Qed.

(** One slot that is filled at the first revision. *)
#[local] Instance demoHistory : EtcdHistory := {|
  storeAt revision := match revision with O => ∅ | _ => {[ "p-redlease-server-1" := "127.0.0.1:1" ]} end;
  eventsAt revision := match revision with 1%nat => [evPut "p-redlease-server-1" "127.0.0.1:1"] | _ => [] end;
  storeAt_events := ltac:(intros [|revision]; reflexivity)
|}.

Lemma discovery_tracks_etcd_witness :
  exists d d' slots, discovery_reachable d /\ d_pc d = dWatching ∅ 0 /\ discovery_step d d' /\
    d_pc d' = dWatching slots 1 /\ tTargets (d_targets d') = ["127.0.0.1:1"].
Proof.
  destruct (startEtcdTargetDiscovery "p" 1) as [d0|] eqn:H0; [|vm_compute in H0; discriminate].
  destruct (runHead d0) as [d1|] eqn:H1; [|vm_compute in H0; injection H0 as <-; vm_compute in H1; discriminate].
  destruct (runRead d1 (Some ([], 0%nat))) as [d|] eqn:H2;
    [|vm_compute in H0; injection H0 as <-; vm_compute in H1; injection H1 as <-; vm_compute in H2; discriminate].
  assert (Hr : discovery_reachable d).
  { eapply dr_step; [eapply dr_step; [by apply (dr_start "p" 1)|by apply ds_head]|].
    eapply (ds_read _ [] 0%nat); [|exact H2]. unfold isRange. simpl. by rewrite map_filter_empty. }
  vm_compute in H0. injection H0 as <-. vm_compute in H1. injection H1 as <-. vm_compute in H2. injection H2 as <-.
  destruct (discovery_tracks_etcd _ Hr) as (_ & Hw & _). destruct (Hw ∅ 0%nat eq_refl) as [_ Hn].
  destruct (Hn 1%nat ltac:(lia)) as (d' & slots' & Hs & Hpc & Ht).
  eexists. exists d', slots'. split_and!; [exact Hr|reflexivity|exact Hs|exact Hpc|rewrite Ht; vm_compute; reflexivity].
Defined.
