(* ===== verification/LoadClients.v ===== *)
(** * Clients of the load generator (src/cmd/redlease-load/runner.go)

    With discovery every client of a benchmark cell is replaced when the published
    targets change; the replaced one is closed when the leases it issued have been
    released or have expired. *)

From stdpp Require Import base gmap sets list numbers strings.
From S2P Require Import Prelude Metrics Discovery.

#[local] Open Scope nat_scope.

(** ** [reconfigurableLoadClient] *)

(** The clients it owns are named by numbers. [rc_timers] are the clients whose
    timer has not fired. *)
Record reconfigurable := mkReconfigurable {
  rc_current : option (nat * list string);   (* the client, and the addresses it was built from *)
  rc_closed : bool;
  rc_retired : list nat;
  rc_timers : list nat
}.

Definition newReconfigurable (name : nat) (addresses : list string) : reconfigurable :=
  mkReconfigurable (Some (name, addresses)) false [] [].

(** [replace]: the client after it, and the clients it closes. *)
Definition replace (c : reconfigurable) (replacement : option (nat * list string)) : reconfigurable * list nat :=
  if rc_closed c then (c, match replacement with Some (name, _) => [name] | None => [] end)
  else
    match rc_current c with
    | Some (previous, _) =>
        (mkReconfigurable replacement false (rc_retired c ++ [previous]) (rc_timers c ++ [previous]), [])
    | None => (mkReconfigurable replacement false (rc_retired c) (rc_timers c), [])
    end.

(** [reconfigure] with the name the new client gets; [created] is whether
    [newLoadClient] succeeds. The result says whether a client was created. *)
Definition reconfigure (c : reconfigurable) (name : nat) (addresses : list string) (created : bool)
    : reconfigurable * list nat * bool :=
  if decide (length addresses <> 0) then
    if created then (replace c (Some (name, addresses)), true) else (replace c None, false)
  else (replace c None, false).

(** [Close]: the client after it, and the clients it closes. *)
Definition closeReconfigurable (c : reconfigurable) : reconfigurable * list nat :=
  if rc_closed c then (c, [])
  else (mkReconfigurable None true [] [], rc_retired c ++ match rc_current c with Some (name, _) => [name] | None => [] end).

(** The function of a timer: it closes its client. *)
Definition fireTimer (c : reconfigurable) (name : nat) : option (reconfigurable * list nat) :=
  if decide (name ∈ rc_timers c) then
    Some (mkReconfigurable (rc_current c) (rc_closed c) (rc_retired c) (filter (fun n => n <> name) (rc_timers c)), [name])
  else None.

(** [Acquire] and [WaitReady] use the current client; [None] is
    [errLoadTargetsUnavailable]. *)
Definition currentClient (c : reconfigurable) : option nat := fst <$> rc_current c.

(** [MetricsSnapshot] over the snapshots of the clients. *)
Definition reconfigurableMetrics (c : reconfigurable) (snapshotOf : nat -> Snapshot) : Snapshot :=
  aggregateLoadClientMetrics (snapshotOf <$> (rc_retired c ++ match rc_current c with Some (name, _) => [name] | None => [] end)).

(** ** [watchLoadTargets] *)

Inductive watcherPC :=
  | wSnapshot (version : Z)
  | wReconfiguring (targets : list string) (version : Z) (changed : nat) (index : nat)
  | wWaiting (version : Z) (changed : nat)
  | wStopped.

(** The clients of a cell, the targets they follow and the underlying clients:
    how many were created, and which are closed. [lw_history] lists the published
    targets by version. *)
Record loadWorld := mkLoadWorld {
  lw_state : targetState;
  lw_history : list (list string);
  lw_clients : list reconfigurable;
  lw_next : nat;
  lw_closed : gset nat;
  lw_watcher : watcherPC;
  lw_ctxDone : bool
}.

Definition setLoad (w : loadWorld) (clients : list reconfigurable) (next : nat) (closed : list nat) (pc : watcherPC) : loadWorld :=
  mkLoadWorld (lw_state w) (lw_history w) clients next (lw_closed w ∪ list_to_set closed) pc (lw_ctxDone w).

(** One step of the watcher; [created] is whether [newLoadClient] succeeds and
    [viaContext] the choice of the select. *)
Definition watchLoadTargets (w : loadWorld) (created viaContext : bool) : option loadWorld :=
  match lw_watcher w with
  | wSnapshot current =>
      let '(targets, version, changed) := snapshot (lw_state w) in
      Some (setLoad w (lw_clients w) (lw_next w) []
              (if decide (current <> version) then wReconfiguring targets version changed 0 else wWaiting current changed))
  | wReconfiguring targets version changed index =>
      match lw_clients w !! index with
      | None => Some (setLoad w (lw_clients w) (lw_next w) [] (wWaiting version changed))
      | Some c =>
          let '(c, closed, isNew) := reconfigure c (lw_next w) targets created in
          Some (setLoad w (<[index := c]> (lw_clients w)) (if isNew : bool then S (lw_next w) else lw_next w) closed
                  (wReconfiguring targets version changed (S index)))
      end
  | wWaiting version changed =>
      if viaContext then
        if lw_ctxDone w then Some (setLoad w (lw_clients w) (lw_next w) [] wStopped) else None
      else if channelClosed (lw_state w) changed then Some (setLoad w (lw_clients w) (lw_next w) [] (wSnapshot version))
      else None
  | wStopped => None
  end.

Inductive load_step (w : loadWorld) : loadWorld -> Prop :=
  | ls_watch created viaContext w' : watchLoadTargets w created viaContext = Some w' -> load_step w w'
  | ls_update targets force s' :
      update (lw_state w) targets force = (s', true) ->
      load_step w (mkLoadWorld s' (lw_history w ++ [targets]) (lw_clients w) (lw_next w) (lw_closed w) (lw_watcher w) (lw_ctxDone w))
  | ls_timer i c name c' closed :
      lw_clients w !! i = Some c -> fireTimer c name = Some (c', closed) ->
      load_step w (setLoad w (<[i := c']> (lw_clients w)) (lw_next w) closed (lw_watcher w))
  | ls_close i c c' closed :
      lw_clients w !! i = Some c -> closeReconfigurable c = (c', closed) ->
      load_step w (setLoad w (<[i := c']> (lw_clients w)) (lw_next w) closed (lw_watcher w))
  | ls_cancel :
      load_step w (mkLoadWorld (lw_state w) (lw_history w) (lw_clients w) (lw_next w) (lw_closed w) (lw_watcher w) true).

(** [newReconfigurableLoadClients] with the targets [waitReady] returned. *)
Definition startLoad (s : targetState) (history : list (list string)) (count : nat) : loadWorld :=
  mkLoadWorld s history ((fun i => newReconfigurable i (tTargets s)) <$> seq 0 count) count ∅ (wSnapshot (tVersion s)) false.

Inductive load_reachable : loadWorld -> Prop :=
  | lr_start s history count :
      tTargets s <> [] -> length history = tChanged s -> last history = Some (tTargets s) ->
      tVersion s = u64 (Z.of_nat (tChanged s)) -> load_reachable (startLoad s history count)
  | lr_step w w' : load_reachable w -> load_step w w' -> load_reachable w'.

(** ** Ownership of the underlying clients *)

Definition currentName (c : reconfigurable) : list nat := match rc_current c with Some (name, _) => [name] | None => [] end.
Definition names (c : reconfigurable) : list nat := rc_retired c ++ currentName c.

(** The clients that will still be closed. *)
Definition live (c : reconfigurable) : list nat := rc_timers c ++ currentName c.

Record client_inv (closed : gset nat) (c : reconfigurable) : Prop := {
  ci_names : NoDup (names c);
  ci_closed : rc_closed c = true -> names c = [] /\ rc_timers c = [];
  ci_current : forall n, n ∈ currentName c -> n ∉ closed;
  ci_timers : rc_timers c ⊆ rc_retired c;
  ci_retired : forall n, n ∈ rc_retired c -> n ∈ rc_timers c \/ n ∈ closed;
  ci_addresses : forall n a, rc_current c = Some (n, a) -> a <> []
}.

Record load_inv (w : loadWorld) : Prop := {
  li_fresh : forall i c n, lw_clients w !! i = Some c -> n ∈ names c -> n < lw_next w;
  li_owner : forall i j c c' n, lw_clients w !! i = Some c -> lw_clients w !! j = Some c' ->
    n ∈ names c -> n ∈ names c' -> i = j;
  li_client : forall i c, lw_clients w !! i = Some c -> client_inv (lw_closed w) c;
  li_bound : forall n, n ∈ lw_closed w -> n < lw_next w;
  li_kept : forall n, n < lw_next w -> n ∈ lw_closed w \/ exists i c, lw_clients w !! i = Some c /\ n ∈ live c
}.

(** A change of one client: the names it gains are fresh, the clients it closes
    were its own or are fresh, and whatever it no longer keeps is closed. *)
Lemma client_change w i c c' next' closed pc :
  load_inv w -> lw_clients w !! i = Some c -> lw_next w <= next' ->
  (forall n, n ∈ names c' -> n ∈ names c \/ lw_next w <= n < next') ->
  (forall n, n ∈ closed -> n ∈ names c \/ lw_next w <= n < next') ->
  client_inv (lw_closed w ∪ list_to_set closed) c' ->
  (forall n, n ∈ live c -> n ∈ live c' \/ n ∈ closed) ->
  (forall n, lw_next w <= n < next' -> n ∈ live c' \/ n ∈ closed) ->
  load_inv (setLoad w (<[i := c']> (lw_clients w)) next' closed pc).
Proof.
  intros [Hf Ho Hc Hb Hk] Hi Hn Hnames Hclosed Hinv Hlive Hnew. pose proof (lookup_lt_Some _ _ _ Hi) as Hlt.
  split; simpl.
  - intros j x n Hj Hx. destruct (decide (i = j)) as [<-|Hij].
    + rewrite list_lookup_insert_eq in Hj by done. injection Hj as <-. destruct (Hnames n Hx) as [Hx'|]; [|lia].
      specialize (Hf i c n Hi Hx'). lia.
    + rewrite list_lookup_insert_ne in Hj by done. specialize (Hf j x n Hj Hx). lia.
  - assert (Hone : forall j x n, i <> j -> lw_clients w !! j = Some x -> n ∈ names c' -> n ∈ names x -> False).
    { intros j x n Hij Hj Hn1 Hn2. destruct (Hnames n Hn1) as [Hn1'|Hn1'].
      - apply Hij. by eapply Ho.
      - specialize (Hf j x n Hj Hn2). lia. }
    intros j k x y n Hj Hk' Hx Hy. destruct (decide (i = j)) as [<-|Hij], (decide (i = k)) as [<-|Hik]; try done.
    + rewrite list_lookup_insert_eq in Hj by done. rewrite list_lookup_insert_ne in Hk' by done. injection Hj as <-.
      exfalso. by eapply Hone.
    + rewrite list_lookup_insert_ne in Hj by done. rewrite list_lookup_insert_eq in Hk' by done. injection Hk' as <-.
      exfalso. by eapply Hone.
    + rewrite list_lookup_insert_ne in Hj, Hk' by done. by eapply Ho.
  - intros j x Hj. destruct (decide (i = j)) as [<-|Hij].
    + rewrite list_lookup_insert_eq in Hj by done. by injection Hj as <-.
    + rewrite list_lookup_insert_ne in Hj by done. destruct (Hc j x Hj) as [H1 H2 H3 H4 H5 H6]. split; try done.
      * intros n Hx. assert (Hxn : n ∈ names x) by (unfold names; set_solver). pose proof (H3 n Hx).
        rewrite elem_of_union, elem_of_list_to_set. intros [|Hcl]; [done|].
        destruct (Hclosed n Hcl) as [Hcn|Hcn]; [by apply Hij; eapply Ho|]. specialize (Hf j x n Hj Hxn). lia.
      * intros n Hx. destruct (H5 n Hx); [by left|right]. set_solver.
  - intros n. rewrite elem_of_union, elem_of_list_to_set. intros [Hx|Hx]; [specialize (Hb n Hx); lia|].
    destruct (Hclosed n Hx) as [Hx'|]; [|lia]. specialize (Hf i c n Hi Hx'). lia.
  - intros n Hlt'. destruct (decide (n < lw_next w)) as [Hold|Hold].
    + destruct (Hk n Hold) as [Hx|(j & x & Hj & Hx)]; [left; set_solver|].
      destruct (decide (i = j)) as [<-|Hij].
      * replace x with c in * by congruence. destruct (Hlive n Hx) as [Hl|Hl]; [|left; set_solver].
        right. exists i, c'. by rewrite list_lookup_insert_eq.
      * right. exists j, x. by rewrite list_lookup_insert_ne.
    + destruct (Hnew n) as [Hl|Hl]; [lia| |left; set_solver]. right. exists i, c'. by rewrite list_lookup_insert_eq.
Qed.

Lemma client_inv_more closed closed' c :
  client_inv closed c -> closed ⊆ closed' -> (forall n, n ∈ currentName c -> n ∉ closed') -> client_inv closed' c.
Proof. intros [H1 H2 H3 H4 H5 H6] Hs Hc. split; try done. intros n Hn. destruct (H5 n Hn); [by left|right; set_solver]. Qed.

Definition addedName (r : option (nat * list string)) : list nat := match r with Some (name, _) => [name] | None => [] end.

Lemma replace_eq c r :
  replace c r =
    if rc_closed c then (c, addedName r)
    else (mkReconfigurable r false (rc_retired c ++ currentName c) (rc_timers c ++ currentName c), []).
Proof.
  unfold replace, currentName. destruct (rc_closed c); [done|]. destruct (rc_current c) as [[previous a]|]; [done|].
  by rewrite !app_nil_r.
Qed.

Lemma replace_change w i c r next' pc :
  load_inv w -> lw_clients w !! i = Some c ->
  lw_next w <= next' -> (forall n, n ∈ addedName r <-> lw_next w <= n < next') ->
  (forall n a, r = Some (n, a) -> a <> []) ->
  load_inv (setLoad w (<[i := (replace c r).1]> (lw_clients w)) next' (replace c r).2 pc).
Proof.
  intros Hw Hi Hn Hr Hra. pose proof (li_bound _ Hw) as Hbound. destruct (li_client _ Hw i c Hi) as [H1 H2 H3 H4 H5 H6].
  pose proof (fun n => li_fresh _ Hw i c n Hi) as Hfresh. rewrite replace_eq.
  destruct (rc_closed c) eqn:Hcl; simpl; apply (client_change w i c); try done.
  - intros n ?. by left.
  - intros n Hin. right. by apply Hr.
  - destruct (H2 eq_refl) as [He _]. eapply client_inv_more; [by apply (li_client _ Hw i)|set_solver|].
    intros n Hin. assert (n ∈ names c) by (unfold names; set_solver). rewrite He in *. by apply not_elem_of_nil in H.
  - intros n ?. by left.
  - intros n Hin. right. by apply Hr.
  - intros n Hin. unfold names in *. simpl in Hin. rewrite !elem_of_app in Hin.
    destruct Hin as [Hin|Hin]; [left; by apply elem_of_app|right; by apply Hr].
  - intros n []%not_elem_of_nil.
  - unfold names in *. split; simpl; try done.
    + apply list.NoDup_app. split_and!; [done| |destruct r as [[]|]; simpl; [apply NoDup_singleton|constructor]].
      intros n Hin1 Hin2%Hr. specialize (Hfresh n Hin1). lia.
    + intros n Hin%Hr. rewrite union_empty_r_L. intros Hcn%Hbound. lia.
    + set_solver.
    + intros n Hin. apply elem_of_app in Hin as [Hin|Hin]; [|left; set_solver].
      destruct (H5 n Hin); [left|right]; set_solver.
  - intros n Hin. left. unfold live. simpl. apply elem_of_app. by left.
  - intros n Hin. left. unfold live. simpl. apply elem_of_app. right. by apply Hr.
Qed.

Lemma fireTimer_change w i c name c' closed pc :
  load_inv w -> lw_clients w !! i = Some c -> fireTimer c name = Some (c', closed) ->
  load_inv (setLoad w (<[i := c']> (lw_clients w)) (lw_next w) closed pc).
Proof.
  intros Hw Hi Hf. destruct (li_client _ Hw i c Hi) as [H1 H2 H3 H4 H5 H6]. unfold fireTimer in Hf.
  destruct (decide (name ∈ rc_timers c)) as [Ht|]; [|done]. injection Hf as <- <-.
  assert (Hnr : name ∈ rc_retired c) by set_solver.
  apply (client_change w i c); try done; try lia.
  - intros n ?. by left.
  - intros n ->%list_elem_of_singleton. left. apply elem_of_app. by left.
  - split; simpl; try done.
    + intros Hcl. destruct (H2 Hcl) as [? Hti]. split; [done|]. by rewrite Hti.
    + intros n Hn. specialize (H3 n Hn). intros Hin. assert (Hx : n ∈ lw_closed w \/ n = name) by set_solver.
      destruct Hx as [?| ->]; [done|]. unfold names in H1. apply list.NoDup_app in H1 as (_ & Hd & _). by apply (Hd name).
    + intros n [_ Hn]%list_elem_of_filter. by apply H4.
    + intros n Hn. destruct (decide (n = name)) as [->|Hne]; [right; set_solver|].
      destruct (H5 n Hn); [left; by apply list_elem_of_filter|right; set_solver].
  - intros n Hn. unfold live in *. simpl. rewrite !elem_of_app, list_elem_of_filter in *.
    destruct (decide (n = name)) as [->|]; [right; set_solver|]. left. destruct Hn; [left|right]; done.
Qed.

Lemma close_change w i c c' closed pc :
  load_inv w -> lw_clients w !! i = Some c -> closeReconfigurable c = (c', closed) ->
  load_inv (setLoad w (<[i := c']> (lw_clients w)) (lw_next w) closed pc).
Proof.
  intros Hw Hi Hf. destruct (li_client _ Hw i c Hi) as [H1 H2 H3 H4 H5 H6]. unfold closeReconfigurable in Hf.
  destruct (rc_closed c) eqn:Hcl; injection Hf as <- <-; apply (client_change w i c); try done; try lia.
  - intros n ?. by left.
  - intros n []%not_elem_of_nil.
  - rewrite list_to_set_nil, union_empty_r_L. by apply (li_client _ Hw i).
  - intros n ?. by left.
  - intros n []%not_elem_of_nil.
  - intros n Hn. by left.
  - split; simpl; try done; [constructor|by intros n ?%not_elem_of_nil..].
  - intros n Hn. right. unfold live, names in *. rewrite elem_of_app in *. destruct Hn as [Hn|Hn]; [left; by apply H4|by right].
Qed.

Lemma setLoad_same w pc : load_inv w -> load_inv (setLoad w (lw_clients w) (lw_next w) [] pc).
Proof. intros [H1 H2 H3 H4 H5]. split; simpl; rewrite ?union_empty_r_L; done. Qed.

Lemma load_step_inv w w' : load_step w w' -> load_inv w -> load_inv w'.
Proof.
  intros Hs Hw. destruct Hs as [created via w' Hs|ts force s' _|i c name c' closed Hi Hf|i c c' closed Hi Hf|].
  - unfold watchLoadTargets in Hs. destruct (lw_watcher w) as [v|ts v ch i|v ch|]; [| | |done].
    + injection Hs as <-. by apply setLoad_same.
    + destruct (lw_clients w !! i) as [c|] eqn:Hi; [|injection Hs as <-; by apply setLoad_same].
      unfold reconfigure in Hs.
      assert (Hnone : load_inv (setLoad w (<[i := (replace c None).1]> (lw_clients w)) (lw_next w) (replace c None).2
        (wReconfiguring ts v ch (S i)))).
      { apply replace_change; try done. intros n. split; [by intros ?%not_elem_of_nil|lia]. }
      destruct (decide (length ts <> 0)) as [Hne|]; [destruct created|].
      * destruct (replace c (Some (lw_next w, ts))) as [c' closed] eqn:Hr. injection Hs as <-.
        pose proof (replace_change w i c (Some (lw_next w, ts)) (S (lw_next w)) (wReconfiguring ts v ch (S i))) as Hch.
        rewrite Hr in Hch. apply Hch; try done; [lia| |].
        -- intros n. simpl. rewrite list_elem_of_singleton. lia.
        -- intros n a [= _ <-] ->. by apply Hne.
      * destruct (replace c None) as [c' closed]. by injection Hs as <-.
      * destruct (replace c None) as [c' closed]. by injection Hs as <-.
    + destruct via; [destruct (lw_ctxDone w)|destruct (channelClosed _ _)]; try done; injection Hs as <-; by apply setLoad_same.
  - by destruct Hw.
  - by eapply fireTimer_change.
  - by eapply close_change.
  - by destruct Hw.
Qed.

Lemma startLoad_inv s history count : tTargets s <> [] -> load_inv (startLoad s history count).
Proof.
  intros Hne.
  assert (Hin : forall i c, lw_clients (startLoad s history count) !! i = Some c -> c = newReconfigurable i (tTargets s) /\ i < count).
  { intros i c (j & -> & [-> ?]%lookup_seq)%list_lookup_fmap_Some. done. }
  split; simpl.
  - intros i c n [-> Hi]%Hin Hn. apply list_elem_of_singleton in Hn. lia.
  - intros i j c c' n [-> _]%Hin [-> _]%Hin Hn Hn'. apply list_elem_of_singleton in Hn, Hn'. congruence.
  - intros i c [-> _]%Hin. split; simpl; try done; [apply NoDup_singleton|set_solver|by intros n a [= _ <-]].
  - set_solver.
  - intros n Hn. right. exists n, (newReconfigurable n (tTargets s)).
    rewrite list_lookup_fmap, lookup_seq_lt by done. split; [done|]. apply list_elem_of_singleton. done.
Qed.

Lemma load_reachable_inv w : load_reachable w -> load_inv w.
Proof. induction 1; [by apply startLoad_inv|by eapply load_step_inv]. Qed.

(** ** Following the published targets *)

(** The current client, if there is one, was built from [targets]. *)
Definition follows (targets : list string) (c : reconfigurable) : Prop :=
  match rc_current c with Some (_, a) => a = targets | None => True end.

(** The [k]-th published targets. *)
Definition publishedAs (w : loadWorld) (k : nat) (targets : list string) : Prop :=
  1 <= k <= tChanged (lw_state w) /\ lw_history w !! (k - 1) = Some targets.

Record follow_inv (w : loadWorld) : Prop := {
  fi_length : length (lw_history w) = tChanged (lw_state w);
  fi_last : last (lw_history w) = Some (tTargets (lw_state w));
  fi_version : tVersion (lw_state w) = u64 (Z.of_nat (tChanged (lw_state w)));
  fi_watcher :
    match lw_watcher w with
    | wSnapshot version =>
        exists k ts, version = u64 (Z.of_nat k) /\ publishedAs w k ts /\ Forall (follows ts) (lw_clients w)
    | wReconfiguring ts version changed index =>
        version = u64 (Z.of_nat changed) /\ publishedAs w changed ts /\ Forall (follows ts) (take index (lw_clients w))
    | wWaiting version changed =>
        version = u64 (Z.of_nat changed) /\
        exists ts, publishedAs w changed ts /\ Forall (follows ts) (lw_clients w)
    | wStopped => True
    end
}.

Lemma last_publishedAs w : follow_inv w -> lw_history w <> [] ->
  publishedAs w (tChanged (lw_state w)) (tTargets (lw_state w)).
Proof.
  intros [H1 H2 _ _] Hne. rewrite last_lookup in H2. unfold publishedAs. rewrite <- H1, Nat.sub_1_r.
  split; [|done]. destruct (lw_history w); [done|]. simpl. lia.
Qed.

Lemma follow_history w : follow_inv w -> lw_history w <> [].
Proof. intros [_ H2 _ _] He. by rewrite He in H2. Qed.

(** A client that keeps or drops its current client keeps following. *)
Lemma follows_insert ts l i c c' n :
  (follows ts c -> follows ts c') -> l !! i = Some c ->
  Forall (follows ts) (take n l) -> Forall (follows ts) (take n (<[i := c']> l)).
Proof.
  intros Hc Hi Hall. rewrite Forall_lookup in *. intros j x Hj. apply lookup_take_Some in Hj as [Hj Hlt].
  destruct (decide (i = j)) as [<-|Hij].
  - rewrite list_lookup_insert_eq in Hj by (by eapply lookup_lt_Some). injection Hj as <-.
    apply Hc, (Hall i). by apply lookup_take_Some.
  - rewrite list_lookup_insert_ne in Hj by done. apply (Hall j). by apply lookup_take_Some.
Qed.

Lemma follow_client w i c c' next closed :
  (forall ts, follows ts c -> follows ts c') -> lw_clients w !! i = Some c -> follow_inv w ->
  follow_inv (setLoad w (<[i := c']> (lw_clients w)) next closed (lw_watcher w)).
Proof.
  intros Hc Hi [H1 H2 H3 H4]. split; simpl; try done.
  assert (Hall : forall ts, Forall (follows ts) (lw_clients w) -> Forall (follows ts) (<[i := c']> (lw_clients w))).
  { intros ts Ha. rewrite <- (take_ge (<[i:=c']> (lw_clients w)) (length (lw_clients w))) by (by rewrite length_insert).
    eapply follows_insert; [apply Hc|done|]. by rewrite take_ge. }
  destruct (lw_watcher w) as [v|ts v ch index|v ch|]; try done.
  - destruct H4 as (k & ts & ? & ? & ?). exists k, ts. auto.
  - destruct H4 as (? & ? & ?). split_and!; try done. eapply follows_insert; [apply Hc|done|done].
  - destruct H4 as (? & ts & ? & ?). split; [done|]. exists ts. auto.
Qed.

Lemma closed_follows closed c ts : client_inv closed c -> rc_closed c = true -> follows ts c.
Proof.
  intros [_ H2 _ _ _ _] Hc. destruct (H2 Hc) as [Hn _]. unfold names, currentName, follows in *.
  destruct (rc_current c) as [[? ?]|]; [|done]. by destruct (rc_retired c).
Qed.

Lemma reconfigure_follows closed c name ts created :
  client_inv closed c -> follows ts (reconfigure c name ts created).1.1.
Proof.
  intros Hc. unfold reconfigure. destruct (decide _); [destruct created|]; simpl; rewrite replace_eq;
    destruct (rc_closed c) eqn:Hcl; try done; by eapply closed_follows.
Qed.

Lemma u64_nat_inj a b : (Z.of_nat a < 2 ^ 64)%Z -> (Z.of_nat b < 2 ^ 64)%Z -> u64 (Z.of_nat a) = u64 (Z.of_nat b) -> a = b.
Proof. intros Ha Hb. rewrite !u64_small by (unfold is_u64; lia). lia. Qed.

Lemma follow_watch w created via w' :
  watchLoadTargets w created via = Some w' -> load_inv w -> (Z.of_nat (tChanged (lw_state w)) < 2 ^ 64)%Z ->
  follow_inv w -> follow_inv w'.
Proof.
  intros Hs Hw Hb Hf. pose proof Hf as [H1 H2 H3 H4].
  pose proof (last_publishedAs w Hf (follow_history w Hf)) as Hpub. unfold watchLoadTargets in Hs.
  destruct (lw_watcher w) as [v|ts v ch i|v ch|]; [| | |done].
  - injection Hs as <-. split; simpl; try done. destruct H4 as (k & ts & -> & [Hk Hkts] & Hall).
    destruct (decide (u64 (Z.of_nat k) <> tVersion (lw_state w))) as [Hne|He].
    + split_and!; try done.
    + rewrite H3 in He. assert (Hkc : k = tChanged (lw_state w)) by (apply u64_nat_inj; [lia|lia|by apply dec_stable]).
      subst k. split; [done|]. exists ts. split; [by split|done].
  - destruct H4 as (-> & Hts & Hall). destruct (lw_clients w !! i) as [c|] eqn:Hi; simpl in Hs.
    + destruct (reconfigure c (lw_next w) ts created) as [[c' closed] isNew] eqn:Hr. injection Hs as <-.
      pose proof (reconfigure_follows _ _ (lw_next w) ts created (li_client _ Hw i c Hi)) as Hfc.
      rewrite Hr in Hfc. simpl in Hfc. split; simpl; try done. split_and!; try done.
      rewrite (take_S_r _ _ c') by (apply list_lookup_insert_eq; by eapply lookup_lt_Some).
      rewrite take_insert_ge by lia. apply Forall_app. by rewrite Forall_singleton.
    + injection Hs as <-. split; simpl; try done. split; [done|]. exists ts. split; [done|].
      apply lookup_ge_None in Hi. by rewrite take_ge in Hall.
  - destruct H4 as (-> & ts & Hts & Hall). destruct via.
    + destruct (lw_ctxDone w); [|done]. by injection Hs as <-.
    + destruct (channelClosed _ _); [|done]. injection Hs as <-. split; simpl; try done. by exists ch, ts.
Qed.

Lemma follow_step w w' :
  load_step w w' -> load_inv w -> (Z.of_nat (tChanged (lw_state w')) < 2 ^ 64)%Z -> follow_inv w -> follow_inv w'.
Proof.
  intros Hs Hw Hb Hf. destruct Hs as [created via w' Hs|ts force s' Hu|i c name c' closed Hi Hfi|i c c' closed Hi Hcl|].
  - eapply follow_watch; try done. enough (lw_state w' = lw_state w) as <- by done.
    unfold watchLoadTargets in Hs. repeat case_match; simplify_eq; done.
  - destruct Hf as [H1 H2 H3 H4]. unfold update in Hu. destruct (decide _); [done|]. injection Hu as <-.
    assert (Hp : forall k x, publishedAs w k x -> publishedAs (mkLoadWorld (mkTargets ts (u64 (tVersion (lw_state w) + 1))
      (S (tChanged (lw_state w)))) (lw_history w ++ [ts]) (lw_clients w) (lw_next w) (lw_closed w) (lw_watcher w) (lw_ctxDone w)) k x).
    { intros k x [Hk Hx]. split; simpl; [lia|]. apply lookup_app_l_Some. done. }
    split; simpl in *.
    + rewrite length_app. simpl. lia.
    + by rewrite last_snoc.
    + rewrite H3. unfold u64. rewrite Zplus_mod_idemp_l. f_equal. lia.
    + destruct (lw_watcher w) as [v|x v ch i|v ch|]; try done.
      * destruct H4 as (k & x & ? & ? & ?). exists k, x. auto.
      * destruct H4 as (? & ? & ?). auto.
      * destruct H4 as (? & x & ? & ?). split; [done|]. exists x. auto.
  - eapply follow_client; [|done|done]. intros ts. unfold fireTimer in Hfi. destruct (decide _); [|done].
    by injection Hfi as <- _.
  - eapply follow_client; [|done|done]. intros ts. unfold closeReconfigurable in Hcl.
    destruct (rc_closed c); by injection Hcl as <- _.
  - by destruct Hf.
Qed.

Lemma tChanged_mono w w' : load_step w w' -> tChanged (lw_state w) <= tChanged (lw_state w').
Proof.
  destruct 1 as [created via w' Hs|ts force s' Hu| | |]; simpl; try lia.
  - enough (lw_state w' = lw_state w) as -> by lia. unfold watchLoadTargets in Hs. repeat case_match; simplify_eq; done.
  - unfold update in Hu. destruct (decide _); [done|]. injection Hu as <-. simpl. lia.
Qed.

Lemma load_reachable_follow w :
  load_reachable w -> (Z.of_nat (tChanged (lw_state w)) < 2 ^ 64)%Z -> follow_inv w.
Proof.
  induction 1 as [s history count Hne Hl Hla Hv|w w' Hr IH Hs]; intros Hb.
  - split; simpl; try done. assert (Hpos : 1 <= tChanged s) by (rewrite <- Hl; destruct history; [done|simpl; lia]).
    exists (tChanged s), (tTargets s). split_and!; [done| |].
    + rewrite last_lookup in Hla. split; simpl; [lia|]. by rewrite <- Hl, Nat.sub_1_r.
    + apply Forall_fmap. apply list.Forall_forall. by intros i _.
  - pose proof (tChanged_mono w w' Hs). eapply follow_step; [done|by apply load_reachable_inv|done|apply IH; lia].
Qed.


