(* ===== verification/Registration.v ===== *)
(** * Registration of a server in etcd (src/cmd/redlease-server/etcd_registration.go)

    A launcher takes one of five slots: it grants a lease, puts its address under
    a free slot key with that lease in a transaction, and keeps the lease alive.
    etcd is a parameter: the class [EtcdService] has its leases and the lease each
    key is attached to, with the documented effect of the calls. *)

From stdpp Require Import base gmap sets list numbers strings.
From S2P Require Import Prelude GoText Address Discovery.

#[local] Open Scope string_scope.
#[local] Open Scope list_scope.

Definition etcdLeaseTTLSeconds : Z := 3.
Definition etcdKeepAlivePeriod : Z := Second.
Definition etcdOperationTimeout : Z := 2 * Second.
Definition etcdRetryDelay : Z := Second.
Definition etcdServerSlotCount : nat := 5.

(** ** Configuration *)

Record launcherEtcdConfig := mkEtcdConfig {
  endpoint : string;
  ecPrefix : string;
  advertiseAddress : string
}.

Inductive etcdConfigError := errEndpointRequired | errPrefixRequired | errAdvertiseAddress (address : string) (e : addressError).

Definition etcdConfig (etcdEndpoint etcdPrefix etcdAdvertiseAddress listenAddress : string)
    : etcdConfigError + launcherEtcdConfig :=
  if decide (etcdEndpoint = "") then
    if decide (etcdPrefix <> "" \/ etcdAdvertiseAddress <> "") then inl errEndpointRequired
    else inr (mkEtcdConfig "" "" "")
  else if decide (etcdPrefix = "") then inl errPrefixRequired
  else
    let address := if decide (etcdAdvertiseAddress = "") then listenAddress else etcdAdvertiseAddress in
    match validateEtcdAdvertiseAddress (bytesOf address) with
    | Some e => inl (errAdvertiseAddress address e)
    | None => inr (mkEtcdConfig etcdEndpoint etcdPrefix address)
    end.

Definition enabled (c : launcherEtcdConfig) : bool := bool_decide (endpoint c <> "").

Definition etcdSlotKeys (prefix : string) : list string := loadEtcdSlotKeys prefix.

(** ** Waiting for a free slot *)

(** [waitForEtcdSlotDeletion] after its snapshot: whether some slot is free. *)
Definition snapshotMissing (keys : list string) (kvs : list (string * string)) : bool :=
  let present := foldl (fun present kv => if bool_decide (kv.1 ∈ keys) then kv.1 :: present else present) [] kvs in
  existsb (fun key => negb (bool_decide (key ∈ present))) keys.

(** The same after a response of the watch, which has only deletions: whether one
    of them is of a slot. *)
Definition watchDeletion (keys : list string) (events : list etcdEvent) : bool :=
  existsb (fun e => bool_decide (eventKey e ∈ keys)) events.

(** The events a watch with [WithFilterPut] delivers. *)
Definition deletions (events : list etcdEvent) : list etcdEvent :=
  filter (fun e => match e with evDelete _ => true | evPut _ _ => false end = true) events.

(** ** [keepAlive] *)

Inductive keepAliveResponse := kaError | kaNil | kaTTL (ttl : Z).

Inductive keepAliveFailure := errKeepAlive | errExpiredLease.

(** What a round of [keepAlive] does after the call: goes on, returns, or returns
    after it reported an error. *)
Inductive keepAliveResult := kaContinue | kaReturn | kaReport (e : keepAliveFailure).

Definition keepAliveRound (ctxDone : bool) (response : keepAliveResponse) : keepAliveResult :=
  match response with
  | kaError => if ctxDone then kaReturn else kaReport errKeepAlive
  | kaNil => kaReport errExpiredLease
  | kaTTL ttl => if (ttl <=? 0)%Z then kaReport errExpiredLease else kaContinue
  end.

(** ** [acquireEtcdRegistration] *)

Inductive acquirePC :=
  | acGrant (index : nat)                    (* [tryEtcdSlot] of a slot: [Grant] *)
  | acTxn (index lease : nat)                (* the transaction *)
  | acRevoke (index lease : nat) (failed : bool)   (* [revokeEtcdLease]; whether the transaction failed *)
  | acSnapshot                               (* [waitForEtcdSlotDeletion]: [Get] *)
  | acWatch (revision : nat)
  | acRetry                                  (* [waitEtcdRetry] *)
  | acAcquired (key : string) (lease : nat)
  | acFailed.

(** What etcd or the context answers to the call at the current place. *)
Inductive acquireEvent :=
  | evGranted (lease : nat)
  | evGrantError
  | evTxn (succeeded : bool)
  | evTxnError
  | evRevoked
  | evSnapshot (kvs : list (string * string)) (revision : nat)
  | evSnapshotError
  | evWatch (events : list etcdEvent)
  | evWatchError
  | evRetry
  | evContext.                               (* the context ends a wait *)

(** The next slot of [tryEtcdSlots], or [errEtcdSlotsOccupied]. *)
Definition nextSlot (keys : list string) (index : nat) : acquirePC :=
  if decide (S index < length keys)%nat then acGrant (S index) else acSnapshot.

(** After an error other than [errEtcdSlotsOccupied]. *)
Definition afterError (ctxDone : bool) : acquirePC := if ctxDone then acFailed else acRetry.

(** One step of [acquireEtcdRegistration]. *)
Definition acquireEtcd (keys : list string) (ctxDone : bool) (pc : acquirePC) (e : acquireEvent) : option acquirePC :=
  match pc, e with
  | acGrant index, evGranted lease => Some (acTxn index lease)
  | acGrant _, evGrantError => Some (afterError ctxDone)
  | acTxn index lease, evTxnError => Some (acRevoke index lease true)
  | acTxn index lease, evTxn false => Some (acRevoke index lease false)
  | acTxn index lease, evTxn true => key ← keys !! index; Some (acAcquired key lease)
  | acRevoke index _ false, evRevoked => Some (nextSlot keys index)
  | acRevoke _ _ true, evRevoked => Some (afterError ctxDone)
  | acSnapshot, evSnapshot kvs revision => Some (if snapshotMissing keys kvs then acGrant 0 else acWatch revision)
  | acSnapshot, evSnapshotError => Some (afterError ctxDone)
  | acWatch revision, evWatch events => Some (if watchDeletion keys events then acGrant 0 else acWatch revision)
  | acWatch _, evWatchError => Some (afterError ctxDone)
  | acWatch _, evContext => if ctxDone then Some acFailed else None
  | acRetry, evRetry => Some (acGrant 0)
  | acRetry, evContext => if ctxDone then Some acFailed else None
  | _, _ => None
  end.

(** ** Several launchers and one etcd *)

(** The leases of etcd, the lease a key is attached to, and the effect of the
    calls on them. [etcdTick] is what happens without a call of a launcher: leases
    expire. *)
Class EtcdService := {
  etcd : Type;
  leaseLive : etcd -> nat -> Prop;
  keyLease : etcd -> string -> option nat;
  grantEffect : etcd -> nat -> etcd -> Prop;
  putEffect : etcd -> string -> nat -> etcd -> Prop;
  revokeEffect : etcd -> nat -> etcd -> Prop;
  etcdTick : etcd -> etcd -> Prop;
  (* a key disappears with its lease *)
  keyLease_live : forall e key lease, keyLease e key = Some lease -> leaseLive e lease;
  grant_law : forall e lease e', grantEffect e lease e' ->
    ~ leaseLive e lease /\ (forall l, leaseLive e' l -> l = lease \/ leaseLive e l) /\ (forall key, keyLease e' key = keyLease e key);
  (* the comparison with create revision 0 found no key *)
  put_law : forall e key lease e', putEffect e key lease e' ->
    keyLease e key = None /\ keyLease e' key = Some lease /\ (forall k, k <> key -> keyLease e' k = keyLease e k) /\
    (forall l, leaseLive e' l -> leaseLive e l);
  revoke_law : forall e lease e', revokeEffect e lease e' ->
    (forall l, leaseLive e' l -> leaseLive e l) /\
    (forall key l, keyLease e key = Some l -> leaseLive e' l -> keyLease e' key = Some l) /\
    (forall key l, keyLease e' key = Some l -> keyLease e key = Some l);
  tick_law : forall e e', etcdTick e e' ->
    (forall l, leaseLive e' l -> leaseLive e l) /\
    (forall key l, keyLease e key = Some l -> leaseLive e' l -> keyLease e' key = Some l) /\
    (forall key l, keyLease e' key = Some l -> keyLease e key = Some l)
}.

Section Launchers.
Context `{EtcdService}.

(** The launchers, all with the same prefix, and etcd. [fl_granted] lists the
    leases granted so far. *)
Record fleet := mkFleet {
  fl_etcd : etcd;
  fl_pcs : list acquirePC;
  fl_granted : list nat
}.

(** A call fails before or after it took effect, so an error says nothing about
    etcd. The lease of a failed grant is not known to the launcher. *)
Inductive fleet_step (keys : list string) (f : fleet) : fleet -> Prop :=
  | fs_granted i index lease e' ctxDone pc' :
      fl_pcs f !! i = Some (acGrant index) -> lease ∉ fl_granted f -> grantEffect (fl_etcd f) lease e' ->
      acquireEtcd keys ctxDone (acGrant index) (evGranted lease) = Some pc' ->
      fleet_step keys f (mkFleet e' (<[i := pc']> (fl_pcs f)) (lease :: fl_granted f))
  | fs_grantLost lease e' :
      lease ∉ fl_granted f -> grantEffect (fl_etcd f) lease e' ->
      fleet_step keys f (mkFleet e' (fl_pcs f) (lease :: fl_granted f))
  | fs_put i index lease key e' ctxDone pc' :
      fl_pcs f !! i = Some (acTxn index lease) -> keys !! index = Some key -> putEffect (fl_etcd f) key lease e' ->
      acquireEtcd keys ctxDone (acTxn index lease) (evTxn true) = Some pc' ->
      fleet_step keys f (mkFleet e' (<[i := pc']> (fl_pcs f)) (fl_granted f))
  | fs_putLost i index lease key e' ctxDone pc' :
      fl_pcs f !! i = Some (acTxn index lease) -> keys !! index = Some key -> putEffect (fl_etcd f) key lease e' ->
      acquireEtcd keys ctxDone (acTxn index lease) evTxnError = Some pc' ->
      fleet_step keys f (mkFleet e' (<[i := pc']> (fl_pcs f)) (fl_granted f))
  | fs_revoke i lease e' :
      fl_pcs f !! i ≫= (fun pc => match pc with acRevoke _ l _ | acAcquired _ l => Some l | _ => None end) = Some lease ->
      revokeEffect (fl_etcd f) lease e' ->
      fleet_step keys f (mkFleet e' (fl_pcs f) (fl_granted f))
  | fs_move i pc e ctxDone pc' :
      fl_pcs f !! i = Some pc -> acquireEtcd keys ctxDone pc e = Some pc' ->
      (forall lease, e <> evGranted lease) -> e <> evTxn true ->
      fleet_step keys f (mkFleet (fl_etcd f) (<[i := pc']> (fl_pcs f)) (fl_granted f))
  (* a registration ends, or its launcher starts again *)
  | fs_restart i pc : fl_pcs f !! i = Some pc ->
      fleet_step keys f (mkFleet (fl_etcd f) (<[i := acGrant 0]> (fl_pcs f)) (fl_granted f))
  | fs_tick e' : etcdTick (fl_etcd f) e' -> fleet_step keys f (mkFleet e' (fl_pcs f) (fl_granted f)).

Inductive fleet_reachable (keys : list string) : fleet -> Prop :=
  | fr_start e count :
      (forall l, ~ leaseLive e l) -> fleet_reachable keys (mkFleet e (replicate count (acGrant 0)) [])
  | fr_step f f' : fleet_reachable keys f -> fleet_step keys f f' -> fleet_reachable keys f'.

(** The lease a launcher works with. *)
Definition heldLease (pc : acquirePC) : option nat :=
  match pc with acTxn _ lease | acRevoke _ lease _ | acAcquired _ lease => Some lease | _ => None end.

Record fleet_inv (keys : list string) (f : fleet) : Prop := {
  fv_live : forall l, leaseLive (fl_etcd f) l -> l ∈ fl_granted f;
  fv_held : forall i pc l, fl_pcs f !! i = Some pc -> heldLease pc = Some l -> l ∈ fl_granted f;
  fv_owner : forall i j pc pc' l, fl_pcs f !! i = Some pc -> fl_pcs f !! j = Some pc' ->
    heldLease pc = Some l -> heldLease pc' = Some l -> i = j;
  fv_acquired : forall i key l, fl_pcs f !! i = Some (acAcquired key l) -> key ∈ keys /\
    (leaseLive (fl_etcd f) l -> keyLease (fl_etcd f) key = Some l)
}.

(** A launcher moves; etcd is the same or a put for it took effect. *)
Lemma fleet_move keys f i pc pc' e' :
  fleet_inv keys f -> fl_pcs f !! i = Some pc ->
  (forall l, leaseLive e' l -> leaseLive (fl_etcd f) l) ->
  (forall key l, keyLease (fl_etcd f) key = Some l -> leaseLive e' l -> keyLease e' key = Some l) ->
  (forall l, heldLease pc' = Some l -> heldLease pc = Some l) ->
  (forall key l, pc' = acAcquired key l -> key ∈ keys /\ keyLease e' key = Some l) ->
  fleet_inv keys (mkFleet e' (<[i := pc']> (fl_pcs f)) (fl_granted f)).
Proof.
  intros [H1 H2 H3 H4] Hi Hlive Hkey Hheld Hacq. pose proof (lookup_lt_Some _ _ _ Hi) as Hlt.
  assert (Hp : forall j x, <[i := pc']> (fl_pcs f) !! j = Some x ->
    exists y, fl_pcs f !! j = Some y /\ (forall l, heldLease x = Some l -> heldLease y = Some l) /\ (i <> j -> x = y) /\ (i = j -> x = pc')).
  { intros j x Hj. destruct (decide (i = j)) as [<-|Hij].
    - rewrite list_lookup_insert_eq in Hj by done. injection Hj as <-. exists pc. done.
    - rewrite list_lookup_insert_ne in Hj by done. exists x. split_and!; done. }
  split; simpl.
  - intros l Hl. by apply H1, Hlive.
  - intros j x l Hj Hl. destruct (Hp j x Hj) as (y & Hy & Hh & _). by eapply H2; [|apply Hh].
  - intros j k x x' l Hj Hk Hl Hl'. destruct (Hp j x Hj) as (y & Hy & Hh & _), (Hp k x' Hk) as (y' & Hy' & Hh' & _).
    eapply H3; [exact Hy|exact Hy'|by apply Hh|by apply Hh'].
  - intros j key l Hj. destruct (Hp j _ Hj) as (y & Hy & _ & Hne & Heq). destruct (decide (i = j)) as [Hij|Hij].
    + specialize (Heq Hij). destruct (Hacq key l) as [? ?]; done.
    + rewrite <- (Hne Hij) in Hy. destruct (H4 j key l Hy) as [? Hk]. split; [done|]. intros Hl. apply Hkey; [|done].
      by apply Hk, Hlive.
Qed.

(** etcd changes by itself, or by a call whose launcher does not move. *)
Lemma fleet_etcd keys f e' :
  fleet_inv keys f -> (forall l, leaseLive e' l -> leaseLive (fl_etcd f) l) ->
  (forall key l, keyLease (fl_etcd f) key = Some l -> leaseLive e' l -> keyLease e' key = Some l) ->
  fleet_inv keys (mkFleet e' (fl_pcs f) (fl_granted f)).
Proof.
  intros [H1 H2 H3 H4] Hlive Hkey. split; simpl; try done; [by intros l ?%Hlive; apply H1|].
  intros i key l Hi. destruct (H4 i key l Hi) as [? Hk]. split; [done|]. intros Hl. apply Hkey; [|done]. by apply Hk, Hlive.
Qed.

(** A lease is granted; the launcher may not have learnt of it. *)
Lemma fleet_grant keys f lease e' :
  fleet_inv keys f -> lease ∉ fl_granted f -> grantEffect (fl_etcd f) lease e' ->
  fleet_inv keys (mkFleet e' (fl_pcs f) (lease :: fl_granted f)).
Proof.
  intros [H1 H2 H3 H4] Hn Hg. destruct (grant_law _ _ _ Hg) as (_ & Hlive & Hkey). split; simpl; try done.
  - intros l Hl. destruct (Hlive l Hl) as [->|Hl']; [left|right; by apply H1].
  - intros i pc l Hi Hl. right. by eapply H2.
  - intros i key l Hi. destruct (H4 i key l Hi) as [? Hk]. split; [done|]. intros Hl. rewrite Hkey. apply Hk.
    destruct (Hlive l Hl) as [->|]; [|done]. exfalso. apply Hn. by eapply H2.
Qed.

Lemma acquireEtcd_held keys ctxDone pc e pc' l :
  acquireEtcd keys ctxDone pc e = Some pc' -> (forall lease, e <> evGranted lease) -> heldLease pc' = Some l -> heldLease pc = Some l.
Proof.
  intros Hs Hg Hl. unfold acquireEtcd, afterError, nextSlot in Hs.
  destruct pc, e; try done; repeat case_match; simplify_eq/=; try done; try (by destruct ctxDone); try (by exfalso; eapply Hg).
  destruct (keys !! index); [|done]. simpl in Hs. by injection Hs as <-.
Qed.

Lemma fleet_step_inv keys f f' : fleet_step keys f f' -> fleet_inv keys f -> fleet_inv keys f'.
Proof.
  intros Hs Hf. destruct Hs as [i index lease e' ctx pc' Hi Hn Hg Hpc|lease e' Hn Hg|i index lease key e' ctx pc' Hi Hk Hp Hpc
    |i index lease key e' ctx pc' Hi Hk Hp Hpc|i lease e' Hl Hr|i pc e ctx pc' Hi Hpc Hne Hnt|i pc Hi|e' Ht].
  - pose proof (fleet_grant keys f lease e' Hf Hn Hg) as Hf'. injection Hpc as <-.
    pose proof (lookup_lt_Some _ _ _ Hi) as Hlt. destruct Hf' as [H1 H2 H3 H4]. simpl in *.
    assert (Hnew : forall j pc, i <> j -> fl_pcs f !! j = Some pc -> heldLease pc <> Some lease).
    { intros j pc _ Hj Hl. apply Hn. by eapply (fv_held _ _ Hf). }
    split; simpl; try done.
    + intros j pc l Hj Hl. destruct (decide (i = j)) as [<-|Hij].
      * rewrite list_lookup_insert_eq in Hj by done. injection Hj as <-. injection Hl as <-. left.
      * rewrite list_lookup_insert_ne in Hj by done. by eapply H2.
    + intros j k x x' l Hj Hk Hl Hl'. destruct (decide (i = j)) as [<-|Hij], (decide (i = k)) as [<-|Hik]; try done.
      * rewrite list_lookup_insert_eq in Hj by done. rewrite list_lookup_insert_ne in Hk by done. injection Hj as <-.
        injection Hl as <-. by destruct (Hnew k x' Hik Hk).
      * rewrite list_lookup_insert_ne in Hj by done. rewrite list_lookup_insert_eq in Hk by done. injection Hk as <-.
        injection Hl' as <-. by destruct (Hnew j x Hij Hj).
      * rewrite list_lookup_insert_ne in Hj, Hk by done. by eapply H3.
    + intros j key l Hj. destruct (decide (i = j)) as [<-|Hij].
      * by rewrite list_lookup_insert_eq in Hj by done.
      * rewrite list_lookup_insert_ne in Hj by done. by apply (H4 j).
  - by apply fleet_grant.
  - destruct (put_law _ _ _ _ Hp) as (Hnone & Hput & Hother & Hlive). simpl in Hpc. rewrite Hk in Hpc. injection Hpc as <-.
    eapply fleet_move; [done|exact Hi|done| |done|].
    + intros k l Hkl _. rewrite Hother; [done|]. intros ->. congruence.
    + intros k l [= <- <-]. split; [by eapply list_elem_of_lookup_2|done].
  - destruct (put_law _ _ _ _ Hp) as (Hnone & Hput & Hother & Hlive). injection Hpc as <-.
    eapply fleet_move; [done|exact Hi|done| |done|done].
    intros k l Hkl _. rewrite Hother; [done|]. intros ->. congruence.
  - destruct (revoke_law _ _ _ Hr) as (Hlive & Hkey & _). by apply fleet_etcd.
  - eapply fleet_move; [done|exact Hi|done|done|by intros l; eapply acquireEtcd_held|].
    intros key l ->. unfold acquireEtcd, afterError, nextSlot in Hpc. destruct pc, e; try done; repeat case_match; simplify_eq.
  - by eapply fleet_move.
  - destruct (tick_law _ _ Ht) as (Hlive & Hkey & _). by apply fleet_etcd.
Qed.

Lemma fleet_reachable_inv keys f : fleet_reachable keys f -> fleet_inv keys f.
Proof.
  induction 1 as [e count He|f f' _ IH Hs]; [|by eapply fleet_step_inv].
  split; simpl; [by intros l Hl; destruct (He l)|..]; intros i; intros; try (by apply lookup_replicate in H0 as [-> _]);
    by apply lookup_replicate in H0 as [? _]; simplify_eq.
Qed.

End Launchers.

(** ** Theorems *)


(** etcd as the set of its live leases and the lease last put under each key. *)
Definition plainKey (e : gmap string nat * gset nat) (key : string) : option nat :=
  l ← e.1 !! key; if decide (l ∈ e.2) then Some l else None.

Lemma plainKey_Some e key l : plainKey e key = Some l <-> e.1 !! key = Some l /\ l ∈ e.2.
Proof.
  unfold plainKey. destruct (e.1 !! key) as [l'|]; simpl; [|naive_solver]. case_decide; naive_solver.
Qed.

#[local] Instance plainEtcd : EtcdService.
Proof.
  refine {|
    etcd := gmap string nat * gset nat;
    leaseLive e l := l ∈ e.2;
    keyLease := plainKey;
    grantEffect e l e' := l ∉ e.2 /\ (forall key, e.1 !! key <> Some l) /\ e' = (e.1, {[l]} ∪ e.2);
    putEffect e key l e' := plainKey e key = None /\ l ∈ e.2 /\ e' = (<[key := l]> e.1, e.2);
    revokeEffect e l e' := e' = (e.1, e.2 ∖ {[l]});
    etcdTick e e' := e'.1 = e.1 /\ e'.2 ⊆ e.2
  |}.
  - intros e key l [_ ?]%plainKey_Some. done.
  - intros e l e' (Hn & Hk & ->). split_and!; [done|set_solver|]. intros key. apply option_eq. intros l'.
    rewrite !plainKey_Some. simpl. split; intros [H1 H2]; (split; [done|]); [|set_solver].
    destruct (decide (l' = l)) as [->|]; [by destruct (Hk key)|set_solver].
  - intros e key l e' (Hn & Hl & ->). split_and!; [done|apply plainKey_Some; simpl; by rewrite lookup_insert_eq| |done].
    intros k Hk. apply option_eq. intros l'. rewrite !plainKey_Some. simpl. by rewrite lookup_insert_ne.
  - intros e l e' ->. split_and!; [set_solver| |]; intros key l'; rewrite !plainKey_Some; set_solver.
  - intros e e' [H1 H2]. split_and!; [set_solver| |]; intros key l'; rewrite !plainKey_Some, H1; set_solver.
Defined.


(** ** Waiting for a deletion *)

Lemma snapshotMissing_spec keys kvs :
  snapshotMissing keys kvs = true <-> exists key, key ∈ keys /\ key ∉ kvs.*1.
Proof.
  unfold snapshotMissing. rewrite existsb_exists.
  assert (Hp : forall key, key ∈ keys ->
    (key ∈ foldl (fun present kv => if bool_decide (kv.1 ∈ keys) then kv.1 :: present else present) [] kvs <-> key ∈ kvs.*1)).
  { intros key Hk. assert (Hg : forall acc, key ∈ foldl (fun present (kv : string * string) =>
      if bool_decide (kv.1 ∈ keys) then kv.1 :: present else present) acc kvs <-> key ∈ acc \/ key ∈ kvs.*1).
    { induction kvs as [|[k v] kvs IH]; intros acc; simpl; [set_solver|]. rewrite IH.
      case_bool_decide; set_solver. }
    rewrite Hg. set_solver. }
  split.
  - intros (key & Hk%list_elem_of_In & Hn%negb_true_iff%bool_decide_eq_false). exists key. by rewrite <- Hp.
  - intros (key & Hk & Hn). exists key. split; [by apply list_elem_of_In|].
    apply negb_true_iff, bool_decide_eq_false. by rewrite Hp.
Qed.

(** A key that was present and is absent after some events was deleted by one. *)
Lemma deleted_event key events : forall store : gmap string string,
  is_Some (store !! key) -> foldl applyEvent store events !! key = None -> evDelete key ∈ events.
Proof.
  induction events as [|e events IH]; intros store Hs Hn; simpl in *; [destruct Hs; congruence|].
  destruct (decide (is_Some (applyEvent store e !! key))) as [Hs'|Hs'].
  - right. by eapply IH.
  - rewrite <- eq_None_not_Some in Hs'. destruct e as [k v|k]; simpl in Hs';
      destruct (decide (k = key)) as [->|]; simplify_map_eq; [destruct Hs; congruence|left|destruct Hs; congruence].
Qed.

(** A launcher that waits for a slot misses no deletion. Its snapshot is
    etcd's contents at a revision; it ends the wait at once when a slot is free
    there, and otherwise, when a slot is free at any later revision, the deletions
    of the watch up to that revision end the wait; and the watch ends the wait only
    for the deletion of a slot. *)
Theorem deletion_wakes `{EtcdHistory} prefix revision kvs :
  let keys := etcdSlotKeys prefix in
  isRange (slotPrefix prefix) (storeAt revision) kvs ->
  (snapshotMissing keys kvs = true <-> exists key, key ∈ keys /\ storeAt revision !! key = None) /\
  forall upto, (revision <= upto)%nat ->
    let events := deletions (watched (slotPrefix prefix) revision upto) in
    (snapshotMissing keys kvs = false -> (exists key, key ∈ keys /\ storeAt upto !! key = None) ->
       watchDeletion keys events = true) /\
    (watchDeletion keys events = true ->
       exists key r, key ∈ keys /\ (revision < r <= upto)%nat /\ evDelete key ∈ eventsAt r).
Proof.
  intros keys Hr.
  assert (Hpre : forall key, key ∈ keys -> (key ∈ kvs.*1 <-> is_Some (storeAt revision !! key))).
  { intros key Hk. rewrite list_elem_of_fmap. split.
    - intros ([k v] & -> & Hin). rewrite Hr, elem_of_map_to_list, map_lookup_filter_Some in Hin. destruct Hin as [Hin _]. by exists v.
    - intros [v Hv]. exists (key, v). split; [done|]. rewrite Hr, elem_of_map_to_list, map_lookup_filter_Some.
      split; [done|]. by apply slot_keys_prefixed. }
  split.
  { rewrite snapshotMissing_spec. split; intros (key & Hk & Hn); exists key; (split; [done|]).
    - rewrite Hpre in Hn by done. by apply eq_None_not_Some.
    - rewrite Hpre by done. by apply eq_None_not_Some. }
  intros upto Hle events.
  assert (Hev : forall e, e ∈ events <-> (exists key, e = evDelete key) /\ String.prefix (slotPrefix prefix) (eventKey e) = true /\
    exists r, (revision < r <= upto)%nat /\ e ∈ eventsAt r).
  { intros e. unfold events, deletions, watched. rewrite !list_elem_of_filter, list_elem_of_In, in_concat. split.
    - intros (Hd & Hp & l & Hl & Hin). split; [destruct e; [done|by eexists]|]. split; [done|].
      apply list_elem_of_In, list_elem_of_fmap in Hl as (r & -> & Hrr%elem_of_seq). exists r. split; [lia|].
      by apply list_elem_of_In.
    - intros ([key ->] & Hp & r & Hrr & Hin). split; [done|]. split; [done|]. exists (eventsAt r).
      split; [|by apply list_elem_of_In]. apply list_elem_of_In, list_elem_of_fmap. exists r. split; [done|].
      apply elem_of_seq. lia. }
  split.
  - intros Hm (key & Hk & Hn). unfold watchDeletion. apply existsb_exists. exists (evDelete key).
    split; [|by apply bool_decide_eq_true]. apply list_elem_of_In, Hev. split; [by eexists|].
    split; [by apply slot_keys_prefixed|].
    assert (Hs : is_Some (storeAt revision !! key)).
    { apply Hpre; [done|]. destruct (decide (key ∈ kvs.*1)) as [|Hnin]; [done|].
      assert (snapshotMissing keys kvs = true) by (apply snapshotMissing_spec; by exists key). congruence. }
    replace upto with (revision + (upto - revision))%nat in Hn by lia. rewrite storeAt_upto in Hn.
    apply deleted_event in Hn; [|done]. apply list_elem_of_In, in_concat in Hn as (l & Hl & Hin).
    apply list_elem_of_In, list_elem_of_fmap in Hl as (r & -> & Hrr%elem_of_seq). exists r. split; [lia|].
    by apply list_elem_of_In.
  - unfold watchDeletion. intros (e & He%list_elem_of_In & Hk%bool_decide_eq_true)%existsb_exists.
    apply Hev in He as ([key ->] & _ & r & Hrr & Hin). by exists key, r.
Qed.

(** All five slots taken, the second one deleted at revision 1. *)
#[local] Instance deletionHistory : EtcdHistory := {|
  storeAt revision :=
    let full := foldr (fun key m => <[key := "a"]> m) (∅ : gmap string string) (loadEtcdSlotKeys "p") in
    match revision with O => full | _ => delete "p-redlease-server-2" full end;
  eventsAt revision := match revision with 1%nat => [evDelete "p-redlease-server-2"] | _ => [] end;
  storeAt_events := ltac:(intros [|revision]; reflexivity)
|}.

Lemma deletion_wakes_witness :
  exists kvs, isRange (slotPrefix "p") (storeAt 0) kvs /\
    watchDeletion (etcdSlotKeys "p") (deletions (watched (slotPrefix "p") 0 1)) = true.
Proof.
  assert (Hr : isRange (slotPrefix "p") (storeAt 0)
    (map_to_list (filter (fun kv => String.prefix (slotPrefix "p") kv.1 = true) (storeAt 0)))) by (unfold isRange; reflexivity).
  eexists. split; [exact Hr|].
  destruct (deletion_wakes "p" 0 _ Hr) as [_ Hw]. apply (Hw 1%nat); [lia|vm_compute; reflexivity|].
  exists "p-redlease-server-2". split; [right; left|vm_compute; reflexivity].
Defined.

(** ** Timing of the keep-alive *)

(** A round: when [keepAlive] received the tick, when etcd extended the lease and
    when the call returned, with its response. *)
Record kaRound := mkRound {
  ka_tick : Z;
  ka_extended : Z;
  ka_returned : Z;
  ka_response : keepAliveResponse
}.

(** Rounds as the code makes them: the ticker fires every period, a goroutine that
    is ready runs within [lag], and the context of a call ends after a period. *)
Record rounds_timed (lag : Z) (rounds : list kaRound) : Prop := {
  rt_call : forall i r, rounds !! i = Some r -> (ka_tick r <= ka_extended r <= ka_returned r)%Z /\
    (ka_returned r <= ka_tick r + etcdKeepAlivePeriod + lag)%Z;
  rt_next : forall i r r', rounds !! i = Some r -> rounds !! (S i) = Some r' ->
    (ka_tick r' <= Z.max (ka_tick r + etcdKeepAlivePeriod) (ka_returned r) + lag)%Z
}.

(** [keepAlive]: the index of the round that ends it, and what it reports. *)
Fixpoint keepAlive (ctxDone : bool) (rounds : list kaRound) (index : nat) : option (nat * option keepAliveFailure) :=
  match rounds with
  | [] => None
  | r :: rounds =>
      match keepAliveRound ctxDone (ka_response r) with
      | kaContinue => keepAlive ctxDone rounds (S index)
      | kaReturn => Some (index, None)
      | kaReport e => Some (index, Some e)
      end
  end.

Lemma keepAlive_spec ctxDone rounds : forall base index failure,
  keepAlive ctxDone rounds base = Some (index, failure) ->
  (base <= index)%nat /\
  (forall i r, (i < index - base)%nat -> rounds !! i = Some r -> exists ttl, ka_response r = kaTTL ttl /\ (0 < ttl)%Z) /\
  exists r, rounds !! (index - base)%nat = Some r /\ keepAliveRound ctxDone (ka_response r) <> kaContinue.
Proof.
  induction rounds as [|r rounds IH]; intros base index failure Hk; simpl in Hk; [done|].
  destruct (keepAliveRound ctxDone (ka_response r)) as [| |e] eqn:Hr.
  - apply IH in Hk as (Hle & Hok & r' & Hr' & Hn). split; [lia|]. replace (index - base)%nat with (S (index - S base)) by lia.
    split; [|by exists r']. intros [|i] x Hi Hx.
    + injection Hx as <-. unfold keepAliveRound in Hr. destruct (ka_response r) as [| |ttl]; [by destruct ctxDone|done|].
      destruct (Z.leb_spec ttl 0); [done|]. by exists ttl.
    + apply (Hok i x); [lia|done].
  - injection Hk as <- <-. rewrite Nat.sub_diag. split; [done|]. split; [intros i x ?; lia|]. exists r. by rewrite Hr.
  - injection Hk as <- <-. rewrite Nat.sub_diag. split; [done|]. split; [intros i x ?; lia|]. exists r. by rewrite Hr.
Qed.

(** A lost registration is reported before the slot can be taken over. While
    scheduling delays stay below a third of a second, the round that ends the
    keep-alive after earlier ones succeeded returns before the lease, as the last
    success extended it, expires. *)
Theorem loss_reported_in_time lag ctxDone rounds index failure last r :
  (0 <= lag)%Z -> (3 * lag < Second)%Z -> rounds_timed lag rounds ->
  keepAlive ctxDone rounds 0 = Some (S index, failure) ->
  rounds !! index = Some last -> rounds !! (S index) = Some r ->
  (exists ttl, ka_response last = kaTTL ttl /\ (0 < ttl)%Z) /\
  (ka_returned r < ka_extended last + etcdLeaseTTLSeconds * Second)%Z.
Proof.
  intros H0 Hlag [Hcall Hnext] Hk Hlast Hr. destruct (keepAlive_spec _ _ _ _ _ Hk) as (_ & Hok & _).
  split; [apply (Hok index); [lia|done]|].
  destruct (Hcall _ _ Hlast) as [? ?], (Hcall _ _ Hr) as [? ?]. pose proof (Hnext _ _ _ Hlast Hr).
  unfold etcdLeaseTTLSeconds, etcdKeepAlivePeriod, Second in *. lia.
Qed.

Lemma loss_reported_in_time_witness :
  exists rounds, keepAlive false rounds 0 = Some (1%nat, Some errKeepAlive) /\
    forall last r, rounds !! 0%nat = Some last -> rounds !! 1%nat = Some r ->
      (ka_returned r < ka_extended last + etcdLeaseTTLSeconds * Second)%Z.
Proof.
  exists [mkRound 0 5 10 (kaTTL 3); mkRound Second Second (2 * Second) kaError]. split; [reflexivity|].
  intros last r Hlast Hr.
  apply (loss_reported_in_time 0 false [mkRound 0 5 10 (kaTTL 3); mkRound Second Second (2 * Second) kaError] 0
    (Some errKeepAlive) last r); [lia|vm_compute; reflexivity| |reflexivity|exact Hlast|exact Hr].
  split.
  - intros [|[|i]] x Hx; simplify_eq/=; vm_compute; split_and!; congruence.
  - intros [|[|i]] x y Hx Hy; simplify_eq/=; vm_compute; congruence.
Defined.
