(* ===== verification/EtcdLease.v ===== *)
(** * A registration's lease (src/cmd/redlease-server/etcd_registration.go)

    The goroutine [keepAlive] of an [etcdRegistration], the channel it reports its
    end on, and [Close], which any number of goroutines may call: it cancels the
    context, waits for [keepAlive], revokes the lease and closes the etcd client. *)

From stdpp Require Import base list numbers relations strings.
From S2P Require Import Prelude GoText Address Discovery Registration.

#[local] Open Scope nat_scope.

(** Where [keepAlive] is: at its select, in [KeepAliveOnce], or at the send of its
    error. *)
Inductive keepAlivePC := kaSelect | kaCall | kaSend (e : keepAliveFailure) | kaEnded.

(** The function of [closeOnce]: not started, in [worker.Wait], in [Revoke], in
    [client.Close], or done. The booleans are whether the calls failed. *)
Inductive closePC :=
  | ckIdle
  | ckJoin
  | ckRevoke
  | ckClient (revokeErr : bool)
  | ckDone (revokeErr clientErr : bool).

(** The calls to etcd, in their order. *)
Inductive etcdCall := callKeepAlive | callRevoke | callClientClose.

#[export] Instance etcdCall_eq_dec : EqDecision etcdCall.
Proof. solve_decision. Defined.

(** [rg_channel] is [keepAliveErr], of capacity one. [rg_sent], [rg_calls] and
    [rg_returned] are history variables: the errors ever sent, the calls to etcd,
    and what the callers of [Close] got. *)
Record registration := mkRegistration {
  rg_ctxDone : bool;
  rg_keepAlive : keepAlivePC;
  rg_channel : list keepAliveFailure;
  rg_close : closePC;
  rg_sent : list keepAliveFailure;
  rg_calls : list etcdCall;
  rg_returned : list (bool * bool)
}.

(** The end of [tryEtcdSlot]: the goroutine is started. *)
Definition newRegistration : registration := mkRegistration false kaSelect [] ckIdle [] [] [].

Definition keepAliveErrCapacity : nat := 1.

Definition setKeepAlive (r : registration) (pc : keepAlivePC) (calls : list etcdCall) : registration :=
  mkRegistration (rg_ctxDone r) pc (rg_channel r) (rg_close r) (rg_sent r) (rg_calls r ++ calls) (rg_returned r).

Definition setClose (r : registration) (ctxDone : bool) (pc : closePC) (calls : list etcdCall) : registration :=
  mkRegistration ctxDone (rg_keepAlive r) (rg_channel r) pc (rg_sent r) (rg_calls r ++ calls) (rg_returned r).

(** A step of [keepAlive]. [kvTick] and [kvContext] are the cases of its select;
    [kvAnswer] is what [KeepAliveOnce] returns. [None]: it waits. *)
Inductive keepAliveEvent := kvTick | kvContext | kvAnswer (response : keepAliveResponse) | kvSend.

Definition keepAliveStep (r : registration) (e : keepAliveEvent) : option registration :=
  match rg_keepAlive r, e with
  | kaSelect, kvTick => Some (setKeepAlive r kaCall [callKeepAlive])
  | kaSelect, kvContext => if rg_ctxDone r then Some (setKeepAlive r kaEnded []) else None
  | kaCall, kvAnswer response =>
      Some (setKeepAlive r
        (match keepAliveRound (rg_ctxDone r) response with
         | kaContinue => kaSelect
         | kaReturn => kaEnded
         | kaReport e => kaSend e
         end) [])
  | kaSend e, kvSend =>
      if decide (length (rg_channel r) < keepAliveErrCapacity) then
        Some (mkRegistration (rg_ctxDone r) kaEnded (rg_channel r ++ [e]) (rg_close r) (rg_sent r ++ [e]) (rg_calls r) (rg_returned r))
      else None
  | _, _ => None
  end.

(** A step of [Close]: the function of [closeOnce], and the return of a caller,
    which waits until that function is done. *)
Inductive closeEvent := kcStart | kcJoined | kcRevoked (failed : bool) | kcClosed (failed : bool) | kcReturn.

Definition closeRegistration (r : registration) (e : closeEvent) : option registration :=
  match rg_close r, e with
  | ckIdle, kcStart => Some (setClose r true ckJoin [])
  | ckJoin, kcJoined => match rg_keepAlive r with kaEnded => Some (setClose r (rg_ctxDone r) ckRevoke []) | _ => None end
  | ckRevoke, kcRevoked failed => Some (setClose r (rg_ctxDone r) (ckClient failed) [callRevoke])
  | ckClient revokeErr, kcClosed failed => Some (setClose r (rg_ctxDone r) (ckDone revokeErr failed) [callClientClose])
  | ckDone revokeErr clientErr, kcReturn =>
      Some (mkRegistration (rg_ctxDone r) (rg_keepAlive r) (rg_channel r) (rg_close r) (rg_sent r) (rg_calls r)
              (rg_returned r ++ [(revokeErr, clientErr)]))
  | _, _ => None
  end.

(** The goroutine, the callers of [Close], the end of the launcher's context, and
    the launcher that receives the error. *)
Inductive registration_step (r : registration) : registration -> Prop :=
  | gs_keepAlive e r' : keepAliveStep r e = Some r' -> registration_step r r'
  | gs_close e r' : closeRegistration r e = Some r' -> registration_step r r'
  | gs_parent : registration_step r (mkRegistration true (rg_keepAlive r) (rg_channel r) (rg_close r) (rg_sent r) (rg_calls r) (rg_returned r))
  | gs_receive e rest :
      rg_channel r = e :: rest ->
      registration_step r (mkRegistration (rg_ctxDone r) (rg_keepAlive r) rest (rg_close r) (rg_sent r) (rg_calls r) (rg_returned r)).

Inductive registration_reachable : registration -> Prop :=
  | gr_new : registration_reachable newRegistration
  | gr_step r r' : registration_reachable r -> registration_step r r' -> registration_reachable r'.

(** ** Invariant *)

(** The calls of [Close] that have been made. *)
Definition closeCalls (pc : closePC) : list etcdCall :=
  match pc with ckIdle | ckJoin | ckRevoke => [] | ckClient _ => [callRevoke] | ckDone _ _ => [callRevoke; callClientClose] end.

Record registration_inv (r : registration) : Prop := {
  gi_sent : rg_keepAlive r <> kaEnded -> rg_sent r = [];
  gi_once : length (rg_sent r) <= 1;
  gi_channel : rg_channel r `suffix_of` rg_sent r;
  gi_calls : exists n, rg_calls r = replicate n callKeepAlive ++ closeCalls (rg_close r);
  gi_cancelled : rg_close r <> ckIdle -> rg_ctxDone r = true;
  gi_joined : match rg_close r with ckIdle | ckJoin => True | _ => rg_keepAlive r = kaEnded end;
  gi_returned : match rg_close r with ckDone a b => Forall (.= (a, b)) (rg_returned r) | _ => rg_returned r = [] end
}.

Lemma keepAlive_inv r e r' : keepAliveStep r e = Some r' -> registration_inv r -> registration_inv r'.
Proof.
  intros Hs [H1 H2 H3 (n & H4) H5 H6 H7]. unfold keepAliveStep in Hs.
  assert (Hopen : rg_keepAlive r <> kaEnded -> closeCalls (rg_close r) = []) by (intros Hk; by destruct (rg_close r)).
  destruct (rg_keepAlive r) eqn:Hka, e; try done.
  - injection Hs as <-. split; simpl; try done; [intros _; by apply H1| |by destruct (rg_close r)].
    exists (S n). rewrite H4, Hopen, replicate_S_end, !app_nil_r by done. done.
  - destruct (rg_ctxDone r) eqn:Hd; [|done]. injection Hs as <-. split; simpl; try done; [|by destruct (rg_close r)].
    exists n. by rewrite app_nil_r.
  - injection Hs as <-. split; simpl; try done; [intros _; by apply H1| |by destruct (rg_close r)]. exists n. by rewrite app_nil_r.
  - case_decide as Hl; [|done]. injection Hs as <-. rewrite H1 in H3 |- * by done.
    assert (Hc : rg_channel r = []) by (destruct H3 as [k Hk]; symmetry in Hk; by apply app_eq_nil in Hk as [_ ?]).
    split; simpl; try done; [by rewrite Hc|by exists n|by destruct (rg_close r)].
Qed.

Lemma closeRegistration_inv r e r' : closeRegistration r e = Some r' -> registration_inv r -> registration_inv r'.
Proof.
  intros Hs [H1 H2 H3 (n & H4) H5 H6 H7]. unfold closeRegistration in Hs.
  destruct (rg_close r) as [| | |re|re ce] eqn:Hc, e; try done; simpl in *.
  - injection Hs as <-. split; simpl; try done. exists n. by rewrite H4, !app_nil_r.
  - destruct (rg_keepAlive r) eqn:Hk; try done. injection Hs as <-. split; simpl; try done; [|by intros _; apply H5].
    exists n. by rewrite H4, !app_nil_r.
  - injection Hs as <-. split; simpl; try done; [|by intros _; apply H5]. exists n. by rewrite H4, <- app_assoc.
  - injection Hs as <-. split; simpl; try done; [|by intros _; apply H5|by rewrite H7]. exists n. by rewrite H4, <- app_assoc.
  - injection Hs as <-. split; simpl; rewrite ?Hc; try done; [by exists n|]. apply Forall_app. split; [done|by constructor].
Qed.

Lemma registration_reachable_inv r : registration_reachable r -> registration_inv r.
Proof.
  induction 1 as [|r r' _ IH Hs].
  { split; simpl; try done; [lia|by exists 0]. }
  destruct Hs as [e r' Hs|e r' Hs| |e rest He].
  - by eapply keepAlive_inv.
  - by eapply closeRegistration_inv.
  - by destruct IH as [H1 H2 H3 H4 H5 H6 H7]; split.
  - destruct IH as [H1 H2 H3 H4 H5 H6 H7]. split; simpl; try done. etrans; [|exact H3]. rewrite He. by apply suffix_cons_r.
Qed.

(** ** [Close] ends *)

(** [keepAlive] ends once its context is done; [KeepAliveOnce] returns then. *)
Lemma keepAlive_ends r :
  registration_inv r -> rg_ctxDone r = true ->
  exists r', rtc registration_step r r' /\ rg_keepAlive r' = kaEnded /\ rg_close r' = rg_close r /\ registration_inv r'.
Proof.
  intros Hi Hd. destruct (rg_keepAlive r) as [| |e|] eqn:Hk.
  - set (r' := setKeepAlive r kaEnded []). assert (Hs : keepAliveStep r kvContext = Some r') by (unfold keepAliveStep; by rewrite Hk, Hd).
    exists r'. split_and!; try done; [by eapply rtc_once, gs_keepAlive|by eapply keepAlive_inv].
  - set (r' := setKeepAlive r kaEnded []).
    assert (Hs : keepAliveStep r (kvAnswer kaError) = Some r') by (unfold keepAliveStep; by rewrite Hk, Hd).
    exists r'. split_and!; try done; [by eapply rtc_once, gs_keepAlive|by eapply keepAlive_inv].
  - destruct (keepAliveStep r kvSend) as [r'|] eqn:Hs.
    + exists r'. split_and!; [by eapply rtc_once, gs_keepAlive| | |by eapply keepAlive_inv];
        unfold keepAliveStep in Hs; rewrite Hk in Hs; case_decide; by simplify_eq.
    + exfalso. unfold keepAliveStep in Hs. rewrite Hk in Hs. case_decide as Hl; [done|]. apply Hl.
      destruct Hi as [H1 _ [k H3] _ _ _ _]. rewrite H1 in H3 by (by rewrite Hk). symmetry in H3.
      apply app_eq_nil in H3 as [_ H3]. rewrite H3. unfold keepAliveErrCapacity. simpl. lia.
  - by exists r.
Qed.

Lemma close_ends r :
  registration_inv r -> rg_close r <> ckIdle -> exists r' a b, rtc registration_step r r' /\ rg_close r' = ckDone a b.
Proof.
  assert (Hclient : forall r re, rg_close r = ckClient re -> exists r' a b, rtc registration_step r r' /\ rg_close r' = ckDone a b).
  { intros r0 re Hc. eexists _, re, false. split; [eapply rtc_once, (gs_close _ (kcClosed false))|];
      [unfold closeRegistration; by rewrite Hc|done]. }
  assert (Hrevoke : forall r, rg_close r = ckRevoke -> exists r' a b, rtc registration_step r r' /\ rg_close r' = ckDone a b).
  { intros r0 Hc. destruct (Hclient (setClose r0 (rg_ctxDone r0) (ckClient false) [callRevoke]) false) as (r' & a & b & Hr & Hd); [done|].
    exists r', a, b. split; [|done]. eapply rtc_l; [eapply (gs_close _ (kcRevoked false))|exact Hr].
    unfold closeRegistration. by rewrite Hc. }
  intros Hi Hne. destruct (rg_close r) as [| | |re|a b] eqn:Hc; [done| |by apply Hrevoke|by eapply Hclient|by exists r, a, b].
  destruct (keepAlive_ends r Hi) as (r1 & H1 & Hk & Hc1 & _); [apply Hi; by rewrite Hc|]. rewrite Hc in Hc1.
  destruct (Hrevoke (setClose r1 (rg_ctxDone r1) ckRevoke [])) as (r' & a & b & Hr & Hd); [done|].
  exists r', a, b. split; [|done]. etrans; [exact H1|]. eapply rtc_l; [eapply (gs_close _ kcJoined)|exact Hr].
  unfold closeRegistration. by rewrite Hc1, Hk.
Qed.

(** ** Theorem *)

(** The end of a registration. However the renewals, the launcher and any number
    of callers of [Close] interleave: [keepAlive] never blocks at the channel and
    reports at most one error; the calls to etcd are renewals, then the one
    revocation, then the one [Close] of the client, so that no renewal follows the
    revocation and none uses a closed client; a [Close] that has begun can always
    run to its end; and when it has returned, the goroutine has ended, and all
    callers got the same result. *)
Theorem registration_close_once r :
  registration_reachable r ->
  (forall e, rg_keepAlive r = kaSend e -> length (rg_channel r) < keepAliveErrCapacity) /\
  length (rg_sent r) <= 1 /\
  (exists n k, rg_calls r = replicate n callKeepAlive ++ take k [callRevoke; callClientClose]) /\
  (rg_close r <> ckIdle -> exists r' a b, rtc registration_step r r' /\ rg_close r' = ckDone a b) /\
  (rg_returned r <> [] -> rg_keepAlive r = kaEnded /\
     (exists n, rg_calls r = replicate n callKeepAlive ++ [callRevoke; callClientClose]) /\
     exists result, Forall (.= result) (rg_returned r)).
Proof.
  intros Hr. pose proof (registration_reachable_inv r Hr) as Hi. pose proof Hi as [H1 H2 H3 (n & H4) H5 H6 H7]. split_and!.
  - intros e He. destruct H3 as [k H3]. rewrite H1 in H3 by (by rewrite He). symmetry in H3. apply app_eq_nil in H3 as [_ ->].
    unfold keepAliveErrCapacity. simpl. lia.
  - done.
  - rewrite H4. exists n. destruct (rg_close r); simpl; [by exists 0..|by exists 1|by exists 2].
  - by apply close_ends.
  - intros Hne. destruct (rg_close r) as [| | | |a b]; try done. split; [done|]. split; [by exists n|]. by exists (a, b).
Qed.

(** A registration that was renewed once and closed by two callers. *)
Lemma registration_close_once_witness :
  exists r, registration_reachable r /\ rg_returned r = [(false, true); (false, true)] /\ rg_keepAlive r = kaEnded.
Proof.
  assert (Hk : forall r e r', registration_reachable r -> keepAliveStep r e = Some r' -> registration_reachable r')
    by (intros r e r' Hr Hs; eapply gr_step; [exact Hr|by eapply gs_keepAlive]).
  assert (Hc : forall r e r', registration_reachable r -> closeRegistration r e = Some r' -> registration_reachable r')
    by (intros r e r' Hr Hs; eapply gr_step; [exact Hr|by eapply gs_close]).
  pose proof (Hk _ kvTick _ gr_new eq_refl) as R1.
  pose proof (Hk _ (kvAnswer (kaTTL 3)) _ R1 eq_refl) as R2.
  pose proof (Hc _ kcStart _ R2 eq_refl) as R3.
  pose proof (Hk _ kvContext _ R3 eq_refl) as R4.
  pose proof (Hc _ kcJoined _ R4 eq_refl) as R5.
  pose proof (Hc _ (kcRevoked false) _ R5 eq_refl) as R6.
  pose proof (Hc _ (kcClosed true) _ R6 eq_refl) as R7.
  pose proof (Hc _ kcReturn _ R7 eq_refl) as R8.
  pose proof (Hc _ kcReturn _ R8 eq_refl) as R9.
  eexists. split; [exact R9|]. split; [reflexivity|].
  apply (registration_close_once _ R9). discriminate.
Defined.
