(* ===== verification/ServerFlags.v ===== *)
(** * The command line of the server (src/cmd/redlease-server/main.go)

    [parseFlags] on the arguments of the process, and [run] up to the moment its
    lifecycle starts. Arguments are lists of bytes. *)

From stdpp Require Import base gmap sets list numbers strings.
From S2P Require Import Prelude GoText GoFlags GoFlagsSpec Address Server Discovery Registration Launcher Prometheus Endpoints.

#[local] Open Scope string_scope.
#[local] Open Scope Z_scope.

(** ** [launcherConfig] *)

Record launcherConfig := mkLauncherConfig {
  listenAddress : string;
  metricsListenAddress : string;
  configuredMaxTTLMS : Z;
  lcMaxKeys : Z;
  lcShardCount : Z;
  lcEtcdEndpoint : string;
  lcEtcdPrefix : string;
  etcdAdvertiseAddress : string
}.

Definition defaultListenAddress : string := "127.0.0.1:17379".
Definition defaultConfiguredMaxTTL : Z := 5000.

(** The fields as [parseFlags] initialises them: the zero values and, from
    [StringVar] and [Uint64Var], the defaults of the flags. *)
Definition defaultConfig : launcherConfig :=
  mkLauncherConfig defaultListenAddress "" defaultConfiguredMaxTTL DefaultMaxKeys 0 "" "" "".

(** The [Set] of each flag. *)
Definition setListen (v : text) (c : launcherConfig) : option launcherConfig :=
  Some (mkLauncherConfig (stringOf v) (metricsListenAddress c) (configuredMaxTTLMS c) (lcMaxKeys c) (lcShardCount c)
    (lcEtcdEndpoint c) (lcEtcdPrefix c) (etcdAdvertiseAddress c)).
Definition setMetricsListen (v : text) (c : launcherConfig) : option launcherConfig :=
  Some (mkLauncherConfig (listenAddress c) (stringOf v) (configuredMaxTTLMS c) (lcMaxKeys c) (lcShardCount c)
    (lcEtcdEndpoint c) (lcEtcdPrefix c) (etcdAdvertiseAddress c)).
Definition setConfiguredMaxTTL (v : text) (c : launcherConfig) : option launcherConfig :=
  n ← ParseUint0 64 v;
  Some (mkLauncherConfig (listenAddress c) (metricsListenAddress c) n (lcMaxKeys c) (lcShardCount c)
    (lcEtcdEndpoint c) (lcEtcdPrefix c) (etcdAdvertiseAddress c)).
Definition setMaxKeys (v : text) (c : launcherConfig) : option launcherConfig :=
  n ← ParseUint0 64 v;
  Some (mkLauncherConfig (listenAddress c) (metricsListenAddress c) (configuredMaxTTLMS c) n (lcShardCount c)
    (lcEtcdEndpoint c) (lcEtcdPrefix c) (etcdAdvertiseAddress c)).

(** [uint32Flag]: decimal digits only. *)
Definition uint32Flag {C} (set : Z -> C -> C) (v : text) (c : C) : option C :=
  n ← ParseUint10 32 v; Some (set (u32 n) c).

Definition setShardCount : text -> launcherConfig -> option launcherConfig :=
  uint32Flag (fun n c => mkLauncherConfig (listenAddress c) (metricsListenAddress c) (configuredMaxTTLMS c) (lcMaxKeys c) n
    (lcEtcdEndpoint c) (lcEtcdPrefix c) (etcdAdvertiseAddress c)).
Definition setEtcdEndpoint (v : text) (c : launcherConfig) : option launcherConfig :=
  Some (mkLauncherConfig (listenAddress c) (metricsListenAddress c) (configuredMaxTTLMS c) (lcMaxKeys c) (lcShardCount c)
    (stringOf v) (lcEtcdPrefix c) (etcdAdvertiseAddress c)).
Definition setEtcdPrefix (v : text) (c : launcherConfig) : option launcherConfig :=
  Some (mkLauncherConfig (listenAddress c) (metricsListenAddress c) (configuredMaxTTLMS c) (lcMaxKeys c) (lcShardCount c)
    (lcEtcdEndpoint c) (stringOf v) (etcdAdvertiseAddress c)).
Definition setAdvertise (v : text) (c : launcherConfig) : option launcherConfig :=
  Some (mkLauncherConfig (listenAddress c) (metricsListenAddress c) (configuredMaxTTLMS c) (lcMaxKeys c) (lcShardCount c)
    (lcEtcdEndpoint c) (lcEtcdPrefix c) (stringOf v)).

(** The flags in the order of their definitions. *)
Definition launcherFlags : list (flagDef launcherConfig) := [
  mkFlag (bytesOf "listen") setListen;
  mkFlag (bytesOf "metrics-listen") setMetricsListen;
  mkFlag (bytesOf "configured-max-ttl-ms") setConfiguredMaxTTL;
  mkFlag (bytesOf "max-keys") setMaxKeys;
  mkFlag (bytesOf "shard-count") setShardCount;
  mkFlag (bytesOf "etcd-endpoint") setEtcdEndpoint;
  mkFlag (bytesOf "etcd-prefix") setEtcdPrefix;
  mkFlag (bytesOf "etcd-advertise") setAdvertise
].

Definition parseFlags (args : list text) : argumentError + launcherConfig :=
  noPositional (Parse launcherFlags args defaultConfig).

Example parse_flags :
  parseFlags [bytesOf "--listen=0.0.0.0:7000"; bytesOf "-max-keys"; bytesOf "0x10"; bytesOf "-shard-count=8"] =
    inr (mkLauncherConfig "0.0.0.0:7000" "" 5000 16 8 "" "" "") /\
  parseFlags [bytesOf "-h"] = inl (errFlag errHelp) /\
  parseFlags [bytesOf "-shard-count=0x8"] = inl (errFlag (errInvalidValue (bytesOf "0x8") (bytesOf "shard-count"))) /\
  parseFlags [bytesOf "-max-keys"; bytesOf "5"; bytesOf "extra"] = inl (errPositional [bytesOf "extra"]).
Proof. split_and!; reflexivity. Qed.

(** ** Round trip *)

(** The fields at the widths of the source. *)
Definition config_typed (c : launcherConfig) : Prop :=
  is_u64 (configuredMaxTTLMS c) /\ is_u64 (lcMaxKeys c) /\ is_u32 (lcShardCount c).

Definition launcherShows : list (launcherConfig -> text) := [
  bytesOf ∘ listenAddress; bytesOf ∘ metricsListenAddress; decimal ∘ configuredMaxTTLMS; decimal ∘ lcMaxKeys;
  decimal ∘ lcShardCount; bytesOf ∘ lcEtcdEndpoint; bytesOf ∘ lcEtcdPrefix; bytesOf ∘ etcdAdvertiseAddress
].

Definition printedLauncherFlags : list (printedFlag launcherConfig) := zip_with mkPrinted launcherFlags launcherShows.

Lemma printedLauncherFlags_fst : pf_flag <$> printedLauncherFlags = launcherFlags.
Proof. done. Qed.

#[export] Instance launcher_printed : PrintedFlags config_typed printedLauncherFlags.
Proof.
  split.
  - rewrite printedLauncherFlags_fst. unfold goodFlags. 
    repeat first [apply Forall_nil_2 | apply Forall_cons_2];
      (split; [by apply (bool_decide_eq_true_1 _); vm_compute|do 2 eexists; split; [reflexivity|done]]).
  - apply (bool_decide_eq_true_1 _). vm_compute. reflexivity.
  - intros p c cur Hp (H1 & H2 & H3) (T1 & T2 & T3). revert p Hp. each_flag.
    all: printed_flag ltac:(unfold setListen, setMetricsListen, setConfiguredMaxTTL, setMaxKeys, setShardCount, uint32Flag,
      setEtcdEndpoint, setEtcdPrefix, setAdvertise;
      rewrite ?stringOf_bytesOf, ?ParseUint0_decimal, ?ParseUint10_decimal by in_range; simpl; rewrite ?u32_small by done).
  - intros a b (A1 & A2 & A3) (B1 & B2 & B3) Heq. destruct a, b; simpl in *.
    pose proof (fun p => Heq p) as Hs. rewrite <- Forall_forall in Hs. unfold printedLauncherFlags in Hs. simpl in Hs.
    repeat match goal with H : Forall _ (_ :: _) |- _ => apply Forall_cons in H as [? H] end.
    unfold compose in *. simpl in *. f_equal; first [by apply bytesOf_inj | apply decimal_inj; [in_range..|done]].
Qed.

(** ** [run] up to the lifecycle *)

(** What the lifecycle is started with. *)
Record serverRun := mkServerRun {
  sr_config : Config;
  sr_etcd : launcherEtcdConfig;
  sr_state : launchState
}.

Inductive serverRunError :=
  | errArguments (e : argumentError)
  | errServerConfig (e : configError)
  | errEtcdConfig (e : etcdConfigError)
  | errMetricsEndpoint (e : endpointError).

(** The endpoint of the metrics, if an address for it is given. *)
Definition startMetrics `{PrometheusRegistry} (address : string) (listens : bool) : endpointError + bool :=
  if decide (address <> "") then
    match startMetricsEndpoint listens with
    | inl e => inl e
    | inr _ => inr true
    end
  else inr false.

(** [run] until [lifecycle.run] or, when the server cannot be started, until
    [lifecycle.Close]; the flags are the answers of the operating system and of
    the registry. *)
Definition runServer `{PrometheusRegistry} (args : list text) (logger : Logger) (metricsListens listens registered : bool)
    : serverRunError + serverRun :=
  match parseFlags args with
  | inl e => inl (errArguments e)
  | inr c =>
      match serverConfig (configuredMaxTTLMS c) (lcMaxKeys c) (lcShardCount c) (Some logger) with
      | inl e => inl (errServerConfig e)
      | inr config =>
          match etcdConfig (lcEtcdEndpoint c) (lcEtcdPrefix c) (etcdAdvertiseAddress c) (listenAddress c) with
          | inl e => inl (errEtcdConfig e)
          | inr etcd =>
              match startMetrics (metricsListenAddress c) metricsListens with
              | inl e => inl (errMetricsEndpoint e)
              | inr withMetrics =>
                  inr (mkServerRun config etcd
                    (if enabled etcd then launchRunning (startEtcdAcquisition (startLauncher true withMetrics))
                     else match startServer (startLauncher false withMetrics) listens true registered with
                          | (l, None) => launchRunning l
                          | (l, Some e) => launchClosing l (Some e)
                          end))
              end
          end
      end
  end.

(** ** Theorems *)

Lemma launcher_typed args c : parseFlags args = inr c -> config_typed c.
Proof.
  unfold parseFlags, noPositional. destruct (Parse launcherFlags args defaultConfig) as [|[c1 [|]]] eqn:Hp; try done.
  intros [= <-]. eapply Parse_preserves in Hp; [done| |].
  - repeat first [apply Forall_nil_2 | apply Forall_cons_2]; intros v a b (H1 & H2 & H3);
      unfold setListen, setMetricsListen, setConfiguredMaxTTL, setMaxKeys, setShardCount, uint32Flag, setEtcdEndpoint,
        setEtcdPrefix, setAdvertise; simpl;
      repeat match goal with
      | |- context [ParseUint0 64 v] =>
          destruct (ParseUint0 64 v) as [n|] eqn:Hn; [apply ParseUint0_range in Hn; simpl|done]
      | |- context [ParseUint10 32 v] =>
          destruct (ParseUint10 32 v) as [n|] eqn:Hn; [apply ParseUint10_range in Hn; [simpl; rewrite u32_small by done|lia]|done]
      end; by intros [= <-].
  - split_and!; by vm_compute.
Qed.

Lemma parseFlags_empty args c : parseFlags args = inr c <-> Parse launcherFlags args defaultConfig = inr (c, []).
Proof. apply noPositional_exact. Qed.

(** C38: command lines of the server mean what they say. [parseFlags]
    accepts exactly the sequences of settings, each in one of the four spellings
    of a flag, with known names and valid values, and applies them to the
    defaults in their order; nothing may follow them. Every configuration of
    fields of their widths can be written this way, and any settings that mention
    at least the fields that differ from the defaults, in any order and spelling,
    are read back as it. *)
Theorem server_flags_exact args c :
  (parseFlags args = inr c <->
     exists settings, commandLine settings args [] /\ applySettings launcherFlags settings defaultConfig = Some c) /\
  (parseFlags args = inr c -> config_typed c) /\
  (config_typed c -> forall settings,
     describes printedLauncherFlags defaultConfig c settings -> commandLine settings args [] -> parseFlags args = inr c).
Proof.
  split_and!.
  - rewrite parseFlags_empty. apply Parse_exact. apply (pl_good (flags := printedLauncherFlags)).
  - apply launcher_typed.
  - intros Hc settings Hd Hcl. apply parseFlags_empty.
    eapply (Parse_describes config_typed printedLauncherFlags); [|done..]. split_and!; by vm_compute.
Qed.

Lemma runServer_inv `{PrometheusRegistry} args logger metricsListens listens registered run :
  runServer args logger metricsListens listens registered = inr run ->
  exists c withMetrics,
    parseFlags args = inr c /\
    serverConfig (configuredMaxTTLMS c) (lcMaxKeys c) (lcShardCount c) (Some logger) = inr (sr_config run) /\
    etcdConfig (lcEtcdEndpoint c) (lcEtcdPrefix c) (etcdAdvertiseAddress c) (listenAddress c) = inr (sr_etcd run) /\
    startMetrics (metricsListenAddress c) metricsListens = inr withMetrics /\
    sr_state run = if enabled (sr_etcd run) then launchRunning (startEtcdAcquisition (startLauncher true withMetrics))
      else match startServer (startLauncher false withMetrics) listens true registered with
           | (l, None) => launchRunning l
           | (l, Some e) => launchClosing l (Some e)
           end.
Proof.
  unfold runServer. destruct (parseFlags args) as [|c] eqn:Hp; [done|].
  destruct (serverConfig _ _ _ _) as [|config] eqn:Hs; [done|].
  destruct (etcdConfig _ _ _ _) as [|etcd] eqn:He; [done|].
  destruct (startMetrics _ _) as [|withMetrics] eqn:Hm; [done|]. intros [= <-]. by exists c, withMetrics.
Qed.

Lemma serverConfig_inv ttl maxKeys shards logger config :
  is_u64 ttl -> is_u64 maxKeys -> is_u32 shards -> serverConfig ttl maxKeys shards (Some logger) = inr config ->
  0 < MaxTTL config <= 5000 /\ 0 < MaxKeys config < 2 ^ 64 /\
  (ShardCount config = 0 \/ exists k, 0 <= k < 32 /\ ShardCount config = 2 ^ k).
Proof.
  intros H1 H2 H3. unfold serverConfig. destruct (Validate _) eqn:Hv; [done|]. intros [= <-]. unfold Validate in Hv. simpl in *.
  change (ProtocolMaxTTL `quot` Millisecond) with 5000 in *. repeat case_decide; try done. split; [in_range|]. split.
  - destruct (Z.eqb_spec maxKeys 0); [unfold DefaultMaxKeys; lia|in_range].
  - destruct (decide (shards = 0)) as [|Hne]; [by left|right].
    destruct (land_pred_pow2 shards) as (k & Hk & Heq); [in_range| |].
    { rewrite (u32_small (shards - 1)) in * by in_range. destruct (decide (Z.land shards (shards - 1) = 0)); tauto. }
    exists k. split; [|done]. split; [done|]. rewrite (Z.pow_lt_mono_r_iff 2), <- Heq by lia. in_range.
Qed.

(** The configurations [run] goes on with. *)
Lemma runServer_config `{PrometheusRegistry} args logger metricsListens listens registered run :
  runServer args logger metricsListens listens registered = inr run ->
  (exists s, New true (sr_config run) = inr s) /\
  0 < MaxTTL (sr_config run) <= 5000 /\ 0 < MaxKeys (sr_config run) < 2 ^ 64 /\
  (ShardCount (sr_config run) = 0 \/ exists k, 0 <= k < 32 /\ ShardCount (sr_config run) = 2 ^ k) /\
  (enabled (sr_etcd run) = true ->
     ecPrefix (sr_etcd run) <> "" /\ validateEtcdAdvertiseAddress (bytesOf (advertiseAddress (sr_etcd run))) = None).
Proof.
  intros (c & withMetrics & Hp & Hs & He & Hm & Hstate)%runServer_inv.
  pose proof (launcher_typed _ _ Hp) as (H1 & H2 & H3).
  split; [by eapply serverConfig_accepted|].
  destruct (serverConfig_inv _ _ _ _ _ H1 H2 H3 Hs) as (Httl & Hkeys & Hshards). split; [done|split; [done|split; [done|]]].
  intros Hen. unfold etcdConfig in He. repeat case_decide; try done.
  - injection He as He. rewrite <- He in Hen. done.
  - destruct (validateEtcdAdvertiseAddress _) eqn:Hv; [done|]. injection He as He. rewrite <- He. done.
  - destruct (validateEtcdAdvertiseAddress _) eqn:Hv; [done|]. injection He as He. rewrite <- He. done.
Qed.

Lemma runServer_reachable `{PrometheusRegistry} args logger metricsListens listens registered run :
  runServer args logger metricsListens listens registered = inr run ->
  launch_reachable (sr_state run) /\
  exists c, parseFlags args = inr c /\
    launchOptions (launcherOf (sr_state run)) = (enabled (sr_etcd run), bool_decide (metricsListenAddress c <> "")).
Proof.
  intros (c & withMetrics & Hp & Hs & He & Hm & Hstate)%runServer_inv. rewrite Hstate. split.
  - destruct (enabled (sr_etcd run)); [constructor|].
    destruct (startServer _ listens true registered) as [l [e|]] eqn:Hst; [by eapply lre_failed|by eapply lre_plain].
  - exists c. split; [done|]. assert (Hw : withMetrics = bool_decide (metricsListenAddress c <> "")).
    { unfold startMetrics in Hm. case_decide as Hd; [|injection Hm as <-; by rewrite Hd].
      destruct (startMetricsEndpoint metricsListens); [done|]. injection Hm as <-. symmetry. by apply bool_decide_eq_true. }
    rewrite <- Hw. destruct (enabled (sr_etcd run)); [by destruct withMetrics|].
    pose proof (startServer_options (startLauncher false withMetrics) listens true registered) as Ho.
    destruct (startServer _ listens true registered) as [l [e|]]; simpl in *; rewrite Ho; by destruct withMetrics.
Qed.

(** C28: the server command, from its command line to its end. Whenever [run] gets
    past its checks, the server's constructor accepts the configuration, whose TTL
    lies between 1 and 5000 milliseconds, which has room for a key and whose shard
    count is absent or a power of two, and with etcd there is a prefix and a valid
    address to advertise. From then on, with failing listeners, registries,
    closings and acquisitions that end late: at most one server is open; if an etcd
    endpoint was given it runs only together with an open registration; the metrics
    exported are those of the running server, and there are some exactly if an
    address for them was given; and when the process ends, on whatever path, every
    server and every registration ever opened has been closed. *)
Theorem server_command_lifecycle `{PrometheusRegistry} args logger metricsListens listens registered run s :
  runServer args logger metricsListens listens registered = inr run ->
  rtc launch_step (sr_state run) s ->
  ((exists server, New true (sr_config run) = inr server) /\
   0 < MaxTTL (sr_config run) <= 5000 /\ 0 < MaxKeys (sr_config run) < 2 ^ 64 /\
   (ShardCount (sr_config run) = 0 \/ exists k, 0 <= k < 32 /\ ShardCount (sr_config run) = 2 ^ k) /\
   (enabled (sr_etcd run) = true ->
      ecPrefix (sr_etcd run) <> "" /\ validateEtcdAdvertiseAddress (bytesOf (advertiseAddress (sr_etcd run))) = None)) /\
  launch_guarantee (enabled (sr_etcd run)) s /\
  exists c, parseFlags args = inr c /\ (la_metrics (launcherOf s) <> None <-> metricsListenAddress c <> "").
Proof.
  intros Hrun Hsteps. split; [by eapply runServer_config|].
  apply runServer_reachable in Hrun as (Hr & c & Hp & Ho).
  assert (Hs : launch_reachable s /\ launchOptions (launcherOf s) = launchOptions (launcherOf (sr_state run))).
  { clear Ho. induction Hsteps as [|s0 s1 s2 Hst _ IH]; [done|]. destruct IH as [H1 H2]; [by eapply lre_step|].
    split; [done|]. rewrite H2. by apply launch_step_options. }
  destruct Hs as [Hs Heq]. rewrite Ho in Heq. unfold launchOptions in Heq. injection Heq as H1 H2. split.
  - rewrite <- H1. by apply launcher_lifecycle.
  - exists c. split; [done|]. split; intros Hx; apply (bool_decide_eq_true_1 _); [rewrite <- H2|rewrite H2];
      by apply bool_decide_eq_true_2.
Qed.

(** A command line with two flags in different spellings. *)
Definition demoArgs : list text := [bytesOf "--shard-count"; bytesOf "16"; bytesOf "-listen=10.0.0.1:7000"].
Definition demoLauncherConfig : launcherConfig := mkLauncherConfig "10.0.0.1:7000" "" 5000 10000 16 "" "" "".

Lemma server_flags_exact_witness :
  config_typed demoLauncherConfig /\ parseFlags demoArgs = inr demoLauncherConfig.
Proof.
  assert (Ht : config_typed demoLauncherConfig) by (split_and!; by vm_compute). split; [done|].
  apply (proj2 (proj2 (server_flags_exact demoArgs demoLauncherConfig)) Ht
    [(bytesOf "shard-count", bytesOf "16"); (bytesOf "listen", bytesOf "10.0.0.1:7000")]).
  - split; [apply (bool_decide_eq_true_1 _); vm_compute; reflexivity|].
    refine (proj1 (Forall_forall _ _) _). repeat first [apply Forall_nil_2 | apply Forall_cons_2];
      first [by left | right; apply (bool_decide_eq_true_1 _); vm_compute; reflexivity].
  - apply (cl_setting _ _ _ [bytesOf "--shard-count"; bytesOf "16"]); [apply (sp_split (bytesOf "shard-count") (bytesOf "16") [minus; minus]); by right|].
    apply (cl_setting _ _ _ [bytesOf "-listen=10.0.0.1:7000"] []); [apply (sp_joined (bytesOf "listen") (bytesOf "10.0.0.1:7000") [minus]); by left|].
    constructor. constructor.
Defined.

(** A launcher with etcd and metrics whose acquisition succeeded, and which was
    told to stop: when it has ended, nothing is open. *)
Definition demoEtcdArgs : list text := [
  bytesOf "-etcd-endpoint=e:1"; bytesOf "-etcd-prefix=/p"; bytesOf "-etcd-advertise=10.0.0.1:7000"; bytesOf "-metrics-listen=:9"].

Lemma server_command_lifecycle_witness :
  exists run l, runServer (H := plainRegistry) demoEtcdArgs (mkLogger (fun _ => true)) true true true = inr run /\
    rtc launch_step (sr_state run) (launchEnded l None) /\ la_server l = None /\ la_openServers l = ∅.
Proof.
  destruct (runServer (H := plainRegistry) demoEtcdArgs (mkLogger (fun _ => true)) true true true) as [e|run] eqn:Hrun;
    [vm_compute in Hrun; discriminate Hrun|].
  set (start := launchRunning (startEtcdAcquisition (startLauncher true true))).
  assert (Hst : start = sr_state run).
  { transitivity (match runServer (H := plainRegistry) demoEtcdArgs (mkLogger (fun _ => true)) true true true with
      | inr run => sr_state run | inl _ => launchRunning (startLauncher false false) end);
      [vm_compute; reflexivity|by rewrite Hrun]. }
  exists run. eexists. split; [reflexivity|].
  assert (Hsteps : rtc launch_step (sr_state run)
    (launchEnded (mkLauncher true true (Some (mkEndpoint None true)) (Some 0%nat) false acqReceived None 2 ({[1%nat]} ∖ {[1%nat]})
       ({[0%nat]} ∖ {[0%nat]})) None)).
  { rewrite <- Hst. eapply rtc_l; [apply (la_goroutine_ends _ true); vm_compute; reflexivity|].
    eapply rtc_l; [apply (la_run _ (runAcquired true true true)); vm_compute; reflexivity|].
    eapply rtc_l; [apply la_signal|]. eapply rtc_l; [apply (la_return _ runShutdown); vm_compute; reflexivity|].
    apply rtc_once. refine (eq_rect _ (launch_step _) (la_close _ _ true false _) _ _); [done|]. vm_compute. reflexivity. }
  split; [exact Hsteps|]. split; [reflexivity|].
  destruct (@server_command_lifecycle plainRegistry demoEtcdArgs (mkLogger (fun _ => true)) true true true run _ Hrun Hsteps) as (_ & (Ho & _) & _).
  exact Ho.
Defined.
