(* ===== verification/LoadStats.v ===== *)
(** * Statistics of the load generator (src/cmd/redlease-load/stats.go)

    The logarithmic latency histogram, its percentiles, the totals over the
    workers and the CSV record of a benchmark cell. *)

From Stdlib Require Import SpecFloat.
From stdpp Require Import base list numbers strings pretty.
From S2P Require Import Prelude Float64 Backoff Metrics.

#[local] Open Scope Z_scope.

Definition latencySubdivisions : Z := 4.
Definition latencyBuckets : Z := 128.
Definition percentScale : Z := 100.
Definition percentRoundup : Z := percentScale - 1.
Definition Microsecond : Z := 1000.

(** [latencyHistogram], an array of [latencyBuckets] counters. *)
Definition newLatencies : list Z := replicate (Z.to_nat latencyBuckets) 0.

Definition bucketIndex (elapsed : Z) : Z :=
  let microseconds := u64 (Z.max 1 (Microseconds elapsed)) in
  let exponent := u64 (Len64 microseconds - 1) in
  let base := u64 (Z.shiftl 1 exponent) in
  let subdivision := u64 ((u64 (microseconds - base)) * latencySubdivisions) / base in
  Z.min (u64 (u64 (exponent * latencySubdivisions) + subdivision)) (latencyBuckets - 1).

Definition observe (h : list Z) (elapsed : Z) : list Z :=
  alter (fun n => u64 (n + 1)) (Z.to_nat (bucketIndex elapsed)) h.

Definition merge (h other : list Z) : list Z := zip_with (fun a b => u64 (a + b)) h other.

(** The loop of [percentile] from position [index] on. *)
Fixpoint percentileFrom (target seen : Z) (index : Z) (h : list Z) : Z :=
  match h with
  | [] => 0
  | count :: h =>
      let seen := u64 (seen + count) in
      if target <=? seen then
        let exponent := Z.quot index latencySubdivisions in
        let subdivision := Z.rem index latencySubdivisions in
        let base := i64 (Z.shiftl Microsecond exponent) in
        i64 (base + Z.quot (i64 (base * (subdivision + 1))) latencySubdivisions)
      else percentileFrom target seen (index + 1) h
  end.

Definition percentile (h : list Z) (total percentage : Z) : Z :=
  if total =? 0 then 0
  else
    let target := u64 (u64 (total * percentage) + percentRoundup) / percentScale in
    percentileFrom target 0 0 h.

Record workerStats := mkStats {
  succeeded : Z;
  failed : Z;
  keyLimit : Z;
  expired : Z;
  totalLatency : Z;
  latencies : list Z
}.

Definition newStats : workerStats := mkStats 0 0 0 0 0 newLatencies.

Record caseResult := mkResult {
  rElapsed : Z;
  rTotals : workerStats;           (* the fields it shares with [workerStats] *)
  perClient : list Z;
  allocations : Z
}.

Definition addStats (total worker : workerStats) : workerStats :=
  mkStats (u64 (succeeded total + succeeded worker)) (u64 (failed total + failed worker))
    (u64 (keyLimit total + keyLimit worker)) (u64 (expired total + expired worker))
    (i64 (totalLatency total + totalLatency worker)) (merge (latencies total) (latencies worker)).

(** The body of the loop of [summarize]; [None] is an index out of range or a
    division by zero, which panic. *)
Definition summarizeWorker (leaseCount : Z) (st : option (workerStats * list Z)) (worker : nat * workerStats)
    : option (workerStats * list Z) :=
  '(total, clients) ← st;
  if decide (leaseCount = 0) then None
  else
    let client := Z.to_nat (Z.quot (Z.of_nat worker.1) leaseCount) in
    count ← clients !! client;
    Some (addStats total worker.2, <[client := u64 (count + succeeded worker.2)]> clients).

Definition summarize (stats : list workerStats) (clientCount leaseCount : Z) (elapsed : Z) : option caseResult :=
  '(total, clients) ← foldl (summarizeWorker leaseCount) (Some (newStats, replicate (Z.to_nat clientCount) 0))
    (imap pair stats);
  Some (mkResult elapsed total clients 0).

(** ** The CSV record *)

(** [strconv.FormatFloat(value, 'f', 3, 64)]: the exact value rounded to three
    decimals, ties to even. *)
Definition roundHalfEven (n d : Z) : Z :=
  let q := n / d in
  let r := n mod d in
  if 2 * r <? d then q else if d <? 2 * r then q + 1 else if Z.even q then q else q + 1.

Definition threeDigits (n : Z) : string :=
  (if n <? 10 then "00" else if n <? 100 then "0" else "") +:+ pretty n.

Definition formatFloat (value : float64) : string :=
  match value with
  | S754_nan => "NaN"
  | S754_infinity s => if s then "-Inf" else "+Inf"
  | S754_zero s => if s then "-0.000" else "0.000"
  | S754_finite s m e =>
      let thousandths :=
        if 0 <=? e then Z.pos m * 2 ^ e * 1000 else roundHalfEven (Z.pos m * 1000) (2 ^ (- e)) in
      (if s then "-" else "") +:+ pretty (thousandths / 1000) +:+ "." +:+ threeDigits (thousandths mod 1000)
  end.

Definition clientRange (counts : list Z) : Z * Z :=
  foldl (fun '(lo, hi) '(index, count) =>
    let lo := if decide (index = 0%nat) then count else lo in (Z.min lo count, Z.max hi count))
    (0, 0) (imap pair counts).

Definition csvRecord (r : caseResult) (name quorum : string) (clients leases : Z) : list string :=
  let t := rTotals r in
  let seconds := Seconds (rElapsed r) in
  let '(minClient, maxClient) := clientRange (perClient r) in
  let zero := S754_zero false in
  let fairness := if 0 <? maxClient then fdiv (floatOfZ minClient) (floatOfZ maxClient) else zero in
  let average :=
    if 0 <? succeeded t
    then fdiv (fdiv (floatOfZ (totalLatency t)) (floatOfZ (succeeded t))) (floatOfZ Millisecond) else zero in
  let allocationsPerOperation :=
    if 0 <? succeeded t then fdiv (floatOfZ (allocations r)) (floatOfZ (succeeded t)) else zero in
  let ms p := formatFloat (fdiv (floatOfZ (percentile (latencies t) (succeeded t) p)) (floatOfZ Millisecond)) in
  [name; quorum; pretty clients; pretty leases; formatFloat seconds; pretty (succeeded t); pretty (failed t);
   pretty (keyLimit t); pretty (expired t); formatFloat (fdiv (floatOfZ (succeeded t)) seconds);
   formatFloat (fdiv (floatOfZ minClient) seconds); formatFloat (fdiv (floatOfZ maxClient) seconds);
   formatFloat fairness; formatFloat average; ms 50; ms 95; ms 99; formatFloat allocationsPerOperation].

Definition csvHeader : list string :=
  ["client"; "quorum"; "clients"; "leases_per_client"; "elapsed_s"; "acquire_ok"; "acquire_failed";
   "key_limit_failed"; "expired_before_release"; "acquires_per_s"; "client_min_per_s"; "client_max_per_s";
   "client_min_max_ratio"; "acquire_avg_ms"; "acquire_p50_ms"; "acquire_p95_ms"; "acquire_p99_ms"; "allocs_per_op"].

Example format_values :
  formatFloat (fdiv (floatOfZ 1) (floatOfZ 8)) = "0.125" /\ formatFloat (fdiv (floatOfZ 1) (floatOfZ 16)) = "0.062" /\
  formatFloat (fdiv (floatOfZ 2) (floatOfZ 3)) = "0.667" /\ formatFloat (floatOfZ 1500) = "1500.000".
Proof. split_and!; vm_compute; reflexivity. Qed.

Example percentile_values :
  let h := foldl observe newLatencies [1000000; 2000000; 900000; 40000000] in
  (percentile h 4 50, percentile h 4 99) = (1024000, 40960000).
Proof. vm_compute. reflexivity. Qed.
