(* ===== verification/LoadStatsSafety.v ===== *)
(** * Accuracy of the load generator's statistics (src/cmd/redlease-load/stats.go)

    A bucket of the histogram is at most a quarter wider than its lower bound, so
    a percentile read from the buckets is within a quarter of the true one; the
    totals over the clients add up. *)

From stdpp Require Import base list numbers strings.
From S2P Require Import Prelude Float64 Metrics LoadStats.

#[local] Open Scope Z_scope.

(** ** Buckets *)

(** The microseconds an observation counts for. *)
Definition micros (elapsed : Z) : Z := Z.max 1 (Microseconds elapsed).

Definition measurable (elapsed : Z) : Prop := micros elapsed < 2 ^ 32.

(** The latency [percentile] reports for a bucket, in nanoseconds. *)
Definition upper (i : Z) : Z := 250 * 2 ^ (i / 4) * (5 + i mod 4).

Lemma bucketIndex_spec e :
  measurable e -> 0 <= bucketIndex e < 128 /\
  2 ^ (bucketIndex e / 4) * (4 + bucketIndex e mod 4) <= 4 * micros e < 2 ^ (bucketIndex e / 4) * (5 + bucketIndex e mod 4).
Proof.
  unfold measurable. intros Hm. unfold bucketIndex, latencySubdivisions, latencyBuckets. fold (micros e).
  set (m := micros e) in *. assert (1 <= m) by (subst m; unfold micros; lia). clearbody m.
  rewrite (u64_small m) by in_range. unfold Len64. destruct (Z.eqb_spec m 0); [lia|].
  pose proof (Z.log2_spec m ltac:(lia)) as [Hlo Hhi]. set (x := Z.log2 m) in *.
  assert (Hx : 0 <= x < 32). { split; [apply Z.log2_nonneg|]. apply Z.log2_lt_pow2; lia. }
  clearbody x. rewrite (Z.pow_succ_r 2 x) in Hhi by lia. replace (x + 1 - 1) with x by lia.
  rewrite (u64_small x) by in_range. rewrite Z.shiftl_1_l.
  assert (Hp : 0 < 2 ^ x <= 2 ^ 31) by (split; [apply Z.pow_pos_nonneg; lia|apply Z.pow_le_mono_r; lia]).
  rewrite (u64_small (2 ^ x)), (u64_small (m - 2 ^ x)), (u64_small ((m - 2 ^ x) * 4)) by in_range.
  pose proof (Z.div_mod ((m - 2 ^ x) * 4) (2 ^ x) ltac:(lia)) as Hdiv.
  pose proof (Z.mod_pos_bound ((m - 2 ^ x) * 4) (2 ^ x) ltac:(lia)).
  set (s := (m - 2 ^ x) * 4 / 2 ^ x) in *. assert (Hs : 0 <= s < 4) by nia.
  rewrite (u64_small (x * 4)), (u64_small (x * 4 + s)) by in_range. rewrite Z.min_l by lia.
  replace ((x * 4 + s) / 4) with x by (apply (Z.div_unique _ 4 _ s); lia).
  replace ((x * 4 + s) mod 4) with s by (apply (Z.mod_unique _ 4 x); lia). split; [lia|]. nia.
Qed.

(** A reported latency exceeds the true one by at most a quarter. *)
Lemma upper_bracket e : measurable e -> Microsecond * micros e < upper (bucketIndex e) <= 5 * Microsecond * micros e / 4.
Proof.
  intros He. destruct (bucketIndex_spec e He) as [Hi [Hlo Hhi]]. unfold upper, Microsecond.
  pose proof (Z.mod_pos_bound (bucketIndex e) 4 ltac:(lia)). split; [lia|].
  apply Z.div_le_lower_bound; [lia|]. nia.
Qed.

Lemma upper_S i : 0 <= i -> upper i <= upper (i + 1).
Proof.
  intros Hi. unfold upper. pose proof (Z.div_mod i 4). pose proof (Z.mod_pos_bound i 4).
  pose proof (Z.pow_pos_nonneg 2 (i / 4)). pose proof (Z.div_pos i 4).
  destruct (decide (i mod 4 = 3)).
  - replace ((i + 1) / 4) with (i / 4 + 1) by (apply (Z.div_unique _ 4 _ 0); lia).
    replace ((i + 1) mod 4) with 0 by (apply (Z.mod_unique _ 4 (i / 4 + 1)); lia).
    rewrite Z.pow_add_r by lia. nia.
  - replace ((i + 1) / 4) with (i / 4) by (apply (Z.div_unique _ 4 _ (i mod 4 + 1)); lia).
    replace ((i + 1) mod 4) with (i mod 4 + 1) by (apply (Z.mod_unique _ 4 (i / 4)); lia). nia.
Qed.

Lemma upper_mono i j : 0 <= i <= j -> upper i <= upper j.
Proof.
  intros [Hi Hj]. replace j with (i + Z.of_nat (Z.to_nat (j - i))) by lia.
  induction (Z.to_nat (j - i)) as [|n IH]; [by rewrite Z.add_0_r|].
  rewrite Nat2Z.inj_succ. pose proof (upper_S (i + Z.of_nat n)). replace (i + Z.succ (Z.of_nat n)) with (i + Z.of_nat n + 1) by lia. lia.
Qed.

(** ** Percentiles *)

Definition sumZ : list Z -> Z := foldr Z.add 0.

Lemma sumZ_nonneg l : Forall (Z.le 0) l -> 0 <= sumZ l.
Proof. induction 1; simpl; lia. Qed.

Lemma percentileFrom_spec h : forall target seen index,
  Forall (Z.le 0) h -> 0 <= seen < target -> target <= seen + sumZ h < 2 ^ 64 ->
  0 <= index -> index + Z.of_nat (length h) <= 128 ->
  exists i, (i < length h)%nat /\ percentileFrom target seen index h = upper (index + Z.of_nat i) /\
    seen + sumZ (take i h) < target <= seen + sumZ (take (S i) h).
Proof.
  induction h as [|count h IH]; intros target seen index Hh Hseen Ht Hi Hlen; simpl in *; [lia|].
  inversion_clear Hh as [|? ? Hc Hh']. pose proof (sumZ_nonneg h Hh').
  rewrite u64_small by in_range. destruct (Z.leb_spec target (seen + count)) as [Hle|Hgt].
  - exists 0%nat. split; [lia|]. rewrite Z.add_0_r. split; [|rewrite take_0; simpl; lia].
    unfold latencySubdivisions, Microsecond, upper. rewrite Z.quot_div_nonneg, Z.rem_mod_nonneg by lia.
    pose proof (Z.mod_pos_bound index 4 ltac:(lia)). pose proof (Z.div_mod index 4 ltac:(lia)).
    rewrite Z.shiftl_mul_pow2 by (apply Z.div_pos; lia).
    assert (Hp : 0 < 2 ^ (index / 4) <= 2 ^ 31).
    { split; [apply Z.pow_pos_nonneg; [lia|apply Z.div_pos; lia]|apply Z.pow_le_mono_r; lia]. }
    set (p := 2 ^ (index / 4)) in *. set (r := index mod 4) in *. clearbody p r.
    assert (Hr : 0 <= p * (r + 1) <= 2 ^ 33) by nia.
    rewrite (i64_small (1000 * p)), <- Z.mul_assoc, (i64_small (1000 * _)), Z.quot_div_nonneg by in_range.
    replace (1000 * (p * (r + 1))) with (250 * (p * (r + 1)) * 4) by lia.
    rewrite Z.div_mul by lia. rewrite i64_small by in_range. lia.
  - destruct (IH target (seen + count) (index + 1)) as (i & Hil & Hp & Hb); [done|lia..|].
    exists (S i). split; [lia|]. split; [rewrite Hp; f_equal; lia|]. rewrite !firstn_cons. simpl. lia.
Qed.

(** ** Histograms of observations *)

Definition slot (e : Z) : nat := Z.to_nat (bucketIndex e).

Definition inSlot (l : list Z) (i : nat) : nat := length (filter (fun e => slot e = i) l).

(** The histogram of a list of latencies. *)
Definition histOf (l : list Z) : list Z := (fun i => Z.of_nat (inSlot l i)) <$> seq 0 128.

Lemma inSlot_le l i : (inSlot l i <= length l)%nat.
Proof. apply length_filter. Qed.

Lemma lookup_histOf l i : (i < 128)%nat -> histOf l !! i = Some (Z.of_nat (inSlot l i)).
Proof. intros Hi. unfold histOf. by rewrite list_lookup_fmap, lookup_seq_lt by done. Qed.

Lemma histOf_nil : histOf [] = newLatencies.
Proof. reflexivity. Qed.

Lemma observe_histOf l e :
  measurable e -> Z.of_nat (length (l ++ [e])) < 2 ^ 64 -> observe (histOf l) e = histOf (l ++ [e]).
Proof.
  intros He Hl. rewrite length_app in Hl. simpl in Hl. apply list_eq. intros i. unfold observe. fold (slot e).
  destruct (decide (i < 128)%nat) as [Hi|Hi].
  - pose proof (inSlot_le l i). destruct (decide (slot e = i)) as [<-|Hne].
    + rewrite list_lookup_alter_eq, !lookup_histOf by done. simpl. f_equal. unfold inSlot in *.
      rewrite filter_app, length_app, filter_cons_True, filter_nil by done. simpl. rewrite u64_small by in_range. lia.
    + rewrite list_lookup_alter_ne, !lookup_histOf by done. f_equal. unfold inSlot.
      by rewrite filter_app, length_app, filter_cons_False, filter_nil, Nat.add_0_r by done.
  - rewrite !lookup_ge_None_2; [done| |rewrite length_alter]; unfold histOf; rewrite length_fmap, length_seq; lia.
Qed.

Lemma merge_histOf l l' :
  Z.of_nat (length (l ++ l')) < 2 ^ 64 -> merge (histOf l) (histOf l') = histOf (l ++ l').
Proof.
  intros Hl. rewrite length_app in Hl. apply list_eq. intros i. unfold merge. rewrite lookup_zip_with.
  destruct (decide (i < 128)%nat) as [Hi|Hi].
  - rewrite !lookup_histOf by done. simpl. f_equal. pose proof (inSlot_le l i). pose proof (inSlot_le l' i).
    unfold inSlot in *. rewrite filter_app, length_app. rewrite u64_small by in_range. lia.
  - by rewrite !lookup_ge_None_2 by (unfold histOf; rewrite length_fmap, length_seq; lia).
Qed.

Lemma sumZ_app l l' : sumZ (l ++ l') = sumZ l + sumZ l'.
Proof. induction l; simpl; lia. Qed.

(** The buckets before [i] hold the latencies whose slot is below [i]. *)
Lemma sum_take_histOf l i :
  (i <= 128)%nat -> sumZ (take i (histOf l)) = Z.of_nat (length (filter (fun e => slot e < i)%nat l)).
Proof.
  induction i as [|i IH]; intros Hi.
  { rewrite take_0. induction l as [|e l IHl]; [done|]. by rewrite filter_cons_False by lia. }
  rewrite (take_S_r _ _ (Z.of_nat (inSlot l i))) by (apply lookup_histOf; lia).
  rewrite sumZ_app, IH by lia. simpl. rewrite Z.add_0_r. unfold inSlot. clear IH.
  induction l as [|e l IHl]; [done|]. rewrite !filter_cons. repeat case_decide; simpl; lia.
Qed.

Lemma filter_length_mono {A} (P Q : A -> Prop) `{!forall x, Decision (P x), !forall x, Decision (Q x)} l :
  Forall (fun x => P x -> Q x) l -> (length (filter P l) <= length (filter Q l))%nat.
Proof. induction 1 as [|x l Hx Hl IH]; [done|]. rewrite !filter_cons. repeat case_decide; simpl; naive_solver lia. Qed.

(** [percentile] of the histogram of [l]. *)
Lemma percentile_bracket l p :
  Forall measurable l -> l <> [] -> Z.of_nat (length l) * 100 + 99 < 2 ^ 64 -> 0 < p <= 100 ->
  let rank := (Z.of_nat (length l) * p + 99) / 100 in
  let r := percentile (histOf l) (Z.of_nat (length l)) p in
  rank <= Z.of_nat (length (filter (fun e => Microsecond * micros e < r) l)) /\
  Z.of_nat (length (filter (fun e => 5 * Microsecond * micros e / 4 < r) l)) < rank.
Proof.
  intros Hm Hne Hl Hp rank r. assert (Hn : 0 < Z.of_nat (length l)) by (destruct l; simpl; [done|lia]).
  assert (Hrank : 0 < rank <= Z.of_nat (length l)).
  { subst rank. split; [apply Z.div_str_pos; nia|apply Z.lt_succ_r, Z.div_lt_upper_bound; nia]. }
  assert (Hsum : sumZ (histOf l) = Z.of_nat (length l)).
  { rewrite <- (firstn_all (histOf l)) at 1. unfold histOf at 1. rewrite length_fmap, length_seq, sum_take_histOf by lia.
    f_equal. clear -Hm. induction Hm as [|e l He Hl IH]; [done|]. rewrite filter_cons_True; [simpl; by rewrite IH|].
    unfold slot. destruct (bucketIndex_spec e He). lia. }
  destruct (percentileFrom_spec (histOf l) rank 0 0) as (i & Hi & Hr & Hlo & Hhi).
  - apply list.Forall_forall. intros x (j & -> & _)%list_elem_of_fmap. lia.
  - lia.
  - rewrite Hsum. lia.
  - done.
  - unfold histOf. by rewrite length_fmap, length_seq.
  - unfold histOf in Hi. rewrite length_fmap, length_seq in Hi. rewrite !Z.add_0_l in *.
    rewrite !sum_take_histOf in Hlo, Hhi by lia.
    assert (Hr' : r = upper (Z.of_nat i)).
    { subst r. unfold percentile, percentRoundup, percentScale. destruct (Z.eqb_spec (Z.of_nat (length l)) 0); [lia|].
      rewrite (u64_small (_ * _)), u64_small by (unfold is_u64; nia). replace (_ + (100 - 1)) with (Z.of_nat (length l) * p + 99) by lia. done. }
    clearbody r rank. subst r. split.
    + etrans; [exact Hhi|]. apply Nat2Z.inj_le, filter_length_mono. eapply Forall_impl; [exact Hm|]. intros e He Hs.
      pose proof (upper_bracket e He). destruct (bucketIndex_spec e He) as [? _]. unfold slot in Hs.
      pose proof (upper_mono (bucketIndex e) (Z.of_nat i)). lia.
    + eapply Z.le_lt_trans; [|exact Hlo]. apply Nat2Z.inj_le, filter_length_mono. eapply Forall_impl; [exact Hm|].
      intros e He Hs. pose proof (upper_bracket e He). destruct (bucketIndex_spec e He) as [? _]. unfold slot.
      destruct (decide (Z.of_nat i <= bucketIndex e)); [|lia]. pose proof (upper_mono (Z.of_nat i) (bucketIndex e)). lia.
Qed.

(** ** Totals *)

(** What a worker has recorded for the latencies of its successful calls. *)
Record worker_of (samples : list Z) (w : workerStats) : Prop := {
  wo_succeeded : succeeded w = Z.of_nat (length samples);
  wo_latencies : latencies w = histOf samples;
  wo_measurable : Forall measurable samples;
  wo_keyLimit : 0 <= keyLimit w <= failed w;
  wo_expired : 0 <= expired w <= succeeded w
}.

(** The successful calls of the workers of client [c], which are those whose
    position divided by the number of leases is [c]. *)
Definition clientCalls (leases c : nat) (ss : list (list Z)) : nat :=
  sum_list (imap (fun j s => if decide (j / leases = c)%nat then length s else 0%nat) ss).

Lemma clientCalls_snoc leases c ss s :
  clientCalls leases c (ss ++ [s]) =
    (clientCalls leases c ss + if decide (length ss / leases = c)%nat then length s else 0)%nat.
Proof.
  unfold clientCalls. rewrite imap_app, sum_list_with_app. simpl. by rewrite !Nat.add_0_r.
Qed.

Lemma clientCalls_le leases c ss : (clientCalls leases c ss <= length (concat ss))%nat.
Proof.
  induction ss as [|s ss IH] using rev_ind; [done|]. rewrite clientCalls_snoc, concat_app, length_app. simpl.
  rewrite app_nil_r. case_decide; lia.
Qed.

Lemma sumZ_insert l i x y : l !! i = Some x -> sumZ (<[i := y]> l) = sumZ l - x + y.
Proof. revert i. induction l as [|z l IH]; intros [|i] Hi; simplify_eq/=; [lia|]. rewrite (IH i Hi). lia. Qed.

Lemma sumZ_replicate n : sumZ (replicate n 0) = 0.
Proof. induction n; simpl; lia. Qed.

Lemma imap_snoc {A B} (f : nat -> A -> B) l x : imap f (l ++ [x]) = imap f l ++ [f (length l) x].
Proof. rewrite imap_app. simpl. by rewrite Nat.add_0_r. Qed.

Record totals_ok (leases clients : nat) (ws : list (list Z * workerStats)) (st : workerStats * list Z) : Prop := {
  to_worker : worker_of (concat ws.*1) st.1;
  to_clients : length st.2 = clients;
  to_sum : sumZ st.2 = Z.of_nat (length (concat ws.*1));
  to_client : forall c, (c < clients)%nat -> st.2 !! c = Some (Z.of_nat (clientCalls leases c ws.*1))
}.

Lemma summarize_fold leases clients ws :
  (0 < leases)%nat -> (length ws <= clients * leases)%nat ->
  Forall (fun w => worker_of w.1 w.2) ws ->
  Z.of_nat (length (concat ws.*1)) < 2 ^ 64 -> sumZ (failed <$> ws.*2) < 2 ^ 64 ->
  exists st, foldl (summarizeWorker (Z.of_nat leases)) (Some (newStats, replicate clients 0)) (imap pair ws.*2) = Some st /\
    totals_ok leases clients ws st /\ failed st.1 = sumZ (failed <$> ws.*2).
Proof.
  intros Hl. induction ws as [|[s w] ws IH] using rev_ind; intros Hn Hw Hlen Hf.
  { eexists. split; [reflexivity|]. split; [|done]. split; simpl; [|by rewrite length_replicate|apply sumZ_replicate|].
    - split; simpl; try done.
    - intros c Hc. by rewrite lookup_replicate_2. }
  apply Forall_app in Hw as [Hws Hw]. rewrite Forall_singleton in Hw. simpl in Hw.
  assert (E1 : (ws ++ [(s, w)]).*1 = ws.*1 ++ [s]) by by rewrite fmap_app.
  assert (E2 : (ws ++ [(s, w)]).*2 = ws.*2 ++ [w]) by by rewrite fmap_app.
  assert (E3 : concat (ws ++ [(s, w)]).*1 = concat ws.*1 ++ s) by (rewrite E1, concat_app; simpl; by rewrite app_nil_r).
  rewrite E3, length_app in Hlen. rewrite length_app in Hn. simpl in Hn. rewrite E2, fmap_app, sumZ_app in *. simpl in Hf.
  destruct Hw as [Hs Hh Hm Hk He].
  destruct IH as ([total counts] & Hfold & [[Hts Hth Htm Htk Hte] Hcl Hsum Hcc] & Hfail); [lia|done|lia|lia|].
  simpl in *. rewrite imap_snoc, foldl_app, Hfold, length_fmap. simpl.
  set (c := (length ws / leases)%nat).
  assert (Hc : (c < clients)%nat) by (apply Nat.Div0.div_lt_upper_bound; lia).
  assert (Hquot : Z.to_nat (Z.quot (Z.of_nat (length ws)) (Z.of_nat leases)) = c).
  { rewrite Z.quot_div_nonneg, <- Nat2Z.inj_div, Nat2Z.id by lia. done. }
  unfold summarizeWorker. simpl. rewrite decide_False, Hquot, (Hcc c Hc) by lia. simpl.
  pose proof (clientCalls_le leases c ws.*1).
  eexists. split; [reflexivity|]. split; [split; simpl; rewrite ?E3|simpl; rewrite u64_small by in_range; lia].
  - split; simpl.
    + rewrite length_app, u64_small by in_range. lia.
    + by rewrite Hth, Hh, merge_histOf by (rewrite length_app; lia).
    + by apply Forall_app.
    + rewrite !u64_small by in_range. lia.
    + rewrite !u64_small by in_range. lia.
  - by rewrite length_insert.
  - rewrite (sumZ_insert _ _ _ _ (Hcc c Hc)), length_app, u64_small by in_range. lia.
  - intros c' Hc'. rewrite E1, clientCalls_snoc, length_fmap. fold c. destruct (decide (c = c')) as [<-|Hne].
    + rewrite list_lookup_insert_eq by lia. rewrite u64_small by in_range. f_equal. lia.
    + rewrite list_lookup_insert_ne, (Hcc c' Hc') by done. f_equal. lia.
Qed.
