(* ===== verification/LoadWork.v ===== *)
(** * Workers of the load generator (src/cmd/redlease-load/runner.go)

    [measure] runs one worker per lease: each acquires a fresh key, holds the
    lease for the configured time and releases it, until the measurement ends. *)

From stdpp Require Import base list numbers strings.
From S2P Require Import Prelude Float64 Backoff Metrics LoadStats LoadStatsSafety.

#[local] Open Scope Z_scope.

(** ** [work] *)

(** The result of [instance.Acquire]: a lease, with what [RemainingTTLms] will say
    when it is looked at, or an error, which may be [ErrKeyLimitReached]. *)
Inductive acquireOutcome :=
  | gotLease (remaining : Z)
  | acquireError (isKeyLimit : bool).

(** What one iteration meets: the outcome and its latency, whether the context is
    done after it, the random number of the back-off, and what [backoff.Wait]
    returns. *)
Record attempt := mkAttempt {
  at_outcome : acquireOutcome;
  at_elapsed : Z;
  at_cancelled : bool;
  at_random : float64;
  at_unspecified : Z;
  at_waited : bool
}.

(** [wk_tried], [wk_acquired], [wk_released] and [wk_waits] are history variables:
    the keys of the calls, of the leases and of the releases, and the delays. *)
Record workState := mkWork {
  wk_key : Z;
  wk_failures : Z;
  wk_stats : workerStats;
  wk_tried : list Z;
  wk_acquired : list Z;
  wk_released : list Z;
  wk_waits : list Z
}.

Definition countFailure (s : workerStats) (isKeyLimit : bool) : workerStats :=
  mkStats (succeeded s) (u64 (failed s + 1)) (if isKeyLimit then u64 (keyLimit s + 1) else keyLimit s)
    (expired s) (totalLatency s) (latencies s).

Definition countSuccess (s : workerStats) (elapsed : Z) : workerStats :=
  mkStats (u64 (succeeded s + 1)) (failed s) (keyLimit s) (expired s) (i64 (totalLatency s + elapsed))
    (observe (latencies s) elapsed).

Definition countExpired (s : workerStats) : workerStats :=
  mkStats (succeeded s) (failed s) (keyLimit s) (u64 (expired s + 1)) (totalLatency s) (latencies s).

(** One iteration of [work]; the second component is whether the loop goes on. *)
Definition workIteration (keyStep hold : Z) (st : workState) (a : attempt) : workState * bool :=
  let key := u64 (wk_key st + keyStep) in
  let tried := wk_tried st ++ [key] in
  if at_cancelled a then
    match at_outcome a with
    | gotLease _ =>
        (mkWork key (wk_failures st) (wk_stats st) tried (wk_acquired st ++ [key]) (wk_released st ++ [key]) (wk_waits st), false)
    | acquireError _ => (mkWork key (wk_failures st) (wk_stats st) tried (wk_acquired st) (wk_released st) (wk_waits st), false)
    end
  else
    match at_outcome a with
    | acquireError isKeyLimit =>
        let stats := countFailure (wk_stats st) isKeyLimit in
        let waits := wk_waits st ++ [Duration Default (at_random a) (at_unspecified a) (Z.to_nat (wk_failures st))] in
        let failures := if at_waited a then u64 (wk_failures st + 1) else wk_failures st in
        (mkWork key failures stats tried (wk_acquired st) (wk_released st) waits, at_waited a)
    | gotLease remaining =>
        let stats := countSuccess (wk_stats st) (at_elapsed a) in
        let held := at_waited a in
        let stats := if held && (remaining =? 0) then countExpired stats else stats in
        (mkWork key 0 stats tried (wk_acquired st ++ [key]) (wk_released st ++ [key]) (wk_waits st ++ [hold]), held)
    end.

(** [work]: the list ends when the context is done at the head of the loop. *)
Fixpoint work (keyStep hold : Z) (st : workState) (attempts : list attempt) : workState :=
  match attempts with
  | [] => st
  | a :: attempts =>
      let '(st, continue) := workIteration keyStep hold st a in
      if continue then work keyStep hold st attempts else st
  end.

Definition startWork (key : Z) : workState := mkWork key 0 newStats [] [] [] [].

(** ** [measure] *)

(** The workers of [measure], one per position; the position's key is the seed
    plus its number, and the step the number of workers. *)
Definition runWorkers (hold keySeed : Z) (attempts : list (list attempt)) : list workState :=
  imap (fun position => work (u64 (Z.of_nat (length attempts))) hold (startWork (u64 (keySeed + Z.of_nat position)))) attempts.

Definition measure (clients leaseCount : Z) (hold keySeed elapsed mallocs : Z) (attempts : list (list attempt))
    : option caseResult :=
  r ← summarize (wk_stats <$> runWorkers hold keySeed attempts) clients leaseCount elapsed;
  Some (mkResult (rElapsed r) (rTotals r) (perClient r) mallocs).

(** ** Invariants of a worker *)

(** The latencies of the successful calls of a run. *)
Fixpoint successes (attempts : list attempt) : list Z :=
  match attempts with
  | [] => []
  | a :: attempts =>
      if at_cancelled a then []
      else match at_outcome a with
           | gotLease _ => at_elapsed a :: if at_waited a then successes attempts else []
           | acquireError _ => if at_waited a then successes attempts else []
           end
  end.

Definition attempt_ok (a : attempt) : Prop := measurable (at_elapsed a).

Record work_inv (key0 keyStep : Z) (samples : list Z) (st : workState) : Prop := {
  wi_worker : worker_of samples (wk_stats st);
  wi_failed : failed (wk_stats st) <= Z.of_nat (length (wk_tried st));
  wi_samples : (length samples <= length (wk_tried st))%nat;
  wi_released : wk_released st = wk_acquired st;
  wi_key : wk_key st = u64 (key0 + Z.of_nat (length (wk_tried st)) * keyStep);
  wi_tried : wk_tried st = (fun i : nat => u64 (key0 + Z.of_nat (S i) * keyStep)) <$> seq 0 (length (wk_tried st));
  wi_acquired : wk_acquired st `sublist_of` wk_tried st
}.

Lemma startWork_inv key0 keyStep : is_u64 key0 -> work_inv key0 keyStep [] (startWork key0).
Proof.
  intros Hk. split; simpl; try done; by rewrite Z.add_0_r, u64_small.
Qed.

(** What an iteration adds to the successes. *)
Definition success (a : attempt) : list Z :=
  match at_outcome a with
  | gotLease _ => if at_cancelled a then [] else [at_elapsed a]
  | acquireError _ => []
  end.

Lemma tried_snoc key0 keyStep n :
  ((fun i : nat => u64 (key0 + Z.of_nat (S i) * keyStep)) <$> seq 0 n) ++ [u64 (u64 (key0 + Z.of_nat n * keyStep) + keyStep)] =
  (fun i : nat => u64 (key0 + Z.of_nat (S i) * keyStep)) <$> seq 0 (S n).
Proof.
  rewrite seq_S, fmap_app. simpl. do 2 f_equal. unfold u64. rewrite Zplus_mod_idemp_l. f_equal. lia.
Qed.

Lemma countFailure_worker samples w limit :
  worker_of samples w -> failed w + 1 < 2 ^ 64 -> worker_of samples (countFailure w limit).
Proof.
  intros [H1 H2 H3 H4 H5] Hf. split; simpl; try done. rewrite u64_small by in_range.
  destruct limit; rewrite ?u64_small by in_range; lia.
Qed.

Lemma countSuccess_worker samples w e :
  worker_of samples w -> measurable e -> Z.of_nat (length samples) + 1 < 2 ^ 64 ->
  worker_of (samples ++ [e]) (countSuccess w e) /\ expired (countSuccess w e) < succeeded (countSuccess w e).
Proof.
  intros [H1 H2 H3 H4 H5] He Hl. simpl. rewrite u64_small by in_range. split; [|lia]. split; simpl; try done.
  - rewrite length_app, u64_small by in_range. simpl. lia.
  - rewrite H2. apply observe_histOf; [done|]. rewrite length_app. simpl. lia.
  - apply Forall_app. by rewrite Forall_singleton.
  - rewrite u64_small by in_range. lia.
Qed.

Lemma countExpired_worker samples w :
  worker_of samples w -> expired w < succeeded w -> succeeded w < 2 ^ 64 -> worker_of samples (countExpired w).
Proof. intros [H1 H2 H3 H4 H5] He Hs. split; simpl; try done. rewrite u64_small by in_range. lia. Qed.

Lemma workIteration_inv key0 keyStep hold samples st a :
  work_inv key0 keyStep samples st -> attempt_ok a -> Z.of_nat (length (wk_tried st)) + 1 < 2 ^ 64 ->
  work_inv key0 keyStep (samples ++ success a) (workIteration keyStep hold st a).1 /\
  length (wk_tried (workIteration keyStep hold st a).1) = S (length (wk_tried st)).
Proof.
  intros [Hw Hf Hs Hr Hk Ht Ha] He Hl. pose proof (wo_succeeded _ _ Hw). pose proof (wo_keyLimit _ _ Hw).
  set (key := u64 (wk_key st + keyStep)).
  assert (Hlen : length (wk_tried st ++ [key]) = S (length (wk_tried st))) by (rewrite length_app; simpl; lia).
  assert (Hkey : key = u64 (key0 + Z.of_nat (S (length (wk_tried st))) * keyStep)).
  { subst key. rewrite Hk. unfold u64. rewrite Zplus_mod_idemp_l. f_equal. lia. }
  assert (Htried : wk_tried st ++ [key] =
    (fun i : nat => u64 (key0 + Z.of_nat (S i) * keyStep)) <$> seq 0 (S (length (wk_tried st)))).
  { rewrite <- tried_snoc, <- Ht, <- Hk. done. }
  unfold workIteration, success. fold key. destruct (at_outcome a) as [remaining|limit] eqn:Ho.
  - destruct (at_cancelled a) eqn:Hc; simpl.
    + rewrite app_nil_r. split; [|done]. split; simpl; try done; rewrite ?Hlen; try (done || lia); [by rewrite Hr|].
      by apply sublist_app.
    + destruct (countSuccess_worker samples (wk_stats st) (at_elapsed a)) as [Hw' He']; [done|done|lia|].
      split; [|done]. split; simpl; rewrite ?Hlen; try (done || lia).
      * destruct (at_waited a && _); [|done]. apply countExpired_worker; try done.
        rewrite (wo_succeeded _ _ Hw'), length_app. simpl. lia.
      * destruct (at_waited a && _); simpl; lia.
      * rewrite length_app. simpl. lia.
      * by rewrite Hr.
      * by apply sublist_app.
  - destruct (at_cancelled a) eqn:Hc; simpl; rewrite app_nil_r; (split; [|done]);
      split; simpl; rewrite ?Hlen; try (done || lia); try by apply sublist_inserts_r.
    + apply countFailure_worker; [done|lia].
    + rewrite u64_small by in_range. lia.
Qed.

Lemma successes_cons keyStep hold st a attempts :
  successes (a :: attempts) =
    success a ++ (if (workIteration keyStep hold st a).2 then successes attempts else []).
Proof.
  unfold workIteration, success. simpl. by destruct (at_cancelled a), (at_outcome a), (at_waited a).
Qed.

Lemma work_ok key0 keyStep hold attempts : forall samples st,
  work_inv key0 keyStep samples st -> Forall attempt_ok attempts ->
  Z.of_nat (length (wk_tried st) + length attempts) < 2 ^ 64 ->
  work_inv key0 keyStep (samples ++ successes attempts) (work keyStep hold st attempts) /\
  (length (wk_tried (work keyStep hold st attempts)) <= length (wk_tried st) + length attempts)%nat.
Proof.
  induction attempts as [|a attempts IH]; intros samples st Hi Hok Hl.
  { simpl. rewrite app_nil_r. split; [done|lia]. }
  simpl length in *. inversion_clear Hok as [|? ? Ha Hok'].
  destruct (workIteration_inv key0 keyStep hold samples st a) as [Hi' Hl']; [done|done|lia|].
  rewrite (successes_cons keyStep hold st). simpl work. destruct (workIteration keyStep hold st a) as [st' continue].
  simpl in *. destruct continue; [|rewrite app_nil_r; split; [done|lia]].
  rewrite app_assoc. destruct (IH (samples ++ success a) st') as [H1 H2]; [done|done|lia|]. split; [done|lia].
Qed.

(** ** Keys *)

Lemma NoDup_concat {A} (ls : list (list A)) :
  (forall i l, ls !! i = Some l -> NoDup l) ->
  (forall i j l l' x, ls !! i = Some l -> ls !! j = Some l' -> x ∈ l -> x ∈ l' -> i = j) -> NoDup (concat ls).
Proof.
  induction ls as [|l ls IH]; intros Hn Hd; simpl; [constructor|]. apply NoDup_app. split_and!.
  - by apply (Hn 0%nat).
  - intros x Hx Hx'. apply list_elem_of_In, in_concat in Hx' as (l' & Hl' & Hin).
    apply list_elem_of_In in Hl', Hin. apply list_elem_of_lookup in Hl' as [j Hj].
    by discriminate (Hd 0%nat (S j) l l' x eq_refl Hj Hx Hin).
  - apply IH; [intros i; apply (Hn (S i))|]. intros i j l1 l2 x H1 H2 Hx1 Hx2.
    specialize (Hd (S i) (S j) l1 l2 x H1 H2 Hx1 Hx2). lia.
Qed.

Lemma u64_shift_inj seed x y : 0 <= x < 2 ^ 64 -> 0 <= y < 2 ^ 64 -> u64 (seed + x) = u64 (seed + y) -> x = y.
Proof.
  unfold u64. intros Hx Hy He. apply (f_equal (fun z => (z - seed) mod 2 ^ 64)) in He.
  rewrite !Zminus_mod_idemp_l in He. replace (seed + x - seed) with x in He by lia.
  replace (seed + y - seed) with y in He by lia. rewrite !Z.mod_small in He; lia.
Qed.

(** The state a worker ends in. *)
Lemma runWorkers_inv hold keySeed attempts i st :
  Forall (Forall attempt_ok) attempts -> Forall (fun l => Z.of_nat (length l) < 2 ^ 64) attempts ->
  runWorkers hold keySeed attempts !! i = Some st ->
  exists l, attempts !! i = Some l /\
    work_inv (u64 (keySeed + Z.of_nat i)) (u64 (Z.of_nat (length attempts))) (successes l) st /\
    (length (wk_tried st) <= length l)%nat.
Proof.
  intros Hok Hlen Hst. unfold runWorkers in Hst. rewrite list_lookup_imap in Hst.
  destruct (attempts !! i) as [l|] eqn:Hl; [|done]. injection Hst as <-. exists l. split; [done|].
  rewrite Forall_lookup in Hok, Hlen.
  destruct (work_ok (u64 (keySeed + Z.of_nat i)) (u64 (Z.of_nat (length attempts))) hold l []
    (startWork (u64 (keySeed + Z.of_nat i)))) as [H1 H2]; [|by eapply Hok|by eapply Hlen|done].
  apply startWork_inv, u64_range.
Qed.

(** The workers of a measurement never contend with each other. Whatever each
    of their calls returns, no two calls of the measurement use the same key, as
    long as the calls of a worker times the number of workers stay below [2^64],
    and every worker releases each lease it acquired exactly once and in order,
    also the one that arrives after the measurement was stopped. *)
Theorem load_keys_distinct hold keySeed attempts :
  Forall (Forall attempt_ok) attempts ->
  Forall (fun l => (Z.of_nat (length l) + 1) * Z.of_nat (length attempts) < 2 ^ 64) attempts ->
  NoDup (concat (wk_tried <$> runWorkers hold keySeed attempts)) /\
  Forall (fun st => wk_released st = wk_acquired st /\ wk_acquired st `sublist_of` wk_tried st)
    (runWorkers hold keySeed attempts).
Proof.
  intros Hok Hlen. set (W := Z.of_nat (length attempts)) in *.
  assert (Hpos : forall i l, attempts !! i = Some l -> 0 <= Z.of_nat i < W /\ Z.of_nat (length l) < 2 ^ 64 /\
    (Z.of_nat (length l) + 1) * W < 2 ^ 64).
  { intros i l Hl. pose proof (lookup_lt_Some _ _ _ Hl). rewrite Forall_lookup in Hlen.
    specialize (Hlen i l Hl). simpl in Hlen. split_and!; try done; try lia; nia. }
  assert (Hlen' : Forall (fun l => Z.of_nat (length l) < 2 ^ 64) attempts)
    by (apply Forall_lookup; intros i l Hl; by apply (Hpos i l)).
  assert (Hkeys : forall i l, (wk_tried <$> runWorkers hold keySeed attempts) !! i = Some l ->
    exists n, 0 <= Z.of_nat i < W /\ (Z.of_nat n + 1) * W < 2 ^ 64 /\
      l = (fun j : nat => u64 (keySeed + (Z.of_nat i + Z.of_nat (S j) * W))) <$> seq 0 n).
  { intros i l (st & -> & Hst)%list_lookup_fmap_Some.
    destruct (runWorkers_inv hold keySeed attempts i st Hok Hlen' Hst) as (a & Ha & Hi & Hle).
    destruct (Hpos i a Ha) as (Hp1 & Hp2 & Hp3). exists (length (wk_tried st)). split_and!; try done; try lia; [nia|].
    rewrite (wi_tried _ _ _ _ Hi) at 1. apply list_fmap_ext. intros k j _.
    assert (HW : u64 (Z.of_nat (length attempts)) = W) by (apply u64_small; unfold is_u64; nia).
    rewrite HW. unfold u64. rewrite Zplus_mod_idemp_l. f_equal. lia. }
  split.
  - apply NoDup_concat.
    + intros i l Hl. destruct (Hkeys i l Hl) as (n & Hi & Hn & ->). apply NoDup_fmap_2_strong; [|apply NoDup_seq].
      intros x y Hx%elem_of_seq Hy%elem_of_seq He. apply u64_shift_inj in He; nia.
    + intros i j l l' x Hl Hl' Hx Hx'. destruct (Hkeys i l Hl) as (n & Hi & Hn & ->).
      destruct (Hkeys j l' Hl') as (n' & Hj & Hn' & ->).
      apply list_elem_of_fmap in Hx as (a & -> & Ha%elem_of_seq). apply list_elem_of_fmap in Hx' as (b & He & Hb%elem_of_seq).
      apply u64_shift_inj in He; [|nia..].
      destruct (Nat.lt_total a b) as [Hab|[->|Hab]]; [nia|lia|nia].
  - apply Forall_lookup. intros i st Hst.
    destruct (runWorkers_inv hold keySeed attempts i st Hok Hlen' Hst) as (a & _ & Hi & _).
    split; [apply (wi_released _ _ _ _ Hi)|apply (wi_acquired _ _ _ _ Hi)].
Qed.

Lemma runWorkers_pairs hold keySeed attempts :
  Forall (Forall attempt_ok) attempts -> Forall (fun l => Z.of_nat (length l) < 2 ^ 64) attempts ->
  exists ws : list (list Z * workerStats), ws.*1 = successes <$> attempts /\
    ws.*2 = wk_stats <$> runWorkers hold keySeed attempts /\
    Forall (fun w => worker_of w.1 w.2) ws /\
    0 <= sumZ (failed <$> ws.*2) <= Z.of_nat (length (concat attempts)) /\
    (length (concat ws.*1) <= length (concat attempts))%nat.
Proof.
  intros Hok Hlen.
  pose proof (fun i st => runWorkers_inv hold keySeed attempts i st Hok Hlen) as Hinv.
  assert (Hl : length (runWorkers hold keySeed attempts) = length attempts) by apply length_imap.
  assert (Hall : Forall2 (fun l st => worker_of (successes l) (wk_stats st) /\
    failed (wk_stats st) <= Z.of_nat (length l) /\ (length (successes l) <= length l)%nat) attempts (runWorkers hold keySeed attempts)).
  { apply Forall2_same_length_lookup_2; [done|]. intros i l st Hi Hst.
    destruct (Hinv i st Hst) as (l' & Hl' & Hw & Hle). replace l' with l in * by congruence.
    pose proof (wi_failed _ _ _ _ Hw). pose proof (wi_samples _ _ _ _ Hw). split; [apply (wi_worker _ _ _ _ Hw)|lia]. }
  clear Hok Hlen Hinv Hl. induction Hall as [|l st ls sts (Hw & Hf & Hs) Hall (ws & H1 & H2 & H3 & H4 & H5)].
  - exists []. by split_and!.
  - exists ((successes l, wk_stats st) :: ws). pose proof (wo_keyLimit _ _ Hw). rewrite !fmap_cons, H1, H2 in *.
    simpl. rewrite !length_app. split_and!; try done; try lia. by constructor.
Qed.


(** Two workers of one client: a lease that is held, and one refusal. *)
Definition demoAttempts : list (list attempt) :=
  [[mkAttempt (gotLease 5) 3000000 false (floatOfZ 0) 0 true];
   [mkAttempt (acquireError true) 1000 false (floatOfZ 0) 0 false]].

Lemma demoAttempts_ok : Forall (Forall attempt_ok) demoAttempts.
Proof. repeat constructor; vm_compute; reflexivity. Qed.

Lemma load_keys_distinct_witness :
  NoDup (concat (wk_tried <$> runWorkers 0 7 demoAttempts)) /\
  concat (wk_tried <$> runWorkers 0 7 demoAttempts) = [9; 10].
Proof.
  split; [|vm_compute; reflexivity]. apply (load_keys_distinct 0 7 demoAttempts demoAttempts_ok).
  repeat constructor; vm_compute; reflexivity.
Defined.

