(* ===== verification/Client.v ===== *)
(** * The quorum client: leases (src/client/acquire.go, renew.go, release.go,
    lease.go, healing.go, client.go, config.go)

    A public operation submits one request per replica and then consumes the
    events that [replicaResponses.next] returns. Here an operation is a function
    of those events and of the clock readings it takes on the way; [None] means
    that it still waits for an event. Requests appear in the list an operation
    returns, in the order they are submitted. *)

From S2P Require Import Prelude Protocol Quorum Codec.
From stdpp Require Import base gmap list numbers tactics.

#[local] Open Scope Z_scope.

(** ** Configuration *)

Record Config := mkConfig {
  ClientID : Z;
  cfgQuorum : Z;
  Targets : list bool;             (* for each server: its target is not empty *)
  hasLogger : bool;
  ResponseTimeout : Z
}.

Inductive configError :=
  | errLoggerNil
  | errUnsupportedQuorum
  | errServerCount
  | errEmptyTarget (index : nat).

Fixpoint firstEmptyTarget (index : nat) (targets : list bool) : option nat :=
  match targets with
  | [] => None
  | nonEmpty :: targets => if nonEmpty : bool then firstEmptyTarget (S index) targets else Some index
  end.

Definition Validate (c : Config) : option configError :=
  if negb (hasLogger c) then Some errLoggerNil
  else if negb (quorumValid (cfgQuorum c)) then Some errUnsupportedQuorum
  else if decide (length (Targets c) <> quorumServers (cfgQuorum c)) then Some errServerCount
  else match firstEmptyTarget 0 (Targets c) with
       | Some index => Some (errEmptyTarget index)
       | None => None
       end.

Definition defaultResponseTimeout : Z := Second.

Record Client := mkClient {
  clientID : Z;
  bootID : Z;
  nextSequence : Z;
  nextRequestID : Z;
  quorum : Z;
  responseTimeout : Z
}.

(** [bootID] is the random boot identifier drawn by [bootid.NewBootID]. *)
Definition New (bootID : Z) (config : Config) : configError + Client :=
  match Validate config with
  | Some e => inl e
  | None =>
      inr (mkClient (ClientID config) bootID 0 0 (cfgQuorum config)
             (if decide (ResponseTimeout config = 0) then defaultResponseTimeout
              else durationMS (ResponseTimeout config)))
  end.

Definition serverCount (c : Client) : nat := quorumServers (quorum c).

(** [WaitReady] returns once enough replicas are connected. *)
Definition readyQuorum (c : Client) (ready : list bool) : bool :=
  (quorumSize (quorum c) <=? length (filter (fun b => b = true) ready))%nat.

(** ** Errors *)

(** The causes an operation can report. *)
Inductive opError :=
  | errCaller                      (* the caller's context is done *)
  | errClientClosed
  | errSendQueueFull
  | errReplicaUnavailable
  | errDeadlineExceeded            (* no response in time *)
  | errCanceled
  | errWrongOperation              (* a response to some other operation *)
  | errLeaseReleased.

(** [notAcquiredError]: its cause and whether [ErrKeyLimitReached] is joined. *)
Record notAcquiredError := mkNotAcquired { naCause : option opError; naKeyLimit : bool }.

(** [notRenewedError] *)
Record notRenewedError := mkNotRenewed { nrCause : option opError }.

Definition orFirst (first : option opError) (e : opError) : option opError :=
  match first with Some f => Some f | None => Some e end.

(** ** Requests *)

Definition nextID (c : Client) : Client * Z :=
  let id := u64 (nextRequestID c + 1) in
  (mkClient (clientID c) (bootID c) (nextSequence c) id (quorum c) (responseTimeout c), id).

Definition newAcquireRequest (c : Client) (key sequence ttlMS : Z)
    : Client * outboundConnectionRequest :=
  let '(c, id) := nextID c in
  (c, mkOutbound id key sequence ttlMS (clientID c) (bootID c) ClientOperationACQUIRE).

Definition newRenewRequest (c : Client) (key sequence ttlMS : Z)
    : Client * outboundConnectionRequest :=
  let '(c, id) := nextID c in
  (c, mkOutbound id key sequence ttlMS (clientID c) (bootID c) ClientOperationRENEW).

Definition newReleaseRequest (c : Client) (key sequence : Z) : Client * outboundConnectionRequest :=
  let '(c, id) := nextID c in
  (c, mkOutbound id key sequence 0 (clientID c) (bootID c) ClientOperationRELEASE).

(** A request and the replica it is addressed to. *)
Notation sent := (list (nat * outboundConnectionRequest)).

(** [releaseAll]: one best-effort Release to every replica. *)
Fixpoint releaseLoop (c : Client) (key sequence : Z) (replicas : list nat) : Client * sent :=
  match replicas with
  | [] => (c, [])
  | replica :: replicas =>
      let '(c, request) := newReleaseRequest c key sequence in
      let '(c, rest) := releaseLoop c key sequence replicas in
      (c, (replica, request) :: rest)
  end.

Definition releaseAll (c : Client) (key sequence : Z) : Client * sent :=
  releaseLoop c key sequence (seq 0 (serverCount c)).

(** ** Leases *)

Inductive leaseLifecycle := leaseActive | leaseReleased.

#[export] Instance leaseLifecycle_eq_dec : EqDecision leaseLifecycle.
Proof. solve_decision. Defined.

Record Lease := mkLease {
  sequence : Z;
  lkey : Z;
  requestedTTLMS : Z;
  lnow : Z;
  lifecycle : leaseLifecycle;
  validUntil : Z;
  confirmedUntil : list Z;         (* an array of [maxServerCount] instants *)
  healing : bool;
  releaseDone : bool               (* [close(releaseDone)] has happened *)
}.

Definition newLease (sequence key requestedTTLMS now : Z) : Lease :=
  mkLease sequence key requestedTTLMS now leaseActive zeroTime
    (replicate maxServerCount zeroTime) false false.

Definition setValidUntil (l : Lease) (t : Z) : Lease :=
  mkLease (sequence l) (lkey l) (requestedTTLMS l) (lnow l) (lifecycle l) t (confirmedUntil l)
    (healing l) (releaseDone l).

Definition setConfirmed (l : Lease) (replica : nat) (t : Z) : Lease :=
  mkLease (sequence l) (lkey l) (requestedTTLMS l) (lnow l) (lifecycle l) (validUntil l)
    (<[replica := t]> (confirmedUntil l)) (healing l) (releaseDone l).

Definition setHealing (l : Lease) (h : bool) : Lease :=
  mkLease (sequence l) (lkey l) (requestedTTLMS l) (lnow l) (lifecycle l) (validUntil l)
    (confirmedUntil l) h (releaseDone l).

Definition setNow (l : Lease) (now : Z) : Lease :=
  mkLease (sequence l) (lkey l) (requestedTTLMS l) now (lifecycle l) (validUntil l)
    (confirmedUntil l) (healing l) (releaseDone l).

Definition confirmedAt (l : Lease) (replica : nat) : Z :=
  default zeroTime (confirmedUntil l !! replica).

Definition RemainingTTLms (l : Lease) (now : Z) : Z :=
  if decide (lifecycle l <> leaseActive) then 0
  else
    let remaining := Milliseconds (timeSub (validUntil l) now) in
    if decide (remaining <= 0) then 0 else u64 remaining.

Definition markConfirmed (l : Lease) (replica : nat) (until now : Z) : Lease :=
  if decide (lifecycle l = leaseActive) then
    if timeBefore now until && timeAfter until (confirmedAt l replica)
    then setConfirmed l replica until else l
  else l.

Definition clearConfirmed (l : Lease) (replica : nat) : Lease :=
  if decide (lifecycle l = leaseActive) then setConfirmed l replica zeroTime else l.

(** ** When background healing runs *)

Definition backgroundHealingNeeded (n : nat) (l : Lease) (now : Z) : bool :=
  bool_decide (lifecycle l = leaseActive) && timeBefore now (validUntil l) &&
  existsb (fun t => timeBefore t (validUntil l)) (take n (confirmedUntil l)).

(** The second component: a healing goroutine is started. *)
Definition startBackgroundHealing (n : nat) (l : Lease) (now : Z) : Lease * bool :=
  if healing l || negb (backgroundHealingNeeded n l now) then (l, false)
  else (setHealing l true, true).

Definition finishBackgroundHealing (n : nat) (l : Lease) (now : Z) : Lease * bool :=
  let l := setHealing l false in
  if backgroundHealingNeeded n l now then (setHealing l true, true) else (l, false).

(** The deferred calls of [Acquire] and [Renew]: an operation that leaves no
    response to a background collector starts healing itself. *)
Definition startHealingWhenDone (n : nat) (l : Lease) (remaining : nat) (now : Z) : Lease :=
  match remaining with
  | O => (startBackgroundHealing n l now).1
  | S _ => l
  end.

(** ** Events *)

(** What [replicaResponses.next] returns, with the clock readings the operation
    takes while it handles the event. [evCancel] is the cancellation check made
    when a quorum is reached. *)
Inductive event :=
  | evResponse (replica : nat) (result : opError + Response)
      (now nowMark nowLeft : Z) (evCancel : option opError)
  | evCallerCanceled
  | evLifecycleCanceled.

(** ** Submitting *)

Record submission := mkSubmission {
  sub_received : nat;              (* replicas that could not be reached *)
  sub_first : option opError;
  sub_remaining : nat              (* outstanding responses *)
}.

(** The submission loop of [Acquire]; [outcomes replica] is the error of
    [responses.submit]. *)
Fixpoint submitAcquireLoop (c : Client) (key sequence ttlMS : Z) (replicas : list nat)
    (outcomes : nat -> option opError) (st : submission) : Client * sent * submission :=
  match replicas with
  | [] => (c, [], st)
  | replica :: replicas =>
      let '(c, request) := newAcquireRequest c key sequence ttlMS in
      let st := match outcomes replica with
                | Some e => mkSubmission (S (sub_received st)) (orFirst (sub_first st) e) (sub_remaining st)
                | None => mkSubmission (sub_received st) (sub_first st) (S (sub_remaining st))
                end in
      let '(c, rest, st) := submitAcquireLoop c key sequence ttlMS replicas outcomes st in
      (c, (replica, request) :: rest, st)
  end.

(** ** Acquire *)

Record collecting := mkCollecting {
  co_lease : Lease;
  co_received : nat;
  co_candidates : list Z;
  co_successful : list bool;
  co_first : option opError;
  co_keyLimit : bool;
  co_remaining : nat
}.

Inductive stepResult :=
  | continue (st : collecting)
  | stop (st : collecting)         (* [received = serverCount] *)
  | quorumReached (st : collecting) (until : Z).

(** Handling of one response by the loop of [Acquire]. *)
Definition acquireStep (n quorumSize : nat) (operationStart : Z) (st : collecting) (ev : event)
    : stepResult :=
  match ev with
  | evCallerCanceled =>
      stop (mkCollecting (co_lease st) (co_received st) (co_candidates st) (co_successful st)
              (Some errCaller) (co_keyLimit st) (co_remaining st))
  | evLifecycleCanceled =>
      stop (mkCollecting (co_lease st) (co_received st) (co_candidates st) (co_successful st)
              (Some errClientClosed) (co_keyLimit st) (co_remaining st))
  | evResponse replica result now nowMark nowLeft evCancel =>
      let received := S (co_received st) in
      let remaining := pred (co_remaining st) in
      let next st :=
        if acquireQuorumStillPossible (take n (co_candidates st)) (take n (co_successful st))
             (n - received) nowLeft quorumSize
        then continue st else stop st in
      match result with
      | inl e =>
          next (mkCollecting (co_lease st) received (co_candidates st) (co_successful st)
                  (orFirst (co_first st) e) (co_keyLimit st) remaining)
      | inr response =>
          if decide (Operation response <> ClientOperationACQUIRE) then
            next (mkCollecting (co_lease st) received (co_candidates st) (co_successful st)
                    (orFirst (co_first st) errWrongOperation) (co_keyLimit st) remaining)
          else if isSuccessfulAcquire (Status response) then
            let candidate := candidateValidUntil operationStart (TTLMS response) in
            let candidates := <[replica := candidate]> (co_candidates st) in
            let successful := <[replica := true]> (co_successful st) in
            let lease := if timeBefore now candidate
                         then markConfirmed (co_lease st) replica candidate nowMark
                         else co_lease st in
            let st := mkCollecting lease received candidates successful (co_first st)
                        (co_keyLimit st) remaining in
            let '(until, hasQuorum) := bestAcquireQuorum (take n candidates) (take n successful)
                                         quorumSize in
            if hasQuorum && timeBefore now until then
              match evCancel with
              | Some e => stop (mkCollecting lease received candidates successful (Some e)
                                  (co_keyLimit st) remaining)
              | None => quorumReached st until
              end
            else next st
          else
            next (mkCollecting (co_lease st) received (co_candidates st) (co_successful st)
                    (co_first st)
                    (if decide (Status response = LeaseStatusKEY_LIMIT_REACHED) then true
                     else co_keyLimit st) remaining)
      end
  end.

Inductive collectResult :=
  | collected (st : collecting) (until : Z)
  | notCollected (st : collecting).

(** The collection loop [for received < serverCount] of both operations; [None]:
    the operation waits for more events. *)
Fixpoint collectLoop (n : nat) (step : collecting -> event -> stepResult) (st : collecting)
    (events : list event) : option collectResult :=
  if (co_received st <? n)%nat then
    match events with
    | [] => None
    | ev :: events =>
        match step st ev with
        | continue st => collectLoop n step st events
        | stop st => Some (notCollected st)
        | quorumReached st until => Some (collected st until)
        end
    end
  else Some (notCollected st).

Definition acquireCollect (n quorumSize : nat) (operationStart : Z) : collecting -> list event ->
    option collectResult :=
  collectLoop n (acquireStep n quorumSize operationStart).

(** What an Acquire meets on its way. *)
Record acquireRun := mkAcquireRun {
  ar_start : Z;                    (* [operationStart] *)
  ar_cancel0 : option opError;     (* the cancellation check on entry *)
  ar_outcomes : nat -> option opError;   (* per replica: the error of [submit] *)
  ar_cancel1 : option opError;     (* the check after submission *)
  ar_events : list event;
  ar_heal : Z                      (* the clock when healing is considered *)
}.

(** The outcome: the lease and how many responses the background collector still
    waits for, or the error. The lease of a failed call is dropped: it was never
    valid, so the deferred [startBackgroundHealing] does nothing. *)
Definition Acquire (c : Client) (run : acquireRun) (key ttlMS : Z)
    : option (Client * sent * (notAcquiredError + Lease * nat)) :=
  match ar_cancel0 run with
  | Some e => Some (c, [], inl (mkNotAcquired (Some e) false))
  | None =>
      let sequence := u64 (nextSequence c + 1) in
      let c := mkClient (clientID c) (bootID c) sequence (nextRequestID c) (quorum c)
                 (responseTimeout c) in
      let lease := newLease sequence key ttlMS (ar_start run) in
      let n := serverCount c in
      let '(c, requests, sub) := submitAcquireLoop c key sequence ttlMS (seq 0 n)
                                   (ar_outcomes run) (mkSubmission 0 None 0) in
      match ar_cancel1 run with
      | Some e =>
          let '(c, releases) := releaseAll c key sequence in
          Some (c, requests ++ releases, inl (mkNotAcquired (Some e) false))
      | None =>
          let st := mkCollecting lease (sub_received sub) (replicate maxServerCount zeroTime)
                      (replicate maxServerCount false) (sub_first sub) false (sub_remaining sub) in
          result ← acquireCollect n (quorumSize (quorum c)) (ar_start run) st (ar_events run);
          match result with
          | collected st until =>
              let l := setValidUntil (co_lease st) until in
              Some (c, requests,
                inr (startHealingWhenDone n l (co_remaining st) (ar_heal run), co_remaining st))
          | notCollected st =>
              let '(c, releases) := releaseAll c key sequence in
              Some (c, requests ++ releases, inl (mkNotAcquired (co_first st) (co_keyLimit st)))
          end
      end
  end.

(** The loop of [collectRemainingAcquireResults]: the responses that arrive after
    Acquire returned only confirm replicas. [evLifecycleCanceled] is
    [releaseDone]. *)
Fixpoint collectRemainingAcquire (operationStart : Z) (remaining : nat) (l : Lease)
    (events : list event) : option Lease :=
  match remaining, events with
  | O, _ => Some l
  | S _, [] => None
  | S remaining, evResponse replica result now nowMark _ _ :: events =>
      let l := match result with
               | inr response =>
                   if bool_decide (Operation response = ClientOperationACQUIRE) &&
                      isSuccessfulAcquire (Status response) then
                     let candidate := candidateValidUntil operationStart (TTLMS response) in
                     if timeBefore now candidate then markConfirmed l replica candidate nowMark else l
                   else l
               | inl _ => l
               end in
      collectRemainingAcquire operationStart remaining l events
  | S _, evCallerCanceled :: _ => Some l
  | S _, evLifecycleCanceled :: _ => Some l
  end.

Definition collectRemainingAcquireResults (n : nat) (operationStart : Z) (remaining : nat) (l : Lease)
    (events : list event) (now : Z) : option Lease :=
  l ← collectRemainingAcquire operationStart remaining l events;
  Some (startBackgroundHealing n l now).1.

(** ** Renew *)

(** The submission loop of [Renew]: an unreachable replica loses its
    confirmation. *)
Fixpoint submitRenewLoop (c : Client) (l : Lease) (ttlMS : Z) (replicas : list nat)
    (outcomes : nat -> option opError) (st : submission) : Client * sent * Lease * submission :=
  match replicas with
  | [] => (c, [], l, st)
  | replica :: replicas =>
      let '(c, request) := newRenewRequest c (lkey l) (sequence l) ttlMS in
      let '(l, st) :=
        match outcomes replica with
        | Some e => (clearConfirmed l replica,
                     mkSubmission (S (sub_received st)) (orFirst (sub_first st) e) (sub_remaining st))
        | None => (l, mkSubmission (sub_received st) (sub_first st) (S (sub_remaining st)))
        end in
      let '(c, rest, l, st) := submitRenewLoop c l ttlMS replicas outcomes st in
      (c, (replica, request) :: rest, l, st)
  end.

(** Handling of one response by the loop of [Renew]. *)
Definition renewStep (n quorumSize : nat) (operationStart : Z) (st : collecting) (ev : event)
    : stepResult :=
  match ev with
  | evCallerCanceled =>
      stop (mkCollecting (co_lease st) (co_received st) (co_candidates st) (co_successful st)
              (Some errCaller) (co_keyLimit st) (co_remaining st))
  | evLifecycleCanceled =>
      stop (mkCollecting (co_lease st) (co_received st) (co_candidates st) (co_successful st)
              (Some errLeaseReleased) (co_keyLimit st) (co_remaining st))
  | evResponse replica result now nowMark nowLeft evCancel =>
      let received := S (co_received st) in
      let remaining := pred (co_remaining st) in
      let next st :=
        if acquireQuorumStillPossible (take n (co_candidates st)) (take n (co_successful st))
             (n - received) nowLeft quorumSize
        then continue st else stop st in
      let rejected first :=
        next (mkCollecting (clearConfirmed (co_lease st) replica) received (co_candidates st)
                (co_successful st) first (co_keyLimit st) remaining) in
      match result with
      | inl e => rejected (orFirst (co_first st) e)
      | inr response =>
          if decide (Operation response <> ClientOperationRENEW) then
            rejected (orFirst (co_first st) errWrongOperation)
          else if decide (Status response <> LeaseStatusOK) then rejected (co_first st)
          else
            let candidate := candidateValidUntil operationStart (TTLMS response) in
            let candidates := <[replica := candidate]> (co_candidates st) in
            let successful := <[replica := true]> (co_successful st) in
            let lease := if timeBefore now candidate
                         then markConfirmed (co_lease st) replica candidate nowMark
                         else clearConfirmed (co_lease st) replica in
            let st := mkCollecting lease received candidates successful (co_first st)
                        (co_keyLimit st) remaining in
            let '(until, hasQuorum) := bestAcquireQuorum (take n candidates) (take n successful)
                                         quorumSize in
            if hasQuorum && timeBefore now until then
              match evCancel with
              | Some e => stop (mkCollecting lease received candidates successful (Some e)
                                  (co_keyLimit st) remaining)
              | None => quorumReached st until
              end
            else next st
      end
  end.

Definition renewCollect (n quorumSize : nat) (operationStart : Z) : collecting -> list event ->
    option collectResult :=
  collectLoop n (renewStep n quorumSize operationStart).

Record renewRun := mkRenewRun {
  rr_start : Z;
  rr_outcomes : nat -> option opError;
  rr_cancel : option opError;
  rr_events : list event;
  rr_heal : Z
}.

(** The outcome: the lease after the call, how many responses the background
    collector still waits for, and the error if there is one. *)
Definition Renew (c : Client) (l : Lease) (run : renewRun) (ttlMS : Z)
    : option (Client * sent * Lease * nat * option notRenewedError) :=
  if decide (lifecycle l <> leaseActive) then
    Some (c, [], l, 0%nat, Some (mkNotRenewed (Some errLeaseReleased)))
  else
    let l := setNow l (rr_start run) in
    let n := serverCount c in
    let '(c, requests, l, sub) := submitRenewLoop c l ttlMS (seq 0 n) (rr_outcomes run)
                                    (mkSubmission 0 None 0) in
    match rr_cancel run with
    | Some e =>
        Some (c, requests, startHealingWhenDone n l (sub_remaining sub) (rr_heal run),
              sub_remaining sub, Some (mkNotRenewed (Some e)))
    | None =>
        let st := mkCollecting l (sub_received sub) (replicate maxServerCount zeroTime)
                    (replicate maxServerCount false) (sub_first sub) false (sub_remaining sub) in
        result ← renewCollect n (quorumSize (quorum c)) (rr_start run) st (rr_events run);
        match result with
        | collected st until =>
            let l := co_lease st in
            let l := if timeAfter until (validUntil l) then setValidUntil l until else l in
            Some (c, requests, startHealingWhenDone n l (co_remaining st) (rr_heal run),
                  co_remaining st, None)
        | notCollected st =>
            Some (c, requests, startHealingWhenDone n (co_lease st) (co_remaining st) (rr_heal run),
                  co_remaining st, Some (mkNotRenewed (co_first st)))
        end
    end.

(** The loop of [collectRemainingRenewResults]. *)
Fixpoint collectRemainingRenew (operationStart : Z) (remaining : nat) (l : Lease)
    (events : list event) : option Lease :=
  match remaining, events with
  | O, _ => Some l
  | S _, [] => None
  | S remaining, evResponse replica result now nowMark _ _ :: events =>
      let l := match result with
               | inr response =>
                   if bool_decide (Operation response = ClientOperationRENEW) &&
                      bool_decide (Status response = LeaseStatusOK) then
                     let candidate := candidateValidUntil operationStart (TTLMS response) in
                     if timeBefore now candidate then markConfirmed l replica candidate nowMark
                     else clearConfirmed l replica
                   else clearConfirmed l replica
               | inl _ => clearConfirmed l replica
               end in
      collectRemainingRenew operationStart remaining l events
  | S _, evCallerCanceled :: _ => Some l
  | S _, evLifecycleCanceled :: _ => Some l
  end.

Definition collectRemainingRenewResults (n : nat) (operationStart : Z) (remaining : nat) (l : Lease)
    (events : list event) (now : Z) : option Lease :=
  l ← collectRemainingRenew operationStart remaining l events;
  Some (startBackgroundHealing n l now).1.

(** ** Release *)

(** The critical section of [Release]. *)
Definition markReleased (l : Lease) : Lease :=
  mkLease (sequence l) (lkey l) (requestedTTLMS l) (lnow l) leaseReleased zeroTime
    (replicate maxServerCount zeroTime) (healing l) (releaseDone l).

Definition closeReleaseDone (l : Lease) : Lease :=
  mkLease (sequence l) (lkey l) (requestedTTLMS l) (lnow l) (lifecycle l) (validUntil l)
    (confirmedUntil l) (healing l) true.

(** [healingBatches.Wait] between the two is in [Healing]. *)
Definition Release (c : Client) (l : Lease) : Client * Lease * sent :=
  if decide (lifecycle l <> leaseActive) then (c, l, [])
  else
    let l := markReleased l in
    let '(c, requests) := releaseAll c (lkey l) (sequence l) in
    (c, closeReleaseDone l, requests).

(** ** Background healing rounds *)

Definition healingTargets (n : nat) (l : Lease) (now : Z) : list nat * bool :=
  if backgroundHealingNeeded n l now then
    (filter (fun replica => timeBefore now (confirmedAt l replica) = false) (seq 0 n), true)
  else ([], false).

(** The request loop of [healReplicas]; a failed submission is ignored. *)
Fixpoint healSubmit (c : Client) (l : Lease) (replicas : list nat) (outcomes : nat -> option opError)
    : Client * sent * nat :=
  match replicas with
  | replica :: replicas =>
      let '(c, request) := newAcquireRequest c (lkey l) (sequence l) (requestedTTLMS l) in
      let '(c, rest, remaining) := healSubmit c l replicas outcomes in
      (c, (replica, request) :: rest,
       match outcomes replica with None => S remaining | Some _ => remaining end)
  | [] => (c, [], 0%nat)
  end.

(** The response loop of [healReplicas]. *)
Fixpoint healCollect (operationStart : Z) (remaining : nat) (l : Lease) (confirmed : nat)
    (events : list event) : option (Lease * nat) :=
  match remaining, events with
  | O, _ => Some (l, confirmed)
  | S _, [] => None
  | S remaining, evResponse replica result now nowMark _ _ :: events =>
      let '(l, confirmed) :=
        match result with
        | inr response =>
            if bool_decide (Operation response = ClientOperationACQUIRE) &&
               isSuccessfulAcquire (Status response) then
              let candidate := candidateValidUntil operationStart (TTLMS response) in
              if timeBefore now candidate then (markConfirmed l replica candidate nowMark, S confirmed)
              else (l, confirmed)
            else (l, confirmed)
        | inl _ => (l, confirmed)
        end in
      healCollect operationStart remaining l confirmed events
  | S _, evCallerCanceled :: _ => Some (l, confirmed)
  | S _, evLifecycleCanceled :: _ => Some (l, confirmed)
  end.

Definition healReplicas (c : Client) (l : Lease) (replicas : list nat) (now : Z)
    (outcomes : nat -> option opError) (events : list event) : option (Client * sent * Lease * nat) :=
  if decide (lifecycle l <> leaseActive) then Some (c, [], l, 0%nat)
  else if negb (timeBefore now (validUntil l)) then Some (c, [], l, 0%nat)
  else
    let operationStart := lnow l in
    let '(c, requests, remaining) := healSubmit c l replicas outcomes in
    '(l, confirmed) ← healCollect operationStart remaining l 0 events;
    Some (c, requests, l, confirmed).

(** [waitForHealingRetry]: [released] and [closed] are the channels [releaseDone]
    and [client.ctx.Done()], [timer] whether the timer fires first. [None]: it
    waits. *)
Definition waitForHealingRetry (delay : Z) (released closed timer : bool) : option bool :=
  if delay <=? 0 then Some (negb (released || closed))
  else if timer then Some true
  else if released || closed then Some false
  else None.

(** One round of [backgroundHeal] as it meets the world: the clock and the wait
    before it, the clock after the wait, and what [healReplicas] meets. *)
Record healRound := mkHealRound {
  hr_now : Z;
  hr_proceed : bool;               (* [waitForHealingRetry] *)
  hr_now2 : Z;
  hr_now3 : Z;
  hr_outcomes : nat -> option opError;
  hr_events : list event
}.

Inductive healStep :=
  | healStopped (c : Client) (l : Lease) (requests : sent)
  | healAgain (c : Client) (l : Lease) (requests : sent) (attempt : nat).

(** The body of the loop of [backgroundHeal]; [None]: it waits for a response. *)
Definition backgroundHealRound (c : Client) (l : Lease) (attempt : nat) (round : healRound)
    : option healStep :=
  let n := serverCount c in
  let '(_, needed) := healingTargets n l (hr_now round) in
  if negb needed then Some (healStopped c l [])
  else if negb (hr_proceed round) then Some (healStopped c l [])
  else
    let '(targets, needed) := healingTargets n l (hr_now2 round) in
    if negb needed then Some (healStopped c l [])
    else if decide (targets = []) then Some (healAgain c l [] (S attempt))
    else
      '(c, requests, l, confirmed) ←
        healReplicas c l targets (hr_now3 round) (hr_outcomes round) (hr_events round);
      Some (healAgain c l requests (if decide (confirmed = 0%nat) then S attempt else 0%nat)).

(** [backgroundHeal] over the rounds it makes, with its deferred
    [finishBackgroundHealing] at [finish]; the boolean says that another healing
    goroutine was started. [None]: it is still running. *)
Fixpoint backgroundHeal (c : Client) (l : Lease) (attempt : nat) (rounds : list healRound) (finish : Z)
    : option (Client * Lease * sent * bool) :=
  match rounds with
  | [] => None
  | round :: rounds =>
      step ← backgroundHealRound c l attempt round;
      match step with
      | healStopped c l requests =>
          let '(l, again) := finishBackgroundHealing (serverCount c) l finish in
          Some (c, l, requests, again)
      | healAgain c l requests attempt =>
          '(c, l, more, again) ← backgroundHeal c l attempt rounds finish;
          Some (c, l, requests ++ more, again)
      end
  end.
