(* ===== verification/Replica.v ===== *)
(** * The connection of the quorum client to one replica
    (src/client/replica_conn.go, connection_generation.go, replica_responses.go)

    A replica connection outlives its TCP connections: requests wait in one
    queue, and callers that expect a response are registered in sixteen pending
    maps. Each public operation owns a [replicaResponses], which remembers the
    request it waits for at each replica and a channel of [maxServerCount]
    results. The queues are the rings of [Ring], here in their abstract form of
    bounded FIFO lists. *)

From S2P Require Import Prelude Protocol Quorum Wire Codec Frame Client.
From stdpp Require Import base gmap list numbers tactics.

#[local] Open Scope Z_scope.

Definition reqQueueCapacity : nat := 4096.
Definition pendingShardCount : nat := 16.
Definition responseQueueCapacity : nat := 512.

(** ** Pending calls *)

(** What a waiting operation receives. *)
Record replicaResponse := mkReplicaResponse {
  rp_replica : nat;
  rp_requestID : Z;
  rp_result : opError + Response
}.

(** [ps_pending]: the operation (by the name of its channel) that waits for a
    request; [None] is the nil map [failPending] leaves. *)
Record pendingShard := mkPendingShard {
  ps_pending : option (gmap Z nat);
  ps_responses : list Response
}.

Definition newPendingShards : list pendingShard :=
  replicate pendingShardCount (mkPendingShard (Some ∅) []).

Definition pendingShardIndex (requestID : Z) : nat :=
  Z.to_nat (Z.land requestID (Z.of_nat pendingShardCount - 1)).

Record replicaConn := mkReplicaConn {
  rc_index : nat;
  rc_ctxDone : bool;
  rc_generation : option nat;      (* the name of the published generation *)
  rc_closed : bool;
  rc_changes : nat;                (* how often [changed] was closed *)
  rc_reqQueue : list outboundConnectionRequest;
  rc_pending : list pendingShard
}.

Definition newReplicaConn (index : nat) : replicaConn :=
  mkReplicaConn index false None false 0 [] newPendingShards.

Definition setQueue (c : replicaConn) (q : list outboundConnectionRequest) : replicaConn :=
  mkReplicaConn (rc_index c) (rc_ctxDone c) (rc_generation c) (rc_closed c) (rc_changes c) q
    (rc_pending c).

Definition setPending (c : replicaConn) (l : list pendingShard) : replicaConn :=
  mkReplicaConn (rc_index c) (rc_ctxDone c) (rc_generation c) (rc_closed c) (rc_changes c)
    (rc_reqQueue c) l.

(** [TryEnqueue] of the request queue. *)
Definition enqueueRequest (c : replicaConn) (request : outboundConnectionRequest)
    : replicaConn * bool :=
  if decide (length (rc_reqQueue c) < reqQueueCapacity)%nat
  then (setQueue c (rc_reqQueue c ++ [request]), true) else (c, false).

Definition submitNoResponse (c : replicaConn) (request : outboundConnectionRequest)
    : replicaConn * option opError :=
  if rc_ctxDone c then (c, Some errReplicaUnavailable)
  else
    match enqueueRequest c request with
    | (c, true) => (c, None)
    | (c, false) => (c, Some errSendQueueFull)
    end.

(** [None] is a panic: the shard is out of range or its map is nil. *)
Definition submitForOperation (ctxErr : option opError) (c : replicaConn)
    (request : outboundConnectionRequest) (operation : nat) : option (replicaConn * option opError) :=
  match ctxErr with
  | Some e => Some (c, Some e)
  | None =>
      let requestID := req_requestID request in
      let i := pendingShardIndex requestID in
      shard ← rc_pending c !! i;
      if rc_ctxDone c then Some (c, Some errReplicaUnavailable)
      else
        pending ← ps_pending shard;
        let registered := setPending c (<[i := mkPendingShard (Some (<[requestID := operation]> pending))
                                             (ps_responses shard)]> (rc_pending c)) in
        match enqueueRequest registered request with
        | (c, true) => Some (c, None)
        | (_, false) =>
            Some (setPending c (<[i := mkPendingShard (Some (delete requestID (<[requestID := operation]> pending)))
                                         (ps_responses shard)]> (rc_pending c)), Some errSendQueueFull)
        end
  end.

(** The critical section of [completeInShard]: the operation that waited for the
    request, if there is one, is removed. The caller then sends it the result.
    A lookup in a nil map finds nothing. *)
Definition completeInShard (c : replicaConn) (i : nat) (requestID : Z) : option (replicaConn * option nat) :=
  shard ← rc_pending c !! i;
  match ps_pending shard ≫= (.!! requestID) with
  | Some operation =>
      Some (setPending c (<[i := mkPendingShard (delete requestID <$> ps_pending shard) (ps_responses shard)]>
                            (rc_pending c)), Some operation)
  | None => Some (c, None)
  end.

Definition complete (c : replicaConn) (requestID : Z) : option (replicaConn * option nat) :=
  completeInShard c (pendingShardIndex requestID) requestID.

(** [receiveResponses] hands a response to the worker of its shard; [None]: the
    queue is full and the reader retries. *)
Definition enqueueResponse (c : replicaConn) (response : Response) : option replicaConn :=
  let i := pendingShardIndex (RequestID response) in
  shard ← rc_pending c !! i;
  if decide (length (ps_responses shard) < responseQueueCapacity)%nat then
    Some (setPending c (<[i := mkPendingShard (ps_pending shard) (ps_responses shard ++ [response])]>
                          (rc_pending c)))
  else None.

(** One response taken by [completeResponses]; the operation to notify, if any.
    The worker of shard [i] looks the request up in its own shard. *)
Definition completeResponses (c : replicaConn) (i : nat) : option (replicaConn * option (nat * Response)) :=
  shard ← rc_pending c !! i;
  match ps_responses shard return option (replicaConn * option (nat * Response)) with
  | [] => Some (c, None)
  | response :: responses =>
      let c := setPending c (<[i := mkPendingShard (ps_pending shard) responses]> (rc_pending c)) in
      '(c, operation) ← completeInShard c i (RequestID response);
      Some (c, option_map (fun o => (o, response)) operation)
  end.

(** [failPending]: every map becomes nil; the operations that are to be sent the
    error, with their request. *)
Definition shardPending (shard : pendingShard) : list (Z * nat) :=
  from_option map_to_list [] (ps_pending shard).

Definition failPending (c : replicaConn) : replicaConn * list (Z * nat) :=
  (setPending c ((fun shard => mkPendingShard None (ps_responses shard)) <$> rc_pending c),
   concat (shardPending <$> rc_pending c)).

(** ** Lifecycle *)

Definition notifyStateChangeLocked (c : replicaConn) : replicaConn :=
  mkReplicaConn (rc_index c) (rc_ctxDone c) (rc_generation c) (rc_closed c) (S (rc_changes c))
    (rc_reqQueue c) (rc_pending c).

Definition setGeneration (c : replicaConn) (g : option nat) : replicaConn :=
  mkReplicaConn (rc_index c) (rc_ctxDone c) g (rc_closed c) (rc_changes c) (rc_reqQueue c) (rc_pending c).

Definition readiness (c : replicaConn) : bool * bool * nat :=
  (bool_decide (rc_generation c <> None) && negb (rc_closed c), rc_closed c, rc_changes c).

Definition publish (c : replicaConn) (generation : nat) : replicaConn * bool :=
  if rc_closed c then (c, false)
  else (notifyStateChangeLocked (setGeneration c (Some generation)), true).

Definition clear (c : replicaConn) (generation : nat) : replicaConn :=
  if decide (rc_generation c <> Some generation) then c
  else notifyStateChangeLocked (setGeneration c None).

Definition markClosed (c : replicaConn) : replicaConn * option nat :=
  let generation := rc_generation c in
  (notifyStateChangeLocked
     (mkReplicaConn (rc_index c) (rc_ctxDone c) None true (rc_changes c) (rc_reqQueue c) (rc_pending c)),
   generation).

(** [c.cancel()] at the start of [Close]. *)
Definition cancelReplica (c : replicaConn) : replicaConn :=
  mkReplicaConn (rc_index c) true (rc_generation c) (rc_closed c) (rc_changes c) (rc_reqQueue c)
    (rc_pending c).

Definition discardQueuedRequests (c : replicaConn) : replicaConn := setQueue c [].

(** ** The requests an operation waits for *)

Record replicaWait := mkWait { w_requestID : Z; w_responseExpiry : Z }.

Definition zeroWait : replicaWait := mkWait 0 0.

(** [rs_results]: the channel. The timer is armed exactly while an operation
    waits in [next] for outstanding responses, so it has no state here. *)
Record replicaResponses := mkResponses {
  rs_results : list replicaResponse;
  rs_waits : list replicaWait;
  rs_timeBase : Z;
  rs_remaining : nat
}.

(** A new object, or one from the pool, which [release] has cleaned. *)
Definition acquireReplicaResponses : replicaResponses :=
  mkResponses [] (replicate maxServerCount zeroWait) zeroTime 0.

(** [release]; [None] is its panic. *)
Definition releaseResponses (r : replicaResponses) : option replicaResponses :=
  if decide (rs_remaining r <> 0%nat \/ length (rs_results r) <> 0%nat) then None
  else Some (mkResponses (rs_results r) (replicate maxServerCount zeroWait) zeroTime (rs_remaining r)).

(** What [submit] does to its own state at [now] around a successful
    [submitForOperation]. *)
Definition submitTimeBase (r : replicaResponses) (now : Z) : replicaResponses :=
  if decide (rs_timeBase r = zeroTime)
  then mkResponses (rs_results r) (rs_waits r) now (rs_remaining r) else r.

Definition recordWait (r : replicaResponses) (responseTimeout : Z) (replica : nat) (requestID now : Z)
    : replicaResponses :=
  mkResponses (rs_results r)
    (<[replica := mkWait requestID (timeSub now (rs_timeBase r) + responseTimeout)]> (rs_waits r))
    (rs_timeBase r) (S (rs_remaining r)).

(** [consume]; [None] is its panic. *)
Definition consume (r : replicaResponses) (result : replicaResponse) : option replicaResponses :=
  wait ← rs_waits r !! rp_replica result;
  if decide (w_requestID wait <> rp_requestID result) then None
  else Some (mkResponses (rs_results r) (<[rp_replica result := zeroWait]> (rs_waits r)) (rs_timeBase r)
               (pred (rs_remaining r))).

(** The receive [result := <-r.results] followed by [consume]; the outer option
    is empty while the channel is. *)
Definition receiveResult (r : replicaResponses) : option (option (replicaResponses * replicaResponse)) :=
  match rs_results r with
  | [] => None
  | result :: results =>
      Some (r ← consume (mkResponses results (rs_waits r) (rs_timeBase r) (rs_remaining r)) result;
            Some (r, result))
  end.

(** The nearest deadline of [nextTimeout]; 0 when nothing is outstanding. *)
Definition nextExpiry (r : replicaResponses) : Z :=
  foldl (fun next wait =>
    if bool_decide (w_requestID wait <> 0) && (bool_decide (next = 0) || (w_responseExpiry wait <? next))
    then w_responseExpiry wait else next) 0 (rs_waits r).

(** The delay the timer is reset to. *)
Definition timerDelay (r : replicaResponses) (now : Z) : Z :=
  Z.max 0 (nextExpiry r - timeSub now (rs_timeBase r)).

(** The waits that [expireResponses] completes with a timeout, and those that
    [abort] completes: replica and request. *)
Fixpoint waitsFrom (index : nat) (waits : list replicaWait) (chosen : replicaWait -> bool) : list (nat * Z) :=
  match waits with
  | [] => []
  | wait :: waits =>
      (if bool_decide (w_requestID wait <> 0) && chosen wait then [(index, w_requestID wait)] else [])
      ++ waitsFrom (S index) waits chosen
  end.

Definition expiredWaits (r : replicaResponses) (now : Z) : list (nat * Z) :=
  waitsFrom 0 (rs_waits r) (fun wait => w_responseExpiry wait <=? timeSub now (rs_timeBase r)).

Definition abortedWaits (r : replicaResponses) : list (nat * Z) :=
  waitsFrom 0 (rs_waits r) (fun _ => true).

(** ** A TCP connection *)

Inductive connectionError := errSend | errFlushBatch | errReceive | errConnectionClosed.

Inductive sendPC :=
  | sendOuter
  | sendInner (outbound : outboundConnectionRequest)
  | sendStopped.

Inductive receivePC :=
  | receiveRunning
  | receiveHolding (response : Response)     (* the retry loop of [receiveResponses] *)
  | receiveStopped.

(** [gen_taken] is a history variable: the requests this connection buffered. *)
Record connectionGeneration := mkGeneration {
  gen_terminal : option connectionError;   (* set when [done] is closed *)
  gen_reader : FrameReader;
  gen_writer : FrameWriter;
  gen_sending : sendPC;
  gen_receiving : receivePC;
  gen_taken : list outboundConnectionRequest
}.

Definition newConnectionGeneration (reader : FrameReader) : connectionGeneration :=
  mkGeneration None reader newFrameWriter sendOuter receiveRunning [].

Definition gen_done (g : connectionGeneration) : bool := bool_decide (gen_terminal g <> None).

Definition terminate (g : connectionGeneration) (cause : connectionError) : connectionGeneration :=
  if gen_done g then g
  else mkGeneration (Some cause) (gen_reader g) (gen_writer g) (gen_sending g) (gen_receiving g)
         (gen_taken g).

Definition setSending (g : connectionGeneration) (w : FrameWriter) (pc : sendPC)
    (taken : list outboundConnectionRequest) : connectionGeneration :=
  mkGeneration (gen_terminal g) (gen_reader g) w pc (gen_receiving g) taken.

Definition setReceiving (g : connectionGeneration) (r : FrameReader) (pc : receivePC) : connectionGeneration :=
  mkGeneration (gen_terminal g) r (gen_writer g) (gen_sending g) pc (gen_taken g).

(** [TryDequeue] of the request queue. *)
Definition dequeueRequest (c : replicaConn) : replicaConn * option outboundConnectionRequest :=
  match rc_reqQueue c with
  | [] => (c, None)
  | request :: q => (setQueue c q, Some request)
  end.

Section Generation.
Context `{FlatBuffers}.

(** One round of a loop of [sendRequests]; [ok] and [ok2] are the outcomes of
    the flush of a full buffer and of the final one. [None]: it waits for a request. *)
Definition sendRequests (ok ok2 : flushOutcome) (c : replicaConn) (g : connectionGeneration)
    : option (replicaConn * connectionGeneration) :=
  let stop g := setSending g (gen_writer g) sendStopped (gen_taken g) in
  match gen_sending g with
  | sendStopped => None
  | sendOuter =>
      if gen_done g then Some (c, stop g)
      else
        match dequeueRequest c with
        | (c, Some outbound) => Some (c, setSending g (gen_writer g) (sendInner outbound) (gen_taken g))
        | (_, None) => None
        end
  | sendInner outbound =>
      if gen_done g then Some (c, stop g)
      else
        match BufferFrame ok (gen_writer g) (encodeRequest outbound) with
        | (w, Some _) => Some (c, stop (terminate (setSending g w sendOuter (gen_taken g)) errSend))
        | (w, None) =>
            let taken := gen_taken g ++ [outbound] in
            match dequeueRequest c with
            | (c, Some outbound) => Some (c, setSending g w (sendInner outbound) taken)
            | (c, None) =>
                match Flush ok2 w with
                | (w, None) => Some (c, setSending g w sendOuter taken)
                | (w, Some _) => Some (c, stop (terminate (setSending g w sendOuter taken) errFlushBatch))
                end
            end
        end
  end.

(** One step of [receiveResponses]; [None]: it has ended. *)
Definition receiveResponses (c : replicaConn) (g : connectionGeneration)
    : option (replicaConn * connectionGeneration) :=
  match gen_receiving g with
  | receiveStopped => None
  | receiveRunning =>
      match ReadFrame (gen_reader g) with
      | (r, inl _) => Some (c, setReceiving (terminate g errReceive) r receiveStopped)
      | (r, inr frame) =>
          match DecodeResponse frame with
          | None => Some (c, setReceiving (terminate g errReceive) r receiveStopped)
          | Some response => Some (c, setReceiving g r (receiveHolding response))
          end
      end
  | receiveHolding response =>
      match enqueueResponse c response with
      | Some c => Some (c, setReceiving g (gen_reader g) receiveRunning)
      | None =>
          if gen_done g then Some (c, setReceiving g (gen_reader g) receiveStopped)
          else Some (c, g)
      end
  end.

End Generation.
