(* ===== verification/ReplicaSafety.v ===== *)
(** * Every call gets exactly one answer

    The goroutines that touch a pending call race with each other: the worker
    that received the response, the operation itself when it expires or aborts
    the call, and [Close]. Each first removes the call from its pending map and
    then sends on the channel of the operation. In all interleavings a call that
    is waited for is in exactly one place: registered, on its way to the channel,
    or in the channel. So nothing is answered twice, nothing blocks, no check of
    the code fires, and a closed connection leaves no call behind. *)

From S2P Require Import Prelude Protocol Quorum Wire Codec Frame Client Replica.
From stdpp Require Import base gmap list numbers relations tactics.

#[local] Open Scope Z_scope.

(** ** Goroutines *)

(** All replica connections of a client, its running operations and the results
    that were removed from a pending map but not yet sent on the channel of
    their operation. *)
Record world := mkWorld {
  w_next : Z;                                    (* [nextRequestID] *)
  w_replicas : list replicaConn;
  w_ops : gmap nat replicaResponses;
  w_inflight : list (nat * replicaResponse)
}.

Definition putReplica (w : world) (i : nat) (c : replicaConn) : world :=
  mkWorld (w_next w) (<[i := c]> (w_replicas w)) (w_ops w) (w_inflight w).

Definition putOp (w : world) (o : nat) (r : replicaResponses) : world :=
  mkWorld (w_next w) (w_replicas w) (<[o := r]> (w_ops w)) (w_inflight w).

Definition addInflight (w : world) (l : list (nat * replicaResponse)) : world :=
  mkWorld (w_next w) (w_replicas w) (w_ops w) (w_inflight w ++ l).

(** [complete] of request [id] at replica [i] with a result. *)
Definition completeAt (w : world) (i : nat) (id : Z) (result : opError + Response) : option world :=
  c ← w_replicas w !! i;
  '(c, destination) ← complete c id;
  Some (addInflight (putReplica w i c)
    (match destination with
     | Some o => [(o, mkReplicaResponse (rc_index c) id result)]
     | None => []
     end)).

(** The loops of [expireResponses] and [abort]. *)
Fixpoint completeAll (w : world) (l : list (nat * Z)) (e : opError) : option world :=
  match l with
  | [] => Some w
  | (i, id) :: l => w ← completeAt w i id (inl e); completeAll w l e
  end.

(** [submit] of an operation; [None] is a panic. *)
Definition submitAt (w : world) (o i : nat) (ctxErr : option opError) (responseTimeout now : Z)
    (request : Z -> outboundConnectionRequest) : option (world * option opError) :=
  let id := u64 (w_next w + 1) in
  r ← w_ops w !! o;
  c ← w_replicas w !! i;
  let r := submitTimeBase r now in
  '(c, err) ← submitForOperation ctxErr c (request id) o;
  let w := mkWorld id (<[i := c]> (w_replicas w)) (<[o := r]> (w_ops w)) (w_inflight w) in
  match err with
  | Some e => Some (w, Some e)
  | None => Some (putOp w o (recordWait r responseTimeout i id now), None)
  end.

Inductive world_step : world -> world -> Prop :=
  (* an operation starts with a fresh [replicaResponses] *)
  | ws_new w o : w_ops w !! o = None -> world_step w (putOp w o acquireReplicaResponses)
  (* it submits a request to a replica from which it does not wait for another *)
  | ws_submit w o i r wait ctxErr responseTimeout now request w' err :
      w_ops w !! o = Some r -> rs_waits r !! i = Some wait -> w_requestID wait = 0 ->
      w_next w + 1 < 2 ^ 64 -> (forall id, req_requestID (request id) = id) ->
      submitAt w o i ctxErr responseTimeout now request = Some (w', err) -> world_step w w'
  (* a best-effort Release *)
  | ws_no_response w i c request c' err :
      w_replicas w !! i = Some c -> w_next w + 1 < 2 ^ 64 -> submitNoResponse c request = (c', err) ->
      world_step w (mkWorld (u64 (w_next w + 1)) (<[i := c']> (w_replicas w)) (w_ops w) (w_inflight w))
  (* a connection delivers a response of the server, a worker takes it *)
  | ws_receive w i c response c' :
      w_replicas w !! i = Some c -> enqueueResponse c response = Some c' ->
      world_step w (putReplica w i c')
  | ws_worker w i c shard c' found :
      w_replicas w !! i = Some c -> completeResponses c shard = Some (c', found) ->
      world_step w (addInflight (putReplica w i c')
        (match found with
         | Some (o, response) => [(o, mkReplicaResponse (rc_index c) (RequestID response) (inr response))]
         | None => []
         end))
  (* a goroutine sends the result it removed *)
  | ws_send w l1 l2 o result r :
      w_inflight w = l1 ++ (o, result) :: l2 -> w_ops w !! o = Some r ->
      (length (rs_results r) < maxServerCount)%nat ->
      world_step w (mkWorld (w_next w) (w_replicas w)
        (<[o := mkResponses (rs_results r ++ [result]) (rs_waits r) (rs_timeBase r) (rs_remaining r)]> (w_ops w))
        (l1 ++ l2))
  (* an operation receives a result, times calls out, or aborts *)
  | ws_consume w o r r' result :
      w_ops w !! o = Some r -> receiveResult r = Some (Some (r', result)) -> world_step w (putOp w o r')
  | ws_expire w o r now w' :
      w_ops w !! o = Some r -> completeAll w (expiredWaits r now) errDeadlineExceeded = Some w' ->
      world_step w w'
  | ws_abort w o r e w' :
      w_ops w !! o = Some r -> completeAll w (abortedWaits r) e = Some w' -> world_step w w'
  | ws_release w o r r' :
      w_ops w !! o = Some r -> releaseResponses r = Some r' ->
      world_step w (mkWorld (w_next w) (w_replicas w) (delete o (w_ops w)) (w_inflight w))
  (* the writer takes a request; the connection is replaced or closed *)
  | ws_dequeue w i c c' request :
      w_replicas w !! i = Some c -> dequeueRequest c = (c', request) -> world_step w (putReplica w i c')
  | ws_publish w i c generation :
      w_replicas w !! i = Some c -> world_step w (putReplica w i (publish c generation).1)
  | ws_clear w i c generation :
      w_replicas w !! i = Some c -> world_step w (putReplica w i (clear c generation))
  | ws_cancel w i c :
      w_replicas w !! i = Some c -> world_step w (putReplica w i (cancelReplica c))
  | ws_mark_closed w i c :
      w_replicas w !! i = Some c -> rc_ctxDone c = true -> world_step w (putReplica w i (markClosed c).1)
  | ws_fail w i c c' l :
      w_replicas w !! i = Some c -> rc_ctxDone c = true -> failPending c = (c', l) ->
      world_step w (addInflight (putReplica w i c')
        ((fun e => (e.2, mkReplicaResponse (rc_index c) e.1 (inl errReplicaUnavailable))) <$> l))
  | ws_discard w i c :
      w_replicas w !! i = Some c -> world_step w (putReplica w i (discardQueuedRequests c)).

Definition startWorld (n : nat) : world := mkWorld 0 (newReplicaConn <$> seq 0 n) ∅ [].

Inductive world_reachable (n : nat) : world -> Prop :=
  | wr_start : world_reachable n (startWorld n)
  | wr_step w w' : world_reachable n w -> world_step w w' -> world_reachable n w'.

(** ** Where a call is *)

Definition pendingOf (c : replicaConn) (id : Z) : option nat :=
  shard ← rc_pending c !! pendingShardIndex id;
  pending ← ps_pending shard;
  pending !! id.

Definition registered (w : world) (o i : nat) (id : Z) : nat :=
  match w_replicas w !! i with
  | Some c => if decide (pendingOf c id = Some o) then 1%nat else 0%nat
  | None => 0%nat
  end.

Definition isAnswer (i : nat) (id : Z) (r : replicaResponse) : bool :=
  bool_decide (rp_replica r = i) && bool_decide (rp_requestID r = id).

Definition answers (l : list replicaResponse) (i : nat) (id : Z) : nat :=
  length (filter (fun r => isAnswer i id r = true) l).

Definition inflightOf (w : world) (o : nat) : list replicaResponse :=
  (filter (fun e => e.1 = o) (w_inflight w)).*2.

Definition resultsOf (w : world) (o : nat) : list replicaResponse :=
  from_option rs_results [] (w_ops w !! o).

Definition located (w : world) (o i : nat) (id : Z) : nat :=
  (registered w o i id + answers (inflightOf w o) i id + answers (resultsOf w o) i id)%nat.

Definition waitOf (w : world) (o i : nat) : Z :=
  from_option (fun r => from_option w_requestID 0 (rs_waits r !! i)) 0 (w_ops w !! o).

Definition waited (w : world) (o i : nat) (id : Z) : nat :=
  if decide (id <> 0 /\ waitOf w o i = id) then 1%nat else 0%nat.

Definition outstanding (r : replicaResponses) : nat :=
  length (filter (fun wait => w_requestID wait <> 0) (rs_waits r)).

(** A pending map holds only the requests of its shard, and becomes nil only
    after cancellation. *)
Record replica_ok (i : nat) (c : replicaConn) : Prop := {
  ro_index : rc_index c = i;
  ro_shards : length (rc_pending c) = pendingShardCount;
  ro_home : forall j shard pending id, rc_pending c !! j = Some shard -> ps_pending shard = Some pending ->
    is_Some (pending !! id) -> pendingShardIndex id = j;
  ro_nil : rc_ctxDone c = false -> forall j shard, rc_pending c !! j = Some shard -> is_Some (ps_pending shard);
  ro_responses : forall j shard response, rc_pending c !! j = Some shard -> response ∈ ps_responses shard ->
    pendingShardIndex (RequestID response) = j
}.

Record world_inv (n : nat) (w : world) : Prop := {
  wi_next : 0 <= w_next w < 2 ^ 64;
  wi_count : length (w_replicas w) = n;
  wi_replicas : forall i c, w_replicas w !! i = Some c -> replica_ok i c;
  wi_located : forall o i id, located w o i id = waited w o i id;
  wi_ids : forall o i, 0 <= waitOf w o i <= w_next w;
  wi_range : forall o i, waitOf w o i <> 0 -> (i < n)%nat;
  wi_waits : forall o r, w_ops w !! o = Some r ->
    length (rs_waits r) = maxServerCount /\ rs_remaining r = outstanding r;
  wi_match : forall o r response, r ∈ inflightOf w o \/ r ∈ resultsOf w o ->
    rp_result r = inr response -> RequestID response = rp_requestID r
}.

(** ** Pending maps *)

Lemma pendingShardIndex_lt id : (pendingShardIndex id < pendingShardCount)%nat.
Proof.
  unfold pendingShardIndex, pendingShardCount. change (Z.of_nat 16 - 1) with (Z.ones 4).
  rewrite Z.land_ones by lia. pose proof (Z.mod_pos_bound id (2 ^ 4)). lia.
Qed.

Lemma replica_shard i c id : replica_ok i c ->
  exists shard, rc_pending c !! pendingShardIndex id = Some shard.
Proof.
  intros []. apply lookup_lt_is_Some_2. rewrite ro_shards0. apply pendingShardIndex_lt.
Qed.

(** Replacing the map of shard [j] by one whose keys belong there. *)
Lemma replica_ok_insert i c j shard pending responses :
  replica_ok i c -> rc_pending c !! j = Some shard ->
  (forall id, is_Some (pending !! id) -> pendingShardIndex id = j) ->
  (forall response, response ∈ responses -> pendingShardIndex (RequestID response) = j) ->
  replica_ok i (setPending c (<[j := mkPendingShard (Some pending) responses]> (rc_pending c))).
Proof.
  intros [H1 H2 H3 H4 H5] Hj Hhome Hresp. assert (j < length (rc_pending c))%nat by by eapply lookup_lt_Some.
  split; simpl; [done|by rewrite length_insert|..].
  - intros k sh p id Hk. destruct (decide (k = j)) as [->|Hne].
    + rewrite list_lookup_insert_eq in Hk by done. injection Hk as <-. simpl. intros [= <-]. apply Hhome.
    + rewrite list_lookup_insert_ne in Hk by done. eauto.
  - intros Hc k sh Hk. destruct (decide (k = j)) as [->|Hne].
    + rewrite list_lookup_insert_eq in Hk by done. injection Hk as <-. by eexists.
    + rewrite list_lookup_insert_ne in Hk by done. eauto.
  - intros k sh r Hk. destruct (decide (k = j)) as [->|Hne].
    + rewrite list_lookup_insert_eq in Hk by done. injection Hk as <-. simpl. apply Hresp.
    + rewrite list_lookup_insert_ne in Hk by done. eauto.
Qed.

(** The same for a queue of responses only. *)
Lemma replica_ok_responses i c j shard responses :
  replica_ok i c -> rc_pending c !! j = Some shard ->
  (forall response, response ∈ responses -> pendingShardIndex (RequestID response) = j) ->
  let c' := setPending c (<[j := mkPendingShard (ps_pending shard) responses]> (rc_pending c)) in
  replica_ok i c' /\ forall id, pendingOf c' id = pendingOf c id.
Proof.
  intros Hok Hj Hresp c'. pose proof Hok as [H1 H2 H3 H4 H5].
  assert (Hlt : (j < length (rc_pending c))%nat) by by eapply lookup_lt_Some. split.
  - split; simpl; [done|by rewrite length_insert|..].
    + intros k sh p id Hk. destruct (decide (k = j)) as [->|Hne].
      * rewrite list_lookup_insert_eq in Hk by done. injection Hk as <-. simpl. eauto.
      * rewrite list_lookup_insert_ne in Hk by done. eauto.
    + intros Hc k sh Hk. destruct (decide (k = j)) as [->|Hne].
      * rewrite list_lookup_insert_eq in Hk by done. injection Hk as <-. simpl. eauto.
      * rewrite list_lookup_insert_ne in Hk by done. eauto.
    + intros k sh r Hk. destruct (decide (k = j)) as [->|Hne].
      * rewrite list_lookup_insert_eq in Hk by done. injection Hk as <-. simpl. apply Hresp.
      * rewrite list_lookup_insert_ne in Hk by done. eauto.
  - intros id. unfold pendingOf, c'. simpl. destruct (decide (pendingShardIndex id = j)) as [->|Hne].
    + by rewrite list_lookup_insert_eq, Hj by done.
    + by rewrite list_lookup_insert_ne by done.
Qed.

Lemma pendingOf_insert i c j shard pending responses id :
  replica_ok i c -> rc_pending c !! j = Some shard ->
  pendingOf (setPending c (<[j := mkPendingShard (Some pending) responses]> (rc_pending c))) id =
    if decide (pendingShardIndex id = j) then pending !! id else pendingOf c id.
Proof.
  intros Hok Hj. assert (j < length (rc_pending c))%nat by by eapply lookup_lt_Some.
  unfold pendingOf. simpl. case_decide as Hd.
  - rewrite Hd, list_lookup_insert_eq by done. done.
  - by rewrite list_lookup_insert_ne by done.
Qed.

Lemma complete_spec i c id :
  replica_ok i c ->
  exists c', complete c id = Some (c', pendingOf c id) /\ replica_ok i c' /\ rc_index c' = rc_index c /\
    forall id', pendingOf c' id' = if decide (id' = id) then None else pendingOf c id'.
Proof.
  intros Hok. destruct (replica_shard i c id Hok) as [shard Hs].
  unfold complete, completeInShard. rewrite Hs. simpl.
  assert (Hp : pendingOf c id = ps_pending shard ≫= (.!! id)) by (unfold pendingOf; by rewrite Hs).
  rewrite Hp. destruct (ps_pending shard) as [pending|] eqn:Hpend; simpl in *.
  - destruct (pending !! id) as [o|] eqn:Hid.
    + eexists. split; [done|]. split_and!; [|done|].
      * apply replica_ok_insert with shard; [done..| |].
        -- intros id' [x Hx]%lookup_delete_is_Some. eapply (ro_home _ _ Hok); eauto.
        -- intros r. by eapply (ro_responses _ _ Hok).
      * intros id'. rewrite (pendingOf_insert i _ _ shard) by done. unfold pendingOf.
        destruct (decide (pendingShardIndex id' = pendingShardIndex id)) as [Heq|Hne].
        -- rewrite Heq, Hs. simpl. rewrite Hpend. simpl. case_decide as Hd.
           ++ subst. by rewrite lookup_delete_eq.
           ++ by rewrite lookup_delete_ne by done.
        -- rewrite decide_False by congruence. done.
    + eexists. split; [done|]. split_and!; [done..|]. intros id'. case_decide; [|done]. congruence.
  - eexists. split; [done|]. split_and!; [done..|]. intros id'. case_decide; [|done]. congruence.
Qed.

Lemma enqueueRequest_pending c request c' b :
  enqueueRequest c request = (c', b) ->
  rc_pending c' = rc_pending c /\ rc_index c' = rc_index c /\ rc_ctxDone c' = rc_ctxDone c.
Proof. unfold enqueueRequest. case_decide; by intros [= <- _]. Qed.

(** Registering a call that is not registered yet. *)
Lemma submit_spec i c ctxErr request o :
  replica_ok i c -> pendingOf c (req_requestID request) = None ->
  exists c' err, submitForOperation ctxErr c request o = Some (c', err) /\ replica_ok i c' /\
    forall id', pendingOf c' id' =
      if decide (id' = req_requestID request /\ err = None) then Some o else pendingOf c id'.
Proof.
  intros Hok Hfresh. unfold submitForOperation.
  destruct ctxErr as [e|]; [exists c, (Some e); by split_and!; [..|intros; rewrite decide_False by naive_solver]|].
  destruct (replica_shard i c (req_requestID request) Hok) as [shard Hs]. rewrite Hs. simpl.
  destruct (rc_ctxDone c) eqn:Hctx.
  { eexists _, _. split_and!; [done..|]. intros. by rewrite decide_False by naive_solver. }
  destruct (ro_nil _ _ Hok Hctx _ _ Hs) as [pending Hp]. rewrite Hp. simpl.
  assert (Hnone : pending !! req_requestID request = None).
  { unfold pendingOf in Hfresh. by rewrite Hs in Hfresh; simpl in Hfresh; rewrite Hp in Hfresh. }
  assert (Hhome : forall id, is_Some (pending !! id) -> pendingShardIndex id = pendingShardIndex (req_requestID request)).
  { intros id. by eapply (ro_home _ _ Hok). }
  assert (Hresp : forall r, r ∈ ps_responses shard ->
    pendingShardIndex (RequestID r) = pendingShardIndex (req_requestID request)).
  { intros r. by eapply (ro_responses _ _ Hok). }
  assert (Hold : forall id', pendingShardIndex id' = pendingShardIndex (req_requestID request) ->
    pendingOf c id' = pending !! id').
  { intros id' Heq. unfold pendingOf. rewrite Heq, Hs. simpl. by rewrite Hp. }
  destruct (enqueueRequest _ request) as [c1 b] eqn:He. unfold enqueueRequest in He. simpl in He.
  case_decide; injection He as <- <-.
  - eexists _, _. split; [done|]. split.
    + apply replica_ok_insert with (i := i) (c := setQueue c (rc_reqQueue c ++ [request])) (shard := shard); [by destruct Hok; split|done| |done].
      intros id' [<-|[_ ?]]%lookup_insert_is_Some; auto.
    + intros id'. etrans.
      { apply (pendingOf_insert i (setQueue c (rc_reqQueue c ++ [request])) _ shard); [by destruct Hok; split|done]. }
      destruct (decide (pendingShardIndex id' = _)) as [Heq|Hne].
      * destruct (decide (id' = req_requestID request)) as [->|Hid].
        -- by rewrite lookup_insert_eq, decide_True by done.
        -- rewrite lookup_insert_ne, decide_False by naive_solver. symmetry. by apply Hold.
      * rewrite decide_False by naive_solver. done.
  - eexists _, _. split; [done|]. rewrite delete_insert_id by done. split.
    + by apply replica_ok_insert with shard.
    + intros id'. rewrite (pendingOf_insert i _ _ shard) by done.
      rewrite (decide_False (P := _ /\ Some _ = None)) by naive_solver.
      case_decide; [|done]. symmetry. by apply Hold.
Qed.

Lemma shardsPending_In l id o :
  (id, o) ∈ concat (shardPending <$> l) <->
  exists j shard pending, l !! j = Some shard /\ ps_pending shard = Some pending /\ pending !! id = Some o.
Proof.
  induction l as [|shard l IH]; simpl.
  { split; [by intros ?%elem_of_nil|]. by intros (j & sh & p & Hj & _). }
  rewrite elem_of_app, IH. unfold shardPending. split.
  - intros [Hin|(j & sh & p & Hj)]; [|by exists (S j), sh, p].
    destruct (ps_pending shard) as [p|] eqn:Hp; [|by apply elem_of_nil in Hin].
    exists 0%nat, shard, p. split_and!; [done..|]. by apply elem_of_map_to_list.
  - intros ([|j] & sh & p & Hj & Hp & Hid); simpl in Hj; [|right; by exists j, sh, p].
    injection Hj as ->. left. rewrite Hp. by apply elem_of_map_to_list.
Qed.

Lemma shardsPending_NoDup l k :
  (forall j shard pending id, l !! j = Some shard -> ps_pending shard = Some pending ->
    is_Some (pending !! id) -> pendingShardIndex id = (k + j)%nat) ->
  NoDup (concat (shardPending <$> l)).
Proof.
  revert k. induction l as [|shard l IH]; intros k Hhome; simpl; [constructor|].
  apply list.NoDup_app. split_and!.
  - unfold shardPending. destruct (ps_pending shard); simpl; [apply NoDup_map_to_list|constructor].
  - intros [id o] Hin (j & sh & p & Hj & Hp & Hid)%shardsPending_In. unfold shardPending in Hin.
    destruct (ps_pending shard) as [p0|] eqn:Hp0; [|by apply elem_of_nil in Hin].
    apply elem_of_map_to_list in Hin.
    assert (H0 := Hhome 0%nat shard p0 id eq_refl Hp0 ltac:(by eexists)).
    assert (H1 := Hhome (S j) sh p id Hj Hp ltac:(by eexists)). lia.
  - apply (IH (S k)). intros j sh p id Hj Hp Hid. rewrite (Hhome (S j) sh p id Hj Hp Hid). lia.
Qed.

Lemma failPending_spec i c c' l :
  replica_ok i c -> rc_ctxDone c = true -> failPending c = (c', l) ->
  replica_ok i c' /\ (forall id, pendingOf c' id = None) /\ NoDup l /\
  forall id o, (id, o) ∈ l <-> pendingOf c id = Some o.
Proof.
  intros Hok Hctx [= <- <-]. pose proof Hok as [H1 H2 H3 H4 H5]. split_and!.
  - split; simpl; [done|by rewrite length_fmap|..].
    + intros j shard pending id Hj. apply list_lookup_fmap_Some in Hj as (sh & -> & _). done.
    + congruence.
    + intros j shard r Hj. apply list_lookup_fmap_Some in Hj as (sh & -> & Hsh). simpl. eauto.
  - intros id. unfold pendingOf. simpl. rewrite list_lookup_fmap.
    destruct (rc_pending c !! pendingShardIndex id); done.
  - by apply (shardsPending_NoDup _ 0).
  - intros id o. rewrite shardsPending_In. unfold pendingOf. split.
    + intros (j & sh & p & Hj & Hp & Hid). rewrite (H3 j sh p id Hj Hp) by by eexists.
      rewrite Hj. simpl. by rewrite Hp.
    + intros Hp. apply bind_Some in Hp as (sh & Hj & Hp). apply bind_Some in Hp as (p & Hp & Hid).
      by exists (pendingShardIndex id), sh, p.
Qed.

(** A worker removes its response from the queue and completes the call. *)
Lemma completeResponses_spec i c j c' found :
  replica_ok i c -> completeResponses c j = Some (c', found) ->
  replica_ok i c' /\ rc_index c' = rc_index c /\
  match found with
  | None => forall id, pendingOf c' id = pendingOf c id
  | Some (o, response) => pendingOf c (RequestID response) = Some o /\
      forall id, pendingOf c' id = if decide (id = RequestID response) then None else pendingOf c id
  end.
Proof.
  intros Hok. unfold completeResponses. destruct (rc_pending c !! j) as [shard|] eqn:Hj; simpl; [|done].
  destruct (ps_responses shard) as [|r rs] eqn:Hr; [by intros [= <- <-]|].
  destruct (replica_ok_responses i c j shard rs) as [Hok1 Hsame]; [done|done| |].
  { intros r' Hin. eapply (ro_responses _ _ Hok); [done|]. rewrite Hr. by right. }
  set (c1 := setPending c (<[j := mkPendingShard (ps_pending shard) rs]> (rc_pending c))) in *.
  assert (Hidx : pendingShardIndex (RequestID r) = j).
  { eapply (ro_responses _ _ Hok); [done|]. rewrite Hr. by left. }
  destruct (complete_spec i c1 (RequestID r) Hok1) as (c2 & Hc & Hok2 & Hi & Hp).
  unfold complete in Hc. rewrite Hidx in Hc. rewrite Hc. simpl. intros [= <- <-].
  split_and!; [done|done|]. rewrite Hsame. destruct (pendingOf c (RequestID r)) as [o|] eqn:Ho; simpl.
  - split; [done|]. intros id. by rewrite Hp, Hsame.
  - intros id. rewrite Hp, Hsame. case_decide; congruence.
Qed.

(** ** Moving a call from one place to the next *)

Lemma answers_app l k i id : answers (l ++ k) i id = (answers l i id + answers k i id)%nat.
Proof. unfold answers. by rewrite list.filter_app, length_app. Qed.

Lemma answers_cons r l i id :
  answers (r :: l) i id = ((if isAnswer i id r then 1 else 0) + answers l i id)%nat.
Proof. unfold answers. rewrite filter_cons. destruct (isAnswer i id r); by simpl. Qed.

Lemma inflightOf_add w l o :
  inflightOf (addInflight w l) o = inflightOf w o ++ (filter (fun e => e.1 = o) l).*2.
Proof. unfold inflightOf. simpl. by rewrite list.filter_app, fmap_app. Qed.

Lemma registered_put w i c c' o j id :
  w_replicas w !! i = Some c ->
  registered (putReplica w i c') o j id =
    if decide (j = i) then if decide (pendingOf c' id = Some o) then 1%nat else 0%nat
    else registered w o j id.
Proof.
  intros Hi. unfold registered. simpl. case_decide as Hd.
  - rewrite Hd, list_lookup_insert_eq by by eapply lookup_lt_Some. done.
  - by rewrite list_lookup_insert_ne by done.
Qed.

Lemma replicas_put n w i c c' :
  w_replicas w !! i = Some c -> world_inv n w -> replica_ok i c' ->
  forall j d, w_replicas (putReplica w i c') !! j = Some d -> replica_ok j d.
Proof.
  intros Hi Hinv Hc' j d Hj. simpl in Hj. destruct (decide (j = i)) as [->|Hne].
  - rewrite list_lookup_insert_eq in Hj by by eapply lookup_lt_Some. by injection Hj as <-.
  - rewrite list_lookup_insert_ne in Hj by done. by eapply wi_replicas.
Qed.

(** A step of a replica that leaves the pending calls alone. *)
Lemma quiet_replica_inv n w i c c' :
  w_replicas w !! i = Some c -> world_inv n w -> replica_ok i c' ->
  (forall id, pendingOf c' id = pendingOf c id) -> world_inv n (putReplica w i c').
Proof.
  intros Hi Hinv Hc' Hsame. pose proof Hinv as [H1 H2 H3 H4 H5 Hrg H6 H7].
  split; [done|simpl; by rewrite length_insert|by eapply replicas_put| |done..].
  intros o j id. etrans; [|apply (H4 o j id)]. unfold located.
  rewrite (registered_put _ _ c) by done. f_equal. f_equal. case_decide as Hd; [|done].
  unfold registered. rewrite Hd, Hi, Hsame. done.
Qed.

Lemma isAnswer_eq i id j id' result :
  isAnswer j id' (mkReplicaResponse i id result) = bool_decide (i = j) && bool_decide (id = id').
Proof. done. Qed.

(** The answers of operation [o] among the calls [l] removed at replica [i]. *)
Definition removed (i : nat) (result : Z -> opError + Response) (l : list (Z * nat))
    : list (nat * replicaResponse) :=
  (fun e => (e.2, mkReplicaResponse i e.1 (result e.1))) <$> l.

Lemma answers_removed i result l o j id :
  NoDup l ->
  answers (filter (fun e => e.1 = o) (removed i result l)).*2 j id =
    if decide (j = i /\ (id, o) ∈ l) then 1%nat else 0%nat.
Proof.
  induction l as [|[id' o'] l IH]; intros Hnd.
  { rewrite decide_False; [done|]. by intros [_ ?%elem_of_nil]. }
  apply list.NoDup_cons in Hnd as [Hnin Hnd]. specialize (IH Hnd).
  change (removed i result ((id', o') :: l))
    with ((o', mkReplicaResponse i id' (result id')) :: removed i result l).
  rewrite filter_cons. cbn [fst].
  assert (Hskip : (j, id, o) <> (i, id', o') ->
    (if decide (j = i /\ (id, o) ∈ (id', o') :: l) then 1 else 0)%nat =
    (if decide (j = i /\ (id, o) ∈ l) then 1 else 0)%nat).
  { intros Hne. apply decide_ext. rewrite elem_of_cons. split; [|tauto].
    intros (-> & [[= -> ->]|Hin]); [done|tauto]. }
  destruct (decide (o' = o)) as [->|Hne]; [|rewrite IH, Hskip by congruence; done].
  rewrite fmap_cons, answers_cons, IH. simpl. rewrite isAnswer_eq.
  destruct (decide (j = i)) as [->|Hj].
  2:{ rewrite bool_decide_eq_false_2 by congruence. simpl. by rewrite !decide_False by tauto. }
  rewrite bool_decide_eq_true_2 by done. simpl. destruct (decide (id' = id)) as [->|Hid].
  - rewrite bool_decide_eq_true_2 by done. rewrite (decide_False (P := _ /\ (id, o) ∈ l)) by tauto.
    by rewrite decide_True by (split; [done|left]).
  - rewrite bool_decide_eq_false_2, Hskip by congruence. done.
Qed.

(** Calls registered at replica [i] under different requests are removed and sent
    to their operations. *)
Lemma move_inv n w i c c' l (result : Z -> opError + Response) :
  w_replicas w !! i = Some c -> world_inv n w -> replica_ok i c' ->
  NoDup l -> (forall id o, (id, o) ∈ l -> pendingOf c id = Some o) ->
  (forall id, pendingOf c' id = if decide (id ∈ l.*1) then None else pendingOf c id) ->
  (forall id response, result id = inr response -> RequestID response = id) ->
  world_inv n (addInflight (putReplica w i c') (removed i result l)).
Proof.
  intros Hi Hinv Hc' Hnd Hl Hp Hres. pose proof Hinv as [H1 H2 H3 H4 H5 Hrg H6 H7].
  split; [done|simpl; by rewrite length_insert|by eapply replicas_put| |done|done|done|].
  - intros o j id. etrans; [|apply (H4 o j id)]. unfold located.
    rewrite inflightOf_add, answers_app, answers_removed by done.
    change (resultsOf (addInflight _ _) o) with (resultsOf w o).
    change (registered (addInflight ?x _) o j id) with (registered x o j id).
    change (inflightOf (putReplica w i c') o) with (inflightOf w o).
    rewrite (registered_put _ _ c) by done.
    destruct (decide (j = i)) as [->|Hj]; [|rewrite decide_False by tauto; lia].
    unfold registered. rewrite Hi, Hp. destruct (decide (id ∈ l.*1)) as [Hin|Hnin].
    + apply list_elem_of_fmap in Hin as ([id' o'] & -> & Hin). simpl. rewrite (Hl _ _ Hin).
      destruct (decide (o' = o)) as [->|Hne].
      * rewrite !decide_True by done. lia.
      * rewrite (decide_False (P := _ /\ _)); [rewrite decide_False by congruence; lia|].
        intros [_ Hin2]. apply Hl in Hin, Hin2. congruence.
    + rewrite (decide_False (P := _ /\ (id, o) ∈ l)); [lia|]. intros [_ Hin]. apply Hnin.
      apply list_elem_of_fmap. by exists (id, o).
  - intros o r response [Hin|Hin]; [|by apply (H7 o); right].
    rewrite inflightOf_add in Hin. apply elem_of_app in Hin as [Hin|Hin]; [by apply (H7 o); left|].
    apply list_elem_of_fmap in Hin as ([o' r'] & -> & Hin). apply list_elem_of_filter in Hin as [_ Hin].
    apply list_elem_of_fmap in Hin as ([id o2] & [= -> ->] & _). simpl. apply Hres.
Qed.

(** One call is removed, or none is found. *)
Lemma move_one_inv n w i c c' id (dest : option nat) result :
  w_replicas w !! i = Some c -> world_inv n w -> replica_ok i c' -> pendingOf c id = dest ->
  (forall id', pendingOf c' id' = if decide (id' = id) then None else pendingOf c id') ->
  (forall response, result = inr response -> RequestID response = id) ->
  world_inv n (addInflight (putReplica w i c')
    (match dest with Some o => [(o, mkReplicaResponse i id result)] | None => [] end)).
Proof.
  intros Hi Hinv Hc' Hdest Hp Hres. destruct dest as [o|].
  - apply (move_inv n w i c c' [(id, o)] (fun id' => if decide (id' = id) then result else inl errCanceled)) in Hi;
      [|done|done|apply NoDup_singleton|..].
    + unfold removed in Hi. simpl in Hi. by rewrite decide_True in Hi.
    + by intros id' o' [= -> ->]%list_elem_of_singleton.
    + intros id'. rewrite Hp. simpl. apply decide_ext. by rewrite list_elem_of_singleton.
    + intros id' response. case_decide; [subst; apply Hres|done].
  - unfold addInflight. simpl. rewrite app_nil_r. change (world_inv n (putReplica w i c')).
    eapply quiet_replica_inv; [done..|]. intros id'. rewrite Hp. case_decide; congruence.
Qed.

Lemma completeAt_inv n w i id e :
  world_inv n w -> (i < n)%nat -> exists w', completeAt w i id (inl e) = Some w' /\ world_inv n w'.
Proof.
  intros Hinv Hi. rewrite <- (wi_count _ _ Hinv) in Hi. apply lookup_lt_is_Some_2 in Hi as [c Hc].
  assert (Hok := wi_replicas _ _ Hinv i c Hc).
  destruct (complete_spec i c id Hok) as (c' & Hcomp & Hok' & Hidx & Hp).
  unfold completeAt. rewrite Hc. simpl. rewrite Hcomp. simpl. eexists. split; [done|].
  rewrite Hidx, (ro_index _ _ Hok). by eapply move_one_inv.
Qed.

Lemma completeAll_inv n w l e :
  world_inv n w -> Forall (fun x => x.1 < n)%nat l ->
  exists w', completeAll w l e = Some w' /\ world_inv n w'.
Proof.
  revert w. induction l as [|[i id] l IH]; intros w Hinv Hl; simpl; [by eexists|].
  apply list.Forall_cons in Hl as [Hi Hl].
  destruct (completeAt_inv n w i id e Hinv Hi) as (w1 & -> & Hinv1). simpl. by apply IH.
Qed.

(** ** Operations *)

Lemma waitOf_put w o r o' i :
  waitOf (putOp w o r) o' i =
    if decide (o' = o) then from_option w_requestID 0 (rs_waits r !! i) else waitOf w o' i.
Proof.
  unfold waitOf. simpl. case_decide as Hd.
  - by rewrite Hd, lookup_insert_eq.
  - by rewrite lookup_insert_ne.
Qed.

Lemma resultsOf_put w o r o' :
  resultsOf (putOp w o r) o' = if decide (o' = o) then rs_results r else resultsOf w o'.
Proof.
  unfold resultsOf. simpl. case_decide as Hd.
  - by rewrite Hd, lookup_insert_eq.
  - by rewrite lookup_insert_ne.
Qed.

Lemma waitOf_Some w o r i : w_ops w !! o = Some r -> waitOf w o i = from_option w_requestID 0 (rs_waits r !! i).
Proof. unfold waitOf. by intros ->. Qed.

Lemma waits_zero l i : from_option w_requestID 0 (replicate l zeroWait !! i) = 0.
Proof. destruct (replicate l zeroWait !! i) eqn:H; [|done]. by apply lookup_replicate_1 in H as [-> _]. Qed.

(** How many waits are outstanding after one is set or cleared. *)
Lemma outstanding_insert r results base rem i wait wait' :
  rs_waits r !! i = Some wait ->
  (outstanding (mkResponses results (<[i := wait']> (rs_waits r)) base rem) +
     (if decide (w_requestID wait <> 0%Z) then 1 else 0) =
   outstanding r + (if decide (w_requestID wait' <> 0%Z) then 1 else 0))%nat.
Proof.
  unfold outstanding. simpl. generalize (rs_waits r). intros waits. revert i.
  induction waits as [|x waits IH]; intros [|i] Hi; [done..| |].
  - injection Hi as ->. simpl. rewrite !filter_cons. repeat case_decide; simpl; try lia; tauto.
  - simpl in *. specialize (IH i Hi). rewrite !filter_cons.
    destruct (decide (w_requestID x <> 0)); simpl; lia.
Qed.

(** One wait of an operation is replaced. *)
Lemma waitOf_insert w o r results base rem i wait wait' o' j :
  w_ops w !! o = Some r -> rs_waits r !! i = Some wait ->
  waitOf (putOp w o (mkResponses results (<[i := wait']> (rs_waits r)) base rem)) o' j =
    if decide (o' = o /\ j = i) then w_requestID wait' else waitOf w o' j.
Proof.
  intros Ho Hwait. apply lookup_lt_Some in Hwait. rewrite waitOf_put.
  destruct (decide (o' = o)) as [->|Hno]; [|by rewrite decide_False by tauto].
  rewrite (waitOf_Some _ _ r) by done. simpl. destruct (decide (j = i)) as [->|Hj].
  - by rewrite list_lookup_insert_eq, decide_True by done.
  - by rewrite list_lookup_insert_ne, decide_False by naive_solver.
Qed.

Lemma new_inv n w o : w_ops w !! o = None -> world_inv n w -> world_inv n (putOp w o acquireReplicaResponses).
Proof.
  intros Ho [H1 H2 H3 H4 H5 Hrg H6 H7].
  assert (Hw : forall i, waitOf w o i = 0) by (intros i; unfold waitOf; by rewrite Ho).
  assert (Hwait : forall o' i, waitOf (putOp w o acquireReplicaResponses) o' i = waitOf w o' i).
  { intros o' i. rewrite waitOf_put. case_decide as Hd; [|done]. subst. rewrite Hw. apply waits_zero. }
  assert (Hres : forall o', resultsOf (putOp w o acquireReplicaResponses) o' = resultsOf w o').
  { intros o'. rewrite resultsOf_put. case_decide as Hd; [|done]. subst. unfold resultsOf. by rewrite Ho. }
  split; [done|done|done| | | | |].
  - intros o' i id. unfold located, waited. rewrite Hwait, Hres. apply H4.
  - intros o' i. rewrite Hwait. apply H5.
  - intros o' i. rewrite Hwait. apply Hrg.
  - simpl. intros o' r [[-> <-]|[Hne Hr]]%lookup_insert_Some; [done|eauto].
  - intros o' r response. rewrite Hres. apply H7.
Qed.

(** A result moves from a goroutine into the channel. *)
Lemma deliverResult_inv n w l1 l2 o result r :
  w_inflight w = l1 ++ (o, result) :: l2 -> w_ops w !! o = Some r -> world_inv n w ->
  world_inv n (mkWorld (w_next w) (w_replicas w)
    (<[o := mkResponses (rs_results r ++ [result]) (rs_waits r) (rs_timeBase r) (rs_remaining r)]> (w_ops w))
    (l1 ++ l2)).
Proof.
  intros Hin Ho [H1 H2 H3 H4 H5 Hrg H6 H7].
  set (r' := mkResponses (rs_results r ++ [result]) (rs_waits r) (rs_timeBase r) (rs_remaining r)).
  set (w' := mkWorld _ _ _ _).
  assert (Hwait : forall o' i, waitOf w' o' i = waitOf w o' i).
  { intros o' i. change (waitOf w' o' i) with (waitOf (putOp w o r') o' i). rewrite waitOf_put.
    case_decide as Hd; [|done]. subst. by rewrite (waitOf_Some _ _ r). }
  assert (Hres : forall o', resultsOf w' o' = resultsOf w o' ++ if decide (o' = o) then [result] else []).
  { intros o'. change (resultsOf w' o') with (resultsOf (putOp w o r') o'). rewrite resultsOf_put.
    case_decide as Hd; [|by rewrite app_nil_r]. subst. unfold resultsOf. by rewrite Ho. }
  assert (Hfl : forall o', inflightOf w o' ≡ₚ inflightOf w' o' ++ if decide (o' = o) then [result] else []).
  { intros o'. unfold inflightOf. simpl. rewrite Hin, !list.filter_app, filter_cons, !fmap_app. simpl.
    case_decide as Hd; case_decide as Hd2; try congruence; simpl; [|by rewrite app_nil_r].
    rewrite <- app_assoc. apply Permutation_app_head. apply Permutation_cons_append. }
  split; [done|done|done| | | | |].
  - intros o' i id. unfold located, waited. rewrite Hwait. etrans; [|apply (H4 o' i id)].
    unfold located. rewrite Hres, answers_app.
    assert (Hp : answers (inflightOf w o') i id =
      (answers (inflightOf w' o') i id + answers (if decide (o' = o) then [result] else []) i id)%nat).
    { rewrite <- answers_app. unfold answers. by rewrite (Hfl o'). }
    change (registered w' o' i id) with (registered w o' i id). lia.
  - intros o' i. rewrite Hwait. apply H5.
  - intros o' i. rewrite Hwait. apply Hrg.
  - simpl. intros o' r2 [[-> <-]|[Hne Hr]]%lookup_insert_Some; [by destruct (H6 _ _ Ho)|eauto].
  - intros o' r2 response Hin2. apply (H7 o'). rewrite (Hfl o'). rewrite Hres in Hin2.
    set_solver.
Qed.

Lemma answers_pos r l : r ∈ l -> (1 <= answers l (rp_replica r) (rp_requestID r))%nat.
Proof.
  intros (l1 & l2 & ->)%list_elem_of_split. rewrite answers_app, answers_cons.
  unfold isAnswer. rewrite !bool_decide_eq_true_2 by done. simpl. lia.
Qed.

(** A result is one that its operation waits for. *)
Lemma result_waited n w o r :
  world_inv n w -> r ∈ inflightOf w o \/ r ∈ resultsOf w o ->
  waitOf w o (rp_replica r) = rp_requestID r /\ rp_requestID r <> 0.
Proof.
  intros Hinv Hin. pose proof (wi_located _ _ Hinv o (rp_replica r) (rp_requestID r)) as Hl.
  unfold located, waited in Hl.
  assert (1 <= answers (inflightOf w o) (rp_replica r) (rp_requestID r) +
    answers (resultsOf w o) (rp_replica r) (rp_requestID r))%nat
    by (destruct Hin as [Hin|Hin]; apply answers_pos in Hin; lia).
  case_decide as Hd; [tauto|lia].
Qed.

Lemma receiveResult_spec n w o r result results :
  world_inv n w -> w_ops w !! o = Some r -> rs_results r = result :: results ->
  receiveResult r = Some (Some (mkResponses results (<[rp_replica result := zeroWait]> (rs_waits r))
    (rs_timeBase r) (pred (rs_remaining r)), result)) /\
  exists wait, rs_waits r !! rp_replica result = Some wait /\ w_requestID wait = rp_requestID result /\
    w_requestID wait <> 0.
Proof.
  intros Hinv Ho Hr. destruct (result_waited n w o result Hinv) as [Hw Hne].
  { right. unfold resultsOf. rewrite Ho. simpl. rewrite Hr. by left. }
  rewrite (waitOf_Some _ _ r) in Hw by done.
  destruct (rs_waits r !! rp_replica result) as [wait|] eqn:Hwait; simpl in Hw; [|done].
  unfold receiveResult, consume. rewrite Hr. simpl. rewrite Hwait. simpl. rewrite decide_False by tauto.
  split; [done|]. exists wait. split_and!; [done..|congruence].
Qed.

Lemma consume_inv n w o r r' result :
  world_inv n w -> w_ops w !! o = Some r -> receiveResult r = Some (Some (r', result)) ->
  world_inv n (putOp w o r').
Proof.
  intros Hinv Ho Hrec. destruct (rs_results r) as [|x results] eqn:Hr; [by unfold receiveResult in Hrec; rewrite Hr in Hrec|].
  destruct (receiveResult_spec n w o r x results Hinv Ho Hr) as (Heq & wait & Hwait & Hid & Hne).
  rewrite Heq in Hrec. injection Hrec as <- <-. pose proof Hinv as [H1 H2 H3 H4 H5 Hrg H6 H7].
  set (r' := mkResponses _ _ _ _).
  destruct (H6 o r Ho) as [Hlen Hrem]. pose proof (lookup_lt_Some _ _ _ Hwait) as Hlt.
  assert (Hw : forall o' i, waitOf (putOp w o r') o' i =
    if decide (o' = o /\ i = rp_replica x) then 0 else waitOf w o' i).
  { intros o' i. by apply (waitOf_insert _ _ r _ _ _ _ wait). }
  assert (Hold : waitOf w o (rp_replica x) = rp_requestID x).
  { rewrite (waitOf_Some _ _ r), Hwait by done. done. }
  split; [done|done|done| | | | |].
  - intros o' i id. unfold located, waited. rewrite Hw, resultsOf_put. simpl.
    specialize (H4 o' i id). unfold located, waited in H4.
    change (registered (putOp w o r') o' i id) with (registered w o' i id).
    change (inflightOf (putOp w o r') o') with (inflightOf w o').
    destruct (decide (o' = o)) as [->|Hno]; [|by rewrite (decide_False (P := _ = _ /\ _)) by tauto].
    unfold resultsOf in H4. rewrite Ho in H4. simpl in H4. rewrite Hr, answers_cons in H4.
    unfold isAnswer in H4. destruct (decide (i = rp_replica x)) as [->|Hi].
    + rewrite (decide_True (P := _ = _ /\ _)) by done. rewrite Hold in H4.
      rewrite bool_decide_eq_true_2 in H4 by done. simpl in H4.
      destruct (decide (id = rp_requestID x)) as [->|Hnid].
      * rewrite bool_decide_eq_true_2 in H4 by done. rewrite (decide_True (P := _ /\ _)) in H4 by (split; congruence).
        rewrite decide_False by naive_solver. lia.
      * rewrite bool_decide_eq_false_2 in H4 by congruence. rewrite decide_False in H4 by naive_solver.
        rewrite decide_False by naive_solver. lia.
    + rewrite bool_decide_eq_false_2 in H4 by congruence. simpl in H4.
      by rewrite (decide_False (P := _ = _ /\ _)) by tauto.
  - intros o' i. rewrite Hw. case_decide; [simpl; lia|apply H5].
  - intros o' i. rewrite Hw. case_decide; [done|apply Hrg].
  - simpl. intros o' r2 [[<- <-]|[Hno Hr2]]%lookup_insert_Some; [|eauto]. simpl. split; [by rewrite length_insert|].
    pose proof (outstanding_insert r results (rs_timeBase r) (pred (rs_remaining r)) _ wait zeroWait Hwait) as Hout.
    rewrite decide_True in Hout by done. rewrite (decide_False (P := w_requestID zeroWait <> 0)) in Hout by (simpl; tauto).
    unfold r'. lia.
  - intros o' r2 response Hin. apply (H7 o'). destruct Hin as [Hin|Hin]; [by left|right].
    rewrite resultsOf_put in Hin. case_decide as Hd; [|done]. subst. unfold resultsOf. rewrite Ho. simpl.
    rewrite Hr. by right.
Qed.

Lemma outstanding_zero r : outstanding r = 0%nat -> forall i, from_option w_requestID 0 (rs_waits r !! i) = 0.
Proof.
  unfold outstanding. intros Hz i. destruct (rs_waits r !! i) as [wait|] eqn:Hi; [simpl|done].
  destruct (decide (w_requestID wait = 0)) as [|Hne]; [done|]. exfalso.
  apply nil_length_inv in Hz. assert (Hin : wait ∈ filter (fun x => w_requestID x <> 0) (rs_waits r)).
  { apply list_elem_of_filter. split; [done|]. by eapply list_elem_of_lookup_2. }
  rewrite Hz in Hin. by apply elem_of_nil in Hin.
Qed.

Lemma release_inv n w o r r' :
  world_inv n w -> w_ops w !! o = Some r -> releaseResponses r = Some r' ->
  world_inv n (mkWorld (w_next w) (w_replicas w) (delete o (w_ops w)) (w_inflight w)).
Proof.
  intros Hinv Ho Hrel. pose proof Hinv as [H1 H2 H3 H4 H5 Hrg H6 H7].
  unfold releaseResponses in Hrel. case_decide as Hd; [done|]. clear Hrel.
  destruct (H6 o r Ho) as [_ Hrem]. assert (Hout : outstanding r = 0%nat) by lia.
  set (w' := mkWorld _ _ _ _).
  assert (Hw : forall o' i, waitOf w' o' i = waitOf w o' i).
  { intros o' i. unfold waitOf. simpl. destruct (decide (o' = o)) as [->|Hne].
    - rewrite lookup_delete_eq, Ho. simpl. by rewrite outstanding_zero.
    - by rewrite lookup_delete_ne. }
  assert (Hres : forall o', resultsOf w' o' = resultsOf w o').
  { intros o'. unfold resultsOf. simpl. destruct (decide (o' = o)) as [->|Hne].
    - rewrite lookup_delete_eq, Ho. simpl. destruct (rs_results r); [done|]. simpl in Hd. lia.
    - by rewrite lookup_delete_ne. }
  split; [done|done|done| | | | |].
  - intros o' i id. unfold located, waited. rewrite Hw, Hres. apply H4.
  - intros o' i. rewrite Hw. apply H5.
  - intros o' i. rewrite Hw. apply Hrg.
  - simpl. intros o' r2 [_ Hr2]%lookup_delete_Some. eauto.
  - intros o' r2 response. rewrite Hres. apply H7.
Qed.

Lemma fresh_request n w i c id :
  world_inv n w -> w_replicas w !! i = Some c -> w_next w < id -> pendingOf c id = None.
Proof.
  intros Hinv Hc Hid. destruct (pendingOf c id) as [o|] eqn:Hp; [exfalso|done].
  pose proof (wi_located _ _ Hinv o i id) as Hl. pose proof (wi_ids _ _ Hinv o i) as Hb.
  unfold located, waited, registered in Hl. rewrite Hc, Hp, decide_True in Hl by done.
  case_decide as Hd; lia.
Qed.

Lemma next_inv n w id :
  world_inv n w -> w_next w <= id < 2 ^ 64 -> world_inv n (mkWorld id (w_replicas w) (w_ops w) (w_inflight w)).
Proof.
  intros [H1 H2 H3 H4 H5 Hrg H6 H7] Hid. split; simpl; [lia|done..| |done|done|done].
  intros o i. specialize (H5 o i). unfold waitOf in *. simpl. lia.
Qed.

(** Only the time base of an operation changes. *)
Lemma timeBase_inv n w o r r' :
  world_inv n w -> w_ops w !! o = Some r ->
  rs_results r' = rs_results r -> rs_waits r' = rs_waits r -> rs_remaining r' = rs_remaining r ->
  world_inv n (putOp w o r').
Proof.
  intros [H1 H2 H3 H4 H5 Hrg H6 H7] Ho Hr1 Hr2 Hr3.
  assert (Hw : forall o' i, waitOf (putOp w o r') o' i = waitOf w o' i).
  { intros o' i. rewrite waitOf_put. case_decide as Hd; [|done]. subst. by rewrite (waitOf_Some _ _ r), Hr2. }
  assert (Hres : forall o', resultsOf (putOp w o r') o' = resultsOf w o').
  { intros o'. rewrite resultsOf_put. case_decide as Hd; [|done]. subst. unfold resultsOf. by rewrite Ho, Hr1. }
  split; [done|done|done| | | | |].
  - intros o' i id. unfold located, waited. rewrite Hw, Hres. apply H4.
  - intros o' i. rewrite Hw. apply H5.
  - intros o' i. rewrite Hw. apply Hrg.
  - simpl. intros o' r2 [[<- <-]|[_ Hr]]%lookup_insert_Some; [|eauto].
    destruct (H6 o r Ho). unfold outstanding in *. by rewrite Hr2, Hr3.
  - intros o' r2 response. rewrite Hres. apply H7.
Qed.

(** A new request [id] is registered and waited for. *)
Lemma register_inv n w o i c c' r wait expiry id :
  world_inv n w -> w_ops w !! o = Some r -> w_replicas w !! i = Some c ->
  rs_waits r !! i = Some wait -> w_requestID wait = 0 -> w_next w < id < 2 ^ 64 -> replica_ok i c' ->
  (forall id', pendingOf c' id' = if decide (id' = id) then Some o else pendingOf c id') ->
  world_inv n (mkWorld id (<[i := c']> (w_replicas w))
    (<[o := mkResponses (rs_results r) (<[i := mkWait id expiry]> (rs_waits r)) (rs_timeBase r)
              (S (rs_remaining r))]> (w_ops w)) (w_inflight w)).
Proof.
  intros Hinv Ho Hi Hwait Hzero Hid Hc' Hp. pose proof Hinv as [H1 H2 H3 H4 H5 Hrg H6 H7].
  set (r' := mkResponses _ _ _ _). set (w' := mkWorld _ _ _ _).
  destruct (H6 o r Ho) as [Hlen Hrem]. pose proof (lookup_lt_Some _ _ _ Hwait) as Hlt.
  pose proof (fresh_request n w i c id Hinv Hi ltac:(lia)) as Hfresh.
  assert (Hold : waitOf w o i = 0) by by rewrite (waitOf_Some _ _ r), Hwait.
  assert (Hw : forall o' j, waitOf w' o' j = if decide (o' = o /\ j = i) then id else waitOf w o' j).
  { intros o' j. by apply (waitOf_insert w _ r _ _ _ _ wait (mkWait id expiry)). }
  assert (Hres : forall o', resultsOf w' o' = resultsOf w o').
  { intros o'. change (resultsOf w' o') with (resultsOf (putOp w o r') o'). rewrite resultsOf_put.
    case_decide as Hd; [|done]. subst. unfold resultsOf. by rewrite Ho. }
  split; [simpl; lia|simpl; by rewrite length_insert| | | | | |].
  - by apply (replicas_put n w i c c').
  - intros o' j id'. unfold located, waited. rewrite Hw, Hres. specialize (H4 o' j id'). unfold located, waited in H4.
    change (registered w' o' j id') with (registered (putReplica w i c') o' j id').
    change (inflightOf w' o') with (inflightOf w o'). rewrite (registered_put _ _ c) by done.
    destruct (decide (j = i)) as [->|Hj]; [|by rewrite (decide_False (P := _ = _ /\ _)) by tauto].
    rewrite Hp. unfold registered in H4. rewrite Hi in H4.
    destruct (decide (id' = id)) as [->|Hne].
    + rewrite Hfresh in H4. rewrite (decide_False (P := None = _)) in H4 by done.
      assert (waitOf w o' i <> id) by (pose proof (H5 o' i); lia).
      rewrite (decide_False (P := _ /\ _)) in H4 by tauto.
      destruct (decide (o' = o)) as [->|Hno].
      * rewrite (decide_True (P := Some o = _)), (decide_True (P := _ = _ /\ _)), decide_True by (done || split; lia).
        lia.
      * rewrite (decide_False (P := Some o = _)), (decide_False (P := _ = _ /\ _)), decide_False by (congruence || tauto).
        lia.
    + destruct (decide (o' = o)) as [->|Hno].
      * rewrite (decide_True (P := _ = _ /\ _)) by done. rewrite Hold in H4.
        rewrite (decide_False (P := id' <> 0 /\ 0 = id')) in H4 by lia. rewrite (decide_False (P := _ /\ _)) by naive_solver. done.
      * by rewrite (decide_False (P := _ = _ /\ _)) by tauto.
  - intros o' j. rewrite Hw. simpl. specialize (H5 o' j). case_decide; lia.
  - intros o' j. rewrite Hw. case_decide as Hd; [|apply Hrg]. destruct Hd as [_ ->]. intros _.
    rewrite <- H2. by eapply lookup_lt_Some.
  - simpl. intros o' r2 [[<- <-]|[_ Hr2]]%lookup_insert_Some; [|eauto]. simpl. split; [by rewrite length_insert|].
    pose proof (outstanding_insert r (rs_results r) (rs_timeBase r) (S (rs_remaining r)) i wait
      (mkWait id expiry) Hwait) as Hout.
    rewrite decide_False in Hout by tauto. rewrite (decide_True (P := w_requestID (mkWait id expiry) <> 0)) in Hout by (simpl; lia).
    unfold r'. lia.
  - intros o' r2 response. rewrite Hres. apply H7.
Qed.

Lemma waitsFrom_In k waits chosen i id :
  (i, id) ∈ waitsFrom k waits chosen ->
  exists j wait, i = (k + j)%nat /\ waits !! j = Some wait /\ w_requestID wait = id /\ id <> 0.
Proof.
  revert k. induction waits as [|wait waits IH]; intros k; simpl; [by intros ?%elem_of_nil|].
  rewrite elem_of_app. intros [Hin|Hin].
  - destruct (bool_decide _) eqn:Hb; [|by apply elem_of_nil in Hin]. apply bool_decide_eq_true in Hb.
    destruct (chosen wait); [|by apply elem_of_nil in Hin].
    apply list_elem_of_singleton in Hin as [= -> ->]. exists 0%nat, wait. split_and!; [lia|done..].
  - destruct (IH (S k) Hin) as (j & wt & -> & Hj & Hid & Hne). exists (S j), wt. split_and!; [lia|done..].
Qed.

Lemma waitsFrom_range n w o r chosen :
  world_inv n w -> w_ops w !! o = Some r -> Forall (fun x => x.1 < n)%nat (waitsFrom 0 (rs_waits r) chosen).
Proof.
  intros Hinv Ho. apply list.Forall_forall. intros [i id] Hin.
  apply waitsFrom_In in Hin as (j & wait & -> & Hj & Hid & Hne). simpl.
  apply (wi_range _ _ Hinv o j). by rewrite (waitOf_Some _ _ r), Hj by done; simpl; rewrite Hid.
Qed.

Lemma submitAt_inv n w o i r wait ctxErr timeout now request :
  world_inv n w -> w_ops w !! o = Some r -> rs_waits r !! i = Some wait -> w_requestID wait = 0 ->
  w_next w + 1 < 2 ^ 64 -> (forall id, req_requestID (request id) = id) -> (i < n)%nat ->
  exists w' err, submitAt w o i ctxErr timeout now request = Some (w', err) /\ world_inv n w'.
Proof.
  intros Hinv Ho Hwait Hzero Hnext Hreq Hi. pose proof (wi_next _ _ Hinv) as Hn.
  rewrite <- (wi_count _ _ Hinv) in Hi. apply lookup_lt_is_Some_2 in Hi as [c Hc].
  assert (Hid : u64 (w_next w + 1) = w_next w + 1) by (apply u64_small; in_range).
  destruct (submit_spec i c ctxErr (request (w_next w + 1)) o) as (c' & err & Hsub & Hok & Hp).
  { by apply (wi_replicas _ _ Hinv). }
  { rewrite Hreq. apply (fresh_request n w i c); [done|done|lia]. }
  rewrite Hreq in Hp.
  assert (Hbase : rs_results (submitTimeBase r now) = rs_results r /\ rs_waits (submitTimeBase r now) = rs_waits r /\
    rs_remaining (submitTimeBase r now) = rs_remaining r) by (unfold submitTimeBase; by case_decide).
  destruct Hbase as (Hb1 & Hb2 & Hb3).
  unfold submitAt. rewrite Ho, Hc. simpl. rewrite Hid, Hsub. simpl.
  destruct err as [e|]; eexists _, _; (split; [done|]).
  - assert (Hinv1 : world_inv n (putReplica w i c')).
    { eapply quiet_replica_inv; [done..|]. intros id. rewrite Hp. by rewrite decide_False by naive_solver. }
    apply (timeBase_inv _ _ o r (submitTimeBase r now)) in Hinv1; [|done..].
    by apply (next_inv _ _ (w_next w + 1)) in Hinv1; [|simpl; lia].
  - apply (timeBase_inv _ _ o r (submitTimeBase r now)) in Hinv; [|done..].
    eapply (register_inv n _ o i c c' (submitTimeBase r now) wait _ (w_next w + 1)) in Hinv;
      [|by simpl; rewrite lookup_insert_eq|done|by rewrite Hb2|done|simpl; lia|done|].
    + exact Hinv.
    + intros id. rewrite Hp. apply decide_ext. naive_solver.
Qed.

(** Queue and lifecycle operations of a replica leave its pending calls alone. *)
Lemma quiet_ok i c c' :
  replica_ok i c -> rc_pending c' = rc_pending c -> rc_index c' = rc_index c ->
  (rc_ctxDone c' = false -> rc_ctxDone c = false) ->
  replica_ok i c' /\ forall id, pendingOf c' id = pendingOf c id.
Proof.
  intros [H1 H2 H3 H4 H5] Hp Hi Hc. split.
  - split; rewrite ?Hp, ?Hi; eauto.
  - intros id. unfold pendingOf. by rewrite Hp.
Qed.

Lemma quiet_step n w i c c' :
  w_replicas w !! i = Some c -> world_inv n w -> rc_pending c' = rc_pending c -> rc_index c' = rc_index c ->
  (rc_ctxDone c' = false -> rc_ctxDone c = false) -> world_inv n (putReplica w i c').
Proof.
  intros Hi Hinv Hp Hx Hc. destruct (quiet_ok i c c') as [Hok Hs]; [by eapply wi_replicas|done..|].
  by eapply quiet_replica_inv.
Qed.

Lemma submitNoResponse_inv n w i c request c' err :
  w_replicas w !! i = Some c -> w_next w + 1 < 2 ^ 64 -> submitNoResponse c request = (c', err) ->
  world_inv n w ->
  world_inv n (mkWorld (u64 (w_next w + 1)) (<[i := c']> (w_replicas w)) (w_ops w) (w_inflight w)).
Proof.
  intros Hi Hn Hs Hinv.
  assert (Hq : rc_pending c' = rc_pending c /\ rc_index c' = rc_index c /\ rc_ctxDone c' = rc_ctxDone c).
  { unfold submitNoResponse in Hs. destruct (rc_ctxDone c) eqn:Hx; [by injection Hs as <- _|].
    destruct (enqueueRequest c request) as [c1 b] eqn:He. apply enqueueRequest_pending in He.
    destruct b; injection Hs as <- _; naive_solver. }
  destruct Hq as (Hq1 & Hq2 & Hq3).
  apply (quiet_step _ _ i c c') in Hinv as Hinv1; [|done..|congruence].
  pose proof (wi_next _ _ Hinv). rewrite u64_small by in_range.
  by apply (next_inv _ _ (w_next w + 1)) in Hinv1; [|simpl; lia].
Qed.

Lemma enqueueResponse_inv n w i c response c' :
  w_replicas w !! i = Some c -> enqueueResponse c response = Some c' -> world_inv n w ->
  world_inv n (putReplica w i c').
Proof.
  intros Hi He Hinv. assert (Hok := wi_replicas _ _ Hinv i c Hi).
  unfold enqueueResponse in He. destruct (rc_pending c !! _) as [shard|] eqn:Hj; simpl in He; [|done].
  case_decide; [|done]. injection He as <-.
  destruct (replica_ok_responses i c _ shard (ps_responses shard ++ [response]) Hok Hj) as [Hok1 Hs].
  { intros r [Hin| ->%list_elem_of_singleton]%elem_of_app; [|done]. by eapply (ro_responses _ _ Hok). }
  by eapply quiet_replica_inv.
Qed.

Lemma completeResponses_inv n w i c shard c' found :
  w_replicas w !! i = Some c -> completeResponses c shard = Some (c', found) -> world_inv n w ->
  world_inv n (addInflight (putReplica w i c')
    (match found with
     | Some (o, response) => [(o, mkReplicaResponse (rc_index c) (RequestID response) (inr response))]
     | None => []
     end)).
Proof.
  intros Hi Hc Hinv. assert (Hok := wi_replicas _ _ Hinv i c Hi).
  destruct (completeResponses_spec i c shard c' found Hok Hc) as (Hok1 & Hx & Hfound).
  destruct found as [[o resp]|].
  - destruct Hfound as [Ho Hp]. rewrite (ro_index _ _ Hok).
    apply (move_one_inv n w i c c' (RequestID resp) (Some o) (inr resp)); try done. by intros ? [= ->].
  - unfold addInflight. simpl. rewrite app_nil_r. by eapply quiet_replica_inv.
Qed.

Lemma failPending_inv n w i c c' l :
  w_replicas w !! i = Some c -> rc_ctxDone c = true -> failPending c = (c', l) -> world_inv n w ->
  world_inv n (addInflight (putReplica w i c')
    ((fun e => (e.2, mkReplicaResponse (rc_index c) e.1 (inl errReplicaUnavailable))) <$> l)).
Proof.
  intros Hi Hctx Hf Hinv. assert (Hok := wi_replicas _ _ Hinv i c Hi).
  destruct (failPending_spec i c c' l Hok Hctx Hf) as (Hok1 & Hnone & Hnd & Hl).
  rewrite (ro_index _ _ Hok).
  apply (move_inv n w i c c' l (fun _ => inl errReplicaUnavailable)); [done..| | |done].
  - intros id o. by rewrite Hl.
  - intros id. rewrite Hnone. case_decide as Hd; [done|].
    destruct (pendingOf c id) as [o|] eqn:Ho; [|done]. exfalso. apply Hd. apply Hl in Ho.
    apply list_elem_of_fmap. by exists (id, o).
Qed.

Lemma world_step_inv n w w' : world_step w w' -> world_inv n w -> world_inv n w'.
Proof.
  intros Hstep Hinv. destruct Hstep as
    [w o Ho|w o i r wait ce rt now req w' err Ho Hwait Hz Hn Hreq Hsub|w i c req c' err Hi Hn Hs|w i c resp c' Hi He
    |w i c j c' found Hi Hc|w l1 l2 o res r Hl Ho _|w o r r' res Ho Hr|w o r now w' Ho Hc|w o r e w' Ho Hc|w o r r' Ho Hr
    |w i c c' q Hi Hd|w i c g Hi|w i c g Hi|w i c Hi|w i c Hi Hctx|w i c c' l Hi Hctx Hf|w i c Hi].
  - by apply new_inv.
  - assert (Hi : (i < n)%nat).
    { unfold submitAt in Hsub. rewrite Ho in Hsub. simpl in Hsub. rewrite <- (wi_count _ _ Hinv).
      apply lookup_lt_is_Some. destruct (w_replicas w !! i); [by eexists|done]. }
    destruct (submitAt_inv n w o i r wait ce rt now req) as (w1 & e1 & Hs1 & Hinv1); [done..|].
    rewrite Hs1 in Hsub. by injection Hsub as <- <-.
  - by eapply submitNoResponse_inv.
  - by eapply enqueueResponse_inv.
  - by eapply completeResponses_inv.
  - by apply deliverResult_inv.
  - by eapply consume_inv.
  - destruct (completeAll_inv n w (expiredWaits r now) errDeadlineExceeded) as (w1 & Hw1 & Hinv1);
      [done|by eapply waitsFrom_range|]. rewrite Hw1 in Hc. by injection Hc as <-.
  - destruct (completeAll_inv n w (abortedWaits r) e) as (w1 & Hw1 & Hinv1);
      [done|by eapply waitsFrom_range|]. rewrite Hw1 in Hc. by injection Hc as <-.
  - by eapply release_inv.
  - eapply quiet_step; [done|done|..]; unfold dequeueRequest in Hd;
      destruct (rc_reqQueue c); by injection Hd as <- _.
  - eapply quiet_step; [done|done|..]; unfold publish; by destruct (rc_closed c).
  - eapply quiet_step; [done|done|..]; unfold clear; by case_decide.
  - by eapply quiet_step.
  - by eapply quiet_step.
  - by eapply failPending_inv.
  - by eapply quiet_step.
Qed.

Lemma world_reachable_inv n w : world_reachable n w -> world_inv n w.
Proof.
  induction 1 as [|w w' _ IH Hs]; [|by eapply world_step_inv].
  split; simpl; [lia|by rewrite length_fmap, length_seq|..].
  - intros i c Hi. apply list_lookup_fmap_Some in Hi as (j & -> & [-> _]%lookup_seq).
    split; simpl; [done|done|..].
    + intros k sh p id [-> _]%lookup_replicate_1 [= <-]. rewrite lookup_empty. by intros [? ?].
    + intros _ k sh [-> _]%lookup_replicate_1. by eexists.
    + intros k sh r [-> _]%lookup_replicate_1. simpl. by intros ?%elem_of_nil.
  - intros o i id. unfold located, waited, registered, inflightOf, resultsOf, waitOf. simpl.
    rewrite lookup_empty. simpl.
    assert (Hz : match (newReplicaConn <$> seq 0 n) !! i with
      | Some c => if decide (pendingOf c id = Some o) then 1%nat else 0%nat | None => 0%nat end = 0%nat).
    { destruct ((newReplicaConn <$> seq 0 n) !! i) as [c|] eqn:Hi; [|done].
      apply list_lookup_fmap_Some in Hi as (j & -> & _). rewrite decide_False; [done|].
      unfold pendingOf. simpl. destruct (newPendingShards !! pendingShardIndex id) as [sh|] eqn:Hsh; [|done].
      apply lookup_replicate_1 in Hsh as [-> _]. simpl. by rewrite lookup_empty. }
    rewrite Hz. rewrite decide_False by lia. done.
  - intros o i. unfold waitOf. simpl. rewrite lookup_empty. simpl. lia.
  - intros o i. unfold waitOf. simpl. by rewrite lookup_empty.
  - intros o r. by rewrite lookup_empty.
  - intros o r response. unfold inflightOf, resultsOf. simpl. rewrite lookup_empty. simpl.
    intros [?%elem_of_nil|?%elem_of_nil]; done.
Qed.

(** ** Capacity *)

Lemma answers_NoDup (l : list replicaResponse) (f : nat -> Z) :
  (forall r, r ∈ l -> rp_requestID r = f (rp_replica r)) -> (forall i id, answers l i id <= 1)%nat ->
  NoDup (rp_replica <$> l).
Proof.
  induction l as [|r l IH]; intros Hf Ha; simpl; [constructor|]. apply list.NoDup_cons. split.
  - intros (r' & Heq & Hin)%list_elem_of_fmap. specialize (Ha (rp_replica r) (rp_requestID r)).
    rewrite answers_cons in Ha. unfold isAnswer in Ha. rewrite !bool_decide_eq_true_2 in Ha by done. simpl in Ha.
    apply answers_pos in Hin as Hpos. rewrite <- Heq, (Hf r') in Hpos by by right.
    rewrite <- Heq, <- (Hf r) in Hpos by by left. lia.
  - apply IH; [intros; apply Hf; by right|]. intros i id. specialize (Ha i id).
    rewrite answers_cons in Ha. lia.
Qed.

Lemma operation_exists w o i : waitOf w o i <> 0 -> exists r wait,
  w_ops w !! o = Some r /\ rs_waits r !! i = Some wait /\ w_requestID wait = waitOf w o i.
Proof.
  unfold waitOf. destruct (w_ops w !! o) as [r|]; simpl; [|done].
  destruct (rs_waits r !! i) as [wait|] eqn:Hw; simpl; [|done]. intros _. by exists r, wait.
Qed.

Lemma results_bounded n w o :
  world_inv n w -> (length (inflightOf w o ++ resultsOf w o) <= maxServerCount)%nat.
Proof.
  intros Hinv. rewrite <- (length_fmap rp_replica). rewrite <- (length_seq maxServerCount 0).
  apply submseteq_length, NoDup_submseteq.
  - apply (answers_NoDup _ (waitOf w o)).
    + intros r Hin%elem_of_app. symmetry. by apply (result_waited n w o r).
    + intros i id. rewrite answers_app. pose proof (wi_located _ _ Hinv o i id) as Hl.
      unfold located, waited in Hl. case_decide; lia.
  - intros i (r & -> & Hin%elem_of_app)%list_elem_of_fmap.
    destruct (result_waited n w o r Hinv Hin) as [Hw Hne].
    destruct (operation_exists w o (rp_replica r)) as (op & wait & Hop & Hwait & _); [congruence|].
    apply elem_of_seq. apply lookup_lt_Some in Hwait. rewrite (proj1 (wi_waits _ _ Hinv o op Hop)) in Hwait. lia.
Qed.

(** ** Completing *)

Lemma completeAt_registered n w i id e w' :
  world_inv n w -> completeAt w i id (inl e) = Some w' ->
  w_ops w' = w_ops w /\ (forall o, registered w' o i id = 0%nat) /\
  forall o j id', (registered w' o j id' <= registered w o j id')%nat.
Proof.
  intros Hinv. unfold completeAt. destruct (w_replicas w !! i) as [c|] eqn:Hi; simpl; [|done].
  destruct (complete_spec i c id) as (c' & -> & _ & _ & Hp); [by eapply wi_replicas|]. simpl. intros [= <-].
  assert (Hreg : forall o j id', registered (addInflight (putReplica w i c')
    (match pendingOf c id with
     | Some o => [(o, mkReplicaResponse (rc_index c') id (inl e))] | None => [] end)) o j id' =
    if decide (j = i) then if decide (pendingOf c' id' = Some o) then 1%nat else 0%nat
    else registered w o j id').
  { intros o j id'. etrans; [|by apply (registered_put w i c c' o j id')]. done. }
  split_and!; [done| |].
  - intros o. rewrite Hreg, decide_True by done. case_decide as Hd; [|done].
    by rewrite Hp, decide_True in Hd by done.
  - intros o j id'. rewrite Hreg. case_decide as Hd; [|done]. subst. unfold registered. rewrite Hi, Hp.
    destruct (decide (id' = id)); [|done]. repeat case_decide; lia || done.
Qed.

Lemma completeAll_registered n w l e w' :
  world_inv n w -> Forall (fun x => x.1 < n)%nat l -> completeAll w l e = Some w' ->
  w_ops w' = w_ops w /\ (forall o i id, (i, id) ∈ l -> registered w' o i id = 0%nat) /\
  forall o j id', (registered w' o j id' <= registered w o j id')%nat.
Proof.
  revert w. induction l as [|[i id] l IH]; intros w Hinv Hl; simpl.
  { intros [= <-]. split_and!; [done| |done]. by intros o i id ?%elem_of_nil. }
  apply list.Forall_cons in Hl as [Hi Hl]. simpl in Hi.
  destruct (completeAt_inv n w i id e Hinv Hi) as (w1 & Hw1 & Hinv1). rewrite Hw1. simpl.
  intros Hall. destruct (completeAt_registered n w i id e w1 Hinv Hw1) as (Ho1 & Hz & Hm1).
  destruct (IH w1 Hinv1 Hl Hall) as (Ho2 & Hz2 & Hm2). split_and!; [congruence| |].
  - intros o j id' Hin. apply elem_of_cons in Hin as [[= -> ->]|Hin]; [|by apply Hz2].
    specialize (Hm2 o i id). rewrite Hz in Hm2. lia.
  - intros o j id'. specialize (Hm1 o j id'). specialize (Hm2 o j id'). lia.
Qed.

(** An answer to request [id] of replica [i] is with operation [o] or on its way
    to it. *)
Definition answered (w : world) (o i : nat) (id : Z) : Prop :=
  exists r, (r ∈ inflightOf w o \/ r ∈ resultsOf w o) /\ rp_replica r = i /\ rp_requestID r = id.

Lemma answers_In l i id : (1 <= answers l i id)%nat -> exists r, r ∈ l /\ rp_replica r = i /\ rp_requestID r = id.
Proof.
  unfold answers. destruct (filter _ l) as [|r k] eqn:Hf; simpl; [lia|]. intros _. exists r.
  assert (Hin : r ∈ filter (fun r => isAnswer i id r = true) l) by (rewrite Hf; by left).
  apply list_elem_of_filter in Hin as [Ha Hin]. unfold isAnswer in Ha.
  apply andb_true_iff in Ha as [H1%bool_decide_eq_true H2%bool_decide_eq_true]. done.
Qed.

Lemma unregistered_answered n w o i id :
  world_inv n w -> id <> 0 -> waitOf w o i = id -> registered w o i id = 0%nat -> answered w o i id.
Proof.
  intros Hinv Hne Hw Hr. pose proof (wi_located _ _ Hinv o i id) as Hl. unfold located, waited in Hl.
  rewrite Hr, decide_True in Hl by done. unfold answered.
  destruct (decide (answers (inflightOf w o) i id = 0%nat)) as [Hz|Hnz].
  - destruct (answers_In (resultsOf w o) i id) as (r & ? & ? & ?); [lia|]. eauto 6.
  - destruct (answers_In (inflightOf w o) i id) as (r & ? & ? & ?); [lia|]. eauto 6.
Qed.

(** ** A small world for the witnesses *)

Definition demoRequest (id : Z) : outboundConnectionRequest :=
  mkOutbound id 77 5 3000 12 99 ClientOperationACQUIRE.

Definition demoWorld1 : world := putOp (startWorld 3) 0 acquireReplicaResponses.

(** Operation 0 has submitted one request to replica 1. *)
Definition demoWorld2 : world :=
  match submitAt demoWorld1 0 1 None Second 1000 demoRequest with
  | Some (w, _) => w
  | None => demoWorld1
  end.

(** The same after the timeout of the request. *)
Definition demoWorld3 : world :=
  match w_ops demoWorld2 !! 0%nat with
  | Some r =>
      default demoWorld2 (completeAll demoWorld2 (expiredWaits r (1000 + 2 * Second)) errDeadlineExceeded)
  | None => demoWorld2
  end.

Lemma demoWorld1_reachable : world_reachable 3 demoWorld1.
Proof. eapply wr_step; [apply wr_start|]. by apply ws_new. Qed.

Lemma demoWorld2_reachable : world_reachable 3 demoWorld2.
Proof.
  eapply wr_step; [apply demoWorld1_reachable|].
  eapply (ws_submit _ 0 1 acquireReplicaResponses zeroWait None Second 1000 demoRequest _ None);
    [done|done|done|vm_compute; done|done|vm_compute; reflexivity].
Qed.

(** ** Theorems *)

(** C5: every call is answered exactly once. In every reachable state of all
    connections and operations of a client, whatever responses arrive, in
    whatever order and however often: an operation waits for a request at a
    replica if and only if that call is registered, being sent or received,
    and then it is so in exactly one of these places; an answer always is the
    one its operation waits for at that replica, and a response of the server
    carries the identifier of the request it answers. *)
Theorem calls_answered_once n w o i id :
  world_reachable n w ->
  located w o i id = waited w o i id /\
  (forall r, r ∈ inflightOf w o \/ r ∈ resultsOf w o ->
     waitOf w o (rp_replica r) = rp_requestID r /\
     forall response, rp_result r = inr response -> RequestID response = rp_requestID r).
Proof.
  intros Hinv%world_reachable_inv. split; [by apply (wi_located _ _ Hinv)|].
  intros r Hin. split; [by apply (result_waited n w o r)|]. intros response. by apply (wi_match _ _ Hinv o).
Qed.

Lemma calls_answered_once_witness :
  located demoWorld2 0 1 1 = 1%nat /\ waited demoWorld2 0 1 1 = 1%nat /\
  located demoWorld3 0 1 1 = 1%nat /\ registered demoWorld3 0 1 1 = 0%nat.
Proof.
  assert (H := calls_answered_once 3 demoWorld2 0 1 1 demoWorld2_reachable).
  split; [rewrite (proj1 H)|]; vm_compute; done.
Defined.

(** The internal checks of the client never fire and nothing blocks. In
    every reachable state an operation can submit to every replica it does not
    wait for, without writing to a nil map; whatever result it receives passes
    the check of [consume]; when nothing is outstanding, [release] finds the
    object clean; the loops of [expireResponses] and [abort] complete; and a
    goroutine that holds a result finds room in the channel of its operation. *)
Theorem client_checks_never_fire n w o r :
  world_reachable n w -> w_ops w !! o = Some r ->
  (forall i wait ctxErr timeout now request,
     (i < n)%nat -> rs_waits r !! i = Some wait -> w_requestID wait = 0 -> w_next w + 1 < 2 ^ 64 ->
     (forall id, req_requestID (request id) = id) ->
     is_Some (submitAt w o i ctxErr timeout now request)) /\
  receiveResult r <> Some None /\
  (rs_remaining r = 0%nat -> is_Some (releaseResponses r) /\ inflightOf w o = []) /\
  (forall now e, is_Some (completeAll w (expiredWaits r now) e) /\ is_Some (completeAll w (abortedWaits r) e)) /\
  (inflightOf w o <> [] -> (length (rs_results r) < maxServerCount)%nat).
Proof.
  intros Hinv%world_reachable_inv Ho. pose proof (results_bounded n w o Hinv) as Hlen.
  assert (Hres : resultsOf w o = rs_results r) by (unfold resultsOf; by rewrite Ho).
  rewrite length_app, Hres in Hlen. split_and!.
  - intros i wait ce timeout now request Hi Hwait Hz Hn Hreq.
    destruct (submitAt_inv n w o i r wait ce timeout now request) as (w' & err & -> & _); [done..|]. by eexists.
  - destruct (rs_results r) as [|result results] eqn:Hr; [unfold receiveResult; by rewrite Hr|].
    destruct (receiveResult_spec n w o r result results Hinv Ho Hr) as [-> _]. done.
  - intros Hrem. destruct (wi_waits _ _ Hinv o r Ho) as [_ Hout]. rewrite Hrem in Hout.
    assert (Hz : forall i, waitOf w o i = 0).
    { intros i. rewrite (waitOf_Some _ _ r) by done. by apply outstanding_zero. }
    assert (Hno : forall x, ~ (x ∈ inflightOf w o \/ x ∈ resultsOf w o)).
    { intros x Hx. apply (result_waited n w o x Hinv) in Hx as [Hw Hne]. rewrite Hz in Hw. congruence. }
    assert (Hnil : rs_results r = []).
    { destruct (rs_results r) as [|x l]; [done|]. exfalso. apply (Hno x). right. rewrite Hres. by left. }
    split.
    + unfold releaseResponses. rewrite decide_False; [by eexists|]. rewrite Hnil. simpl. lia.
    + destruct (inflightOf w o) as [|x l]; [done|]. exfalso. apply (Hno x). left. by left.
  - intros now e. split.
    + destruct (completeAll_inv n w (expiredWaits r now) e) as (w' & -> & _);
        [done|by eapply waitsFrom_range|by eexists].
    + destruct (completeAll_inv n w (abortedWaits r) e) as (w' & -> & _);
        [done|by eapply waitsFrom_range|by eexists].
  - destruct (inflightOf w o); simpl in *; [done|]. lia.
Qed.

Lemma client_checks_never_fire_witness :
  exists r, w_ops demoWorld2 !! 0%nat = Some r /\ rs_remaining r = 1%nat /\
    is_Some (submitAt demoWorld2 0 2 None Second 2000 demoRequest) /\
    is_Some (completeAll demoWorld2 (expiredWaits r (3 * Second)) errDeadlineExceeded).
Proof.
  destruct (w_ops demoWorld2 !! 0%nat) as [r|] eqn:Hr; [|vm_compute in Hr; done].
  destruct (client_checks_never_fire 3 demoWorld2 0 r demoWorld2_reachable Hr) as (H1 & _ & _ & H2 & _).
  exists r. split_and!; [done| | |apply H2].
  - vm_compute in Hr. injection Hr as <-. reflexivity.
  - apply (H1 2%nat zeroWait); [lia| |done|vm_compute; done|done].
    vm_compute in Hr. injection Hr as <-. reflexivity.
Defined.


