(* ===== verification/Generation.v ===== *)
(** * What one TCP connection sends (src/client/connection_generation.go)

    The writer goroutine of a connection takes requests from the queue that
    outlives it, encodes them one after the other and hands them to the socket
    in batches. *)

From S2P Require Import Prelude Protocol Quorum Wire Codec Frame Client Replica.
From stdpp Require Import base gmap list numbers relations tactics.

#[local] Open Scope Z_scope.

Section Generation.
Context `{FlatBuffers}.

(** A connection with its replica; the third component records every request
    that was in the queue when the connection started or came later. *)
Inductive generation_step : replicaConn * connectionGeneration * list outboundConnectionRequest ->
    replicaConn * connectionGeneration * list outboundConnectionRequest -> Prop :=
  | gs_send ok ok2 c g h c' g' : sendRequests ok ok2 c g = Some (c', g') -> generation_step (c, g, h) (c', g', h)
  | gs_receive c g h c' g' : receiveResponses c g = Some (c', g') -> generation_step (c, g, h) (c', g', h)
  | gs_enqueue c g h request c' :
      enqueueRequest c request = (c', true) -> generation_step (c, g, h) (c', g, h ++ [request])
  | gs_terminate c g h cause : generation_step (c, g, h) (c, terminate g cause, h)
  | gs_replica c g h c' : rc_reqQueue c' = rc_reqQueue c -> generation_step (c, g, h) (c', g, h).

(** The bytes handed to the connection so far, the current batch included. *)
Definition written (w : FrameWriter) : list Z := concat (wSent w) ++ wBuffer w.

(** The request the writer goroutine holds, or may have held when it stopped. *)
Definition inHand (pc : sendPC) (l : list outboundConnectionRequest) : Prop :=
  match pc with
  | sendOuter => l = []
  | sendInner outbound => l = [outbound]
  | sendStopped => (length l <= 1)%nat
  end.

Definition generation_inv (x : replicaConn * connectionGeneration * list outboundConnectionRequest) : Prop :=
  let '(c, g, h) := x in
  written (gen_writer g) = concat (encodeRequest <$> gen_taken g) /\
  exists hand, inHand (gen_sending g) hand /\ h = gen_taken g ++ hand ++ rc_reqQueue c.

Lemma Flush_written ok w w' err : Flush ok w = (w', err) -> written w' = written w.
Proof.
  unfold Flush. case_decide; [by intros [= <- <-]|].
  destruct ok as [| |n]; [|by intros [= <- <-]|]; (destruct (wFailed w); [by intros [= <- <-]|]);
    intros [= <- <-]; unfold written; simpl; rewrite concat_app; simpl; rewrite app_nil_r; [by rewrite app_nil_r|].
  by rewrite <- app_assoc, take_drop.
Qed.

Lemma BufferFrame_written ok w f w' err :
  BufferFrame ok w f = (w', err) ->
  written w' = match err with None => written w ++ f | Some _ => written w end.
Proof.
  unfold BufferFrame. case_decide; [by intros [= <- <-]|].
  destruct (if decide _ then _ else _) as [w1 e1] eqn:H1.
  assert (Hw : written w1 = written w).
  { case_decide; [by eapply Flush_written|by injection H1 as <- _]. }
  destruct e1; [by intros [= <- <-]|]. destruct (wFailed w1); intros [= <- <-]; [done|].
  rewrite <- Hw. unfold written. simpl. by rewrite app_assoc.
Qed.

Lemma terminate_fields g cause :
  gen_writer (terminate g cause) = gen_writer g /\ gen_sending (terminate g cause) = gen_sending g /\
  gen_taken (terminate g cause) = gen_taken g.
Proof. unfold terminate. by destruct (gen_done g). Qed.

Lemma sendRequests_inv ok ok2 c g h c' g' :
  sendRequests ok ok2 c g = Some (c', g') -> generation_inv (c, g, h) -> generation_inv (c', g', h).
Proof.
  intros Hs [Hw (hand & Hh & Hq)]. unfold sendRequests in Hs. destruct (gen_sending g) as [|o|] eqn:Hpc; [| |done].
  - simpl in Hh. subst hand. simpl in Hq. destruct (gen_done g).
    { injection Hs as <- <-. split; [done|]. by exists []; split; [simpl; lia|]. }
    unfold dequeueRequest in Hs. destruct (rc_reqQueue c) as [|x q] eqn:Hc; [done|]. injection Hs as <- <-.
    split; [done|]. by exists [x].
  - simpl in Hh. subst hand. destruct (gen_done g).
    { injection Hs as <- <-. split; [done|]. exists [o]. split; [simpl; lia|done]. }
    destruct (BufferFrame _ _ _) as [w [e|]] eqn:Hb; apply BufferFrame_written in Hb.
    { injection Hs as <- <-. destruct (terminate_fields (setSending g w sendOuter (gen_taken g)) errSend) as (H1 & H2 & H3).
      split; simpl; rewrite ?H1, ?H3; simpl; [congruence|]. exists [o]. split; [simpl; lia|done]. }
    assert (Hw' : written w = concat (encodeRequest <$> (gen_taken g ++ [o]))).
    { rewrite Hb, Hw, fmap_app, concat_app. simpl. by rewrite app_nil_r. }
    unfold dequeueRequest in Hs. destruct (rc_reqQueue c) as [|x q] eqn:Hc.
    + destruct (Flush ok2 w) as [w2 [e|]] eqn:Hf; apply Flush_written in Hf; injection Hs as <- <-.
      * destruct (terminate_fields (setSending g w2 sendOuter (gen_taken g ++ [o])) errFlushBatch) as (H1 & H2 & H3).
        split; simpl; rewrite ?H1, ?H3; simpl; [congruence|]. exists []. split; [simpl; lia|].
        simpl. by rewrite Hq, <- app_assoc, Hc.
      * split; simpl; [congruence|]. exists []. split; [done|]. simpl. by rewrite Hq, <- app_assoc, Hc.
    + injection Hs as <- <-. split; [done|]. exists [x]. split; [done|]. simpl. by rewrite Hq, <- app_assoc.
Qed.

Lemma receiveResponses_inv c g h c' g' :
  receiveResponses c g = Some (c', g') -> generation_inv (c, g, h) -> generation_inv (c', g', h).
Proof.
  intros Hr Hinv. unfold receiveResponses in Hr. pose proof (terminate_fields g errReceive) as (T1 & T2 & T3).
  destruct (gen_receiving g) as [|resp|]; [| |done].
  - destruct (ReadFrame (gen_reader g)) as [r [e|frame]].
    + injection Hr as <- <-. unfold generation_inv in *. simpl. by rewrite T1, T2, T3.
    + destruct (DecodeResponse frame); injection Hr as <- <-; [done|].
      unfold generation_inv in *. simpl. by rewrite T1, T2, T3.
  - destruct (enqueueResponse c resp) as [c1|] eqn:He.
    + injection Hr as <- <-. unfold enqueueResponse in He.
      destruct (rc_pending c !! _); simpl in He; [|done]. case_decide; [|done]. by injection He as <-.
    + destruct (gen_done g); by injection Hr as <- <-.
Qed.

Lemma generation_step_inv x y : generation_step x y -> generation_inv x -> generation_inv y.
Proof.
  intros [ok ok2 c g h c' g' Hs|c g h c' g' Hr|c g h req c' He|c g h cause|c g h c' Hq] Hinv.
  - by eapply sendRequests_inv.
  - by eapply receiveResponses_inv.
  - destruct Hinv as [Hw (hand & Hh & Hq)]. split; [done|]. exists hand. split; [done|].
    unfold enqueueRequest in He. case_decide; [|done]. injection He as <-. simpl.
    rewrite Hq, <- !app_assoc. done.
  - pose proof (terminate_fields g cause) as (T1 & T2 & T3). unfold generation_inv in *. by rewrite T1, T2, T3.
  - destruct Hinv as [Hw (hand & Hh & Hq2)]. split; [done|]. exists hand. split; [done|]. by rewrite Hq.
Qed.

End Generation.

(** ** Theorems *)


