(* ===== verification/Manager.v ===== *)
(** * Reconnecting to a replica (src/client/replica_conn.go)

    One goroutine per replica dials, publishes the connection, waits for its end
    and dials again after a back-off, until the replica is closed. [Close] runs
    concurrently with it. A connection is represented by a name; it is open from
    the moment its reader and writer goroutines start until [Close] of the
    generation has joined them. *)

From S2P Require Import Prelude Float64 Backoff Protocol Quorum Codec Client Replica.
From stdpp Require Import base gmap list numbers relations tactics.

#[local] Open Scope Z_scope.

(** ** The state *)

Inductive managerPC :=
  | mgrOpening                     (* [factory.open] *)
  | mgrPublishing (g : nat)        (* a generation was created *)
  | mgrServing (g : nat)           (* the select on [generation.done] and the context *)
  | mgrRetiring (g : nat)          (* before [clear] *)
  | mgrClosing (g : nat) (refused : bool)  (* before [generation.Close] *)
  | mgrWaiting (delay : Z)         (* [waitBeforeRetry] *)
  | mgrStopped.

(** [Close] of the replica; [closeMarked] holds the generation it has to close. *)
Inductive closerPC :=
  | closerIdle
  | closerCancelled
  | closerMarked (g : option nat)
  | closerJoining                  (* [manager.Wait] *)
  | closerFailing                  (* before [failPending] *)
  | closerDiscarding
  | closerDone.

Inductive logReason := connectFailed | connectionTerminated.

Inductive managerLog :=
  | logUnavailable (reason : logReason)
  | logEstablished (reconnected : bool) (attempt : Z).

(** [mg_delays] is a history variable: the delays of the retries so far. *)
Record manager := mkManager {
  mg_replica : replicaConn;
  mg_pc : managerPC;
  mg_attempt : Z;                  (* uint *)
  mg_unavailable : bool;
  mg_names : nat;                  (* generations created so far *)
  mg_open : gset nat;
  mg_done : gset nat;              (* generations whose [done] is closed *)
  mg_closer : closerPC;
  mg_log : list managerLog;
  mg_delays : list Z
}.

Definition setReplica (m : manager) (c : replicaConn) : manager :=
  mkManager c (mg_pc m) (mg_attempt m) (mg_unavailable m) (mg_names m) (mg_open m) (mg_done m)
    (mg_closer m) (mg_log m) (mg_delays m).

Definition setPC (m : manager) (pc : managerPC) : manager :=
  mkManager (mg_replica m) pc (mg_attempt m) (mg_unavailable m) (mg_names m) (mg_open m) (mg_done m)
    (mg_closer m) (mg_log m) (mg_delays m).

Definition setCloser (m : manager) (pc : closerPC) : manager :=
  mkManager (mg_replica m) (mg_pc m) (mg_attempt m) (mg_unavailable m) (mg_names m) (mg_open m) (mg_done m)
    pc (mg_log m) (mg_delays m).

Definition setAttempt (m : manager) (attempt : Z) : manager :=
  mkManager (mg_replica m) (mg_pc m) attempt (mg_unavailable m) (mg_names m) (mg_open m) (mg_done m)
    (mg_closer m) (mg_log m) (mg_delays m).

Definition warnUnavailable (m : manager) (reason : logReason) : manager :=
  mkManager (mg_replica m) (mg_pc m) (mg_attempt m) true (mg_names m) (mg_open m) (mg_done m)
    (mg_closer m) (mg_log m ++ [logUnavailable reason]) (mg_delays m).

Definition addLog (m : manager) (e : managerLog) : manager :=
  mkManager (mg_replica m) (mg_pc m) (mg_attempt m) (mg_unavailable m) (mg_names m) (mg_open m) (mg_done m)
    (mg_closer m) (mg_log m ++ [e]) (mg_delays m).

(** [Close] of a generation: its [done] is closed and its goroutines are joined. *)
Definition closeGeneration (m : manager) (g : nat) : manager :=
  mkManager (mg_replica m) (mg_pc m) (mg_attempt m) (mg_unavailable m) (mg_names m) (mg_open m ∖ {[g]})
    ({[g]} ∪ mg_done m) (mg_closer m) (mg_log m) (mg_delays m).

(** ** The loop of [manage] *)

(** [waitBeforeRetry]: [random] is the number drawn for the jitter. *)
Definition startWait (m : manager) (random : float64) (unspecified : Z) : manager :=
  let delay := Duration Default random unspecified (Z.to_nat (mg_attempt m)) in
  mkManager (mg_replica m) (mgrWaiting delay) (mg_attempt m) (mg_unavailable m) (mg_names m) (mg_open m)
    (mg_done m) (mg_closer m) (mg_log m) (mg_delays m ++ [delay]).

Inductive managerEvent :=
  | evOpenFailed (random : float64) (unspecified : Z)
  | evOpened
  | evContinue                     (* the next statement *)
  | evGenerationDone | evContextDone
  | evRetire (random : float64) (unspecified : Z)
  | evWaited (timerFirst : bool).

(** One step of [manage]; [None]: the event cannot happen here. *)
Definition manageStep (m : manager) (e : managerEvent) : option manager :=
  let ctxDone := rc_ctxDone (mg_replica m) in
  match mg_pc m, e with
  | mgrOpening, evOpenFailed random unspecified =>
      let m := if negb (mg_unavailable m) && negb ctxDone then warnUnavailable m connectFailed else m in
      Some (startWait m random unspecified)
  | mgrOpening, evOpened =>
      let g := mg_names m in
      Some (mkManager (mg_replica m) (mgrPublishing g) (mg_attempt m) (mg_unavailable m) (S g)
              ({[g]} ∪ mg_open m) (mg_done m) (mg_closer m) (mg_log m) (mg_delays m))
  | mgrPublishing g, evContinue =>
      match publish (mg_replica m) g with
      | (_, false) => Some (setPC m (mgrClosing g true))
      | (c, true) =>
          let m := addLog (setReplica m c) (logEstablished (mg_unavailable m) (u64 (mg_attempt m + 1))) in
          Some (setPC (setAttempt m 0) (mgrServing g))
      end
  | mgrServing g, evGenerationDone =>
      if decide (g ∈ mg_done m) then Some (setPC m (mgrRetiring g)) else None
  | mgrServing g, evContextDone => if ctxDone then Some (setPC m (mgrRetiring g)) else None
  | mgrRetiring g, evContinue =>
      Some (setPC (setReplica m (clear (mg_replica m) g)) (mgrClosing g false))
  | mgrClosing g true, evContinue => Some (setPC (closeGeneration m g) mgrStopped)
  | mgrClosing g false, evRetire random unspecified =>
      let m := closeGeneration m g in
      if ctxDone then Some (setPC m mgrStopped)
      else Some (startWait (warnUnavailable m connectionTerminated) random unspecified)
  | mgrWaiting delay, evWaited timerFirst =>
      if decide (Wait ctxDone timerFirst delay = true) then
        Some (setPC (setAttempt m (u64 (mg_attempt m + 1))) mgrOpening)
      else if ctxDone then Some (setPC m mgrStopped) else None
  | _, _ => None
  end.

(** ** [Close] *)

(** [None]: it waits for the manager. Its effects on waiting calls are those of
    [failPending]. *)
Definition closeStep (m : manager) : option manager :=
  match mg_closer m with
  | closerIdle => Some (setCloser (setReplica m (cancelReplica (mg_replica m))) closerCancelled)
  | closerCancelled =>
      let '(c, g) := markClosed (mg_replica m) in
      Some (setCloser (setReplica m c) (closerMarked g))
  | closerMarked (Some g) => Some (setCloser (closeGeneration m g) closerJoining)
  | closerMarked None => Some (setCloser m closerJoining)
  | closerJoining =>
      match mg_pc m with mgrStopped => Some (setCloser m closerFailing) | _ => None end
  | closerFailing =>
      Some (setCloser (setReplica m (failPending (mg_replica m)).1) closerDiscarding)
  | closerDiscarding =>
      Some (setCloser (setReplica m (discardQueuedRequests (mg_replica m))) closerDone)
  | closerDone => None
  end.

(** ** Interleavings *)

(** [failPending] left nil maps. *)
Definition noPending (c : replicaConn) : Prop := Forall (fun shard => ps_pending shard = None) (rc_pending c).

(** Operations on the queues and pending calls of the replica, by any goroutine;
    a nil map stays nil. *)
Definition sameLifecycle (c c' : replicaConn) : Prop :=
  rc_ctxDone c' = rc_ctxDone c /\ rc_generation c' = rc_generation c /\ rc_closed c' = rc_closed c /\
  rc_changes c' = rc_changes c /\ (noPending c -> noPending c').

Inductive manager_step : manager -> manager -> Prop :=
  | ms_manage m e m' : manageStep m e = Some m' -> manager_step m m'
  | ms_close m m' : closeStep m = Some m' -> manager_step m m'
  (* the reader or the writer of a generation fails *)
  | ms_terminate m g : g ∈ mg_open m ->
      manager_step m (mkManager (mg_replica m) (mg_pc m) (mg_attempt m) (mg_unavailable m) (mg_names m)
                        (mg_open m) ({[g]} ∪ mg_done m) (mg_closer m) (mg_log m) (mg_delays m))
  (* after [Close] nothing enters the queue: submissions look at the context *)
  | ms_queue m c : sameLifecycle (mg_replica m) c ->
      (rc_ctxDone (mg_replica m) = true -> (length (rc_reqQueue c) <= length (rc_reqQueue (mg_replica m)))%nat) ->
      manager_step m (setReplica m c).

Definition newManager (index : nat) : manager :=
  mkManager (newReplicaConn index) mgrOpening 0 false 0 ∅ ∅ closerIdle [] [].

Inductive manager_reachable (index : nat) : manager -> Prop :=
  | mr_new : manager_reachable index (newManager index)
  | mr_step m m' : manager_reachable index m -> manager_step m m' -> manager_reachable index m'.

(** ** The invariant *)

Definition currentGeneration (pc : managerPC) : option nat :=
  match pc with
  | mgrPublishing g | mgrServing g | mgrRetiring g | mgrClosing g _ => Some g
  | _ => None
  end.

(** What the progress of [Close] says about the replica. *)
Definition closer_ok (m : manager) : Prop :=
  let c := mg_replica m in
  match mg_closer m with
  | closerIdle => rc_closed c = false /\ rc_ctxDone c = false
  | closerCancelled => rc_closed c = false /\ rc_ctxDone c = true
  | closerMarked _ | closerJoining => rc_closed c = true /\ rc_ctxDone c = true
  | closerFailing => rc_closed c = true /\ rc_ctxDone c = true /\ mg_pc m = mgrStopped
  | closerDiscarding => rc_closed c = true /\ rc_ctxDone c = true /\ mg_pc m = mgrStopped /\ noPending c
  | closerDone =>
      rc_closed c = true /\ rc_ctxDone c = true /\ mg_pc m = mgrStopped /\ noPending c /\ rc_reqQueue c = []
  end.

Record manager_inv (m : manager) : Prop := {
  mi_open : forall g, g ∈ mg_open m -> currentGeneration (mg_pc m) = Some g;
  mi_generation : forall g, rc_generation (mg_replica m) = Some g -> mg_pc m = mgrServing g \/ mg_pc m = mgrRetiring g;
  mi_serving : forall g, mg_pc m = mgrServing g \/ mg_pc m = mgrRetiring g ->
    rc_generation (mg_replica m) = Some g \/ rc_closed (mg_replica m) = true;
  mi_closed : rc_closed (mg_replica m) = true -> rc_generation (mg_replica m) = None;
  mi_refused : forall g, mg_pc m = mgrClosing g true -> rc_closed (mg_replica m) = true;
  mi_stopped : mg_pc m = mgrStopped -> rc_ctxDone (mg_replica m) = true;
  mi_closer : closer_ok m;
  mi_delays : Forall (fun d => 0 <= d <= defaultMaximum) (mg_delays m)
}.

Lemma closer_closed m : closer_ok m -> rc_closed (mg_replica m) = true -> rc_ctxDone (mg_replica m) = true.
Proof. unfold closer_ok. destruct (mg_closer m); naive_solver congruence. Qed.

Lemma default_delay random unspecified attempt :
  0 <= Duration Default random unspecified attempt <= defaultMaximum.
Proof. apply (Duration_range Default), Default_ok. Qed.

(** A step of the manager goroutine leaves [Close] where it is. *)
Lemma closer_ok_move m m' :
  closer_ok m -> mg_pc m <> mgrStopped -> mg_closer m' = mg_closer m ->
  rc_closed (mg_replica m') = rc_closed (mg_replica m) ->
  rc_ctxDone (mg_replica m') = rc_ctxDone (mg_replica m) -> closer_ok m'.
Proof. unfold closer_ok. intros Hok Hpc -> -> ->. destruct (mg_closer m); naive_solver. Qed.

(** The manager moves to a place without a published generation. *)
Lemma manager_move_inv m m' :
  manager_inv m -> mg_pc m <> mgrStopped -> rc_generation (mg_replica m') = None ->
  (forall g, mg_pc m' <> mgrServing g /\ mg_pc m' <> mgrRetiring g) ->
  (forall g, g ∈ mg_open m' -> currentGeneration (mg_pc m') = Some g) ->
  (forall g, mg_pc m' = mgrClosing g true -> rc_closed (mg_replica m') = true) ->
  (mg_pc m' = mgrStopped -> rc_ctxDone (mg_replica m') = true) ->
  mg_closer m' = mg_closer m -> rc_closed (mg_replica m') = rc_closed (mg_replica m) ->
  rc_ctxDone (mg_replica m') = rc_ctxDone (mg_replica m) ->
  Forall (fun d => 0 <= d <= defaultMaximum) (mg_delays m') -> manager_inv m'.
Proof.
  intros Hinv Hns Hgen Hpc Hopen Hcl Hst Hc Hcd Hctx Hd. split; try done.
  - intros g Hg. congruence.
  - intros g Hg. specialize (Hpc g). naive_solver.
  - by eapply closer_ok_move; [apply Hinv|..].
Qed.

Lemma unserved m : manager_inv m -> (forall g, mg_pc m <> mgrServing g /\ mg_pc m <> mgrRetiring g) ->
  rc_generation (mg_replica m) = None.
Proof.
  intros Hinv Hpc. destruct (rc_generation (mg_replica m)) as [g|] eqn:Hg; [|done].
  specialize (Hpc g). destruct (mi_generation _ Hinv g Hg); naive_solver.
Qed.

Lemma startWait_delays m random unspecified :
  Forall (fun d => 0 <= d <= defaultMaximum) (mg_delays m) ->
  Forall (fun d => 0 <= d <= defaultMaximum) (mg_delays (startWait m random unspecified)).
Proof. intros Hd. simpl. apply Forall_app. split; [done|]. constructor; [apply default_delay|constructor]. Qed.

Lemma manageStep_inv m e m' : manageStep m e = Some m' -> manager_inv m -> manager_inv m'.
Proof.
  intros Hs Hinv. pose proof Hinv as [H1 H2 H3 H4 H5 H6 H7 H8]. unfold manageStep in Hs.
  pose proof (closer_closed m H7) as Hcc.
  destruct (mg_pc m) as [|g|g|g|g [|]|delay|] eqn:Hpc; destruct e; try done.
  - assert (Hg : rc_generation (mg_replica m) = None) by (apply unserved; by rewrite ?Hpc).
    destruct (_ && _) in Hs; injection Hs as <-; apply (manager_move_inv m); try done; simpl; try (by rewrite Hpc).
    + by apply (startWait_delays (warnUnavailable m connectFailed)).
    + by apply (startWait_delays m).
  - injection Hs as <-. apply (manager_move_inv m); try done; simpl; [by rewrite Hpc|apply unserved; by rewrite ?Hpc|].
    intros g [->%elem_of_singleton|Hg]%elem_of_union; [done|]. by apply H1 in Hg.
  - unfold publish in Hs. destruct (rc_closed (mg_replica m)) eqn:Hcl; injection Hs as <-.
    + apply (manager_move_inv m); try done; simpl; [by rewrite Hpc|by apply H4].
    + split; simpl; try done.
      * intros h [= <-]. by left.
      * intros h [[= <-]|?]; [by left|done].
      * congruence.
      * eapply closer_ok_move; [done|by rewrite Hpc|done..].
  - case_decide; [|done]. injection Hs as <-. split; simpl; try done.
    + intros h Hh. apply H2 in Hh as [[= ->]|?]; [by right|done].
    + intros h [?|[= <-]]; [done|]. apply H3. by left.
    + eapply closer_ok_move; [done|by rewrite Hpc|done..].
  - destruct (rc_ctxDone _) eqn:Hctx; [|done]. injection Hs as <-. split; simpl; try done.
    + intros h Hh. apply H2 in Hh as [[= ->]|?]; [by right|done].
    + intros h [?|[= <-]]; [done|]. apply H3. by left.
    + eapply closer_ok_move; [done|by rewrite Hpc|done..].
  - injection Hs as <-.
    assert (Hclr : rc_generation (clear (mg_replica m) g) = None /\
      rc_closed (clear (mg_replica m) g) = rc_closed (mg_replica m) /\
      rc_ctxDone (clear (mg_replica m) g) = rc_ctxDone (mg_replica m)).
    { unfold clear. case_decide as Hd; simpl; [|done]. split; [|done].
      destruct (rc_generation (mg_replica m)) as [h|] eqn:Hh; [|done].
      destruct (H2 h eq_refl) as [?|[= ->]]; done. }
    destruct Hclr as (Hg & Hc & Hx). apply (manager_move_inv m); try done; simpl. by rewrite Hpc.
  - injection Hs as <-. apply (manager_move_inv m); try done; simpl.
    + by rewrite Hpc.
    + apply H4. by eapply H5.
    + intros h [Hh Hn]%elem_of_difference. apply H1 in Hh. simpl in Hh. set_solver.
    + intros _. apply Hcc. by eapply H5.
  - assert (Hg : rc_generation (mg_replica m) = None) by (apply unserved; by rewrite ?Hpc).
    assert (Hopen : forall h, h ∈ mg_open m ∖ {[g]} -> False).
    { intros h [Hh Hn]%elem_of_difference. apply H1 in Hh. simpl in Hh. set_solver. }
    destruct (rc_ctxDone (mg_replica m)) eqn:Hctx; injection Hs as <-; apply (manager_move_inv m); try done; simpl;
      try (by rewrite Hpc); try (intros h Hh; by destruct (Hopen h)).
    by apply (startWait_delays (warnUnavailable (closeGeneration m g) connectionTerminated)).
  - assert (Hg : rc_generation (mg_replica m) = None) by (apply unserved; by rewrite ?Hpc).
    case_decide; [injection Hs as <-; apply (manager_move_inv m); try done; simpl; by rewrite Hpc|].
    destruct (rc_ctxDone (mg_replica m)) eqn:Hctx; [|done]. injection Hs as <-.
    apply (manager_move_inv m); try done; simpl. by rewrite Hpc.
Qed.

Lemma closeStep_inv m m' : closeStep m = Some m' -> manager_inv m -> manager_inv m'.
Proof.
  intros Hs Hinv. pose proof Hinv as [H1 H2 H3 H4 H5 H6 H7 H8]. unfold closeStep in Hs. unfold closer_ok in H7.
  destruct (mg_closer m) as [| |[g|]| | | |] eqn:Hc; simpl in Hs; simplify_eq.
  5: destruct (mg_pc m) eqn:Hpc; try done; injection Hs as <-.
  all: split; simpl; rewrite ?Hpc; try done; try (unfold closer_ok; simpl; rewrite ?Hpc; tauto).
  - intros h [Hh _]%elem_of_difference. by apply H1.
  - unfold closer_ok. simpl. split_and!; try tauto. apply Forall_fmap, Forall_true. done.
Qed.

Lemma manager_step_inv m m' : manager_step m m' -> manager_inv m -> manager_inv m'.
Proof.
  intros Hs Hinv. destruct Hs as [m e m' Hs|m m' Hs|m g Hg|m c Hc Hq].
  - by eapply manageStep_inv.
  - by eapply closeStep_inv.
  - by destruct Hinv; split.
  - destruct Hinv as [H1 H2 H3 H4 H5 H6 H7 H8]. destruct Hc as (Hx & Hgn & Hcl & _ & Hp).
    split; simpl; rewrite ?Hgn, ?Hcl, ?Hx; try done.
    unfold closer_ok in *. simpl. rewrite Hcl, Hx. destruct (mg_closer m); try done; [naive_solver|].
    destruct H7 as (? & Hctx & ? & ? & Hnil). split_and!; auto. specialize (Hq Hctx). rewrite Hnil in Hq.
    apply nil_length_inv. simpl in Hq. lia.
Qed.

Lemma manager_reachable_inv index m : manager_reachable index m -> manager_inv m.
Proof.
  induction 1 as [|m m' _ IH Hs]; [|by eapply manager_step_inv].
  split; simpl; try done. by intros g [?|?].
Qed.

(** ** Stopping *)

(** Steps of the manager goroutine alone. *)
Definition manage_run : relation manager := rtc (fun x y => exists e, manageStep x e = Some y).

Definition canStop (m : manager) : Prop := exists m', manage_run m m' /\ mg_pc m' = mgrStopped.

Lemma canStop_step m e m' : manageStep m e = Some m' -> canStop m' -> canStop m.
Proof. intros Hs (m2 & Hr & Hpc). exists m2. split; [|done]. eapply rtc_l; [by exists e|exact Hr]. Qed.

Lemma stopped_canStop m : mg_pc m = mgrStopped -> canStop m.
Proof. intros Hpc. exists m. split; [apply rtc_refl|done]. Qed.

Lemma waiting_canStop m delay : mg_pc m = mgrWaiting delay -> rc_ctxDone (mg_replica m) = true -> canStop m.
Proof.
  intros Hpc Hctx. eapply (canStop_step _ (evWaited false)); [|by apply (stopped_canStop (setPC m mgrStopped))].
  unfold manageStep. rewrite Hpc, Hctx. unfold Wait. destruct (delay <=? 0); by rewrite decide_False.
Qed.

Lemma retiring_canStop m g : mg_pc m = mgrRetiring g -> rc_ctxDone (mg_replica m) = true -> canStop m.
Proof.
  intros Hpc Hctx. set (m1 := setPC (setReplica m (clear (mg_replica m) g)) (mgrClosing g false)).
  eapply (canStop_step _ evContinue m1); [unfold manageStep; by rewrite Hpc|].
  eapply (canStop_step _ (evRetire (floatOfZ 0) 0)); [|by apply (stopped_canStop (setPC (closeGeneration m1 g) mgrStopped))].
  assert (Hclr : rc_ctxDone (clear (mg_replica m) g) = true) by (unfold clear; by case_decide).
  unfold manageStep. simpl. by rewrite Hclr.
Qed.

Lemma serving_canStop m g : mg_pc m = mgrServing g -> rc_ctxDone (mg_replica m) = true -> canStop m.
Proof.
  intros Hpc Hctx. apply (canStop_step _ evContextDone (setPC m (mgrRetiring g))).
  - unfold manageStep. by rewrite Hpc, Hctx.
  - by apply (retiring_canStop _ g).
Qed.

(** Once the context is done, the goroutine can always run to its end. *)
Lemma manager_stops m : rc_ctxDone (mg_replica m) = true -> canStop m.
Proof.
  intros Hctx. destruct (mg_pc m) as [|g|g|g|g [|]|delay|] eqn:Hpc;
    eauto using serving_canStop, retiring_canStop, waiting_canStop, stopped_canStop.
  - set (m1 := if negb (mg_unavailable m) && negb true then warnUnavailable m connectFailed else m).
    apply (canStop_step _ (evOpenFailed (floatOfZ 0) 0) (startWait m1 (floatOfZ 0) 0)).
    + unfold manageStep. by rewrite Hpc, Hctx.
    + eapply waiting_canStop; [done|]. unfold m1. simpl. by destruct (_ && _).
  - destruct (publish (mg_replica m) g) as [c [|]] eqn:Hp;
      (eapply (canStop_step _ evContinue); [unfold manageStep; by rewrite Hpc, Hp|]).
    + eapply serving_canStop; [done|]. simpl. unfold publish in Hp.
      destruct (rc_closed (mg_replica m)); [done|]. by injection Hp as <-.
    + eapply (canStop_step _ evContinue); [done|]. by apply stopped_canStop.
  - eapply (canStop_step _ evContinue); [unfold manageStep; by rewrite Hpc|]. by apply stopped_canStop.
  - eapply (canStop_step _ (evRetire (floatOfZ 0) 0)); [unfold manageStep; by rewrite Hpc, Hctx|].
    by apply stopped_canStop.
Qed.

(** ** Theorems *)


