(* ===== verification/Readiness.v ===== *)
(** * Waiting for a quorum of connections, and closing the client
    (src/client/client.go)

    [WaitReady] reads, replica by replica, whether it is connected together with
    the channel that its next change of state closes, and blocks on these
    channels while too few are. A channel is represented by the number of
    changes so far: it is closed once the replica has counted more. *)

From S2P Require Import Prelude Protocol Quorum Codec Client Replica Manager.
From stdpp Require Import base gmap list numbers relations tactics.

#[local] Open Scope Z_scope.

(** ** [WaitReady] *)

Inductive waitResult :=
  | waitReturns (err : option opError)
  | waitSelects (changed : list nat).   (* besides the two contexts *)

(** One pass of its loop. [replicas] holds each replica as it was when the pass
    read it; the readings are not simultaneous. *)
Definition waitReadyPass (c : Client) (ctxErr : option opError) (clientDone : bool) (replicas : list replicaConn)
    : waitResult :=
  match ctxErr with
  | Some e => waitReturns (Some e)
  | None =>
      if clientDone then waitReturns (Some errClientClosed)
      else
        let snapshot := readiness <$> replicas in
        if readyQuorum c ((fun s => s.1.1) <$> snapshot) then waitReturns None
        else waitSelects (snd <$> snapshot)
  end.

(** The outcome of the select: the contexts, or a replica that changed, after
    which the loop runs again ([None]). *)
Inductive selectOutcome := selectCaller (e : opError) | selectClient | selectChanged.

Definition afterSelect (chosen : selectOutcome) : option (option opError) :=
  match chosen with
  | selectCaller e => Some (Some e)
  | selectClient => Some (Some errClientClosed)
  | selectChanged => None
  end.

(** ** [Close] *)

(** [Client.Close]: the context is cancelled, then every replica is closed, in
    order; [errors] are those of the factories. *)
Record clientClose := mkClientClose {
  cl_once : bool;                  (* [closeOnce] has run *)
  cl_ctxDone : bool;
  cl_closeErr : list nat           (* the replicas that reported an error *)
}.

Definition closeClient (s : clientClose) (closeReplica : nat -> bool) (n : nat) : clientClose * list nat :=
  if cl_once s then (s, cl_closeErr s)
  else
    let errs := filter (fun i => closeReplica i = false) (seq 0 n) in
    (mkClientClose true true errs, errs).

(** ** What changes a replica *)

Inductive lifecycle_step : replicaConn -> replicaConn -> Prop :=
  | ls_publish c g : lifecycle_step c (publish c g).1
  | ls_clear c g : lifecycle_step c (clear c g)
  | ls_mark c : lifecycle_step c (markClosed c).1
  | ls_cancel c : lifecycle_step c (cancelReplica c)
  | ls_same c c' : sameLifecycle c c' -> lifecycle_step c c'.

Lemma lifecycle_changes c c' :
  lifecycle_step c c' ->
  (rc_changes c < rc_changes c')%nat \/ readiness c' = readiness c.
Proof.
  intros [c0 g|c0 g|c0|c0|c0 c1 (H1 & H2 & H3 & H4 & _)].
  - unfold publish. destruct (rc_closed c0); simpl; [by right|left; lia].
  - unfold clear. case_decide; [by right|left; simpl; lia].
  - left. simpl. lia.
  - by right.
  - right. unfold readiness. by rewrite H2, H3, H4.
Qed.

Lemma lifecycle_run_changes c c' :
  rtc lifecycle_step c c' ->
  (rc_changes c < rc_changes c')%nat \/ readiness c' = readiness c.
Proof.
  induction 1 as [c|c c1 c' Hs _ IH]; [by right|].
  apply lifecycle_changes in Hs. destruct Hs as [Hs|Hs], IH as [IH|IH].
  - left; lia.
  - left. apply (f_equal snd) in IH. simpl in IH. lia.
  - left. apply (f_equal snd) in Hs. simpl in Hs. lia.
  - right. congruence.
Qed.

Lemma unchanged_readiness replicas now :
  Forall2 (rtc lifecycle_step) replicas now ->
  (exists i c c', replicas !! i = Some c /\ now !! i = Some c' /\ (rc_changes c < rc_changes c')%nat) \/
  readiness <$> now = readiness <$> replicas.
Proof.
  induction 1 as [|c c' replicas now Hr _ IH]; [by right|].
  apply lifecycle_run_changes in Hr as [Hlt|Heq].
  { left. by exists 0%nat, c, c'. }
  destruct IH as [(i & d & d' & ? & ? & ?)|IH]; [left; by exists (S i), d, d'|].
  right. rewrite !fmap_cons. by f_equal.
Qed.

(** ** Theorems *)

(** C33: [WaitReady] returns without an error exactly when neither context is done
    and a quorum of replicas was connected, and it does not miss a change: when
    it blocks and a quorum of replicas is connected later, whatever happened to
    the replicas since it looked at them, one of the channels it waits for has
    been closed. *)
Theorem wait_ready_wakes c ctxErr clientDone replicas now :
  Forall2 (rtc lifecycle_step) replicas now ->
  (waitReadyPass c ctxErr clientDone replicas = waitReturns None <->
     ctxErr = None /\ clientDone = false /\
     (quorumSize (quorum c) <= length (filter (fun r => (readiness r).1.1 = true) replicas))%nat) /\
  (forall changed, waitReadyPass c ctxErr clientDone replicas = waitSelects changed ->
     waitReadyPass c ctxErr clientDone now = waitReturns None ->
     exists i before r, changed !! i = Some before /\ now !! i = Some r /\ (before < rc_changes r)%nat).
Proof.
  intros Hr. unfold waitReadyPass. split.
  - assert (Hlen : length (filter (fun b => b = true) ((fun s => s.1.1) <$> (readiness <$> replicas))) =
      length (filter (fun r => (readiness r).1.1 = true) replicas)).
    { clear. induction replicas as [|r l IH]; [done|]. rewrite !fmap_cons, !filter_cons.
      repeat case_decide; rewrite ?length_cons; first [done|lia]. }
    destruct ctxErr; [naive_solver|]. destruct clientDone; [naive_solver|].
    destruct (readyQuorum c _) eqn:Hq; unfold readyQuorum in Hq; rewrite Hlen in Hq.
    + apply Nat.leb_le in Hq. naive_solver.
    + apply Nat.leb_gt in Hq. split; [done|]. intros (_ & _ & ?). lia.
  - destruct ctxErr; [done|]. destruct clientDone; [done|]. intros changed.
    destruct (readyQuorum c _) eqn:Hq; [done|]. intros [= <-] Hnow.
    destruct (unchanged_readiness _ _ Hr) as [(i & d & d' & Hd & Hd' & Hlt)|Heq].
    + exists i, (rc_changes d), d'. rewrite !list_lookup_fmap, Hd. done.
    + by rewrite Heq, Hq in Hnow.
Qed.

Lemma wait_ready_wakes_witness :
  let c := mkClient 1 7 0 0 Quorum1Of1 Second in
  let later := (publish (newReplicaConn 0) 5).1 in
  waitReadyPass c None false [newReplicaConn 0] = waitSelects [0%nat] /\
  exists i before r, [0%nat] !! i = Some before /\ [later] !! i = Some r /\ (before < rc_changes r)%nat.
Proof.
  intros c later. split; [vm_compute; reflexivity|].
  assert (Hrun : Forall2 (rtc lifecycle_step) [newReplicaConn 0] [later]).
  { constructor; [|constructor]. apply rtc_once, ls_publish. }
  apply (wait_ready_wakes c None false _ _ Hrun); vm_compute; reflexivity.
Defined.
