(* ===== verification/ClientSafety.v ===== *)
(** * Properties of the quorum client

    A lease the client considers valid is backed by the replies of a quorum;
    unsuccessful acquisitions are cleaned up; no background work extends a
    lease. *)

From S2P Require Import Prelude Protocol Quorum Codec Client.
From stdpp Require Import base gmap list numbers tactics.

#[local] Open Scope Z_scope.

(** ** Statements *)

(** Among [events] there is a reply of [replica] that satisfies [good] and whose
    conservative expiry is [t]. *)
Definition replied (good : Response -> Prop) (operationStart : Z) (events : list event)
    (replica : nat) (t : Z) : Prop :=
  exists r now nowMark nowLeft cancel,
    evResponse replica (inr r) now nowMark nowLeft cancel ∈ events /\ good r /\
    t = candidateValidUntil operationStart (TTLMS r).

Definition goodAcquire (r : Response) : Prop :=
  Operation r = ClientOperationACQUIRE /\ isSuccessfulAcquire (Status r) = true.

Definition goodRenew (r : Response) : Prop :=
  Operation r = ClientOperationRENEW /\ Status r = LeaseStatusOK.

(** [until] is backed: [q] different replicas among the first [n] replied with
    an expiry of at least [until]. *)
Definition backed (good : Response -> Prop) (operationStart : Z) (events : list event)
    (n q : nat) (until : Z) : Prop :=
  exists X : gset nat, X ⊆ set_seq 0 n /\ (q <= size X)%nat /\
    forall i, i ∈ X -> exists t, replied good operationStart events i t /\ until <= t.

(** ** Counting successful replicas *)

Definition consistent (P : nat -> Z -> Prop) (candidates : list Z) (successful : list bool) : Prop :=
  forall i t, successful !! i = Some true -> candidates !! i = Some t -> P i t.

Lemma consistent_insert P cs ss i t :
  consistent P cs ss -> P i t -> consistent P (<[i := t]> cs) (<[i := true]> ss).
Proof.
  intros Hc Hp j u Hs Ht. destruct (decide (j = i)) as [->|Hne].
  - assert (Hl : (i < length cs)%nat) by (apply lookup_lt_Some in Ht; by rewrite length_insert in Ht).
    rewrite list_lookup_insert_eq in Ht by done. by injection Ht as <-.
  - rewrite list_lookup_insert_ne in Hs by done. rewrite list_lookup_insert_ne in Ht by done. by apply Hc.
Qed.

Lemma consistent_take P cs ss n : consistent P cs ss -> consistent P (take n cs) (take n ss).
Proof.
  intros Hc i t Hs Ht. apply lookup_take_Some in Hs as [Hs _], Ht as [Ht _]. by apply Hc.
Qed.

(** The replicas counted by [atLeast] form a set of that size. *)
Lemma atLeast_set P cs ss t k :
  (forall i u, ss !! i = Some true -> cs !! i = Some u -> P (k + i)%nat u) ->
  exists X : gset nat, X ⊆ set_seq k (length ss) /\ size X = atLeast t (successfulCandidates cs ss) /\
    forall i, i ∈ X -> exists u, P i u /\ t <= u.
Proof.
  revert cs k. induction ss as [|s ss IH]; intros cs k Hc.
  { exists ∅. destruct cs; simpl; split_and!; try done; set_solver. }
  destruct cs as [|c cs].
  { exists ∅. split_and!; [set_solver|by destruct s|set_solver]. }
  destruct (IH cs (S k)) as (X & HX & Hs & HP).
  { intros i u Hi Hu. replace (S k + i)%nat with (k + S i)%nat by lia. by apply Hc. }
  assert (HX' : X ⊆ set_seq k (S (length ss))) by (simpl; set_solver).
  assert (Hk : k ∉ X) by (intros Hin; apply HX, elem_of_set_seq in Hin; lia).
  destruct s; [|exists X; by split_and!].
  unfold atLeast. simpl successfulCandidates. rewrite filter_cons. case_decide as Hd.
  - exists ({[k]} ∪ X). split_and!; [simpl; set_solver| |].
    + rewrite size_union by set_solver. rewrite size_singleton. simpl. unfold atLeast in Hs. lia.
    + intros i [->%elem_of_singleton|Hi]%elem_of_union; [|by apply HP].
      exists c. split; [|done]. specialize (Hc 0%nat c eq_refl eq_refl). by rewrite Nat.add_0_r in Hc.
  - exists X. by split_and!.
Qed.

Lemma best_backed P cs ss q until n :
  consistent P cs ss -> (0 < q)%nat -> bestAcquireQuorum (take n cs) (take n ss) q = (until, true) ->
  exists X : gset nat, X ⊆ set_seq 0 n /\ (q <= size X)%nat /\
    forall i, i ∈ X -> exists t, P i t /\ until <= t.
Proof.
  intros Hc Hq Hb. destruct (bestAcquireQuorum_Some _ _ _ _ Hq Hb) as (_ & Hge & _).
  destruct (atLeast_set P (take n cs) (take n ss) until 0) as (X & HX & Hs & HP).
  { by apply consistent_take. }
  exists X. split_and!; [|lia|done].
  intros i Hi%HX. rewrite elem_of_set_seq in *. rewrite length_take in Hi. lia.
Qed.

(** ** The collection loop *)

Lemma collectLoop_sound n step (E : list event) (I : collecting -> Prop) (Q : collecting -> Z -> Prop) st events r :
  (forall st ev, ev ∈ E -> I st ->
     match step st ev with
     | continue st' | stop st' => I st'
     | quorumReached st' u => I st' /\ Q st' u
     end) ->
  (forall ev, ev ∈ events -> ev ∈ E) -> I st -> collectLoop n step st events = Some r ->
  match r with collected st' u => I st' /\ Q st' u | notCollected st' => I st' end.
Proof.
  intros Hstep. revert st. induction events as [|ev events IH]; intros st HE Hi; simpl.
  { destruct (_ <? _)%nat; [done|]. by intros [= <-]. }
  destruct (_ <? _)%nat; [|by intros [= <-]].
  specialize (Hstep st ev (HE ev ltac:(left)) Hi).
  destruct (step st ev); [|by intros [= <-]|by intros [= <-]].
  intros Hc. eapply IH; [|exact Hstep|exact Hc]. intros e He. apply HE. by right.
Qed.

(** Every round that does not end the loop counts one reply. *)
Lemma collectLoop_total n step st events :
  (forall st ev st', step st ev = continue st' -> co_received st' = S (co_received st)) ->
  (n <= co_received st + length events)%nat -> is_Some (collectLoop n step st events).
Proof.
  intros Hstep. revert st. induction events as [|ev events IH]; intros st Hl; simpl in *.
  { rewrite (proj2 (Nat.ltb_ge _ _)) by lia. by eexists. }
  destruct (_ <? _)%nat; [|by eexists]. destruct (step st ev) as [st'| |] eqn:Hs; [|by eexists..].
  apply IH. rewrite (Hstep _ _ _ Hs). lia.
Qed.

(** The identity and the validity of a lease, which confirmations do not touch. *)
Definition core (l : Lease) : Z * Z * Z * Z * leaseLifecycle * Z :=
  (sequence l, lkey l, requestedTTLMS l, lnow l, lifecycle l, validUntil l).

Lemma markConfirmed_core l i t now : core (markConfirmed l i t now) = core l.
Proof. unfold markConfirmed. case_decide; [|done]. by destruct (_ && _). Qed.

Lemma clearConfirmed_core l i : core (clearConfirmed l i) = core l.
Proof. unfold clearConfirmed. by case_decide. Qed.

Lemma startBackgroundHealing_core n l now : core (startBackgroundHealing n l now).1 = core l.
Proof. unfold startBackgroundHealing. by destruct (_ || _). Qed.

Lemma startHealingWhenDone_core n l remaining now :
  core (startHealingWhenDone n l remaining now) = core l.
Proof. destruct remaining; [apply startBackgroundHealing_core|done]. Qed.

Lemma core_inv l l' : core l' = core l ->
  sequence l' = sequence l /\ lkey l' = lkey l /\ requestedTTLMS l' = requestedTTLMS l /\
  lnow l' = lnow l /\ lifecycle l' = lifecycle l /\ validUntil l' = validUntil l.
Proof. unfold core. by intros [= -> -> -> -> -> ->]. Qed.

Create HintDb lease.
#[export] Hint Rewrite markConfirmed_core clearConfirmed_core startBackgroundHealing_core
  startHealingWhenDone_core : lease.

(** What one step of either loop guarantees. *)
Definition step_sound (good : Response -> Prop) (n q : nat) (start : Z)
    (step : collecting -> event -> stepResult) : Prop :=
  forall (E : list event) st ev, ev ∈ E -> consistent (replied good start E) (co_candidates st) (co_successful st) ->
  match step st ev with
  | continue st' | stop st' =>
      consistent (replied good start E) (co_candidates st') (co_successful st') /\
      core (co_lease st') = core (co_lease st)
  | quorumReached st' u =>
      (consistent (replied good start E) (co_candidates st') (co_successful st') /\
       core (co_lease st') = core (co_lease st)) /\
      bestAcquireQuorum (take n (co_candidates st')) (take n (co_successful st')) q = (u, true) /\
      exists i r now nowMark nowLeft cancel,
        ev = evResponse i r now nowMark nowLeft cancel /\ now < u
  end.

Ltac step_cases :=
  repeat match goal with
  | |- context [if acquireQuorumStillPossible ?a ?b ?c ?d ?e then _ else _] =>
      destruct (acquireQuorumStillPossible a b c d e)
  | |- context [if decide ?P then _ else _] => destruct (decide P)
  end; simpl; autorewrite with lease.

Lemma acquireStep_sound n q start : step_sound goodAcquire n q start (acquireStep n q start).
Proof.
  intros E st [i [e|r] now nm nl cancel| |] Hin Hc; simpl; [by step_cases| |done..].
  case_decide as Hop; [by step_cases|]. destruct (isSuccessfulAcquire (Status r)) eqn:Hst;
    [|by step_cases].
  assert (Hc' : consistent (replied goodAcquire start E)
    (<[i := candidateValidUntil start (TTLMS r)]> (co_candidates st)) (<[i := true]> (co_successful st))).
  { apply consistent_insert; [done|]. exists r, now, nm, nl, cancel. split_and!; [done| |done].
    split; [lia|done]. }
  assert (Hl : core (if timeBefore now (candidateValidUntil start (TTLMS r)) then
    markConfirmed (co_lease st) i (candidateValidUntil start (TTLMS r)) nm else co_lease st) =
    core (co_lease st)) by (destruct (timeBefore _ _); [apply markConfirmed_core|done]).
  destruct (bestAcquireQuorum _ _ q) as [u has] eqn:Hb.
  destruct (has && timeBefore now u) eqn:Hq; [|by step_cases].
  apply andb_true_iff in Hq as [-> Hlt%Z.ltb_lt].
  destruct cancel; [done|]. split_and!; [done..|]. by eexists _, _, _, _, _, _.
Qed.

Lemma renewStep_sound n q start : step_sound goodRenew n q start (renewStep n q start).
Proof.
  intros E st [i [e|r] now nm nl cancel| |] Hin Hc; simpl; [by step_cases| |done..].
  case_decide as Hop; [by step_cases|]. case_decide as Hst; [by step_cases|].
  assert (Hc' : consistent (replied goodRenew start E)
    (<[i := candidateValidUntil start (TTLMS r)]> (co_candidates st)) (<[i := true]> (co_successful st))).
  { apply consistent_insert; [done|]. exists r, now, nm, nl, cancel. split_and!; [done| |done].
    split; lia. }
  assert (Hl : core (if timeBefore now (candidateValidUntil start (TTLMS r)) then
    markConfirmed (co_lease st) i (candidateValidUntil start (TTLMS r)) nm
    else clearConfirmed (co_lease st) i) = core (co_lease st))
    by (destruct (timeBefore _ _); [apply markConfirmed_core|apply clearConfirmed_core]).
  destruct (bestAcquireQuorum _ _ q) as [u has] eqn:Hb.
  destruct (has && timeBefore now u) eqn:Hq; [|by step_cases].
  apply andb_true_iff in Hq as [-> Hlt%Z.ltb_lt].
  destruct cancel; [done|]. split_and!; [done..|]. by eexists _, _, _, _, _, _.
Qed.

Lemma acquireStep_received n q start st ev st' :
  acquireStep n q start st ev = continue st' -> co_received st' = S (co_received st).
Proof.
  destruct ev as [i [e|r] now nm nl cancel| |]; simpl; try done;
    repeat case_match; intros; simplify_eq; done.
Qed.

Lemma renewStep_received n q start st ev st' :
  renewStep n q start st ev = continue st' -> co_received st' = S (co_received st).
Proof.
  destruct ev as [i [e|r] now nm nl cancel| |]; simpl; try done;
    repeat case_match; intros; simplify_eq; done.
Qed.

Lemma replicate_consistent P k : consistent P (replicate k zeroTime) (replicate k false).
Proof. intros i t [? _]%lookup_replicate. done. Qed.

(** Both loops, from the arrays they start with. *)
Lemma collect_backed good n q start step st events r :
  step_sound good n q start step -> (0 < q)%nat ->
  co_candidates st = replicate maxServerCount zeroTime ->
  co_successful st = replicate maxServerCount false ->
  collectLoop n step st events = Some r ->
  match r with
  | collected st' u =>
      core (co_lease st') = core (co_lease st) /\ backed good start events n q u /\
      exists i res now nowMark nowLeft cancel,
        evResponse i res now nowMark nowLeft cancel ∈ events /\ now < u
  | notCollected st' => core (co_lease st') = core (co_lease st)
  end.
Proof.
  intros Hstep Hq Hcs Hss Hr.
  set (I := fun st' => consistent (replied good start events) (co_candidates st') (co_successful st') /\
    core (co_lease st') = core (co_lease st)).
  set (Q := fun st' u => bestAcquireQuorum (take n (co_candidates st')) (take n (co_successful st')) q
      = (u, true) /\ exists i res now nowMark nowLeft cancel,
        evResponse i res now nowMark nowLeft cancel ∈ events /\ now < u).
  assert (Hs : match r with collected st' u => I st' /\ Q st' u | notCollected st' => I st' end).
  { apply (collectLoop_sound n step events I Q st events); [|done| |done].
    - intros st0 ev Hin [Hc0 Hl0]. specialize (Hstep events st0 ev Hin Hc0). unfold I, Q.
      destruct (step st0 ev) as [st1|st1|st1 u]; [destruct Hstep; split; [done|congruence]..|].
      destruct Hstep as ((? & ?) & ? & i & res & now & nm & nl & c & -> & Hlt).
      split_and!; [done|congruence|done|]. by eexists _, _, _, _, _, _.
    - split; [|done]. rewrite Hcs, Hss. apply replicate_consistent. }
  destruct r as [st' u|st']; [|by destruct Hs]. destruct Hs as ([Hc Hl] & Hb & Hev).
  split_and!; [done| |done]. by eapply best_backed.
Qed.

(** ** Requests *)

(** The request carries the operation [op] of the lease [sequence] on [key]. *)
Definition requestFor (c : Client) (op key sequence : Z) (e : nat * outboundConnectionRequest) : Prop :=
  req_operation e.2 = op /\ req_key e.2 = key /\ req_sequence e.2 = sequence /\
  req_clientID e.2 = clientID c /\ req_bootID e.2 = bootID c.

(** The parts of a client that requests do not change. *)
Definition identity (c : Client) : Z * Z * Z * Z * Z :=
  (clientID c, bootID c, nextSequence c, quorum c, responseTimeout c).

Lemma identity_inv c c' : identity c' = identity c ->
  clientID c' = clientID c /\ bootID c' = bootID c /\ nextSequence c' = nextSequence c /\
  quorum c' = quorum c.
Proof. unfold identity. by intros [= -> -> -> -> _]. Qed.

Lemma requestFor_identity c c' op key sequence e :
  identity c' = identity c -> requestFor c' op key sequence e -> requestFor c op key sequence e.
Proof. unfold identity, requestFor. intros [= -> -> _ _ _]. done. Qed.

Lemma releaseLoop_sent c key sequence replicas c' l :
  releaseLoop c key sequence replicas = (c', l) ->
  identity c' = identity c /\ l.*1 = replicas /\
  Forall (requestFor c ClientOperationRELEASE key sequence) l.
Proof.
  revert c l. induction replicas as [|i replicas IH]; intros c l; simpl; [by intros [= <- <-]|].
  destruct (releaseLoop _ key sequence replicas) as [c1 rest] eqn:Hr. intros [= <- <-].
  destruct (IH _ _ Hr) as (Hi & Hf & Hall). split_and!; [done|simpl; by f_equal|].
  constructor; [done|]. eapply list.Forall_impl; [exact Hall|]. intros e. by apply requestFor_identity.
Qed.

Lemma submitAcquireLoop_sent c key sequence ttl replicas outcomes st c' l st' :
  submitAcquireLoop c key sequence ttl replicas outcomes st = (c', l, st') ->
  identity c' = identity c /\ l.*1 = replicas /\
  Forall (requestFor c ClientOperationACQUIRE key sequence) l.
Proof.
  revert c l st. induction replicas as [|i replicas IH]; intros c l st; simpl; [by intros [= <- <- _]|].
  destruct (submitAcquireLoop _ key sequence ttl replicas outcomes _) as [[c1 rest] st1] eqn:Hr.
  intros [= <- <- <-]. destruct (IH _ _ _ Hr) as (Hi & Hf & Hall). split_and!; [done|simpl; by f_equal|].
  constructor; [done|]. eapply list.Forall_impl; [exact Hall|]. intros e. by apply requestFor_identity.
Qed.

Lemma submitRenewLoop_sent c l ttl replicas outcomes st c' sent l' st' :
  submitRenewLoop c l ttl replicas outcomes st = (c', sent, l', st') ->
  identity c' = identity c /\ core l' = core l.
Proof.
  revert c l sent st. induction replicas as [|i replicas IH]; intros c l sent st; simpl;
    [by intros [= <- _ <- _]|].
  destruct (outcomes i);
    destruct (submitRenewLoop _ _ ttl replicas outcomes _) as [[[c1 rest] l1] st1] eqn:Hr;
    intros [= <- _ <- <-]; destruct (IH _ _ _ _ Hr) as (Hi & Hc); (split; [done|]);
    by rewrite Hc, ?clearConfirmed_core.
Qed.

Lemma quorumSize_pos q : quorumValid q = true -> (0 < quorumSize q)%nat.
Proof. unfold quorumValid, quorumSize, parameters. repeat case_decide; simpl; lia || done. Qed.

(** Forget the start of background healing in the fields of a lease. *)
Ltac healing_core :=
  match goal with |- context [startHealingWhenDone ?n ?l ?r ?now] =>
    destruct (core_inv _ _ (startHealingWhenDone_core n l r now)) as (-> & -> & _ & _ & -> & ->) end.

(** ** Outcomes of the operations *)

Lemma Acquire_backed c run key ttl c' requests l remaining :
  quorumValid (quorum c) = true ->
  Acquire c run key ttl = Some (c', requests, inr (l, remaining)) ->
  lkey l = key /\ sequence l = u64 (nextSequence c + 1) /\ lifecycle l = leaseActive /\
  backed goodAcquire (ar_start run) (ar_events run) (serverCount c) (quorumSize (quorum c)) (validUntil l) /\
  (exists i res now nowMark nowLeft cancel,
     evResponse i res now nowMark nowLeft cancel ∈ ar_events run /\ now < validUntil l) /\
  requests.*1 = seq 0 (serverCount c) /\
  Forall (requestFor c ClientOperationACQUIRE key (sequence l)) requests.
Proof.
  intros Hv Ha. pose proof (quorumSize_pos _ Hv) as Hq. unfold Acquire in Ha.
  destruct (ar_cancel0 run); [done|].
  destruct (submitAcquireLoop _ _ _ _ _ _ _) as [[c1 reqs] sub] eqn:Hsub.
  destruct (submitAcquireLoop_sent _ _ _ _ _ _ _ _ _ _ Hsub) as (Hid & Hfst & Hall).
  destruct (ar_cancel1 run); [by destruct (releaseAll _ _ _)|].
  destruct (identity_inv _ _ Hid) as (_ & _ & _ & Hqc). clear Hid.
  destruct (acquireCollect _ _ _ _ _) as [[st u|st]|] eqn:Hcol; simpl in Ha;
    [|by destruct (releaseAll _ _ _)|done].
  injection Ha as <- <- <- <-.
  unfold acquireCollect in Hcol. unfold serverCount in *. simpl in *. rewrite Hqc in Hcol.
  apply (collect_backed goodAcquire) with (q := quorumSize (quorum c)) (start := ar_start run) in Hcol
    as (Hcore & Hback & Hev); [|apply acquireStep_sound|done..].
  healing_core. apply core_inv in Hcore as (Hs & Hk & _ & _ & Hlc & _). simpl in *. rewrite Hs.
  split_and!; done.
Qed.

Lemma Renew_backed c l run ttl c' requests l' remaining err :
  quorumValid (quorum c) = true ->
  Renew c l run ttl = Some (c', requests, l', remaining, err) ->
  sequence l' = sequence l /\ lkey l' = lkey l /\ lifecycle l' = lifecycle l /\
  match err with
  | Some e =>
      validUntil l' = validUntil l /\
      (lifecycle l = leaseReleased -> requests = [] /\ nrCause e = Some errLeaseReleased)
  | None =>
      lifecycle l = leaseActive /\
      exists until, validUntil l' = Z.max (validUntil l) until /\
        backed goodRenew (rr_start run) (rr_events run) (serverCount c) (quorumSize (quorum c)) until
  end.
Proof.
  intros Hv. pose proof (quorumSize_pos _ Hv) as Hq. unfold Renew. case_decide as Hlc.
  { intros [= <- <- <- <- <-]. done. }
  assert (Hact : lifecycle l = leaseActive) by (destruct (lifecycle l); done).
  destruct (submitRenewLoop _ _ _ _ _ _) as [[[c1 reqs] l1] sub] eqn:Hsub.
  apply submitRenewLoop_sent in Hsub as [Hid Hcore]. apply identity_inv in Hid as (_ & _ & _ & Hqc).
  apply core_inv in Hcore as (H1 & H2 & _ & _ & H5 & H6). simpl in H1, H2, H5, H6.
  destruct (rr_cancel run).
  { intros [= <- <- <- <- <-]. healing_core. rewrite Hact. split_and!; congruence. }
  destruct (renewCollect _ _ _ _ _) as [r|] eqn:Hcol; [|done]. simpl.
  unfold renewCollect in Hcol. rewrite Hqc in Hcol.
  apply (collect_backed goodRenew) with (q := quorumSize (quorum c)) (start := rr_start run) in Hcol;
    [|apply renewStep_sound|done..].
  destruct r as [st u|st]; [destruct Hcol as (Hcore & Hback & _)|rename Hcol into Hcore];
    apply core_inv in Hcore as (G1 & G2 & _ & _ & G5 & G6); simpl in *;
    intros [= <- <- <- <- <-]; healing_core.
  - assert (Hmax : validUntil (if timeAfter u (validUntil (co_lease st)) then setValidUntil (co_lease st) u
      else co_lease st) = Z.max (validUntil l) u).
    { unfold timeAfter. destruct (Z.ltb_spec (validUntil (co_lease st)) u); simpl; lia. }
    split_and!; try (destruct (timeAfter _ _); simpl; congruence).
    exists u. split; [done|]. done.
  - rewrite Hact. split_and!; congruence.
Qed.

(** ** Background goroutines *)

(** The actions on a lease, each under its mutex, that background goroutines
    make: response collectors and the healer confirm and clear replicas, and
    start or finish healing. *)
Inductive background_step (n : nat) : Lease -> Lease -> Prop :=
  | bg_mark l replica until now : background_step n l (markConfirmed l replica until now)
  | bg_clear l replica : background_step n l (clearConfirmed l replica)
  | bg_start l now : background_step n l (startBackgroundHealing n l now).1
  | bg_finish l now : background_step n l (finishBackgroundHealing n l now).1.

Lemma finishBackgroundHealing_core n l now : core (finishBackgroundHealing n l now).1 = core l.
Proof. unfold finishBackgroundHealing. by destruct (backgroundHealingNeeded _ _ _). Qed.

#[export] Hint Rewrite finishBackgroundHealing_core : lease.

Lemma background_core n l l' : rtc (background_step n) l l' -> core l' = core l.
Proof.
  induction 1 as [l|l l1 l' Hs _ IH]; [done|]. rewrite IH. by destruct Hs; autorewrite with lease.
Qed.

Lemma background_released n l l' :
  rtc (background_step n) l l' -> lifecycle l = leaseReleased -> confirmedUntil l' = confirmedUntil l.
Proof.
  induction 1 as [l|l l1 l' Hs Hr IH]; [done|]. intros Hl.
  assert (Hc : core l1 = core l) by (destruct Hs; by autorewrite with lease).
  apply core_inv in Hc as (_ & _ & _ & _ & Hl1 & _). rewrite IH by congruence.
  destruct Hs as [l i t now|l i|l now|l now];
    unfold markConfirmed, clearConfirmed, startBackgroundHealing, finishBackgroundHealing.
  - by rewrite decide_False by congruence.
  - by rewrite decide_False by congruence.
  - by destruct (_ || _).
  - by destruct (backgroundHealingNeeded _ _ _).
Qed.

Lemma bg_once n l l' : background_step n l l' -> rtc (background_step n) l l'.
Proof. apply rtc_once. Qed.

#[export] Hint Resolve bg_once bg_mark bg_clear bg_start bg_finish rtc_refl : lease.

Lemma collectRemainingAcquire_background n start remaining l events l' :
  collectRemainingAcquire start remaining l events = Some l' -> rtc (background_step n) l l'.
Proof.
  revert l events. induction remaining as [|k IH]; intros l events; simpl; [by intros [= <-]|].
  destruct events as [|[i r now nm nl c| |] events]; [done| |by intros [= <-]..].
  intros H. etrans; [|by eapply IH].
  destruct r as [e|r]; [done|]. destruct (_ && _); [|done]. destruct (timeBefore _ _); auto with lease.
Qed.

Lemma collectRemainingRenew_background n start remaining l events l' :
  collectRemainingRenew start remaining l events = Some l' -> rtc (background_step n) l l'.
Proof.
  revert l events. induction remaining as [|k IH]; intros l events; simpl; [by intros [= <-]|].
  destruct events as [|[i r now nm nl c| |] events]; [done| |by intros [= <-]..].
  intros H. etrans; [|by eapply IH].
  destruct r as [e|r]; [auto with lease|].
  destruct (_ && _); [|auto with lease]. destruct (timeBefore _ _); auto with lease.
Qed.

Lemma healCollect_background n start remaining l k events l' k' :
  healCollect start remaining l k events = Some (l', k') -> rtc (background_step n) l l'.
Proof.
  revert l k events. induction remaining as [|m IH]; intros l k events; simpl; [by intros [= <- <-]|].
  destruct events as [|[i r now nm nl c| |] events]; [done| |by intros [= <- <-]..].
  destruct (match r with inl _ => _ | inr _ => _ end) as [l1 k1] eqn:H1. intros H.
  etrans; [|by eapply IH]. clear H IH.
  destruct r as [e|r]; [by injection H1 as <- <-|]. destruct (_ && _); [|by injection H1 as <- <-].
  destruct (timeBefore _ _); injection H1 as <- <-; auto with lease.
Qed.

(** Healing sends Acquires of this very lease with the TTL it was acquired with. *)
Definition healRequest (c : Client) (l : Lease) (e : nat * outboundConnectionRequest) : Prop :=
  requestFor c ClientOperationACQUIRE (lkey l) (sequence l) e /\ req_ttlMS e.2 = requestedTTLMS l.

Lemma healRequest_core c l c' l' e :
  identity c' = identity c -> core l' = core l -> healRequest c' l' e -> healRequest c l e.
Proof.
  intros Hi (H1 & H2 & H3 & _)%core_inv [Hr Ht]. split; [|congruence].
  rewrite <- H1, <- H2. by eapply requestFor_identity.
Qed.

Lemma healSubmit_sent c l replicas outcomes c' requests remaining :
  healSubmit c l replicas outcomes = (c', requests, remaining) ->
  identity c' = identity c /\ requests.*1 = replicas /\ Forall (healRequest c l) requests.
Proof.
  revert c requests remaining. induction replicas as [|i replicas IH]; intros c requests remaining;
    simpl; [by intros [= <- <- _]|].
  destruct (healSubmit _ l replicas outcomes) as [[c1 rest] k] eqn:Hr. intros [= <- <- <-].
  destruct (IH _ _ _ Hr) as (Hi & Hf & Hall). split_and!; [done|simpl; by f_equal|].
  constructor; [done|]. eapply list.Forall_impl; [exact Hall|]. intros e.
  by apply healRequest_core.
Qed.

Lemma healReplicas_background c l replicas now outcomes events c' requests l' k n :
  healReplicas c l replicas now outcomes events = Some (c', requests, l', k) ->
  identity c' = identity c /\ rtc (background_step n) l l' /\ Forall (healRequest c l) requests.
Proof.
  unfold healReplicas. case_decide; [by intros [= <- <- <- <-]|].
  destruct (negb _); [by intros [= <- <- <- <-]|].
  destruct (healSubmit c l replicas outcomes) as [[c1 reqs] remaining] eqn:Hsub.
  apply healSubmit_sent in Hsub as (Hi & _ & Hall).
  destruct (healCollect _ _ _ _ _) as [[l1 k1]|] eqn:Hc; simpl; [|done].
  intros [= <- <- <- <-]. split_and!; [done|by eapply healCollect_background|done].
Qed.

Lemma backgroundHealRound_background c l attempt round step n :
  backgroundHealRound c l attempt round = Some step ->
  match step with
  | healStopped c' l' requests | healAgain c' l' requests _ =>
      identity c' = identity c /\ rtc (background_step n) l l' /\ Forall (healRequest c l) requests
  end.
Proof.
  unfold backgroundHealRound. destruct (healingTargets _ l (hr_now round)) as [ts0 needed0].
  destruct (negb needed0); [by intros [= <-]|]. destruct (negb _); [by intros [= <-]|].
  destruct (healingTargets _ l _) as [ts needed]. destruct (negb needed); [by intros [= <-]|].
  case_decide; [by intros [= <-]|].
  destruct (healReplicas _ _ _ _ _ _) as [[[[c1 reqs] l1] k]|] eqn:Hh; simpl; [|done].
  intros [= <-]. by eapply healReplicas_background.
Qed.

Lemma backgroundHeal_background c l attempt rounds finish c' l' requests again :
  backgroundHeal c l attempt rounds finish = Some (c', l', requests, again) ->
  identity c' = identity c /\ rtc (background_step (serverCount c)) l l' /\
  Forall (healRequest c l) requests.
Proof.
  revert c l attempt requests. induction rounds as [|round rounds IH]; intros c l attempt requests;
    simpl; [done|].
  destruct (backgroundHealRound c l attempt round) as [step|] eqn:Hs; simpl; [|done].
  apply backgroundHealRound_background with (n := serverCount c) in Hs.
  destruct step as [c1 l1 reqs|c1 l1 reqs a1]; destruct Hs as (Hi & Hr & Hall).
  - assert (Hn : serverCount c1 = serverCount c).
    { unfold serverCount. by destruct (identity_inv _ _ Hi) as (_ & _ & _ & ->). }
    destruct (finishBackgroundHealing _ l1 finish) as [l2 ag] eqn:Hf. intros [= <- <- <- <-].
    split_and!; [done| |done]. etrans; [exact Hr|]. apply bg_once.
    replace l2 with (finishBackgroundHealing (serverCount c) l1 finish).1 by (rewrite <- Hn, Hf; done).
    apply bg_finish.
  - destruct (backgroundHeal c1 l1 a1 rounds finish) as [[[[c2 l2] more] ag]|] eqn:Hb; simpl; [|done].
    intros [= <- <- <- <-]. apply IH in Hb as (Hi2 & Hr2 & Hall2).
    assert (Hn : serverCount c1 = serverCount c).
    { unfold serverCount. by destruct (identity_inv _ _ Hi) as (_ & _ & _ & ->). }
    rewrite Hn in Hr2. split_and!; [congruence|by etrans|]. apply Forall_app. split; [done|].
    eapply list.Forall_impl; [exact Hall2|]. intros e.
    by apply healRequest_core, (background_core (serverCount c)).
Qed.

(** ** The healing goroutine *)

(** A lease with the number of healing goroutines that run for it. Public
    operations and background goroutines interleave. *)
Inductive healer_step (n : nat) : Lease * nat -> Lease * nat -> Prop :=
  | hs_mark l k replica until now : healer_step n (l, k) (markConfirmed l replica until now, k)
  | hs_clear l k replica : healer_step n (l, k) (clearConfirmed l replica, k)
  | hs_renew l k now : healer_step n (l, k) (setNow l now, k)
  | hs_extend l k until : healer_step n (l, k) (setValidUntil l until, k)
  | hs_release l k c : healer_step n (l, k) ((Release c l).1.2, k)
  | hs_start l k now l' (started : bool) :
      startBackgroundHealing n l now = (l', started) ->
      healer_step n (l, k) (l', if started then S k else k)
  | hs_finish l k now l' (again : bool) :
      finishBackgroundHealing n l now = (l', again) ->
      healer_step n (l, S k) (l', if again then S k else k).

Lemma backgroundHealingNeeded_spec n l now :
  backgroundHealingNeeded n l now = true <->
  lifecycle l = leaseActive /\ now < validUntil l /\
  exists i t, (i < n)%nat /\ confirmedUntil l !! i = Some t /\ t < validUntil l.
Proof.
  unfold backgroundHealingNeeded. rewrite !andb_true_iff, bool_decide_eq_true, existsb_exists.
  unfold timeBefore. rewrite Z.ltb_lt. split.
  - intros [[? ?] (t & Hin & Hlt%Z.ltb_lt)]. split_and!; [done..|].
    apply list_elem_of_In, list_elem_of_lookup in Hin as [i Hi]. apply lookup_take_Some in Hi as [? ?].
    by exists i, t.
  - intros (? & ? & i & t & Hi & Hl & Ht). split_and!; [done..|]. exists t.
    split; [|by apply Z.ltb_lt]. apply list_elem_of_In, list_elem_of_lookup. exists i.
    by apply lookup_take_Some.
Qed.

Lemma healer_count n l k l' k' :
  rtc (healer_step n) (l, k) (l', k') -> k = Nat.b2n (healing l) -> k' = Nat.b2n (healing l').
Proof.
  intros Hr. remember (l, k) as x eqn:Hx. remember (l', k') as y eqn:Hy.
  revert l k Hx. induction Hr as [|x z y Hs _ IH]; intros l k -> Hk; [by injection Hy as <- <-|].
  specialize (IH Hy). destruct z as [l1 k1]. apply (IH l1 k1 eq_refl). clear IH.
  inversion Hs; subst; clear Hs.
  - unfold markConfirmed. case_decide; [|done]. by destruct (_ && _).
  - unfold clearConfirmed. by case_decide.
  - done.
  - done.
  - unfold Release. case_decide; [done|]. by destruct (releaseAll _ _ _).
  - match goal with H : startBackgroundHealing _ _ _ = _ |- _ => revert H end.
    unfold startBackgroundHealing. destruct (healing l) eqn:Hh; simpl; [by intros [= <- <-]; rewrite Hh|].
    destruct (backgroundHealingNeeded _ _ _); intros [= <- <-]; simpl; by rewrite ?Hh.
  - match goal with H : finishBackgroundHealing _ _ _ = _ |- _ => revert H end.
    unfold finishBackgroundHealing. destruct (healing l); simpl in *; [|lia].
    destruct (backgroundHealingNeeded _ _ _); intros [= <- <-]; simpl; lia.
Qed.

(** ** A concrete client for the witnesses *)

Definition demoClient : Client := mkClient 12 99 4 100 Quorum2Of3 Second.

Definition demoGrant (replica : nat) (ttl now : Z) : event :=
  evResponse replica (inr (mkResponse 7 ClientOperationACQUIRE LeaseStatusOK ttl)) now now now None.

Definition demoBusy (replica : nat) (now : Z) : event :=
  evResponse replica (inr (mkResponse 7 ClientOperationACQUIRE LeaseStatusBUSY 0)) now now now None.

(** Replicas 0 and 2 grant the lease. *)
Definition demoRun : acquireRun :=
  mkAcquireRun 1000 None (fun _ => None) None [demoGrant 0 3000 2000; demoGrant 2 2000 3000; demoBusy 1 3000] 3000.

(** Replica 0 cannot be reached and replica 1 holds another lease. *)
Definition demoLostRun : acquireRun :=
  mkAcquireRun 1000 None (fun i => if decide (i = 0%nat) then Some errSendQueueFull else None) None
    [demoBusy 1 3000; demoBusy 2 3000; demoBusy 2 3000] 3000.

Definition demoLease : Lease :=
  mkLease 5 77 3000 1000 leaseActive (1000 + 1900 * Millisecond)
    [1000 + 2900 * Millisecond; zeroTime; 1000 + 1900 * Millisecond; zeroTime; zeroTime] false false.

Definition demoRenewed (replica : nat) (status ttl now : Z) : event :=
  evResponse replica (inr (mkResponse 8 ClientOperationRENEW status ttl)) now now now None.

(** ** Theorems *)

(** C3: a lease returned by Acquire is backed by a quorum. At least the quorum
    size of different replicas answered the Acquire of this very lease with
    success, each with a TTL whose conservative expiry is not before the
    lease's; the expiry lay in the future when the quorum was reached; and
    exactly one Acquire request per replica, no Release, was submitted. *)
Theorem acquire_quorum_backed c run key ttl c' requests l remaining :
  quorumValid (quorum c) = true ->
  Acquire c run key ttl = Some (c', requests, inr (l, remaining)) ->
  lkey l = key /\ sequence l = u64 (nextSequence c + 1) /\ lifecycle l = leaseActive /\
  backed goodAcquire (ar_start run) (ar_events run) (serverCount c) (quorumSize (quorum c)) (validUntil l) /\
  (exists i res now nowMark nowLeft cancel,
     evResponse i res now nowMark nowLeft cancel ∈ ar_events run /\ now < validUntil l) /\
  requests.*1 = seq 0 (serverCount c) /\
  Forall (requestFor c ClientOperationACQUIRE key (sequence l)) requests.
Proof. apply Acquire_backed. Qed.

Lemma acquire_quorum_backed_witness :
  lkey demoLease = 77 /\ sequence demoLease = u64 (nextSequence demoClient + 1) /\
  lifecycle demoLease = leaseActive /\
  backed goodAcquire 1000 (ar_events demoRun) 3 2 (validUntil demoLease) /\
  (exists i res now nowMark nowLeft cancel,
     evResponse i res now nowMark nowLeft cancel ∈ ar_events demoRun /\ now < validUntil demoLease) /\
  exists requests : list (nat * outboundConnectionRequest), requests.*1 = [0; 1; 2]%nat /\
  Forall (requestFor demoClient ClientOperationACQUIRE 77 5) requests.
Proof.
  destruct (Acquire demoClient demoRun 77 3000) as [[[c' reqs] r]|] eqn:Ha; [|vm_compute in Ha; done].
  assert (Hr : r = inr (demoLease, 1%nat)) by (vm_compute in Ha; injection Ha as _ _ <-; reflexivity).
  subst r.
  pose proof (acquire_quorum_backed demoClient demoRun 77 3000 c' reqs demoLease 1 eq_refl Ha)
    as (H1 & H2 & H3 & H4 & H5 & H6 & H7).
  split_and!; try assumption. exists reqs. by split.
Defined.

(** An Acquire that fails after it may have reached a server is undone: it
    submits one Release of the same lease to every replica, after the Acquires.
    An Acquire that is cancelled before it starts submits nothing and uses no
    sequence number. *)
Lemma acquire_failure_cleans_up c run key ttl c' requests e :
  Acquire c run key ttl = Some (c', requests, inl e) ->
  match ar_cancel0 run with
  | Some cause => requests = [] /\ c' = c /\ e = mkNotAcquired (Some cause) false
  | None =>
      let sequence := u64 (nextSequence c + 1) in
      nextSequence c' = sequence /\
      exists acquires releases, requests = acquires ++ releases /\
        acquires.*1 = seq 0 (serverCount c) /\ releases.*1 = seq 0 (serverCount c) /\
        Forall (requestFor c ClientOperationACQUIRE key sequence) acquires /\
        Forall (requestFor c ClientOperationRELEASE key sequence) releases
  end.
Proof.
  unfold Acquire. destruct (ar_cancel0 run); [by intros [= <- <- <-]|].
  destruct (submitAcquireLoop _ _ _ _ _ _ _) as [[c1 reqs] sub] eqn:Hsub.
  destruct (submitAcquireLoop_sent _ _ _ _ _ _ _ _ _ _ Hsub) as (Hid & Hfst & Hall).
  assert (Hrel : forall c2 rels, releaseAll c1 key (u64 (nextSequence c + 1)) = (c2, rels) ->
    nextSequence c2 = u64 (nextSequence c + 1) /\ rels.*1 = seq 0 (serverCount c) /\
    Forall (requestFor c ClientOperationRELEASE key (u64 (nextSequence c + 1))) rels).
  { intros c2 rels Hr. unfold releaseAll in Hr. apply releaseLoop_sent in Hr as (Hid2 & Hf2 & Ha2).
    destruct (identity_inv _ _ Hid) as (Hi1 & Hi2 & Hi3 & Hqc).
    destruct (identity_inv _ _ Hid2) as (_ & _ & Hi4 & _). simpl in *.
    unfold serverCount in *. rewrite Hqc in Hf2. split_and!; [|done|].
    - congruence.
    - eapply list.Forall_impl; [exact Ha2|]. intros e0 (? & ? & ? & Hc1 & Hb1).
      unfold requestFor. by rewrite <- Hi1, <- Hi2. }
  destruct (releaseAll c1 key _) as [c2 rels]. specialize (Hrel c2 rels eq_refl) as (Hn & Hf2 & Ha2).
  destruct (ar_cancel1 run) as [e1|].
  - intros [= <- <- <-]. simpl. eauto 10.
  - destruct (acquireCollect _ _ _ _ _) as [[st u|st]|]; simpl; [done| |done].
    intros [= <- <- <-]. eauto 10.
Qed.

(** C21: operations end. Acquire and Renew need at most one event per replica to
    return, whatever the events are. *)
Theorem operations_terminate c l acquire renew key ttl :
  (serverCount c <= length (ar_events acquire))%nat ->
  (serverCount c <= length (rr_events renew))%nat ->
  is_Some (Acquire c acquire key ttl) /\ is_Some (Renew c l renew ttl).
Proof.
  intros Ha Hr. split.
  - unfold Acquire. destruct (ar_cancel0 acquire); [by eexists|].
    destruct (submitAcquireLoop _ _ _ _ _ _ _) as [[c1 reqs] sub].
    destruct (releaseAll c1 _ _) as [c2 rels]. destruct (ar_cancel1 acquire); [by eexists|].
    unfold serverCount in *. simpl in *. unfold acquireCollect.
    match goal with |- context [collectLoop ?n ?s ?st ?e] =>
      destruct (collectLoop_total n s st e (acquireStep_received _ _ _)) as [r ->] end; [simpl; lia|].
    by destruct r; eexists.
  - unfold Renew. case_decide; [by eexists|].
    destruct (submitRenewLoop _ _ _ _ _ _) as [[[c1 reqs] l1] sub]. destruct (rr_cancel renew); [by eexists|].
    unfold serverCount, renewCollect in *.
    match goal with |- context [collectLoop ?n ?s ?st ?e] =>
      destruct (collectLoop_total n s st e (renewStep_received _ _ _)) as [r ->] end; [simpl; lia|].
    by destruct r; eexists.
Qed.

Lemma operations_terminate_witness :
  is_Some (Acquire demoClient demoLostRun 77 3000) /\
  is_Some (Renew demoClient demoLease (mkRenewRun 5 (fun _ => None) None
    [evCallerCanceled; evCallerCanceled; evCallerCanceled] 0) 3000).
Proof.
  apply (operations_terminate demoClient demoLease demoLostRun
    (mkRenewRun 5 (fun _ => None) None [evCallerCanceled; evCallerCanceled; evCallerCanceled] 0));
    vm_compute; lia.
Defined.

(** C7: Renew never shortens a lease and never extends it without a quorum. On
    success the expiry becomes the later of the old one and one backed by a
    quorum of Renew replies; on failure, and for a released lease, it stays
    what it was. Identity and lifecycle never change, and a released lease is
    refused without a request. *)
Theorem renew_sound c l run ttl c' requests l' remaining err :
  quorumValid (quorum c) = true ->
  Renew c l run ttl = Some (c', requests, l', remaining, err) ->
  sequence l' = sequence l /\ lkey l' = lkey l /\ lifecycle l' = lifecycle l /\
  match err with
  | Some e =>
      validUntil l' = validUntil l /\
      (lifecycle l = leaseReleased -> requests = [] /\ nrCause e = Some errLeaseReleased)
  | None =>
      lifecycle l = leaseActive /\
      exists until, validUntil l' = Z.max (validUntil l) until /\
        backed goodRenew (rr_start run) (rr_events run) (serverCount c) (quorumSize (quorum c)) until
  end.
Proof. apply Renew_backed. Qed.

Lemma renew_sound_witness :
  let run := mkRenewRun (10 ^ 9) (fun i => if decide (i = 1%nat) then Some errSendQueueFull else None) None
    [demoRenewed 2 LeaseStatusSTALE 0 (10 ^ 9); demoRenewed 0 LeaseStatusOK 3000 (10 ^ 9)] 0 in
  exists c' requests l' remaining err,
    Renew demoClient demoLease run 3000 = Some (c', requests, l', remaining, Some err) /\
    validUntil l' = validUntil demoLease.
Proof.
  intros run. destruct (Renew demoClient demoLease run 3000) as [[[[[c' reqs] l'] rem] err]|] eqn:Hr;
    [|vm_compute in Hr; done].
  pose proof (renew_sound demoClient demoLease run 3000 c' reqs l' rem err eq_refl Hr) as (_ & _ & _ & Hm).
  destruct err as [e|]; [|vm_compute in Hr; done].
  exists c', reqs, l', rem, e. split; [done|]. by destruct Hm.
Defined.

(** C15: Release is final. It tells every replica once to release this very
    lease, makes the lease invalid at once and for good: it has no time left at
    any instant, nothing confirms a replica or starts healing any more, Renew
    refuses it, and another Release does nothing. *)
Theorem release_final c l c' l' requests :
  lifecycle l = leaseActive -> Release c l = (c', l', requests) ->
  requests.*1 = seq 0 (serverCount c) /\
  Forall (requestFor c ClientOperationRELEASE (lkey l) (sequence l)) requests /\
  (forall now, RemainingTTLms l' now = 0) /\
  (forall n l2, rtc (background_step n) l' l2 ->
     core l2 = core l' /\ confirmedUntil l2 = replicate maxServerCount zeroTime /\
     (forall now, startBackgroundHealing n l2 now = (l2, false)) /\
     (forall c2, Release c2 l2 = (c2, l2, []))) /\
  (forall c2 run ttl, Renew c2 l' run ttl =
     Some (c2, [], l', 0%nat, Some (mkNotRenewed (Some errLeaseReleased)))).
Proof.
  intros Ha. unfold Release. rewrite decide_False by (rewrite Ha; tauto).
  destruct (releaseAll _ _ _) as [c1 reqs] eqn:Hrel. intros [= <- <- <-].
  unfold releaseAll in Hrel. apply releaseLoop_sent in Hrel as (_ & Hf & Hall).
  split_and!; [done..| | |].
  - intros now. unfold RemainingTTLms. by rewrite decide_True by (simpl; done).
  - intros n l2 Hb. assert (Hc := background_core _ _ _ Hb).
    assert (Hu := background_released _ _ _ Hb eq_refl).
    apply core_inv in Hc as Hc'. destruct Hc' as (_ & _ & _ & _ & Hl & _). simpl in Hl.
    split_and!; [done|done| |].
    + intros now. unfold startBackgroundHealing, backgroundHealingNeeded. rewrite Hl. simpl.
      by destruct (healing l2).
    + intros c2. unfold Release. by rewrite decide_True by (rewrite Hl; done).
  - intros c2 run ttl. unfold Renew. by rewrite decide_True by (simpl; done).
Qed.

Lemma release_final_witness :
  exists c' l' requests, Release demoClient demoLease = (c', l', requests) /\
    requests.*1 = [0; 1; 2]%nat /\ RemainingTTLms l' 1000 = 0 /\ RemainingTTLms demoLease 1000 = 1900.
Proof.
  destruct (Release demoClient demoLease) as [[c' l'] reqs] eqn:Hr.
  pose proof (release_final demoClient demoLease c' l' reqs eq_refl Hr) as (H1 & _ & H3 & _).
  exists c', l', reqs. split_and!; [done|exact H1|apply H3|vm_compute; reflexivity].
Defined.

(** Background work never extends a lease. Whatever the collectors of late
    responses and the healing goroutine receive, and however their critical
    sections interleave, the expiry, the identity and the lifecycle of the
    lease stay what they were; healing only repeats Acquires of this very
    lease with its own TTL. *)
Theorem background_never_extends c l l' :
  (rtc (background_step (serverCount c)) l l' -> core l' = core l) /\
  (forall start remaining events now,
     collectRemainingAcquireResults (serverCount c) start remaining l events now = Some l' \/
     collectRemainingRenewResults (serverCount c) start remaining l events now = Some l' ->
     rtc (background_step (serverCount c)) l l') /\
  (forall attempt rounds finish c' requests again,
     backgroundHeal c l attempt rounds finish = Some (c', l', requests, again) ->
     rtc (background_step (serverCount c)) l l' /\ Forall (healRequest c l) requests).
Proof.
  split_and!.
  - apply background_core.
  - intros start remaining events now [H|H].
    + unfold collectRemainingAcquireResults in H.
      destruct (collectRemainingAcquire _ _ _ _) as [l1|] eqn:H1; [|done]. injection H as <-.
      eapply rtc_r; [by eapply collectRemainingAcquire_background|apply bg_start].
    + unfold collectRemainingRenewResults in H.
      destruct (collectRemainingRenew _ _ _ _) as [l1|] eqn:H1; [|done]. injection H as <-.
      eapply rtc_r; [by eapply collectRemainingRenew_background|apply bg_start].
  - intros * H. by apply backgroundHeal_background in H as (_ & ? & ?).
Qed.

Lemma background_never_extends_witness :
  exists l', collectRemainingAcquireResults 3 1000 1 demoLease [demoGrant 1 3000 2000] 2000 = Some l' /\
    confirmedAt l' 1 = 1000 + 2900 * Millisecond /\ validUntil l' = validUntil demoLease.
Proof.
  destruct (collectRemainingAcquireResults 3 1000 1 demoLease [demoGrant 1 3000 2000] 2000) as [l'|] eqn:H;
    [|vm_compute in H; done].
  exists l'. split; [done|]. split; [vm_compute in H; injection H as <-; reflexivity|].
  pose proof (background_never_extends demoClient demoLease l') as (H1 & H2 & _).
  assert (Hc : core l' = core demoLease) by (apply H1, (H2 1000 1%nat [demoGrant 1 3000 2000] 2000); by left).
  apply core_inv in Hc. tauto.
Defined.



(** Closing the client does not stop healing. While a lease needs healing, a
    healing goroutine whose wait ends because the client was closed (it neither
    submits anything nor waits) starts its successor through
    [finishBackgroundHealing] and leaves the lease as it found it, so that the
    same happens again at once, until the lease expires or is released. *)
Theorem healing_respawns_after_close c l delay now outcomes events :
  healing l = true -> backgroundHealingNeeded (serverCount c) l now = true ->
  waitForHealingRetry delay false true false = Some false /\
  backgroundHeal c l 0 [mkHealRound now false now now outcomes events] now = Some (c, l, [], true).
Proof.
  intros Hh Hn. split; [unfold waitForHealingRetry; by destruct (delay <=? 0)|].
  simpl. unfold backgroundHealRound. simpl. unfold healingTargets. rewrite Hn. simpl.
  assert (Hn' : forall h, backgroundHealingNeeded (serverCount c) (setHealing l h) now = true) by (intros h; exact Hn).
  unfold finishBackgroundHealing. rewrite Hn'. f_equal. destruct l; simpl in *. by subst.
Qed.
