(* ===== verification/ClientProgress.v ===== *)
(** * Acquire does not give up early (src/client/acquire.go)

    An Acquire that nobody cancels fails only when the replies it has seen leave
    no quorum that is still valid, whatever the outstanding replicas answer. *)

From S2P Require Import Prelude Protocol Quorum Codec Client ClientSafety.
From stdpp Require Import base gmap list numbers tactics.

#[local] Open Scope Z_scope.

(** ** The replies seen so far *)

(** The expiries of the successful replies, by replica. *)
Definition record (start : Z) (arrays : list Z * list bool) (ev : event) : list Z * list bool :=
  match ev with
  | evResponse replica (inr r) _ _ _ _ =>
      if bool_decide (Operation r = ClientOperationACQUIRE) && isSuccessfulAcquire (Status r)
      then (<[replica := candidateValidUntil start (TTLMS r)]> arrays.1, <[replica := true]> arrays.2)
      else arrays
  | _ => arrays
  end.

Definition recorded (start : Z) (events : list event) : list Z * list bool :=
  foldl (record start) (replicate maxServerCount zeroTime, replicate maxServerCount false) events.

(** The events are responses, nobody cancels, and the clock does not run
    backwards from [t] on. *)
Fixpoint uncancelled (t : Z) (events : list event) : Prop :=
  match events with
  | [] => True
  | evResponse _ _ now _ nowLeft None :: events => t <= now <= nowLeft /\ uncancelled nowLeft events
  | _ :: _ => False
  end.

(** The last reading of the clock. *)
Fixpoint lastReading (t : Z) (events : list event) : Z :=
  match events with
  | [] => t
  | evResponse _ _ _ _ nowLeft _ :: events => lastReading nowLeft events
  | _ :: events => lastReading t events
  end.

(** How many replicas have a successful reply that is still valid at [t]. *)
Definition usable (n : nat) (arrays : list Z * list bool) (t : Z) : nat :=
  usableCount (take n arrays.1) (take n arrays.2) t.

Definition refusals (n : nat) (outcomes : nat -> option opError) : nat :=
  length (filter (fun i => is_Some (outcomes i)) (seq 0 n)).

(** ** Lemmas *)

Lemma usable_later n arrays t t' : t <= t' -> (usable n arrays t' <= usable n arrays t)%nat.
Proof.
  intros Ht. unfold usable. rewrite !usableCount_moreThan. unfold moreThan.
  induction (successfulCandidates _ _) as [|c l IH]; [done|]. rewrite !filter_cons.
  repeat case_decide; simpl; lia.
Qed.

(** A quorum that is not reached at [now] has fewer usable replies. *)
Lemma no_quorum_usable n arrays q now until has :
  (0 < q)%nat -> bestAcquireQuorum (take n arrays.1) (take n arrays.2) q = (until, has) ->
  has && timeBefore now until = false -> (usable n arrays now < q)%nat.
Proof.
  intros Hq Hb Hf. unfold usable. rewrite usableCount_moreThan. destruct has; simpl in Hf.
  - apply Z.ltb_ge in Hf. apply bestAcquireQuorum_Some in Hb as (_ & _ & Hlt); [|done].
    eapply Nat.le_lt_trans; [|exact Hlt]. clear Hlt. unfold moreThan.
    induction (successfulCandidates _ _) as [|c l IH]; [done|]. rewrite !filter_cons.
    repeat case_decide; simpl; lia.
  - apply bestAcquireQuorum_false in Hb. eapply Nat.le_lt_trans; [|exact Hb]. apply length_filter.
Qed.

(** Either possible end of a round. *)
Ltac round_ends Hstop arrays :=
  match goal with |- context [if ?b then continue _ else stop _] =>
    destruct b eqn:?; [done|by apply (Hstop arrays)] end.

(** One step on a response that is not cancelled: what the loop knows after it. *)
Lemma acquireStep_progress n q start st i r now nm nl t :
  (0 < q)%nat -> t <= now <= nl -> (usable n (co_candidates st, co_successful st) t < q)%nat ->
  let ev := evResponse i r now nm nl None in
  match acquireStep n q start st ev with
  | continue st' =>
      (co_candidates st', co_successful st') = record start (co_candidates st, co_successful st) ev /\
      co_received st' = S (co_received st) /\ (usable n (co_candidates st', co_successful st') nl < q)%nat
  | stop st' =>
      (usable n (record start (co_candidates st, co_successful st) ev) nl + (n - S (co_received st)) < q)%nat
  | quorumReached _ _ => True
  end.
Proof.
  intros Hq Ht Hu ev.
  assert (Hstop : forall arrays, acquireQuorumStillPossible (take n arrays.1) (take n arrays.2)
    (n - S (co_received st)) nl q = false -> (usable n arrays nl + (n - S (co_received st)) < q)%nat).
  { intros arrays Hp. apply Nat.leb_gt in Hp. unfold usable. lia. }
  assert (Hsame : (usable n (co_candidates st, co_successful st) nl < q)%nat)
    by (eapply Nat.le_lt_trans; [apply usable_later with (t := t); lia|done]).
  set (same := (co_candidates st, co_successful st)) in *.
  subst ev. unfold record. destruct r as [e|r]; simpl; [round_ends Hstop same|].
  case_decide as Hop.
  { rewrite bool_decide_eq_false_2 by done. round_ends Hstop same. }
  rewrite bool_decide_eq_true_2 by lia. simpl.
  destruct (isSuccessfulAcquire (Status r)); [|round_ends Hstop same].
  destruct (bestAcquireQuorum _ _ _) as [until has] eqn:Hb.
  destruct (has && timeBefore now until) eqn:Hh; [done|].
  set (arrays := (_, _)).
  assert (Hlt : (usable n arrays nl < q)%nat).
  { eapply Nat.le_lt_trans; [apply usable_later with (t := now); lia|].
    by apply (no_quorum_usable n arrays q now until has). }
  round_ends Hstop arrays.
Qed.

Lemma collect_progress n q start st t events st' :
  (0 < q)%nat -> uncancelled t events -> (co_received st <= n)%nat ->
  (usable n (co_candidates st, co_successful st) t < q)%nat ->
  collectLoop n (acquireStep n q start) st events = Some (notCollected st') ->
  exists seen rest, events = seen ++ rest /\ (co_received st + length seen <= n)%nat /\
    (usable n (foldl (record start) (co_candidates st, co_successful st) seen) (lastReading t seen) +
     (n - (co_received st + length seen)) < q)%nat.
Proof.
  intros Hq. revert st t. induction events as [|ev events IH]; intros st t Hun Hrec Hu; simpl.
  { destruct (Nat.ltb_spec (co_received st) n); [done|]. intros [= <-]. exists [], []. simpl.
    split_and!; [done|lia|lia]. }
  destruct (Nat.ltb_spec (co_received st) n) as [Hlt|Hge].
  2:{ intros [= <-]. exists [], (ev :: events). simpl. split_and!; [done|lia|lia]. }
  destruct ev as [i r now nm nl [e|]| |]; simpl in Hun; [done| |done..]. destruct Hun as [Ht Hun].
  pose proof (acquireStep_progress n q start st i r now nm nl t Hq Ht Hu) as Hs. cbv zeta in Hs.
  destruct (acquireStep n q start st _) as [st1|st1|st1 u]; [| |done].
  - destruct Hs as (Heq & Hr & Hu1). intros Hc.
    destruct (IH st1 nl Hun ltac:(lia) Hu1 Hc) as (seen & rest & -> & Hl & Hlt2).
    exists (evResponse i r now nm nl None :: seen), rest. split; [done|]. rewrite Hr in Hl, Hlt2.
    change (foldl (record start) (co_candidates st, co_successful st) (evResponse i r now nm nl None :: seen))
      with (foldl (record start) (record start (co_candidates st, co_successful st) (evResponse i r now nm nl None)) seen).
    rewrite <- Heq. cbn [length lastReading]. rewrite Nat.add_succ_r. split; [lia|exact Hlt2].
  - intros _. exists [evResponse i r now nm nl None], events. cbn [length lastReading foldl].
    rewrite Nat.add_1_r. split_and!; [done|lia|exact Hs].
Qed.

Lemma submitAcquireLoop_refusals c key sequence ttl k n outcomes st c' l st' :
  submitAcquireLoop c key sequence ttl (seq k n) outcomes st = (c', l, st') ->
  sub_received st' = (sub_received st + length (filter (fun i => is_Some (outcomes i)) (seq k n)))%nat.
Proof.
  revert c k l st c'. induction n as [|n IH]; intros c k l st c'; cbn [seq submitAcquireLoop].
  { intros [= _ _ <-]. simpl. lia. }
  destruct (newAcquireRequest c key sequence ttl) as [c1 request].
  destruct (submitAcquireLoop c1 key sequence ttl (seq (S k) n) outcomes _) as [[c2 rest] st2] eqn:Hr.
  intros [= _ _ <-]. rewrite (IH _ _ _ _ _ Hr). rewrite filter_cons.
  destruct (outcomes k); simpl; lia.
Qed.

Lemma usable_start n t : usable n (recorded t []) t = 0%nat.
Proof.
  unfold usable, recorded. cbn [foldl fst snd]. generalize maxServerCount. intros m.
  rewrite !take_replicate. generalize (n `min` m)%nat. intros k. induction k as [|k IH]; [done|].
  simpl. exact IH.
Qed.

(** ** Theorems *)

(** C16: Acquire gives up only when it must. If nobody cancels the call and the
    clock does not run backwards, an Acquire that fails has seen replies after
    which no quorum was left: the replicas with a successful reply still valid
    at the last reading of the clock, together with all replicas that have not
    answered yet and could still be reached, are fewer than the quorum size. *)
Theorem acquire_refusal_justified c run key ttl c' requests e :
  quorumValid (quorum c) = true -> ar_cancel0 run = None -> ar_cancel1 run = None ->
  uncancelled (ar_start run) (ar_events run) ->
  Acquire c run key ttl = Some (c', requests, inl e) ->
  exists seen rest, ar_events run = seen ++ rest /\
    let n := serverCount c in
    let answeredOrRefused := (refusals n (ar_outcomes run) + length seen)%nat in
    (answeredOrRefused <= n)%nat /\
    (usable n (recorded (ar_start run) seen) (lastReading (ar_start run) seen) + (n - answeredOrRefused)
     < quorumSize (quorum c))%nat.
Proof.
  intros Hv H0 H1 Hun. pose proof (quorumSize_pos _ Hv) as Hq. unfold Acquire. rewrite H0, H1.
  destruct (submitAcquireLoop _ _ _ _ _ _ _) as [[c1 reqs] sub] eqn:Hsub.
  apply submitAcquireLoop_refusals in Hsub as Href. simpl in Href.
  apply submitAcquireLoop_sent in Hsub as [Hid _].
  destruct (acquireCollect _ _ _ _ _) as [[st u|st]|] eqn:Hcol; simpl; [done| |done].
  apply identity_inv in Hid as (_ & _ & _ & Hqc). simpl in Hqc.
  unfold acquireCollect, serverCount in *. simpl in *. rewrite Hqc in Hcol. intros _.
  fold (refusals (quorumServers (quorum c)) (ar_outcomes run)) in Href.
  assert (Hle : (refusals (quorumServers (quorum c)) (ar_outcomes run) <= quorumServers (quorum c))%nat).
  { unfold refusals. etrans; [apply length_filter|]. by rewrite length_seq. }
  apply (collect_progress _ _ _ _ (ar_start run)) in Hcol; simpl; [|done|done|lia|].
  - simpl in Hcol. rewrite Href in Hcol. exact Hcol.
  - pose proof (usable_start (quorumServers (quorum c)) (ar_start run)) as Hz. unfold recorded in Hz.
    simpl in Hz. rewrite Hz. done.
Qed.

Lemma acquire_refusal_justified_witness :
  exists seen rest, [demoBusy 1 3000; demoBusy 2 3000; demoBusy 2 3000] = seen ++ rest /\
    (1 + length seen <= 3)%nat /\
    (usable 3 (recorded 1000 seen) (lastReading 1000 seen) + (3 - (1 + length seen)) < 2)%nat.
Proof.
  destruct (Acquire demoClient demoLostRun 77 3000) as [[[c' reqs] [e|r]]|] eqn:Ha;
    [|vm_compute in Ha; done..].
  apply (acquire_refusal_justified demoClient demoLostRun 77 3000 c' reqs e);
    [reflexivity|reflexivity|reflexivity|simpl; lia|exact Ha].
Defined.
