(* ===== verification/Healing.v ===== *)
(** * Release against a running healing batch (src/client/release.go, healing.go)

    A healing goroutine sends Acquires of a lease while its owner may call
    Release. An Acquire that overtook the Release on the way to a server would
    bring the lease back, so Release first marks the lease and then waits for
    the batch that is being submitted. Here both goroutines advance one critical
    section or one submission at a time. *)

From S2P Require Import Prelude Protocol Quorum Codec Client ClientSafety.
From stdpp Require Import base gmap list numbers relations tactics.

#[local] Open Scope Z_scope.

(** Where the healing goroutine is in [healReplicas]. *)
Inductive healerPC :=
  | healIdle
  | healSubmitting (replicas : list nat)
  | healCollecting.

(** Where the owner is in [Release]. *)
Inductive releaserPC :=
  | relIdle
  | relWaiting
  | relSubmitting (replicas : list nat)
  | relDone.

Record race := mkRace {
  ra_client : Client;
  ra_lease : Lease;
  ra_healer : healerPC;
  ra_releaser : releaserPC;
  ra_batches : nat;                (* [healingBatches] *)
  ra_sent : sent                   (* the submitted requests, in order *)
}.

Inductive race_step : race -> race -> Prop :=
  (* [healReplicas]: the critical section at its start *)
  | rs_heal_enter c l rel batches log replicas now :
      lifecycle l = leaseActive -> timeBefore now (validUntil l) = true ->
      race_step (mkRace c l healIdle rel batches log)
        (mkRace c l (healSubmitting replicas) rel (S batches) log)
  | rs_heal_submit c l rel batches log replica replicas c' request :
      newAcquireRequest c (lkey l) (sequence l) (requestedTTLMS l) = (c', request) ->
      race_step (mkRace c l (healSubmitting (replica :: replicas)) rel batches log)
        (mkRace c' l (healSubmitting replicas) rel batches (log ++ [(replica, request)]))
  | rs_heal_submitted c l rel batches log :
      race_step (mkRace c l (healSubmitting []) rel (S batches) log)
        (mkRace c l healCollecting rel batches log)
  | rs_heal_done c l rel batches log :
      race_step (mkRace c l healCollecting rel batches log) (mkRace c l healIdle rel batches log)
  (* confirmations and the healing flag, by any background goroutine *)
  | rs_background c l h rel batches log n l' :
      background_step n l l' ->
      race_step (mkRace c l h rel batches log) (mkRace c l' h rel batches log)
  (* [Release] *)
  | rs_release_mark c l h batches log :
      lifecycle l = leaseActive ->
      race_step (mkRace c l h relIdle batches log) (mkRace c (markReleased l) h relWaiting batches log)
  | rs_release_wait c l h log :
      race_step (mkRace c l h relWaiting 0 log)
        (mkRace c l h (relSubmitting (seq 0 (serverCount c))) 0 log)
  | rs_release_submit c l h batches log replica replicas c' request :
      newReleaseRequest c (lkey l) (sequence l) = (c', request) ->
      race_step (mkRace c l h (relSubmitting (replica :: replicas)) batches log)
        (mkRace c' l h (relSubmitting replicas) batches (log ++ [(replica, request)]))
  | rs_release_done c l h batches log :
      race_step (mkRace c l h (relSubmitting []) batches log)
        (mkRace c (closeReleaseDone l) h relDone batches log).

Definition raceStart (c : Client) (l : Lease) : race := mkRace c l healIdle relIdle 0 [].

(** ** Invariant *)

Definition submitting (h : healerPC) : nat :=
  match h with healSubmitting _ => 1%nat | _ => 0%nat end.

(** The replicas that Release has addressed so far. *)
Definition releasedReplicas (n : nat) (rel : releaserPC) (js : list nat) : Prop :=
  match rel with
  | relIdle | relWaiting => js = []
  | relSubmitting rest => js ++ rest = seq 0 n
  | relDone => js = seq 0 n
  end.

Record race_inv (c0 : Client) (l0 : Lease) (r : race) : Prop := {
  ri_client : identity (ra_client r) = identity c0;
  ri_lease : sequence (ra_lease r) = sequence l0 /\ lkey (ra_lease r) = lkey l0 /\
    requestedTTLMS (ra_lease r) = requestedTTLMS l0;
  ri_active : lifecycle (ra_lease r) = leaseActive <-> ra_releaser r = relIdle;
  ri_batches : ra_batches r = submitting (ra_healer r);
  ri_exclusive : ra_releaser r <> relIdle -> ra_releaser r <> relWaiting ->
    submitting (ra_healer r) = 0%nat;
  ri_sent : exists heals releases, ra_sent r = heals ++ releases /\
    Forall (healRequest c0 l0) heals /\
    Forall (requestFor c0 ClientOperationRELEASE (lkey l0) (sequence l0)) releases /\
    releasedReplicas (serverCount c0) (ra_releaser r) releases.*1
}.

Lemma serverCount_identity c c' : identity c' = identity c -> serverCount c' = serverCount c.
Proof. unfold serverCount. by intros (_ & _ & _ & ->)%identity_inv. Qed.

Lemma race_step_inv c0 l0 r r' : race_step r r' -> race_inv c0 l0 r -> race_inv c0 l0 r'.
Proof.
  intros Hstep [H1 H2 H3 H4 H5 (heals & releases & H6 & H7 & H8 & H9)].
  destruct Hstep as [c l rel b log js now Hact Hnow|c l rel b log i js c' q Hq|c l rel b log|c l rel b log
    |c l h rel b log n l' Hbg|c l h b log Hact|c l h log|c l h b log i js c' q Hq|c l h b log];
    simpl in *.
  - apply H3 in Hact. subst rel. split; simpl; try done; [lia|]. exists heals, releases. done.
  - assert (Hrel : releases = []).
    { apply (fmap_nil_inv fst). destruct rel; simpl in *; try done;
        specialize (H5 ltac:(done) ltac:(done)); done. }
    subst releases. injection Hq as <- <-. split; simpl; try done.
    exists (heals ++ [(i, mkOutbound (u64 (nextRequestID c + 1)) (lkey l) (sequence l) (requestedTTLMS l)
      (clientID c) (bootID c) ClientOperationACQUIRE)]), []. split_and!.
    + by rewrite H6, !app_nil_r.
    + apply Forall_app. split; [done|]. constructor; [|done]. apply identity_inv in H1 as (? & ? & _).
      destruct H2 as (? & ? & ?). unfold healRequest, requestFor. simpl. done.
    + done.
    + done.
  - split; simpl; try done; [lia|]. exists heals, releases. done.
  - split; simpl; try done. exists heals, releases. done.
  - assert (Hc : core l' = core l) by (destruct Hbg; by autorewrite with lease).
    apply core_inv in Hc as (G1 & G2 & G3 & _ & G5 & _).
    rewrite <- G1, <- G2, <- G3, <- G5 in *. split; simpl; try done. exists heals, releases. done.
  - split; simpl; try done. exists heals, releases. done.
  - split; simpl; try done; [by rewrite H3|].
    exists heals, releases. split_and!; [done..|].
    rewrite H9. simpl. by rewrite (serverCount_identity _ _ H1).
  - injection Hq as <- <-. split; simpl; try done; [by rewrite H3|by intros; apply H5|].
    exists heals, (releases ++ [(i, mkOutbound (u64 (nextRequestID c + 1)) (lkey l) (sequence l) 0
      (clientID c) (bootID c) ClientOperationRELEASE)]). split_and!.
    + by rewrite H6, app_assoc.
    + done.
    + apply Forall_app. split; [done|]. constructor; [|done]. apply identity_inv in H1 as (? & ? & _).
      destruct H2 as (? & ? & ?). unfold requestFor. simpl. done.
    + rewrite fmap_app. simpl. by rewrite <- app_assoc.
  - split; simpl; try done; [by rewrite H3|by intros; apply H5|]. exists heals, releases.
    split_and!; [done..|]. by rewrite app_nil_r in H9.
Qed.

Lemma race_reachable_inv c l r :
  lifecycle l = leaseActive -> rtc race_step (raceStart c l) r -> race_inv c l r.
Proof.
  intros Hact Hr. assert (H0 : race_inv c l (raceStart c l)).
  { split; simpl; try done. by exists [], []. }
  revert H0. induction Hr as [r|r1 r2 r3 Hs _ IH]; [done|]. intros H. apply IH. by eapply race_step_inv.
Qed.

(** ** Theorems *)

(** C10: a Release is never overtaken by healing. However the healing goroutine
    and Release interleave, every healing Acquire is submitted before the first
    Release of the lease, and when Release returns each replica has been
    addressed exactly once, in order. *)
Theorem release_follows_healing c l r :
  lifecycle l = leaseActive -> rtc race_step (raceStart c l) r ->
  exists heals releases, ra_sent r = heals ++ releases /\
    Forall (healRequest c l) heals /\
    Forall (requestFor c ClientOperationRELEASE (lkey l) (sequence l)) releases /\
    (ra_releaser r = relDone ->
       releases.*1 = seq 0 (serverCount c) /\ lifecycle (ra_lease r) = leaseReleased).
Proof.
  intros Hact Hr. apply race_reachable_inv in Hr as [_ _ H3 _ _ (heals & releases & H6 & H7 & H8 & H9)];
    [|done].
  exists heals, releases. split_and!; [done..|]. intros Hd. rewrite Hd in *. split; [done|].
  destruct (lifecycle (ra_lease r)); [|done]. by discriminate (proj1 H3 eq_refl).
Qed.

Lemma release_follows_healing_witness :
  let request id op ttl := mkOutbound id 77 5 ttl 12 99 op in
  let r := mkRace (mkClient 12 99 4 101 Quorum2Of3 Second) (markReleased demoLease) healCollecting
    relWaiting 0 [(1%nat, request 101 ClientOperationACQUIRE 3000)] in
  rtc race_step (raceStart demoClient demoLease) r /\
  exists heals releases, ra_sent r = heals ++ releases /\
    Forall (healRequest demoClient demoLease) heals /\
    Forall (requestFor demoClient ClientOperationRELEASE 77 5) releases.
Proof.
  intros request r.
  assert (Hr : rtc race_step (raceStart demoClient demoLease) r).
  { eapply rtc_l; [apply (rs_heal_enter _ _ _ _ _ [1%nat] 2000); vm_compute; reflexivity|].
    eapply rtc_l; [apply rs_release_mark; reflexivity|].
    eapply rtc_l; [by apply (rs_heal_submit _ _ _ _ _ 1 [])|].
    eapply rtc_l; [apply rs_heal_submitted|]. apply rtc_refl. }
  split; [exact Hr|].
  destruct (release_follows_healing demoClient demoLease r eq_refl Hr) as (h & rl & H1 & H2 & H3 & _).
  exists h, rl. split_and!; [exact H1|exact H2|exact H3].
Defined.
