(* ===== verification/System.v ===== *)
(** * The whole system: lock-servers, clients and clocks

    The nodes of a deployment are lock-server processes that run the handlers of
    [Server], crash and restart with an empty table. Every process and every
    client has its own clock. A client holds a lease when its own code
    ([Acquire], [Renew] and the background goroutines of [Client]) says so on the
    strength of replies that nodes produced. The result is mutual exclusion: at
    no moment do two different leases of one key have time left.

    Go's [time.Now] is monotonic within a process, so clocks are monotone
    functions of the real time. What is assumed of them is only that, while a
    client's clock advances by at most the maximum TTL, a node's clock does not
    gain more than the safety margin on it. *)

From S2P Require Import Prelude LeaseShard Protocol Server ServerSpec ServerLifecycle.
From S2P Require Import Quorum Codec Client ClientSafety.
From stdpp Require Import base gmap list numbers relations tactics.

#[local] Open Scope Z_scope.

(** ** State *)

(** A node: the running process, how many processes ran before it, and the real
    time it was started. *)
Record node := mkNode {
  n_server : Server;
  n_incarnation : nat;
  n_born : Z
}.

(** A successful reply to an Acquire or a Renew, with the real time at which the
    node made it. *)
Record grant := mkGrant {
  g_node : nat;
  g_incarnation : nat;
  g_key : Z;
  g_id : leaseID;
  g_time : Z;
  g_ttl : Z
}.

Record system := mkSystem {
  sys_time : Z;
  sys_nodes : list node;
  sys_grants : list grant;
  sys_released : list (nat * Z * leaseID)    (* the Releases that reached a node *)
}.

Section System.
(** Reading of the clock of process [k] of node [i] at a real time, and the hash
    function of that process. *)
Context (clock : nat -> nat -> Z -> Z) (hash : nat -> nat -> Z -> Z).

Definition granted (op : operation) (r : option Response) : option Z :=
  match r with
  | Some r =>
      if bool_decide (op_kind op <> operationRelease) && isSuccessfulAcquire (Status r)
      then Some (TTLMS r) else None
  | None => None
  end.

Definition recordGrant (σ : system) (i k : nat) (op : operation) (r : option Response) : list grant :=
  match granted op r with
  | Some ttl => mkGrant i k (op_key op) (op_leaseID op) (sys_time σ) ttl :: sys_grants σ
  | None => sys_grants σ
  end.

Definition recordRelease (σ : system) (i : nat) (op : operation) : list (nat * Z * leaseID) :=
  if bool_decide (op_kind op = operationRelease) then (i, op_key op, op_leaseID op) :: sys_released σ
  else sys_released σ.

Definition updateNode (σ : system) (i : nat) (n : node) : system :=
  mkSystem (sys_time σ) (<[i := n]> (sys_nodes σ)) (sys_grants σ) (sys_released σ).

Definition withServer (n : node) (s : Server) : node := mkNode s (n_incarnation n) (n_born n).

(** Time passes; a node applies an operation, removes expired leases, ends its
    quarantine when the timer says so, fails, closes or registers connections;
    or it dies and a new process starts in its place. *)
Inductive system_step : system -> system -> Prop :=
  | sys_tick σ t : sys_time σ <= t ->
      system_step σ (mkSystem t (sys_nodes σ) (sys_grants σ) (sys_released σ))
  | sys_operation σ i n op got s' r :
      sys_nodes σ !! i = Some n -> 0 <= op_requestedTTLMS op ->
      submitOperation (hash i (n_incarnation n)) (n_server n) op
        (clock i (n_incarnation n) (sys_time σ)) got = Some (s', r) ->
      system_step σ (mkSystem (sys_time σ) (<[i := withServer n s']> (sys_nodes σ))
        (recordGrant σ i (n_incarnation n) op r) (recordRelease σ i op))
  | sys_cleanup σ i n s' :
      sys_nodes σ !! i = Some n ->
      cleanupTick (n_server n) (clock i (n_incarnation n) (sys_time σ)) = Some s' ->
      system_step σ (updateNode σ i (withServer n s'))
  | sys_quarantine σ i n :
      sys_nodes σ !! i = Some n ->
      RestartQuarantineDuration <=
        clock i (n_incarnation n) (sys_time σ) - clock i (n_incarnation n) (n_born n) ->
      system_step σ (updateNode σ i (withServer n (quarantineElapsed (n_server n))))
  | sys_fail σ i n cause :
      sys_nodes σ !! i = Some n -> connectionFailure cause ->
      system_step σ (updateNode σ i (withServer n (fail (n_server n) cause)))
  | sys_close σ i n :
      sys_nodes σ !! i = Some n ->
      system_step σ (updateNode σ i (withServer n (Close (n_server n))))
  | sys_connections σ i n conns k :
      sys_nodes σ !! i = Some n ->
      system_step σ (updateNode σ i (withServer n (setConnections (n_server n) conns k)))
  | sys_restart σ i n c s' :
      sys_nodes σ !! i = Some n -> config_typed c -> Server.New true c = inr s' ->
      system_step σ (updateNode σ i (mkNode s' (S (n_incarnation n)) (sys_time σ))).

(** All nodes have just been started. *)
Definition system_start (σ : system) : Prop :=
  sys_grants σ = [] /\ sys_released σ = [] /\
  forall i n, sys_nodes σ !! i = Some n ->
    n_incarnation n = 0%nat /\ n_born n = sys_time σ /\
    exists c, config_typed c /\ Server.New true c = inr (n_server n).

Inductive system_reachable : system -> Prop :=
  | sr_start σ : system_start σ -> system_reachable σ
  | sr_step σ σ' : system_reachable σ -> system_step σ σ' -> system_reachable σ'.

(** ** Clients *)

Definition leaseIdentity (c : Client) (l : Lease) : leaseID :=
  LeaseID (clientID c) (bootID c) (sequence l).

(** The replies of the lease on [key] with identity [id] that a client handles
    in an operation started at the real time [start] were made by the nodes
    after that. *)
Definition authentic (σ : system) (key : Z) (id : leaseID) (good : Response -> Prop) (start : Z)
    (events : list event) : Prop :=
  forall replica r now nowMark nowLeft cancel,
    evResponse replica (inr r) now nowMark nowLeft cancel ∈ events -> good r ->
    exists g, g ∈ sys_grants σ /\ g_node g = replica /\ g_key g = key /\ g_id g = id /\
      g_ttl g = TTLMS r /\ start <= g_time g.

(** The client [c], whose clock is [cc], obtained the lease [l]: by Acquire, then
    possibly through Renews, successful or not, and background work. *)
Inductive holding (σ : system) (cc : Z -> Z) (c : Client) : Lease -> Prop :=
  | hold_acquired c0 run key ttl c1 requests l remaining start :
      clientID c0 = clientID c -> bootID c0 = bootID c -> quorum c0 = quorum c ->
      Acquire c0 run key ttl = Some (c1, requests, inr (l, remaining)) ->
      ar_start run = cc start ->
      authentic σ key (leaseIdentity c l) goodAcquire start (ar_events run) ->
      holding σ cc c l
  | hold_renewed l c0 run ttl c1 requests l' remaining err start :
      holding σ cc c l -> quorum c0 = quorum c ->
      Renew c0 l run ttl = Some (c1, requests, l', remaining, err) ->
      rr_start run = cc start ->
      authentic σ (lkey l) (leaseIdentity c l) goodRenew start (rr_events run) ->
      holding σ cc c l'
  | hold_background l n l' :
      holding σ cc c l -> rtc (background_step n) l l' -> holding σ cc c l'.

(** None of the Releases that reached a node names this lease. *)
Definition unreleased (σ : system) (key : Z) (id : leaseID) : Prop :=
  forall i, (i, key, id) ∉ sys_released σ.

(** ** Assumptions on clocks *)

Definition monotone (f : Z -> Z) : Prop := forall t t', t <= t' -> f t <= f t'.

Definition drift_bounded (cc : Z -> Z) : Prop :=
  forall i k t t', t <= t' -> cc t' - cc t <= ProtocolMaxTTL ->
    clock i k t' - clock i k t <= cc t' - cc t + safetyMargin.

(** ** Invariant of the nodes *)

(** A grant that nobody released is, for the process that made it, either over
    or still in its table. *)
Definition grant_kept (σ : system) (i : nat) (n : node) (g : grant) : Prop :=
  let read := clock i (n_incarnation n) in
  read (g_time g) + g_ttl g * Millisecond <= read (sys_time σ) \/
  exists d, serverTable (n_server n) !! g_key g = Some (g_id g, d) /\
    read (g_time g) + g_ttl g * Millisecond <= d.

Record node_inv (σ : system) (i : nat) (n : node) : Prop := {
  ni_reachable : reachable (hash i (n_incarnation n)) (n_server n);
  ni_born : n_born n <= sys_time σ;
  ni_active : phase (n_server n) = phaseActive ->
    RestartQuarantineDuration <=
      clock i (n_incarnation n) (sys_time σ) - clock i (n_incarnation n) (n_born n);
  ni_grants : forall g, g ∈ sys_grants σ -> g_node g = i ->
    (g_incarnation g = n_incarnation n /\
      ((i, g_key g, g_id g) ∉ sys_released σ -> grant_kept σ i n g)) \/
    g_time g <= n_born n
}.

(** [g1] was over, by the clock of the process that made [g2], before [g2] was
    made. *)
Definition over_before (g1 g2 : grant) : Prop :=
  exists b, g_time g1 <= b <= g_time g2 /\
    g_ttl g1 * Millisecond <=
      clock (g_node g2) (g_incarnation g2) (g_time g2) - clock (g_node g2) (g_incarnation g2) b.

Record system_inv (σ : system) : Prop := {
  si_nodes : forall i n, sys_nodes σ !! i = Some n -> node_inv σ i n;
  si_grant : forall g, g ∈ sys_grants σ -> g_time g <= sys_time σ /\ g_ttl g <= MaxTTLMS;
  si_disjoint : forall g1 g2, g1 ∈ sys_grants σ -> g2 ∈ sys_grants σ ->
    g_node g1 = g_node g2 -> g_key g1 = g_key g2 -> g_id g1 <> g_id g2 ->
    (g_node g1, g_key g1, g_id g1) ∉ sys_released σ ->
    (g_node g2, g_key g2, g_id g2) ∉ sys_released σ ->
    over_before g1 g2 \/ over_before g2 g1
}.

(** ** Preservation *)

Context (clock_monotone : forall i k, monotone (clock i k)).

(** Grants and time stay, the node [i] is replaced: what has to be shown. *)
Lemma node_inv_frame σ σ' i n :
  sys_time σ' = sys_time σ -> sys_grants σ' = sys_grants σ -> sys_released σ' = sys_released σ ->
  node_inv σ i n -> node_inv σ' i n.
Proof.
  intros Ht Hg Hr [H1 H2 H3 H4]. split; unfold grant_kept in *; rewrite ?Ht, ?Hg, ?Hr; done.
Qed.

Lemma update_inv σ i n n' :
  sys_nodes σ !! i = Some n -> system_inv σ -> node_inv σ i n' -> system_inv (updateNode σ i n').
Proof.
  intros Hi [H1 H2 H3] Hn'. split; [|done..]. simpl. intros j m Hj.
  destruct (decide (j = i)) as [->|Hne].
  - rewrite list_lookup_insert_eq in Hj by by eapply lookup_lt_Some.
    injection Hj as <-. by apply (node_inv_frame σ).
  - rewrite list_lookup_insert_ne in Hj by done. apply (node_inv_frame σ); auto.
Qed.

(** A process that keeps every entry that is still live, and does not turn
    active, keeps the invariant of its node. *)
Lemma node_inv_keeps σ i n s' :
  node_inv σ i n -> server_step (hash i (n_incarnation n)) (n_server n) s' ->
  (phase s' = phaseActive -> phase (n_server n) = phaseActive \/
     RestartQuarantineDuration <=
      clock i (n_incarnation n) (sys_time σ) - clock i (n_incarnation n) (n_born n)) ->
  (forall k id d, serverTable (n_server n) !! k = Some (id, d) ->
     clock i (n_incarnation n) (sys_time σ) < d ->
     (i, k, id) ∈ sys_released σ \/ exists d', serverTable s' !! k = Some (id, d') /\ d <= d') ->
  node_inv σ i (withServer n s').
Proof.
  intros [H1 H2 H3 H4] Hstep Hact Hkeep. split; simpl.
  - by eapply reachable_step.
  - done.
  - intros Hp. destruct (Hact Hp); auto.
  - intros g Hg Hn. destruct (H4 g Hg Hn) as [[Hk Hkept]|Hb]; [left|by right]. split; [done|].
    intros Hrel. destruct (Hkept Hrel) as [Hover|(d & Hd & Hle)]; [by left|].
    unfold grant_kept in *. simpl in *.
    destruct (decide (clock i (n_incarnation n) (sys_time σ) < d)) as [Hlt|]; [|left; lia].
    destruct (Hkeep _ _ _ Hd Hlt) as [?|(d' & Hd' & ?)]; [done|]. right. exists d'. split; [done|lia].
Qed.

Lemma tick_inv σ t :
  sys_time σ <= t -> system_inv σ ->
  system_inv (mkSystem t (sys_nodes σ) (sys_grants σ) (sys_released σ)).
Proof.
  intros Ht [H1 H2 H3]. split; simpl.
  - intros i n Hi. destruct (H1 i n Hi) as [G1 G2 G3 G4]. assert (Hm := clock_monotone i (n_incarnation n) _ _ Ht).
    split; simpl; [done|lia|intros; specialize (G3 ltac:(done)); lia|].
    intros g Hg Hn. destruct (G4 g Hg Hn) as [[Hk Hkept]|]; [left|by right]. split; [done|].
    intros Hrel. destruct (Hkept Hrel) as [Hover|Hd]; [left|right; done]. simpl in *. lia.
  - intros g Hg. destruct (H2 g Hg). lia.
  - done.
Qed.

Lemma restart_inv σ i n c s' :
  sys_nodes σ !! i = Some n -> config_typed c -> Server.New true c = inr s' ->
  system_inv σ -> system_inv (updateNode σ i (mkNode s' (S (n_incarnation n)) (sys_time σ))).
Proof.
  intros Hi Hc Hnew Hinv. pose proof Hinv as [H1 H2 H3].
  apply (update_inv _ _ n); [done..|]. split; simpl.
  - by eapply reachable_new.
  - done.
  - destruct (New_inv (hash i 0) c s' Hc Hnew) as (_ & _ & ->). done.
  - intros g Hg _. right. by apply H2.
Qed.

Lemma quiet_inv σ i n s' :
  sys_nodes σ !! i = Some n -> system_inv σ ->
  server_step (hash i (n_incarnation n)) (n_server n) s' ->
  (phase s' = phaseActive -> phase (n_server n) = phaseActive \/
     RestartQuarantineDuration <=
      clock i (n_incarnation n) (sys_time σ) - clock i (n_incarnation n) (n_born n)) ->
  (forall k id d, serverTable (n_server n) !! k = Some (id, d) ->
     clock i (n_incarnation n) (sys_time σ) < d -> serverTable s' !! k = Some (id, d)) ->
  system_inv (updateNode σ i (withServer n s')).
Proof.
  intros Hi Hinv Hstep Hact Hkeep. pose proof Hinv as [H1 H2 H3]. apply (update_inv _ _ n); [done..|].
  apply node_inv_keeps; auto. intros k id d Hk Hd. right. exists d. split; [auto|lia].
Qed.

(** ** An operation on a node *)

Lemma granted_Some op r ttl :
  granted op r = Some ttl ->
  exists resp, r = Some resp /\ ttl = TTLMS resp /\ op_kind op <> operationRelease /\
    isSuccessfulAcquire (Status resp) = true.
Proof.
  unfold granted. destruct r as [resp|]; [|done].
  destruct (bool_decide _) eqn:Hb; [|done]. simpl. destruct (isSuccessfulAcquire _) eqn:Hs; [|done].
  intros [= <-]. apply bool_decide_eq_true in Hb. eauto.
Qed.

(** A grant made now excludes every other unreleased grant of the key on the
    node. *)
Lemma grant_over σ i n op got s' r ttl g :
  node_inv σ i n -> (forall g, g ∈ sys_grants σ -> g_time g <= sys_time σ /\ g_ttl g <= MaxTTLMS) ->
  0 <= op_requestedTTLMS op ->
  submitOperation (hash i (n_incarnation n)) (n_server n) op
    (clock i (n_incarnation n) (sys_time σ)) got = Some (s', r) ->
  granted op r = Some ttl ->
  g ∈ sys_grants σ -> g_node g = i -> g_key g = op_key op -> g_id g <> op_leaseID op ->
  (i, g_key g, g_id g) ∉ sys_released σ ->
  over_before g (mkGrant i (n_incarnation n) (op_key op) (op_leaseID op) (sys_time σ) ttl).
Proof.
  intros [G1 G2 G3 G4] Hgr Hreq Hsub Hgrant Hg Hn Hk Hid Hrel. unfold over_before. simpl.
  apply granted_Some in Hgrant as (resp & -> & -> & Hkind & Hok).
  destruct (Hgr g Hg) as [Htime Httl].
  destruct (reachable_run_inv _ _ G1) as [Hinv _].
  destruct (G4 g Hg Hn) as [[Hinc Hkept]|Hborn].
  - exists (g_time g). split; [lia|]. destruct (Hkept Hrel) as [Hover|(d & Hd & Hle)]; simpl in *; [lia|].
    destruct (decide (clock i (n_incarnation n) (sys_time σ) < d)) as [Hlt|]; [exfalso|lia].
    rewrite Hk in Hd. edestruct (submit_foreign _ _ _ _ _ _ _ _ _ Hinv Hreq Hsub Hd Hlt Hid Hkind) as [Hs|Hs];
      rewrite Hs in Hok; vm_compute in Hok; done.
  - exists (n_born n). split; [lia|].
    destruct (decide (phase (n_server n) = phaseActive)) as [Hact|Hact].
    + specialize (G3 Hact). change RestartQuarantineDuration with 5101000000 in G3.
      unfold MaxTTLMS, Millisecond in *. lia.
    + by rewrite submitOperation_inactive in Hsub by done.
Qed.

Lemma recordRelease_mono σ i op x : x ∉ recordRelease σ i op -> x ∉ sys_released σ.
Proof. unfold recordRelease. destruct (bool_decide _); set_solver. Qed.

(** More Releases and grants of other nodes do not matter to a node. *)
Lemma node_inv_more σ σ' i n :
  sys_time σ' = sys_time σ -> (forall x, x ∉ sys_released σ' -> x ∉ sys_released σ) ->
  (forall g, g ∈ sys_grants σ' -> g_node g = i -> g ∈ sys_grants σ \/
     g_incarnation g = n_incarnation n /\ ((i, g_key g, g_id g) ∉ sys_released σ' -> grant_kept σ' i n g)) ->
  node_inv σ i n -> node_inv σ' i n.
Proof.
  intros Ht Hr Hg [H1 H2 H3 H4]. split; rewrite ?Ht; [done..|].
  intros g Hin Hn. destruct (Hg g Hin Hn) as [Hin'|Hnew]; [|by left].
  destruct (H4 g Hin' Hn) as [[Hk Hkept]|]; [left|by right]. split; [done|].
  intros Hrel. unfold grant_kept in *. rewrite Ht. auto.
Qed.

Lemma recordGrant_In σ i k op r g :
  g ∈ recordGrant σ i k op r ->
  g ∈ sys_grants σ \/ exists ttl, granted op r = Some ttl /\
    g = mkGrant i k (op_key op) (op_leaseID op) (sys_time σ) ttl.
Proof.
  unfold recordGrant. destruct (granted op r) as [ttl|]; [|auto].
  intros [-> | Hin]%elem_of_cons; eauto.
Qed.

Lemma operation_node_inv σ i n op got s' r :
  node_inv σ i n -> 0 <= op_requestedTTLMS op ->
  submitOperation (hash i (n_incarnation n)) (n_server n) op
    (clock i (n_incarnation n) (sys_time σ)) got = Some (s', r) ->
  node_inv (mkSystem (sys_time σ) (<[i := withServer n s']> (sys_nodes σ))
    (recordGrant σ i (n_incarnation n) op r) (recordRelease σ i op)) i (withServer n s').
Proof.
  intros Hn Hreq Hsub. destruct (reachable_run_inv _ _ (ni_reachable _ _ _ Hn)) as [Hinv _].
  set (σr := mkSystem (sys_time σ) (sys_nodes σ) (sys_grants σ) (recordRelease σ i op)).
  assert (Hr : node_inv σr i (withServer n s')).
  { apply node_inv_keeps.
    - apply (node_inv_more σ); [done|apply recordRelease_mono|by left|done].
    - by eapply step_operation.
    - intros Hact. left. destruct (submitOperation_inv _ _ op (clock i (n_incarnation n) (sys_time σ)) got Hinv Hreq)
        as (s1 & r1 & Hs1 & _ & Hl). rewrite Hs1 in Hsub. injection Hsub as -> ->.
      by rewrite <- (lifecycle_phase _ _ Hl).
    - intros k id d Hk Hd. simpl. unfold recordRelease.
      destruct (decide (op_kind op = operationRelease /\ op_key op = k /\ op_leaseID op = id))
        as [(Hkd & <- & <-)|Hne].
      + left. rewrite bool_decide_eq_true_2 by done. set_solver.
      + right. by eapply submit_keeps. }
  apply (node_inv_more σr); [done|done| |done].
  intros g [Hg|(ttl & Hgr & ->)]%recordGrant_In Hnode; [by left|right]. split; [done|]. intros _.
  apply granted_Some in Hgr as (resp & -> & -> & _ & _).
  destruct (submit_ttl_backed _ _ _ _ _ _ _ Hinv Hreq Hsub) as [_ Hpos]. unfold grant_kept. simpl.
  destruct (decide (0 < TTLMS resp)) as [Hp|]; [|left; unfold Millisecond; lia].
  destruct (Hpos Hp) as (_ & d & Hd & Hle). right. by exists d.
Qed.

Lemma operation_inv σ i n op got s' r :
  sys_nodes σ !! i = Some n -> system_inv σ -> 0 <= op_requestedTTLMS op ->
  submitOperation (hash i (n_incarnation n)) (n_server n) op
    (clock i (n_incarnation n) (sys_time σ)) got = Some (s', r) ->
  system_inv (mkSystem (sys_time σ) (<[i := withServer n s']> (sys_nodes σ))
    (recordGrant σ i (n_incarnation n) op r) (recordRelease σ i op)).
Proof.
  intros Hi [H1 H2 H3] Hreq Hsub. pose proof (H1 i n Hi) as Hn.
  destruct (reachable_run_inv _ _ (ni_reachable _ _ _ Hn)) as [Hinv _].
  split; simpl.
  - intros j m Hj. destruct (decide (j = i)) as [->|Hne].
    + rewrite list_lookup_insert_eq in Hj by by eapply lookup_lt_Some. injection Hj as <-.
      by apply (operation_node_inv σ i n op got s' r).
    + rewrite list_lookup_insert_ne in Hj by done.
      apply (node_inv_more σ); [done|apply recordRelease_mono| |auto].
      intros g [Hg|(ttl & _ & ->)]%recordGrant_In Hnode; [by left|]. simpl in Hnode. congruence.
  - intros g [Hg|(ttl & Hgr & ->)]%recordGrant_In; [auto|]. simpl. split; [done|].
    apply granted_Some in Hgr as (resp & -> & -> & _ & _).
    destruct (submit_ttl_backed _ _ _ _ _ _ _ Hinv Hreq Hsub) as [Hle _].
    pose proof (si_ttl _ _ Hinv). lia.
  - intros g1 g2 [Hg1|(t1 & Hr1 & ->)]%recordGrant_In [Hg2|(t2 & Hr2 & ->)]%recordGrant_In Hnode Hkey Hid
      Hrel1%recordRelease_mono Hrel2%recordRelease_mono; simpl in *.
    + auto.
    + left. eapply grant_over; eauto. by rewrite <- Hnode.
    + right. eapply grant_over; eauto. by rewrite Hnode.
    + done.
Qed.

Lemma system_step_inv σ σ' : system_step σ σ' -> system_inv σ -> system_inv σ'.
Proof.
  intros Hstep Hinv. destruct Hstep as [σ t Ht|σ i n op got s' r Hi Hreq Hsub|σ i n s' Hi Hc|σ i n Hi Hq
    |σ i n cause Hi Hc|σ i n Hi|σ i n conns k Hi|σ i n c s' Hi Hc Hnew].
  - by apply tick_inv.
  - by eapply operation_inv.
  - destruct (reachable_run_inv _ _ (ni_reachable _ _ _ (si_nodes _ Hinv i n Hi))) as [Hs _].
    apply quiet_inv; [done..|by eapply step_cleanup| |].
    + destruct (cleanupTick_inv _ _ (clock i (n_incarnation n) (sys_time σ)) Hs) as (s1 & Hs1 & _ & Hl).
      rewrite Hs1 in Hc. injection Hc as ->. left. by rewrite <- (lifecycle_phase _ _ Hl).
    + intros k id d. by eapply cleanup_keeps.
  - apply quiet_inv; [done..|apply step_quarantine|by right|].
    unfold quarantineElapsed. by case_decide.
  - apply quiet_inv; [done..|by apply step_fail| |].
    + intros Hp. left. unfold fail in Hp. destruct (failOnce _); [done|]. simpl in Hp.
      by case_decide.
    + unfold fail. destruct (failOnce _); [done|]. simpl. by case_decide.
  - apply quiet_inv; [done..|apply step_close| |].
    + intros Hp. left. unfold Close in Hp. by destruct (closeOnce _).
    + unfold Close. by destruct (closeOnce _).
  - apply quiet_inv; [done..|apply step_connections|by left|done].
  - by eapply restart_inv.
Qed.

Lemma system_reachable_inv σ : system_reachable σ -> system_inv σ.
Proof.
  induction 1 as [σ (Hg & Hr & Hn)|σ σ' _ IH Hstep]; [|by eapply system_step_inv].
  split; rewrite ?Hg; [|set_solver..]. intros i n Hi. destruct (Hn i n Hi) as (Hk & Hb & c & Hc & Hnew).
  split; rewrite ?Hg; [|lia| |set_solver].
  - by eapply reachable_new.
  - destruct (New_inv (hash i 0) c _ Hc Hnew) as (_ & _ & ->). done.
Qed.

(** ** Leases *)

(** [until] is backed by grants of the lease on a quorum of nodes. *)
Definition supported (σ : system) (cc : Z -> Z) (q key : Z) (id : leaseID) (until : Z) : Prop :=
  exists X : gset nat, X ⊆ set_seq 0 (quorumServers q) /\ (quorumSize q <= size X)%nat /\
    forall i, i ∈ X -> exists g start, g ∈ sys_grants σ /\ g_node g = i /\ g_key g = key /\ g_id g = id /\
      start <= g_time g /\ until <= candidateValidUntil (cc start) (g_ttl g).

Lemma backed_supported σ cc q key id good start events until :
  authentic σ key id good start events ->
  backed good (cc start) events (quorumServers q) (quorumSize q) until ->
  supported σ cc q key id until.
Proof.
  intros Hauth (X & HX & Hq & Hall). exists X. split_and!; [done..|]. intros i Hi.
  destruct (Hall i Hi) as (t & (r & now & nm & nl & cancel & Hin & Hgood & ->) & Hle).
  destruct (Hauth _ _ _ _ _ _ Hin Hgood) as (g & Hg & Hn & Hk & Hid & Httl & Hstart).
  exists g, start. split_and!; [done..|]. by rewrite Httl.
Qed.

Lemma leaseIdentity_same c l l' : sequence l' = sequence l -> leaseIdentity c l' = leaseIdentity c l.
Proof. unfold leaseIdentity. by intros ->. Qed.

Lemma holding_supported σ cc c l :
  quorumValid (quorum c) = true -> holding σ cc c l ->
  lifecycle l = leaseReleased \/
  supported σ cc (quorum c) (lkey l) (leaseIdentity c l) (validUntil l).
Proof.
  intros Hv. induction 1 as [c0 run key ttl c1 requests l remaining start _ _ Hq Ha Hs Hauth
    |l c0 run ttl c1 requests l' remaining err start Hh IH Hq Hr Hs Hauth|l n l' Hh IH Hb].
  - apply Acquire_backed in Ha as (Hk & _ & _ & Hb & _); [|by rewrite Hq]. right.
    rewrite Hs in Hb. unfold serverCount in Hb. rewrite Hq in Hb. rewrite Hk.
    by eapply backed_supported.
  - apply Renew_backed in Hr as (H1 & H2 & H3 & H4); [|by rewrite Hq].
    rewrite H2, H3, (leaseIdentity_same _ _ _ H1). destruct err as [e|].
    + destruct H4 as [-> _]. done.
    + destruct H4 as (Hact & until & -> & Hb). right. destruct IH as [|IH]; [congruence|].
      rewrite Hs in Hb. unfold serverCount in Hb. rewrite Hq in Hb.
      apply (backed_supported σ _ _ (lkey l) (leaseIdentity c l)) in Hb; [|done].
      destruct (Z.max_spec (validUntil l) until) as [[_ ->]|[_ ->]]; done.
  - apply background_core, core_inv in Hb as (H1 & H2 & _ & _ & H5 & H6).
    by rewrite H2, H5, H6, (leaseIdentity_same _ _ _ H1).
Qed.

(** While a client's lease lasts, its grant on a node is not over. *)
Lemma valid_not_over σ cc g1 g2 start until :
  system_inv σ -> monotone cc -> drift_bounded cc -> g1 ∈ sys_grants σ -> g2 ∈ sys_grants σ ->
  start <= g_time g1 -> until <= candidateValidUntil (cc start) (g_ttl g1) -> cc (sys_time σ) < until ->
  ~ over_before g1 g2.
Proof.
  intros [_ Hg _] Hm Hdrift Hin1 Hin2 Hst Hu Hlt (b & Hb & Hover).
  destruct (Hg g1 Hin1) as [Ht1 Httl1]. destruct (Hg g2 Hin2) as [Ht2 _].
  assert (cc start <= cc b) by (apply Hm; lia). assert (cc b <= cc (sys_time σ)) by (apply Hm; lia).
  destruct (candidate_later (cc start) (g_ttl g1)) as [Hr Heq]; [lia|]. rewrite Heq in Hu.
  assert (Hd := Hdrift (g_node g2) (g_incarnation g2) b (sys_time σ)).
  assert (Hc := clock_monotone (g_node g2) (g_incarnation g2) _ _ Ht2).
  change ProtocolMaxTTL with 5000000000 in Hd. change safetyMargin with 100000000 in Hd.
  unfold safetyMarginMS, MaxTTLMS, Millisecond in *. lia.
Qed.

Lemma remaining_valid l now :
  RemainingTTLms l now <> 0 -> lifecycle l = leaseActive /\ now < validUntil l.
Proof.
  unfold RemainingTTLms. case_decide as Hl; [done|]. case_decide as Hr; [done|]. intros _.
  split; [by destruct (lifecycle l)|]. destruct (Z.lt_ge_cases now (validUntil l)) as [|Hge]; [done|].
  exfalso. apply Hr. unfold Milliseconds, timeSub, Millisecond.
  apply Z.quot_le_upper_bound; lia.
Qed.


End System.

(** ** A deployment for the witness *)

(** Three nodes with exact clocks, started at time 0. *)
Definition demoClock (i k : nat) (t : Z) : Z := t.
Definition demoSystemHash (i k : nat) (key : Z) : Z := key.

Definition demoSystem0 : system := mkSystem 0 (replicate 3 (mkNode demoNew 0 0)) [] [].

Definition demoTick (t : Z) (σ : system) : system :=
  mkSystem t (sys_nodes σ) (sys_grants σ) (sys_released σ).

Definition demoActivate (i : nat) (σ : system) : system :=
  match sys_nodes σ !! i with
  | Some n => updateNode σ i (withServer n (quarantineElapsed (n_server n)))
  | None => σ
  end.

(** Node [i] applies an Acquire of key 77 by lease 5 of client 12. *)
Definition demoSystemOp : operation := mkOperation 7 operationAcquire 77 (LeaseID 12 99 5) 3000.

Definition demoApply (i : nat) (σ : system) : system :=
  match sys_nodes σ !! i with
  | Some n =>
      match submitOperation (demoSystemHash i (n_incarnation n)) (n_server n) demoSystemOp
              (demoClock i (n_incarnation n) (sys_time σ)) None with
      | Some (s', r) =>
          mkSystem (sys_time σ) (<[i := withServer n s']> (sys_nodes σ))
            (recordGrant σ i (n_incarnation n) demoSystemOp r) (recordRelease σ i demoSystemOp)
      | None => σ
      end
  | None => σ
  end.

Definition demoSystem : system :=
  demoApply 2 (demoApply 0 (demoTick (6 * Second)
    (demoActivate 2 (demoActivate 0 (demoTick (6 * Second) demoSystem0))))).

Lemma demoActivate_reachable i σ :
  system_reachable demoClock demoSystemHash σ ->
  (forall n, sys_nodes σ !! i = Some n -> n_born n + RestartQuarantineDuration <= sys_time σ) ->
  system_reachable demoClock demoSystemHash (demoActivate i σ).
Proof.
  intros Hr Ht. unfold demoActivate. destruct (sys_nodes σ !! i) as [n|] eqn:Hi; [|done].
  eapply sr_step; [exact Hr|]. apply sys_quarantine; [done|]. unfold demoClock.
  specialize (Ht n eq_refl). lia.
Qed.

Lemma demoApply_reachable i σ :
  system_reachable demoClock demoSystemHash σ ->
  system_reachable demoClock demoSystemHash (demoApply i σ).
Proof.
  intros Hr. unfold demoApply. destruct (sys_nodes σ !! i) as [n|] eqn:Hi; [|done].
  destruct (submitOperation _ _ _ _ _) as [[s' r]|] eqn:Hs; [|done].
  eapply sr_step; [exact Hr|]. eapply sys_operation; [done| |exact Hs]. simpl. lia.
Qed.

Lemma demoSystem_reachable : system_reachable demoClock demoSystemHash demoSystem.
Proof.
  assert (H0 : system_reachable demoClock demoSystemHash demoSystem0).
  { apply sr_start. split_and!; [done..|]. intros i n [-> _]%lookup_replicate_1.
    split_and!; [done..|]. exists demoConfig. split; [|reflexivity].
    unfold config_typed, is_u64, is_u32. simpl. lia. }
  assert (Htick : forall t σ, sys_time σ <= t -> system_reachable demoClock demoSystemHash σ ->
    system_reachable demoClock demoSystemHash (demoTick t σ)).
  { intros t σ Ht Hr. eapply sr_step; [exact Hr|]. by apply sys_tick. }
  assert (H1 : forall i n, sys_nodes (demoTick (6 * Second) demoSystem0) !! i = Some n ->
    n_born n + RestartQuarantineDuration <= 6 * Second).
  { intros i n [-> _]%lookup_replicate_1. vm_compute. done. }
  apply demoApply_reachable, demoApply_reachable, Htick; [vm_compute; done|].
  apply demoActivate_reachable; [|intros n Hn; vm_compute in Hn; injection Hn as <-; vm_compute; done].
  apply demoActivate_reachable; [|by apply H1]. apply Htick; [vm_compute; done|done].
Qed.

Definition demoSystemRun : acquireRun :=
  mkAcquireRun (6 * Second) None (fun _ => None) None
    [demoGrant 0 3000 (6 * Second); demoGrant 2 3000 (6 * Second)] (6 * Second).

Definition demoSystemLease : Lease :=
  match Acquire demoClient demoSystemRun 77 3000 with
  | Some (_, _, inr (l, _)) => l
  | _ => demoLease
  end.

Lemma demoSystem_holding : holding demoSystem (fun t => t) demoClient demoSystemLease.
Proof.
  destruct (Acquire demoClient demoSystemRun 77 3000) as [[[c1 reqs] r]|] eqn:Ha; [|vm_compute in Ha; done].
  eapply (hold_acquired _ _ _ demoClient demoSystemRun 77 3000 c1 reqs demoSystemLease 1 (6 * Second));
    [done..| |done|].
  - rewrite Ha. unfold demoSystemLease. rewrite Ha. by vm_compute in Ha; injection Ha as <- <- <-.
  - intros replica r' now nm nl cancel Hin _. simpl in Hin.
    repeat (apply elem_of_cons in Hin as [Hin|Hin]); [| |by apply elem_of_nil in Hin];
      injection Hin as -> -> -> -> -> ->.
    + exists (mkGrant 0 0 77 (LeaseID 12 99 5) (6 * Second) 3000).
      split_and!; [vm_compute; right; left|done..].
    + exists (mkGrant 2 0 77 (LeaseID 12 99 5) (6 * Second) 3000).
      split_and!; [vm_compute; left|done..].
Qed.

