(* ===== verification/Client1of1.v ===== *)
(** * The client of a single lock-server
    (src/client1of1/client.go, config.go, lease.go and connection.go)

    The 1/1 client keeps one connection and one outstanding request per call. A
    call registers a future under its request identifier, puts the encoded
    request into the queue and waits for the result. The queue and the queues of
    responses are the rings of [Ring] in their abstract form. *)

From S2P Require Import Prelude Protocol Wire Codec.
From stdpp Require Import base gmap list numbers tactics.

#[local] Open Scope Z_scope.

(** ** Configuration *)

Record Config := mkConfig {
  ClientID : Z;
  hasTarget : bool;                (* [Target] is not empty *)
  hasLogger : bool;
  ResponseTimeout : Z
}.

Inductive configError := errLoggerNil | errTargetEmpty.

Definition Validate (c : Config) : option configError :=
  if negb (hasLogger c) then Some errLoggerNil
  else if negb (hasTarget c) then Some errTargetEmpty
  else None.

Definition defaultResponseTimeout : Z := Second.
Definition reqQueueCapacity : nat := 4096.
Definition pendingShardCount : nat := 16.
Definition responseQueueCapacity : nat := 512.
Definition safetyMarginMS : Z := 100.

(** The causes an operation can report. *)
Inductive callError :=
  | errCaller                      (* the caller's context is done *)
  | errClientClosed
  | errSendQueueFull
  | errDeadlineExceeded
  | errWrongOperation
  | errKeyLimitReached
  | errLeaseReleased.

Definition connectionResult : Type := callError + Response.

(** [ps_pending]: the future that waits for a request; [None] is the nil map that
    [Close] leaves. *)
Record pendingShard := mkPendingShard {
  ps_pending : option (gmap Z nat);
  ps_responses : list Response
}.

Definition newPendingShards : list pendingShard :=
  replicate pendingShardCount (mkPendingShard (Some ∅) []).

Definition pendingShardIndex (requestID : Z) : nat :=
  Z.to_nat (Z.land requestID (Z.of_nat pendingShardCount - 1)).

Record Client := mkClient {
  clientID : Z;
  bootID : Z;
  nextSequence : Z;
  nextRequestID : Z;
  responseTimeout : Z;
  ctxDone : bool;
  connection : option nat;         (* the name of the published connection *)
  closed : bool;
  changes : nat;                   (* how often [changed] was closed *)
  reqQueue : list (list Z);        (* encoded requests *)
  pending : list pendingShard
}.

(** [bootID] is drawn by [bootid.NewBootID]. *)
Definition New (bootID : Z) (config : Config) : configError + Client :=
  match Validate config with
  | Some e => inl e
  | None =>
      inr (mkClient (ClientID config) bootID 0 0
             (if decide (ResponseTimeout config <> 0) then durationMS (ResponseTimeout config)
              else defaultResponseTimeout)
             false None false 0 [] newPendingShards)
  end.

Definition setIDs (c : Client) (sequence requestID : Z) : Client :=
  mkClient (clientID c) (bootID c) sequence requestID (responseTimeout c) (ctxDone c) (connection c)
    (closed c) (changes c) (reqQueue c) (pending c).

Definition setQueue (c : Client) (q : list (list Z)) : Client :=
  mkClient (clientID c) (bootID c) (nextSequence c) (nextRequestID c) (responseTimeout c) (ctxDone c)
    (connection c) (closed c) (changes c) q (pending c).

Definition setPending (c : Client) (l : list pendingShard) : Client :=
  mkClient (clientID c) (bootID c) (nextSequence c) (nextRequestID c) (responseTimeout c) (ctxDone c)
    (connection c) (closed c) (changes c) (reqQueue c) l.

Definition setConnection (c : Client) (conn : option nat) (isClosed : bool) : Client :=
  mkClient (clientID c) (bootID c) (nextSequence c) (nextRequestID c) (responseTimeout c) (ctxDone c)
    conn isClosed (S (changes c)) (reqQueue c) (pending c).

(** ** Connection lifecycle *)

Definition publish (c : Client) (conn : nat) : Client * bool :=
  if closed c || ctxDone c then (c, false) else (setConnection c (Some conn) (closed c), true).

Definition clear (c : Client) (conn : nat) : Client :=
  if decide (connection c <> Some conn) then c else setConnection c None (closed c).

(** One pass of the loop of [WaitReady]: [None] means that it waits for the next
    change. *)
Definition waitReady (ctxErr : option callError) (c : Client) : option (option callError) :=
  match ctxErr with
  | Some e => Some (Some e)
  | None =>
      if ctxDone c then Some (Some errClientClosed)
      else if bool_decide (connection c <> None) && negb (closed c) then Some None
      else if closed c then Some (Some errClientClosed)
      else None
  end.

(** ** Pending calls *)

(** [enqueue]; [result] is the future, or [None] for a request without a
    response. The outer [None] is a panic (shard out of range or nil map). *)
Definition enqueue (c : Client) (requestID : Z) (request : list Z) (result : option nat)
    : option (Client * option callError) :=
  let i := pendingShardIndex requestID in
  shard ← pending c !! i;
  if ctxDone c then Some (c, Some errClientClosed)
  else
    registered ← match result with
                 | None => Some (ps_pending shard)
                 | Some future =>
                     m ← ps_pending shard; Some (Some (<[requestID := future]> m))
                 end;
    if decide (length (reqQueue c) < reqQueueCapacity)%nat then
      Some (setPending (setQueue c (reqQueue c ++ [request]))
              (<[i := mkPendingShard registered (ps_responses shard)]> (pending c)), None)
    else
      Some (setPending c (<[i := mkPendingShard (delete requestID <$> registered) (ps_responses shard)]>
                            (pending c)), Some errSendQueueFull).

Definition submit (c : Client) (requestID : Z) (request : list Z) (future : nat)
    : option (Client * option callError) :=
  enqueue c requestID request (Some future).

Definition submitNoResponse (c : Client) (requestID : Z) (request : list Z)
    : option (Client * option callError) :=
  enqueue c requestID request None.

(** The critical section of [completeInShard]: the future to be sent the result. *)
Definition completeInShard (c : Client) (i : nat) (requestID : Z) : option (Client * option nat) :=
  shard ← pending c !! i;
  match ps_pending shard ≫= (.!! requestID) with
  | Some future =>
      Some (setPending c (<[i := mkPendingShard (delete requestID <$> ps_pending shard) (ps_responses shard)]>
                            (pending c)), Some future)
  | None => Some (c, None)
  end.

(** [Close]: the futures that are sent [ErrClientClosed]. [closeOnce] has run
    exactly when [closed] is set. *)
Definition shardPending (shard : pendingShard) : list (Z * nat) :=
  from_option map_to_list [] (ps_pending shard).

Definition Close (c : Client) : Client * list (Z * nat) :=
  if closed c then (c, [])
  else
  let c := mkClient (clientID c) (bootID c) (nextSequence c) (nextRequestID c) (responseTimeout c) true
             (connection c) (closed c) (changes c) (reqQueue c) (pending c) in
  let c := setConnection c None true in
  (setQueue (setPending c ((fun shard => mkPendingShard None (ps_responses shard)) <$> pending c)) [],
   concat (shardPending <$> pending c)).

Definition cancellationError (caller : option callError) (closing : bool) : option callError :=
  match caller with
  | Some e => Some e
  | None => if closing then Some errClientClosed else None
  end.

(** ** Leases *)

Inductive leaseLifecycle := leaseActive | leaseReleased.

#[export] Instance leaseLifecycle_eq_dec : EqDecision leaseLifecycle.
Proof. solve_decision. Defined.

Record Lease := mkLease {
  sequence : Z;
  lkey : Z;
  lnow : Z;
  lifecycle : leaseLifecycle;
  validUntil : Z
}.

Definition setValidUntil (l : Lease) (t : Z) : Lease :=
  mkLease (sequence l) (lkey l) (lnow l) (lifecycle l) t.

Definition candidateValidUntil (operationStart ttlMS : Z) : Z :=
  if decide (ttlMS <= safetyMarginMS \/ MaxTTLMS < ttlMS) then operationStart
  else timeAdd operationStart (durationMS (u64 (ttlMS - safetyMarginMS))).

Definition RemainingTTLms (l : Lease) (now : Z) : Z :=
  if decide (lifecycle l <> leaseActive) then 0
  else
    let remaining := Milliseconds (timeSub (validUntil l) now) in
    if decide (remaining <= 0) then 0 else u64 remaining.

(** [acceptAcquireResponse]: [canceled] is its cancellation check, [now] its
    clock. *)
Definition acceptAcquireResponse (l : Lease) (canceled : option callError) (response : Response) (now : Z)
    : Lease * (bool * option callError) :=
  match canceled with
  | Some e => (l, (false, Some e))
  | None =>
      if decide (Operation response <> ClientOperationACQUIRE) then (l, (false, Some errWrongOperation))
      else if decide (Status response = LeaseStatusOK \/ Status response = LeaseStatusALREADY_OWNED) then
        let until := candidateValidUntil (lnow l) (TTLMS response) in
        if negb (timeBefore now until) then (l, (false, None))
        else (setValidUntil l until, (true, None))
      else if decide (Status response = LeaseStatusKEY_LIMIT_REACHED) then (l, (false, Some errKeyLimitReached))
      else (l, (false, None))
  end.

Definition acceptRenewResponse (l : Lease) (canceled : option callError) (response : Response) (now : Z)
    : Lease * (bool * option callError) :=
  match canceled with
  | Some e => (l, (false, Some e))
  | None =>
      if decide (Operation response <> ClientOperationRENEW) then (l, (false, Some errWrongOperation))
      else if decide (Status response <> LeaseStatusOK) then (l, (false, None))
      else
        let until := candidateValidUntil (lnow l) (TTLMS response) in
        if negb (timeBefore now until) then (l, (false, None))
        else (if timeAfter until (validUntil l) then setValidUntil l until else l, (true, None))
  end.

(** [operationError]: its kind is given by the operation that returns it. *)
Record operationError := mkOperationError { cause : option callError }.

(** What a call meets on its way: the cancellation check on entry, the name of
    its future, the result [awaitResponse] returns if the request was queued,
    the cancellation check and the clock when the response is examined. *)
Record callRun := mkCallRun {
  cr_start : Z;
  cr_cancel0 : option callError;
  cr_future : nat;
  cr_awaited : connectionResult;
  cr_cancel1 : option callError;
  cr_now : Z
}.

Section Calls.
Context `{FlatBuffers}.

Definition newAcquireRequest (c : Client) (key sequence ttlMS : Z) : Client * Z * list Z :=
  let requestID := u64 (nextRequestID c + 1) in
  (setIDs c (nextSequence c) requestID, requestID,
   newAcquireRequest1of1 requestID key (clientID c) (bootID c) sequence ttlMS).

Definition newRenewRequest (c : Client) (key sequence ttlMS : Z) : Client * Z * list Z :=
  let requestID := u64 (nextRequestID c + 1) in
  (setIDs c (nextSequence c) requestID, requestID,
   newRenewRequest1of1 requestID key (clientID c) (bootID c) sequence ttlMS).

Definition newReleaseRequest (c : Client) (key sequence : Z) : Client * Z * list Z :=
  let requestID := u64 (nextRequestID c + 1) in
  (setIDs c (nextSequence c) requestID, requestID,
   newReleaseRequest1of1 requestID key (clientID c) (bootID c) sequence).

(** [release]: the error of the queue is ignored. *)
Definition release (c : Client) (key sequence : Z) : option Client :=
  let '(c, requestID, request) := newReleaseRequest c key sequence in
  '(c, _) ← submitNoResponse c requestID request;
  Some c.

(** The outer [None] is a panic. While the call waits, other goroutines act on the
    client: [meanwhile] is what they make of its state. *)
Definition Acquire (c : Client) (run : callRun) (meanwhile : Client -> Client) (key ttlMS : Z)
    : option (Client * (operationError + Lease)) :=
  match cr_cancel0 run with
  | Some e => Some (c, inl (mkOperationError (Some e)))
  | None =>
      let sequence := u64 (nextSequence c + 1) in
      let c := setIDs c sequence (nextRequestID c) in
      let lease := mkLease sequence key (cr_start run) leaseActive zeroTime in
      let '(c, requestID, request) := newAcquireRequest c key sequence ttlMS in
      '(c, err) ← submit c requestID request (cr_future run);
      let '(c, (lease, (accepted, err))) :=
        match err with
        | Some e => (c, (lease, (false, Some e)))
        | None =>
            (meanwhile c,
             match cr_awaited run with
             | inl e => (lease, (false, Some e))
             | inr response => acceptAcquireResponse lease (cr_cancel1 run) response (cr_now run)
             end)
        end in
      if bool_decide (err = None) && accepted then Some (c, inr lease)
      else
        c ← release c key sequence;
        Some (c, inl (mkOperationError err))
  end.

Definition Renew (c : Client) (l : Lease) (run : callRun) (meanwhile : Client -> Client) (ttlMS : Z)
    : option (Client * Lease * option operationError) :=
  if decide (lifecycle l <> leaseActive) then Some (c, l, Some (mkOperationError (Some errLeaseReleased)))
  else
    let l := mkLease (sequence l) (lkey l) (cr_start run) (lifecycle l) (validUntil l) in
    let '(c, requestID, request) := newRenewRequest c (lkey l) (sequence l) ttlMS in
    '(c, err) ← submit c requestID request (cr_future run);
    let '(c, (l, (renewed, err))) :=
      match err with
      | Some e => (c, (l, (false, Some e)))
      | None =>
          (meanwhile c,
           match cr_awaited run with
           | inl e => (l, (false, Some e))
           | inr response => acceptRenewResponse l (cr_cancel1 run) response (cr_now run)
           end)
      end in
    if bool_decide (err <> None) || negb renewed then Some (c, l, Some (mkOperationError err))
    else Some (c, l, None).

Definition Release (c : Client) (l : Lease) : option (Client * Lease) :=
  if decide (lifecycle l = leaseReleased) then Some (c, l)
  else
    c ← release c (lkey l) (sequence l);
    Some (c, mkLease (sequence l) (lkey l) (lnow l) leaseReleased zeroTime).

End Calls.
