(* ===== verification/Client1of1Safety.v ===== *)
(** * Properties of the 1/1 client

    The 1/1 client is a specialised implementation of the quorum client for one
    server: it obtains the same leases. *)

From S2P Require Import Prelude Protocol Server Quorum Wire Codec Client ClientSafety Client1of1.
From stdpp Require Import base gmap list numbers tactics.

#[local] Open Scope Z_scope.

(** ** Well-formed clients *)

(** All shards exist, and their maps are nil only after [Close]. *)
Record client_ok (c : Client1of1.Client) : Prop := {
  co_shards : length (pending c) = pendingShardCount;
  co_maps : ctxDone c = false -> forall i shard, pending c !! i = Some shard -> is_Some (ps_pending shard)
}.

Lemma shardIndex1of1_lt id : (pendingShardIndex id < pendingShardCount)%nat.
Proof.
  unfold pendingShardIndex, pendingShardCount. change (Z.of_nat 16 - 1) with (Z.ones 4).
  rewrite Z.land_ones by lia. pose proof (Z.mod_pos_bound id (2 ^ 4)). lia.
Qed.

Lemma client_ok_insert c i pending' responses :
  client_ok c -> (ctxDone c = false -> is_Some pending') ->
  client_ok (setPending c (<[i := mkPendingShard pending' responses]> (pending c))).
Proof.
  intros [H1 H2] Hp. split; simpl; [by rewrite length_insert|].
  intros Hc j sh Hj. destruct (decide (j = i)) as [->|Hne].
  - assert (i < length (pending c))%nat.
    { apply lookup_lt_Some in Hj. by rewrite length_insert in Hj. }
    rewrite list_lookup_insert_eq in Hj by done. injection Hj as <-. auto.
  - rewrite list_lookup_insert_ne in Hj by done. by apply (H2 Hc j).
Qed.

(** [enqueue] of a well-formed client does not panic: it refuses after [Close],
    reports a full queue, or queues the request behind all others. *)
Lemma enqueue_spec c requestID request result :
  client_ok c ->
  exists c' err, enqueue c requestID request result = Some (c', err) /\ client_ok c' /\
    nextSequence c' = nextSequence c /\ nextRequestID c' = nextRequestID c /\
    clientID c' = clientID c /\ bootID c' = bootID c /\
    (err = None \/ err = Some errClientClosed \/ err = Some errSendQueueFull) /\
    reqQueue c' = match err with None => reqQueue c ++ [request] | Some _ => reqQueue c end /\
    (err = None <-> ctxDone c = false /\ (length (reqQueue c) < reqQueueCapacity)%nat).
Proof.
  intros Hok. pose proof Hok as [H1 H2].
  destruct (lookup_lt_is_Some_2 (pending c) (pendingShardIndex requestID)) as [shard Hs].
  { rewrite H1. apply shardIndex1of1_lt. }
  unfold enqueue. rewrite Hs. simpl. destruct (ctxDone c) eqn:Hctx.
  { exists c, (Some errClientClosed). split_and!; auto; naive_solver. }
  destruct (H2 eq_refl _ _ Hs) as [m Hm]. rewrite Hm.
  assert (Hreg : exists m', (match result with
    | None => Some (Some m) | Some future => m0 ← Some m; Some (Some (<[requestID := future]> m0)) end)
    = Some (Some m')) by (destruct result; simpl; eauto).
  destruct Hreg as [m' ->]. simpl. case_decide.
  - eexists _, None. split_and!; try done; auto.
    apply (client_ok_insert (setQueue c (reqQueue c ++ [request]))); [by destruct Hok; split|by eexists].
  - eexists _, (Some errSendQueueFull). split_and!; try done; auto; [|naive_solver].
    apply client_ok_insert; [done|by eexists].
Qed.

Lemma release1of1_spec `{FlatBuffers} c key sequence :
  client_ok c ->
  exists c', release c key sequence = Some c' /\ client_ok c' /\
    (ctxDone c = false -> (length (reqQueue c) < reqQueueCapacity)%nat ->
     reqQueue c' = reqQueue c ++ [newReleaseRequest1of1 (u64 (nextRequestID c + 1)) key (clientID c) (bootID c)
                                    sequence]).
Proof.
  intros Hok. unfold release, newReleaseRequest, submitNoResponse.
  match goal with |- context [enqueue ?x ?i ?r ?f] =>
    destruct (enqueue_spec x i r f) as (c' & err & -> & Hok' & _ & _ & _ & _ & _ & Hq & Hiff) end.
  { destruct Hok. by split. }
  simpl. exists c'. split_and!; [done..|]. intros Hc Hl. simpl in *.
  destruct err; [|done]. destruct Hiff as [_ Hiff]. by specialize (Hiff (conj Hc Hl)).
Qed.

(** ** Correspondence with the quorum client *)

Definition toOpError (e : callError) : opError :=
  match e with
  | Client1of1.errCaller => Client.errCaller
  | Client1of1.errClientClosed => Client.errClientClosed
  | Client1of1.errSendQueueFull => Client.errSendQueueFull
  | Client1of1.errDeadlineExceeded => Client.errDeadlineExceeded
  | Client1of1.errWrongOperation => Client.errWrongOperation
  | errKeyLimitReached => Client.errCanceled
  | Client1of1.errLeaseReleased => Client.errLeaseReleased
  end.

(** The event the quorum client meets for the same outcome of the call. *)
Definition toEvent (run : callRun) : event :=
  evResponse 0
    (match cr_awaited run with
     | inl e => inl (toOpError e)
     | inr response => inr response
     end) (cr_now run) (cr_now run) (cr_now run) (toOpError <$> cr_cancel1 run).

Definition toAcquireRun (refused : option callError) (run : callRun) : acquireRun :=
  mkAcquireRun (cr_start run) (toOpError <$> cr_cancel0 run) (fun _ => toOpError <$> refused) None
    [toEvent run] (cr_now run).

Definition toRenewRun (refused : option callError) (run : callRun) : renewRun :=
  mkRenewRun (cr_start run) (fun _ => toOpError <$> refused) None [toEvent run] (cr_now run).

(** The two leases agree in everything a caller can observe. *)
Definition sameLease (l1 : Client1of1.Lease) (l : Client.Lease) : Prop :=
  Client1of1.sequence l1 = Client.sequence l /\ Client1of1.lkey l1 = Client.lkey l /\
  Client1of1.validUntil l1 = Client.validUntil l /\
  (Client1of1.lifecycle l1 = Client1of1.leaseActive <-> Client.lifecycle l = Client.leaseActive).

Lemma sameLease_remaining l1 l now :
  sameLease l1 l -> Client1of1.RemainingTTLms l1 now = Client.RemainingTTLms l now.
Proof.
  intros (_ & _ & Hv & Hl). unfold Client1of1.RemainingTTLms, Client.RemainingTTLms. rewrite Hv.
  destruct (decide (Client1of1.lifecycle l1 <> Client1of1.leaseActive));
    destruct (decide (Client.lifecycle l <> Client.leaseActive)); try done; tauto.
Qed.

Lemma candidate_same start ttl :
  Client1of1.candidateValidUntil start ttl = Quorum.candidateValidUntil start ttl.
Proof. done. Qed.

Lemma successful_status status :
  isSuccessfulAcquire status = bool_decide (status = LeaseStatusOK \/ status = LeaseStatusALREADY_OWNED).
Proof.
  unfold isSuccessfulAcquire. by rewrite <- bool_decide_or.
Qed.

(** The quorum client on a single successful or failed reply. *)
Lemma collect_one start l run st :
  st = mkCollecting l 0 (replicate maxServerCount zeroTime) (replicate maxServerCount false) None false 1 ->
  exists r, acquireCollect 1 1 start st [toEvent run] = Some r /\
  match cr_awaited run with
  | inr response =>
      let until := Quorum.candidateValidUntil start (TTLMS response) in
      if bool_decide (cr_cancel1 run = None) && bool_decide (Operation response = ClientOperationACQUIRE) &&
         isSuccessfulAcquire (Status response) && timeBefore (cr_now run) until
      then exists st', r = collected st' until /\ core (co_lease st') = core l
      else exists st', r = notCollected st'
  | inl _ => exists st', r = notCollected st'
  end.
Proof.
  intros ->. unfold acquireCollect, toEvent. destruct (cr_awaited run) as [e|response]; simpl.
  { repeat case_match; eauto. }
  case_decide as Hop.
  { rewrite (bool_decide_eq_false_2 (Operation response = _)) by done. rewrite andb_false_r. simpl.
    repeat case_match; eauto. }
  rewrite (bool_decide_eq_true_2 (Operation response = _)) by tauto.
  destruct (isSuccessfulAcquire (Status response)) eqn:Hst; rewrite ?andb_true_r, ?andb_false_r.
  2:{ simpl. eauto. }
  set (until := Quorum.candidateValidUntil start (TTLMS response)).
  destruct (timeBefore (cr_now run) until) eqn:Hb; simpl; rewrite ?andb_true_r, ?andb_false_r; simpl.
  - destruct (cr_cancel1 run) as [e|] eqn:Hc; simpl; [eauto|].
    eexists. split; [done|]. eexists. split; [done|]. simpl. apply markConfirmed_core.
  - destruct (acquireQuorumStillPossible _ _ _ _ _); simpl; eauto.
Qed.

(** ** Theorems *)

(** C24: the 1/1 client obtains exactly the leases the quorum client would obtain
    with a quorum of one out of one. For the same outcome of the submission,
    the same result of the wait, the same clock and the same cancellations,
    Acquire of both returns a lease or both fail, and the leases agree in
    identity, key, expiry and so in the remaining time at every instant; in
    no case does the 1/1 client panic. *)
Theorem acquire_same_lease `{FlatBuffers} c1 c run meanwhile key ttl refused :
  client_ok c1 -> (forall x, client_ok x -> client_ok (meanwhile x)) ->
  quorum c = Quorum1Of1 -> Client.nextSequence c = nextSequence c1 ->
  (refused = None <-> ctxDone c1 = false /\ (length (reqQueue c1) < reqQueueCapacity)%nat) ->
  match Client1of1.Acquire c1 run meanwhile key ttl, Client.Acquire c (toAcquireRun refused run) key ttl with
  | Some (_, inr l1), Some (_, _, inr (l, _)) =>
      sameLease l1 l /\ forall now, Client1of1.RemainingTTLms l1 now = Client.RemainingTTLms l now
  | Some (_, inl _), Some (_, _, inl _) => True
  | _, _ => False
  end.
Proof.
  intros Hok Hmw Hq Hseq Href. unfold Client1of1.Acquire, Client.Acquire, toAcquireRun.
  cbn [ar_cancel0 ar_outcomes ar_start ar_cancel1 ar_events ar_heal].
  destruct (cr_cancel0 run) as [e|]; simpl; [done|].
  unfold submit. match goal with |- context [enqueue ?x ?i ?r ?f] =>
    destruct (enqueue_spec x i r f) as (c2 & err & -> & Hok2 & _ & _ & _ & _ & _ & _ & Hiff) end.
  { destruct Hok. by split. }
  simpl in Hiff. unfold serverCount, releaseAll, serverCount. simpl. rewrite Hq. simpl.
  assert (Herr : err = None <-> refused = None) by by rewrite Hiff, Href. clear Hiff Href.
  destruct err as [e|].
  - destruct refused as [e'|]; [|destruct Herr as [_ Herr]; by specialize (Herr eq_refl)]. simpl.
    edestruct (release1of1_spec c2) as (c3 & -> & _); [done|]. done.
  - destruct refused as [e'|]; [destruct Herr as [Herr _]; by specialize (Herr eq_refl)|]. simpl.
    change (quorumServers Quorum1Of1) with 1%nat. change (quorumSize Quorum1Of1) with 1%nat.
    match goal with |- context [acquireCollect 1 1 ?s ?st _] =>
      destruct (collect_one s (co_lease st) run st eq_refl) as (r & -> & Hr) end. simpl.
    specialize (Hmw c2 Hok2).
    destruct (release1of1_spec (meanwhile c2) key (u64 (nextSequence c1 + 1)) Hmw) as (c3 & Hrel & _).
    destruct (cr_awaited run) as [e|response]; simpl.
    + destruct Hr as [st' ->]. simpl. rewrite Hrel. done.
    + unfold acceptAcquireResponse. rewrite successful_status in Hr. cbv zeta in Hr.
      destruct (cr_cancel1 run) as [e|]; simpl.
      { rewrite bool_decide_eq_false_2 in Hr by done. destruct Hr as [st' ->]. simpl. by rewrite Hrel. }
      rewrite (bool_decide_eq_true_2 (None = None)) in Hr by done.
      destruct (decide (Operation response <> ClientOperationACQUIRE)) as [Hop|Hop].
      { rewrite (bool_decide_eq_false_2 (Operation response = _)) in Hr by done. destruct Hr as [st' ->].
        simpl. by rewrite Hrel. }
      rewrite (bool_decide_eq_true_2 (Operation response = _)) in Hr by lia.
      match goal with |- context [decide (Status response = ?a \/ _)] =>
        destruct (decide (Status response = a \/ Status response = LeaseStatusALREADY_OWNED)) as [Hst|Hst] end.
      2:{ rewrite (bool_decide_eq_false_2 (_ \/ _)) in Hr by done. destruct Hr as [st' ->].
          case_decide; simpl; by rewrite Hrel. }
      rewrite (bool_decide_eq_true_2 (_ \/ _)) in Hr by done. simpl in Hr.
      change (Client1of1.candidateValidUntil (cr_start run) (TTLMS response)) with
        (Quorum.candidateValidUntil (cr_start run) (TTLMS response)).
      destruct (timeBefore _ _); simpl; [|destruct Hr as [st' ->]; simpl; by rewrite Hrel].
      destruct Hr as (st' & -> & Hcore). simpl.
      match goal with |- sameLease ?a ?b /\ _ => assert (Hs : sameLease a b) end.
      { apply core_inv in Hcore as (H1 & H2 & _ & _ & H5 & _). simpl in *.
        unfold sameLease. healing_core. simpl. rewrite H1, H2, H5, Hseq. done. }
      split; [done|]. intros now. by apply sameLease_remaining.
Qed.

Definition demoClient1 : Client1of1.Client :=
  mkClient 12 99 4 100 Second false (Some 0%nat) false 1 [] newPendingShards.

Lemma demoClient1_ok : client_ok demoClient1.
Proof.
  split; [done|]. intros _ i shard. simpl. intros [-> _]%lookup_replicate_1. by eexists.
Qed.

(** The server grants three seconds; the response is examined at once. *)
Definition demoCallRun : callRun :=
  mkCallRun 1000 None 0 (inr (mkResponse 101 ClientOperationACQUIRE LeaseStatusOK 3000)) None 2000.

Lemma acquire_same_lease_witness :
  exists c1' l1 c' requests l remaining,
    Client1of1.Acquire (H := plainBuffers) demoClient1 demoCallRun id 77 3000 = Some (c1', inr l1) /\
    Client.Acquire (Client.mkClient 12 99 4 100 Quorum1Of1 Second) (toAcquireRun None demoCallRun) 77 3000 =
      Some (c', requests, inr (l, remaining)) /\
    sameLease l1 l /\ Client1of1.validUntil l1 = 1000 + 2900 * Millisecond.
Proof.
  pose proof (acquire_same_lease (H := plainBuffers) demoClient1 (Client.mkClient 12 99 4 100 Quorum1Of1 Second)
    demoCallRun id 77 3000 None demoClient1_ok (fun x H => H) eq_refl eq_refl) as Hs.
  assert (Hq : @None callError = None <-> ctxDone demoClient1 = false /\ (length (reqQueue demoClient1) < reqQueueCapacity)%nat).
  { split; [|done]. intros _. split; [done|]. simpl. unfold reqQueueCapacity. lia. }
  specialize (Hs Hq). clear Hq.
  destruct (Client1of1.Acquire demoClient1 demoCallRun id 77 3000) as [[c1' [e|l1]]|] eqn:H1;
    [vm_compute in H1; done| |done].
  destruct (Client.Acquire _ _ 77 3000) as [[[c' reqs] [e|[l rem]]]|] eqn:H2; [done| |done].
  exists c1', l1, c', reqs, l, rem. split_and!; [done|done|by destruct Hs|].
  vm_compute in H1. injection H1 as _ <-. reflexivity.
Defined.

(** ** Renew and Release *)

Lemma acceptRenewResponse_spec l canceled response now l' renewed err :
  acceptRenewResponse l canceled response now = (l', (renewed, err)) ->
  Client1of1.sequence l' = Client1of1.sequence l /\ Client1of1.lkey l' = Client1of1.lkey l /\
  Client1of1.lifecycle l' = Client1of1.lifecycle l /\
  if renewed then
    err = None /\ goodRenew response /\ now < Quorum.candidateValidUntil (Client1of1.lnow l) (TTLMS response) /\
    Client1of1.validUntil l' =
      Z.max (Client1of1.validUntil l) (Quorum.candidateValidUntil (Client1of1.lnow l) (TTLMS response))
  else Client1of1.validUntil l' = Client1of1.validUntil l.
Proof.
  unfold acceptRenewResponse. destruct canceled; [by intros [= <- <- _]|].
  case_decide as Hop; [by intros [= <- <- _]|]. case_decide as Hst; [by intros [= <- <- _]|].
  rewrite candidate_same. set (until := Quorum.candidateValidUntil _ _).
  destruct (timeBefore now until) eqn:Hb; simpl; [|by intros [= <- <- _]].
  apply Z.ltb_lt in Hb. intros [= <- <- <-]. unfold timeAfter.
  destruct (Z.ltb_spec (Client1of1.validUntil l) until); simpl; split_and!; try done; try lia; split; lia.
Qed.


