(* ===== verification/Errors.v ===== *)
(** * Error values of the clients
    (src/client/acquire.go, renew.go, replica_conn.go and connection_generation.go,
    src/client1of1/lease.go, and the adapters of src/cmd/redlease-load/runner.go)

    The clients report what happened through chains of Go errors, which callers
    examine with [errors.Is]. Here an error is the tree of its layers, [Is] follows
    the layers as the package [errors] does, and the errors an operation returns
    are computed from its outcome in [Client] and [Client1of1]. *)

From S2P Require Import Prelude Protocol Quorum Codec Wire Client ClientSafety Client1of1 Client1of1Safety.
From S2P Require Import Metrics LoadStats LoadWork.
From stdpp Require Import base gmap list numbers strings tactics.

#[local] Open Scope Z_scope.
#[local] Set Warnings "-register-all,-clear-no-such-hyp".

(** ** Errors of Go *)

(** The two client packages declare variables of the same names. *)
Inductive clientPackage := pkgClient | pkgClient1of1.

(** The variables that hold errors, and the two errors of a context. *)
Inductive sentinel :=
  | ErrNotAcquired (p : clientPackage)
  | ErrKeyLimitReached (p : clientPackage)
  | ErrNotRenewed (p : clientPackage)
  | ErrLeaseReleased (p : clientPackage)
  | ErrClientClosed (p : clientPackage)
  | ErrSendQueueFull (p : clientPackage)
  | errReplicaClosed
  | errConnectionClosed
  | errLoadTargetsUnavailable
  | contextCanceled
  | contextDeadlineExceeded.

#[export] Instance clientPackage_eq_dec : EqDecision clientPackage.
Proof. solve_decision. Defined.
#[export] Instance sentinel_eq_dec : EqDecision sentinel.
Proof. solve_decision. Defined.

(** [eNew] is the value of [errors.New] in the body of a function, which is equal
    to no variable; [None] is a nil cause. *)
Inductive goError :=
  | eSentinel (s : sentinel)
  | eNew (message : string)
  | eNotAcquired (cause : option goError)
  | eNotRenewed (cause : option goError)
  | eOperation (kind : sentinel) (cause : option goError)
  | eReplicaUnavailable (cause : option goError)
  | eConnectionTransport (cause : goError)
  | eJoin (errs : list goError).

(** The [Is] methods of the layers that have one. *)
Definition notAcquiredIs (target : sentinel) : bool := bool_decide (target = ErrNotAcquired pkgClient).
Definition notRenewedIs (target : sentinel) : bool := bool_decide (target = ErrNotRenewed pkgClient).
Definition operationIs (kind target : sentinel) : bool := bool_decide (target = kind).

(** [errors.Is] with a variable as its target: equality, then the [Is] method of
    the layer, then what [Unwrap] returns, which is the cause. *)
Fixpoint Is (target : sentinel) (e : goError) {struct e} : bool :=
  match e with
  | eSentinel s => bool_decide (s = target)
  | eNew _ => false
  | eNotAcquired cause => notAcquiredIs target || match cause with Some e => Is target e | None => false end
  | eNotRenewed cause => notRenewedIs target || match cause with Some e => Is target e | None => false end
  | eOperation kind cause => operationIs kind target || match cause with Some e => Is target e | None => false end
  | eReplicaUnavailable cause => match cause with Some e => Is target e | None => false end
  | eConnectionTransport cause => Is target cause
  | eJoin errs => existsb (Is target) errs
  end.

(** [errors.Join] drops nil errors and is nil without any. *)
Definition Join (errs : list (option goError)) : option goError :=
  match omap id errs with [] => None | errs => Some (eJoin errs) end.

Definition sentinelText (s : sentinel) : string :=
  match s with
  | ErrNotAcquired pkgClient => "RedLease lease not acquired"
  | ErrNotAcquired pkgClient1of1 => "RedLease 1/1 lease not acquired"
  | ErrKeyLimitReached _ => "RedLease server key limit reached"
  | ErrNotRenewed pkgClient => "RedLease lease not renewed"
  | ErrNotRenewed pkgClient1of1 => "RedLease 1/1 lease not renewed"
  | ErrLeaseReleased _ => "RedLease lease released"
  | ErrClientClosed pkgClient => "RedLease client closed"
  | ErrClientClosed pkgClient1of1 => "RedLease 1/1 client closed"
  | ErrSendQueueFull _ => "connection send queue full"
  | errReplicaClosed => "replica connection closed"
  | errConnectionClosed => "connection generation closed"
  | errLoadTargetsUnavailable => "RedLease server targets are unavailable"
  | contextCanceled => "context canceled"
  | contextDeadlineExceeded => "context deadline exceeded"
  end.

(** The [Error] methods of the layers, with the text of the cause. *)
Definition notAcquiredText (cause : option string) : string :=
  match cause with
  | None => sentinelText (ErrNotAcquired pkgClient)
  | Some cause => (sentinelText (ErrNotAcquired pkgClient) +:+ ": " +:+ cause)%string
  end.

Definition notRenewedText (cause : option string) : string :=
  match cause with
  | None => sentinelText (ErrNotRenewed pkgClient)
  | Some cause => (sentinelText (ErrNotRenewed pkgClient) +:+ ": " +:+ cause)%string
  end.

Definition operationText (kind : sentinel) (cause : option string) : string :=
  match cause with
  | None => sentinelText kind
  | Some cause => (sentinelText kind +:+ ": " +:+ cause)%string
  end.

Definition replicaUnavailableText (cause : option string) : string :=
  match cause with
  | None => "replica unavailable"
  | Some cause => ("replica unavailable: " +:+ cause)%string
  end.

Definition connectionTransportText (cause : string) : string := ("connection transport: " +:+ cause)%string.

Fixpoint Error (e : goError) {struct e} : string :=
  match e with
  | eSentinel s => sentinelText s
  | eNew message => message
  | eNotAcquired cause => notAcquiredText (match cause with Some e => Some (Error e) | None => None end)
  | eNotRenewed cause => notRenewedText (match cause with Some e => Some (Error e) | None => None end)
  | eOperation kind cause => operationText kind (match cause with Some e => Some (Error e) | None => None end)
  | eReplicaUnavailable cause => replicaUnavailableText (match cause with Some e => Some (Error e) | None => None end)
  | eConnectionTransport cause => connectionTransportText (Error cause)
  | eJoin errs => String.concat (String.String (Ascii.ascii_of_nat 10) EmptyString) (Error <$> errs)
  end.

(** ** What the quorum client returns *)

(** [ctx.Err()] of a context that is done. *)
Inductive contextError := ctxCanceled | ctxDeadlineExceeded.

Definition contextErr (c : contextError) : sentinel :=
  match c with ctxCanceled => contextCanceled | ctxDeadlineExceeded => contextDeadlineExceeded end.

(** The value behind a cause; [wrong] is the text for a response to another
    operation. *)
Definition causeValue (ctx : contextError) (wrong : string) (e : opError) : goError :=
  match e with
  | Client.errCaller => eSentinel (contextErr ctx)
  | Client.errClientClosed => eSentinel (ErrClientClosed pkgClient)
  | Client.errSendQueueFull => eSentinel (ErrSendQueueFull pkgClient)
  | Client.errReplicaUnavailable => eReplicaUnavailable (Some (eSentinel errReplicaClosed))
  | Client.errDeadlineExceeded => eSentinel contextDeadlineExceeded
  | Client.errCanceled => eSentinel contextCanceled
  | Client.errWrongOperation => eNew wrong
  | Client.errLeaseReleased => eSentinel (ErrLeaseReleased pkgClient)
  end.

(** The end of [Acquire]. *)
Definition acquireErrorValue (ctx : contextError) (e : notAcquiredError) : goError :=
  let firstFailure := causeValue ctx "Acquire received a non-Acquire response" <$> naCause e in
  eNotAcquired
    (if naKeyLimit e then Join [firstFailure; Some (eSentinel (ErrKeyLimitReached pkgClient))] else firstFailure).

Definition renewErrorValue (ctx : contextError) (e : notRenewedError) : goError :=
  eNotRenewed (causeValue ctx "Renew received a non-Renew response" <$> nrCause e).

(** [acquireCancellationError] and [renewCancellationError]; [caller] is
    [callerContext.Err() != nil]. *)
Definition acquireCancellationError (caller closing : bool) : option opError :=
  if caller then Some Client.errCaller else if closing then Some Client.errClientClosed else None.

(** ** What the 1/1 client returns *)

Definition callValue (ctx : contextError) (wrong : string) (e : callError) : goError :=
  match e with
  | Client1of1.errCaller => eSentinel (contextErr ctx)
  | Client1of1.errClientClosed => eSentinel (ErrClientClosed pkgClient1of1)
  | Client1of1.errSendQueueFull => eSentinel (ErrSendQueueFull pkgClient1of1)
  | Client1of1.errDeadlineExceeded => eSentinel contextDeadlineExceeded
  | Client1of1.errWrongOperation => eNew wrong
  | errKeyLimitReached => eSentinel (ErrKeyLimitReached pkgClient1of1)
  | Client1of1.errLeaseReleased => eSentinel (ErrLeaseReleased pkgClient1of1)
  end.

Definition acquireErrorValue1 (ctx : contextError) (e : operationError) : goError :=
  eOperation (ErrNotAcquired pkgClient1of1) (callValue ctx "Acquire received a non-Acquire response" <$> cause e).

Definition renewErrorValue1 (ctx : contextError) (e : operationError) : goError :=
  eOperation (ErrNotRenewed pkgClient1of1) (callValue ctx "Renew received a non-Renew response" <$> cause e).

(** ** The load generator's view *)

(** [loadLease]: the two kinds of leases behind one interface. *)
Inductive loadLease := oneLease (l : Client1of1.Lease) | quorumLease (l : Client.Lease).

Definition loadRemaining (l : loadLease) (now : Z) : Z :=
  match l with
  | oneLease l => Client1of1.RemainingTTLms l now
  | quorumLease l => Client.RemainingTTLms l now
  end.

(** [Acquire] of [oneClient] and [quorumClient]: the error, or the lease as an
    interface value. *)
Definition oneAcquire (ctx : contextError) (result : operationError + Client1of1.Lease) : goError + loadLease :=
  match result with inl e => inl (acquireErrorValue1 ctx e) | inr l => inr (oneLease l) end.

Definition quorumAcquire (ctx : contextError) (result : notAcquiredError + Client.Lease * nat) : goError + loadLease :=
  match result with inl e => inl (acquireErrorValue ctx e) | inr (l, _) => inr (quorumLease l) end.

(** [Acquire] of [reconfigurableLoadClient]; [None]: there is no current client. *)
Definition currentAcquire (result : option (goError + loadLease)) : goError + loadLease :=
  match result with None => inl (eSentinel errLoadTargetsUnavailable) | Some r => r end.

(** The outcome as [work] tells it apart; [now] is the clock when it looks at the
    remaining time. *)
Definition workOutcome (result : goError + loadLease) (now : Z) : acquireOutcome :=
  match result with
  | inl e => acquireError (Is (ErrKeyLimitReached pkgClient) e || Is (ErrKeyLimitReached pkgClient1of1) e)
  | inr l => gotLease (loadRemaining l now)
  end.

(** ** Lemmas *)

(** The variables [errors.Is] finds behind a cause. *)
Definition causeTargets (ctx : contextError) (e : opError) : list sentinel :=
  match e with
  | Client.errCaller => [contextErr ctx]
  | Client.errClientClosed => [ErrClientClosed pkgClient]
  | Client.errSendQueueFull => [ErrSendQueueFull pkgClient]
  | Client.errReplicaUnavailable => [errReplicaClosed]
  | Client.errDeadlineExceeded => [contextDeadlineExceeded]
  | Client.errCanceled => [contextCanceled]
  | Client.errWrongOperation => []
  | Client.errLeaseReleased => [ErrLeaseReleased pkgClient]
  end.

Lemma causeValue_is ctx wrong e target : Is target (causeValue ctx wrong e) = true <-> target ∈ causeTargets ctx e.
Proof.
  destruct e; simpl; rewrite ?bool_decide_eq_true, ?list_elem_of_singleton; try done.
  split; [done|]. by intros ?%not_elem_of_nil.
Qed.

Lemma Join_is target errs :
  match Join errs with Some e => Is target e | None => false end =
  existsb (fun e => match e with Some e => Is target e | None => false end) errs.
Proof.
  unfold Join. assert (Hx : existsb (Is target) (omap id errs) =
    existsb (fun e => match e with Some e => Is target e | None => false end) errs).
  { induction errs as [|[e|] errs IH]; simpl; [done|by rewrite <- IH|done]. }
  rewrite <- Hx. by destruct (omap id errs).
Qed.

Lemma acquireErrorValue_is ctx e target :
  Is target (acquireErrorValue ctx e) = true <->
  target = ErrNotAcquired pkgClient \/ (target = ErrKeyLimitReached pkgClient /\ naKeyLimit e = true) \/
  exists reason, naCause e = Some reason /\ target ∈ causeTargets ctx reason.
Proof.
  unfold acquireErrorValue. destruct e as [reason keyLimit]. simpl.
  unfold notAcquiredIs, notRenewedIs, operationIs. rewrite orb_true_iff, bool_decide_eq_true.
  apply or_iff_compat_l. destruct keyLimit; simpl.
  - rewrite Join_is. simpl. rewrite orb_false_r, orb_true_iff, bool_decide_eq_true.
    destruct reason as [reason|]; simpl; [rewrite causeValue_is|]; naive_solver.
  - destruct reason as [reason|]; simpl; [rewrite causeValue_is|]; naive_solver.
Qed.

Lemma renewErrorValue_is ctx e target :
  Is target (renewErrorValue ctx e) = true <->
  target = ErrNotRenewed pkgClient \/ exists reason, nrCause e = Some reason /\ target ∈ causeTargets ctx reason.
Proof.
  unfold renewErrorValue. destruct e as [reason]. simpl.
  unfold notAcquiredIs, notRenewedIs, operationIs. rewrite orb_true_iff, bool_decide_eq_true.
  apply or_iff_compat_l. destruct reason as [reason|]; simpl; [rewrite causeValue_is|]; naive_solver.
Qed.

(** A cancelled call reports the caller's context first, then the closed client. *)
Lemma cancelled_is ctx caller closing reason keyLimit :
  acquireCancellationError caller closing = Some reason ->
  Is (if caller then contextErr ctx else ErrClientClosed pkgClient) (acquireErrorValue ctx (mkNotAcquired (Some reason) keyLimit)) = true.
Proof.
  intros Hc. apply acquireErrorValue_is. right. right. exists reason. split; [done|]. unfold acquireCancellationError in Hc.
  destruct caller, closing; simplify_eq; left.
Qed.

(** A reply of a server whose key limit is reached. *)
Definition keyLimitReply (ev : event) : bool :=
  match ev with
  | evResponse _ (inr response) _ _ _ _ =>
      bool_decide (Operation response = ClientOperationACQUIRE) && bool_decide (Status response = LeaseStatusKEY_LIMIT_REACHED)
  | _ => false
  end.

Lemma acquireStep_keyLimit n q start st ev :
  match acquireStep n q start st ev with
  | continue st' | stop st' | quorumReached st' _ => co_keyLimit st' = co_keyLimit st || keyLimitReply ev
  end.
Proof.
  destruct ev as [i [e|response] now nm nl cancel| |]; simpl; rewrite ?orb_false_r; try done.
  { by destruct (acquireQuorumStillPossible _ _ _ _ _). }
  case_decide as Hop.
  { rewrite (bool_decide_eq_false_2 (Operation response = _)) by done. simpl. rewrite orb_false_r.
    by destruct (acquireQuorumStillPossible _ _ _ _ _). }
  rewrite (bool_decide_eq_true_2 (Operation response = _)) by tauto.
  destruct (isSuccessfulAcquire (Status response)) eqn:Hs.
  - rewrite (bool_decide_eq_false_2 (Status response = _)), orb_false_r
      by (intros Hx; rewrite Hx in Hs; by vm_compute in Hs).
    destruct (bestAcquireQuorum _ _ _) as [until has]. destruct (has && _); [by destruct cancel|].
    by destruct (acquireQuorumStillPossible _ _ _ _ _).
  - simpl. case_decide as Hk; [rewrite (bool_decide_eq_true_2 _) by done|rewrite (bool_decide_eq_false_2 _) by done];
      rewrite ?orb_true_r, ?orb_false_r; by destruct (acquireQuorumStillPossible _ _ _ _ _).
Qed.

(** The events the collection loop takes are a prefix, on which it gives the same
    result and before whose end it waits. *)
Lemma acquireCollect_seen n q start st events st' :
  acquireCollect n q start st events = Some (notCollected st') ->
  exists seen rest, events = seen ++ rest /\
    acquireCollect n q start st seen = Some (notCollected st') /\
    (forall before after, seen = before ++ after -> after <> [] -> acquireCollect n q start st before = None) /\
    co_keyLimit st' = co_keyLimit st || existsb keyLimitReply seen.
Proof.
  unfold acquireCollect. revert st. induction events as [|ev events IH]; intros st; simpl.
  - destruct (_ <? _)%nat eqn:Hn; [done|]. intros [= <-]. exists [], []. simpl. rewrite Hn, orb_false_r. split_and!; try done.
    intros [|? ?] [|? ?] Heq; done.
  - destruct (_ <? _)%nat eqn:Hn.
    2:{ intros [= <-]. exists [], (ev :: events). simpl. rewrite Hn, orb_false_r. split_and!; try done.
        intros [|? ?] [|? ?] Heq; done. }
    pose proof (acquireStep_keyLimit n q start st ev) as Hk. destruct (acquireStep n q start st ev) as [st1|st1|] eqn:Hs; [| |done].
    + intros (seen & rest & -> & Hc & Hb & Hkl)%IH. exists (ev :: seen), rest. simpl. rewrite Hn, Hs. split_and!; try done.
      * intros [|ev' before] after Heq Hne; simpl; [by rewrite Hn|]. injection Heq as <- Heq. rewrite Hn, Hs. by eapply Hb.
      * by rewrite Hkl, Hk, orb_assoc.
    + intros [= <-]. exists [ev], events. simpl. rewrite Hn, Hs, orb_false_r. split_and!; try done.
      intros [|ev' before] after Heq Hne; simpl; [by rewrite Hn|]. injection Heq as _ Heq.
      destruct before, after; done.
Qed.

(** The cancellation checks and the wait of a call report only the caller's
    context, the timeout or the closed client. *)
Definition cancellation (e : callError) : Prop := e = Client1of1.errCaller \/ e = Client1of1.errClientClosed.

Record call_reports (run : callRun) : Prop := {
  cp_cancel0 : forall e, cr_cancel0 run = Some e -> cancellation e;
  cp_cancel1 : forall e, cr_cancel1 run = Some e -> cancellation e;
  cp_awaited : forall e, cr_awaited run = inl e -> cancellation e \/ e = Client1of1.errDeadlineExceeded
}.

(** The reply of a server whose key limit is reached, when it is examined. *)
Definition keyLimitCall (run : callRun) : Prop :=
  cr_cancel1 run = None /\ exists response, cr_awaited run = inr response /\
    Operation response = ClientOperationACQUIRE /\ Status response = LeaseStatusKEY_LIMIT_REACHED.

Lemma acceptAcquireResponse_keyLimit l run response :
  call_reports run -> cr_awaited run = inr response ->
  (acceptAcquireResponse l (cr_cancel1 run) response (cr_now run)).2.2 = Some errKeyLimitReached <-> keyLimitCall run.
Proof.
  intros [_ H1 _] Ha. unfold acceptAcquireResponse, keyLimitCall. destruct (cr_cancel1 run) as [e|] eqn:Hc; simpl.
  { split; [|by intros [? _]]. intros [= ->]. by destruct (H1 _ eq_refl). }
  case_decide as Hop; [split; [done|]; intros (_ & r & Hr & ? & _); congruence|].
  case_decide as Hs.
  { split; [by destruct (negb _)|]. intros (_ & r & Hr & _ & Hst). rewrite Ha in Hr. injection Hr as <-.
    rewrite Hst in Hs. by destruct Hs. }
  case_decide as Hk; simpl; split; try done.
  - intros _. split; [done|]. exists response. split_and!; [done|tauto|done].
  - intros (_ & r & Hr & _ & Hst). congruence.
Qed.

(** The error of [enqueue], and that there is none while the client is open and the
    queue has room. *)
Lemma enqueue_error c requestID request result c' err :
  enqueue c requestID request result = Some (c', err) ->
  match err with
  | Some e => (e = Client1of1.errClientClosed /\ ctxDone c = true) \/
      (e = Client1of1.errSendQueueFull /\ (reqQueueCapacity <= length (reqQueue c))%nat)
  | None => True
  end.
Proof.
  unfold enqueue. destruct (pending c !! _) as [shard|]; simpl; [|done].
  destruct (ctxDone c) eqn:Hd; [intros [= _ <-]; by left|].
  destruct (match result with Some _ => _ | None => _ end); simpl; [|done].
  case_decide; [by intros [= _ <-]|]. intros [= _ <-]. right. split; [done|lia].
Qed.

(** A failed call of the 1/1 client has [errKeyLimitReached] as its cause only for
    such a reply, and for each such reply to a request that was queued. *)
Lemma acquire1_keyLimit `{FlatBuffers} c run meanwhile key ttl c' e :
  call_reports run -> Client1of1.Acquire c run meanwhile key ttl = Some (c', inl e) ->
  (cause e = Some errKeyLimitReached -> keyLimitCall run) /\
  (cr_cancel0 run = None -> ctxDone c = false -> (length (reqQueue c) < reqQueueCapacity)%nat ->
   keyLimitCall run -> cause e = Some errKeyLimitReached).
Proof.
  intros Hrep. unfold Client1of1.Acquire. destruct (cr_cancel0 run) as [e0|] eqn:H0.
  { intros [= _ <-]. simpl. split; [|done]. intros [= ->]. by destruct (cp_cancel0 _ Hrep _ H0). }
  unfold Client1of1.newAcquireRequest. destruct (submit _ _ _ _) as [[c2 err]|] eqn:Hsub; [|done]. simpl.
  apply enqueue_error in Hsub. simpl in Hsub. destruct err as [e1|].
  { simpl. destruct (Client1of1.release c2 _ _) as [c3|]; [|done]. simpl. intros [= _ <-]. simpl.
    split; [intros [= ->]; by destruct Hsub as [[] | []]|]. intros _ Hd Hl. destruct Hsub as [[_ ?]|[_ ?]]; [congruence|lia]. }
  destruct (cr_awaited run) as [e1|response] eqn:Haw.
  { simpl. destruct (Client1of1.release _ _ _) as [c3|]; [|done]. simpl. intros [= _ <-]. simpl. split.
    - intros [= ->]. by destruct (cp_awaited _ Hrep _ Haw) as [[]|].
    - intros _ _ _ (_ & r & Hr & _). congruence. }
  set (lease := mkLease _ _ _ _ _). pose proof (acceptAcquireResponse_keyLimit lease run response Hrep Haw) as Hk.
  destruct (acceptAcquireResponse lease (cr_cancel1 run) response (cr_now run)) as [lease' [accepted err]]. simpl in *.
  destruct (bool_decide (err = None) && accepted); [done|]. destruct (Client1of1.release _ _ _) as [c3|]; [|done]. simpl.
  intros [= _ <-]. simpl. split; [apply Hk|intros _ _ _; apply Hk].
Qed.

Lemma acquireErrorValue1_is ctx e target :
  Is target (acquireErrorValue1 ctx e) = true ->
  target <> ErrKeyLimitReached pkgClient /\ (target = ErrKeyLimitReached pkgClient1of1 -> cause e = Some errKeyLimitReached).
Proof.
  unfold acquireErrorValue1. destruct e as [reason]. simpl.
  unfold notAcquiredIs, notRenewedIs, operationIs. rewrite orb_true_iff, bool_decide_eq_true.
  intros [->|Hr]; [done|]. destruct reason as [[]|]; simpl in Hr; try done; apply bool_decide_eq_true in Hr as <-;
    first [done | by destruct ctx].
Qed.

(** ** Theorems *)

Definition withEvents (run : acquireRun) (events : list event) : acquireRun :=
  mkAcquireRun (ar_start run) (ar_cancel0 run) (ar_outcomes run) (ar_cancel1 run) events (ar_heal run).

(** C17: a failed Acquire is undone and reported for what it is. If it may have
    reached a server it submits one Release of the same lease to every replica,
    after the Acquires; one that is cancelled before it starts submits nothing and
    uses no sequence number. There is a shortest sequence of events after which
    Acquire returned, and for the error it returned [errors.Is] finds exactly
    [ErrNotAcquired]; [ErrKeyLimitReached], if and only if a server replied during
    that sequence that its key limit is reached; and what its cause stands for: the
    error of the caller's context, the closed client, a full queue, a closed
    connection or a timeout. *)
Theorem failed_acquire_reported c run key ttl c' requests e ctx :
  Client.Acquire c run key ttl = Some (c', requests, inl e) ->
  match ar_cancel0 run with
  | Some reason => requests = [] /\ c' = c /\ e = mkNotAcquired (Some reason) false
  | None =>
      let sequence := u64 (Client.nextSequence c + 1) in
      Client.nextSequence c' = sequence /\
      exists acquires releases, requests = acquires ++ releases /\
        acquires.*1 = seq 0 (serverCount c) /\ releases.*1 = seq 0 (serverCount c) /\
        Forall (requestFor c ClientOperationACQUIRE key sequence) acquires /\
        Forall (requestFor c ClientOperationRELEASE key sequence) releases
  end /\
  exists seen rest, ar_events run = seen ++ rest /\
    Client.Acquire c (withEvents run seen) key ttl = Some (c', requests, inl e) /\
    (forall before after, seen = before ++ after -> after <> [] -> Client.Acquire c (withEvents run before) key ttl = None) /\
    forall target, Is target (acquireErrorValue ctx e) = true <->
      target = ErrNotAcquired pkgClient \/
      (target = ErrKeyLimitReached pkgClient /\ exists ev, ev ∈ seen /\ keyLimitReply ev = true) \/
      exists reason, naCause e = Some reason /\ target ∈ causeTargets ctx reason.
Proof.
  intros Ha. split; [by apply acquire_failure_cleans_up in Ha|].
  assert (Hseen : exists seen rest, ar_events run = seen ++ rest /\
    Client.Acquire c (withEvents run seen) key ttl = Some (c', requests, inl e) /\
    (forall before after, seen = before ++ after -> after <> [] -> Client.Acquire c (withEvents run before) key ttl = None) /\
    naKeyLimit e = existsb keyLimitReply seen).
  { assert (Hno : forall before after : list event, [] = before ++ after -> after <> [] -> False) by (intros [|??] [|??]; done).
    unfold Client.Acquire in *. cbn [withEvents ar_start ar_cancel0 ar_outcomes ar_cancel1 ar_events ar_heal].
    destruct (ar_cancel0 run).
    { injection Ha as <- <- <-. exists [], (ar_events run). split_and!; try done. intros before after Hb Hn. by destruct (Hno before after). }
    destruct (submitAcquireLoop _ _ _ _ _ _ _) as [[c1 reqs] sub]. destruct (releaseAll c1 _ _) as [c2 releases].
    destruct (ar_cancel1 run).
    { injection Ha as <- <- <-. exists [], (ar_events run). split_and!; try done. intros before after Hb Hn. by destruct (Hno before after). }
    destruct (acquireCollect _ _ _ _ (ar_events run)) as [[st u|st]|] eqn:Hc; simpl in Ha; try done. injection Ha as <- <- <-.
    apply acquireCollect_seen in Hc as (seen & rest & Hev & Hc & Hb & Hk). exists seen, rest. rewrite Hc. split_and!; try done.
    intros before after Heq Hn. by rewrite (Hb before after). }
  destruct Hseen as (seen & rest & Hev & Hs & Hb & Hk). exists seen, rest. split_and!; try done.
  intros target. rewrite acquireErrorValue_is, Hk, existsb_exists. setoid_rewrite list_elem_of_In. done.
Qed.

(** What [work] counts as a failure because of the key limit. For the quorum client
    it is an Acquire during which a server said so; for the 1/1 client one whose
    request was queued and answered so; a missing current client is none. *)
Theorem work_counts_key_limit `{FlatBuffers} ctx now e c run meanwhile key ttl c' e1 :
  call_reports run -> Client1of1.Acquire c run meanwhile key ttl = Some (c', inl e1) ->
  workOutcome (currentAcquire None) now = acquireError false /\
  workOutcome (currentAcquire (Some (quorumAcquire ctx (inl e)))) now = acquireError (naKeyLimit e) /\
  (workOutcome (currentAcquire (Some (oneAcquire ctx (inl e1)))) now = acquireError true -> keyLimitCall run) /\
  (cr_cancel0 run = None -> ctxDone c = false -> (length (reqQueue c) < reqQueueCapacity)%nat -> keyLimitCall run ->
   workOutcome (currentAcquire (Some (oneAcquire ctx (inl e1)))) now = acquireError true).
Proof.
  intros Hrep Ha. destruct (acquire1_keyLimit _ _ _ _ _ _ _ Hrep Ha) as [H1 H2]. split; [done|]. split.
  { unfold workOutcome, currentAcquire, quorumAcquire. f_equal.
    assert (Hx : Is (ErrKeyLimitReached pkgClient1of1) (acquireErrorValue ctx e) = false).
    { apply not_true_is_false. rewrite acquireErrorValue_is. intros [?|[[? _]|(reason & _ & Hr)]]; [done..|].
      destruct reason; simpl in Hr; try (by apply list_elem_of_singleton in Hr; destruct ctx); by apply not_elem_of_nil in Hr. }
    rewrite Hx, orb_false_r. apply eq_iff_eq_true. rewrite acquireErrorValue_is. split; [|by auto].
    intros [?|[[_ ?]|(reason & _ & Hr)]]; [done..|].
    destruct reason; simpl in Hr; try (by apply list_elem_of_singleton in Hr; destruct ctx); by apply not_elem_of_nil in Hr. }
  unfold workOutcome, currentAcquire, oneAcquire. split.
  - intros Hx. assert (Hor : Is (ErrKeyLimitReached pkgClient) (acquireErrorValue1 ctx e1) ||
      Is (ErrKeyLimitReached pkgClient1of1) (acquireErrorValue1 ctx e1) = true) by (injection Hx; auto).
    apply orb_true_iff in Hor as [Hy|Hy]; apply acquireErrorValue1_is in Hy as [Hy Hz]; [done|]. by apply H1, Hz.
  - intros Hc Hd Hl Hk. f_equal. specialize (H2 Hc Hd Hl Hk). unfold acquireErrorValue1. by rewrite H2.
Qed.

(** An Acquire that failed because one queue was full and two servers had reached
    their limit. *)
Definition demoFull (replica : nat) (now : Z) : event :=
  evResponse replica (inr (mkResponse 100 ClientOperationACQUIRE LeaseStatusKEY_LIMIT_REACHED 0)) now now now None.

Definition demoFullRun : acquireRun :=
  mkAcquireRun 1000 None (fun replica => if decide (replica = 0%nat) then Some Client.errSendQueueFull else None) None
    [demoFull 1 3000; demoFull 2 3000] 3000.

Lemma failed_acquire_reported_witness :
  exists c' requests, Client.Acquire demoClient demoFullRun 77 3000 =
      Some (c', requests, inl (mkNotAcquired (Some Client.errSendQueueFull) true)) /\
    Error (acquireErrorValue ctxCanceled (mkNotAcquired (Some Client.errSendQueueFull) true)) =
      String.append "RedLease lease not acquired: connection send queue full"
        (String.String (Ascii.ascii_of_nat 10) "RedLease server key limit reached") /\
    Is (ErrSendQueueFull pkgClient) (acquireErrorValue ctxCanceled (mkNotAcquired (Some Client.errSendQueueFull) true)) = true /\
    Client.nextSequence c' = 5.
Proof.
  destruct (Client.Acquire demoClient demoFullRun 77 3000) as [[[c' reqs] [e|r]]|] eqn:Ha; [|vm_compute in Ha; done..].
  assert (He : e = mkNotAcquired (Some Client.errSendQueueFull) true)
    by (vm_compute in Ha; injection Ha as _ _ <-; reflexivity).
  pose proof (failed_acquire_reported demoClient demoFullRun 77 3000 c' reqs e ctxCanceled Ha)
    as ((Hn & _) & seen & rest & _ & _ & _ & Hiff).
  subst e. exists c', reqs. split; [reflexivity|]. split; [vm_compute; reflexivity|]. split; [|exact Hn].
  apply Hiff. right. right. exists Client.errSendQueueFull. split; [reflexivity|]. left.
Defined.
