(* ===== verification/LoadOptions.v ===== *)
(** * Options of the load generator (src/cmd/redlease-load/main.go)

    [parseOptions] from the values of the flags on. A string is the list of its
    Unicode code points. *)

From stdpp Require Import base list numbers.
From S2P Require Import Prelude GoText Quorum Client1of1 Client.

#[local] Open Scope Z_scope.

(** ** Options *)

Definition maxProtocolTTLMS : Z := 5000.
Definition maxWorkers : Z := 32768.

Inductive optionError :=
  | errClients                     (* an invalid positive integer in -clients *)
  | errLeases
  | errEndpointRequired
  | errPrefixRequired
  | errExclusive
  | errNoTargets
  | errEmptyAddress
  | errDuplicateAddress (target : text)
  | errDuration
  | errTTL
  | errHold
  | errResponseTimeout
  | errSettle
  | errTooManyWorkers (clients leases : Z)
  | errQuorum
  | errClient1of1Quorum
  | errBothQuorum
  | errClientKind
  | errTargetCount (required got : nat).

(** The values of the flags. *)
Record flagValues := mkFlags {
  fClient : text;
  fQuorum : text;
  fTargets : text;
  fEtcdEndpoint : text;
  fEtcdPrefix : text;
  fMetricsListen : text;
  fClients : text;
  fLeases : text;
  fDuration : Z;
  fHold : Z;
  fTTL : Z;
  fResponseTimeout : Z;
  fSettle : Z
}.

Record options := mkOptions {
  clientKind : text;
  oQuorum : text;
  targets : list text;
  etcdEndpoint : text;
  etcdPrefix : text;
  metricsListen : text;
  clientCounts : list Z;
  leaseCounts : list Z;
  duration : Z;
  hold : Z;
  ttlMS : Z;
  oResponseTimeout : Z;
  settle : Z
}.

Inductive scenarioName := clientName | client1of1Name.

Record scenario := mkScenario { sName : scenarioName; sQuorum : Z; sServerCount : nat }.

Fixpoint parsePositives (parts : list text) : option (list Z) :=
  match parts with
  | [] => Some []
  | part :: parts =>
      value ← Atoi (TrimSpace part);
      if value <=? 0 then None
      else values ← parsePositives parts; Some (value :: values)
  end.

Definition parsePositiveList (raw : text) : option (list Z) := parsePositives (Split raw).

(** The loop of [parseTargets] with the targets so far. *)
Fixpoint collectTargets (seen : list text) (parts : list text) : optionError + list text :=
  match parts with
  | [] => inr seen
  | part :: parts =>
      let target := TrimSpace part in
      if decide (target = []) then inl errEmptyAddress
      else if decide (target ∈ seen) then inl (errDuplicateAddress target)
      else collectTargets (seen ++ [target]) parts
  end.

Definition parseTargets (raw : text) : optionError + list text :=
  if decide (TrimSpace raw = []) then inl errNoTargets else collectTargets [] (Split raw).

Definition parseTargetOptions (rawTargets rawEtcdEndpoint rawEtcdPrefix : text) : optionError + list text :=
  let targets := TrimSpace rawTargets in
  let endpoint := TrimSpace rawEtcdEndpoint in
  let prefix := TrimSpace rawEtcdPrefix in
  if decide (endpoint = [] /\ prefix <> []) then inl errEndpointRequired
  else if decide (endpoint <> [] /\ prefix = []) then inl errPrefixRequired
  else if decide (endpoint <> [] /\ targets <> []) then inl errExclusive
  else if decide (endpoint <> []) then inr []
  else parseTargets targets.

(** The code points of the literals. *)
Definition quorum1of1 : text := [49; 47; 49].
Definition quorum2of3 : text := [50; 47; 51].
Definition quorum3of5 : text := [51; 47; 53].
Definition kindClient : text := [99; 108; 105; 101; 110; 116].
Definition kindClient1of1 : text := kindClient ++ [49; 111; 102; 49].
Definition kindBoth : text := [98; 111; 116; 104].

Definition genericScenario (quorum : text) : option scenario :=
  if decide (quorum = quorum1of1) then Some (mkScenario clientName Quorum1Of1 1)
  else if decide (quorum = quorum2of3) then Some (mkScenario clientName Quorum2Of3 3)
  else if decide (quorum = quorum3of5) then Some (mkScenario clientName Quorum3Of5 5)
  else None.

Definition specialized : scenario := mkScenario client1of1Name Quorum1Of1 1.

Definition scenarios (o : options) : optionError + list scenario :=
  match genericScenario (oQuorum o) with
  | None => inl errQuorum
  | Some generic =>
      if decide (clientKind o = kindClient1of1) then
        if decide (oQuorum o <> quorum1of1) then inl errClient1of1Quorum else inr [specialized]
      else if decide (clientKind o = kindClient) then inr [generic]
      else if decide (clientKind o = kindBoth) then
        if decide (oQuorum o <> quorum1of1) then inl errBothQuorum else inr [specialized; generic]
      else inl errClientKind
  end.

(** The first pair of counts that exceeds the number of workers. *)
Definition tooMany (o : options) : option (Z * Z) :=
  list_find (fun '(clientCount, leaseCount) => Z.quot maxWorkers leaseCount < clientCount)
    (clientCount ← clientCounts o; leaseCount ← leaseCounts o; [(clientCount, leaseCount)]) ≫= fun p => Some p.2.

Definition checkValues (o : options) : option optionError :=
  if (duration o <=? 0) || (hold o <? 0) then Some errDuration
  else if (ttlMS o <=? safetyMarginMS) || (maxProtocolTTLMS <? ttlMS o) then Some errTTL
  else if durationMS (u64 (ttlMS o - safetyMarginMS)) <=? hold o then Some errHold
  else if oResponseTimeout o =? 0 then Some errResponseTimeout
  else if settle o <? 0 then Some errSettle
  else match tooMany o with
       | Some (clients, leases) => Some (errTooManyWorkers clients leases)
       | None => None
       end.

Definition checkTargets (o : options) (selected : list scenario) : option optionError :=
  s ← list_find (fun s => etcdEndpoint o = [] /\ length (targets o) <> sServerCount s) selected;
  Some (errTargetCount (sServerCount s.2) (length (targets o))).

(** [parseOptions] after the flags are parsed and no argument is left. *)
Definition parseOptions (f : flagValues) : optionError + options :=
  match parsePositiveList (fClients f), parsePositiveList (fLeases f) with
  | None, _ => inl errClients
  | Some _, None => inl errLeases
  | Some clientCounts, Some leaseCounts =>
      match parseTargetOptions (fTargets f) (fEtcdEndpoint f) (fEtcdPrefix f) with
      | inl e => inl e
      | inr serverTargets =>
          let o := mkOptions (fClient f) (fQuorum f) serverTargets (TrimSpace (fEtcdEndpoint f))
            (TrimSpace (fEtcdPrefix f)) (TrimSpace (fMetricsListen f)) clientCounts leaseCounts (fDuration f)
            (fHold f) (fTTL f) (fResponseTimeout f) (fSettle f) in
          match checkValues o with
          | Some e => inl e
          | None =>
              match scenarios o with
              | inl e => inl e
              | inr selected =>
                  match checkTargets o selected with
                  | Some e => inl e
                  | None => inr o
                  end
              end
          end
      end
  end.

Definition settleDuration (o : options) : Z :=
  if 0 <? settle o then settle o
  else i64 (i64 (durationMS (ttlMS o) + durationMS (oResponseTimeout o)) + durationMS safetyMarginMS).

(** ** Clients (src/cmd/redlease-load/runner.go) *)

(** [newLoadClient]: the configuration it builds, checked by the constructor of
    the client it selects. [None] is the panic of [addresses[0]] on no address. *)
Definition newLoadClient (selected : scenario) (clientID bootID : Z) (addresses : list text) (o : options)
    : option (Client1of1.configError + Client.configError + (Client1of1.Client + Client.Client)) :=
  match sName selected with
  | client1of1Name =>
      match addresses with
      | [] => None
      | address :: _ =>
          Some match Client1of1.New bootID
                 (Client1of1.mkConfig clientID (bool_decide (address <> [])) true (oResponseTimeout o)) with
               | inl e => inl (inl e)
               | inr c => inr (inl c)
               end
      end
  | clientName =>
      Some match Client.New bootID
             (Client.mkConfig clientID (sQuorum selected) ((fun a => bool_decide (a <> [])) <$> addresses) true
                (oResponseTimeout o)) with
           | inl e => inl (inr e)
           | inr c => inr (inr c)
           end
  end.

Example parse_list : parsePositiveList [50; 44; 32; 52; 44; 49; 54] = Some [2; 4; 16].
Proof. reflexivity. Qed.

Example parse_list_bad : parsePositiveList [50; 44; 44; 49] = None /\ parsePositiveList [] = None.
Proof. split; reflexivity. Qed.
