(* ===== verification/LoadOptionsSafety.v ===== *)
(** * What the load generator's options accept (src/cmd/redlease-load/main.go)

    Accepted options satisfy the limits of the client configurations that are
    built from them, so that no constructor refuses what the command accepted. *)

From stdpp Require Import base sets list numbers.
From S2P Require Import Prelude GoText Quorum Client1of1 Client LoadOptions.

#[local] Open Scope Z_scope.

(** ** Splitting *)

Fixpoint join (parts : list text) : text :=
  match parts with
  | [] => []
  | [part] => part
  | part :: parts => part ++ comma :: join parts
  end.

Lemma Split_ne s : Split s <> [].
Proof. destruct s as [|r s]; simpl; [done|]. destruct (r =? comma); [done|]. by destruct (Split s). Qed.

Lemma join_cons p q parts : join (p :: q :: parts) = p ++ comma :: join (q :: parts).
Proof. done. Qed.

Lemma join_Split s : join (Split s) = s.
Proof.
  induction s as [|r s IH]; [done|]. simpl. pose proof (Split_ne s).
  destruct (Z.eqb_spec r comma) as [->|Hr]; destruct (Split s) as [|q parts]; try done.
  - by rewrite join_cons, IH.
  - destruct parts as [|q' parts]; simpl in *; by rewrite <- IH.
Qed.

Lemma Split_app part s : comma ∉ part -> Split (part ++ comma :: s) = part :: Split s.
Proof.
  induction part as [|r part IH]; intros Hn; simpl; [done|]. rewrite not_elem_of_cons in Hn. destruct Hn as [Hr Hn].
  destruct (Z.eqb_spec r comma); [done|]. by rewrite IH.
Qed.

Lemma Split_part part : comma ∉ part -> Split part = [part].
Proof.
  induction part as [|r part IH]; intros Hn; simpl; [done|]. rewrite not_elem_of_cons in Hn. destruct Hn as [Hr Hn].
  destruct (Z.eqb_spec r comma); [done|]. by rewrite IH.
Qed.

Lemma Split_join parts : parts <> [] -> Forall (fun p => comma ∉ p) parts -> Split (join parts) = parts.
Proof.
  intros Hne Hall. induction Hall as [|p parts Hp Hall IH]; [done|].
  destruct parts as [|q parts]; [by apply Split_part|]. rewrite join_cons, Split_app by done. by rewrite IH.
Qed.

Lemma Split_no_comma s : Forall (fun p => comma ∉ p) (Split s).
Proof.
  induction s as [|r s IH]; simpl; [repeat constructor; set_solver|].
  destruct (Z.eqb_spec r comma) as [->|Hr]; [constructor; [set_solver|done]|].
  destruct (Split s) as [|q parts]; [repeat constructor; set_solver|].
  inversion_clear IH. constructor; [set_solver|done].
Qed.

(** ** Trimming *)

Definition spaces (s : text) : Prop := Forall (fun r => IsSpace r = true) s.

(** Neither end of [s] is a space. *)
Definition trimmed (s : text) : Prop :=
  (forall r s', s = r :: s' -> IsSpace r = false) /\ (forall r s', s = s' ++ [r] -> IsSpace r = false).

Lemma trimLeft_spaces pre s : spaces pre -> trimLeft (pre ++ s) = trimLeft s.
Proof. induction 1 as [|r pre Hr Hpre IH]; [done|]. simpl. by rewrite Hr. Qed.

Lemma trimLeft_stop s : (forall r s', s = r :: s' -> IsSpace r = false) -> trimLeft s = s.
Proof. destruct s as [|r s]; [done|]. intros H. simpl. by rewrite (H r s). Qed.

Lemma trimLeft_spec s : exists pre, spaces pre /\ s = pre ++ trimLeft s /\
  (forall r s', trimLeft s = r :: s' -> IsSpace r = false).
Proof.
  induction s as [|r s (pre & Hpre & Hs & Hr)]; [by exists []; repeat constructor|]. simpl. destruct (IsSpace r) eqn:Hsp.
  - exists (r :: pre). split; [by constructor|]. split; [simpl; congruence|done].
  - exists []. split; [constructor|]. split; [done|]. by intros r' s' [= <- _].
Qed.

Lemma spaces_reverse s : spaces s -> spaces (reverse s).
Proof. unfold spaces. by rewrite Forall_reverse. Qed.

Lemma TrimSpace_app pre s post : spaces pre -> spaces post -> trimmed s -> TrimSpace (pre ++ s ++ post) = s.
Proof.
  intros Hpre Hpost [Hl Hr]. unfold TrimSpace. rewrite trimLeft_spaces by done.
  destruct s as [|r s'].
  - simpl. rewrite <- (app_nil_r post). by rewrite trimLeft_spaces.
  - rewrite (trimLeft_stop ((r :: s') ++ post)) by (intros x y [= <- _]; by eapply Hl).
    rewrite reverse_app, trimLeft_spaces by (by apply spaces_reverse).
    rewrite trimLeft_stop; [apply reverse_involutive|]. intros x y Hx. apply (Hr x (reverse y)).
    by rewrite <- (reverse_involutive (r :: s')), Hx, reverse_cons.
Qed.

Lemma TrimSpace_spec s : exists pre post, spaces pre /\ spaces post /\ s = pre ++ TrimSpace s ++ post /\
  trimmed (TrimSpace s).
Proof.
  unfold TrimSpace. destruct (trimLeft_spec s) as (pre & Hpre & Hs & Hl).
  destruct (trimLeft_spec (reverse (trimLeft s))) as (post & Hpost & Hs' & Hr).
  set (t := trimLeft (reverse (trimLeft s))) in *.
  assert (Ht : trimLeft s = reverse t ++ reverse post).
  { by rewrite <- reverse_app, <- Hs', reverse_involutive. }
  exists pre, (reverse post). split_and!; [done|by apply spaces_reverse|congruence|]. split.
  - intros r s' He. destruct (trimLeft s) as [|x y] eqn:Hx; [rewrite He in Ht; done|].
    rewrite He in Ht. injection Ht as -> _. by eapply Hl.
  - intros r s' He. apply (Hr r (reverse s')). rewrite <- (reverse_involutive t), He. by rewrite reverse_app.
Qed.

(** ** Numbers *)

Lemma digit_not_space r : isDigit r = true -> IsSpace r = false.
Proof.
  unfold isDigit, IsSpace. intros [H1%Z.leb_le H2%Z.leb_le]%andb_true_iff. apply orb_false_iff. split.
  - apply bool_decide_eq_false. set_solver by lia.
  - apply andb_false_iff. left. apply Z.leb_gt. lia.
Qed.

(** A positive decimal number, with an optional plus sign, that fits an [int]. *)
Definition number (s : text) (n : Z) : Prop :=
  exists sign ds, s = sign ++ ds /\ (sign = [] \/ sign = [43]) /\ ds <> [] /\
    Forall (fun r => isDigit r = true) ds /\ n = digitsValue ds /\ 0 < n < 2 ^ 63.

Lemma digitsValue_nonneg ds : Forall (fun r => isDigit r = true) ds -> 0 <= digitsValue ds.
Proof.
  unfold digitsValue. assert (H : forall v, 0 <= v -> Forall (fun r => isDigit r = true) ds ->
    0 <= foldl (fun v r => 10 * v + (r - 48)) v ds); [|by apply H].
  induction ds as [|r ds IH]; intros v Hv Hd; simpl; [done|]. inversion_clear Hd as [|? ? Hr Hds].
  apply IH; [|done]. unfold isDigit in Hr. apply andb_true_iff in Hr as [H1%Z.leb_le _]. lia.
Qed.

Lemma forallb_Forall (f : Z -> bool) l : forallb f l = true <-> Forall (fun r => f r = true) l.
Proof.
  induction l as [|x l IH]; simpl; [by split; [constructor|]|]. rewrite andb_true_iff, IH, list.Forall_cons. done.
Qed.

Lemma Atoi_positive s n : Atoi s = Some n /\ 0 < n <-> number s n.
Proof.
  unfold Atoi. split.
  - intros [Ha Hn]. destruct (splitSign s) as [negative ds] eqn:Hs.
    destruct (bool_decide (ds = []) || negb (forallb isDigit ds)) eqn:Hb; [done|].
    apply orb_false_iff in Hb as [Hne%bool_decide_eq_false Hd%negb_false_iff%forallb_Forall].
    pose proof (digitsValue_nonneg ds Hd). case_bool_decide as Hr; [|done]. injection Ha as Ha.
    destruct negative; [lia|]. exists (if decide (s = ds) then [] else [43]), ds.
    unfold splitSign in Hs. destruct s as [|r rest]; [by simplify_eq|].
    destruct (Z.eqb_spec r 45); [by simplify_eq|]. destruct (Z.eqb_spec r 43) as [->|]; simplify_eq.
    + rewrite decide_False; [|intros He; by apply (f_equal length) in He; simpl in He; lia].
      split_and!; try done; [by right|in_range].
    + rewrite decide_True by done. split_and!; try done; [by left|in_range].
  - intros (sign & ds & -> & Hsign & Hne & Hd & -> & Hn). split; [|lia].
    assert (Hss : splitSign (sign ++ ds) = (false, ds)).
    { destruct Hsign as [->| ->]; [|done]. simpl. destruct ds as [|r ds]; [done|]. simpl.
      inversion_clear Hd as [|? ? Hr _]. unfold isDigit in Hr. apply andb_true_iff in Hr as [H1%Z.leb_le _].
      destruct (Z.eqb_spec r 45); [lia|]. destruct (Z.eqb_spec r 43); [lia|]. done. }
    rewrite Hss. rewrite (bool_decide_eq_false_2 (ds = [])) by done. simpl.
    rewrite (proj2 (forallb_Forall _ _)) by done. simpl. rewrite bool_decide_eq_true_2 by in_range. done.
Qed.

Lemma number_trimmed s n : number s n -> trimmed s.
Proof.
  intros (sign & ds & -> & Hsign & Hne & Hd & _). split.
  - intros r s' He. destruct Hsign as [->| ->]; [|by injection He as <- _]. simpl in He. subst ds.
    inversion_clear Hd. by apply digit_not_space.
  - intros r s' He. destruct ds as [|d ds _] using rev_ind; [done|]. apply Forall_app in Hd as [_ Hd].
    rewrite app_assoc in He. apply app_inj_tail in He as [_ <-]. inversion_clear Hd. by apply digit_not_space.
Qed.

Lemma number_no_comma s n : number s n -> comma ∉ s.
Proof.
  intros (sign & ds & -> & Hsign & _ & Hd & _). unfold comma. rewrite not_elem_of_app. split.
  - destruct Hsign as [->| ->]; set_solver by lia.
  - intros Hin. rewrite list.Forall_forall in Hd. by specialize (Hd _ Hin).
Qed.

Lemma space_comma s : spaces s -> comma ∉ s.
Proof. intros Hs Hin. unfold spaces in Hs. rewrite list.Forall_forall in Hs. by specialize (Hs _ Hin). Qed.

Lemma parsePositives_spec parts ns :
  parsePositives parts = Some ns <-> Forall2 (fun part n => number (TrimSpace part) n) parts ns.
Proof.
  revert ns. induction parts as [|part parts IH]; intros ns; simpl.
  { split; [intros [= <-]; constructor|]. by inversion_clear 1. }
  split.
  - destruct (Atoi (TrimSpace part)) as [v|] eqn:Ha; [|done]. simpl. destruct (Z.leb_spec v 0); [done|].
    destruct (parsePositives parts) as [vs|] eqn:Hp; [|done]. intros [= <-]. constructor; [by apply Atoi_positive|].
    by apply IH.
  - inversion_clear 1 as [|? n ? ns' Hn Hns]. apply Atoi_positive in Hn as [-> Hn]. simpl.
    destruct (Z.leb_spec n 0); [lia|]. apply IH in Hns as ->. done.
Qed.

(** [parsePositiveList] accepts exactly the comma-separated lists of positive
    decimal numbers that fit an [int], each with an optional plus sign and any
    white space around it, and returns their values in order. *)
Theorem positive_list_exact raw ns :
  parsePositiveList raw = Some ns <->
  exists parts, parts <> [] /\ raw = join parts /\
    Forall2 (fun part n => exists pre s post, part = pre ++ s ++ post /\ spaces pre /\ spaces post /\ number s n) parts ns.
Proof.
  unfold parsePositiveList. rewrite parsePositives_spec. split.
  - intros H. exists (Split raw). split_and!; [apply Split_ne|by rewrite join_Split|].
    eapply list.Forall2_impl; [exact H|]. intros part n Hn.
    destruct (TrimSpace_spec part) as (pre & post & Hpre & Hpost & Heq & _). by exists pre, (TrimSpace part), post.
  - intros (parts & Hne & -> & H). rewrite Split_join; [|done|].
    + eapply list.Forall2_impl; [exact H|]. intros part n (pre & s & post & -> & Hpre & Hpost & Hn).
      rewrite TrimSpace_app; [done..|]. by eapply number_trimmed.
    + apply (Forall2_Forall_l _ _ _ _ H). apply list.Forall_forall.
      intros n _ part (pre & s & post & -> & Hpre & Hpost & Hn).
      rewrite !not_elem_of_app. split_and!; [by apply space_comma|by eapply number_no_comma|by apply space_comma].
Qed.

(** ** Accepted options *)

(** A server address: not empty, without white space at its ends or a comma. *)
Definition address (t : text) : Prop := t <> [] /\ trimmed t /\ comma ∉ t.

Lemma TrimSpace_no_comma s : comma ∉ s -> comma ∉ TrimSpace s.
Proof.
  intros Hn Hin. apply Hn. destruct (TrimSpace_spec s) as (pre & post & _ & _ & -> & _). set_solver.
Qed.

Lemma collectTargets_spec parts : forall seen ts,
  Forall (fun p => comma ∉ p) parts -> NoDup seen -> Forall address seen ->
  collectTargets seen parts = inr ts -> NoDup ts /\ Forall address ts.
Proof.
  induction parts as [|part parts IH]; intros seen ts Hp Hn Ha He; simpl in He; [by injection He as <-|].
  inversion_clear Hp as [|? ? Hc Hp']. destruct (decide (TrimSpace part = [])) as [|Hne]; [done|].
  destruct (decide (TrimSpace part ∈ seen)) as [|Hnin]; [done|]. apply (IH _ _ Hp') in He; [done| |].
  - apply list.NoDup_app. split_and!; [done|set_solver|apply NoDup_singleton].
  - apply Forall_app. split; [done|]. constructor; [|done].
    split_and!; [done| |by apply TrimSpace_no_comma]. by destruct (TrimSpace_spec part) as (? & ? & _ & _ & _ & ?).
Qed.

Lemma parseTargetOptions_spec raw endpoint prefix ts :
  parseTargetOptions raw endpoint prefix = inr ts ->
  NoDup ts /\ Forall address ts /\ (TrimSpace endpoint <> [] -> ts = []).
Proof.
  unfold parseTargetOptions. intros H. do 3 (destruct (decide _); [done|]).
  destruct (decide (TrimSpace endpoint <> [])) as [He|He].
  - injection H as <-. split_and!; [constructor|constructor|done].
  - unfold parseTargets in H. destruct (decide _); [done|].
    apply collectTargets_spec in H as [H1 H2]; [done|apply Split_no_comma|constructor|constructor].
Qed.

Record options_ok (o : options) : Prop := {
  oo_clients : clientCounts o <> [] /\ Forall (fun n => 0 < n) (clientCounts o);
  oo_leases : leaseCounts o <> [] /\ Forall (fun n => 0 < n) (leaseCounts o);
  oo_workers : forall c l, c ∈ clientCounts o -> l ∈ leaseCounts o -> c * l <= maxWorkers;
  oo_ttl : safetyMarginMS < ttlMS o <= maxProtocolTTLMS;
  oo_hold : 0 <= hold o < (ttlMS o - safetyMarginMS) * Millisecond;
  oo_duration : 0 < duration o;
  oo_timeout : 0 < oResponseTimeout o < 2 ^ 32;
  oo_settle : 0 <= settle o;
  oo_targets : NoDup (targets o) /\ Forall address (targets o);
  oo_etcd : etcdEndpoint o <> [] -> targets o = []
}.

Record flags_typed (f : flagValues) : Prop := {
  ft_ttl : is_u64 (fTTL f);
  ft_timeout : is_u32 (fResponseTimeout f);
  ft_settle : is_i64 (fSettle f)
}.

Lemma parsePositiveList_positive raw ns : parsePositiveList raw = Some ns -> ns <> [] /\ Forall (fun n => 0 < n) ns.
Proof.
  unfold parsePositiveList. rewrite parsePositives_spec. intros H. pose proof (Split_ne raw). split.
  - intros ->. by apply Forall2_nil_inv_r in H.
  - eapply Forall2_Forall_r; [exact H|]. apply list.Forall_forall. intros p _ n (? & ? & _ & _ & _ & _ & _ & ?). lia.
Qed.

Lemma tooMany_spec o c l :
  Forall (fun n => 0 < n) (leaseCounts o) -> tooMany o = None -> c ∈ clientCounts o -> l ∈ leaseCounts o ->
  c * l <= maxWorkers.
Proof.
  unfold tooMany. intros Hl Hn Hc Hin. destruct (list_find _ _) as [[i p]|] eqn:Hf; [done|].
  apply list_find_None in Hf. rewrite list.Forall_forall in Hf. rewrite list.Forall_forall in Hl. specialize (Hl l Hin).
  specialize (Hf (c, l)). simpl in Hf. rewrite Z.quot_div_nonneg in Hf by (unfold maxWorkers; lia).
  destruct (Z.le_gt_cases c (maxWorkers / l)) as [Hle|Hgt].
  - pose proof (Z.mul_div_le maxWorkers l ltac:(lia)). nia.
  - exfalso. apply Hf; [|lia]. apply list_elem_of_bind. exists c. split; [|done].
    apply list_elem_of_bind. exists l. split; [set_solver|done].
Qed.

Lemma parseOptions_ok f o : flags_typed f -> parseOptions f = inr o -> options_ok o.
Proof.
  intros [Ht1 Ht2 Ht3] H. unfold parseOptions in H.
  destruct (parsePositiveList (fClients f)) as [cs|] eqn:Hcs; [|done].
  destruct (parsePositiveList (fLeases f)) as [ls|] eqn:Hls; [|done].
  destruct (parseTargetOptions _ _ _) as [|ts] eqn:Hts; [done|].
  destruct (checkValues _) eqn:Hv; [done|]. destruct (scenarios _); [done|]. destruct (checkTargets _ _); [done|].
  injection H as <-. unfold checkValues in Hv. simpl in Hv.
  destruct ((fDuration f <=? 0) || (fHold f <? 0)) eqn:H1; [done|].
  apply orb_false_iff in H1 as [H1%Z.leb_gt H1'%Z.ltb_ge].
  destruct ((fTTL f <=? safetyMarginMS) || (maxProtocolTTLMS <? fTTL f)) eqn:H2; [done|].
  apply orb_false_iff in H2 as [H2%Z.leb_gt H2'%Z.ltb_ge]. unfold safetyMarginMS, maxProtocolTTLMS in *.
  rewrite u64_small in Hv by in_range. rewrite durationMS_small in Hv by lia.
  destruct (Z.leb_spec ((fTTL f - 100) * Millisecond) (fHold f)); [done|].
  destruct (Z.eqb_spec (fResponseTimeout f) 0); [done|]. destruct (Z.ltb_spec (fSettle f) 0); [done|].
  destruct (tooMany _) as [[? ?]|] eqn:Htm; [done|].
  apply parsePositiveList_positive in Hcs, Hls. apply parseTargetOptions_spec in Hts as (Hn & Ha & He).
  split; simpl; unfold safetyMarginMS, maxProtocolTTLMS; try done; try (in_range || lia).
  intros c k Hc Hk. by eapply tooMany_spec; [|exact Htm|..]; simpl; [apply Hls|..].
Qed.

Lemma firstEmptyTarget_none addresses : forall index,
  Forall (fun a : text => a <> []) addresses ->
  firstEmptyTarget index ((fun a => bool_decide (a <> [])) <$> addresses) = None.
Proof.
  induction addresses as [|a addresses IH]; intros index Ha; simpl; [done|]. inversion_clear Ha.
  rewrite bool_decide_eq_true_2 by done. by apply IH.
Qed.

Lemma scenarios_sound o ss :
  scenarios o = inr ss -> ss <> [] /\
  Forall (fun s => quorumValid (sQuorum s) = true /\ quorumServers (sQuorum s) = sServerCount s /\
    (sName s = client1of1Name -> sServerCount s = 1%nat)) ss.
Proof.
  unfold scenarios, genericScenario. intros H.
  repeat case_decide; simplify_eq; (split; [done|]); repeat constructor; done.
Qed.

(** An address list that fits the scenario builds a client. *)
Lemma newLoadClient_ok s clientID bootID addresses o :
  quorumValid (sQuorum s) = true -> quorumServers (sQuorum s) = sServerCount s ->
  (sName s = client1of1Name -> sServerCount s = 1%nat) ->
  length addresses = sServerCount s -> Forall (fun a : text => a <> []) addresses ->
  exists c, newLoadClient s clientID bootID addresses o = Some (inr c).
Proof.
  intros Hv Hq H1 Hl Ha. unfold newLoadClient. destruct (sName s).
  - unfold Client.New, Client.Validate. simpl. rewrite Hv, length_fmap, Hl, Hq. simpl.
    rewrite decide_False by congruence. rewrite firstEmptyTarget_none by done. by eexists.
  - specialize (H1 eq_refl). destruct addresses as [|a addresses]; [simpl in *; congruence|].
    inversion_clear Ha. unfold Client1of1.New, Client1of1.Validate. simpl.
    rewrite bool_decide_eq_true_2 by done. simpl. by eexists.
Qed.

(** Options the load generator accepts run. Whatever the flags say, accepted
    options have positive counts with at most 32768 concurrent workers, a TTL the
    servers grant, a holding time that ends before the lease may expire, a
    positive response timeout, and distinct, non-empty targets or discovery;
    there is at least one scenario, and for each of them the constructor of its
    client accepts the configuration built from the given targets, or from any
    discovered ones of the required number, for every client and boot id; the
    pause after a measurement outlasts every lease. *)
Lemma accepted_options_run f o :
  flags_typed f -> parseOptions f = inr o ->
  options_ok o /\
  (settle o = 0 -> (ttlMS o + oResponseTimeout o) * Millisecond < settleDuration o) /\
  exists ss, scenarios o = inr ss /\ ss <> [] /\
    forall s, s ∈ ss -> forall addresses,
      (if decide (etcdEndpoint o = []) then addresses = targets o
       else length addresses = sServerCount s /\ Forall (fun a : text => a <> []) addresses) ->
      forall clientID bootID, exists c, newLoadClient s clientID bootID addresses o = Some (inr c).
Proof.
  intros Hft Hp. pose proof (parseOptions_ok f o Hft Hp) as Hok. split; [done|]. split.
  - intros Hs. pose proof (oo_ttl _ Hok). pose proof (oo_timeout _ Hok). unfold settleDuration. rewrite Hs. simpl.
    rewrite !durationMS_small by (unfold safetyMarginMS, maxProtocolTTLMS in *; lia).
    assert (Hd : durationMS (oResponseTimeout o) = oResponseTimeout o * Millisecond).
    { unfold durationMS. rewrite (i64_small (oResponseTimeout o)) by in_range. apply i64_small. unfold Millisecond. in_range. }
    rewrite Hd. unfold safetyMarginMS, maxProtocolTTLMS, Millisecond in *.
    rewrite (i64_small (ttlMS o * 1000000 + oResponseTimeout o * 1000000)) by in_range.
    change (durationMS 100) with 100000000. rewrite i64_small by in_range. lia.
  - unfold parseOptions in Hp. destruct (parsePositiveList (fClients f)); [|done].
    destruct (parsePositiveList (fLeases f)); [|done].
    destruct (parseTargetOptions _ _ _); [done|]. destruct (checkValues _); [done|].
    destruct (scenarios _) as [|ss] eqn:Hss; [done|]. destruct (checkTargets _ _) eqn:Hct; [done|].
    injection Hp as Ho. rewrite Ho in Hss, Hct. exists ss. split; [done|].
    destruct (scenarios_sound _ _ Hss) as [Hne Hall]. split; [done|]. intros s Hs addresses Ha clientID bootID.
    rewrite list.Forall_forall in Hall. destruct (Hall s Hs) as (Hv & Hq & H1).
    unfold checkTargets in Hct. destruct (list_find _ _) as [[i x]|] eqn:Hf; [done|].
    apply list_find_None in Hf. rewrite list.Forall_forall in Hf. specialize (Hf s Hs). simpl in Hf.
    destruct (decide (etcdEndpoint o = [])) as [He|He]; [subst addresses|destruct Ha; by apply newLoadClient_ok].
    destruct (decide (length (targets o) = sServerCount s)) as [Hl|Hl]; [|naive_solver].
    apply newLoadClient_ok; try done. eapply list.Forall_impl; [exact (proj2 (oo_targets _ Hok))|].
    by intros a (? & _).
Qed.
