(* ===== verification/Futures.v ===== *)
(** * Calls and pooled futures of the 1/1 client (src/client1of1/connection.go)

    A call takes a future from a pool, registers it under its request identifier
    and waits for its result channel, which has room for one result. Whoever
    removes the registration (the worker of the shard, the waiting call itself
    after a timeout, or [Close]) sends exactly one result; the call receives it
    and puts the future back. The channel is reused, so a result that came late
    would be taken for the answer of a later call. *)

From S2P Require Import Prelude Protocol Wire Codec Client1of1 Client1of1Safety.
From stdpp Require Import base gmap list numbers relations tactics.

#[local] Open Scope Z_scope.

(** ** The state *)

(** [connectionFuture]; [fu_result] holds what its channel of capacity 1 holds. *)
Record connectionFuture := mkFuture {
  fu_client : bool;                (* [client] is not nil *)
  fu_requestID : Z;
  fu_result : list connectionResult
}.

Definition resultCapacity : nat := 1.

(** Where a call of [awaitResponse] is. *)
Inductive callPC :=
  | callWaiting                    (* the select of [await] *)
  | callCompleting (e : callError) (* before its [completeInShard] *)
  | callDraining.                  (* [result = <-f.result] *)

Record call := mkCall { ca_future : nat; ca_pc : callPC }.

(** [fw_issued]: identifiers drawn from [nextRequestID] by goroutines that have not
    submitted their request yet. [fw_inflight]: results of goroutines that
    removed a registration and have not sent yet. *)
Record world := mkWorld {
  fw_client : Client;
  fw_issued : gset Z;
  fw_futures : gmap nat connectionFuture;
  fw_pool : list nat;
  fw_calls : gmap nat call;
  fw_inflight : list (nat * connectionResult)
}.

Definition setClient (w : world) (c : Client) : world :=
  mkWorld c (fw_issued w) (fw_futures w) (fw_pool w) (fw_calls w) (fw_inflight w).

Definition setIssued (w : world) (issued : gset Z) : world :=
  mkWorld (fw_client w) issued (fw_futures w) (fw_pool w) (fw_calls w) (fw_inflight w).

Definition setFuture (w : world) (f : nat) (fu : connectionFuture) : world :=
  mkWorld (fw_client w) (fw_issued w) (<[f := fu]> (fw_futures w)) (fw_pool w) (fw_calls w) (fw_inflight w).

Definition setPool (w : world) (pool : list nat) : world :=
  mkWorld (fw_client w) (fw_issued w) (fw_futures w) pool (fw_calls w) (fw_inflight w).

Definition setCalls (w : world) (calls : gmap nat call) : world :=
  mkWorld (fw_client w) (fw_issued w) (fw_futures w) (fw_pool w) calls (fw_inflight w).

Definition addInflight (w : world) (l : list (nat * connectionResult)) : world :=
  mkWorld (fw_client w) (fw_issued w) (fw_futures w) (fw_pool w) (fw_calls w) (fw_inflight w ++ l).

(** ** Operations *)

(** [acquireFuture]: [got] is the position of the pooled future that [Get]
    returns, or a new name when the pool returns none. *)
Definition acquireFuture (w : world) (got : nat + nat) (requestID : Z) : option (world * nat) :=
  match got with
  | inl position =>
      f ← fw_pool w !! position;
      fu ← fw_futures w !! f;
      Some (setFuture (setPool w (delete position (fw_pool w))) f
              (mkFuture true requestID (fu_result fu)), f)
  | inr f =>
      if decide (fw_futures w !! f = None) then Some (setFuture w f (mkFuture true requestID []), f)
      else None
  end.

Definition releaseFuture (w : world) (f : nat) : option world :=
  fu ← fw_futures w !! f;
  Some (setFuture (setPool w (fw_pool w ++ [f])) f (mkFuture false 0 (fu_result fu))).

(** [submit]; a submitted call [k] goes on to [awaitResponse]. *)
Definition submitCall (w : world) (k : nat) (got : nat + nat) (requestID : Z) (request : list Z)
    : option (world * option callError) :=
  '(w, f) ← acquireFuture w got requestID;
  '(c, err) ← submit (fw_client w) requestID request f;
  let w := setClient w c in
  match err with
  | Some e => w ← releaseFuture w f; Some (w, Some e)
  | None => Some (setCalls w (<[k := mkCall f callWaiting]> (fw_calls w)), None)
  end.

(** [completeInShard] with the send that follows its critical section. *)
Definition completeCall (w : world) (shard : nat) (requestID : Z) (result : connectionResult) : option world :=
  '(c, found) ← completeInShard (fw_client w) shard requestID;
  Some (addInflight (setClient w c)
          (match found with Some f => [(f, result)] | None => [] end)).

(** [await]: the result arrives, in the select or after a completion. *)
Definition awaitReceive (w : world) (k : nat) : option (world * connectionResult) :=
  ca ← fw_calls w !! k;
  fu ← fw_futures w !! ca_future ca;
  match ca_pc ca, fu_result fu with
  | callWaiting, result :: rest | callDraining, result :: rest =>
      w ← releaseFuture (setFuture w (ca_future ca) (mkFuture (fu_client fu) (fu_requestID fu) rest)) (ca_future ca);
      Some (setCalls w (delete k (fw_calls w)), result)
  | _, _ => None
  end.

(** [await]: the context or the timer ends the wait. *)
Definition awaitCancel (w : world) (k : nat) (e : callError) : option world :=
  ca ← fw_calls w !! k;
  match ca_pc ca with
  | callWaiting => Some (setCalls w (<[k := mkCall (ca_future ca) (callCompleting e)]> (fw_calls w)))
  | _ => None
  end.

Definition awaitComplete (w : world) (k : nat) : option world :=
  ca ← fw_calls w !! k;
  match ca_pc ca with
  | callCompleting e =>
      fu ← fw_futures w !! ca_future ca;
      if fu_client fu then
        w ← completeCall w (pendingShardIndex (fu_requestID fu)) (fu_requestID fu) (inl e);
        Some (setCalls w (<[k := mkCall (ca_future ca) callDraining]> (fw_calls w)))
      else None
  | _ => None
  end.

(** One round of [completeResponses]: [None] when nothing is queued. *)
Definition workerComplete (w : world) (i : nat) : option world :=
  shard ← pending (fw_client w) !! i;
  match ps_responses shard with
  | [] => None
  | response :: rest =>
      let c := setPending (fw_client w) (<[i := mkPendingShard (ps_pending shard) rest]> (pending (fw_client w))) in
      completeCall (setClient w c) i (RequestID response) (inr response)
  end.

(** [receive]: the [TryEnqueue] of a decoded response. *)
Definition receiveEnqueue (c : Client) (response : Response) : option Client :=
  let i := pendingShardIndex (RequestID response) in
  shard ← pending c !! i;
  if decide (length (ps_responses shard) < responseQueueCapacity)%nat then
    Some (setPending c (<[i := mkPendingShard (ps_pending shard) (ps_responses shard ++ [response])]> (pending c)))
  else None.

(** The parts of [Close]: the context is cancelled, the state is marked closed,
    and one shard after the other loses its map. *)
Definition cancelClient (c : Client) : Client :=
  mkClient (clientID c) (bootID c) (nextSequence c) (nextRequestID c) (responseTimeout c) true
    (connection c) (closed c) (changes c) (reqQueue c) (pending c).

Definition closeShard (w : world) (i : nat) : option world :=
  shard ← pending (fw_client w) !! i;
  Some (addInflight
          (setClient w (setPending (fw_client w)
             (<[i := mkPendingShard None (ps_responses shard)]> (pending (fw_client w)))))
          ((fun e => (e.2, inl errClientClosed)) <$> shardPending shard)).

Definition discardQueuedRequests (c : Client) : Client := setQueue c [].

(** The send that follows a removal; it blocks while the channel is full. *)
Definition sendResult (w : world) (l1 l2 : list (nat * connectionResult)) (f : nat)
    (result : connectionResult) : option world :=
  fu ← fw_futures w !! f;
  if decide (length (fu_result fu) < resultCapacity)%nat then
    Some (mkWorld (fw_client w) (fw_issued w)
            (<[f := mkFuture (fu_client fu) (fu_requestID fu) (fu_result fu ++ [result])]> (fw_futures w))
            (fw_pool w) (fw_calls w) (l1 ++ l2))
  else None.

(** ** Interleavings *)

Inductive call_step : world -> world -> Prop :=
  (* [nextRequestID.Add(1)] *)
  | cs_issue w :
      nextRequestID (fw_client w) + 1 < 2 ^ 64 ->
      let requestID := u64 (nextRequestID (fw_client w) + 1) in
      call_step w (setIssued (setClient w (setIDs (fw_client w) (nextSequence (fw_client w)) requestID))
                     ({[requestID]} ∪ fw_issued w))
  | cs_submit w k got requestID request w' err :
      fw_calls w !! k = None -> requestID ∈ fw_issued w ->
      submitCall (setIssued w (fw_issued w ∖ {[requestID]})) k got requestID request = Some (w', err) ->
      call_step w w'
  | cs_no_response w requestID request c' err :
      requestID ∈ fw_issued w -> submitNoResponse (fw_client w) requestID request = Some (c', err) ->
      call_step w (setIssued (setClient w c') (fw_issued w ∖ {[requestID]}))
  | cs_receive w k w' result : awaitReceive w k = Some (w', result) -> call_step w w'
  | cs_cancel w k e w' : awaitCancel w k e = Some w' -> call_step w w'
  | cs_complete w k w' : awaitComplete w k = Some w' -> call_step w w'
  | cs_worker w i w' : workerComplete w i = Some w' -> call_step w w'
  | cs_send w l1 l2 f result w' :
      fw_inflight w = l1 ++ (f, result) :: l2 -> sendResult w l1 l2 f result = Some w' -> call_step w w'
  | cs_response w response c' :
      receiveEnqueue (fw_client w) response = Some c' -> call_step w (setClient w c')
  | cs_dequeue w request q :
      reqQueue (fw_client w) = request :: q -> call_step w (setClient w (setQueue (fw_client w) q))
  | cs_publish w conn : call_step w (setClient w (publish (fw_client w) conn).1)
  | cs_clear w conn : call_step w (setClient w (clear (fw_client w) conn))
  | cs_close w : call_step w (setClient w (cancelClient (fw_client w)))
  | cs_mark_closed w :
      ctxDone (fw_client w) = true -> call_step w (setClient w (setConnection (fw_client w) None true))
  | cs_close_shard w i w' :
      ctxDone (fw_client w) = true -> closeShard w i = Some w' -> call_step w w'
  | cs_discard w : call_step w (setClient w (discardQueuedRequests (fw_client w))).

Definition startWorld (c : Client) : world := mkWorld c ∅ ∅ [] ∅ [].

Inductive call_reachable : world -> Prop :=
  | cr_new boot config c : New boot config = inr c -> call_reachable (startWorld c)
  | cr_step w w' : call_reachable w -> call_step w w' -> call_reachable w'.

(** ** Where a call is *)

Definition pendingOf (c : Client) (id : Z) : option nat :=
  shard ← pending c !! pendingShardIndex id;
  m ← ps_pending shard;
  m !! id.

(** The future and the request of call [k]. *)
Definition heldBy (w : world) (k : nat) : option (nat * Z) :=
  ca ← fw_calls w !! k;
  fu ← fw_futures w !! ca_future ca;
  Some (ca_future ca, fu_requestID fu).

Definition channelOf (w : world) (f : nat) : list connectionResult :=
  from_option fu_result [] (fw_futures w !! f).

Definition sendsTo (f : nat) (l : list (nat * connectionResult)) : nat :=
  length (filter (fun e => e.1 = f) l).

(** In how many places the call of request [id] with future [f] can be found. *)
Definition located (w : world) (f : nat) (id : Z) : nat :=
  ((if decide (pendingOf (fw_client w) id = Some f) then 1 else 0) +
   sendsTo f (fw_inflight w) + length (channelOf w f))%nat.

(** A response answers the request it is delivered for. *)
Definition answers (result : connectionResult) (id : Z) : Prop :=
  forall response, result = inr response -> RequestID response = id.

(** Every entry of a shard belongs to it. *)
Record shards_ok (c : Client) : Prop := {
  so_ok : client_ok c;
  so_home : forall i shard m id, pending c !! i = Some shard -> ps_pending shard = Some m ->
    is_Some (m !! id) -> i = pendingShardIndex id;
  so_responses : forall i shard r, pending c !! i = Some shard -> r ∈ ps_responses shard ->
    i = pendingShardIndex (RequestID r)
}.

Record world_inv (w : world) : Prop := {
  fi_shards : shards_ok (fw_client w);
  fi_next : 0 <= nextRequestID (fw_client w) < 2 ^ 64;
  fi_issued : forall id, id ∈ fw_issued w -> 0 < id <= nextRequestID (fw_client w) /\
    forall k f, heldBy w k <> Some (f, id);
  fi_pool : NoDup (fw_pool w);
  fi_pooled : forall f, f ∈ fw_pool w -> is_Some (fw_futures w !! f) /\ forall k id, heldBy w k <> Some (f, id);
  fi_calls : forall k ca, fw_calls w !! k = Some ca ->
    exists fu, fw_futures w !! ca_future ca = Some fu /\ fu_client fu = true /\
      0 < fu_requestID fu <= nextRequestID (fw_client w);
  fi_future : forall k1 k2 f id1 id2, heldBy w k1 = Some (f, id1) -> heldBy w k2 = Some (f, id2) -> k1 = k2;
  fi_request : forall k1 k2 f1 f2 id, heldBy w k1 = Some (f1, id) -> heldBy w k2 = Some (f2, id) -> k1 = k2;
  fi_registered : forall id f, pendingOf (fw_client w) id = Some f -> exists k, heldBy w k = Some (f, id);
  fi_sent : forall f r, (f, r) ∈ fw_inflight w \/ r ∈ channelOf w f ->
    exists k id, heldBy w k = Some (f, id) /\ answers r id;
  fi_located : forall k f id, heldBy w k = Some (f, id) -> located w f id = 1%nat;
  fi_draining : forall k f, fw_calls w !! k = Some (mkCall f callDraining) ->
    forall id, pendingOf (fw_client w) id <> Some f
}.

(** ** The shards *)

Lemma shards_ok_lookup c i : shards_ok c -> (i < pendingShardCount)%nat -> exists shard, pending c !! i = Some shard.
Proof. intros Hok Hi. apply lookup_lt_is_Some_2. by rewrite (co_shards _ (so_ok _ Hok)). Qed.

Lemma call_pending_insert c i shard m responses id :
  pending c !! i = Some shard ->
  pendingOf (setPending c (<[i := mkPendingShard m responses]> (pending c))) id =
    if decide (pendingShardIndex id = i) then m ≫= (.!! id) else pendingOf c id.
Proof.
  intros Hi. apply lookup_lt_Some in Hi. unfold pendingOf. simpl. case_decide as Hd.
  - by rewrite Hd, list_lookup_insert_eq by done.
  - by rewrite list_lookup_insert_ne by done.
Qed.

Lemma shards_ok_insert c i shard m responses :
  shards_ok c -> pending c !! i = Some shard -> (ctxDone c = false -> is_Some m) ->
  (forall m' id, m = Some m' -> is_Some (m' !! id) -> i = pendingShardIndex id) ->
  (forall r, r ∈ responses -> i = pendingShardIndex (RequestID r)) ->
  shards_ok (setPending c (<[i := mkPendingShard m responses]> (pending c))).
Proof.
  intros [H1 H2 H3] Hi Hm Hhome Hresp. split; simpl; [by apply client_ok_insert|..].
  - intros j sh m' id [(<- & <- & _)|[Hne Hj]]%list_lookup_insert_Some; simpl; [eauto|by apply (H2 _ sh)].
  - intros j sh r [(<- & <- & _)|[Hne Hj]]%list_lookup_insert_Some; simpl; [eauto|by apply (H3 _ sh)].
Qed.

(** Fields other than the shards do not matter. *)
Lemma shards_ok_same c c' :
  shards_ok c -> pending c' = pending c -> (ctxDone c' = false -> ctxDone c = false) -> shards_ok c'.
Proof.
  intros [[H1 H1'] H2 H3] Hp Hc. split; [split|..]; rewrite ?Hp; eauto.
Qed.

Lemma completeInShard_spec c id :
  shards_ok c ->
  exists c', completeInShard c (pendingShardIndex id) id = Some (c', pendingOf c id) /\ shards_ok c' /\
    nextRequestID c' = nextRequestID c /\
    forall id', pendingOf c' id' = if decide (id' = id) then None else pendingOf c id'.
Proof.
  intros Hok. destruct (shards_ok_lookup c (pendingShardIndex id) Hok) as [shard Hs]; [apply shardIndex1of1_lt|].
  unfold completeInShard. rewrite Hs. simpl.
  assert (Hpo : pendingOf c id = ps_pending shard ≫= (.!! id)) by (unfold pendingOf; by rewrite Hs).
  rewrite <- Hpo. destruct (pendingOf c id) as [f|] eqn:Hp.
  - destruct (ps_pending shard) as [m|] eqn:Hm; [|done]. eexists. split_and!; [done|..|done|].
    + eapply shards_ok_insert; [done..|simpl; by eexists| |].
      * simpl. intros m' id' [= <-] Hid. rewrite lookup_delete_is_Some in Hid. destruct Hid as [_ Hid].
        by eapply (so_home _ Hok).
      * intros r. by apply (so_responses _ Hok).
    + intros id'. erewrite call_pending_insert by done. simpl. case_decide as Hi; case_decide as Hd; subst; try done.
      * by rewrite lookup_delete_eq.
      * rewrite lookup_delete_ne by done. unfold pendingOf. rewrite Hi, Hs. simpl. by rewrite Hm.
  - exists c. split_and!; [done..|]. intros id'. case_decide; by subst.
Qed.

Lemma enqueue_pending c id request result :
  shards_ok c -> pendingOf c id = None ->
  exists c' err, enqueue c id request result = Some (c', err) /\ shards_ok c' /\
    nextRequestID c' = nextRequestID c /\
    forall id', pendingOf c' id' = if decide (err = None /\ id' = id) then result else pendingOf c id'.
Proof.
  intros Hok Hp. destruct (shards_ok_lookup c (pendingShardIndex id) Hok) as [shard Hs]; [apply shardIndex1of1_lt|].
  unfold enqueue. rewrite Hs. simpl. destruct (ctxDone c) eqn:Hctx.
  { eexists _, _. split_and!; [done..|]. intros id'. by rewrite decide_False by naive_solver. }
  destruct (co_maps _ (so_ok _ Hok) Hctx _ _ Hs) as [m Hm]. rewrite Hm.
  assert (Hmid : m !! id = None) by (unfold pendingOf in Hp; by rewrite Hs in Hp; simpl in Hp; rewrite Hm in Hp).
  set (m1 := match result with Some f => <[id := f]> m | None => m end).
  assert (Hreg : (match result with None => Some (Some m)
     | Some future => m0 ← Some m; Some (Some (<[id := future]> m0)) end) = Some (Some m1)) by (by destruct result).
  rewrite Hreg. simpl.
  assert (Hlook : forall id', pendingShardIndex id' = pendingShardIndex id -> pendingOf c id' = m !! id').
  { intros id' Hi. unfold pendingOf. by rewrite Hi, Hs; simpl; rewrite Hm. }
  assert (Hm1 : forall id', m1 !! id' = if decide (id' = id) then result else m !! id').
  { intros id'. unfold m1. case_decide as Hd; [subst; destruct result; [by rewrite lookup_insert_eq|done]|].
    destruct result; [by rewrite lookup_insert_ne|done]. }
  assert (Hhome : forall id', is_Some (m1 !! id') -> pendingShardIndex id = pendingShardIndex id').
  { intros id' Hid. rewrite Hm1 in Hid. case_decide; [by subst|]. by eapply (so_home _ Hok). }
  case_decide; eexists _, _; (split_and!; [done|..|done|]).
  - eapply (shards_ok_insert (setQueue c (reqQueue c ++ [request])));
      [by eapply shards_ok_same|done|by eexists|naive_solver|intros r; by apply (so_responses _ Hok)].
  - intros id'. erewrite (call_pending_insert (setQueue c (reqQueue c ++ [request]))) by done. simpl. rewrite Hm1.
    case_decide as Hi; [rewrite <- Hlook by done|]; repeat case_decide; subst; try done; naive_solver.
  - eapply shards_ok_insert; [done..|by eexists| |intros r; by apply (so_responses _ Hok)].
    intros m' id' [= <-] [_ Hid]%lookup_delete_is_Some. by apply Hhome.
  - intros id'. erewrite call_pending_insert by done. rewrite (decide_False (P := _ /\ _)) by naive_solver. simpl.
    case_decide as Hi; [|done]. rewrite Hlook by done. destruct (decide (id' = id)) as [->|Hne].
    + by rewrite lookup_delete_eq.
    + rewrite lookup_delete_ne, Hm1, decide_False by done. done.
Qed.

Lemma closeShard_pending c i shard id :
  shards_ok c -> pending c !! i = Some shard ->
  (forall f, (id, f) ∈ shardPending shard <-> pendingShardIndex id = i /\ pendingOf c id = Some f) /\
  NoDup (shardPending shard).
Proof.
  intros Hok Hi. unfold shardPending. destruct (ps_pending shard) as [m|] eqn:Hm; simpl.
  - split; [|apply NoDup_map_to_list]. intros f. rewrite elem_of_map_to_list. split.
    + intros Hf. assert (Hh : i = pendingShardIndex id) by (eapply (so_home _ Hok); by eauto).
      split; [done|]. unfold pendingOf. by rewrite <- Hh, Hi; simpl; rewrite Hm.
    + intros [Hh Hf]. unfold pendingOf in Hf. by rewrite Hh, Hi in Hf; simpl in Hf; rewrite Hm in Hf.
  - split; [|constructor]. intros f. rewrite elem_of_nil. split; [done|]. intros [Hh Hf].
    unfold pendingOf in Hf. rewrite Hh, Hi in Hf. simpl in Hf. by rewrite Hm in Hf.
Qed.

(** ** Preservation *)

(** What a client does without touching its pending calls. *)
Lemma call_quiet_inv w c :
  world_inv w -> shards_ok c -> nextRequestID c = nextRequestID (fw_client w) ->
  (forall id, pendingOf c id = pendingOf (fw_client w) id) -> world_inv (setClient w c).
Proof.
  intros [H1 H2 H3 H4 H5 H6 H7 H8 H9 H10 H11 H12] Hok Hn Hp.
  split; simpl; try done; try (rewrite Hn; done).
  - intros id f. rewrite Hp. apply H9.
  - intros k f id Hk. specialize (H11 k f id Hk). unfold located in *. simpl. by rewrite Hp.
  - intros k f Hk id. rewrite Hp. by eapply H12.
Qed.

Lemma heldBy_call w k ca fu :
  fw_calls w !! k = Some ca -> fw_futures w !! ca_future ca = Some fu ->
  heldBy w k = Some (ca_future ca, fu_requestID fu).
Proof. unfold heldBy. by intros -> ?; simpl; simplify_option_eq. Qed.

Lemma heldBy_Some w k f id :
  heldBy w k = Some (f, id) ->
  exists pc fu, fw_calls w !! k = Some (mkCall f pc) /\ fw_futures w !! f = Some fu /\ fu_requestID fu = id.
Proof.
  unfold heldBy. destruct (fw_calls w !! k) as [[f' pc]|]; simpl; [|done].
  destruct (fw_futures w !! f') as [fu|] eqn:Hf; simpl; [|done]. intros [= <- <-]. by exists pc, fu.
Qed.

(** A call waits for one request. *)
Lemma held_id w k1 k2 f id1 id2 : heldBy w k1 = Some (f, id1) -> heldBy w k2 = Some (f, id2) -> id1 = id2.
Proof.
  intros (_ & fu & _ & Hf & <-)%heldBy_Some (_ & fu' & _ & Hf' & <-)%heldBy_Some. congruence.
Qed.

Lemma sendsTo_app f l1 l2 : sendsTo f (l1 ++ l2) = (sendsTo f l1 + sendsTo f l2)%nat.
Proof. unfold sendsTo. by rewrite list.filter_app, length_app. Qed.

Lemma sendsTo_cons f g r l : sendsTo f ((g, r) :: l) = ((if decide (g = f) then 1 else 0) + sendsTo f l)%nat.
Proof. unfold sendsTo. rewrite filter_cons. simpl. by case_decide. Qed.

Lemma sendsTo_pos f r l : (f, r) ∈ l -> (1 <= sendsTo f l)%nat.
Proof. intros (l1 & l2 & ->)%list_elem_of_split. rewrite sendsTo_app, sendsTo_cons, decide_True by done. lia. Qed.

(** Removed registrations: at most one of them is for [f]. *)
Lemma sendsTo_removed (result : Z -> connectionResult) f id (l : list (Z * nat)) :
  NoDup l -> (forall id', (id', f) ∈ l -> id' = id) ->
  sendsTo f ((fun e => (e.2, result e.1)) <$> l) = if decide ((id, f) ∈ l) then 1%nat else 0%nat.
Proof.
  induction l as [|[i g] l IH]; intros Hnd Hid.
  { rewrite decide_False by (apply not_elem_of_nil). done. }
  apply list.NoDup_cons in Hnd as [Hn Hnd]. rewrite fmap_cons, sendsTo_cons, IH; [|done|intros; apply Hid; by right].
  cbn [snd].
  destruct (decide (g = f)) as [->|Hne].
  - assert (i = id) as -> by (apply Hid; by left).
    rewrite (decide_False (P := (id, f) ∈ l)), decide_True by (done || by left). done.
  - simpl. apply decide_ext. rewrite elem_of_cons. naive_solver.
Qed.

(** Registrations are removed; their removers have yet to send. *)
Lemma call_move_inv w c l (result : Z -> connectionResult) :
  world_inv w -> shards_ok c -> nextRequestID c = nextRequestID (fw_client w) ->
  NoDup l -> (forall id f, (id, f) ∈ l -> pendingOf (fw_client w) id = Some f) ->
  (forall id, pendingOf c id = if decide (id ∈ l.*1) then None else pendingOf (fw_client w) id) ->
  (forall id, answers (result id) id) ->
  world_inv (addInflight (setClient w c) ((fun e => (e.2, result e.1)) <$> l)).
Proof.
  intros [H1 H2 H3 H4 H5 H6 H7 H8 H9 H10 H11 H12] Hok Hn Hnd Hl Hp Hans.
  split; simpl; try done; try (rewrite Hn; done).
  - intros id f. rewrite Hp. case_decide; [done|]. apply H9.
  - intros f r [[Hin|Hin]%elem_of_app|Hin]; [apply H10; by left| |apply H10; by right].
    apply list_elem_of_fmap in Hin as ([id g] & [= -> ->] & Hin).
    destruct (H9 id g (Hl _ _ Hin)) as [k Hk]. by exists k, id.
  - intros k f id Hk. specialize (H11 k f id Hk). unfold located in *. simpl.
    change (channelOf _ f) with (channelOf w f). rewrite sendsTo_app, Hp.
    rewrite (sendsTo_removed result f id); [|done|].
    + destruct (decide (id ∈ l.*1)) as [Hin|Hin].
      * apply list_elem_of_fmap in Hin as ([id' g] & Heq & Hin). simpl in Heq. subst id'.
        pose proof (Hl _ _ Hin) as Hg. rewrite Hg in *. rewrite (decide_False (P := None = _)) by done.
        destruct (decide (g = f)) as [->|Hne].
        -- rewrite decide_True in H11 by done. rewrite decide_True by done. lia.
        -- rewrite decide_False in H11 by congruence. rewrite decide_False; [lia|].
           intros Hf. apply Hl in Hf. congruence.
      * rewrite (decide_False (P := (id, f) ∈ l)); [lia|]. intros Hf. apply Hin.
        apply list_elem_of_fmap. by exists (id, f).
    + intros id' Hin. destruct (H9 id' f (Hl _ _ Hin)) as [k' Hk']. by eapply held_id.
  - intros k f Hk id. rewrite Hp. case_decide; [done|]. by eapply H12.
Qed.

Lemma completeCall_inv w id result :
  world_inv w -> answers result id ->
  exists w', completeCall w (pendingShardIndex id) id result = Some w' /\ world_inv w' /\
    fw_calls w' = fw_calls w /\ fw_futures w' = fw_futures w /\ pendingOf (fw_client w') id = None /\
    fw_pool w' = fw_pool w /\ fw_issued w' = fw_issued w /\
    (forall id', pendingOf (fw_client w') id' = if decide (id' = id) then None else pendingOf (fw_client w) id').
Proof.
  intros Hinv Hans. destruct (completeInShard_spec (fw_client w) id) as (c & Hc & Hok & Hn & Hp); [apply Hinv|].
  unfold completeCall. rewrite Hc. simpl. eexists. split; [done|].
  assert (Hpid : pendingOf c id = None) by by rewrite Hp, decide_True.
  split_and!; try done. destruct (pendingOf (fw_client w) id) as [f|] eqn:Hf.
  - set (only := fun i : Z => if decide (i = id) then result else inl errCaller : connectionResult).
    replace [(f, result)] with ((fun e : Z * nat => (e.2, only e.1)) <$> [(id, f)])
      by (unfold only; simpl; by rewrite decide_True).
    apply (call_move_inv w c [(id, f)] only); try done.
    + apply NoDup_singleton.
    + intros id' f' [= -> ->]%list_elem_of_singleton. done.
    + intros id'. rewrite Hp. apply decide_ext. simpl. by rewrite list_elem_of_singleton.
    + intros id'. unfold only. case_decide; [by subst|done].
  - unfold addInflight. simpl. rewrite app_nil_r. apply (call_quiet_inv w c); try done.
    intros id'. rewrite Hp. case_decide; by subst.
Qed.

(** A future that no call holds is nowhere. *)
Lemma unheld_free w f :
  world_inv w -> (forall k id, heldBy w k <> Some (f, id)) ->
  (forall id, pendingOf (fw_client w) id <> Some f) /\ channelOf w f = [] /\ sendsTo f (fw_inflight w) = 0%nat.
Proof.
  intros Hinv Hf. split_and!.
  - intros id Hp. destruct (fi_registered _ Hinv _ _ Hp) as [k Hk]. by eapply Hf.
  - destruct (channelOf w f) as [|r l] eqn:Hc; [done|].
    destruct (fi_sent _ Hinv f r) as (k & id & Hk & _); [right; rewrite Hc; by left|]. by destruct (Hf k id).
  - destruct (sendsTo f (fw_inflight w)) eqn:Hs; [done|]. unfold sendsTo in Hs.
    destruct (filter _ (fw_inflight w)) as [|[g r] l] eqn:Hl; [done|].
    assert (Hin : (g, r) ∈ filter (fun e => e.1 = f) (fw_inflight w)) by (rewrite Hl; by left).
    apply list_elem_of_filter in Hin as [Hg Hin]. simpl in Hg. subst g.
    destruct (fi_sent _ Hinv f r) as (k & id & Hk & _); [by left|]. by destruct (Hf k id).
Qed.

(** A held call with something in its channel or on the way is not registered. *)
Lemma answered_unregistered w k f id :
  world_inv w -> heldBy w k = Some (f, id) -> (0 < sendsTo f (fw_inflight w) + length (channelOf w f))%nat ->
  (forall id', pendingOf (fw_client w) id' <> Some f) /\
  (sendsTo f (fw_inflight w) + length (channelOf w f) = 1)%nat.
Proof.
  intros Hinv Hk Hpos. pose proof (fi_located _ Hinv _ _ _ Hk) as Hl. unfold located in Hl.
  split; [|case_decide; lia]. intros id' Hp. destruct (fi_registered _ Hinv _ _ Hp) as [k' Hk'].
  rewrite (held_id _ _ _ _ _ _ Hk' Hk) in Hp. rewrite decide_True in Hl by done. lia.
Qed.

Lemma sendResult_inv w l1 l2 f result :
  world_inv w -> fw_inflight w = l1 ++ (f, result) :: l2 ->
  exists w', sendResult w l1 l2 f result = Some w' /\ world_inv w'.
Proof.
  intros Hinv Hl. pose proof Hinv as [H1 H2 H3 H4 H5 H6 H7 H8 H9 H10 H11 H12].
  assert (Hin : (f, result) ∈ fw_inflight w) by (rewrite Hl; set_solver).
  destruct (H10 f result) as (k & id & Hk & Hans); [by left|].
  destruct (heldBy_Some _ _ _ _ Hk) as (pc & fu & Hca & Hfu & Hid).
  assert (Hch : channelOf w f = fu_result fu) by (unfold channelOf; by rewrite Hfu).
  destruct (answered_unregistered w k f id Hinv Hk) as [Hnp Hone]; [apply sendsTo_pos in Hin; lia|].
  assert (Hempty : fu_result fu = []).
  { apply nil_length_inv. rewrite <- Hch. apply sendsTo_pos in Hin. lia. }
  unfold sendResult. rewrite Hfu. simpl. rewrite decide_True by (rewrite Hempty; simpl; unfold resultCapacity; lia).
  eexists. split; [done|]. set (w' := mkWorld _ _ _ _ _ _).
  assert (Hheld : forall k, heldBy w' k = heldBy w k).
  { intros k'. unfold heldBy. simpl. destruct (fw_calls w !! k') as [[g pc']|]; simpl; [|done].
    destruct (decide (g = f)) as [->|Hne]; [by rewrite lookup_insert_eq, Hfu; simpl|by rewrite lookup_insert_ne]. }
  assert (Hchan : forall g, channelOf w' g = if decide (g = f) then [result] else channelOf w g).
  { intros g. unfold channelOf. simpl. case_decide; subst; [by rewrite lookup_insert_eq; simpl; rewrite Hempty|].
    by rewrite lookup_insert_ne. }
  assert (Hsends : forall g, (sendsTo g (fw_inflight w') + (if decide (f = g) then 1 else 0) =
    sendsTo g (fw_inflight w))%nat).
  { intros g. simpl. rewrite Hl, !sendsTo_app, sendsTo_cons. lia. }
  split; try done.
  - intros i Hi. destruct (H3 i Hi). split; [done|]. intros. by rewrite Hheld.
  - intros g Hg. destruct (H5 g Hg) as [Hs Hn]. split; [|intros; by rewrite Hheld]. simpl.
    destruct (decide (g = f)) as [->|]; [by rewrite lookup_insert_eq; eexists|by rewrite lookup_insert_ne].
  - intros k' ca Hca'. destruct (H6 k' ca Hca') as (fu' & Hfu' & ?). simpl.
    destruct (decide (ca_future ca = f)) as [Heq|]; [|rewrite lookup_insert_ne by done; eauto].
    rewrite Heq in *. rewrite lookup_insert_eq. eexists. split; [done|]. simpl. naive_solver.
  - intros k1 k2 g i1 i2. rewrite !Hheld. apply H7.
  - intros k1 k2 g1 g2 i. rewrite !Hheld. apply H8.
  - intros i g Hp. destruct (H9 i g Hp) as [k' Hk']. exists k'. by rewrite Hheld.
  - intros g r Hgr. assert ((g, r) ∈ fw_inflight w \/ r ∈ channelOf w g) as Hor.
    { rewrite Hchan in Hgr. simpl in Hgr. rewrite Hl. destruct Hgr as [Hg|Hg]; [set_solver|].
      case_decide as Hd; [|set_solver]. apply list_elem_of_singleton in Hg. subst. set_solver. }
    destruct (H10 g r Hor) as (k' & i & Hk' & ?). exists k', i. by rewrite Hheld.
  - intros k' g i Hk'. rewrite Hheld in Hk'. specialize (H11 k' g i Hk'). unfold located in *.
    rewrite Hchan. specialize (Hsends g). change (fw_client w') with (fw_client w).
    destruct (decide (g = f)) as [->|Hne].
    + rewrite decide_True in Hsends by done. rewrite Hch, Hempty in H11. simpl in *. lia.
    + rewrite (decide_False (P := f = g)) in Hsends by congruence. lia.
Qed.

Lemma awaitReceive_inv w k w' result :
  world_inv w -> awaitReceive w k = Some (w', result) -> world_inv w'.
Proof.
  intros Hinv Hr. pose proof Hinv as [H1 H2 H3 H4 H5 H6 H7 H8 H9 H10 H11 H12].
  unfold awaitReceive in Hr. destruct (fw_calls w !! k) as [[f pc]|] eqn:Hca; simpl in Hr; [|done].
  destruct (fw_futures w !! f) as [fu|] eqn:Hfu; simpl in Hr; [|done].
  assert (Hk : heldBy w k = Some (f, fu_requestID fu)) by (by apply (heldBy_call w k (mkCall f pc))).
  assert (Hch : channelOf w f = fu_result fu) by (unfold channelOf; by rewrite Hfu).
  destruct (fu_result fu) as [|r rest] eqn:Hres; [by destruct pc|].
  destruct (answered_unregistered w k f _ Hinv Hk) as [Hnp Hone]; [rewrite Hch; simpl; lia|].
  assert (rest = []) as -> by (apply nil_length_inv; rewrite Hch in Hone; simpl in Hone; lia).
  assert (Hs0 : sendsTo f (fw_inflight w) = 0%nat) by (rewrite Hch in Hone; simpl in Hone; lia).
  unfold releaseFuture in Hr. simpl in Hr. rewrite lookup_insert_eq in Hr.
  assert (w' = mkWorld (fw_client w) (fw_issued w) (<[f := mkFuture false 0 []]> (fw_futures w)) (fw_pool w ++ [f])
    (delete k (fw_calls w)) (fw_inflight w)) as ->.
  { destruct pc; simpl in Hr; [|done|]; injection Hr as <- _; unfold setFuture, setPool, setCalls; simpl;
      by rewrite insert_insert_eq. }
  clear Hr. set (w' := mkWorld _ _ _ _ _ _).
  assert (Hother : forall k' g pc', k' <> k -> fw_calls w !! k' = Some (mkCall g pc') -> g <> f).
  { intros k' g pc' Hne Hca' ->. apply Hne. eapply (H7 k' k f); [by eapply (heldBy_call w k' (mkCall f pc'))|done]. }
  assert (Hheld : forall k', heldBy w' k' = if decide (k' = k) then None else heldBy w k').
  { intros k'. unfold heldBy. simpl. case_decide as Hd; [by subst; rewrite lookup_delete_eq|].
    rewrite lookup_delete_ne by done. destruct (fw_calls w !! k') as [[g pc']|] eqn:Hg; simpl; [|done].
    rewrite lookup_insert_ne; [done|]. intros <-. by eapply Hother. }
  assert (Hchan : forall g, channelOf w' g = if decide (g = f) then [] else channelOf w g).
  { intros g. unfold channelOf. simpl. case_decide; subst; [by rewrite lookup_insert_eq|by rewrite lookup_insert_ne]. }
  assert (Hback : forall k' x, heldBy w' k' = Some x -> k' <> k /\ heldBy w k' = Some x).
  { intros k' x. rewrite Hheld. by case_decide. }
  assert (Hkeep : forall k' g i, heldBy w k' = Some (g, i) -> g <> f -> heldBy w' k' = Some (g, i)).
  { intros k' g i Hk' Hg. rewrite Hheld, decide_False; [done|]. intros ->. congruence. }
  split; try done.
  - intros i Hi. destruct (H3 i Hi) as [? Hn]. split; [done|]. intros k' g [_ ?]%Hback. by eapply Hn.
  - simpl. apply list.NoDup_app. split_and!; [done| |apply NoDup_singleton].
    intros g Hg ->%list_elem_of_singleton. by destruct (proj2 (H5 f Hg) k (fu_requestID fu)).
  - intros g Hg. simpl in Hg. apply elem_of_app in Hg as [Hg| ->%list_elem_of_singleton].
    + destruct (H5 g Hg) as [Hs Hn]. split; [|intros k' i [_ ?]%Hback; by eapply Hn].
      simpl. destruct (decide (g = f)) as [->|]; [by rewrite lookup_insert_eq; eexists|by rewrite lookup_insert_ne].
    + split; [simpl; by rewrite lookup_insert_eq; eexists|]. intros k' i [Hne Hk']%Hback. apply Hne. by eapply H7.
  - intros k' [g pc'] Hd. simpl in Hd. apply lookup_delete_Some in Hd as [Hne Hca']. destruct (H6 k' _ Hca') as (fu' & Hfu' & ?). simpl in *.
    rewrite lookup_insert_ne by (intros <-; by eapply Hother). eauto.
  - intros k1 k2 g i1 i2 [_ ?]%Hback [_ ?]%Hback. eauto.
  - intros k1 k2 g1 g2 i [_ ?]%Hback [_ ?]%Hback. eauto.
  - intros i g Hp. destruct (H9 i g Hp) as [k' Hk']. exists k'. apply (Hkeep _ _ _ Hk'). intros ->. by destruct (Hnp i).
  - intros g r' Hg. rewrite Hchan in Hg. simpl in Hg.
    assert (Hgf : g <> f).
    { intros ->. destruct Hg as [Hg|Hg]; [apply sendsTo_pos in Hg; lia|].
      rewrite decide_True in Hg by done. by apply elem_of_nil in Hg. }
    rewrite decide_False in Hg by done. destruct (H10 g r' Hg) as (k' & i & Hk' & ?). exists k', i. eauto.
  - intros k' g i [Hne Hk']%Hback. specialize (H11 k' g i Hk'). unfold located in *. rewrite Hchan.
    rewrite (decide_False (P := g = f)); [done|]. intros ->. apply Hne. by eapply H7.
  - intros k' g Hd. simpl in Hd. apply lookup_delete_Some in Hd as [Hne Hca']. eauto.
Qed.

(** Issued identifiers may be given up. *)
Lemma issued_inv w issued : world_inv w -> issued ⊆ fw_issued w -> world_inv (setIssued w issued).
Proof. intros [H1 H2 H3 H4 H5 H6 H7 H8 H9 H10 H11 H12] Hsub. split; try done. intros id Hid. by apply H3, Hsub. Qed.

(** A call moves on without touching its future. *)
Lemma pc_inv w k f pc pc' :
  world_inv w -> fw_calls w !! k = Some (mkCall f pc) ->
  (pc' = callDraining -> forall id, pendingOf (fw_client w) id <> Some f) ->
  world_inv (setCalls w (<[k := mkCall f pc']> (fw_calls w))).
Proof.
  intros [H1 H2 H3 H4 H5 H6 H7 H8 H9 H10 H11 H12] Hk Hd. set (w' := setCalls _ _).
  assert (Hheld : forall k', heldBy w' k' = heldBy w k').
  { intros k'. unfold heldBy. simpl. destruct (decide (k' = k)) as [->|]; [|by rewrite lookup_insert_ne].
    by rewrite lookup_insert_eq, Hk. }
  split; try done; simpl.
  - intros i Hi. destruct (H3 i Hi). split; [done|]. intros. by rewrite Hheld.
  - intros g Hg. destruct (H5 g Hg). split; [done|]. intros. by rewrite Hheld.
  - intros k' ca [[<- <-]|[_ Hca]]%lookup_insert_Some; [|by apply (H6 k')]. by apply (H6 k _ Hk).
  - intros k1 k2 g i1 i2. rewrite !Hheld. apply H7.
  - intros k1 k2 g1 g2 i. rewrite !Hheld. apply H8.
  - intros i g Hp. destruct (H9 i g Hp) as [k' ?]. exists k'. by rewrite Hheld.
  - intros g r Hg. destruct (H10 g r Hg) as (k' & i & ? & ?). exists k', i. by rewrite Hheld.
  - intros k' g i. rewrite Hheld. apply H11.
  - intros k' g [[<- [= <- ->]]|[_ Hca]]%lookup_insert_Some; [by apply Hd|by eapply H12].
Qed.

(** A free future is given a new request; it belongs to no call yet. *)
Lemma acquireFuture_spec w got requestID w' f :
  world_inv w -> acquireFuture w got requestID = Some (w', f) ->
  exists pool, w' = mkWorld (fw_client w) (fw_issued w) (<[f := mkFuture true requestID []]> (fw_futures w)) pool
                      (fw_calls w) (fw_inflight w) /\
    (forall k id, heldBy w k <> Some (f, id)) /\ NoDup pool /\ f ∉ pool /\ pool ⊆ fw_pool w.
Proof.
  intros Hinv. unfold acquireFuture. destruct got as [position|g].
  - destruct (fw_pool w !! position) as [g|] eqn:Hg; simpl; [|done].
    destruct (fw_futures w !! g) as [fu|] eqn:Hfu; simpl; [|done]. intros [= <- <-].
    destruct (fi_pooled _ Hinv g) as [_ Hn]; [by eapply list_elem_of_lookup_2|].
    destruct (unheld_free w g Hinv Hn) as (_ & Hc & _). unfold channelOf in Hc. rewrite Hfu in Hc. simpl in Hc.
    exists (delete position (fw_pool w)). rewrite Hc. pose proof (fi_pool _ Hinv) as Hnd.
    rewrite (delete_Permutation _ _ _ Hg) in Hnd. apply list.NoDup_cons in Hnd as [Hng Hnd].
    split_and!; try done. intros x Hx. rewrite (delete_Permutation _ _ _ Hg). by right.
  - case_decide as Hg; [|done]. intros [= <- <-]. exists (fw_pool w).
    assert (Hn : forall k id, heldBy w k <> Some (g, id)).
    { intros k id (? & ? & _ & ? & _)%heldBy_Some. congruence. }
    split_and!; try done; [apply Hinv|]. intros Hin. destruct (fi_pooled _ Hinv g Hin) as [[? ?] _]. congruence.
Qed.

Lemma call_registered_inv w k f requestID c pool :
  world_inv w -> fw_calls w !! k = None -> requestID ∈ fw_issued w ->
  (forall k id, heldBy w k <> Some (f, id)) -> NoDup pool -> f ∉ pool -> pool ⊆ fw_pool w ->
  shards_ok c -> nextRequestID c = nextRequestID (fw_client w) ->
  (forall id, pendingOf c id = if decide (id = requestID) then Some f else pendingOf (fw_client w) id) ->
  world_inv (mkWorld c (fw_issued w ∖ {[requestID]}) (<[f := mkFuture true requestID []]> (fw_futures w)) pool
               (<[k := mkCall f callWaiting]> (fw_calls w)) (fw_inflight w)).
Proof.
  intros Hinv Hk Hid Hn Hnd Hfp Hsub Hok Hnext Hp. destruct (unheld_free w f Hinv Hn) as (Hnp & Hch & Hs).
  pose proof Hinv as [H1 H2 H3 H4 H5 H6 H7 H8 H9 H10 H11 H12]. destruct (H3 _ Hid) as [Hrange Hfresh].
  set (w' := mkWorld _ _ _ _ _ _).
  assert (Hother : forall k' g pc', fw_calls w !! k' = Some (mkCall g pc') -> g <> f).
  { intros k' g pc' Hca ->. destruct (H6 k' _ Hca) as (fu & Hfu & _).
    by eapply (Hn k'), (heldBy_call w k' (mkCall f pc')). }
  assert (Hheld : forall k', heldBy w' k' = if decide (k' = k) then Some (f, requestID) else heldBy w k').
  { intros k'. unfold heldBy. simpl. case_decide as Hd; [subst; by rewrite lookup_insert_eq; simpl; rewrite lookup_insert_eq|].
    rewrite lookup_insert_ne by done. destruct (fw_calls w !! k') as [[g pc']|] eqn:Hg; simpl; [|done].
    rewrite lookup_insert_ne; [done|]. intros <-. by eapply Hother. }
  assert (Hchan : forall g, channelOf w' g = channelOf w g).
  { intros g. unfold channelOf at 1. simpl. destruct (decide (g = f)) as [->|]; [by rewrite lookup_insert_eq|].
    by rewrite lookup_insert_ne. }
  assert (Hkeep : forall k' x, heldBy w k' = Some x -> heldBy w' k' = Some x).
  { intros k' x Hk'. rewrite Hheld, decide_False; [done|]. intros ->. unfold heldBy in Hk'. by rewrite Hk in Hk'. }
  split; try done; simpl; try (rewrite Hnext; done).
  - intros i Hi. apply elem_of_difference in Hi as [Hi Hne]. rewrite elem_of_singleton in Hne.
    rewrite Hnext. destruct (H3 i Hi). split; [done|]. intros k' g. rewrite Hheld. case_decide; [congruence|eauto].
  - intros g Hg. destruct (H5 g (Hsub g Hg)) as [Hs' Hng]. split.
    + destruct (decide (g = f)) as [->|]; [done|by rewrite lookup_insert_ne].
    + intros k' i. rewrite Hheld. case_decide; [|eauto]. intros [= <- _]. done.
  - intros k' [g pc'] [[<- [= <- <-]]|[_ Hca]]%lookup_insert_Some; simpl.
    + rewrite lookup_insert_eq. eexists. split_and!; try done; simpl; lia.
    + destruct (H6 k' _ Hca) as (fu & ? & ? & ?). simpl in *.
      rewrite lookup_insert_ne by (intros <-; by eapply Hother). exists fu. rewrite Hnext. done.
  - intros k1 k2 g i1 i2. rewrite !Hheld. do 2 case_decide; subst; [done|..]; intros Ha Hb; simplify_eq;
      [by destruct (Hn k2 i2)|by destruct (Hn k1 i1)|eauto].
  - intros k1 k2 g1 g2 i. rewrite !Hheld. do 2 case_decide; subst; [done|..]; intros Ha Hb; simplify_eq;
      [by destruct (Hfresh k2 g2)|by destruct (Hfresh k1 g1)|eauto].
  - intros i g. rewrite Hp. case_decide as Hd.
    + intros [= <-]. exists k. rewrite Hheld, decide_True by done. by subst.
    + intros Hpi. destruct (H9 i g Hpi) as [k' ?]. eauto.
  - intros g r Hg. rewrite Hchan in Hg. destruct (H10 g r Hg) as (k' & i & ? & ?). eauto.
  - intros k' g i Hk'. unfold located. rewrite Hchan. simpl. rewrite Hheld in Hk'.
    destruct (decide (k' = k)) as [->|Hd].
    + injection Hk' as <- <-. rewrite Hch, Hs, decide_True; [done|]. by rewrite Hp, decide_True.
    + specialize (H11 k' g i Hk'). unfold located in H11. rewrite (Hp i), (decide_False (P := i = requestID)); [done|].
      intros ->. by eapply Hfresh.
  - intros k' g [[<- [=]]|[_ Hca]]%lookup_insert_Some i. rewrite Hp. case_decide; [|by eapply H12].
    intros [= ->]. by eapply Hother.
Qed.

(** The future of a refused submission goes back to the pool. *)
Lemma call_refused_inv w f requestID c pool :
  world_inv w -> (forall k id, heldBy w k <> Some (f, id)) -> NoDup pool -> f ∉ pool -> pool ⊆ fw_pool w ->
  shards_ok c -> nextRequestID c = nextRequestID (fw_client w) ->
  (forall id, pendingOf c id = pendingOf (fw_client w) id) ->
  world_inv (mkWorld c (fw_issued w ∖ {[requestID]}) (<[f := mkFuture false 0 []]> (fw_futures w)) (pool ++ [f])
               (fw_calls w) (fw_inflight w)).
Proof.
  intros Hinv Hn Hnd Hfp Hsub Hok Hnext Hp. destruct (unheld_free w f Hinv Hn) as (Hnp & Hch & Hs).
  pose proof Hinv as [H1 H2 H3 H4 H5 H6 H7 H8 H9 H10 H11 H12]. set (w' := mkWorld _ _ _ _ _ _).
  assert (Hother : forall k' g pc', fw_calls w !! k' = Some (mkCall g pc') -> g <> f).
  { intros k' g pc' Hca ->. destruct (H6 k' _ Hca) as (fu & Hfu & _).
    by eapply (Hn k'), (heldBy_call w k' (mkCall f pc')). }
  assert (Hheld : forall k', heldBy w' k' = heldBy w k').
  { intros k'. unfold heldBy. simpl. destruct (fw_calls w !! k') as [[g pc']|] eqn:Hg; simpl; [|done].
    rewrite lookup_insert_ne; [done|]. intros <-. by eapply Hother. }
  assert (Hchan : forall g, channelOf w' g = channelOf w g).
  { intros g. unfold channelOf at 1. simpl. destruct (decide (g = f)) as [->|]; [by rewrite lookup_insert_eq|].
    by rewrite lookup_insert_ne. }
  split; try done; simpl; try (rewrite Hnext; done).
  - intros i Hi. apply elem_of_difference in Hi as [Hi _]. rewrite Hnext. destruct (H3 i Hi). split; [done|].
    intros. by rewrite Hheld.
  - apply list.NoDup_app. split_and!; [done| |apply NoDup_singleton]. by intros g Hg ->%list_elem_of_singleton.
  - intros g [Hg| ->%list_elem_of_singleton]%elem_of_app.
    + destruct (H5 g (Hsub g Hg)) as [Hs' Hng]. split; [|intros; by rewrite Hheld].
      destruct (decide (g = f)) as [->|]; [done|by rewrite lookup_insert_ne].
    + split; [by rewrite lookup_insert_eq; eexists|]. intros. by rewrite Hheld.
  - intros k' [g pc'] Hca. destruct (H6 k' _ Hca) as (fu & ? & ? & ?). simpl in *.
    rewrite lookup_insert_ne by (intros <-; by eapply Hother). exists fu. rewrite Hnext. done.
  - intros k1 k2 g i1 i2. rewrite !Hheld. apply H7.
  - intros k1 k2 g1 g2 i. rewrite !Hheld. apply H8.
  - intros i g. rewrite Hp. intros Hpi. destruct (H9 i g Hpi) as [k' ?]. exists k'. by rewrite Hheld.
  - intros g r Hg. rewrite Hchan in Hg. destruct (H10 g r Hg) as (k' & i & ? & ?). exists k', i. by rewrite Hheld.
  - intros k' g i. rewrite Hheld. intros Hk'. specialize (H11 k' g i Hk'). unfold located in *. rewrite Hchan. simpl.
    by rewrite Hp.
  - intros k' g Hca i. rewrite Hp. by eapply H12.
Qed.

Lemma issued_unregistered w id : world_inv w -> id ∈ fw_issued w -> pendingOf (fw_client w) id = None.
Proof.
  intros Hinv Hid. destruct (pendingOf (fw_client w) id) as [f|] eqn:Hp; [|done]. exfalso.
  destruct (fi_registered _ Hinv id f Hp) as [k Hk]. by apply (proj2 (fi_issued _ Hinv id Hid) k f).
Qed.

Lemma submitCall_inv w k got requestID request w' err :
  world_inv w -> fw_calls w !! k = None -> requestID ∈ fw_issued w ->
  submitCall (setIssued w (fw_issued w ∖ {[requestID]})) k got requestID request = Some (w', err) -> world_inv w'.
Proof.
  intros Hinv Hk Hid Hs. unfold submitCall in Hs.
  destruct (acquireFuture _ got requestID) as [[w1 f]|] eqn:Ha; simpl in Hs; [|done].
  apply acquireFuture_spec in Ha as (pool & -> & Hn & Hnd & Hfp & Hsub);
    [|apply issued_inv; [done|set_solver]]. simpl in Hs.
  destruct (enqueue_pending (fw_client w) requestID request (Some f)) as (c & e & He & Hok & Hnext & Hp);
    [apply Hinv|by apply issued_unregistered|].
  unfold submit in Hs. rewrite He in Hs. simpl in Hs. destruct e as [e|].
  - unfold releaseFuture in Hs. simpl in Hs. rewrite lookup_insert_eq in Hs. simpl in Hs. injection Hs as <- _.
    unfold setFuture, setPool. simpl. rewrite insert_insert_eq. by apply call_refused_inv.
  - injection Hs as <- _. apply (call_registered_inv w k f requestID c pool); try done. intros id. rewrite Hp. apply decide_ext. naive_solver.
Qed.

Lemma awaitComplete_inv w k w' : world_inv w -> awaitComplete w k = Some w' -> world_inv w'.
Proof.
  intros Hinv Ha. unfold awaitComplete in Ha. destruct (fw_calls w !! k) as [[f pc]|] eqn:Hk; simpl in Ha; [|done].
  destruct pc as [|e|]; [done| |done]. destruct (fw_futures w !! f) as [fu|] eqn:Hfu; simpl in Ha; [|done].
  destruct (fu_client fu); [|done].
  destruct (completeCall_inv w (fu_requestID fu) (inl e) Hinv) as (w1 & Hc & Hinv1 & Hcalls & Hfut & Hnone & _ & _ & Hp);
    [done|].
  rewrite Hc in Ha. simpl in Ha. injection Ha as <-. eapply pc_inv; [done|by rewrite Hcalls|].
  intros _ id. rewrite Hp. case_decide as Hd; [done|]. intros Hid.
  destruct (fi_registered _ Hinv id f Hid) as [k' Hk']. apply Hd. eapply held_id; [exact Hk'|].
  by apply (heldBy_call w k (mkCall f (callCompleting e))).
Qed.

Lemma workerComplete_inv w i w' : world_inv w -> workerComplete w i = Some w' -> world_inv w'.
Proof.
  intros Hinv Hw. unfold workerComplete in Hw. destruct (pending (fw_client w) !! i) as [shard|] eqn:Hi; simpl in Hw; [|done].
  destruct (ps_responses shard) as [|response rest] eqn:Hr; [done|].
  pose proof (fi_shards _ Hinv) as Hok.
  assert (i = pendingShardIndex (RequestID response)) as Hidx
    by (eapply (so_responses _ Hok); [done|rewrite Hr; by left]).
  set (c := setPending _ _) in Hw.
  assert (Hinv1 : world_inv (setClient w c)).
  { apply call_quiet_inv; [done| |done|].
    - eapply shards_ok_insert; [done..| | |].
      + intros Hc. by eapply (co_maps _ (so_ok _ Hok)).
      + intros m id Hm Hid. by eapply (so_home _ Hok).
      + intros r Hin. eapply (so_responses _ Hok); [done|]. rewrite Hr. by right.
    - intros id. unfold c. erewrite call_pending_insert by done. case_decide as Hd; [|done].
      unfold pendingOf. by rewrite Hd, Hi. }
  rewrite Hidx in Hw. destruct (completeCall_inv _ (RequestID response) (inr response) Hinv1) as (w1 & Hc & Hinv2 & _).
  { by intros r [= <-]. }
  rewrite Hc in Hw. by injection Hw as <-.
Qed.

Lemma closeShard_inv w i w' :
  world_inv w -> ctxDone (fw_client w) = true -> closeShard w i = Some w' -> world_inv w'.
Proof.
  intros Hinv Hctx Hc. unfold closeShard in Hc. destruct (pending (fw_client w) !! i) as [shard|] eqn:Hi; simpl in Hc; [|done].
  injection Hc as <-. pose proof (fi_shards _ Hinv) as Hok.
  pose proof (fun id => closeShard_pending (fw_client w) i shard id Hok Hi) as Hsp.
  apply (call_move_inv w _ (shardPending shard) (fun _ => inl errClientClosed)); try done.
  - eapply shards_ok_insert; [done..|congruence|done|]. intros r. by apply (so_responses _ Hok).
  - by apply (Hsp 0).
  - intros id f Hin. by apply (Hsp id) in Hin as [_ ?].
  - intros id. erewrite call_pending_insert by done. simpl. destruct (decide (id ∈ _)) as [Hin|Hin].
    + apply list_elem_of_fmap in Hin as ([id' f] & Heq & Hin). simpl in Heq. subst id'.
      apply (Hsp id) in Hin as [Hh _]. by rewrite decide_True.
    + case_decide as Hd; [|done]. destruct (pendingOf (fw_client w) id) as [f|] eqn:Hp; [|done]. exfalso.
      apply Hin, list_elem_of_fmap. exists (id, f). split; [done|]. by apply (Hsp id).
Qed.

Lemma receiveEnqueue_spec c response c' :
  shards_ok c -> receiveEnqueue c response = Some c' ->
  shards_ok c' /\ nextRequestID c' = nextRequestID c /\ forall id, pendingOf c' id = pendingOf c id.
Proof.
  intros Hok He. unfold receiveEnqueue in He. destruct (pending c !! _) as [shard|] eqn:Hi; simpl in He; [|done].
  case_decide; [|done]. injection He as <-. split_and!; [|done|].
  - eapply shards_ok_insert; [done..| | |].
    + intros Hc. by eapply (co_maps _ (so_ok _ Hok)).
    + intros m id Hm Hid. by eapply (so_home _ Hok).
    + intros r [Hin| ->%list_elem_of_singleton]%elem_of_app; [by eapply (so_responses _ Hok)|done].
  - intros id. erewrite call_pending_insert by done. case_decide as Hd; [|done]. unfold pendingOf. by rewrite Hd, Hi.
Qed.

Lemma same_shards_inv w c :
  world_inv w -> pending c = pending (fw_client w) -> nextRequestID c = nextRequestID (fw_client w) ->
  (ctxDone c = false -> ctxDone (fw_client w) = false) -> world_inv (setClient w c).
Proof.
  intros Hinv Hp Hn Hc. apply call_quiet_inv; [done| |done|].
  - eapply shards_ok_same; [apply Hinv|done..].
  - intros id. unfold pendingOf. by rewrite Hp.
Qed.

Lemma issue_inv w :
  world_inv w -> nextRequestID (fw_client w) + 1 < 2 ^ 64 ->
  world_inv (setIssued (setClient w (setIDs (fw_client w) (nextSequence (fw_client w))
    (nextRequestID (fw_client w) + 1))) ({[nextRequestID (fw_client w) + 1]} ∪ fw_issued w)).
Proof.
  intros [H1 H2 H3 H4 H5 H6 H7 H8 H9 H10 H11 H12] Hn. split; try done; simpl.
  - by eapply shards_ok_same.
  - lia.
  - intros id [->%elem_of_singleton|Hid]%elem_of_union.
    + split; [lia|]. intros k f (pc & fu & Hca & Hfu & Heq)%heldBy_Some.
      destruct (H6 k _ Hca) as (fu' & Hfu' & _ & Hr). simpl in Hca, Hfu, Hfu'. simplify_eq. lia.
    + destruct (H3 id Hid). split; [lia|done].
  - intros k ca Hca. destruct (H6 k ca Hca) as (fu & ? & ? & ?). exists fu. split_and!; try done; lia.
Qed.

Lemma call_step_inv w w' : call_step w w' -> world_inv w -> world_inv w'.
Proof.
  intros Hstep Hinv. pose proof (fi_shards _ Hinv) as Hok. destruct Hstep as
    [w Hn|w k got id request w' err Hk Hid Hs|w id request c err Hid Hs|w k w' r Hr|w k e w' Hc|w k w' Hc|w i w' Hw
    |w l1 l2 f r w' Hl Hs|w response c He|w request q Hq|w conn|w conn|w|w Hc|w i w' Hc Hs|w].
  - pose proof (fi_next _ Hinv). subst requestID. rewrite u64_small by in_range. by apply issue_inv.
  - by eapply submitCall_inv.
  - unfold submitNoResponse in Hs.
    destruct (enqueue_pending (fw_client w) id request None) as (c' & e & He & Hok' & Hnext & Hp);
      [done|by apply issued_unregistered|]. rewrite He in Hs. injection Hs as <- _.
    apply (issued_inv (setClient w c')); [|simpl; set_solver]. apply call_quiet_inv; try done.
    intros id'. rewrite Hp. case_decide as Hd; [|done]. destruct Hd as [_ ->]. by rewrite issued_unregistered.
  - by eapply awaitReceive_inv.
  - unfold awaitCancel in Hc. destruct (fw_calls w !! k) as [[f pc]|] eqn:Hk; simpl in Hc; [|done].
    destruct pc; [|done..]. injection Hc as <-. by eapply pc_inv.
  - by eapply awaitComplete_inv.
  - by eapply workerComplete_inv.
  - destruct (sendResult_inv w l1 l2 f r Hinv Hl) as (w1 & Hw1 & Hinv1). rewrite Hw1 in Hs. by injection Hs as <-.
  - destruct (receiveEnqueue_spec _ _ _ Hok He) as (? & ? & ?). by apply call_quiet_inv.
  - by apply same_shards_inv.
  - unfold publish. destruct (_ || _); by apply same_shards_inv.
  - unfold clear. case_decide; by apply same_shards_inv.
  - by apply same_shards_inv.
  - by apply same_shards_inv.
  - by eapply closeShard_inv.
  - by apply same_shards_inv.
Qed.

Lemma start_inv boot config c : New boot config = inr c -> world_inv (startWorld c).
Proof.
  unfold New. destruct (Validate config); [done|]. intros [= <-]. split; simpl; try done.
  - split; [split|..]; simpl.
    + done.
    + intros _ i shard [-> _]%lookup_replicate_1. by eexists.
    + intros i shard m id [-> _]%lookup_replicate_1 [= <-]. rewrite lookup_empty. by intros [? ?].
    + intros i shard r [-> _]%lookup_replicate_1. by intros ?%elem_of_nil.
  - constructor.
  - intros f. by intros ?%elem_of_nil.
  - intros id f. unfold pendingOf. simpl. destruct (newPendingShards !! _) as [shard|] eqn:Hs; [|done].
    apply lookup_replicate_1 in Hs as [-> _]. simpl. by rewrite lookup_empty.
  - intros f r. unfold channelOf. simpl. rewrite lookup_empty. simpl. intros [?%elem_of_nil|?%elem_of_nil]; done.
Qed.

Lemma call_reachable_inv w : call_reachable w -> world_inv w.
Proof. induction 1 as [boot config c Hc|w w' _ IH Hs]; [by eapply start_inv|by eapply call_step_inv]. Qed.

(** ** Theorems *)

(** C26: every call of the 1/1 client receives exactly one result, its own, and
    pooled futures carry nothing over. In every reachable state a call that
    waits is registered, being answered or answered, and exactly one of these; a
    response it receives has the identifier of its request; a future in the pool
    has an empty channel, is registered nowhere and no goroutine is about to
    send to it; a goroutine that sends never blocks; and a call that gave up
    waiting completes and finds its result on the way. *)
Theorem futures_answered_once w :
  call_reachable w ->
  (forall k f id, heldBy w k = Some (f, id) -> located w f id = 1%nat) /\
  (forall k w' response, awaitReceive w k = Some (w', inr response) ->
     exists f, heldBy w k = Some (f, RequestID response)) /\
  (forall f, f ∈ fw_pool w ->
     channelOf w f = [] /\ sendsTo f (fw_inflight w) = 0%nat /\
     (forall id, pendingOf (fw_client w) id <> Some f) /\ (forall k id, heldBy w k <> Some (f, id))) /\
  (forall l1 l2 f r, fw_inflight w = l1 ++ (f, r) :: l2 -> is_Some (sendResult w l1 l2 f r)) /\
  (forall k f e, fw_calls w !! k = Some (mkCall f (callCompleting e)) -> is_Some (awaitComplete w k)) /\
  (forall k f, fw_calls w !! k = Some (mkCall f callDraining) ->
     (sendsTo f (fw_inflight w) + length (channelOf w f) = 1)%nat).
Proof.
  intros Hr. pose proof (call_reachable_inv w Hr) as Hinv. split_and!.
  - apply Hinv.
  - intros k w' response Ha. unfold awaitReceive in Ha.
    destruct (fw_calls w !! k) as [[f pc]|] eqn:Hk; simpl in Ha; [|done].
    destruct (fw_futures w !! f) as [fu|] eqn:Hfu; simpl in Ha; [|done].
    assert (Hhd : exists rest, fu_result fu = inr response :: rest).
    { destruct (fu_result fu) as [|r rest]; [by destruct pc|]. exists rest.
      destruct pc; simpl in Ha; [|done|]; destruct (releaseFuture _ _); simpl in Ha; by simplify_eq. }
    destruct Hhd as [rest Hrest]. exists f.
    destruct (fi_sent _ Hinv f (inr response)) as (k' & id & Hk' & Hans).
    { right. unfold channelOf. rewrite Hfu. simpl. rewrite Hrest. by left. }
    pose proof (heldBy_call w k (mkCall f pc) fu Hk Hfu) as Hheld. simpl in Hheld.
    rewrite Hheld. rewrite (Hans response) by done. by rewrite (held_id _ _ _ _ _ _ Hk' Hheld).
  - intros f Hf. destruct (fi_pooled _ Hinv f Hf) as [_ Hn].
    destruct (unheld_free w f Hinv Hn) as (? & ? & ?). done.
  - intros l1 l2 f r Hl. destruct (sendResult_inv w l1 l2 f r Hinv Hl) as (w' & -> & _). by eexists.
  - intros k f e Hk. destruct (fi_calls _ Hinv k _ Hk) as (fu & Hfu & Hcl & _). simpl in Hfu.
    unfold awaitComplete. rewrite Hk. simpl. rewrite Hfu. simpl. rewrite Hcl.
    destruct (completeCall_inv w (fu_requestID fu) (inl e) Hinv) as (w1 & -> & _); [done|]. by eexists.
  - intros k f Hk. destruct (fi_calls _ Hinv k _ Hk) as (fu & Hfu & _). simpl in Hfu.
    pose proof (heldBy_call w k _ fu Hk Hfu) as Hheld. pose proof (fi_located _ Hinv _ _ _ Hheld) as Hl.
    unfold located in Hl. rewrite decide_False in Hl; [simpl in Hl; lia|]. by apply (fi_draining _ Hinv k).
Qed.

(** A call times out; its result is on the way and its future comes back empty. *)
Definition demoConfig : Config := mkConfig 1 true true 0.
Definition demoClient : Client := mkClient 1 9 0 0 defaultResponseTimeout false None false 0 [] newPendingShards.
Definition demoIssued : world :=
  setIssued (setClient (startWorld demoClient) (setIDs demoClient 0 1)) ({[1]} ∪ ∅).
Definition demoSubmitted : option (world * option callError) :=
  submitCall (setIssued demoIssued (fw_issued demoIssued ∖ {[1]})) 0 (inr 7%nat) 1 [].

Lemma futures_answered_once_witness :
  exists w, call_reachable w /\ fw_calls w !! 0%nat = Some (mkCall 7 (callCompleting errCaller)) /\
    is_Some (awaitComplete w 0) /\ located w 7 1 = 1%nat.
Proof.
  assert (H0 : call_reachable (startWorld demoClient))
    by (apply (cr_new 9 demoConfig); reflexivity).
  assert (H1 : call_reachable demoIssued).
  { eapply cr_step; [exact H0|]. apply (cs_issue (startWorld demoClient)). vm_compute. reflexivity. }
  destruct demoSubmitted as [[w2 e2]|] eqn:H2; [|vm_compute in H2; discriminate].
  assert (Hr2 : call_reachable w2).
  { eapply cr_step; [exact H1|]. eapply (cs_submit demoIssued 0 (inr 7%nat) 1 []); [reflexivity| |exact H2].
    vm_compute. reflexivity. }
  vm_compute in H2. injection H2 as <- <-.
  eexists. split; [eapply cr_step; [exact Hr2|apply (cs_cancel _ 0 errCaller); reflexivity]|].
  split; [reflexivity|].
  match goal with |- is_Some (awaitComplete ?w _) /\ _ =>
    assert (Hr : call_reachable w) by (eapply cr_step; [exact Hr2|apply (cs_cancel _ 0 errCaller); reflexivity]);
    pose proof (futures_answered_once w Hr) as (Ha & _ & _ & _ & Hb & _) end.
  split; [by eapply Hb|by apply (Ha 0%nat)].
Defined.
