(* ===== verification/Session1of1.v ===== *)
(** * Sessions of the 1/1 client (src/client1of1/client.go and connection.go)

    [manageConnection] dials and runs one session after the other. A session has
    one writer and one reader goroutine, which [runConnection] joins before it
    returns. The frames wait in a queue that outlives the sessions. *)

From S2P Require Import Prelude Float64 Backoff Protocol Wire Codec Frame Generation Client1of1 Client1of1Safety.
From S2P Require Import Futures.
From stdpp Require Import base gmap list numbers relations tactics.

#[local] Open Scope Z_scope.

(** ** A session *)

Inductive sessionError := errSend | errFlushBatch | errReceive | errSessionClosed.

(** What a worker goroutine reports: [nil], or its error. *)
Notation workerResult := (option sessionError).

Inductive senderPC :=
  | senderOuter
  | senderInner (frame : list Z)
  | senderEnded.

Inductive receiverPC :=
  | receiverReading
  | receiverHolding (response : Response)
  | receiverEnded.

(** [runConnection]: its select, or the join of the workers. *)
Inductive runPC := runSelecting | runJoining (cause : workerResult).

(** [se_taken] is a history variable: the frames this session buffered. *)
Record session := mkSession {
  se_name : nat;
  se_stop : bool;                  (* [stop] is closed *)
  se_connClosed : bool;
  se_reader : FrameReader;
  se_writer : FrameWriter;
  se_sender : senderPC;
  se_receiver : receiverPC;
  se_results : list workerResult;  (* the channel of capacity 2 *)
  se_run : runPC;
  se_taken : list (list Z)
}.

Definition newSession (name : nat) (reader : FrameReader) : session :=
  mkSession name false false reader newFrameWriter senderOuter receiverReading [] runSelecting [].

Definition setSender (s : session) (w : FrameWriter) (pc : senderPC) (taken : list (list Z)) : session :=
  mkSession (se_name s) (se_stop s) (se_connClosed s) (se_reader s) w pc (se_receiver s) (se_results s)
    (se_run s) taken.

Definition setReceiver (s : session) (r : FrameReader) (pc : receiverPC) : session :=
  mkSession (se_name s) (se_stop s) (se_connClosed s) r (se_writer s) (se_sender s) pc (se_results s)
    (se_run s) (se_taken s).

Definition report (s : session) (r : workerResult) : session :=
  mkSession (se_name s) (se_stop s) (se_connClosed s) (se_reader s) (se_writer s) (se_sender s) (se_receiver s)
    (se_results s ++ [r]) (se_run s) (se_taken s).

(** One round of a loop of [sendRequests] with the outcomes of its flushes;
    [None]: it waits for a request or for [stop], or has ended. *)
Definition sendRequests (ok ok2 : flushOutcome) (c : Client) (s : session) : option (Client * session) :=
  let ended s w taken r := report (setSender s w senderEnded taken) r in
  match se_sender s with
  | senderEnded => None
  | senderOuter =>
      if se_stop s then Some (c, ended s (se_writer s) (se_taken s) None)
      else
        match reqQueue c with
        | [] => None
        | frame :: q => Some (setQueue c q, setSender s (se_writer s) (senderInner frame) (se_taken s))
        end
  | senderInner frame =>
      if se_stop s then Some (c, ended s (se_writer s) (se_taken s) None)
      else
        match BufferFrame ok (se_writer s) frame with
        | (w, Some _) => Some (c, ended s w (se_taken s) (Some errSend))
        | (w, None) =>
            let taken := se_taken s ++ [frame] in
            match reqQueue c with
            | next :: q => Some (setQueue c q, setSender s w (senderInner next) taken)
            | [] =>
                match Flush ok2 w with
                | (w, None) => Some (c, setSender s w senderOuter taken)
                | (w, Some _) => Some (c, ended s w taken (Some errFlushBatch))
                end
            end
        end
  end.

Section Session.
Context `{FlatBuffers}.

(** One step of [receive]. Once the connection is closed a read may fail whatever
    had arrived before ([readFails]). *)
Definition receive (readFails : bool) (c : Client) (s : session) : option (Client * session) :=
  match se_receiver s with
  | receiverEnded => None
  | receiverReading =>
      if se_connClosed s && readFails then
        Some (c, report (setReceiver s (se_reader s) receiverEnded) (Some errReceive))
      else
      match ReadFrame (se_reader s) with
      | (r, inl _) => Some (c, report (setReceiver s r receiverEnded) (Some errReceive))
      | (r, inr frame) =>
          match DecodeResponse frame with
          | None => Some (c, report (setReceiver s r receiverEnded) (Some errReceive))
          | Some response => Some (c, setReceiver s r (receiverHolding response))
          end
      end
  | receiverHolding response =>
      match receiveEnqueue c response with
      | Some c => Some (c, setReceiver s (se_reader s) receiverReading)
      | None =>
          if ctxDone c then Some (c, report (setReceiver s (se_reader s) receiverEnded) (Some errReceive))
          else Some (c, s)
      end
  end.

(** The select of [runConnection]: a worker's result or the context; then [stop]
    and the connection are closed. *)
Definition runSelect (c : Client) (s : session) (viaContext : bool) : option session :=
  let stop cause results :=
    mkSession (se_name s) true true (se_reader s) (se_writer s) (se_sender s) (se_receiver s) results
      (runJoining cause) (se_taken s) in
  match se_run s with
  | runJoining _ => None
  | runSelecting =>
      if viaContext then
        if ctxDone c then Some (stop (Some errSessionClosed) (se_results s)) else None
      else
        match se_results s with
        | cause :: results => Some (stop cause results)
        | [] => None
        end
  end.

(** [workers.Wait] at the end of [runConnection]: its result. *)
Definition runJoin (s : session) : option workerResult :=
  match se_run s, se_sender s, se_receiver s with
  | runJoining cause, senderEnded, receiverEnded => Some cause
  | _, _, _ => None
  end.

(** ** [manageConnection] *)

Inductive managePC :=
  | manDialing
  | manPublishing (s : session)    (* [Dial] succeeded *)
  | manRunning (s : session)
  | manClearing (name : nat) (cause : workerResult)
  | manWaiting (delay : Z)
  | manStopped.

Inductive manageLog :=
  | logConnectFailed
  | logTerminated (cause : workerResult)
  | logEstablished (reconnected : bool) (attempt : Z).

(** [ma_history]: every frame that was in the queue when the current session
    started or came later. *)
Record managed := mkManaged {
  ma_client : Client;
  ma_pc : managePC;
  ma_attempt : Z;
  ma_unavailable : bool;
  ma_names : nat;
  ma_log : list manageLog;
  ma_history : list (list Z)
}.

Definition setMan (m : managed) (c : Client) (pc : managePC) : managed :=
  mkManaged c pc (ma_attempt m) (ma_unavailable m) (ma_names m) (ma_log m) (ma_history m).

Definition waitRetry (m : managed) (random : float64) (unspecified : Z) : managePC :=
  manWaiting (Duration Default random unspecified (Z.to_nat (ma_attempt m))).

Inductive manageEvent :=
  | mevDialFailed (random : float64) (unspecified : Z)
  | mevDialed (reader : FrameReader)
  | mevPublish
  | mevReturn                      (* [runConnection] returns *)
  | mevClear (random : float64) (unspecified : Z)
  | mevWaited (timerFirst : bool).

Definition manageConnection (m : managed) (e : manageEvent) : option managed :=
  let c := ma_client m in
  match ma_pc m, e with
  | manDialing, mevDialFailed random unspecified =>
      let warn := negb (ma_unavailable m) && negb (ctxDone c) in
      Some (mkManaged c (waitRetry m random unspecified) (ma_attempt m) (ma_unavailable m || warn) (ma_names m)
              (if warn then ma_log m ++ [logConnectFailed] else ma_log m) (ma_history m))
  | manDialing, mevDialed reader =>
      Some (mkManaged c (manPublishing (newSession (ma_names m) reader)) (ma_attempt m) (ma_unavailable m)
              (S (ma_names m)) (ma_log m) (ma_history m))
  | manPublishing s, mevPublish =>
      match publish c (se_name s) with
      | (_, false) => Some (setMan m c manStopped)   (* the connection is closed *)
      | (c, true) =>
          Some (mkManaged c (manRunning s) 0 (ma_unavailable m) (ma_names m)
                  (ma_log m ++ [logEstablished (ma_unavailable m) (u64 (ma_attempt m + 1))]) (reqQueue c))
      end
  | manRunning s, mevReturn =>
      cause ← runJoin s;
      Some (setMan m c (manClearing (se_name s) cause))
  | manClearing name cause, mevClear random unspecified =>
      let c := clear c name in
      if ctxDone c then Some (setMan m c manStopped)
      else
        Some (mkManaged c (waitRetry m random unspecified) (ma_attempt m) true (ma_names m)
                (ma_log m ++ [logTerminated cause]) (ma_history m))
  | manWaiting delay, mevWaited timerFirst =>
      if decide (Wait (ctxDone c) timerFirst delay = true) then
        Some (mkManaged c manDialing (u64 (ma_attempt m + 1)) (ma_unavailable m) (ma_names m) (ma_log m)
                (ma_history m))
      else if ctxDone c then Some (setMan m c manStopped) else None
  | _, _ => None
  end.

(** ** Interleavings *)

(** Submissions put frames at the end of the queue; other operations leave it. *)
Inductive managed_step : managed -> managed -> Prop :=
  | mas_manage m e m' : manageConnection m e = Some m' -> managed_step m m'
  | mas_send m s ok ok2 c' s' :
      ma_pc m = manRunning s -> sendRequests ok ok2 (ma_client m) s = Some (c', s') ->
      managed_step m (setMan m c' (manRunning s'))
  | mas_receive m s readFails c' s' :
      ma_pc m = manRunning s -> receive readFails (ma_client m) s = Some (c', s') ->
      managed_step m (setMan m c' (manRunning s'))
  | mas_select m s viaContext s' :
      ma_pc m = manRunning s -> runSelect (ma_client m) s viaContext = Some s' ->
      managed_step m (setMan m (ma_client m) (manRunning s'))
  | mas_enqueue m c' frame :
      reqQueue c' = reqQueue (ma_client m) ++ [frame] -> connection c' = connection (ma_client m) ->
      closed c' = closed (ma_client m) -> ctxDone c' = ctxDone (ma_client m) ->
      managed_step m (mkManaged c' (ma_pc m) (ma_attempt m) (ma_unavailable m) (ma_names m) (ma_log m)
                        (ma_history m ++ [frame]))
  | mas_other m c' :
      reqQueue c' = reqQueue (ma_client m) -> connection c' = connection (ma_client m) ->
      closed c' = closed (ma_client m) -> ctxDone c' = ctxDone (ma_client m) ->
      managed_step m (setMan m c' (ma_pc m))
  (* [Close]: the context, the state and the published connection *)
  | mas_cancel m : managed_step m (setMan m (cancelClient (ma_client m)) (ma_pc m))
  | mas_mark m : ctxDone (ma_client m) = true ->
      managed_step m (setMan m (setConnection (ma_client m) None true) (ma_pc m)).

Inductive managed_reachable : managed -> Prop :=
  | mar_new boot config c : New boot config = inr c ->
      managed_reachable (mkManaged c manDialing 0 false 0 [] [])
  | mar_step m m' : managed_reachable m -> managed_step m m' -> managed_reachable m'.

End Session.

(** ** The invariant *)

Definition frameInHand (pc : senderPC) (l : list (list Z)) : Prop :=
  match pc with
  | senderOuter => l = []
  | senderInner frame => l = [frame]
  | senderEnded => (length l <= 1)%nat
  end.

Definition endedWorkers (s : session) : nat :=
  ((match se_sender s with senderEnded => 1 | _ => 0 end) +
   (match se_receiver s with receiverEnded => 1 | _ => 0 end))%nat.

Record session_inv (queue history : list (list Z)) (s : session) : Prop := {
  si_written : written (se_writer s) = concat (se_taken s);
  si_history : exists hand, frameInHand (se_sender s) hand /\ history = se_taken s ++ hand ++ queue;
  si_results : (length (se_results s) <= endedWorkers s)%nat;
  si_joining : forall cause, se_run s = runJoining cause -> se_stop s = true /\ se_connClosed s = true
}.

Lemma sendRequests_session ok ok2 c s c' s' h :
  sendRequests ok ok2 c s = Some (c', s') -> session_inv (reqQueue c) h s ->
  session_inv (reqQueue c') h s' /\ se_name s' = se_name s /\ connection c' = connection c /\
  closed c' = closed c /\ ctxDone c' = ctxDone c.
Proof.
  intros Hs [Hw (hand & Hh & Hq) Hr Hj]. unfold sendRequests in Hs. unfold endedWorkers in Hr.
  assert (Hrep : forall r, (length (se_results s ++ [r]) <= 1 + match se_receiver s with receiverEnded => 1 | _ => 0 end)%nat
    \/ se_sender s = senderEnded).
  { intros r. rewrite length_app. simpl. destruct (se_sender s); [left; lia|left; lia|by right]. }
  destruct (se_sender s) as [|frame|] eqn:Hpc; [| |done]; simpl in Hh; subst hand.
  - destruct (sumbool_of_bool (se_stop s)) as [Hst|Hst]; rewrite Hst in Hs.
    { injection Hs as <- <-. split_and!; try done. split; simpl; try done; [exists []; split; [simpl; lia|done]|].
      unfold endedWorkers. simpl. by destruct (Hrep None). }
    destruct (reqQueue c) as [|x q] eqn:Hc; [done|]. injection Hs as <- <-. split_and!; try done.
    split; simpl; try done. by exists [x].
  - destruct (sumbool_of_bool (se_stop s)) as [Hst|Hst]; rewrite Hst in Hs.
    { injection Hs as <- <-. split_and!; try done. split; simpl; try done; [exists [frame]; split; [simpl; lia|done]|].
      unfold endedWorkers. simpl. by destruct (Hrep None). }
    destruct (BufferFrame ok (se_writer s) frame) as [w [e|]] eqn:Hb; apply BufferFrame_written in Hb.
    { injection Hs as <- <-. split_and!; try done. split; simpl; try done; [congruence| |].
      - exists [frame]. split; [simpl; lia|done].
      - unfold endedWorkers. simpl. by destruct (Hrep (Some errSend)). }
    assert (Hw' : written w = concat (se_taken s ++ [frame])).
    { rewrite Hb, Hw, concat_app. simpl. by rewrite app_nil_r. }
    destruct (reqQueue c) as [|x q] eqn:Hc.
    + destruct (Flush ok2 w) as [w2 [e|]] eqn:Hf; apply Flush_written in Hf; injection Hs as <- <-;
        (split_and!; try done); split; simpl; try done; rewrite ?Hc; try congruence.
      * exists []. split; [simpl; lia|]. simpl. by rewrite Hq, <- app_assoc.
      * unfold endedWorkers. simpl. by destruct (Hrep (Some errFlushBatch)).
      * exists []. split; [done|]. simpl. by rewrite Hq, <- app_assoc.
    + injection Hs as <- <-. split_and!; try done. split; simpl; try done. exists [x]. split; [done|].
      simpl. by rewrite Hq, <- app_assoc.
Qed.

Lemma receive_session `{FlatBuffers} readFails c s c' s' h :
  receive readFails c s = Some (c', s') -> session_inv (reqQueue c) h s ->
  session_inv (reqQueue c') h s' /\ se_name s' = se_name s /\ connection c' = connection c /\
  closed c' = closed c /\ ctxDone c' = ctxDone c.
Proof.
  intros Hs [Hw Hh Hr Hj]. unfold receive in Hs. unfold endedWorkers in Hr.
  assert (Hend : forall r, se_receiver s <> receiverEnded ->
    session_inv (reqQueue c) h (report (setReceiver s r receiverEnded) (Some errReceive))).
  { intros r Hne. split; simpl; try done. unfold endedWorkers. simpl. rewrite length_app. simpl.
    destruct (se_receiver s); [lia|lia|done]. }
  destruct (se_receiver s) as [|response|] eqn:Hpc; [| |done].
  - destruct (se_connClosed s && readFails); [injection Hs as <- <-; split_and!; try done; by apply Hend|].
    destruct (ReadFrame (se_reader s)) as [r [e|frame]].
    + injection Hs as <- <-. split_and!; try done. by apply Hend.
    + destruct (DecodeResponse frame); injection Hs as <- <-; (split_and!; try done); by apply Hend.
  - destruct (receiveEnqueue c response) as [c1|] eqn:He.
    + injection Hs as <- <-. unfold receiveEnqueue in He.
      destruct (pending c !! _); simpl in He; [|done]. case_decide; [|done]. injection He as <-.
      split_and!; try done.
    + destruct (ctxDone c) eqn:Hctx; injection Hs as <- <-; (split_and!; try done); [by apply Hend|].
      split; simpl; try done. unfold endedWorkers. by rewrite Hpc.
Qed.

Lemma runSelect_session c s viaContext s' q h :
  runSelect c s viaContext = Some s' -> session_inv q h s -> session_inv q h s' /\ se_name s' = se_name s.
Proof.
  intros Hs [Hw Hh Hr Hj]. unfold runSelect in Hs. destruct (se_run s); [|done]. destruct viaContext.
  - destruct (ctxDone c); [|done]. injection Hs as <-. split; [|done]. by split.
  - destruct (se_results s) as [|cause results] eqn:Hres; [done|]. injection Hs as <-. split; [|done].
    split; simpl; try done. unfold endedWorkers in *. simpl in *. lia.
Qed.

Record managed_inv (m : managed) : Prop := {
  man_fresh : forall s, ma_pc m = manPublishing s -> exists name reader, s = newSession name reader;
  man_running : forall s, ma_pc m = manRunning s -> session_inv (reqQueue (ma_client m)) (ma_history m) s;
  man_published : forall n, connection (ma_client m) = Some n ->
    (exists s, ma_pc m = manRunning s /\ se_name s = n) \/ (exists cause, ma_pc m = manClearing n cause);
  man_closed : closed (ma_client m) = true -> ctxDone (ma_client m) = true /\ connection (ma_client m) = None;
  man_stopped : ma_pc m = manStopped -> ctxDone (ma_client m) = true
}.

(** The manager is at a place without a session. *)
Lemma managed_move c pc attempt unavailable names log history :
  connection c = None -> (closed c = true -> ctxDone c = true) ->
  (forall s, pc <> manRunning s) -> (forall s, pc = manPublishing s -> exists name reader, s = newSession name reader) ->
  (pc = manStopped -> ctxDone c = true) ->
  managed_inv (mkManaged c pc attempt unavailable names log history).
Proof. intros Hc Hcl Hr Hp Hst. split; simpl; try done; [naive_solver|congruence|auto]. Qed.

Lemma unpublished m : managed_inv m -> (forall s, ma_pc m <> manRunning s) ->
  (forall n cause, ma_pc m <> manClearing n cause) -> connection (ma_client m) = None.
Proof.
  intros Hinv H1 H2. destruct (connection (ma_client m)) as [n|] eqn:Hc; [|done].
  destruct (man_published _ Hinv n Hc) as [(s & Hs & _)|[cause Hs]]; naive_solver.
Qed.

Lemma manageConnection_inv m e m' : manageConnection m e = Some m' -> managed_inv m -> managed_inv m'.
Proof.
  intros Hs Hinv. pose proof Hinv as [H0 H1 H2 H3 H4]. unfold manageConnection in Hs.
  assert (Hcd : closed (ma_client m) = true -> ctxDone (ma_client m) = true) by (intros; by apply H3).
  destruct (ma_pc m) as [|s|s|name cause|delay|] eqn:Hpc; destruct e; try done.
  - injection Hs as <-. apply managed_move; try done. apply unpublished; by rewrite ?Hpc.
  - injection Hs as <-. apply managed_move; try done; [apply unpublished; by rewrite ?Hpc|naive_solver].
  - unfold publish in Hs. destruct (closed (ma_client m) || ctxDone (ma_client m)) eqn:Hcl; injection Hs as <-.
    + apply managed_move; try done; [apply unpublished; by rewrite ?Hpc|].
      intros _. apply orb_true_iff in Hcl as [?|?]; auto.
    + apply orb_false_iff in Hcl as [Hcl _]. split; simpl; try done.
      * intros s' [= <-]. destruct (H0 s eq_refl) as (n & r & ->). split; simpl; try done.
        by exists [].
      * intros n [= <-]. left. by exists s.
      * congruence.
  - destruct (runJoin s) as [cause|]; simpl in Hs; [|done]. injection Hs as <-. split; simpl; try done.
    intros n Hn. right. destruct (H2 n Hn) as [(s' & [= <-] & <-)|[? ?]]; [by exists cause|done].
  - assert (Hclr : connection (clear (ma_client m) name) = None /\
      closed (clear (ma_client m) name) = closed (ma_client m) /\
      ctxDone (clear (ma_client m) name) = ctxDone (ma_client m)).
    { unfold clear. case_decide as Hd; simpl; [|done]. split; [|done].
      destruct (connection (ma_client m)) as [n|] eqn:Hn; [|done].
      destruct (H2 n eq_refl) as [(? & ? & _)|[? [= <- _]]]; done. }
    destruct Hclr as (Hc & Hcl & Hctx).
    destruct (ctxDone (clear (ma_client m) name)) eqn:Hx; injection Hs as <-; apply managed_move; rewrite ?Hcl, ?Hx, ?Hctx; done.
  - assert (Hc : connection (ma_client m) = None) by (apply unpublished; by rewrite ?Hpc).
    case_decide; [by injection Hs as <-; apply managed_move|].
    destruct (ctxDone (ma_client m)) eqn:Hx; [|done]. injection Hs as <-. by apply managed_move.
Qed.

(** A step of the running session. *)
Lemma managed_session_inv m s c' s' :
  managed_inv m -> ma_pc m = manRunning s -> session_inv (reqQueue c') (ma_history m) s' ->
  se_name s' = se_name s -> connection c' = connection (ma_client m) -> closed c' = closed (ma_client m) ->
  ctxDone c' = ctxDone (ma_client m) -> managed_inv (setMan m c' (manRunning s')).
Proof.
  intros [H0 H1 H2 H3 H4] Hpc Hsi Hn Hc Hcl Hx. split; simpl; try done.
  - by intros x [= <-].
  - intros n. rewrite Hc. intros Hcn. left. exists s'. split; [done|]. rewrite Hn.
    destruct (H2 n Hcn) as [(? & Hr & <-)|[? ?]]; congruence.
  - by rewrite Hcl, Hc, Hx.
Qed.

Lemma managed_step_inv `{FlatBuffers} m m' : managed_step m m' -> managed_inv m -> managed_inv m'.
Proof.
  intros Hs Hinv. pose proof Hinv as [H0 H1 H2 H3 H4]. destruct Hs as
    [m e m' Hs|m s ok ok2 c' s' Hpc Hs|m s readFails c' s' Hpc Hs|m s via s' Hpc Hs|m c' frame Hq Hc Hcl Hx
    |m c' Hq Hc Hcl Hx|m|m Hx].
  - by eapply manageConnection_inv.
  - destruct (sendRequests_session _ _ _ _ _ _ _ Hs (H1 s Hpc)) as (? & ? & ? & ? & ?).
    by eapply managed_session_inv.
  - destruct (receive_session _ _ _ _ _ _ Hs (H1 s Hpc)) as (? & ? & ? & ? & ?). by eapply managed_session_inv.
  - destruct (runSelect_session _ _ _ _ _ _ Hs (H1 s Hpc)) as (? & ?). by eapply managed_session_inv.
  - split; simpl; rewrite ?Hc, ?Hcl, ?Hx; try done.
    intros s Hpc. destruct (H1 s Hpc) as [Hw (hand & Hh & Heq) Hr Hj]. split; try done.
    exists hand. split; [done|]. by rewrite Hq, Heq, <- !app_assoc.
  - split; simpl; rewrite ?Hc, ?Hcl, ?Hx, ?Hq; done.
  - split; simpl; try done. intros Hc. split; [done|]. by apply H3.
  - by split.
Qed.

Lemma managed_reachable_inv `{FlatBuffers} m : managed_reachable m -> managed_inv m.
Proof.
  induction 1 as [boot config c Hc|m m' _ IH Hs]; [|by eapply managed_step_inv].
  unfold New in Hc. destruct (Validate config); [done|]. injection Hc as <-. by apply managed_move.
Qed.

(** ** Theorems *)


