(* ===== verification/DummyClient.v ===== *)
(** * The raw benchmark client (src/cmd/redlease-dummy-client/main.go)

    It opens several connections to one server and sends, on each, Acquire and
    Release of the keys of a range of its own, without waiting for the responses;
    a status other than OK ends the measurement. Before that one connection asks
    until the server is active. The boot identifiers of all clients
    (src/internal/bootid/bootid.go) are here too. *)

From S2P Require Import Prelude GoHeap LeaseShard Protocol Server ServerSpec ServerLifecycle Wire Codec Frame Generation.
From stdpp Require Import base gmap sets list numbers relations tactics.

#[local] Open Scope Z_scope.

(** ** Boot identifiers *)

(** [binary.BigEndian.Uint32] of four bytes. *)
Definition beVal : list Z -> Z := foldl (fun v b => 256 * v + b) 0.

(** [bootid.NewBootID]; [None] is an error of [rand.Read]. *)
Definition NewBootID (random : option (list Z)) : option Z := beVal <$> random.

(** [newBootID] of the benchmark client: little-endian, and never 0. *)
Definition newBootID (random : option (list Z)) : option Z :=
  encoded ← random;
  let bootID := leVal encoded in
  Some (if decide (bootID = 0) then 1 else bootID).

(** ** Options *)

Definition maxConnections : Z := 1024.
Definition maxTTLMS : Z := 5000.
Definition sendPairQueueCapacity : nat := 2048.

Record dummyOptions := mkDummyOptions {
  do_target : list Z;
  do_keyCount : Z;
  do_ttlMS : Z;
  do_duration : Z;
  do_warmup : Z;
  do_readyTimeout : Z;
  do_connections : Z
}.

Inductive dummyError :=
  | errTargetEmpty
  | errKeys
  | errConnections
  | errKeySpace
  | errDummyTTL
  | errDummyDuration
  | errWarmup
  | errReadyTimeout.

(** [parseOptions] after the flags are parsed and no argument is left. *)
Definition checkOptions (o : dummyOptions) : dummyError + dummyOptions :=
  if decide (do_target o = []) then inl errTargetEmpty
  else if do_keyCount o =? 0 then inl errKeys
  else if (do_connections o <? 1) || (maxConnections <? do_connections o) then inl errConnections
  else if (2 ^ 64 - 1) / u64 (do_connections o) <? do_keyCount o then inl errKeySpace
  else if (do_ttlMS o =? 0) || (maxTTLMS <? do_ttlMS o) then inl errDummyTTL
  else if do_duration o <=? 0 then inl errDummyDuration
  else if do_warmup o <? 0 then inl errWarmup
  else if do_readyTimeout o <=? 0 then inl errReadyTimeout
  else inr o.

(** ** Requests *)

Record requestPair := mkPair { pr_key : Z; pr_sequence : Z }.

(** The offset of connection [index] in [run]. *)
Definition keyOffset (o : dummyOptions) (index : nat) : Z := u64 (Z.of_nat index * do_keyCount o).

(** The pair of [produceRequests] for a sequence number. *)
Definition pairOf (o : dummyOptions) (offset sequence : Z) : requestPair :=
  mkPair (u64 (u64 (offset + u64 (sequence - 1) mod do_keyCount o) + 1)) sequence.

Section Requests.
Context `{FlatBuffers}.

(** The frame [bufferAcquire] hands to [BufferFrame]. *)
Definition acquireFrame (requestID key bootID sequence ttlMS : Z) : list Z :=
  fbFinish (ClientRequestAddAcquire (CreateAcquireRequest key 1 bootID sequence ttlMS)
    (ClientRequestAddOperation ClientOperationACQUIRE
      (ClientRequestAddRequestId requestID ClientRequestStart))).

(** The frame of [bufferRelease]. *)
Definition releaseFrame (requestID key bootID sequence : Z) : list Z :=
  fbFinish (ClientRequestAddRelease (CreateReleaseRequest key 1 bootID sequence)
    (ClientRequestAddOperation ClientOperationRELEASE
      (ClientRequestAddRequestId requestID ClientRequestStart))).

Definition pairID (sequence : Z) : Z := u64 (u64 (sequence * 2) - 1).

(** ** The goroutines of a connection *)

Inductive dummySendPC :=
  | dsOuter                        (* the first select of [sendRequests] *)
  | dsInner (p : requestPair)
  | dsEnded.

(** [dc_produced] and [dc_taken] are history variables: the pairs that were put
    into the queue, and those whose two frames were buffered. *)
Record dummyConn := mkDummyConn {
  dc_offset : Z;
  dc_next : Z;                     (* the sequence number of [produceRequests] *)
  dc_producing : bool;
  dc_queue : list requestPair;
  dc_send : dummySendPC;
  dc_writer : FrameWriter;
  dc_produced : list requestPair;
  dc_taken : list requestPair
}.

Definition newDummyConn (o : dummyOptions) (index : nat) : dummyConn :=
  mkDummyConn (keyOffset o index) 1 true [] dsOuter newFrameWriter [] [].

(** One round of [produceRequests]; [None]: it waits for room in the queue. A
    context that ends meanwhile is the case [ctxDone]. *)
Definition produceRequests (o : dummyOptions) (ctxDone : bool) (c : dummyConn) : option dummyConn :=
  if dc_producing c then
    if ctxDone then
      Some (mkDummyConn (dc_offset c) (dc_next c) false (dc_queue c) (dc_send c) (dc_writer c) (dc_produced c) (dc_taken c))
    else
      let p := pairOf o (dc_offset c) (dc_next c) in
      if decide (length (dc_queue c) < sendPairQueueCapacity)%nat then
        Some (mkDummyConn (dc_offset c) (u64 (dc_next c + 1)) true (dc_queue c ++ [p]) (dc_send c) (dc_writer c)
                (dc_produced c ++ [p]) (dc_taken c))
      else None
  else None.

Definition setDummySend (c : dummyConn) (queue : list requestPair) (pc : dummySendPC) (w : FrameWriter)
    (taken : list requestPair) : dummyConn :=
  mkDummyConn (dc_offset c) (dc_next c) (dc_producing c) queue pc w (dc_produced c) taken.

(** The three calls on the writer in an iteration may each have to write. *)
Definition dummySend (o : dummyOptions) (bootID : Z) (ctxDone viaContext : bool) (ok ok2 ok3 : flushOutcome) (c : dummyConn)
    : option dummyConn :=
  match dc_send c with
  | dsEnded => None
  | dsOuter =>
      if viaContext then if ctxDone then Some (setDummySend c (dc_queue c) dsEnded (dc_writer c) (dc_taken c)) else None
      else
        match dc_queue c with
        | [] => None
        | p :: queue => Some (setDummySend c queue (dsInner p) (dc_writer c) (dc_taken c))
        end
  | dsInner p =>
      if ctxDone then Some (setDummySend c (dc_queue c) dsEnded (dc_writer c) (dc_taken c))
      else
        let requestID := pairID (pr_sequence p) in
        match BufferFrame ok (dc_writer c) (acquireFrame requestID (pr_key p) bootID (pr_sequence p) (do_ttlMS o)) with
        | (w, Some _) => Some (setDummySend c (dc_queue c) dsEnded w (dc_taken c))
        | (w, None) =>
            match BufferFrame ok2 w (releaseFrame (u64 (requestID + 1)) (pr_key p) bootID (pr_sequence p)) with
            | (w, Some _) => Some (setDummySend c (dc_queue c) dsEnded w (dc_taken c))
            | (w, None) =>
                let taken := dc_taken c ++ [p] in
                match dc_queue c with
                | next :: queue => Some (setDummySend c queue (dsInner next) w taken)
                | [] =>
                    match Flush ok3 w with
                    | (w, None) => Some (setDummySend c [] dsOuter w taken)
                    | (w, Some _) => Some (setDummySend c [] dsEnded w taken)
                    end
                end
            end
        end
  end.

(** ** [receiveResponses] *)

Record responseCounters := mkCounters { co_acquires : Z; co_releases : Z }.

Inductive receiveError :=
  | errReceiveFrame
  | errReceiveDecode
  | errStatus (requestID status : Z)
  | errOperation (requestID operation : Z).

(** What an iteration does with a decoded response. *)
Definition countResponse (counters : responseCounters) (response : Response) : receiveError + responseCounters :=
  if decide (Status response <> LeaseStatusOK) then inl (errStatus (RequestID response) (Status response))
  else if decide (Operation response = ClientOperationACQUIRE) then
    inr (mkCounters (u64 (co_acquires counters + 1)) (co_releases counters))
  else if decide (Operation response = ClientOperationRELEASE) then
    inr (mkCounters (co_acquires counters) (u64 (co_releases counters + 1)))
  else inl (errOperation (RequestID response) (Operation response)).

(** [receiveResponses] for [n] iterations. *)
Fixpoint receiveResponses (n : nat) (r : FrameReader) (counters : responseCounters)
    : FrameReader * (receiveError + responseCounters) :=
  match n with
  | O => (r, inr counters)
  | S n =>
      match ReadFrame r with
      | (r, inl _) => (r, inl errReceiveFrame)
      | (r, inr frame) =>
          match DecodeResponse frame with
          | None => (r, inl errReceiveDecode)
          | Some response =>
              match countResponse counters response with
              | inl e => (r, inl e)
              | inr counters => receiveResponses n r counters
              end
          end
      end
  end.

End Requests.

(** ** [waitForActive] *)

Inductive readyError :=
  | errReadySend
  | errReadyReceive
  | errReadyOperation (operation : Z)
  | errReadyStatus (status : Z)
  | errReleaseSend
  | errReleaseReceive
  | errReleaseResponse (operation status : Z)
  | errReadyContext.

Inductive readyPC :=
  | rdSend                         (* the head of the loop *)
  | rdReceive                      (* waits for the response of the Acquire *)
  | rdRelease                      (* waits for the response of the Release *)
  | rdWait                         (* the timer *)
  | rdDone (err : option readyError).

(** [rd_replies] is a history variable: the statuses of the Acquires so far. *)
Record readyCheck := mkReady {
  rd_sequence : Z;
  rd_writer : FrameWriter;
  rd_reader : FrameReader;
  rd_pc : readyPC;
  rd_replies : list Z
}.

Definition startReady (r : FrameReader) : readyCheck := mkReady 1 newFrameWriter r rdSend [].

Definition setReady (s : readyCheck) (w : FrameWriter) (r : FrameReader) (pc : readyPC) : readyCheck :=
  mkReady (rd_sequence s) w r pc (rd_replies s).

(** [BufferFrame] and [Flush] of one frame; the flag is whether one failed. *)
Definition sendFrame (ok ok2 : flushOutcome) (w : FrameWriter) (frame : list Z) : FrameWriter * bool :=
  match BufferFrame ok w frame with
  | (w, Some _) => (w, true)
  | (w, None) => match Flush ok2 w with (w, Some _) => (w, true) | (w, None) => (w, false) end
  end.

Section Ready.
Context `{FlatBuffers}.

(** [ReadFrame] and [DecodeResponse]; when the context has ended the connection
    is closed and the read may fail ([readFails]). *)
Definition readResponse (ctxDone readFails : bool) (r : FrameReader) : FrameReader * option Response :=
  if ctxDone && readFails then (r, None)
  else match ReadFrame r with
       | (r, inl _) => (r, None)
       | (r, inr frame) => (r, DecodeResponse frame)
       end.

(** One step of [waitForActive]. *)
Definition waitForActive (o : dummyOptions) (bootID : Z) (ctxDone readFails timer : bool) (ok ok2 : flushOutcome)
    (s : readyCheck) : option readyCheck :=
  let requestID := pairID (rd_sequence s) in
  match rd_pc s with
  | rdDone _ => None
  | rdSend =>
      match sendFrame ok ok2 (rd_writer s) (acquireFrame requestID 0 bootID (rd_sequence s) (do_ttlMS o)) with
      | (w, true) => Some (setReady s w (rd_reader s) (rdDone (Some errReadySend)))
      | (w, false) => Some (setReady s w (rd_reader s) rdReceive)
      end
  | rdReceive =>
      match readResponse ctxDone readFails (rd_reader s) with
      | (r, None) => Some (setReady s (rd_writer s) r (rdDone (Some errReadyReceive)))
      | (r, Some response) =>
          if decide (Operation response <> ClientOperationACQUIRE) then
            Some (setReady s (rd_writer s) r (rdDone (Some (errReadyOperation (Operation response)))))
          else
            let s := mkReady (rd_sequence s) (rd_writer s) r (rd_pc s) (rd_replies s ++ [Status response]) in
            if decide (Status response = LeaseStatusOK) then
              match sendFrame ok ok2 (rd_writer s) (releaseFrame (u64 (requestID + 1)) 0 bootID (rd_sequence s)) with
              | (w, true) => Some (setReady s w r (rdDone (Some errReleaseSend)))
              | (w, false) => Some (setReady s w r rdRelease)
              end
            else if decide (Status response = LeaseStatusNOT_READY \/ Status response = LeaseStatusBUSY) then
              Some (setReady s (rd_writer s) r rdWait)
            else Some (setReady s (rd_writer s) r (rdDone (Some (errReadyStatus (Status response)))))
      end
  | rdRelease =>
      match readResponse ctxDone readFails (rd_reader s) with
      | (r, None) => Some (setReady s (rd_writer s) r (rdDone (Some errReleaseReceive)))
      | (r, Some release) =>
          if decide (Operation release <> ClientOperationRELEASE \/ Status release <> LeaseStatusOK) then
            Some (setReady s (rd_writer s) r (rdDone (Some (errReleaseResponse (Operation release) (Status release)))))
          else Some (setReady s (rd_writer s) r (rdDone None))
      end
  | rdWait =>
      if timer then
        Some (mkReady (u64 (rd_sequence s + 1)) (rd_writer s) (rd_reader s) rdSend (rd_replies s))
      else if ctxDone then Some (setReady s (rd_writer s) (rd_reader s) (rdDone (Some errReadyContext)))
      else None
  end.

Inductive ready_step (o : dummyOptions) (bootID : Z) (s : readyCheck) : readyCheck -> Prop :=
  | rs_step ctxDone readFails timer ok ok2 s' :
      waitForActive o bootID ctxDone readFails timer ok ok2 s = Some s' -> ready_step o bootID s s'.

Definition notActive (status : Z) : Prop := status = LeaseStatusNOT_READY \/ status = LeaseStatusBUSY.

(** The Acquires of the first [n] attempts. *)
Definition attempts (o : dummyOptions) (bootID : Z) (n : nat) : list Z :=
  concat ((fun i : nat => let sequence := u64 (Z.of_nat i + 1) in
             acquireFrame (pairID sequence) 0 bootID sequence (do_ttlMS o)) <$> seq 0 n).

Definition ready_inv (o : dummyOptions) (bootID : Z) (s : readyCheck) : Prop :=
  let n := length (rd_replies s) in
  let out := written (rd_writer s) in
  let last := u64 (Z.of_nat n) in
  match rd_pc s with
  | rdSend => Forall notActive (rd_replies s) /\ rd_sequence s = u64 (Z.of_nat n + 1) /\ out = attempts o bootID n
  | rdReceive => Forall notActive (rd_replies s) /\ rd_sequence s = u64 (Z.of_nat n + 1) /\ out = attempts o bootID (S n)
  | rdWait => Forall notActive (rd_replies s) /\ rd_sequence s = last /\ out = attempts o bootID n
  | rdRelease | rdDone None =>
      exists before, rd_replies s = before ++ [LeaseStatusOK] /\ Forall notActive before /\
        out = attempts o bootID n ++ releaseFrame (u64 (pairID last + 1)) 0 bootID last
  | rdDone (Some _) => exists before after, rd_replies s = before ++ after /\ Forall notActive before /\ (length after <= 1)%nat
  end.

Lemma sendFrame_written ok ok2 w frame w' failed :
  sendFrame ok ok2 w frame = (w', failed) -> failed = false -> written w' = written w ++ frame.
Proof.
  unfold sendFrame. destruct (BufferFrame ok w frame) as [w1 [e|]] eqn:Hb; [by intros [= <- <-]|].
  apply BufferFrame_written in Hb. destruct (Flush ok2 w1) as [w2 [e|]] eqn:Hf; [by intros [= <- <-]|].
  apply Flush_written in Hf. intros [= <- <-] _. congruence.
Qed.

Lemma attempts_S o bootID n :
  attempts o bootID (S n) = attempts o bootID n ++
    acquireFrame (pairID (u64 (Z.of_nat n + 1))) 0 bootID (u64 (Z.of_nat n + 1)) (do_ttlMS o).
Proof. unfold attempts. rewrite seq_S, fmap_app, concat_app. simpl. by rewrite app_nil_r. Qed.

Lemma ready_step_inv o bootID s s' : ready_step o bootID s s' -> ready_inv o bootID s -> ready_inv o bootID s'.
Proof.
  intros [ctxDone readFails timer ok ok2 s1 Hs] Hinv. clear s'. unfold waitForActive in Hs. unfold ready_inv in Hinv.
  destruct (rd_pc s) as [| | | |e] eqn:Hpc; [..|done].
  - destruct Hinv as (Ha & Hq & Hw). destruct (sendFrame _ _ _ _) as [w []] eqn:Hsend; injection Hs as <-; unfold ready_inv; simpl.
    + exists (rd_replies s), []. rewrite app_nil_r. auto.
    + apply sendFrame_written in Hsend; [|done]. split_and!; [done..|]. by rewrite Hsend, Hw, attempts_S, Hq.
  - destruct Hinv as (Ha & Hq & Hw).
    destruct (readResponse _ _ _) as [r [response|]]; [|injection Hs as <-; exists (rd_replies s), []; rewrite app_nil_r; auto].
    case_decide; [injection Hs as <-; exists (rd_replies s), []; rewrite app_nil_r; auto|]. simpl in Hs.
    assert (Hn : Z.of_nat (length (rd_replies s ++ [Status response])) = Z.of_nat (length (rd_replies s)) + 1)
      by (rewrite length_app; simpl; lia).
    case_decide as Hok; [|case_decide as Hna].
    + destruct (sendFrame _ _ _ _) as [w []] eqn:Hsend; injection Hs as <-; unfold ready_inv; simpl.
      * exists (rd_replies s), [Status response]. auto.
      * apply sendFrame_written in Hsend; [|done]. exists (rd_replies s). rewrite Hn, Hok. split_and!; [done..|].
        rewrite Hsend, Hw, Hq. by rewrite length_app, Nat.add_1_r.
    + injection Hs as <-. unfold ready_inv. simpl. rewrite Hn. split_and!; [|done|].
      * apply Forall_app. split; [done|]. by constructor.
      * by rewrite Hw, length_app, Nat.add_1_r.
    + injection Hs as <-. exists (rd_replies s), [Status response]. auto.
  - destruct Hinv as (before & Hr & Ha & Hw).
    destruct (readResponse _ _ _) as [r [release|]]; [|injection Hs as <-; exists before, [LeaseStatusOK]; auto].
    case_decide; injection Hs as <-; [exists before, [LeaseStatusOK]; auto|]. by exists before.
  - destruct Hinv as (Ha & Hq & Hw). destruct timer; [|destruct ctxDone; [|done]]; injection Hs as <-.
    + unfold ready_inv. simpl. split_and!; [done| |done]. rewrite Hq. unfold u64. by rewrite Zplus_mod_idemp_l.
    + exists (rd_replies s), []. rewrite app_nil_r. auto.
Qed.

End Ready.

(** A readiness check that returns without an error was answered OK once, after
    answers that the server is not active or the key is busy, and it released the
    lease it had acquired; it leaves no lease behind. *)
Lemma ready_check_sound `{FlatBuffers} o bootID r s :
  rtc (ready_step o bootID) (startReady r) s -> rd_pc s = rdDone None ->
  exists n before, rd_replies s = before ++ [LeaseStatusOK] /\ Forall notActive before /\ length before = n /\
    written (rd_writer s) = attempts o bootID (S n) ++
      releaseFrame (u64 (pairID (u64 (Z.of_nat (S n))) + 1)) 0 bootID (u64 (Z.of_nat (S n))).
Proof.
  intros Hr Hpc. assert (Hinv : ready_inv o bootID s).
  { clear Hpc. remember (startReady r) as s0 eqn:Hs0. assert (H0 : ready_inv o bootID s0) by (subst; by split_and!).
    clear Hs0. induction Hr as [s|s s1 s2 Hs _ IH]; [done|]. apply IH. by eapply ready_step_inv. }
  unfold ready_inv in Hinv. rewrite Hpc in Hinv. destruct Hinv as (before & Hrep & Ha & Hw).
  exists (length before), before. split_and!; try done. rewrite Hw, Hrep, length_app. simpl. by rewrite Nat.add_1_r.
Qed.
