(* ===== verification/DummyClientSafety.v ===== *)
(** * What the raw benchmark client sends and measures
    (src/cmd/redlease-dummy-client/main.go)

    The requests of a connection, and a measurement against one server: as its
    connections use disjoint keys and every key is released before it is acquired
    again, the server answers OK to everything. *)

From S2P Require Import Prelude GoHeap LeaseShard Protocol Server ServerSpec ServerLifecycle Wire Codec Frame Generation.
From S2P Require Import DummyClient.
From stdpp Require Import base gmap sets list numbers relations tactics.

#[local] Open Scope Z_scope.

(** Options as the flags deliver them. *)
Record dummy_typed (o : dummyOptions) : Prop := {
  dt_keys : is_u64 (do_keyCount o);
  dt_ttl : is_u64 (do_ttlMS o);
  dt_connections : is_i64 (do_connections o)
}.

Record dummy_ok (o : dummyOptions) : Prop := {
  dk_keys : 0 < do_keyCount o;
  dk_connections : 1 <= do_connections o <= maxConnections;
  dk_space : do_keyCount o * do_connections o < 2 ^ 64;
  dk_ttl : 0 < do_ttlMS o <= maxTTLMS;
  dk_durations : 0 < do_duration o /\ 0 <= do_warmup o /\ 0 < do_readyTimeout o
}.

Lemma checkOptions_ok o o' : dummy_typed o -> checkOptions o = inr o' -> o' = o /\ dummy_ok o.
Proof.
  intros [Hk Ht Hc] Ho. unfold checkOptions, maxConnections, maxTTLMS in *.
  case_decide; [done|]. destruct (Z.eqb_spec (do_keyCount o) 0); [done|].
  destruct (Z.ltb_spec (do_connections o) 1); [done|]. destruct (Z.ltb_spec 1024 (do_connections o)); [done|]. simpl in Ho.
  rewrite u64_small in Ho by in_range.
  destruct (Z.ltb_spec ((2 ^ 64 - 1) / do_connections o) (do_keyCount o)) as [|Hdiv]; [done|].
  destruct (Z.eqb_spec (do_ttlMS o) 0); [done|]. destruct (Z.ltb_spec 5000 (do_ttlMS o)); [done|]. simpl in Ho.
  destruct (Z.leb_spec (do_duration o) 0); [done|]. destruct (Z.ltb_spec (do_warmup o) 0); [done|].
  destruct (Z.leb_spec (do_readyTimeout o) 0); [done|]. injection Ho as <-. split; [done|].
  split; unfold maxConnections, maxTTLMS; try in_range.
  pose proof (Z.mul_div_le (2 ^ 64 - 1) (do_connections o) ltac:(lia)). nia.
Qed.

(** ** Keys *)

(** The key with residue [r] of connection [index], as a number. *)
Definition keyAt (o : dummyOptions) (index : nat) (r : Z) : Z := Z.of_nat index * do_keyCount o + r + 1.

Lemma keyAt_range o index r :
  dummy_ok o -> Z.of_nat index < do_connections o -> 0 <= r < do_keyCount o ->
  0 < keyAt o index r <= do_keyCount o * do_connections o.
Proof. intros [H1 H2 H3 H4 H5] Hi Hr. unfold keyAt. nia. Qed.

Lemma keyAt_inj o i j r r' :
  dummy_ok o -> 0 <= r < do_keyCount o -> 0 <= r' < do_keyCount o -> keyAt o i r = keyAt o j r' -> i = j /\ r = r'.
Proof.
  intros [H1 H2 H3 H4 H5] Hr Hr' Heq. unfold keyAt in Heq.
  assert (Hq : Z.of_nat i = Z.of_nat j).
  { rewrite (Z.div_unique (Z.of_nat i * do_keyCount o + r) (do_keyCount o) (Z.of_nat i) r) by lia.
    symmetry. apply (Z.div_unique _ (do_keyCount o) (Z.of_nat j) r'); lia. }
  split; [lia|]. rewrite Hq in Heq. lia.
Qed.

Lemma keyOffset_small o index :
  dummy_ok o -> Z.of_nat index < do_connections o -> keyOffset o index = Z.of_nat index * do_keyCount o.
Proof.
  intros [H1 H2 H3 H4 H5] Hi. unfold keyOffset. apply u64_small. unfold is_u64. nia.
Qed.

Lemma pairOf_key o index sequence :
  dummy_ok o -> Z.of_nat index < do_connections o -> 1 <= sequence < 2 ^ 64 ->
  pairOf o (keyOffset o index) sequence = mkPair (keyAt o index ((sequence - 1) mod do_keyCount o)) sequence.
Proof.
  intros Ho Hi Hs. unfold pairOf. rewrite keyOffset_small by done. rewrite (u64_small (sequence - 1)) by in_range.
  pose proof (Z.mod_pos_bound (sequence - 1) (do_keyCount o) (dk_keys _ Ho)) as Hr.
  pose proof (keyAt_range o index ((sequence - 1) mod do_keyCount o) Ho Hi Hr) as Hk. pose proof (dk_space _ Ho).
  pose proof (dk_keys _ Ho). assert (0 <= Z.of_nat index * do_keyCount o) by nia.
  f_equal. unfold keyAt in *. rewrite (u64_small (_ + _ mod _)) by in_range. apply u64_small. in_range.
Qed.

(** ** What a connection writes *)

Section Sending.
Context `{FlatBuffers}.

(** The two frames of a pair. *)
Definition pairFrames (o : dummyOptions) (bootID : Z) (p : requestPair) : list Z :=
  acquireFrame (pairID (pr_sequence p)) (pr_key p) bootID (pr_sequence p) (do_ttlMS o) ++
  releaseFrame (u64 (pairID (pr_sequence p) + 1)) (pr_key p) bootID (pr_sequence p).

Inductive conn_step (o : dummyOptions) (bootID : Z) (c : dummyConn) : dummyConn -> Prop :=
  | cn_produce ctxDone c' : produceRequests o ctxDone c = Some c' -> conn_step o bootID c c'
  | cn_send ctxDone viaContext ok ok2 ok3 c' :
      dummySend o bootID ctxDone viaContext ok ok2 ok3 c = Some c' -> conn_step o bootID c c'.

Inductive conn_reachable (o : dummyOptions) (bootID : Z) (index : nat) : dummyConn -> Prop :=
  | cn_start : conn_reachable o bootID index (newDummyConn o index)
  | cn_next c c' : conn_reachable o bootID index c -> conn_step o bootID c c' -> conn_reachable o bootID index c'.

(** The pair the sender holds, or held when it ended. *)
Definition pairInHand (pc : dummySendPC) (l : list requestPair) : Prop :=
  match pc with
  | dsOuter => l = []
  | dsInner p => l = [p]
  | dsEnded => (length l <= 1)%nat
  end.

(** What of the pair in hand has been written. *)
Definition halfWritten (o : dummyOptions) (bootID : Z) (pc : dummySendPC) (partial : list Z) : Prop :=
  partial = [] \/ pc = dsEnded.

Record conn_inv (o : dummyOptions) (bootID : Z) (index : nat) (c : dummyConn) : Prop := {
  cv_offset : dc_offset c = keyOffset o index;
  cv_next : dc_next c = u64 (Z.of_nat (length (dc_produced c)) + 1);
  cv_produced : dc_produced c =
    (fun i : nat => pairOf o (keyOffset o index) (u64 (Z.of_nat i + 1))) <$> seq 0 (length (dc_produced c));
  cv_queue : exists hand, pairInHand (dc_send c) hand /\ dc_produced c = dc_taken c ++ hand ++ dc_queue c;
  cv_written : exists partial, halfWritten o bootID (dc_send c) partial /\
    written (dc_writer c) = concat (pairFrames o bootID <$> dc_taken c) ++ partial
}.

Lemma produceRequests_inv o bootID index ctxDone c c' :
  produceRequests o ctxDone c = Some c' -> conn_inv o bootID index c -> conn_inv o bootID index c'.
Proof.
  intros Hp [H1 H2 H3 (hand & Hh & H4) H5]. unfold produceRequests in Hp.
  destruct (dc_producing c); [|done]. destruct ctxDone; [injection Hp as <-; split; simpl; eauto|].
  case_decide; [|done]. injection Hp as <-. split; simpl; try done.
  - rewrite H2, length_app. simpl. unfold u64. rewrite Zplus_mod_idemp_l. f_equal. lia.
  - rewrite length_app, Nat.add_1_r, seq_S, fmap_app, <- H3. simpl. by rewrite H1, H2.
  - exists hand. split; [done|]. by rewrite H4, <- !app_assoc.
Qed.

Lemma dummySend_inv o bootID index ctxDone viaContext ok ok2 ok3 c c' :
  dummySend o bootID ctxDone viaContext ok ok2 ok3 c = Some c' -> conn_inv o bootID index c -> conn_inv o bootID index c'.
Proof.
  intros Hs [H1 H2 H3 (hand & Hh & H4) (partial & Hpart & H5)]. unfold dummySend in Hs.
  assert (Hmove : forall queue pc w taken hand' partial',
    pairInHand pc hand' -> dc_produced c = taken ++ hand' ++ queue -> halfWritten o bootID pc partial' ->
    written w = concat (pairFrames o bootID <$> taken) ++ partial' ->
    conn_inv o bootID index (setDummySend c queue pc w taken)) by (intros; split; simpl; eauto).
  destruct (dc_send c) as [|p|] eqn:Hpc; [| |done]; simpl in Hh; subst hand.
  - destruct viaContext; [destruct ctxDone; [|done]|destruct (dc_queue c) as [|p queue] eqn:Hq; [done|]];
      injection Hs as <-; destruct Hpart as [->|]; try done.
    + apply (Hmove _ _ _ _ [] []); [simpl; lia|done|by left|done].
    + apply (Hmove _ _ _ _ [p] []); [done|done|by left|done].
  - destruct Hpart as [->|]; [|done]. rewrite app_nil_r in H5.
    destruct ctxDone; [injection Hs as <-; apply (Hmove _ _ _ _ [p] []); [simpl; lia|done|by left|by rewrite app_nil_r]|].
    destruct (BufferFrame ok _ _) as [w1 [e|]] eqn:Hb1; apply BufferFrame_written in Hb1.
    { injection Hs as <-. apply (Hmove _ _ _ _ [p] []); [simpl; lia|done|by left|by rewrite app_nil_r, Hb1]. }
    destruct (BufferFrame ok2 _ _) as [w2 [e|]] eqn:Hb2; apply BufferFrame_written in Hb2.
    { injection Hs as <-. eapply (Hmove _ _ _ _ [p]); [simpl; lia|done|by right|by rewrite Hb2, Hb1, H5]. }
    assert (Hw2 : written w2 = concat (pairFrames o bootID <$> dc_taken c ++ [p])).
    { rewrite Hb2, Hb1, H5, fmap_app, concat_app. simpl. unfold pairFrames. by rewrite app_nil_r, <- app_assoc. }
    destruct (dc_queue c) as [|next queue] eqn:Hq.
    + destruct (Flush ok3 w2) as [w3 [e|]] eqn:Hf; apply Flush_written in Hf; injection Hs as <-;
        apply (Hmove _ _ _ _ [] []); rewrite ?app_nil_r; simpl; try done; try lia; try (by left); try congruence.
    + injection Hs as <-. apply (Hmove _ _ _ _ [next] []); [done| |by left|by rewrite app_nil_r].
      by rewrite <- app_assoc.
Qed.

Lemma conn_reachable_inv o bootID index c : conn_reachable o bootID index c -> conn_inv o bootID index c.
Proof.
  induction 1 as [|c c' _ IH [ctxDone c'' Hp|ctxDone viaContext ok ok2 ok3 c'' Hs]].
  - split; simpl; try done; [exists []; done|]. exists []. split; [by left|done].
  - by eapply produceRequests_inv.
  - by eapply dummySend_inv.
Qed.

(** The operations a pair stands for. *)
Definition pairAcquire (o : dummyOptions) (bootID : Z) (p : requestPair) : operation :=
  mkOperation (pairID (pr_sequence p)) operationAcquire (pr_key p) (LeaseID 1 bootID (pr_sequence p)) (do_ttlMS o).
Definition pairRelease (bootID : Z) (p : requestPair) : operation :=
  mkOperation (u64 (pairID (pr_sequence p) + 1)) operationRelease (pr_key p) (LeaseID 1 bootID (pr_sequence p)) 0.

End Sending.

Section Decoding.
Context `{FlatBuffersLaws}.

Lemma pair_decoded o bootID p :
  dummy_ok o -> is_u32 bootID -> is_u64 (pr_key p) -> is_u64 (pr_sequence p) ->
  decodeRequest (acquireFrame (pairID (pr_sequence p)) (pr_key p) bootID (pr_sequence p) (do_ttlMS o)) =
    decodedOperation (pairAcquire o bootID p) /\
  decodeRequest (releaseFrame (u64 (pairID (pr_sequence p) + 1)) (pr_key p) bootID (pr_sequence p)) =
    decodedOperation (pairRelease bootID p).
Proof.
  intros Ho Hb Hk Hs. pose proof (dk_ttl _ Ho). split.
  - apply (decode_encode_request (mkOutbound (pairID (pr_sequence p)) (pr_key p) (pr_sequence p) (do_ttlMS o) 1 bootID
      ClientOperationACQUIRE)); [|done].
    split; simpl; try done; try apply u64_range; unfold maxTTLMS in *; in_range.
  - apply (decode_encode_request (mkOutbound (u64 (pairID (pr_sequence p) + 1)) (pr_key p) (pr_sequence p) 0 1 bootID
      ClientOperationRELEASE)); [|done].
    split; simpl; try done; try apply u64_range; in_range.
Qed.

End Decoding.

(** ** A measurement against one server *)

Section Measurement.
Context (hash : Z -> Z) (o : dummyOptions) (bootID : Z).

(** Operation number [n] on the key with residue [r]: its Acquires and Releases
    alternate, and its pairs are [keyCount] sequence numbers apart. *)
Definition keySequence (r : Z) (n : nat) : Z := r + 1 + Z.of_nat (n / 2) * do_keyCount o.

Definition keyOperation (index : nat) (r : Z) (n : nat) : operation :=
  let p := mkPair (keyAt o index r) (keySequence r n) in
  if Nat.even n then pairAcquire o bootID p else pairRelease bootID p.

(** The server works off the operations on one key in the order in which their
    connection sent them; the order between keys is arbitrary. [me_done] counts
    the operations done on a key. *)
Record measurement := mkMeasurement {
  me_server : Server;
  me_now : Z;
  me_done : gmap (nat * Z) nat;
  me_answers : list Response
}.

Definition doneOf (m : measurement) (index : nat) (r : Z) : nat := default 0%nat (me_done m !! (index, r)).

Inductive measure_step (m : measurement) : measurement -> Prop :=
  | mt_operation index r now got s' response :
      Z.of_nat index < do_connections o -> 0 <= r < do_keyCount o -> me_now m <= now ->
      keySequence r (doneOf m index r) < 2 ^ 64 ->
      submitOperation hash (me_server m) (keyOperation index r (doneOf m index r)) now got = Some (s', Some response) ->
      measure_step m (mkMeasurement s' now (<[(index, r) := S (doneOf m index r)]> (me_done m)) (me_answers m ++ [response]))
  | mt_cleanup now s' :
      me_now m <= now -> cleanupTick (me_server m) now = Some s' ->
      measure_step m (mkMeasurement s' now (me_done m) (me_answers m)).

(** The server is active and holds no lease when the measurement starts. *)
Inductive measure_reachable : measurement -> Prop :=
  | mt_start s now :
      reachable hash s -> phase s = phaseActive -> serverTable s = ∅ ->
      do_keyCount o * do_connections o <= MaxKeys (config s) ->
      measure_reachable (mkMeasurement s now ∅ [])
  | mt_next m m' : measure_reachable m -> measure_step m m' -> measure_reachable m'.

(** A live lease belongs to a key whose Acquire was the last operation on it. *)
Definition leases_ours (m : measurement) : Prop :=
  forall k id d, live (me_now m) (serverTable (me_server m)) !! k = Some (id, d) ->
    exists index r, k = keyAt o index r /\ Z.of_nat index < do_connections o /\ 0 <= r < do_keyCount o /\
      Nat.even (doneOf m index r) = false /\ id = LeaseID 1 bootID (keySequence r (doneOf m index r)).

(** A successful answer to an Acquire or a Release. *)
Definition okAnswer (r : Response) : Prop :=
  exists id, is_u64 id /\
    (r = releaseResponse id LeaseStatusOK \/ exists ttl, is_u64 ttl /\ r = acquireResponse id LeaseStatusOK ttl).

Record measure_inv (m : measurement) : Prop := {
  mv_server : server_inv hash (me_server m);
  mv_active : phase (me_server m) = phaseActive;
  mv_room : do_keyCount o * do_connections o <= MaxKeys (config (me_server m));
  mv_leases : leases_ours m;
  mv_answers : Forall okAnswer (me_answers m)
}.

Lemma live_later now now' (t : gmap Z (leaseID * Z)) k v :
  now <= now' -> live now' t !! k = Some v -> live now t !! k = Some v.
Proof. destruct v as [id d]. rewrite !live_Some. intros ? [? ?]. split; [done|lia]. Qed.

(** Fewer leases than keys while one key is free. *)
Lemma leases_room (t : gmap Z (leaseID * Z)) key n :
  (forall k, is_Some (t !! k) -> 1 <= k <= n) -> 1 <= key <= n -> t !! key = None -> Z.of_nat (size t) < n.
Proof.
  intros Hk Hkey Hn. set (keys := list_to_set (seqZ 1 n) : gset Z).
  assert (Hsub : dom t ⊆ keys ∖ {[key]}).
  { intros k Hd. apply elem_of_dom in Hd. apply elem_of_difference. rewrite elem_of_singleton. split.
    - apply elem_of_list_to_set, elem_of_seqZ. specialize (Hk k Hd). lia.
    - intros ->. rewrite Hn in Hd. by destruct Hd. }
  apply subseteq_size in Hsub. rewrite size_dom in Hsub.
  assert (Hin : key ∈ keys) by (apply elem_of_list_to_set, elem_of_seqZ; lia).
  rewrite size_difference in Hsub by (apply singleton_subseteq_l; done). rewrite size_singleton in Hsub.
  assert (Hs : Z.of_nat (size keys) = n).
  { unfold keys. rewrite size_list_to_set by apply NoDup_seqZ. rewrite length_seqZ. lia. }
  lia.
Qed.

(** One operation of the measurement against the abstract server. *)
Lemma keyOperation_spec (m : measurement) index r now mt mk t' response :
  dummy_ok o -> leases_ours m -> Z.of_nat index < do_connections o -> 0 <= r < do_keyCount o -> me_now m <= now ->
  0 < mt -> do_keyCount o * do_connections o <= mk ->
  let n := doneOf m index r in
  let t := live now (serverTable (me_server m)) in
  (t', response) = specApply mt mk t (keyOperation index r n) now ->
  okAnswer response /\
  (forall k, k <> keyAt o index r -> t' !! k = t !! k) /\
  (forall id d, t' !! keyAt o index r = Some (id, d) ->
     Nat.even n = true /\ id = LeaseID 1 bootID (keySequence r n)).
Proof.
  intros Ho Hl Hi Hr Hnow Hmt Hmk n t Hs.
  assert (Hlive : forall k id d, t !! k = Some (id, d) -> exists i' r', k = keyAt o i' r' /\ Z.of_nat i' < do_connections o /\
    0 <= r' < do_keyCount o /\ Nat.even (doneOf m i' r') = false /\ id = LeaseID 1 bootID (keySequence r' (doneOf m i' r'))).
  { intros k id d Hk. apply (Hl k id d). by eapply live_later. }
  unfold keyOperation, specApply in Hs. destruct (Nat.even n) eqn:He.
  - simpl in Hs. unfold specAcquire in Hs. simpl in Hs.
    assert (Hnone : t !! keyAt o index r = None).
    { apply eq_None_not_Some. intros [[id d] Hk]. destruct (Hlive _ _ _ Hk) as (i' & r' & Heq & Hi' & Hr' & Hodd & _).
      apply keyAt_inj in Heq as [<- <-]; [|done..]. fold n in Hodd. congruence. }
    rewrite Hnone in Hs. pose proof (dk_ttl _ Ho).
    rewrite decide_False in Hs by lia.
    assert (Hroom : Z.of_nat (size t) < do_keyCount o * do_connections o).
    { apply (leases_room _ (keyAt o index r)); [|pose proof (keyAt_range o index r Ho Hi Hr); lia|done].
      intros k [[id d] Hk]. destruct (Hlive _ _ _ Hk) as (i' & r' & -> & Hi' & Hr' & _).
      pose proof (keyAt_range o i' r' Ho Hi' Hr'). lia. }
    rewrite decide_False in Hs by lia. injection Hs as -> ->. split_and!.
    + eexists. split; [apply u64_range|]. right. eexists. split; [|done]. unfold maxTTLMS in *. in_range.
    + intros k Hk. by rewrite lookup_insert_ne.
    + intros id d. rewrite lookup_insert_eq. by intros [= <- <-].
  - simpl in Hs. unfold specRelease in Hs. simpl in Hs. injection Hs as -> ->. split_and!; [eexists; split; [apply u64_range|by left]|..].
    + intros k Hk. destruct (t !! keyAt o index r) as [[id d]|]; [|done]. case_decide; [|done]. by rewrite lookup_delete_ne.
    + intros id d. destruct (t !! keyAt o index r) as [[id' d']|] eqn:Hk; [|by rewrite Hk].
      destruct (Hlive _ _ _ Hk) as (i' & r' & Heq & _ & Hr' & _ & Hid). apply keyAt_inj in Heq as [<- <-]; [|done..].
      rewrite decide_True by done. by rewrite lookup_delete_eq.
Qed.

Lemma doneOf_insert (m : measurement) index r i' r' s now answers n :
  doneOf (mkMeasurement s now (<[(index, r) := n]> (me_done m)) answers) i' r' =
    if decide (i' = index /\ r' = r) then n else doneOf m i' r'.
Proof.
  unfold doneOf. simpl. rewrite lookup_insert. repeat case_decide; naive_solver.
Qed.

Lemma measure_step_inv m m' : dummy_ok o -> measure_step m m' -> measure_inv m -> measure_inv m'.
Proof.
  intros Ho Hstep [H1 H2 H3 H4 H5]. destruct Hstep as [index r now got s' response Hi Hr Hnow _ Hsub|now s' Hnow Hc].
  - destruct (submitOperation_active hash (me_server m) (keyOperation index r (doneOf m index r)) now got)
      as (s1 & r1 & Hs1 & Hinv & Hlife & Hspec); [done..| |].
    { unfold keyOperation, pairAcquire, pairRelease. pose proof (dk_ttl _ Ho). destruct (Nat.even _); simpl; lia. }
    rewrite Hs1 in Hsub. injection Hsub as -> ->. pose proof (si_ttl _ _ H1) as Hmt.
    destruct (keyOperation_spec m index r now _ _ _ _ Ho H4 Hi Hr Hnow (proj1 Hmt) H3 Hspec) as (Hok & Hother & Hkey).
    destruct (lifecycle_config _ _ Hlife) as [Hcfg _]. split; simpl.
    + done.
    + by rewrite (lifecycle_phase _ _ Hlife).
    + by rewrite Hcfg.
    + intros k id d Hk. simpl in Hk. destruct (decide (k = keyAt o index r)) as [->|Hne].
      * destruct (Hkey id d Hk) as [Hev ->]. exists index, r. rewrite doneOf_insert, decide_True by done.
        split_and!; try done; try lia; [by rewrite Nat.even_succ, <- Nat.negb_even, Hev|].
        unfold keySequence. do 2 f_equal. f_equal. apply Nat.even_spec in Hev as [q Hq]. rewrite Hq.
        replace (S (2 * q)) with (1 + q * 2)%nat by lia. rewrite Nat.mul_comm, Nat.div_mul, Nat.div_add by lia. done.
      * rewrite Hother in Hk by done. apply (live_later _ _ _ _ _ Hnow), H4 in Hk as (i' & r' & -> & Hi' & Hr' & Hodd & Hid).
        exists i', r'. rewrite doneOf_insert. rewrite decide_False; [done|]. by intros [-> ->].
    + apply Forall_app. split; [done|]. by constructor.
  - unfold cleanupTick, active in Hc. rewrite bool_decide_eq_true_2 in Hc by done.
    destruct (removeExpiredKeys_spec hash (me_server m) now H1) as (s1 & Hs1 & Hinv & Hlife & _ & _ & Htab).
    rewrite Hs1 in Hc. injection Hc as <-. destruct (lifecycle_config _ _ Hlife) as [Hcfg _]. split; simpl.
    + done.
    + by rewrite (lifecycle_phase _ _ Hlife).
    + by rewrite Hcfg.
    + intros k id d Hk. simpl in Hk. rewrite Htab, live_live in Hk. apply (H4 k id d). by eapply live_later.
    + done.
Qed.

Lemma measure_reachable_inv m : dummy_ok o -> measure_reachable m -> measure_inv m.
Proof.
  intros Ho. induction 1 as [s now Hr Hp Ht Hk|m m' _ IH Hs]; [|by eapply measure_step_inv].
  split; simpl; try done; [by apply reachable_run_inv in Hr as [? _]|].
  intros k id d Hl. simpl in Hl. rewrite Ht in Hl. by apply live_Some in Hl as [? _].
Qed.

End Measurement.

(** ** Counting the answers *)

Section Counting.
Context `{FlatBuffersLaws}.

Lemma fbFinish_wellFramed t : schemaTable t -> wellFramed (fbFinish t).
Proof. intros Ht. destruct (fb_prefix t Ht) as (payload & ? & ?). by exists payload. Qed.

Lemma okAnswer_frame r : okAnswer r -> exists frame, encodeResponse r = Some frame /\ wellFramed frame /\ DecodeResponse frame = Some r.
Proof.
  intros (id & Hid & Hr).
  assert (Hf : exists frame, encodeResponse r = Some frame /\ wellFramed frame).
  { destruct Hr as [->|(ttl & Httl & ->)]; eexists; (split; [reflexivity|]); apply fbFinish_wellFramed;
      (apply schemaTable_insert; [eauto with wire|lia|..]); unfold CreateReleaseResponse, CreateAcquireResponse, prependByte, prependUint64, pad.
    all: repeat first [rewrite Forall_app|split|apply leBytes_u8|apply Forall_replicate; in_range|by constructor].
    all: rewrite ?length_app, ?length_leBytes, ?length_replicate; simpl; lia. }
  destruct Hf as (frame & He & Hw). exists frame. split_and!; [done..|]. apply decode_encode_response; [| |done].
  - destruct Hr as [->|(ttl & Httl & ->)]; split; simpl; unfold LeaseStatusOK, ClientOperationACQUIRE, ClientOperationRELEASE; in_range.
  - destruct Hr as [->|(ttl & Httl & ->)]; split; simpl; unfold LeaseStatusOK, ClientOperationACQUIRE, ClientOperationRELEASE, ClientOperationGET_TTL in *; by intros.
Qed.

(** How many of the answers are to an operation. *)
Definition answersTo (operation : Z) (answers : list Response) : nat :=
  length (filter (fun r => Operation r = operation) answers).

Lemma receive_counts answers frames done_ e counters :
  Forall okAnswer answers -> Forall2 (fun r frame => encodeResponse r = Some frame) answers frames ->
  is_u64 (co_acquires counters) -> is_u64 (co_releases counters) ->
  exists r, receiveResponses (length frames) (mkReader (done_ ++ concat frames) e (length done_)) counters =
    (r, inr (mkCounters (u64 (co_acquires counters + Z.of_nat (answersTo ClientOperationACQUIRE answers)))
                        (u64 (co_releases counters + Z.of_nat (answersTo ClientOperationRELEASE answers))))).
Proof.
  intros Hok Hf. revert done_ counters. induction Hf as [|x frame answers frames Hx _ IH]; intros done_ counters Ha Hr0.
  { eexists. simpl. rewrite !Z.add_0_r, !u64_small by done. by destruct counters. }
  apply Forall_cons_1 in Hok as [Hok1 Hok]. destruct (okAnswer_frame x Hok1) as (frame' & He & Hw & Hd).
  rewrite Hx in He. injection He as <-. simpl. rewrite ReadFrame_wellFramed by done. rewrite Hd.
  destruct Hok1 as (id & Hid & [->|(ttl & Httl & ->)]); unfold countResponse; simpl.
  - destruct (IH Hok frame (mkCounters (co_acquires counters) (u64 (co_releases counters + 1)))) as (r & Hr);
      [done|apply u64_range|]. exists r. rewrite Hr. do 3 f_equal. simpl. unfold u64. rewrite Zplus_mod_idemp_l. f_equal.
    change (answersTo ClientOperationRELEASE (_ :: answers)) with (S (answersTo ClientOperationRELEASE answers)). lia.
  - destruct (IH Hok frame (mkCounters (u64 (co_acquires counters + 1)) (co_releases counters))) as (r & Hr);
      [apply u64_range|done|]. exists r. rewrite Hr. do 3 f_equal. simpl. unfold u64. rewrite Zplus_mod_idemp_l. f_equal.
    change (answersTo ClientOperationACQUIRE (_ :: answers)) with (S (answersTo ClientOperationACQUIRE answers)). lia.
Qed.

End Counting.

(** ** Theorems *)

Lemma pairID_small s : 1 <= s < 2 ^ 63 -> pairID s = 2 * s - 1.
Proof. intros Hs. unfold pairID. rewrite (u64_small (s * 2)) by in_range. rewrite u64_small by in_range. lia. Qed.

Lemma keySequence_pair o (i : nat) :
  0 < do_keyCount o ->
  let q := Z.to_nat (Z.of_nat i / do_keyCount o) in
  keySequence o (Z.of_nat i mod do_keyCount o) (2 * q) = Z.of_nat i + 1 /\
  keySequence o (Z.of_nat i mod do_keyCount o) (2 * q + 1) = Z.of_nat i + 1.
Proof.
  intros Hk q. unfold keySequence.
  assert (Hq : Z.of_nat q = Z.of_nat i / do_keyCount o) by (unfold q; rewrite Z2Nat.id; [done|apply Z.div_pos; lia]).
  pose proof (Z.div_mod (Z.of_nat i) (do_keyCount o) ltac:(lia)).
  assert (H2 : (2 * q / 2 = q)%nat) by (rewrite Nat.mul_comm; by apply Nat.div_mul).
  assert (H3 : ((2 * q + 1) / 2 = q)%nat) by (rewrite (Nat.mul_comm 2), Nat.div_add_l by done; simpl; lia).
  rewrite H2, H3, Hq. lia.
Qed.

(** A connection of the raw client sends what it means to. Whatever fails and
    whenever it is told to stop: the bytes it wrote are the two frames of each
    pair it took, in order, with at most a part of one more pair once the sender
    has ended; the pairs are numbered from 1 without gap; and the server decodes
    the frames of pair i to the Acquire and then the Release, with identifiers
    2i+1 and 2i+2, that are the next two operations on the key i modulo the number
    of keys of the connection's own range, which neither wraps around nor contains
    the key 0 of the readiness check. *)
Theorem dummy_requests_in_order `{FlatBuffersLaws} o bootID index c :
  dummy_typed o -> checkOptions o = inr o -> is_u32 bootID -> Z.of_nat index < do_connections o ->
  conn_reachable o bootID index c -> Z.of_nat (length (dc_produced c)) < 2 ^ 63 ->
  (exists partial, written (dc_writer c) = concat (pairFrames o bootID <$> dc_taken c) ++ partial /\
     (dc_send c <> dsEnded -> partial = [])) /\
  dc_taken c `prefix_of` dc_produced c /\
  forall i p, dc_produced c !! i = Some p ->
    let r := Z.of_nat i mod do_keyCount o in
    let q := Z.to_nat (Z.of_nat i / do_keyCount o) in
    let acquire := keyOperation o bootID index r (2 * q) in
    let release := keyOperation o bootID index r (2 * q + 1) in
    pairFrames o bootID p = acquireFrame (2 * Z.of_nat i + 1) (keyAt o index r) bootID (Z.of_nat i + 1) (do_ttlMS o) ++
      releaseFrame (2 * Z.of_nat i + 2) (keyAt o index r) bootID (Z.of_nat i + 1) /\
    decodeRequest (acquireFrame (2 * Z.of_nat i + 1) (keyAt o index r) bootID (Z.of_nat i + 1) (do_ttlMS o)) = decodedOperation acquire /\
    decodeRequest (releaseFrame (2 * Z.of_nat i + 2) (keyAt o index r) bootID (Z.of_nat i + 1)) = decodedOperation release /\
    op_kind acquire = operationAcquire /\ op_kind release = operationRelease /\ 0 < keyAt o index r < 2 ^ 64.
Proof.
  intros Ht Hc Hb Hi Hr Hlen. destruct (checkOptions_ok o o Ht Hc) as [_ Ho].
  destruct (conn_reachable_inv _ _ _ _ Hr) as [H1 H2 H3 (hand & Hh & H4) (partial & Hp & H5)].
  split_and!; [exists partial; split; [done|]; intros Hne; by destruct Hp|exists (hand ++ dc_queue c); by rewrite H4|].
  intros i p Hip r q acquire release. pose proof (lookup_lt_Some _ _ _ Hip) as Hlt.
  rewrite H3, list_lookup_fmap, lookup_seq_lt in Hip by lia. simpl in Hip. injection Hip as <-.
  rewrite (u64_small (Z.of_nat i + 1)) by in_range. rewrite pairOf_key by (done || lia).
  replace (Z.of_nat i + 1 - 1) with (Z.of_nat i) by lia. fold r.
  pose proof (keySequence_pair o i (dk_keys _ Ho)) as [Hs1 Hs2]. fold q r in Hs1, Hs2.
  pose proof (keyAt_range o index r Ho Hi (Z.mod_pos_bound _ _ (dk_keys _ Ho))) as Hk. pose proof (dk_space _ Ho) as Hsp.
  set (p := mkPair (keyAt o index r) (Z.of_nat i + 1)).
  destruct (pair_decoded o bootID p Ho Hb) as [Hd1 Hd2]; [unfold p; simpl; in_range..|].
  assert (Hid : pairID (pr_sequence p) = 2 * Z.of_nat i + 1) by (unfold p; simpl; rewrite pairID_small; lia).
  assert (Hid2 : u64 (pairID (pr_sequence p) + 1) = 2 * Z.of_nat i + 2) by (rewrite Hid, u64_small by in_range; lia).
  unfold acquire, release, keyOperation. rewrite !Hs1, !Hs2, Nat.even_add, Nat.even_mul. simpl (Nat.even 2 || _). simpl (eqb _ _).
  fold p. split_and!; try done; try lia.
  - unfold pairFrames. by rewrite Hid2, Hid.
  - by rewrite <- Hd1, Hid.
  - by rewrite <- Hd2, Hid2.
Qed.

Definition demoOptions : dummyOptions := mkDummyOptions [49] 1 1000 1 0 1 2.

Lemma dummy_requests_in_order_witness :
  exists c, conn_reachable (H := plainBuffers) demoOptions 7 1 c /\
    dc_produced c = [mkPair 2 1] /\
    decodeRequest (H := plainBuffers) (acquireFrame (H := plainBuffers) 1 2 7 1 1000) =
      decodedOperation (mkOperation 1 operationAcquire 2 (LeaseID 1 7 1) 1000).
Proof.
  set (c := mkDummyConn 1 2 true [mkPair 2 1] dsOuter newFrameWriter [mkPair 2 1] []).
  assert (Hc : conn_reachable (H := plainBuffers) demoOptions 7 1 c).
  { eapply cn_next; [apply cn_start|]. apply (cn_produce _ _ _ false). reflexivity. }
  exists c. split_and!; [exact Hc|reflexivity|].
  destruct (@dummy_requests_in_order plainBuffers plainBuffers_laws demoOptions 7 1 c) as (_ & _ & Hp);
    [split; vm_compute; split; congruence|reflexivity|vm_compute; split; congruence|reflexivity|exact Hc|vm_compute; reflexivity|].
  destruct (Hp 0%nat (mkPair 2 1) eq_refl) as (_ & Hd & _). exact Hd.
Defined.


