(* ===== verification/DummyServer.v ===== *)
(** * The stateless benchmark peer (src/cmd/redlease-dummy-server/main.go)

    It answers every request OK from four prepared frames, whose request
    identifier and TTL it overwrites in place. The responses to the requests that
    one read delivered are flushed together. *)

From S2P Require Import Prelude LeaseShard Protocol Server Wire Codec Frame.
From stdpp Require Import base gmap list numbers relations tactics.

#[local] Open Scope Z_scope.

(** ** Writing into a finished buffer *)

(** A write of scalars at a position; [None] is the panic out of range. *)
Definition overwrite (buf : list Z) (off : Z) (bs : list Z) : option (list Z) :=
  if decide (0 <= off /\ off + Z.of_nat (length bs) <= Z.of_nat (length buf))
  then Some (take (Z.to_nat off) buf ++ bs ++ drop (Z.to_nat off + length bs) buf) else None.

(** What the documentation of FlatBuffers says about in-place changes: the layout
    of a buffer depends on the sizes of the fields, not on their values, and a
    write of the size of a field changes that field only. *)
Class FlatBuffersLayout `{FlatBuffers} := {
  fb_root t k bs bs' : schemaTable t -> t !! k = Some bs -> length bs' = length bs -> Forall is_u8 bs' ->
    getUint32 (fbFinish (<[k := bs']> t)) SizeUint32 = getUint32 (fbFinish t) SizeUint32;
  fb_overwrite t k bs bs' n o : schemaTable t -> t !! k = Some bs -> length bs' = length bs -> Forall is_u8 bs' ->
    getUint32 (fbFinish t) SizeUint32 = Some n ->
    fbOffset (fbFinish t) (u32 (n + SizeUint32)) (4 + 2 * Z.of_nat k) = Some o ->
    overwrite (fbFinish t) (u32 (o + u32 (n + SizeUint32))) bs' = Some (fbFinish (<[k := bs']> t))
}.

(** ** Templates *)

(** [responseTemplate]: the frame, and the position of the root table in it. *)
Record responseTemplate := mkTemplate { tp_frame : list Z; tp_root : Z }.

Record templates := mkTemplates {
  tm_acquire : responseTemplate;
  tm_renew : responseTemplate;
  tm_release : responseTemplate;
  tm_getTTL : responseTemplate
}.

Section Peer.
Context `{FlatBuffers}.

(** [None] is a panic. *)
Definition buildTemplate (result maxTTL : Z) : option responseTemplate :=
  let t := ServerResponseAddResult result (ServerResponseAddRequestId 1 ServerResponseStart) in
  t ← (if decide (result = ServerResultACQUIRE) then
         Some (ServerResponseAddAcquire (CreateAcquireResponse LeaseStatusOK maxTTL) t)
       else if decide (result = ServerResultRENEW) then
         Some (ServerResponseAddRenew (CreateRenewResponse LeaseStatusOK maxTTL) t)
       else if decide (result = ServerResultRELEASE) then
         Some (ServerResponseAddRelease (CreateReleaseResponse LeaseStatusOK) t)
       else if decide (result = ServerResultGET_TTL) then
         Some (ServerResponseAddGetTtl (CreateGetTTLResponse maxTTL) t)
       else None);
  let frame := fbFinish t in
  n ← getUint32 frame SizeUint32;
  Some (mkTemplate frame (u32 (n + SizeUint32))).

Definition newTemplates (maxTTL : Z) : option templates :=
  acquire ← buildTemplate ServerResultACQUIRE maxTTL;
  renew ← buildTemplate ServerResultRENEW maxTTL;
  release ← buildTemplate ServerResultRELEASE maxTTL;
  getTTL ← buildTemplate ServerResultGET_TTL maxTTL;
  Some (mkTemplates acquire renew release getTTL).

(** [ServerResponse.MutateRequestId]; [Some None]: the field is absent. *)
Definition MutateRequestId (tp : responseTemplate) (id : Z) : option (option responseTemplate) :=
  o ← fbOffset (tp_frame tp) (tp_root tp) 4;
  if decide (o <> 0) then
    frame ← overwrite (tp_frame tp) (u32 (o + tp_root tp)) (leBytes 8 id);
    Some (Some (mkTemplate frame (tp_root tp)))
  else Some None.

(** [MutateTtlMs] of the struct of an Acquire or a Renew response. *)
Definition MutateTtlMs (tp : responseTemplate) (s : fbRef) (ttl : Z) : option responseTemplate :=
  frame ← overwrite (tp_frame tp) (u32 (Pos s + 8)) (leBytes 8 ttl);
  Some (mkTemplate frame (tp_root tp)).

Inductive peerError := errPeerMalformed | errNoRequestID | errPeerRead | errPeerWrite.

(** The end of [processFrame] on the chosen template. *)
Definition answer (tp : responseTemplate) (request : fbRef) : option (peerError + responseTemplate) :=
  id ← ClientRequest_RequestId request;
  tp ← MutateRequestId tp id;
  Some (match tp with Some tp => inr tp | None => inl errNoRequestID end).

(** [processFrame] up to its write: the templates after it, and the frame it
    writes. A response struct that is missing in a template panics. *)
Definition processFrame (frame : list Z) (ts : templates) (maxTTL : Z) : option (peerError + templates * list Z) :=
  n ← getUint32 frame SizeUint32;
  let request := mkRef frame (u32 (n + SizeUint32)) in
  operation ← ClientRequest_Operation request;
  if decide (operation = ClientOperationACQUIRE) then
    acquire ← ClientRequest_Acquire request;
    match acquire with
    | None => Some (inl errPeerMalformed)
    | Some acquire =>
        response ← ServerResponse_Acquire (mkRef (tp_frame (tm_acquire ts)) (tp_root (tm_acquire ts)));
        s ← response;
        ttl ← AcquireRequest_RequestedTtlMs acquire;
        tp ← MutateTtlMs (tm_acquire ts) s (Z.min ttl maxTTL);
        r ← answer tp request;
        Some (match r with
              | inl e => inl e
              | inr tp => inr (mkTemplates tp (tm_renew ts) (tm_release ts) (tm_getTTL ts), tp_frame tp)
              end)
    end
  else if decide (operation = ClientOperationRENEW) then
    renew ← ClientRequest_Renew request;
    match renew with
    | None => Some (inl errPeerMalformed)
    | Some renew =>
        response ← ServerResponse_Renew (mkRef (tp_frame (tm_renew ts)) (tp_root (tm_renew ts)));
        s ← response;
        ttl ← RenewRequest_RequestedTtlMs renew;
        tp ← MutateTtlMs (tm_renew ts) s (Z.min ttl maxTTL);
        r ← answer tp request;
        Some (match r with
              | inl e => inl e
              | inr tp => inr (mkTemplates (tm_acquire ts) tp (tm_release ts) (tm_getTTL ts), tp_frame tp)
              end)
    end
  else if decide (operation = ClientOperationRELEASE) then
    release ← ClientRequest_Release request;
    match release with
    | None => Some (inl errPeerMalformed)
    | Some _ =>
        r ← answer (tm_release ts) request;
        Some (match r with
              | inl e => inl e
              | inr tp => inr (mkTemplates (tm_acquire ts) (tm_renew ts) tp (tm_getTTL ts), tp_frame tp)
              end)
    end
  else if decide (operation = ClientOperationGET_TTL) then
    r ← answer (tm_getTTL ts) request;
    Some (match r with
          | inl e => inl e
          | inr tp => inr (mkTemplates (tm_acquire ts) (tm_renew ts) (tm_release ts) tp, tp_frame tp)
          end)
  else Some (inl errPeerMalformed).

End Peer.

(** ** Reading and writing *)

Definition bufferBytes : Z := 64 * 1024.

(** A [bufio.Reader]: what it holds, and what each further read of the connection
    will deliver. *)
Record chunkReader := mkChunks { ch_buffer : list Z; ch_input : list (list Z) }.

(** [Peek]: reads until [n] bytes are there; the flag is the error at the end of
    the stream. *)
Fixpoint fillTo (n : nat) (buffer : list Z) (input : list (list Z)) : chunkReader * bool :=
  if decide (n <= length buffer)%nat then (mkChunks buffer input, false)
  else match input with
       | [] => (mkChunks buffer [], true)
       | chunk :: input => fillTo n (buffer ++ chunk) input
       end.

Definition Peek (r : chunkReader) (n : nat) : chunkReader * option (list Z) :=
  match fillTo n (ch_buffer r) (ch_input r) with
  | (r, true) => (r, None)
  | (r, false) => (r, Some (take n (ch_buffer r)))
  end.

(** [readFrame]; [inr None]: no complete frame is buffered. *)
Definition readFrame (r : chunkReader) (bufferedOnly : bool) : chunkReader * (peerError + option (list Z)) :=
  if bufferedOnly && bool_decide (length (ch_buffer r) < 4)%nat then (r, inr None)
  else
    match Peek r 4 with
    | (r, None) => (r, inl errPeerRead)
    | (r, Some prefix) =>
        let size := leVal prefix in
        if decide (size < 4 \/ MaxFrameBytes - 4 < size) then (r, inl errPeerMalformed)
        else if bufferedOnly && bool_decide (length (ch_buffer r) < Z.to_nat size + 4)%nat then (r, inr None)
        else
          match Peek r (Z.to_nat size + 4) with
          | (r, None) => (r, inl errPeerRead)
          | (r, Some frame) => (r, inr (Some frame))
          end
    end.

(** A [bufio.Writer]: [Write] of less than the buffer's size writes the buffer
    out when it is full; [fails] says whether that write fails. *)
Record chunkWriter := mkChunkWriter { cw_sent : list Z; cw_buffer : list Z }.

Definition Write (fails : bool) (w : chunkWriter) (p : list Z) : option chunkWriter :=
  let available := Z.to_nat (bufferBytes - Z.of_nat (length (cw_buffer w))) in
  if decide (length p <= available)%nat then Some (mkChunkWriter (cw_sent w) (cw_buffer w ++ p))
  else if fails then None
  else Some (mkChunkWriter (cw_sent w ++ cw_buffer w ++ take available p) (drop available p)).

Inductive servePC := svRead | svHave (frame : list Z) | svFlush | svEnded (e : peerError).

(** [sv_served] is a history variable: how many requests were processed. *)
Record peerSession := mkPeer {
  sv_reader : chunkReader;
  sv_writer : chunkWriter;
  sv_templates : templates;
  sv_pc : servePC;
  sv_served : nat
}.

Definition setPeer (s : peerSession) (r : chunkReader) (pc : servePC) : peerSession :=
  mkPeer r (sv_writer s) (sv_templates s) pc (sv_served s).

Section Serving.
Context `{FlatBuffers}.

Definition startPeer (maxTTL : Z) (input : list (list Z)) : option peerSession :=
  ts ← newTemplates maxTTL;
  Some (mkPeer (mkChunks [] input) (mkChunkWriter [] []) ts svRead 0).

(** One step of [serveConnection]; a panic is recovered as a malformed frame.
    [fails]: a write or a deadline fails. *)
Definition serveConnection (maxTTL : Z) (fails : bool) (s : peerSession) : option peerSession :=
  match sv_pc s with
  | svEnded _ => None
  | svRead =>
      match readFrame (sv_reader s) false with
      | (r, inl e) => Some (setPeer s r (svEnded e))
      | (r, inr (Some frame)) => Some (setPeer s r (svHave frame))
      | (r, inr None) => Some (setPeer s r (svEnded errPeerMalformed))   (* a nil frame panics *)
      end
  | svHave frame =>
      match processFrame frame (sv_templates s) maxTTL with
      | None => Some (setPeer s (sv_reader s) (svEnded errPeerMalformed))
      | Some (inl e) => Some (setPeer s (sv_reader s) (svEnded e))
      | Some (inr (ts, response)) =>
          match Write fails (sv_writer s) response with
          | None => Some (mkPeer (sv_reader s) (sv_writer s) ts (svEnded errPeerWrite) (sv_served s))
          | Some w =>
              let r := mkChunks (drop (length frame) (ch_buffer (sv_reader s))) (ch_input (sv_reader s)) in
              match readFrame r true with
              | (r, inl e) => Some (mkPeer r w ts (svEnded e) (S (sv_served s)))
              | (r, inr None) => Some (mkPeer r w ts svFlush (S (sv_served s)))
              | (r, inr (Some frame)) => Some (mkPeer r w ts (svHave frame) (S (sv_served s)))
              end
          end
      end
  | svFlush =>
      if fails then Some (setPeer s (sv_reader s) (svEnded errPeerWrite))
      else Some (mkPeer (sv_reader s) (mkChunkWriter (cw_sent (sv_writer s) ++ cw_buffer (sv_writer s)) [])
                   (sv_templates s) svRead (sv_served s))
  end.

Inductive peer_reachable (maxTTL : Z) (input : list (list Z)) : peerSession -> Prop :=
  | pe_start s : startPeer maxTTL input = Some s -> peer_reachable maxTTL input s
  | pe_step s fails s' :
      peer_reachable maxTTL input s -> serveConnection maxTTL fails s = Some s' -> peer_reachable maxTTL input s'.

End Serving.
