(* ===== verification/DummyServerSafety.v ===== *)
(** * Answers of the benchmark peer (src/cmd/redlease-dummy-server/main.go)

    A patched template is the encoding of the answer, a buffered reader hands out
    the frames it was given, and a connection answers its requests in order. *)

From S2P Require Import Prelude LeaseShard Protocol Server Wire Codec Frame DummyServer.
From stdpp Require Import base gmap list numbers relations tactics.

#[local] Open Scope Z_scope.

(** ** Overwriting *)

Lemma overwrite_sub buf p bs i x :
  slice buf p (length bs) = Some bs -> (i + length x <= length bs)%nat ->
  overwrite buf (p + Z.of_nat i) x = overwrite buf p (take i bs ++ x ++ drop (i + length x) bs).
Proof.
  unfold slice, overwrite. case_decide as Hr; [|done]. intros [= Hbs] Hi.
  rewrite decide_True by lia. rewrite decide_True by (rewrite !length_app, length_take, length_drop; lia).
  f_equal. replace (Z.to_nat (p + Z.of_nat i)) with (Z.to_nat p + i)%nat by lia.
  rewrite !length_app, length_take, length_drop.
  replace (Z.to_nat p + (i `min` length bs + (length x + (length bs - (i + length x)))))%nat with (Z.to_nat p + length bs)%nat by lia.
  rewrite <- (take_drop (Z.to_nat p) buf) at 1 2.
  set (pre := take (Z.to_nat p) buf). set (rest := drop (Z.to_nat p) buf) in *.
  assert (Hpre : length pre = Z.to_nat p) by (unfold pre; rewrite length_take; lia).
  rewrite take_app_ge by lia. rewrite drop_app_ge by lia. rewrite Hpre.
  replace (Z.to_nat p + i - Z.to_nat p)%nat with i by lia.
  replace (Z.to_nat p + i + length x - Z.to_nat p)%nat with (i + length x)%nat by lia.
  rewrite <- !app_assoc. f_equal. rewrite <- Hbs at 1. rewrite take_take, Nat.min_l by lia. do 2 f_equal.
  rewrite <- (take_drop (length bs) rest) at 1. rewrite drop_app_le by (rewrite length_take; unfold rest; rewrite length_drop; lia).
  rewrite Hbs. f_equal. unfold rest. by rewrite drop_drop.
Qed.

(** ** Templates *)

(** The table of a template; its identifier is stored even if it is 0. *)
Definition templateTable (id kind : Z) (k : nat) (bs : list Z) : fbTable :=
  <[0%nat := leBytes 8 id]> (<[k := bs]> (<[1%nat := leBytes 1 kind]> ∅)).

Lemma templateTable_schema id kind k bs :
  (k < 6)%nat -> (length bs <= 32)%nat -> Forall is_u8 bs -> schemaTable (templateTable id kind k bs).
Proof.
  intros Hk Hl Hu. unfold templateTable.
  apply schemaTable_insert; [|lia|rewrite length_leBytes; lia|apply leBytes_u8].
  apply schemaTable_insert; [|done..].
  apply schemaTable_insert; [apply schemaTable_empty|lia|rewrite length_leBytes; lia|apply leBytes_u8].
Qed.

Lemma templateTable_id id id' kind k bs : <[0%nat := leBytes 8 id']> (templateTable id kind k bs) = templateTable id' kind k bs.
Proof. unfold templateTable. apply insert_insert_eq. Qed.

Lemma templateTable_struct id kind k bs bs' : k <> 0%nat -> <[k := bs']> (templateTable id kind k bs) = templateTable id kind k bs'.
Proof. intros Hk. unfold templateTable. rewrite insert_insert_ne by done. by rewrite insert_insert_eq. Qed.

Section Templates.
Context `{FlatBuffersLaws} `{!FlatBuffersLayout}.

Definition template_ok (kind : Z) (k : nat) (bs : list Z) (tp : responseTemplate) : Prop :=
  exists id n, is_u64 id /\ tp_frame tp = fbFinish (templateTable id kind k bs) /\
    getUint32 (tp_frame tp) SizeUint32 = Some n /\ tp_root tp = u32 (n + SizeUint32).

(** A field of a template is overwritten. *)
Lemma template_overwrite t k bs bs' tp n :
  schemaTable t -> (k < 6)%nat -> t !! k = Some bs -> length bs' = length bs -> Forall is_u8 bs' ->
  tp_frame tp = fbFinish t -> getUint32 (fbFinish t) SizeUint32 = Some n -> tp_root tp = u32 (n + SizeUint32) ->
  exists o, fbOffset (tp_frame tp) (tp_root tp) (4 + 2 * Z.of_nat k) = Some o /\ o <> 0 /\
    overwrite (tp_frame tp) (u32 (o + tp_root tp)) bs' = Some (fbFinish (<[k := bs']> t)) /\
    getUint32 (fbFinish (<[k := bs']> t)) SizeUint32 = Some n /\
    structAt (mkRef (tp_frame tp) (u32 (o + tp_root tp))) bs.
Proof.
  intros Ht Hk Hl Hlen Hu Hf Hn Hroot. destruct (fb_slots t Ht) as (n' & Hn' & Hslots).
  rewrite Hn in Hn'. injection Hn' as <-. destruct (Hslots k Hk) as (o & Ho & Hm). rewrite Hl in Hm.
  destruct Hm as (Hne & Hs & Hlt). exists o. rewrite Hf, Hroot. split_and!; try done.
  - by eapply fb_overwrite.
  - rewrite <- Hn. by eapply fb_root.
  - split_and!; [|done..]. simpl. unfold u32. apply Z.mod_pos_bound. lia.
Qed.

Lemma MutateRequestId_ok kind k bs tp id :
  template_ok kind k bs tp -> (2 <= k < 6)%nat -> (length bs <= 32)%nat -> Forall is_u8 bs -> is_u64 id ->
  exists tp', MutateRequestId tp id = Some (Some tp') /\ template_ok kind k bs tp' /\
    tp_frame tp' = fbFinish (templateTable id kind k bs).
Proof.
  intros (id0 & n & Hid0 & Hf & Hn & Hroot) Hk Hl Hu Hid.
  destruct (template_overwrite (templateTable id0 kind k bs) 0 (leBytes 8 id0) (leBytes 8 id) tp n)
    as (o & Ho & Hne & Hw & Hn' & _);
    [apply templateTable_schema; [lia|done..]|lia|by apply lookup_insert_eq|by rewrite !length_leBytes|apply leBytes_u8|done
    |by rewrite <- Hf|done|].
  rewrite templateTable_id in Hw, Hn'. unfold MutateRequestId. change (4 + 2 * Z.of_nat 0) with 4 in Ho. rewrite Ho. cbn [mbind option_bind].
  rewrite decide_True, Hw by done. cbn [mbind option_bind]. eexists. split_and!; [done| |done]. by exists id, n.
Qed.

(** The struct of a timed response gets another TTL. *)
Lemma MutateTtlMs_ok kind k ttl0 tp ttl :
  template_ok kind k (CreateAcquireResponse LeaseStatusOK ttl0) tp -> (2 <= k < 6)%nat ->
  exists s tp', structField (4 + 2 * Z.of_nat k) (mkRef (tp_frame tp) (tp_root tp)) = Some (Some s) /\
    MutateTtlMs tp s ttl = Some tp' /\ template_ok kind k (CreateAcquireResponse LeaseStatusOK ttl) tp'.
Proof.
  intros (id & n & Hid & Hf & Hn & Hroot) Hk. set (bs := CreateAcquireResponse LeaseStatusOK ttl0) in *.
  set (bs' := CreateAcquireResponse LeaseStatusOK ttl).
  destruct (response_struct_ok LeaseStatusOK ttl0) as [Hl Hu]. destruct (response_struct_ok LeaseStatusOK ttl) as [Hl' Hu'].
  assert (Hlen : length bs = 16%nat) by reflexivity.
  destruct (template_overwrite (templateTable id kind k bs) k bs bs' tp n)
    as (o & Ho & Hne & Hw & Hn' & Hp & Hlt & Hs);
    [apply templateTable_schema; [lia|done..]|lia| |done|done|done|by rewrite <- Hf|done|].
  { unfold templateTable. rewrite lookup_insert_ne by lia. by apply lookup_insert_eq. }
  rewrite templateTable_struct in Hw, Hn' by lia. cbn [Pos Bytes] in Hp, Hlt, Hs.
  exists (mkRef (tp_frame tp) (u32 (o + tp_root tp))). unfold structField. simpl Bytes. simpl Pos. rewrite Ho. cbn [mbind option_bind].
  rewrite decide_True by done. unfold MutateTtlMs. simpl Pos.
  rewrite Hlen in Hlt. rewrite (u32_add (u32 (o + tp_root tp)) 8) by lia. change 8 with (Z.of_nat 8) at 1. rewrite (overwrite_sub _ _ bs 8) by done.
  change (take 8 bs ++ leBytes 8 ttl ++ drop (8 + length (leBytes 8 ttl)) bs) with bs'. rewrite Hw. cbn [mbind option_bind].
  eexists. split_and!; [done..|]. by exists id, n.
Qed.

(** ** One request *)

(** The answer to a request: OK, with the requested TTL up to the maximum. *)
Definition dummyAnswer (maxTTL : Z) (r : outboundConnectionRequest) : Response :=
  mkResponse (req_requestID r) (req_operation r) LeaseStatusOK
    (if decide (req_operation r = ClientOperationRELEASE) then 0
     else if decide (req_operation r = ClientOperationGET_TTL) then maxTTL
     else Z.min (req_ttlMS r) maxTTL).

Record templates_ok (maxTTL : Z) (ts : templates) : Prop := {
  to_acquire : exists ttl, template_ok ServerResultACQUIRE 2 (CreateAcquireResponse LeaseStatusOK ttl) (tm_acquire ts);
  to_renew : exists ttl, template_ok ServerResultRENEW 3 (CreateAcquireResponse LeaseStatusOK ttl) (tm_renew ts);
  to_release : template_ok ServerResultRELEASE 4 (CreateReleaseResponse LeaseStatusOK) (tm_release ts);
  to_getTTL : template_ok ServerResultGET_TTL 5 (CreateGetTTLResponse maxTTL) (tm_getTTL ts)
}.

Lemma buildTemplate_ok result maxTTL k bs :
  ServerResultACQUIRE <= result <= ServerResultGET_TTL -> (2 <= k < 6)%nat -> (length bs <= 32)%nat -> Forall is_u8 bs ->
  (k, bs) = (if decide (result = ServerResultACQUIRE) then (2%nat, CreateAcquireResponse LeaseStatusOK maxTTL)
             else if decide (result = ServerResultRENEW) then (3%nat, CreateRenewResponse LeaseStatusOK maxTTL)
             else if decide (result = ServerResultRELEASE) then (4%nat, CreateReleaseResponse LeaseStatusOK)
             else (5%nat, CreateGetTTLResponse maxTTL)) ->
  exists tp, buildTemplate result maxTTL = Some tp /\ template_ok result k bs tp.
Proof.
  intros Hr Hk Hl Hu Hkb. unfold ServerResultACQUIRE, ServerResultRENEW, ServerResultRELEASE, ServerResultGET_TTL in *.
  destruct (fb_slots (templateTable 1 result k bs)) as (n & Hn & _); [apply templateTable_schema; [lia|done..]|].
  exists (mkTemplate (fbFinish (templateTable 1 result k bs)) (u32 (n + SizeUint32))). split.
  - assert (Ht : <[k := bs]> (<[1%nat := leBytes 1 result]> (<[0%nat := leBytes 8 1]> ∅)) = templateTable 1 result k bs).
    { unfold templateTable. rewrite (insert_insert_ne _ 1%nat 0%nat) by lia. by rewrite (insert_insert_ne _ k 0%nat) by lia. }
    unfold buildTemplate, ServerResponseAddResult, ServerResponseAddRequestId, PrependByteSlot, PrependUint64Slot, ServerResponseStart.
    rewrite (decide_False (P := result = 0)) by lia. rewrite (decide_False (P := 1 = 0)) by lia.
    unfold ServerResultACQUIRE, ServerResultRENEW, ServerResultRELEASE, ServerResultGET_TTL.
    repeat case_decide; try lia; injection Hkb as -> ->; cbn [mbind option_bind];
      unfold ServerResponseAddAcquire, ServerResponseAddRenew, ServerResponseAddRelease, ServerResponseAddGetTtl, PrependStructSlot;
      rewrite Ht, Hn; done.
  - exists 1, n. split_and!; try done.
Qed.

Lemma newTemplates_ok maxTTL : exists ts, newTemplates maxTTL = Some ts /\ templates_ok maxTTL ts.
Proof.
  destruct (response_struct_ok LeaseStatusOK maxTTL) as [Hl Hu].
  destruct (buildTemplate_ok ServerResultACQUIRE maxTTL 2 (CreateAcquireResponse LeaseStatusOK maxTTL)) as (t1 & E1 & ?); try done; try lia.
  destruct (buildTemplate_ok ServerResultRENEW maxTTL 3 (CreateAcquireResponse LeaseStatusOK maxTTL)) as (t2 & E2 & ?); try done; try lia.
  destruct (buildTemplate_ok ServerResultRELEASE maxTTL 4 (CreateReleaseResponse LeaseStatusOK)) as (t3 & E3 & ?); try done; try (simpl; lia);
    [apply Forall_app; split; [apply leBytes_u8|by constructor]|].
  destruct (buildTemplate_ok ServerResultGET_TTL maxTTL 5 (CreateGetTTLResponse maxTTL)) as (t4 & E4 & ?); try done; try (simpl; lia);
    [apply Forall_app; split; [apply leBytes_u8|by constructor]|].
  exists (mkTemplates t1 t2 t3 t4). unfold newTemplates. rewrite E1, E2, E3, E4. split; [done|]. split; eauto.
Qed.

Lemma template_reads id kind k bs :
  is_u64 id -> is_u8 kind -> (2 <= k < 6)%nat -> (length bs <= 32)%nat -> Forall is_u8 bs ->
  exists root s, GetSizePrefixedRootAsServerResponse (fbFinish (templateTable id kind k bs)) = Some root /\
    uint64Field 4 root = Some id /\ byteField 6 root = Some kind /\
    structField (4 + 2 * Z.of_nat k) root = Some (Some s) /\ structAt s bs.
Proof.
  intros Hid Hkind Hk Hl Hu. destruct (root_readsBack (templateTable id kind k bs)) as (root & Hr & Hrb);
    [apply templateTable_schema; [lia|done..]|].
  destruct (rb_struct _ _ Hrb k bs) as (s & Hs & Hsa); [lia|unfold templateTable; rewrite lookup_insert_ne by lia; by apply lookup_insert_eq|].
  exists root, s. split_and!; try done.
  - apply (rb_uint64 _ _ Hrb 0); [lia|done|by apply lookup_insert_eq].
  - apply (rb_byte _ _ Hrb 1); [lia|done|]. unfold templateTable. rewrite !lookup_insert_ne by lia. by apply lookup_insert_eq.
Qed.

(** The fields of a request frame that the peer reads. *)
Lemma request_reads r :
  request_typed r -> ClientOperationACQUIRE <= req_operation r <= ClientOperationGET_TTL ->
  exists root, GetSizePrefixedRootAsClientRequest (encodeRequest r) = Some root /\
    uint64Field 4 root = Some (req_requestID r) /\ byteField 6 root = Some (req_operation r) /\
    (req_operation r = ClientOperationACQUIRE -> exists s, structField 8 root = Some (Some s) /\ uint64At 24 s = Some (req_ttlMS r)) /\
    (req_operation r = ClientOperationRENEW -> exists s, structField 10 root = Some (Some s) /\ uint64At 24 s = Some (req_ttlMS r)) /\
    (req_operation r = ClientOperationRELEASE -> exists s, structField 12 root = Some (Some s)).
Proof.
  intros [Hid Hkey Hseq Httl Hcl Hboot] Hop.
  unfold ClientOperationACQUIRE, ClientOperationRENEW, ClientOperationRELEASE, ClientOperationGET_TTL in *.
  assert (H8 : Forall is_u8 (leBytes 8 (req_ttlMS r))) by apply leBytes_u8.
  assert (Hk : is_u8 (req_operation r)) by in_range.
  unfold encodeRequest, ClientOperationACQUIRE, ClientOperationRENEW, ClientOperationRELEASE.
  repeat case_decide; match goal with |- context [fbFinish ?t] => set (frame := fbFinish t) end.
  1,2,3: destruct (decode_request_struct frame (req_requestID r) (req_operation r) (Z.to_nat (req_operation r + 1)) (req_key r)
      (req_clientID r) (req_bootID r) (req_sequence r) (if decide (req_operation r = 3) then [] else leBytes 8 (req_ttlMS r)))
      as (root & s & Hroot & E0 & E1 & E2 & E3 & E4 & E5 & E6 & E7); try done; try lia;
      [by case_decide; simpl; lia|by case_decide|unfold frame; by match goal with Hq : req_operation _ = _ |- _ => rewrite Hq end|];
      exists root; split_and!; try done; try lia; intros Hq; exists s; rewrite Hq in *; try (split; [exact E2|]); try exact E2;
      by apply E7.
  set (t := ClientRequestAddOperation (req_operation r) (ClientRequestAddRequestId (req_requestID r) ClientRequestStart)) in frame.
  destruct (root_readsBack t) as (root & Hr & Hrb).
  { unfold t, ClientRequestAddOperation, ClientRequestAddRequestId. auto with wire. }
  exists root. split_and!; try done; try lia.
  - destruct (decide (req_requestID r = 0)) as [Hz|Hz].
    + rewrite Hz. apply (rb_absent64 _ _ Hrb 0); [lia|]. unfold t, ClientRequestAddOperation, ClientRequestAddRequestId, PrependByteSlot, PrependUint64Slot.
      rewrite (decide_True (P := req_requestID r = 0)) by done. case_decide; [done|]. by rewrite lookup_insert_ne.
    + apply (rb_uint64 _ _ Hrb 0); [lia|done|]. unfold t, ClientRequestAddOperation, ClientRequestAddRequestId, PrependByteSlot, PrependUint64Slot.
      rewrite (decide_False (P := req_requestID r = 0)) by done. case_decide; rewrite ?lookup_insert_ne by done; by apply lookup_insert_eq.
  - apply (rb_byte _ _ Hrb 1); [lia|done|]. unfold t, ClientRequestAddOperation, PrependByteSlot.
    rewrite decide_False by lia. by apply lookup_insert_eq.
Qed.

Lemma fbFinish_framed t : schemaTable t -> wellFramed (fbFinish t).
Proof. intros Ht. destruct (fb_prefix t Ht) as (payload & ? & ?). by exists payload. Qed.

(** The frames of the templates, decoded by a client. *)
Lemma timed_template_decodes id kind k ttl :
  is_u64 id -> is_u64 ttl -> (kind = ServerResultACQUIRE /\ k = 2%nat) \/ (kind = ServerResultRENEW /\ k = 3%nat) ->
  let frame := fbFinish (templateTable id kind k (CreateAcquireResponse LeaseStatusOK ttl)) in
  wellFramed frame /\ DecodeResponse frame = Some (mkResponse id kind LeaseStatusOK ttl).
Proof.
  intros Hid Httl Hk frame. destruct (response_struct_ok LeaseStatusOK ttl) as [Hl Hu].
  assert (Hkk : (2 <= k < 6)%nat /\ is_u8 kind)
    by (destruct Hk as [[-> ->]|[-> ->]]; unfold ServerResultACQUIRE, ServerResultRENEW; split; (lia || in_range)).
  destruct Hkk as [Hk26 Hkind]. split; [apply fbFinish_framed, templateTable_schema; [lia|done..]|].
  destruct (template_reads id kind k (CreateAcquireResponse LeaseStatusOK ttl)) as (root & s & Hroot & E0 & E1 & E2 & Hsa); [done..|].
  destruct (response_struct_reads s LeaseStatusOK ttl Hsa) as [E3 E4]; [unfold LeaseStatusOK; in_range|done|].
  unfold DecodeResponse, decodeResponseBody. fold frame in Hroot.
  destruct Hk as [[-> ->]|[-> ->]]; change (4 + 2 * Z.of_nat 2) with 8 in E2; change (4 + 2 * Z.of_nat 3) with 10 in E2;
    read_with Hroot.
Qed.

Lemma release_template_decodes id :
  is_u64 id -> let frame := fbFinish (templateTable id ServerResultRELEASE 4 (CreateReleaseResponse LeaseStatusOK)) in
  wellFramed frame /\ DecodeResponse frame = Some (mkResponse id ClientOperationRELEASE LeaseStatusOK 0).
Proof.
  intros Hid frame. assert (Hu : Forall is_u8 (CreateReleaseResponse LeaseStatusOK))
    by (apply Forall_app; split; [apply leBytes_u8|by constructor]).
  split; [apply fbFinish_framed, templateTable_schema; [lia|simpl; lia|done]|].
  destruct (template_reads id ServerResultRELEASE 4 (CreateReleaseResponse LeaseStatusOK)) as (root & s & Hroot & E0 & E1 & E2 & Hsa);
    [done|unfold ServerResultRELEASE; in_range|lia|simpl; lia|done|].
  assert (E3 : byteAt 0 s = Some LeaseStatusOK)
    by (eapply (structAt_byte s _ 0); [exact Hsa|simpl; lia|reflexivity|unfold LeaseStatusOK; in_range]).
  change (4 + 2 * Z.of_nat 4) with 12 in E2. unfold DecodeResponse, decodeResponseBody. fold frame in Hroot. read_with Hroot.
Qed.

Lemma getTTL_template_decodes id maxTTL :
  is_u64 id -> is_u64 maxTTL -> let frame := fbFinish (templateTable id ServerResultGET_TTL 5 (CreateGetTTLResponse maxTTL)) in
  wellFramed frame /\ DecodeResponse frame = Some (mkResponse id ClientOperationGET_TTL LeaseStatusOK maxTTL).
Proof.
  intros Hid Hmax frame. assert (Hu : Forall is_u8 (CreateGetTTLResponse maxTTL))
    by (apply Forall_app; split; [apply leBytes_u8|by constructor]).
  split; [apply fbFinish_framed, templateTable_schema; [lia|simpl; lia|done]|].
  destruct (template_reads id ServerResultGET_TTL 5 (CreateGetTTLResponse maxTTL)) as (root & s & Hroot & E0 & E1 & E2 & Hsa);
    [done|unfold ServerResultGET_TTL; in_range|lia|simpl; lia|done|].
  assert (E3 : uint64At 0 s = Some maxTTL) by (eapply (structAt_uint64 s _ 0); [exact Hsa|simpl; lia|reflexivity|done]).
  change (4 + 2 * Z.of_nat 5) with 14 in E2. unfold DecodeResponse, decodeResponseBody. fold frame in Hroot. read_with Hroot.
Qed.

Lemma answer_ok kind k bs tp request id :
  template_ok kind k bs tp -> (2 <= k < 6)%nat -> (length bs <= 32)%nat -> Forall is_u8 bs -> is_u64 id ->
  uint64Field 4 request = Some id ->
  exists tp', answer tp request = Some (inr tp') /\ template_ok kind k bs tp' /\ tp_frame tp' = fbFinish (templateTable id kind k bs).
Proof.
  intros Htp Hk Hl Hu Hid Hf. destruct (MutateRequestId_ok kind k bs tp id Htp Hk Hl Hu Hid) as (tp' & Hm & Hok & Hframe).
  exists tp'. unfold answer, ClientRequest_RequestId. rewrite Hf. cbn [mbind option_bind]. rewrite Hm. done.
Qed.

Lemma processFrame_spec maxTTL r ts :
  is_u64 maxTTL -> request_typed r -> ClientOperationACQUIRE <= req_operation r <= ClientOperationGET_TTL -> templates_ok maxTTL ts ->
  exists ts' frame, processFrame (encodeRequest r) ts maxTTL = Some (inr (ts', frame)) /\ templates_ok maxTTL ts' /\
    wellFramed frame /\ DecodeResponse frame = Some (dummyAnswer maxTTL r).
Proof.
  intros Hmax Hr Hop [(t1 & H1') (t2 & H2') H3' H4']. pose proof (rt_id _ Hr) as Hid. pose proof (rt_ttl _ Hr) as Httl.
  destruct (request_reads r Hr Hop) as (root & Hroot & E0 & E1 & EA & ER & EL).
  unfold GetSizePrefixedRootAsClientRequest in Hroot.
  destruct (getUint32 (encodeRequest r) SizeUint32) as [n|] eqn:Hn; [|done]. cbn [mbind option_bind] in Hroot. injection Hroot as <-.
  assert (Hmin : is_u64 (Z.min (req_ttlMS r) maxTTL)) by in_range.
  destruct (response_struct_ok LeaseStatusOK (Z.min (req_ttlMS r) maxTTL)) as [Hl Hu].
  unfold processFrame. rewrite Hn. cbn [mbind option_bind]. unfold ClientRequest_Operation. rewrite E1. cbn [mbind option_bind].
  unfold dummyAnswer, ClientRequest_Acquire, ClientRequest_Renew, ClientRequest_Release, ServerResponse_Acquire,
    ServerResponse_Renew, AcquireRequest_RequestedTtlMs, RenewRequest_RequestedTtlMs.
  destruct (decide (req_operation r = ClientOperationACQUIRE)) as [Ha|Ha];
    [|destruct (decide (req_operation r = ClientOperationRENEW)) as [Hb|Hb];
      [|destruct (decide (req_operation r = ClientOperationRELEASE)) as [Hc|Hc];
        [|destruct (decide (req_operation r = ClientOperationGET_TTL)) as [Hd|Hd]]]].
  - destruct (EA Ha) as (s & -> & Es). destruct (MutateTtlMs_ok _ 2 t1 (tm_acquire ts) (Z.min (req_ttlMS r) maxTTL) H1')
      as (s' & tp & Hs' & Hm & Htp); [lia|]. change (4 + 2 * Z.of_nat 2) with 8 in Hs'.
    destruct (answer_ok _ 2 _ tp _ (req_requestID r) Htp ltac:(lia) Hl Hu Hid E0) as (tp' & Hans & Htp' & Hf).
    cbn [mbind option_bind]. rewrite Hs'. cbn [mbind option_bind]. rewrite Es. cbn [mbind option_bind]. rewrite Hm. cbn [mbind option_bind].
    rewrite Hans. cbn [mbind option_bind]. eexists _, _. split; [reflexivity|]. split; [split; simpl; eauto|].
    rewrite Hf, Ha, !decide_False by done. by apply timed_template_decodes; [..|left].
  - destruct (ER Hb) as (s & -> & Es). destruct (MutateTtlMs_ok _ 3 t2 (tm_renew ts) (Z.min (req_ttlMS r) maxTTL) H2')
      as (s' & tp & Hs' & Hm & Htp); [lia|]. change (4 + 2 * Z.of_nat 3) with 10 in Hs'.
    destruct (answer_ok _ 3 _ tp _ (req_requestID r) Htp ltac:(lia) Hl Hu Hid E0) as (tp' & Hans & Htp' & Hf).
    cbn [mbind option_bind]. rewrite Hs'. cbn [mbind option_bind]. rewrite Es. cbn [mbind option_bind]. rewrite Hm. cbn [mbind option_bind].
    rewrite Hans. cbn [mbind option_bind]. eexists _, _. split; [reflexivity|]. split; [split; simpl; eauto|].
    rewrite Hf, Hb, !decide_False by done. by apply timed_template_decodes; [..|right].
  - destruct (EL Hc) as (s & ->). destruct (answer_ok _ 4 _ (tm_release ts) (mkRef (encodeRequest r) (u32 (n + SizeUint32)))
      (req_requestID r) H3' ltac:(lia)) as (tp' & Hans & Htp' & Hf); [simpl; lia|apply Forall_app; split; [apply leBytes_u8|by constructor]|done..|].
    cbn [mbind option_bind]. rewrite Hans. cbn [mbind option_bind]. eexists _, _. split; [reflexivity|]. split; [split; simpl; eauto|].
    rewrite Hf, Hc. by apply release_template_decodes.
  - destruct (answer_ok _ 5 _ (tm_getTTL ts) (mkRef (encodeRequest r) (u32 (n + SizeUint32)))
      (req_requestID r) H4' ltac:(lia)) as (tp' & Hans & Htp' & Hf); [simpl; lia|apply Forall_app; split; [apply leBytes_u8|by constructor]|done..|].
    rewrite Hans. cbn [mbind option_bind]. eexists _, _. split; [reflexivity|]. split; [split; simpl; eauto|].
    rewrite Hf, Hd. by apply getTTL_template_decodes.
  - exfalso. unfold ClientOperationACQUIRE, ClientOperationRENEW, ClientOperationRELEASE, ClientOperationGET_TTL in *. lia.
Qed.

End Templates.

(** ** A connection *)

Lemma fillTo_spec n buffer input r e :
  fillTo n buffer input = (r, e) ->
  ch_buffer r ++ concat (ch_input r) = buffer ++ concat input /\ buffer `prefix_of` ch_buffer r /\
  if e : bool then (length (buffer ++ concat input) < n)%nat else (n <= length (ch_buffer r))%nat.
Proof.
  revert buffer. induction input as [|chunk input IH]; intros buffer Hf; simpl in Hf; case_decide as Hd; simplify_eq.
  - done.
  - simpl. rewrite app_nil_r. split_and!; [done..|lia].
  - done.
  - apply IH in Hf as (H1 & H2 & H3). simpl. rewrite <- app_assoc in H1, H3. split_and!; [done| |done].
    etrans; [|exact H2]. by exists chunk.
Qed.

Lemma Peek_spec r n r' o :
  Peek r n = (r', o) ->
  ch_buffer r' ++ concat (ch_input r') = ch_buffer r ++ concat (ch_input r) /\ ch_buffer r `prefix_of` ch_buffer r' /\
  match o with
  | Some bs => bs = take n (ch_buffer r ++ concat (ch_input r)) /\ (n <= length (ch_buffer r'))%nat
  | None => (length (ch_buffer r ++ concat (ch_input r)) < n)%nat
  end.
Proof.
  unfold Peek. destruct (fillTo _ _ _) as [r1 e] eqn:Hf. apply fillTo_spec in Hf as (H1 & H2 & H3).
  destruct e; intros [= <- <-]; [done|]. split_and!; try done. rewrite <- H1. by rewrite take_app_le.
Qed.

(** [readFrame] on a stream that starts with a frame, and on one that has ended. *)
Lemma readFrame_frame r bufferedOnly f rest r' x :
  wellFramed f -> ch_buffer r ++ concat (ch_input r) = f ++ rest -> readFrame r bufferedOnly = (r', x) ->
  ch_buffer r' ++ concat (ch_input r') = f ++ rest /\
  ((x = inr None /\ bufferedOnly = true) \/ (x = inr (Some f) /\ (length f <= length (ch_buffer r'))%nat)).
Proof.
  intros Hw Hs Hr. pose proof (wellFramed_length f Hw) as Hlen. destruct Hw as (p & Hp & Hsize). unfold readFrame in Hr.
  destruct (bufferedOnly && bool_decide (length (ch_buffer r) < 4)%nat) eqn:Hb.
  { injection Hr as <- <-. split; [done|]. left. by apply andb_true_iff in Hb as [-> _]. }
  destruct (Peek r 4) as [r1 o1] eqn:H1. apply Peek_spec in H1 as (H1 & _ & Ho1). rewrite Hs in *.
  destruct o1 as [prefix|]; [|rewrite length_app in Ho1; lia]. destruct Ho1 as [Hpre _].
  assert (Hpv : leVal prefix = Z.of_nat (length p)).
  { rewrite Hpre, Hp, <- app_assoc, take_app_length' by (by rewrite length_leBytes).
    apply leVal_leBytes. unfold SizeUOffsetT, MaxFrameBytes, SizeUint32 in *. simpl. lia. }
  rewrite Hpv in Hr. unfold SizeUOffsetT, MaxFrameBytes, SizeUint32 in *. rewrite decide_False in Hr by lia.
  assert (Hn : (Z.to_nat (Z.of_nat (length p)) + 4 = length f)%nat) by (rewrite Hp, length_app, length_leBytes; lia).
  rewrite Hn in Hr. destruct (bufferedOnly && bool_decide (length (ch_buffer r1) < length f)%nat) eqn:Hb2.
  { injection Hr as <- <-. split; [done|]. left. by apply andb_true_iff in Hb2 as [-> _]. }
  destruct (Peek r1 (length f)) as [r2 o2] eqn:H2. apply Peek_spec in H2 as (H2 & _ & Ho2). rewrite H1 in *.
  destruct o2 as [frame|]; [|rewrite length_app in Ho2; lia]. destruct Ho2 as [-> Hle]. injection Hr as <- <-.
  split; [done|]. right. by rewrite take_app_length.
Qed.

Lemma readFrame_end r bufferedOnly r' x :
  ch_buffer r ++ concat (ch_input r) = [] -> readFrame r bufferedOnly = (r', x) ->
  ch_buffer r' ++ concat (ch_input r') = [] /\ x = (if bufferedOnly then inr None else inl errPeerRead).
Proof.
  intros Hs Hr. apply app_eq_nil in Hs as [Hb Hi]. unfold readFrame in Hr. rewrite Hb in Hr. destruct bufferedOnly; simpl in Hr.
  { injection Hr as <- <-. by rewrite Hb, Hi. }
  destruct (Peek r 4) as [r1 o1] eqn:H1. apply Peek_spec in H1 as (H1 & _ & Ho1). rewrite Hb, Hi in *.
  destruct o1 as [prefix|]; [|by injection Hr as <- <-].
  destruct Ho1 as [_ Hle]. apply (f_equal length) in H1. rewrite length_app in H1. simpl in H1. lia.
Qed.

Lemma Write_spec fails w p w' :
  Write fails w p = Some w' -> (length p <= 1024)%nat -> Z.of_nat (length (cw_buffer w)) <= bufferBytes ->
  cw_sent w' ++ cw_buffer w' = (cw_sent w ++ cw_buffer w) ++ p /\ Z.of_nat (length (cw_buffer w')) <= bufferBytes.
Proof.
  unfold Write, bufferBytes. intros Hw Hp Hb. case_decide as Hd; [injection Hw as <-|destruct fails; [done|injection Hw as <-]]; simpl.
  - rewrite length_app. split; [by rewrite app_assoc|lia].
  - rewrite length_drop. split; [|lia]. by rewrite <- !app_assoc, take_drop.
Qed.

Section Stream.
Context `{FlatBuffersLaws} `{!FlatBuffersLayout}.
Context (maxTTL : Z) (requests : list outboundConnectionRequest).

Definition request_ok (r : outboundConnectionRequest) : Prop :=
  request_typed r /\ ClientOperationACQUIRE <= req_operation r <= ClientOperationGET_TTL.

(** A frame that a client decodes to the answer of a request. *)
Definition answered (r : outboundConnectionRequest) (frame : list Z) : Prop :=
  wellFramed frame /\ DecodeResponse frame = Some (dummyAnswer maxTTL r).

Lemma encodeRequest_framed r : wellFramed (encodeRequest r).
Proof.
  unfold encodeRequest. apply fbFinish_framed.
  assert (Hhead : schemaTable (ClientRequestAddOperation (req_operation r) (ClientRequestAddRequestId (req_requestID r) ClientRequestStart)))
    by (unfold ClientRequestAddOperation, ClientRequestAddRequestId; auto with wire).
  assert (H8 : Forall is_u8 (leBytes 8 (req_ttlMS r))) by apply leBytes_u8.
  repeat case_decide; [..|done]; (apply schemaTable_insert; [done|lia|..]).
  1,3: apply (request_struct_ok _ _ _ _ (leBytes 8 (req_ttlMS r) ++ [])); rewrite ?app_nil_r; by rewrite ?length_leBytes.
  1,2: apply (request_struct_ok _ _ _ _ (leBytes 8 (req_ttlMS r) ++ [])); rewrite ?app_nil_r; by rewrite ?length_leBytes.
  all: apply (request_struct_ok _ _ _ _ []); by simpl; try lia.
Qed.

Record peer_inv (s : peerSession) : Prop := {
  pi_served : (sv_served s <= length requests)%nat;
  pi_stream : ch_buffer (sv_reader s) ++ concat (ch_input (sv_reader s)) =
    concat (drop (sv_served s) (encodeRequest <$> requests));
  pi_templates : templates_ok maxTTL (sv_templates s);
  pi_answers : exists frames, Forall2 answered (take (sv_served s) requests) frames /\
    cw_sent (sv_writer s) ++ cw_buffer (sv_writer s) = concat frames;
  pi_buffer : Z.of_nat (length (cw_buffer (sv_writer s))) <= bufferBytes;
  pi_pc : match sv_pc s with
          | svRead => cw_buffer (sv_writer s) = []
          | svHave f => (encodeRequest <$> requests) !! sv_served s = Some f /\ (length f <= length (ch_buffer (sv_reader s)))%nat
          | svFlush => True
          | svEnded e => (e = errPeerRead /\ sv_served s = length requests /\ cw_buffer (sv_writer s) = []) \/ e = errPeerWrite
          end
}.

(** The stream at the next request. *)
Lemma stream_next n :
  (n <= length requests)%nat ->
  match (encodeRequest <$> requests) !! n with
  | Some f => wellFramed f /\ concat (drop n (encodeRequest <$> requests)) = f ++ concat (drop (S n) (encodeRequest <$> requests))
  | None => n = length requests /\ concat (drop n (encodeRequest <$> requests)) = []
  end.
Proof.
  intros Hn. destruct ((encodeRequest <$> requests) !! n) as [f|] eqn:Hf.
  - split; [|by rewrite (drop_S _ _ _ Hf)].
    rewrite list_lookup_fmap in Hf. apply fmap_Some in Hf as (r & _ & ->). apply encodeRequest_framed.
  - apply lookup_ge_None in Hf. rewrite length_fmap in Hf. split; [lia|]. rewrite drop_ge; [done|]. rewrite length_fmap. lia.
Qed.

Lemma peer_step_inv fails s s' :
  is_u64 maxTTL -> Forall request_ok requests -> serveConnection maxTTL fails s = Some s' -> peer_inv s -> peer_inv s'.
Proof.
  intros Hmax Hreq Hs [P1 P2 P3 (frames & P4 & P4') P5 P6]. unfold serveConnection in Hs.
  pose proof (stream_next (sv_served s) P1) as Hnext. destruct (sv_pc s) as [|f| |e] eqn:Hpc; [..|done].
  - destruct (readFrame (sv_reader s) false) as [r x] eqn:Hr.
    destruct ((encodeRequest <$> requests) !! sv_served s) as [f|] eqn:Hf.
    + destruct Hnext as [Hw Hc]. rewrite Hc in P2.
      destruct (readFrame_frame _ _ _ _ _ _ Hw P2 Hr) as [P2' [[_ ?]|[-> Hle]]]; [done|]. injection Hs as <-.
      split; simpl; eauto. by rewrite Hc.
    + destruct Hnext as [Hn Hc]. rewrite Hc in P2. destruct (readFrame_end _ _ _ _ P2 Hr) as [P2' ->]. injection Hs as <-.
      split; simpl; eauto. by rewrite Hc.
  - destruct P6 as [Hf Hle]. rewrite Hf in Hnext. destruct Hnext as [Hw Hc].
    rewrite list_lookup_fmap in Hf. apply fmap_Some in Hf as (rq & Hrq & ->).
    assert (Hok : request_ok rq) by (by eapply Forall_lookup_1). destruct Hok as [Hty Hop].
    destruct (processFrame_spec maxTTL rq (sv_templates s) Hmax Hty Hop P3) as (ts & response & Hp & Hts & Hwf & Hdec).
    rewrite Hp in Hs. destruct (Write fails (sv_writer s) response) as [w|] eqn:Hwr;
      [|injection Hs as <-; split; simpl; eauto].
    destruct (Write_spec _ _ _ _ Hwr) as [Hout Hbuf]; [apply wellFramed_length in Hwf; lia|done|].
    set (n := sv_served s) in *. set (r0 := mkChunks _ _) in Hs.
    assert (P2' : ch_buffer r0 ++ concat (ch_input r0) = concat (drop (S n) (encodeRequest <$> requests))).
    { simpl. rewrite Hc in P2. apply (f_equal (drop (length (encodeRequest rq)))) in P2.
      rewrite drop_app_length, drop_app_le in P2 by done. done. }
    assert (Hans : exists frames', Forall2 answered (take (S n) requests) frames' /\ cw_sent w ++ cw_buffer w = concat frames').
    { exists (frames ++ [response]). rewrite (take_S_r _ _ rq) by done. split; [apply Forall2_app; [done|by constructor]|].
      by rewrite Hout, P4', concat_app; simpl; rewrite app_nil_r. }
    pose proof (lookup_lt_Some _ _ _ Hrq) as Hlt. pose proof (stream_next (S n) Hlt) as Hnext.
    destruct (readFrame r0 true) as [r x] eqn:Hr. destruct ((encodeRequest <$> requests) !! S n) as [f|] eqn:Hf.
    + destruct Hnext as [Hw' Hc']. rewrite Hc' in P2'.
      destruct (readFrame_frame _ _ _ _ _ _ Hw' P2' Hr) as [P2'' [[-> _]|[-> Hle']]]; injection Hs as <-;
        split; simpl; eauto; by rewrite Hc'.
    + destruct Hnext as [Hn' Hc']. rewrite Hc' in P2'. destruct (readFrame_end _ _ _ _ P2' Hr) as [P2'' ->]. injection Hs as <-.
      split; simpl; eauto. by rewrite Hc'.
  - destruct fails; injection Hs as <-; split; simpl; eauto; [|unfold bufferBytes; lia].
    exists frames. by rewrite app_nil_r.
Qed.

Lemma peer_reachable_inv input s :
  is_u64 maxTTL -> Forall request_ok requests -> concat input = concat (encodeRequest <$> requests) ->
  peer_reachable maxTTL input s -> peer_inv s.
Proof.
  intros Hmax Hreq Hin. induction 1 as [s Hs|s fails s' _ IH Hs]; [|by eapply peer_step_inv].
  unfold startPeer in Hs. destruct (newTemplates_ok maxTTL) as (ts & Hts & Hok). rewrite Hts in Hs. injection Hs as <-.
  split; simpl; try done; [lia|exists []; by split; [constructor|]].
Qed.

End Stream.

(** ** The plain layout *)

Lemma overwrite_app (a x x' c : list Z) :
  length x' = length x -> overwrite (a ++ x ++ c) (Z.of_nat (length a)) x' = Some (a ++ x' ++ c).
Proof.
  intros Hl. unfold overwrite. rewrite decide_True by (rewrite !length_app; lia). rewrite Nat2Z.id, take_app_length.
  do 3 f_equal. rewrite app_assoc, drop_app_length'; [done|]. rewrite length_app. lia.
Qed.

(** The parts of a plain buffer around one of its blocks. *)
Lemma plain_split t k :
  schemaTable t -> (k < 6)%nat ->
  exists a c, length a = (8 + 33 * k)%nat /\
    forall t', schemaTable t' -> (forall j, j <> k -> t' !! j = t !! j) ->
      fbFinish (FlatBuffers := plainBuffers) t' = a ++ plainBlock t' k ++ c.
Proof.
  intros Ht Hk. exists (leBytes 4 202 ++ leBytes 4 4 ++ mjoin (plainBlock t <$> seq 0 k)), (mjoin (plainBlock t <$> seq (S k) (5 - k))).
  assert (Hblocks : forall l, length (mjoin (plainBlock t <$> l)) = (33 * length l)%nat).
  { intros l. induction l as [|j l IH]; [done|]. rewrite fmap_cons. simpl. rewrite length_app, length_plainBlock by done.
    rewrite IH. lia. }
  split.
  - rewrite !length_app, !length_leBytes, Hblocks, length_seq. lia.
  - intros t' Ht' Hother. rewrite plain_finish, length_plainPayload by done. unfold plainPayload.
    change (Z.of_nat 202) with 202. rewrite <- !app_assoc. do 2 f_equal.
    replace 6%nat with (k + S (5 - k))%nat at 1 by lia. rewrite seq_app, fmap_app, join_app, Nat.add_0_l.
    change (seq k (S (5 - k))) with (k :: seq (S k) (5 - k)). rewrite fmap_cons.
    change (mjoin (plainBlock t' k :: (plainBlock t' <$> seq (S k) (5 - k)))) with
      (plainBlock t' k ++ mjoin (plainBlock t' <$> seq (S k) (5 - k))).
    assert (Hsame : forall l, k ∉ l -> mjoin (plainBlock t' <$> l) = mjoin (plainBlock t <$> l)).
    { intros l Hl. f_equal. apply list_fmap_ext. intros i j Hj. unfold plainBlock. rewrite Hother; [done|].
      intros ->. apply Hl. by eapply list_elem_of_lookup_2. }
    rewrite (Hsame (seq 0 k)) by (rewrite elem_of_seq; lia). by rewrite (Hsame (seq (S k) (5 - k))) by (rewrite elem_of_seq; lia).
Qed.

Lemma plain_root t : schemaTable t -> getUint32 (fbFinish (FlatBuffers := plainBuffers) t) SizeUint32 = Some 4.
Proof.
  intros Ht. unfold getUint32, slice, SizeUint32. rewrite length_plain_finish by done. by rewrite decide_True by lia.
Qed.

#[export] Instance plainBuffers_layout : FlatBuffersLayout (H := plainBuffers).
Proof.
  assert (Hins : forall (t : fbTable) k bs bs', schemaTable t -> t !! k = Some bs -> length bs' = length bs -> Forall is_u8 bs' ->
    schemaTable (<[k := bs']> t)).
  { intros t k bs bs' Ht Hk Hl Hu. destruct (Ht k bs Hk) as (? & ? & _). apply schemaTable_insert; [done..|lia|done]. }
  split.
  - intros t k bs bs' Ht Hk Hl Hu. rewrite !plain_root by eauto. done.
  - intros t k bs bs' n o Ht Hk Hl Hu Hn Ho. pose proof (Ht k bs Hk) as (Hk6 & Hl32 & _). pose proof (Hins t k bs bs' Ht Hk Hl Hu) as Ht'.
    rewrite plain_root in Hn by done. injection Hn as <-. change (u32 (4 + SizeUint32)) with 8 in *.
    destruct (plain_split t k Ht Hk6) as (a & c & Ha & Hall). rewrite (Hall t), (Hall (<[k := bs']> t)) by (done || by intros; rewrite lookup_insert_ne).
    rewrite (Hall t) in Ho by done. unfold plainBlock in *. rewrite Hk in *. rewrite lookup_insert_eq.
    assert (Hoff : o = 33 * Z.of_nat k + 1).
    { cbn [fbOffset plainBuffers] in Ho. replace ((4 + 2 * Z.of_nat k - 4) / 2) with (Z.of_nat k) in Ho
        by (replace (4 + 2 * Z.of_nat k - 4) with (Z.of_nat k * 2) by lia; by rewrite Z.div_mul).
      unfold getByte, slice in Ho. rewrite decide_True in Ho by (rewrite !length_app; simpl; lia).
      replace (Z.to_nat (8 + 33 * Z.of_nat k)) with (length a) in Ho by lia. rewrite drop_app_length in Ho. simpl in Ho.
      by injection Ho as <-. }
    subst o. rewrite (u32_add (33 * Z.of_nat k + 1) 8) by lia. rewrite Hl.
    replace (33 * Z.of_nat k + 1 + 8) with (Z.of_nat (length (a ++ [1]))) by (rewrite length_app; simpl; lia).
    pose proof (overwrite_app (a ++ [1]) bs bs' (replicate (32 - length bs) 0 ++ c) Hl) as Hov.
    rewrite <- !app_assoc in Hov. simpl in *. rewrite <- !app_assoc. exact Hov.
Qed.

(** ** Theorems *)

(** The benchmark peer answers every request, in order and without delay.
    Whatever sizes the reads deliver the frames of well-formed requests in: what
    the peer has written, together with what waits in its buffer, are frames that
    a client decodes to the answers of the requests served so far, in their order,
    each with its identifier, the status OK and the requested TTL up to the
    maximum, although all answers to one operation share one prepared frame; when
    it waits for input nothing is left in its buffer; and its connection ends only
    when a write fails or when the input has ended and everything is answered. *)
Theorem dummy_server_answers `{FlatBuffersLaws} `{!FlatBuffersLayout} maxTTL requests input s :
  is_u64 maxTTL -> Forall request_ok requests -> concat input = concat (encodeRequest <$> requests) ->
  peer_reachable maxTTL input s ->
  (exists frames, cw_sent (sv_writer s) ++ cw_buffer (sv_writer s) = concat frames /\
     Forall2 (fun r frame => wellFramed frame /\ DecodeResponse frame = Some (dummyAnswer maxTTL r))
       (take (sv_served s) requests) frames) /\
  (sv_pc s = svRead -> cw_buffer (sv_writer s) = []) /\
  (forall e, sv_pc s = svEnded e -> e = errPeerWrite \/
     (e = errPeerRead /\ sv_served s = length requests /\ cw_buffer (sv_writer s) = [])).
Proof.
  intros Hmax Hreq Hin Hr. destruct (peer_reachable_inv maxTTL requests input s Hmax Hreq Hin Hr) as [_ _ _ (frames & Hf & Ho) _ Hpc].
  split_and!.
  - exists frames. done.
  - intros Hp. by rewrite Hp in Hpc.
  - intros e Hp. rewrite Hp in Hpc. destruct Hpc; auto.
Qed.

Definition demoPeerRequest : outboundConnectionRequest := mkOutbound 9 77 3 2500 12 5 ClientOperationACQUIRE.

Lemma dummy_server_answers_witness :
  exists s, peer_reachable (H := plainBuffers) 1000 [encodeRequest (H := plainBuffers) demoPeerRequest] s /\
    sv_pc s = svRead /\ sv_served s = 1%nat /\
    exists frame, cw_sent (sv_writer s) = frame /\
      DecodeResponse (H := plainBuffers) frame = Some (mkResponse 9 ClientOperationACQUIRE LeaseStatusOK 1000).
Proof.
  set (input := [encodeRequest (H := plainBuffers) demoPeerRequest]).
  destruct (startPeer (H := plainBuffers) 1000 input) as [s0|] eqn:H0; [|vm_compute in H0; discriminate].
  assert (R0 : peer_reachable (H := plainBuffers) 1000 input s0) by (apply pe_start; exact H0).
  destruct (serveConnection (H := plainBuffers) 1000 false s0) as [s1|] eqn:H1; [|vm_compute in H0; injection H0 as <-; vm_compute in H1; discriminate].
  assert (R1 : peer_reachable (H := plainBuffers) 1000 input s1) by (eapply pe_step; [exact R0|exact H1]).
  destruct (serveConnection (H := plainBuffers) 1000 false s1) as [s2|] eqn:H2;
    [|vm_compute in H0; injection H0 as <-; vm_compute in H1; injection H1 as <-; vm_compute in H2; discriminate].
  assert (R2 : peer_reachable (H := plainBuffers) 1000 input s2) by (eapply pe_step; [exact R1|exact H2]).
  destruct (serveConnection (H := plainBuffers) 1000 false s2) as [s3|] eqn:H3;
    [|vm_compute in H0; injection H0 as <-; vm_compute in H1; injection H1 as <-; vm_compute in H2; injection H2 as <-; vm_compute in H3; discriminate].
  assert (R3 : peer_reachable (H := plainBuffers) 1000 input s3) by (eapply pe_step; [exact R2|exact H3]).
  assert (Hs3 : sv_pc s3 = svRead /\ sv_served s3 = 1%nat).
  { clear R0 R1 R2 R3. vm_compute in H0; injection H0 as <-; vm_compute in H1; injection H1 as <-; vm_compute in H2; injection H2 as <-.
    vm_compute in H3. injection H3 as <-. split; reflexivity. }
  destruct Hs3 as [Hpc Hn]. exists s3. split_and!; [exact R3|exact Hpc|exact Hn|].
  destruct (@dummy_server_answers plainBuffers plainBuffers_laws plainBuffers_layout 1000 [demoPeerRequest] input s3)
    as ((frames & Hout & Hf) & Hb & _).
  - vm_compute. split; congruence.
  - repeat constructor; vm_compute; congruence.
  - reflexivity.
  - exact R3.
  - rewrite Hn in Hf. rewrite (Hb Hpc) in Hout. inversion Hf as [|? frame ? rest [_ Hd] Hrest]; subst.
    inversion Hrest; subst. exists frame. simpl in Hout. rewrite !app_nil_r in Hout. split; [exact Hout|exact Hd].
Defined.
