(* ===== verification/CommandFlags.v ===== *)
(** * The command lines of the load generator and of the benchmark commands
    (src/cmd/redlease-load/main.go, src/cmd/redlease-dummy-client/main.go,
    src/cmd/redlease-dummy-server/main.go)

    The flags of each command, its whole option parsing from the arguments on, and
    that the printed values of the flags are read back. Arguments are lists of
    code points. *)

From stdpp Require Import base gmap sets list numbers strings.
From S2P Require Import Prelude GoText GoFlags GoFlagsSpec.
From S2P Require Import Quorum Client1of1 Client LoadOptions LoadOptionsSafety.
From S2P Require Import GoHeap LeaseShard Protocol Server Wire Codec Frame Generation DummyClient DummyClientSafety.

#[local] Open Scope Z_scope.

(** ** redlease-load *)

Definition defaultClients : text := bytesOf "2,4,8,16,32".
Definition defaultLeases : text := bytesOf "16,32,64,128,256".
Definition defaultTTLMS : Z := 1000.
Definition defaultTimeoutMS : Z := 1000.

Definition defaultFlags : flagValues :=
  mkFlags (bytesOf "both") quorum1of1 [] [] [] [] defaultClients defaultLeases (5 * Second) (10 * Millisecond)
    defaultTTLMS defaultTimeoutMS 0.

(** The flags, in the order of their definitions; [unspecified] is the result of
    converting a number that does not fit in [time.ParseDuration]. *)
Definition loadFlags (unspecified : Z) : list (flagDef flagValues) := [
  mkFlag (bytesOf "client") (fun v f => Some (mkFlags v (fQuorum f) (fTargets f) (fEtcdEndpoint f) (fEtcdPrefix f)
    (fMetricsListen f) (fClients f) (fLeases f) (fDuration f) (fHold f) (fTTL f) (fResponseTimeout f) (fSettle f)));
  mkFlag (bytesOf "quorum") (fun v f => Some (mkFlags (fClient f) v (fTargets f) (fEtcdEndpoint f) (fEtcdPrefix f)
    (fMetricsListen f) (fClients f) (fLeases f) (fDuration f) (fHold f) (fTTL f) (fResponseTimeout f) (fSettle f)));
  mkFlag (bytesOf "targets") (fun v f => Some (mkFlags (fClient f) (fQuorum f) v (fEtcdEndpoint f) (fEtcdPrefix f)
    (fMetricsListen f) (fClients f) (fLeases f) (fDuration f) (fHold f) (fTTL f) (fResponseTimeout f) (fSettle f)));
  mkFlag (bytesOf "etcd-endpoint") (fun v f => Some (mkFlags (fClient f) (fQuorum f) (fTargets f) v (fEtcdPrefix f)
    (fMetricsListen f) (fClients f) (fLeases f) (fDuration f) (fHold f) (fTTL f) (fResponseTimeout f) (fSettle f)));
  mkFlag (bytesOf "etcd-prefix") (fun v f => Some (mkFlags (fClient f) (fQuorum f) (fTargets f) (fEtcdEndpoint f) v
    (fMetricsListen f) (fClients f) (fLeases f) (fDuration f) (fHold f) (fTTL f) (fResponseTimeout f) (fSettle f)));
  mkFlag (bytesOf "metrics-listen") (fun v f => Some (mkFlags (fClient f) (fQuorum f) (fTargets f) (fEtcdEndpoint f)
    (fEtcdPrefix f) v (fClients f) (fLeases f) (fDuration f) (fHold f) (fTTL f) (fResponseTimeout f) (fSettle f)));
  mkFlag (bytesOf "clients") (fun v f => Some (mkFlags (fClient f) (fQuorum f) (fTargets f) (fEtcdEndpoint f)
    (fEtcdPrefix f) (fMetricsListen f) v (fLeases f) (fDuration f) (fHold f) (fTTL f) (fResponseTimeout f) (fSettle f)));
  mkFlag (bytesOf "leases-per-client") (fun v f => Some (mkFlags (fClient f) (fQuorum f) (fTargets f) (fEtcdEndpoint f)
    (fEtcdPrefix f) (fMetricsListen f) (fClients f) v (fDuration f) (fHold f) (fTTL f) (fResponseTimeout f) (fSettle f)));
  mkFlag (bytesOf "duration") (fun v f => d ← ParseDuration unspecified v;
    Some (mkFlags (fClient f) (fQuorum f) (fTargets f) (fEtcdEndpoint f) (fEtcdPrefix f) (fMetricsListen f)
      (fClients f) (fLeases f) d (fHold f) (fTTL f) (fResponseTimeout f) (fSettle f)));
  mkFlag (bytesOf "hold") (fun v f => d ← ParseDuration unspecified v;
    Some (mkFlags (fClient f) (fQuorum f) (fTargets f) (fEtcdEndpoint f) (fEtcdPrefix f) (fMetricsListen f)
      (fClients f) (fLeases f) (fDuration f) d (fTTL f) (fResponseTimeout f) (fSettle f)));
  mkFlag (bytesOf "ttl-ms") (fun v f => n ← ParseUint0 64 v;
    Some (mkFlags (fClient f) (fQuorum f) (fTargets f) (fEtcdEndpoint f) (fEtcdPrefix f) (fMetricsListen f)
      (fClients f) (fLeases f) (fDuration f) (fHold f) n (fResponseTimeout f) (fSettle f)));
  mkFlag (bytesOf "response-timeout-ms") (fun v f => n ← ParseUint10 32 v;
    Some (mkFlags (fClient f) (fQuorum f) (fTargets f) (fEtcdEndpoint f) (fEtcdPrefix f) (fMetricsListen f)
      (fClients f) (fLeases f) (fDuration f) (fHold f) (fTTL f) (u32 n) (fSettle f)));
  mkFlag (bytesOf "settle") (fun v f => d ← ParseDuration unspecified v;
    Some (mkFlags (fClient f) (fQuorum f) (fTargets f) (fEtcdEndpoint f) (fEtcdPrefix f) (fMetricsListen f)
      (fClients f) (fLeases f) (fDuration f) (fHold f) (fTTL f) (fResponseTimeout f) d))
].

(** [parseOptions] on the arguments of the process. *)
Definition parseLoadOptions (unspecified : Z) (args : list text) : (argumentError + optionError) + options :=
  match noPositional (Parse (loadFlags unspecified) args defaultFlags) with
  | inl e => inl (inl e)
  | inr f => match parseOptions f with inl e => inl (inr e) | inr o => inr o end
  end.

Example load_command_line :
  match parseLoadOptions 0 [bytesOf "-targets=10.0.0.1:7000"; bytesOf "--clients"; bytesOf "2,8"; bytesOf "-duration=1.5s"] with
  | inr o => clientCounts o = [2; 8] /\ duration o = 1500000000 /\ targets o = [bytesOf "10.0.0.1:7000"]
  | inl _ => False
  end.
Proof. vm_compute. done. Qed.

(** The text of each flag. *)
Definition loadShows : list (flagValues -> text) := [
  fClient; fQuorum; fTargets; fEtcdEndpoint; fEtcdPrefix; fMetricsListen; fClients; fLeases;
  nanoseconds ∘ fDuration; nanoseconds ∘ fHold; decimal ∘ fTTL; decimal ∘ fResponseTimeout; nanoseconds ∘ fSettle
].

Definition printedLoadFlags (unspecified : Z) : list (printedFlag flagValues) :=
  zip_with mkPrinted (loadFlags unspecified) loadShows.

(** The fields at their widths. *)
Definition load_typed (f : flagValues) : Prop := flags_typed f /\ is_i64 (fDuration f) /\ is_i64 (fHold f).

(** How the values of the flags are read back. *)
Ltac read_values :=
  rewrite ?ParseDuration_nanoseconds, ?ParseUint0_decimal, ?ParseInt0_decimal, ?ParseUint10_decimal by in_range;
  simpl; rewrite ?u32_small by done.

(** Names of flags are good and distinct by computation. *)
Ltac good_names :=
  unfold goodFlags; repeat first [apply Forall_nil_2 | apply Forall_cons_2];
  (split; [by apply (bool_decide_eq_true_1 _); vm_compute|do 2 eexists; split; [reflexivity|done]]).

(** The fields a configuration shows determine it. *)
Ltac shown_fields Heq :=
  rewrite <- list.Forall_forall in Heq; simpl in Heq;
  repeat match type of Heq with Forall _ (_ :: _) => apply Forall_cons in Heq as [? Heq] end;
  unfold compose in *; simpl in *;
  f_equal; first [done | apply decimal_inj; [in_range..|done] | apply nanoseconds_inj; [in_range..|done]
                  | apply signedDecimal_inj; [in_range..|done]].

#[export] Instance load_printed unspecified : PrintedFlags load_typed (printedLoadFlags unspecified).
Proof.
  split.
  - change (pf_flag <$> printedLoadFlags unspecified) with (loadFlags unspecified). good_names.
  - change ((fun p => pf_name p) <$> printedLoadFlags unspecified) with (flag_name <$> loadFlags 0).
    apply (bool_decide_eq_true_1 _). vm_compute. reflexivity.
  - intros p c cur Hp ([H1 H2 H3] & H4 & H5) ([T1 T2 T3] & T4 & T5). revert p Hp. each_flag.
    all: printed_flag ltac:(read_values).
  - intros a b ([A1 A2 A3] & A4 & A5) ([B1 B2 B3] & B4 & B5) Heq. unfold printedLoadFlags in Heq.
    destruct a, b; simpl in *. shown_fields Heq.
Qed.

(** A flag preserves the widths of the fields. *)
Ltac flag_typed :=
  simpl; repeat match goal with
  | |- context [ParseUint0 64 ?v] =>
      destruct (ParseUint0 64 v) as [?|] eqn:Hn; [apply ParseUint0_range in Hn; simpl|done]
  | |- context [ParseUint10 32 ?v] =>
      destruct (ParseUint10 32 v) as [?|] eqn:Hn; [apply ParseUint10_range in Hn; [simpl; rewrite u32_small by done|lia]|done]
  | |- context [ParseDuration ?u ?v] =>
      destruct (ParseDuration u v) as [?|] eqn:Hn; [apply ParseDuration_range in Hn; simpl|done]
  | |- context [ParseInt0 ?v] =>
      destruct (ParseInt0 v) as [?|] eqn:Hn; [apply ParseInt0_range in Hn; simpl|done]
  end; intros [= <-].

Lemma load_flags_typed unspecified args f rest :
  Parse (loadFlags unspecified) args defaultFlags = inr (f, rest) -> load_typed f.
Proof.
  intros Hp. eapply Parse_preserves in Hp; [done| |].
  - repeat first [apply Forall_nil_2 | apply Forall_cons_2]; intros v a b ([H1 H2 H3] & H4 & H5); flag_typed;
      (split; [split; done|split; done]).
  - split; [split|split]; by vm_compute.
Qed.

(** ** redlease-dummy-client *)

Definition defaultTarget : text := bytesOf "127.0.0.1:17379".

Definition defaultDummyOptions : dummyOptions :=
  mkDummyOptions defaultTarget 1024 1000 (10 * Second) Second (10 * Second) 1.

Definition dummyFlags (unspecified : Z) : list (flagDef dummyOptions) := [
  mkFlag (bytesOf "target") (fun v o => Some (mkDummyOptions v (do_keyCount o) (do_ttlMS o) (do_duration o) (do_warmup o)
    (do_readyTimeout o) (do_connections o)));
  mkFlag (bytesOf "keys") (fun v o => n ← ParseUint0 64 v;
    Some (mkDummyOptions (do_target o) n (do_ttlMS o) (do_duration o) (do_warmup o) (do_readyTimeout o) (do_connections o)));
  mkFlag (bytesOf "ttl-ms") (fun v o => n ← ParseUint0 64 v;
    Some (mkDummyOptions (do_target o) (do_keyCount o) n (do_duration o) (do_warmup o) (do_readyTimeout o) (do_connections o)));
  mkFlag (bytesOf "duration") (fun v o => d ← ParseDuration unspecified v;
    Some (mkDummyOptions (do_target o) (do_keyCount o) (do_ttlMS o) d (do_warmup o) (do_readyTimeout o) (do_connections o)));
  mkFlag (bytesOf "warmup") (fun v o => d ← ParseDuration unspecified v;
    Some (mkDummyOptions (do_target o) (do_keyCount o) (do_ttlMS o) (do_duration o) d (do_readyTimeout o) (do_connections o)));
  mkFlag (bytesOf "ready-timeout") (fun v o => d ← ParseDuration unspecified v;
    Some (mkDummyOptions (do_target o) (do_keyCount o) (do_ttlMS o) (do_duration o) (do_warmup o) d (do_connections o)));
  mkFlag (bytesOf "connections") (fun v o => n ← ParseInt0 v;
    Some (mkDummyOptions (do_target o) (do_keyCount o) (do_ttlMS o) (do_duration o) (do_warmup o) (do_readyTimeout o) n))
].

(** [parseOptions] of the benchmark client. *)
Definition parseDummyOptions (unspecified : Z) (args : list text) : (argumentError + dummyError) + dummyOptions :=
  match noPositional (Parse (dummyFlags unspecified) args defaultDummyOptions) with
  | inl e => inl (inl e)
  | inr o => match checkOptions o with inl e => inl (inr e) | inr o => inr o end
  end.

Definition dummyShows : list (dummyOptions -> text) := [
  do_target; decimal ∘ do_keyCount; decimal ∘ do_ttlMS; nanoseconds ∘ do_duration; nanoseconds ∘ do_warmup;
  nanoseconds ∘ do_readyTimeout; signedDecimal ∘ do_connections
].

Definition printedDummyFlags (unspecified : Z) : list (printedFlag dummyOptions) :=
  zip_with mkPrinted (dummyFlags unspecified) dummyShows.

Definition dummyOptions_typed (o : dummyOptions) : Prop :=
  dummy_typed o /\ is_i64 (do_duration o) /\ is_i64 (do_warmup o) /\ is_i64 (do_readyTimeout o).

#[export] Instance dummy_printed unspecified : PrintedFlags dummyOptions_typed (printedDummyFlags unspecified).
Proof.
  split.
  - change (pf_flag <$> printedDummyFlags unspecified) with (dummyFlags unspecified). good_names.
  - change ((fun p => pf_name p) <$> printedDummyFlags unspecified) with (flag_name <$> dummyFlags 0).
    apply (bool_decide_eq_true_1 _). vm_compute. reflexivity.
  - intros p c cur Hp ([H1 H2 H3] & H4 & H5 & H6) ([T1 T2 T3] & T4 & T5 & T6). revert p Hp. each_flag.
    all: printed_flag ltac:(read_values).
  - intros a b ([A1 A2 A3] & A4 & A5 & A6) ([B1 B2 B3] & B4 & B5 & B6) Heq. unfold printedDummyFlags in Heq.
    destruct a, b; simpl in *. shown_fields Heq.
Qed.

Lemma dummy_flags_typed unspecified args o rest :
  Parse (dummyFlags unspecified) args defaultDummyOptions = inr (o, rest) -> dummyOptions_typed o.
Proof.
  intros Hp. eapply Parse_preserves in Hp; [done| |].
  - repeat first [apply Forall_nil_2 | apply Forall_cons_2]; intros v a b ([H1 H2 H3] & H4 & H5 & H6); flag_typed;
      (split; [split; done|split_and!; done]).
  - split; [split|split_and!]; by vm_compute.
Qed.

(** ** redlease-dummy-server *)

Record peerOptions := mkPeerOptions { po_listen : text; po_maxTTL : Z }.

Definition peerFlags : list (flagDef peerOptions) := [
  mkFlag (bytesOf "listen") (fun v o => Some (mkPeerOptions v (po_maxTTL o)));
  mkFlag (bytesOf "max-ttl-ms") (fun v o => n ← ParseUint0 64 v; Some (mkPeerOptions (po_listen o) n))
].

(** [main]: the exit status of the process, or what [run] is called with. A flag
    error ends the process; arguments that are no flags are ignored. *)
Definition peerMain (args : list text) : Z + peerOptions :=
  match Parse peerFlags args (mkPeerOptions defaultTarget 5000) with
  | inl errHelp => inl 0
  | inl _ => inl 2
  | inr (o, _) => if po_maxTTL o =? 0 then inl 2 else inr o
  end.

Lemma peerMain_ttl args o : peerMain args = inr o -> 0 < po_maxTTL o < 2 ^ 64.
Proof.
  unfold peerMain. destruct (Parse peerFlags args _) as [[]|[o1 rest]] eqn:Hp; try done.
  assert (Ht : is_u64 (po_maxTTL o1)).
  { eapply (Parse_preserves peerFlags (fun o => is_u64 (po_maxTTL o))) in Hp; [done| |by vm_compute].
    repeat first [apply Forall_nil_2 | apply Forall_cons_2]; intros v a b Ha; flag_typed; done. }
  destruct (Z.eqb_spec (po_maxTTL o1) 0); [done|]. intros [= <-]. in_range.
Qed.

(** ** Theorems *)

Lemma loadFlags_good unspecified : goodFlags (loadFlags unspecified).
Proof. apply (pl_good (flags := printedLoadFlags unspecified)). Qed.

Lemma dummyFlags_good unspecified : goodFlags (dummyFlags unspecified).
Proof. apply (pl_good (flags := printedDummyFlags unspecified)). Qed.

(** The benchmark commands read their command lines back. Settings
    that describe values of the flags, in any order and spelling and at least
    where the values differ from the defaults, lead both commands to exactly
    these values, integers and durations included, and so to the verdict of their
    checks on them. *)
Theorem benchmark_flags_roundtrip unspecified args settings :
  commandLine settings args [] ->
  (forall f, load_typed f -> describes (printedLoadFlags unspecified) defaultFlags f settings ->
     parseLoadOptions unspecified args = match parseOptions f with inl e => inl (inr e) | inr o => inr o end) /\
  (forall o, dummyOptions_typed o -> describes (printedDummyFlags unspecified) defaultDummyOptions o settings ->
     parseDummyOptions unspecified args = match checkOptions o with inl e => inl (inr e) | inr o => inr o end).
Proof.
  intros Hcl. split.
  - intros f Hf Hd. unfold parseLoadOptions.
    rewrite (proj2 (noPositional_exact _ f)); [done|].
    eapply (Parse_describes load_typed (printedLoadFlags unspecified)); [|done..]. split; [split|split]; by vm_compute.
  - intros o Ho Hd. unfold parseDummyOptions.
    rewrite (proj2 (noPositional_exact _ o)); [done|].
    eapply (Parse_describes dummyOptions_typed (printedDummyFlags unspecified)); [|done..]. split; [split|split_and!]; by vm_compute.
Qed.

Lemma load_command_options unspecified args o :
  parseLoadOptions unspecified args = inr o -> exists ss, scenarios o = inr ss /\ ss <> [].
Proof.
  unfold parseLoadOptions. destruct (noPositional _) as [|f] eqn:Hn; [done|]. apply noPositional_exact in Hn.
  apply load_flags_typed in Hn as [Hf _]. destruct (parseOptions f) as [|o1] eqn:Ho; [done|]. intros [= <-].
  destruct (accepted_options_run f o1 Hf Ho) as (_ & _ & ss & Hss & Hne & _). by exists ss.
Qed.

(** C34: whatever arguments the load generator is given, options it accepts run: they
    have positive counts with at most 32768 concurrent workers, a TTL the servers
    grant, a holding time that ends before the lease may expire, a positive
    response timeout, and distinct, non-empty targets or discovery; there is at
    least one scenario, and for each of them the constructor of its client accepts
    the configuration built from the given targets, or from any discovered ones of
    the required number, for every client and boot id; the pause after a
    measurement outlasts every lease. *)
Theorem load_command_runs unspecified args o :
  parseLoadOptions unspecified args = inr o ->
  options_ok o /\
  (settle o = 0 -> (ttlMS o + oResponseTimeout o) * Millisecond < settleDuration o) /\
  exists ss, scenarios o = inr ss /\ ss <> [] /\
    forall s, s ∈ ss -> forall addresses,
      (if decide (etcdEndpoint o = []) then addresses = targets o
       else length addresses = sServerCount s /\ Forall (fun a : text => a <> []) addresses) ->
      forall clientID bootID, exists c, newLoadClient s clientID bootID addresses o = Some (inr c).
Proof.
  unfold parseLoadOptions. destruct (noPositional _) as [|f] eqn:Hn; [done|]. apply noPositional_exact in Hn.
  apply load_flags_typed in Hn as [Hf _]. destruct (parseOptions f) as [|o1] eqn:Ho; [done|]. intros [= <-].
  by apply (accepted_options_run f).
Qed.

(** Two settings for each command. *)
Definition demoLoadArgs : list text := [bytesOf "-targets=a:1"; bytesOf "--hold"; bytesOf "5000000ns"].
Definition demoLoadSettings : list (text * text) :=
  [(bytesOf "targets", bytesOf "a:1"); (bytesOf "hold", bytesOf "5000000ns")].
Definition demoLoadFlags : flagValues :=
  mkFlags (bytesOf "both") quorum1of1 (bytesOf "a:1") [] [] [] defaultClients defaultLeases (5 * Second) (5 * Millisecond)
    defaultTTLMS defaultTimeoutMS 0.

Lemma demoLoadSettings_line : commandLine demoLoadSettings demoLoadArgs [].
Proof.
  apply (cl_setting _ _ _ [bytesOf "-targets=a:1"]); [apply (sp_joined (bytesOf "targets") (bytesOf "a:1") [minus]); by left|].
  apply (cl_setting _ _ _ [bytesOf "--hold"; bytesOf "5000000ns"] []);
    [apply (sp_split (bytesOf "hold") (bytesOf "5000000ns") [minus; minus]); by right|].
  constructor. constructor.
Qed.

Lemma benchmark_flags_roundtrip_witness :
  exists o, parseLoadOptions 0 demoLoadArgs = inr o /\ hold o = 5 * Millisecond.
Proof.
  destruct (parseOptions demoLoadFlags) as [e|o] eqn:Ho; [vm_compute in Ho; discriminate|].
  exists o. split; [|by vm_compute in Ho; injection Ho as <-].
  rewrite (proj1 (benchmark_flags_roundtrip 0 demoLoadArgs demoLoadSettings demoLoadSettings_line) demoLoadFlags);
    [by rewrite Ho|split; [split|split]; by vm_compute|].
  split; [apply (bool_decide_eq_true_1 _); vm_compute; reflexivity|].
  refine (proj1 (list.Forall_forall _ _) _). repeat first [apply Forall_nil_2 | apply Forall_cons_2];
    first [by left | right; apply (bool_decide_eq_true_1 _); vm_compute; reflexivity].
Defined.

Lemma load_command_runs_witness :
  exists o ss, parseLoadOptions 0 demoLoadArgs = inr o /\ options_ok o /\ scenarios o = inr ss /\ length ss = 2%nat.
Proof.
  destruct (parseLoadOptions 0 demoLoadArgs) as [e|o] eqn:Ho; [vm_compute in Ho; discriminate|].
  destruct (load_command_runs 0 demoLoadArgs o Ho) as (Hok & _ & ss & Hss & _). exists o, ss. split_and!; [done..|].
  vm_compute in Ho. injection Ho as <-. vm_compute in Hss. by injection Hss as <-.
Defined.
