(* ===== verification/LoadRun.v ===== *)
(** * Benchmark cells and the run of the load generator
    (src/cmd/redlease-load/runner.go, main.go and metrics.go)

    [runCase] creates the clients of a cell, waits until they are ready, measures
    and releases everything on every path; with discovery the watcher of the
    targets runs beside it. [run] does this for every cell of the matrix and
    writes a record for each. *)

From stdpp Require Import base gmap sets list numbers strings relations.
From S2P Require Import Prelude GoText Float64 Metrics Discovery LoadClients LoadStats LoadStatsSafety LoadWork.
From S2P Require Import GoFlags Quorum Client1of1 Client LoadOptions LoadOptionsSafety CommandFlags Prometheus Endpoints.

#[local] Open Scope nat_scope.

(** ** A cell *)

(** The clients of a cell: plain ones by their names, with those closed, or
    reconfigurable ones with their watcher. *)
Inductive caseClients :=
  | plainClients (created : list nat) (closed : list nat)
  | followedClients (w : loadWorld).

Inductive caseError :=
  | errTargetsWait
  | errCreate (index : nat)
  | errNonce
  | errWaitReady (index : nat)
  | errContext.

(** Where [runCase] is. The last four are its deferred function: the cancellation
    of the watcher, the wait for its end, and the loop of [closeLoadClients] with
    the clients whose Close failed. *)
Inductive casePC :=
  | cpTargets
  | cpCreate (targets : list string) (version : Z)
  | cpNonce
  | cpReady (index : nat) (nonce : list Z)
  | cpMeasure (nonce : list Z)
  | cpSettle
  | cpStop (err : option caseError)
  | cpJoin (err : option caseError)
  | cpClose (index : nat) (err : option caseError) (failed : list nat)
  | cpDone (err : option caseError) (failed : list nat).

(** [ca_source] is what [metricsSource] points to: the number of clients of the
    set. [ca_ready] is a history variable. *)
Record loadCase := mkCase {
  ca_count : nat;
  ca_leases : Z;
  ca_clients : caseClients;
  ca_watching : bool;              (* [stopTargetWatch] is set *)
  ca_pc : casePC;
  ca_source : option nat;
  ca_ready : list nat;
  ca_result : option caseResult
}.

Definition setCase (c : loadCase) (clients : caseClients) (watching : bool) (pc : casePC) : loadCase :=
  mkCase (ca_count c) (ca_leases c) clients watching pc (ca_source c) (ca_ready c) (ca_result c).

Definition setPC (c : loadCase) (pc : casePC) : loadCase := setCase c (ca_clients c) (ca_watching c) pc.

(** The number of clients of the cell. *)
Definition clientTotal (cs : caseClients) : nat :=
  match cs with plainClients created _ => length created | followedClients w => length (lw_clients w) end.

(** One more client from [newLoadClient], or [newReconfigurableLoadClient] with the
    targets. *)
Definition addClient (cs : caseClients) (targets : list string) : caseClients :=
  match cs with
  | plainClients created closed => plainClients (created ++ [length created]) closed
  | followedClients w =>
      followedClients (setLoad w (lw_clients w ++ [newReconfigurable (lw_next w) targets]) (S (lw_next w)) [] (lw_watcher w))
  end.

(** The watcher starts with the version its clients were built for. *)
Definition startWatch (cs : caseClients) (version : Z) : caseClients :=
  match cs with
  | plainClients _ _ => cs
  | followedClients w => followedClients (setLoad w (lw_clients w) (lw_next w) [] (wSnapshot version))
  end.

Definition cancelWatch (cs : caseClients) : caseClients :=
  match cs with
  | plainClients _ _ => cs
  | followedClients w =>
      followedClients (mkLoadWorld (lw_state w) (lw_history w) (lw_clients w) (lw_next w) (lw_closed w) (lw_watcher w) true)
  end.

Definition watchEnded (cs : caseClients) : bool :=
  match cs with
  | plainClients _ _ => true
  | followedClients w => match lw_watcher w with wStopped => true | _ => false end
  end.

(** [Close] of the client at an index. *)
Definition closeClient (cs : caseClients) (index : nat) : option caseClients :=
  match cs with
  | plainClients created closed => name ← created !! index; Some (plainClients created (closed ++ [name]))
  | followedClients w =>
      c ← lw_clients w !! index;
      let '(c, closed) := closeReconfigurable c in
      Some (followedClients (setLoad w (<[index := c]> (lw_clients w)) (lw_next w) closed (lw_watcher w)))
  end.

(** What the steps of [runCase] meet. *)
Inductive caseEvent :=
  | ceTargets (ctxDone : bool)
  | ceCreate (created : bool)
  | ceNonce (random : option (list Z))
  | ceReady (ready : bool)
  | ceMeasured (elapsed mallocs : Z) (attempts : list (list attempt))
  | ceSettled (ctxErr : bool)
  | ceDeferred
  | ceClosed (failed : bool).

(** The little-endian key seed of the nonce. *)
Definition keySeed (nonce : list Z) : Z := foldr (fun b v => b + 256 * v)%Z 0%Z nonce.

(** One step of [runCase]; [None]: the event does not fit, or [waitReady] and the
    wait for the watcher block, or [measure] panics. *)
Definition runCase (hold : Z) (c : loadCase) (e : caseEvent) : option loadCase :=
  match ca_pc c, e with
  | cpTargets, ceTargets ctxDone =>
      match ca_clients c with
      | plainClients _ _ => None
      | followedClients w =>
          match Discovery.waitReady (lw_state w) with
          | inl (targets, version) => Some (setPC c (cpCreate targets version))
          | inr _ => if ctxDone then Some (setPC c (cpStop (Some errTargetsWait))) else None
          end
      end
  | cpCreate targets version, ceCreate created =>
      let total := clientTotal (ca_clients c) in
      if decide (total < ca_count c) then
        if created then Some (setCase c (addClient (ca_clients c) targets) false (cpCreate targets version))
        else Some (setPC c (cpStop (Some (errCreate total))))
      else
        let watching := match ca_clients c with plainClients _ _ => false | followedClients _ => true end in
        Some (setCase c (startWatch (ca_clients c) version) watching cpNonce)
  | cpNonce, ceNonce random =>
      (* [metricsSource.setClients] comes first *)
      let c := mkCase (ca_count c) (ca_leases c) (ca_clients c) (ca_watching c) (ca_pc c)
                 (Some (clientTotal (ca_clients c))) (ca_ready c) (ca_result c) in
      match random with
      | None => Some (setPC c (cpStop (Some errNonce)))
      | Some nonce => Some (setPC c (cpReady 0 nonce))
      end
  | cpReady index nonce, ceReady ready =>
      if decide (index < clientTotal (ca_clients c)) then
        if ready then
          Some (mkCase (ca_count c) (ca_leases c) (ca_clients c) (ca_watching c) (cpReady (S index) nonce)
                  (ca_source c) (ca_ready c ++ [index]) (ca_result c))
        else Some (setPC c (cpStop (Some (errWaitReady index))))
      else Some (setPC c (cpMeasure nonce))
  | cpMeasure nonce, ceMeasured elapsed mallocs attempts =>
      r ← measure (Z.of_nat (clientTotal (ca_clients c))) (ca_leases c) hold (keySeed nonce) elapsed mallocs attempts;
      Some (mkCase (ca_count c) (ca_leases c) (ca_clients c) (ca_watching c) cpSettle (ca_source c) (ca_ready c) (Some r))
  | cpSettle, ceSettled ctxErr => Some (setPC c (cpStop (if ctxErr then Some errContext else None)))
  | cpStop err, ceDeferred =>
      if ca_watching c then Some (setCase c (cancelWatch (ca_clients c)) true (cpJoin err))
      else Some (setPC c (cpClose 0 err []))
  | cpJoin err, ceDeferred => if watchEnded (ca_clients c) then Some (setPC c (cpClose 0 err [])) else None
  | cpClose index err failed, ceClosed fails =>
      match closeClient (ca_clients c) index with
      | Some clients =>
          Some (setCase c clients (ca_watching c) (cpClose (S index) err (if fails then failed ++ [index] else failed)))
      | None => Some (setPC c (cpDone err failed))
      end
  | _, _ => None
  end.

(** What goes on beside [runCase] with discovery: the watcher, new targets, the
    timers of retired clients and the end of the caller's context. *)
Inductive background : loadWorld -> loadWorld -> Prop :=
  | bk_watch w created viaContext w' : watchLoadTargets w created viaContext = Some w' -> background w w'
  | bk_update w targets force s' :
      update (lw_state w) targets force = (s', true) ->
      background w (mkLoadWorld s' (lw_history w ++ [targets]) (lw_clients w) (lw_next w) (lw_closed w) (lw_watcher w) (lw_ctxDone w))
  | bk_timer w i c name c' closed :
      lw_clients w !! i = Some c -> fireTimer c name = Some (c', closed) ->
      background w (setLoad w (<[i := c']> (lw_clients w)) (lw_next w) closed (lw_watcher w))
  | bk_cancel w :
      background w (mkLoadWorld (lw_state w) (lw_history w) (lw_clients w) (lw_next w) (lw_closed w) (lw_watcher w) true).

Inductive case_step (hold : Z) (c : loadCase) : loadCase -> Prop :=
  | cs_run e c' : runCase hold c e = Some c' -> case_step hold c c'
  | cs_background w w' :
      ca_clients c = followedClients w -> background w w' ->
      case_step hold c (setCase c (followedClients w') (ca_watching c) (ca_pc c)).

(** [runCase] at its start, without and with discovery. *)
Definition startPlain (count : nat) (leases : Z) (targets : list string) (source : option nat) : loadCase :=
  mkCase count leases (plainClients [] []) false (cpCreate targets 0) source [] None.
Definition startFollowed (count : nat) (leases : Z) (s : targetState) (history : list (list string)) (source : option nat)
    : loadCase :=
  mkCase count leases (followedClients (mkLoadWorld s history [] 0 ∅ wStopped false)) false cpTargets source [] None.

Inductive case_reachable (hold : Z) : loadCase -> Prop :=
  | cr_plain count leases targets source : case_reachable hold (startPlain count leases targets source)
  | cr_followed count leases s history source : case_reachable hold (startFollowed count leases s history source)
  | cr_step c c' : case_reachable hold c -> case_step hold c c' -> case_reachable hold c'.

(** ** Invariant of a cell *)

(** The first [k] clients are closed, and of plain ones no others. *)
Definition closedUpTo (cs : caseClients) (k : nat) : Prop :=
  match cs with
  | plainClients created closed => closed = take k created
  | followedClients w => forall i c, i < k -> lw_clients w !! i = Some c -> rc_closed c = true
  end.

Definition clients_ok (cs : caseClients) : Prop :=
  match cs with
  | plainClients created _ => created = seq 0 (length created)
  | followedClients w => load_inv w
  end.

(** A cell ends without an error only after a complete measurement. *)
Definition measured (c : loadCase) : Prop :=
  clientTotal (ca_clients c) = ca_count c /\ ca_result c <> None /\ ca_ready c = seq 0 (ca_count c) /\
  ca_source c = Some (ca_count c).

Record case_inv (c : loadCase) : Prop := {
  iv_clients : clients_ok (ca_clients c);
  iv_watch : ca_watching c = false -> watchEnded (ca_clients c) = true;
  iv_pc : match ca_pc c with
    | cpTargets => closedUpTo (ca_clients c) 0 /\ ca_watching c = false /\ ca_ready c = [] /\ clientTotal (ca_clients c) = 0
    | cpCreate targets _ =>
        closedUpTo (ca_clients c) 0 /\ ca_watching c = false /\ ca_ready c = [] /\ clientTotal (ca_clients c) <= ca_count c /\
        match ca_clients c with plainClients _ _ => True | followedClients _ => targets <> [] end
    | cpNonce => closedUpTo (ca_clients c) 0 /\ ca_ready c = [] /\ clientTotal (ca_clients c) = ca_count c
    | cpReady index _ =>
        closedUpTo (ca_clients c) 0 /\ clientTotal (ca_clients c) = ca_count c /\ index <= ca_count c /\
        ca_ready c = seq 0 index /\ ca_source c = Some (ca_count c)
    | cpMeasure _ =>
        closedUpTo (ca_clients c) 0 /\ clientTotal (ca_clients c) = ca_count c /\ ca_ready c = seq 0 (ca_count c) /\
        ca_source c = Some (ca_count c)
    | cpSettle => closedUpTo (ca_clients c) 0 /\ measured c
    | cpStop err => closedUpTo (ca_clients c) 0 /\ (err = None -> measured c)
    | cpJoin err =>
        closedUpTo (ca_clients c) 0 /\ (err = None -> measured c) /\
        match ca_clients c with plainClients _ _ => True | followedClients w => lw_ctxDone w = true end
    | cpClose index err _ =>
        closedUpTo (ca_clients c) index /\ index <= clientTotal (ca_clients c) /\ watchEnded (ca_clients c) = true /\
        (err = None -> measured c)
    | cpDone err _ =>
        closedUpTo (ca_clients c) (clientTotal (ca_clients c)) /\ watchEnded (ca_clients c) = true /\ (err = None -> measured c)
    end
}.

Lemma closedUpTo_0 w : closedUpTo (followedClients w) 0.
Proof. intros i c Hi. lia. Qed.

Lemma addClient_inv w targets :
  load_inv w -> targets <> [] ->
  load_inv (setLoad w (lw_clients w ++ [newReconfigurable (lw_next w) targets]) (S (lw_next w)) [] (lw_watcher w)).
Proof.
  intros [H1 H2 H3 H4 H5] Hne.
  assert (Hin : forall i c, (lw_clients w ++ [newReconfigurable (lw_next w) targets]) !! i = Some c ->
    lw_clients w !! i = Some c \/ (i = length (lw_clients w) /\ c = newReconfigurable (lw_next w) targets)).
  { intros i c Hi. apply lookup_app_Some in Hi as [|[Hge Hi]]; [by left|right].
    apply list_lookup_singleton_Some in Hi as [? <-]. split; [lia|done]. }
  split; simpl.
  - intros i c n [Hc|[-> ->]]%Hin Hn; [specialize (H1 i c n Hc Hn); lia|]. apply list_elem_of_singleton in Hn. lia.
  - intros i j c c' n [Hc|[-> ->]]%Hin [Hc'|[-> ->]]%Hin Hn Hn'; try done; [by eapply H2|exfalso..].
    + apply list_elem_of_singleton in Hn'. specialize (H1 i c n Hc Hn). lia.
    + apply list_elem_of_singleton in Hn. specialize (H1 j c' n Hc' Hn'). lia.
  - intros i c [Hc|[-> ->]]%Hin; [rewrite union_empty_r_L; by eapply H3|].
    split; simpl; [apply NoDup_singleton|done| |set_solver|by intros n ?%not_elem_of_nil|by intros n a [= _ <-]].
    intros n ->%list_elem_of_singleton. rewrite union_empty_r_L. intros Hc%H4. lia.
  - intros n. rewrite union_empty_r_L. intros Hc%H4. lia.
  - intros n Hn. rewrite union_empty_r_L. destruct (decide (n = lw_next w)) as [->|].
    + right. exists (length (lw_clients w)), (newReconfigurable (lw_next w) targets). split; [|by apply list_elem_of_singleton].
      by rewrite lookup_app_r, Nat.sub_diag by lia.
    + destruct (H5 n ltac:(lia)) as [|(i & c & Hc & Hl)]; [by left|right]. exists i, c. split; [|done].
      by apply lookup_app_l_Some.
Qed.

Lemma background_load_step w w' : background w w' -> load_step w w'.
Proof. intros [| | |]; by econstructor. Qed.

Lemma background_facts w w' :
  background w w' ->
  length (lw_clients w') = length (lw_clients w) /\ (lw_ctxDone w = true -> lw_ctxDone w' = true) /\
  (lw_watcher w = wStopped ->
     lw_watcher w' = wStopped /\
     forall i c', lw_clients w' !! i = Some c' -> exists c, lw_clients w !! i = Some c /\ rc_closed c' = rc_closed c).
Proof.
  intros [? created via w'' Hs|? ts force s' _|? i c name c' closed Hi Hf|].
  - assert (Hl : length (lw_clients w'') = length (lw_clients w0) /\ lw_ctxDone w'' = lw_ctxDone w0).
    { unfold watchLoadTargets in Hs. destruct (lw_watcher w0) as [v|ts v ch i|v ch|]; [| | |done].
      - by injection Hs as <-.
      - destruct (lw_clients w0 !! i) as [c|]; [|by injection Hs as <-].
        destruct (reconfigure c (lw_next w0) ts created) as [[c' closed] isNew]. injection Hs as <-. simpl. by rewrite length_insert.
      - destruct via; [destruct (lw_ctxDone w0) eqn:Hd|destruct (channelClosed _ _)]; try done; injection Hs as <-; simpl; by rewrite ?Hd. }
    destruct Hl as [Hl ->]. split_and!; [done|done|]. intros Hst. unfold watchLoadTargets in Hs. by rewrite Hst in Hs.
  - split_and!; try done. intros ?. split; [done|]. simpl. eauto.
  - simpl. rewrite length_insert. split_and!; try done. intros ?. split; [done|]. intros j x Hj.
    destruct (decide (i = j)) as [<-|Hij].
    + rewrite list_lookup_insert_eq in Hj by (by eapply lookup_lt_Some). injection Hj as <-. exists c. split; [done|].
      unfold fireTimer in Hf. case_decide; [|done]. by injection Hf as <- _.
    + rewrite list_lookup_insert_ne in Hj by done. eauto.
  - split_and!; try done. simpl. eauto.
Qed.

Lemma closeClient_inv cs i cs' :
  closeClient cs i = Some cs' -> clients_ok cs -> closedUpTo cs i ->
  clients_ok cs' /\ closedUpTo cs' (S i) /\ clientTotal cs' = clientTotal cs /\ watchEnded cs' = watchEnded cs /\
  i < clientTotal cs.
Proof.
  destruct cs as [created closed|w]; simpl.
  - destruct (created !! i) as [name|] eqn:Hi; [|done]. intros [= <-] Hok ->. simpl.
    split_and!; [done| |done|done|by eapply lookup_lt_Some]. symmetry. by apply take_S_r.
  - destruct (lw_clients w !! i) as [c|] eqn:Hi; [|done]. simpl.
    destruct (closeReconfigurable c) as [c' closed] eqn:Hc. intros [= <-] Hok Hup. simpl.
    pose proof (lookup_lt_Some _ _ _ Hi) as Hlt.
    split_and!; [by eapply close_change| |by rewrite length_insert|done|done].
    intros j x Hj Hx. destruct (decide (i = j)) as [<-|Hij].
    + rewrite list_lookup_insert_eq in Hx by done. injection Hx as <-.
      unfold closeReconfigurable in Hc. destruct (rc_closed c) eqn:Hcl; by injection Hc as <- _.
    + rewrite list_lookup_insert_ne in Hx by done. eapply (Hup j); [lia|done].
Qed.

Lemma closeClient_None cs i : closeClient cs i = None -> clientTotal cs <= i.
Proof.
  destruct cs as [created closed|w]; simpl.
  - destruct (created !! i) eqn:Hi; [done|]. intros _. by apply lookup_ge_None in Hi.
  - destruct (lw_clients w !! i) as [c|] eqn:Hi; [|intros _; by apply lookup_ge_None in Hi].
    simpl. by destruct (closeReconfigurable c).
Qed.

Lemma addClient_ok cs targets :
  clients_ok cs -> closedUpTo cs 0 -> match cs with plainClients _ _ => True | followedClients _ => targets <> [] end ->
  clients_ok (addClient cs targets) /\ closedUpTo (addClient cs targets) 0 /\
  clientTotal (addClient cs targets) = S (clientTotal cs) /\ watchEnded (addClient cs targets) = watchEnded cs.
Proof.
  destruct cs as [created closed|w]; simpl; intros Hok Hup Ht.
  - split_and!; [|done| |done]; rewrite length_app; simpl; [|lia].
    rewrite Nat.add_1_r, seq_S. by rewrite <- Hok.
  - split_and!; [by apply addClient_inv|intros i c Hi; lia|rewrite length_app; simpl; lia|done].
Qed.

Lemma startWatch_ok cs version :
  clients_ok cs -> closedUpTo cs 0 ->
  clients_ok (startWatch cs version) /\ closedUpTo (startWatch cs version) 0 /\
  clientTotal (startWatch cs version) = clientTotal cs.
Proof.
  destruct cs as [created closed|w]; simpl; intros Hok Hup; [done|].
  split_and!; [by apply setLoad_same|intros i c Hi; lia|done].
Qed.

(** The steps before the deferred function. *)
Lemma runCase_inv hold c e c' : runCase hold c e = Some c' -> case_inv c -> case_inv c'.
Proof.
  intros Hr [Hok Hw Hpc]. unfold runCase in Hr.
  destruct (ca_pc c) as [|targets version| |index nonce|nonce| |err|err|index err failed|err failed], e; try done.
  - destruct Hpc as (Hup & Hwf & Hrd & Htot). destruct (ca_clients c) as [|w] eqn:Hcs; [done|].
    unfold Discovery.waitReady, snapshot in Hr. case_decide as Hne.
    + injection Hr as <-. split; simpl; rewrite ?Hcs; try done. split_and!; try done; [lia|].
      intros Heq. apply Hne. by rewrite Heq.
    + destruct ctxDone; [|done]. injection Hr as <-. split; simpl; rewrite ?Hcs; done.
  - destruct Hpc as (Hup & Hwf & Hrd & Htot & Ht). case_decide as Hlt.
    + destruct created; injection Hr as <-.
      * destruct (addClient_ok (ca_clients c) targets Hok Hup Ht) as (H1 & H2 & H3 & H4).
        split; simpl; [done|intros _; rewrite H4; by apply Hw|]. split_and!; try done; [lia|]. by destruct (ca_clients c).
      * split; simpl; [done..|]. done.
    + injection Hr as <-. destruct (startWatch_ok (ca_clients c) version Hok Hup) as (H1 & H2 & H3).
      split; simpl; [done| |split_and!; [done..|lia]]. destruct (ca_clients c); [done|by intros ?].
  - destruct Hpc as (Hup & Hrd & Htot). destruct random; injection Hr as <-; split; simpl; try done.
    split_and!; try done; [lia|congruence].
  - destruct Hpc as (Hup & Htot & Hi & Hrd & Hsrc). case_decide as Hlt.
    + destruct ready; injection Hr as <-; split; simpl; try done. split_and!; try done; [lia|].
      change (0 :: seq 1 index) with (seq 0 (S index)). by rewrite Hrd, seq_S.
    + injection Hr as <-. split; simpl; try done. split_and!; try done. rewrite Hrd. f_equal. lia.
  - destruct Hpc as (Hup & Htot & Hrd & Hsrc). destruct (measure _ _ _ _ _ _ _) as [r|]; [|done]. injection Hr as <-.
    split; simpl; try done.
  - destruct Hpc as [Hup Hm]. injection Hr as <-. split; simpl; try done.
  - destruct Hpc as [Hup Hm]. destruct (ca_watching c) eqn:Hwf; injection Hr as <-.
    + split; simpl; [|done|].
      * destruct (ca_clients c) as [|w]; [done|]. simpl in *. by destruct Hok.
      * split_and!; [by destruct (ca_clients c)| |by destruct (ca_clients c)].
        intros He. destruct (Hm He) as (M1 & M2 & M3 & M4). unfold measured. simpl. by destruct (ca_clients c).
    + split; simpl; try done; [by rewrite Hwf|]. split_and!; [done|lia|by apply Hw|done].
  - destruct Hpc as (Hup & Hm & _). destruct (watchEnded (ca_clients c)) eqn:He; [|done]. injection Hr as <-.
    split; simpl; try done. split_and!; [done|lia|done..].
  - destruct Hpc as (Hup & Hi & He & Hm). destruct (closeClient (ca_clients c) index) as [clients|] eqn:Hcl; injection Hr as <-.
    + destruct (closeClient_inv _ _ _ Hcl Hok Hup) as (H1 & H2 & H3 & H4 & H5).
      split; simpl; [done|rewrite H4; done|]. split_and!; [done|lia|by rewrite H4|].
      intros Herr. destruct (Hm Herr) as (M1 & M2 & M3 & M4). unfold measured. simpl. split_and!; try done. lia.
    + apply closeClient_None in Hcl. assert (index = clientTotal (ca_clients c)) as -> by lia. split; simpl; try done.
Qed.

Lemma background_case_inv c w w' :
  ca_clients c = followedClients w -> background w w' -> case_inv c ->
  case_inv (setCase c (followedClients w') (ca_watching c) (ca_pc c)).
Proof.
  intros Hcs Hb [Hok Hw Hpc]. rewrite Hcs in *.
  pose proof (load_step_inv _ _ (background_load_step _ _ Hb) Hok) as Hok'.
  destruct (background_facts w w' Hb) as (Hlen & Hctx & Hstop).
  assert (Hended : watchEnded (followedClients w) = true -> lw_watcher w = wStopped) by (simpl; by destruct (lw_watcher w)).
  assert (Hended' : watchEnded (followedClients w) = true -> watchEnded (followedClients w') = true).
  { intros He. simpl. by rewrite (proj1 (Hstop (Hended He))). }
  assert (Hup : forall k, watchEnded (followedClients w) = true -> closedUpTo (followedClients w) k -> closedUpTo (followedClients w') k).
  { intros k He Hk i x Hi Hx. destruct (proj2 (Hstop (Hended He)) i x Hx) as (y & Hy & ->). by eapply Hk. }
  assert (Hm : measured c -> measured (setCase c (followedClients w') (ca_watching c) (ca_pc c))).
  { unfold measured. rewrite Hcs. simpl. by rewrite Hlen. }
  split; simpl; [done|auto|].
  destruct (ca_pc c) as [|targets version| |index nonce|nonce| |err|err|index err failed|err failed]; simpl in *;
    rewrite ?Hlen; try (split_and!; naive_solver lia).
Qed.

Lemma case_reachable_inv hold c : case_reachable hold c -> case_inv c.
Proof.
  induction 1 as [count leases targets source|count leases s history source|c c' _ IH Hs].
  - split; simpl; try done. split_and!; try done. lia.
  - split; simpl; [|done|split_and!; try done; intros i c Hi; lia].
    split; simpl; [done..| |lia]. intros n Hn. set_solver.
  - destruct Hs as [e c' Hr|w w' Hcs Hb]; [by eapply runCase_inv|by apply background_case_inv with w].
Qed.

(** A cancelled watcher comes to its end. *)
Lemma watcher_stops w :
  lw_ctxDone w = true -> exists w', rtc background w w' /\ lw_watcher w' = wStopped.
Proof.
  assert (Hwait : forall w, lw_ctxDone w = true -> (exists v ch, lw_watcher w = wWaiting v ch) ->
    exists w', rtc background w w' /\ lw_watcher w' = wStopped).
  { clear w. intros w Hd (v & ch & Hw). eexists. split; [|shelve]. apply rtc_once. apply (bk_watch _ true true).
    unfold watchLoadTargets. rewrite Hw, Hd. reflexivity. Unshelve. done. }
  assert (Hreconf : forall n w, lw_ctxDone w = true ->
    (exists ts v ch i, lw_watcher w = wReconfiguring ts v ch i /\ length (lw_clients w) - i < n) ->
    exists w', rtc background w w' /\ lw_watcher w' = wStopped).
  { clear w. induction n as [|n IH]; intros w Hd (ts & v & ch & i & Hw & Hn); [lia|].
    destruct (lw_clients w !! i) as [c|] eqn:Hi.
    - destruct (reconfigure c (lw_next w) ts true) as [[c' closed] isNew] eqn:Hrc.
      destruct (IH (setLoad w (<[i := c']> (lw_clients w)) (if isNew : bool then S (lw_next w) else lw_next w) closed
        (wReconfiguring ts v ch (S i)))) as (w' & Hrun & Hst); [done| |].
      { exists ts, v, ch, (S i). split; [done|]. simpl. rewrite length_insert. apply lookup_lt_Some in Hi. lia. }
      exists w'. split; [|done]. eapply rtc_l; [|done]. apply (bk_watch _ true true).
      unfold watchLoadTargets. by rewrite Hw, Hi, Hrc.
    - destruct (Hwait (setLoad w (lw_clients w) (lw_next w) [] (wWaiting v ch))) as (w' & Hrun & Hst); [done|by exists v, ch|].
      exists w'. split; [|done]. eapply rtc_l; [|done]. apply (bk_watch _ true true).
      unfold watchLoadTargets. by rewrite Hw, Hi. }
  intros Hd. destruct (lw_watcher w) as [v|ts v ch i|v ch|] eqn:Hw.
  - assert (Hstep : exists w1, background w w1 /\ lw_ctxDone w1 = true /\
      ((exists v' ch, lw_watcher w1 = wWaiting v' ch) \/ exists ts v' ch, lw_watcher w1 = wReconfiguring ts v' ch 0)).
    { eexists. split; [apply (bk_watch _ true true); unfold watchLoadTargets; rewrite Hw; reflexivity|].
      split; [done|]. simpl. destruct (decide _); [right|left]; eauto. }
    destruct Hstep as (w1 & Hb & Hd1 & [Hw1|(ts & v' & ch & Hw1)]).
    + destruct (Hwait w1 Hd1 Hw1) as (w' & ? & ?). exists w'. split; [by eapply rtc_l|done].
    + destruct (Hreconf (S (length (lw_clients w1))) w1 Hd1) as (w' & ? & ?); [exists ts, v', ch, 0; split; [done|lia]|].
      exists w'. split; [by eapply rtc_l|done].
  - apply (Hreconf (S (length (lw_clients w))) w Hd). exists ts, v, ch, i. split; [done|lia].
  - apply Hwait; eauto.
  - exists w. split; [apply rtc_refl|done].
Qed.

Lemma background_run hold c w w' :
  ca_clients c = followedClients w -> rtc background w w' ->
  rtc (case_step hold) c (setCase c (followedClients w') (ca_watching c) (ca_pc c)).
Proof.
  intros Hcs Hrun. revert c Hcs. induction Hrun as [w|w w1 w' Hb Hrun IH]; intros c Hcs.
  - replace (setCase _ _ _ _) with c; [apply rtc_refl|]. destruct c. simpl in *. by subst.
  - eapply rtc_l; [by eapply cs_background|]. by apply (IH (setCase c (followedClients w1) (ca_watching c) (ca_pc c))).
Qed.

(** The deferred function of a cell comes to its end. *)
Lemma closing_ends hold n c index err failed :
  clientTotal (ca_clients c) - index < n -> ca_pc c = cpClose index err failed ->
  exists c' failed', rtc (case_step hold) c c' /\ ca_pc c' = cpDone err failed'.
Proof.
  revert c index failed. induction n as [|n IH]; intros c index failed Hn Hpc; [lia|].
  destruct (closeClient (ca_clients c) index) as [clients|] eqn:Hcl.
  - assert (Htot : clientTotal clients = clientTotal (ca_clients c) /\ index < clientTotal (ca_clients c)).
    { destruct (ca_clients c) as [created closed|w]; simpl in *.
      - destruct (created !! index) eqn:Hi; [|done]. injection Hcl as <-. split; [done|by eapply lookup_lt_Some].
      - destruct (lw_clients w !! index) as [x|] eqn:Hi; [|done]. simpl in Hcl. destruct (closeReconfigurable x).
        injection Hcl as <-. simpl. rewrite length_insert. split; [done|by eapply lookup_lt_Some]. }
    destruct (IH (setCase c clients (ca_watching c) (cpClose (S index) err failed)) (S index) failed) as (c' & f & Hrun & Hd);
      [simpl; lia|done|].
    exists c', f. split; [|done]. eapply rtc_l; [|done]. apply (cs_run _ _ (ceClosed false)). unfold runCase. by rewrite Hpc, Hcl.
  - eexists _, failed. split; [apply rtc_once, (cs_run _ _ (ceClosed false)); unfold runCase; rewrite Hpc, Hcl; reflexivity|done].
Qed.

Lemma deferred_ends hold c err :
  case_inv c -> ca_pc c = cpStop err \/ ca_pc c = cpJoin err ->
  exists c' failed, rtc (case_step hold) c c' /\ ca_pc c' = cpDone err failed.
Proof.
  intros Hinv Hpc.
  assert (Hclose : forall c1, ca_pc c1 = cpClose 0 err [] ->
    exists c' failed, rtc (case_step hold) c1 c' /\ ca_pc c' = cpDone err failed).
  { intros c1 H1. apply (closing_ends hold (S (clientTotal (ca_clients c1))) c1 0 err []); [lia|done]. }
  assert (Hjoin : forall c1, case_inv c1 -> ca_pc c1 = cpJoin err ->
    exists c' failed, rtc (case_step hold) c1 c' /\ ca_pc c' = cpDone err failed).
  { intros c1 [Hok Hw H] H1. rewrite H1 in H. destruct H as (_ & _ & Hd).
    assert (Hend : exists c2, rtc (case_step hold) c1 c2 /\ ca_pc c2 = cpJoin err /\ watchEnded (ca_clients c2) = true).
    { destruct (ca_clients c1) as [created closed|w] eqn:Hcs; [exists c1; split; [apply rtc_refl|by rewrite Hcs]|].
      destruct (watcher_stops w Hd) as (w' & Hrun & Hst).
      exists (setCase c1 (followedClients w') (ca_watching c1) (ca_pc c1)).
      split; [by eapply background_run|]. simpl. by rewrite Hst. }
    destruct Hend as (c2 & Hrun & H2 & He).
    destruct (Hclose (setPC c2 (cpClose 0 err []))) as (c' & failed & Hrun' & Hdone); [done|].
    exists c', failed. split; [|done]. etrans; [exact Hrun|]. eapply rtc_l; [|exact Hrun'].
    apply (cs_run _ _ ceDeferred). unfold runCase. by rewrite H2, He. }
  destruct Hpc as [Hpc|Hpc]; [|by apply Hjoin]. destruct (ca_watching c) eqn:Hw.
  - assert (Hstep : runCase hold c ceDeferred = Some (setCase c (cancelWatch (ca_clients c)) true (cpJoin err)))
      by (unfold runCase; by rewrite Hpc, Hw).
    destruct (Hjoin _ (runCase_inv _ _ _ _ Hstep Hinv) eq_refl) as (c' & failed & Hrun & Hd).
    exists c', failed. split; [|done]. eapply rtc_l; [by eapply cs_run|done].
  - destruct (Hclose (setPC c (cpClose 0 err []))) as (c' & failed & Hrun & Hd); [done|].
    exists c', failed. split; [|done]. eapply rtc_l; [|exact Hrun]. apply (cs_run _ _ ceDeferred). unfold runCase. by rewrite Hpc, Hw.
Qed.

(** C37: a cell releases everything on every path. However creation,
    readiness, the random generator, the targets and the contexts fail: the
    deferred function of [runCase] can always run to its end; clients are closed
    only when the watcher of the targets has ended; when [runCase] has returned,
    every client it created, and with discovery every underlying client ever
    created for them, is closed, plain ones exactly once and in order; and it
    returns without an error only if all clients were created and ready, the
    metrics source shows all of them and a measurement was taken. *)
Theorem case_releases_clients hold c :
  case_reachable hold c ->
  (forall err, ca_pc c = cpStop err \/ ca_pc c = cpJoin err ->
     exists c' failed, rtc (case_step hold) c c' /\ ca_pc c' = cpDone err failed) /\
  (forall index err failed, ca_pc c = cpClose index err failed -> watchEnded (ca_clients c) = true) /\
  forall err failed, ca_pc c = cpDone err failed ->
    match ca_clients c with
    | plainClients created closed => closed = created /\ created = seq 0 (length created)
    | followedClients w => lw_watcher w = wStopped /\ forall n, n < lw_next w -> n ∈ lw_closed w
    end /\ (err = None -> measured c).
Proof.
  intros Hr. pose proof (case_reachable_inv hold c Hr) as Hinv. split_and!.
  - intros err Hpc. by apply deferred_ends.
  - intros index err failed Hpc. destruct Hinv as [_ _ H]. rewrite Hpc in H. apply H.
  - intros err failed Hpc. destruct Hinv as [Hok _ H]. rewrite Hpc in H. destruct H as (Hup & He & Hm). split; [|done].
    destruct (ca_clients c) as [created closed|w]; simpl in *.
    + split; [|done]. by rewrite Hup, take_ge.
    + split; [by destruct (lw_watcher w)|]. intros n Hn. destruct (li_kept _ Hok n Hn) as [|(i & x & Hx & Hl)]; [done|].
      exfalso. pose proof (Hup i x (lookup_lt_Some _ _ _ Hx) Hx) as Hcl.
      destruct (ci_closed _ _ (li_client _ Hok i x Hx) Hcl) as [Hnm Ht]. unfold live, names in *. rewrite Ht in Hl.
      apply app_eq_nil in Hnm as [_ Hcur]. rewrite Hcur in Hl. by apply not_elem_of_nil in Hl.
Qed.

(** ** The metrics of a run *)

(** [loadMetricsSource.MetricsSnapshot]: the aggregate over the current set of
    clients, whose snapshots are given; before the first cell there is none. *)
Definition sourceSnapshot (source : option (list Snapshot)) : Snapshot :=
  match source with
  | None => aggregateLoadClientMetrics []
  | Some snapshots => aggregateLoadClientMetrics snapshots
  end.

(** ** The matrix *)

Record cell := mkCell { cl_clients : Z; cl_leases : Z; cl_scenario : scenario }.

(** The cells in the order of the three loops of [run]. *)
Definition cells (o : options) (ss : list scenario) : list cell :=
  clientCount ← clientCounts o; leaseCount ← leaseCounts o; selected ← ss; [mkCell clientCount leaseCount selected].

Definition scenarioText (name : scenarioName) : string :=
  match name with clientName => "client" | client1of1Name => "client1of1" end.

(** The record of a cell. *)
Definition cellRecord (o : options) (c : cell) (r : caseResult) : list string :=
  csvRecord r (scenarioText (sName (cl_scenario c))) (stringOf (oQuorum o)) (cl_clients c) (cl_leases c).

(** What [Write], [Flush] and [Error] of the CSV writer say about a record. *)
Inductive rowOutcome := rowWritten | rowNotWritten | rowNotFlushed.

(** What [runCase] returns: a result, or its error with the clients that failed to
    close. *)
Definition caseOutcome : Type := (option caseError * list nat) + caseResult.

(** The outcome of a cell that has ended. *)
Definition outcomeOf (err : option caseError) (failed : list nat) (r : option caseResult) : option caseOutcome :=
  match err, failed, r with
  | None, [], Some r => Some (inr r)
  | None, [], None => None
  | _, _, _ => Some (inl (err, failed))
  end.

Inductive loadRunError :=
  | errRunOptions
  | errRunMetrics (e : endpointError)
  | errRunDiscovery
  | errRunTargets
  | errRunHeader
  | errRunCase (index : nat) (e : option caseError * list nat)
  | errRunRecord (index : nat).

(** The loops of [run]: the records written so far and the error that ended them. *)
Fixpoint runCells (o : options) (outcomes : nat -> caseOutcome) (rows : nat -> rowOutcome) (index : nat) (cs : list cell)
    : list (list string) * option loadRunError :=
  match cs with
  | [] => ([], None)
  | c :: cs =>
      match outcomes index with
      | inl e => ([], Some (errRunCase index e))
      | inr r =>
          match rows index with
          | rowWritten => let '(written, err) := runCells o outcomes rows (S index) cs in (cellRecord o c r :: written, err)
          | _ => ([], Some (errRunRecord index))
          end
      end
  end.

(** What [run] starts and, in its deferred calls, closes. *)
Inductive runEffect := metricsStarted | metricsClosed | discoveryStarted | discoveryClosed | runCancelled.

(** The world [run] meets. *)
Record runWorld := mkRunWorld {
  rw_metricsListens : bool;
  rw_metricsCloseFails : bool;
  rw_etcdClient : bool;            (* [clientv3.New] succeeds *)
  rw_targets : bool;               (* [waitReady] returns targets *)
  rw_header : rowOutcome;
  rw_cases : nat -> caseOutcome;
  rw_rows : nat -> rowOutcome
}.

Record runOutput := mkOutput {
  ro_rows : list (list string);
  ro_effects : list runEffect;
  ro_error : option loadRunError;
  ro_closeError : bool             (* the error of [metrics.Close] is joined *)
}.

(** The part of [run] after the resources are started. *)
Definition runMatrix (o : options) (ss : list scenario) (w : runWorld) : list (list string) * option loadRunError :=
  match rw_header w with
  | rowWritten =>
      let '(rows, err) := runCells o (rw_cases w) (rw_rows w) 0 (cells o ss) in (csvHeader :: rows, err)
  | _ => ([], Some errRunHeader)
  end.

(** [run] with discovery: it is closed on every path after its start. *)
Definition runDiscovered (o : options) (ss : list scenario) (w : runWorld)
    : list (list string) * option loadRunError * list runEffect :=
  if decide (etcdEndpoint o <> []) then
    match startEtcdTargetDiscovery (stringOf (etcdPrefix o)) (Z.of_nat (default 0 (sServerCount <$> head ss))) with
    | Some _ =>
        if rw_etcdClient w then
          if rw_targets w then (runMatrix o ss w, [discoveryStarted; discoveryClosed])
          else ([], Some errRunTargets, [discoveryStarted; discoveryClosed])
        else ([], Some errRunDiscovery, [])
    | None => ([], Some errRunDiscovery, [])
    end
  else (runMatrix o ss w, []).

(** [run] on the options [parseOptions] returned ([None] is its error). *)
Definition runLoad `{PrometheusRegistry} (parsed : option options) (w : runWorld) : runOutput :=
  match parsed with
  | None => mkOutput [] [] (Some errRunOptions) false
  | Some o =>
      match scenarios o with
      | inl _ => mkOutput [] [] (Some errRunOptions) false
      | inr ss =>
          if decide (metricsListen o <> []) then
            match startLoadMetricsEndpoint (rw_metricsListens w) with
            | inl e => mkOutput [] [runCancelled] (Some (errRunMetrics e)) false
            | inr _ =>
                let '(rows, err, effects) := runDiscovered o ss w in
                mkOutput rows (metricsStarted :: effects ++ [metricsClosed; runCancelled]) err (rw_metricsCloseFails w)
            end
          else
            let '(rows, err, effects) := runDiscovered o ss w in
            mkOutput rows (effects ++ [runCancelled]) err false
      end
  end.

Lemma length_bind_const {A B} (f : A -> list B) l n : (forall x, length (f x) = n) -> length (l ≫= f) = length l * n.
Proof. intros Hf. induction l as [|x l IH]; [done|]. change ((x :: l) ≫= f) with (f x ++ (l ≫= f)). by rewrite length_app, Hf, IH. Qed.

Lemma length_cells o ss : length (cells o ss) = length (clientCounts o) * (length (leaseCounts o) * length ss).
Proof.
  apply length_bind_const. intros clientCount. apply length_bind_const. intros leaseCount.
  rewrite (length_bind_const _ _ 1) by done. lia.
Qed.

(** The loops write the records of the cells before the first failure. *)
Lemma runCells_spec o outcomes rows index cs written err :
  runCells o outcomes rows index cs = (written, err) ->
  exists results, written = zip_with (cellRecord o) cs results /\ length written = length results /\
    (forall i r, results !! i = Some r -> outcomes (index + i) = inr r) /\
    match err with
    | None => length results = length cs
    | Some (errRunCase i e) => i = index + length results /\ outcomes i = inl e
    | Some (errRunRecord i) => i = index + length results /\ rows i <> rowWritten
    | Some _ => False
    end.
Proof.
  revert index written err. induction cs as [|c cs IH]; intros index written err; simpl; [intros [= <- <-]; by exists []|].
  destruct (outcomes index) as [e|r] eqn:Ho; [intros [= <- <-]; exists []; rewrite Nat.add_0_r; done|].
  destruct (rows index) eqn:Hrow; [|intros [= <- <-]; exists []; rewrite Nat.add_0_r; split_and!; try done; congruence..].
  destruct (runCells o outcomes rows (S index) cs) as [written' err'] eqn:Hr.
  destruct (IH _ _ _ Hr) as (results & -> & Hlen & Hres & Herr). intros [= <- <-]. exists (r :: results).
  split_and!; [done|simpl; lia| |].
  - intros [|i] r'; simpl; [intros [= <-]; by rewrite Nat.add_0_r|]. intros Hi. rewrite Nat.add_succ_r. by apply (Hres i).
  - simpl. destruct err' as [[]|]; try done; [..|lia]; rewrite ?Nat.add_succ_r; done.
Qed.

(** What [run] may have started it has closed. *)
Definition balanced (effects : list runEffect) : Prop :=
  effects = [runCancelled] \/ effects = [discoveryStarted; discoveryClosed; runCancelled] \/
  effects = [metricsStarted; metricsClosed; runCancelled] \/
  effects = [metricsStarted; discoveryStarted; discoveryClosed; metricsClosed; runCancelled].

Lemma runDiscovered_effects o ss w rows err effects :
  runDiscovered o ss w = (rows, err, effects) -> effects = [] \/ effects = [discoveryStarted; discoveryClosed].
Proof.
  unfold runDiscovered. case_decide.
  - destruct (startEtcdTargetDiscovery _ _); [|intros [= _ _ <-]; by left].
    destruct (rw_etcdClient w); [|intros [= _ _ <-]; by left].
    destruct (rw_targets w); [destruct (runMatrix o ss w)|]; intros [= _ _ <-]; by right.
  - destruct (runMatrix o ss w). intros [= _ _ <-]. by left.
Qed.

Lemma runDiscovered_rows o ss w rows err effects :
  runDiscovered o ss w = (rows, err, effects) -> (rows, err) = runMatrix o ss w \/ (rows = [] /\ err <> None).
Proof.
  unfold runDiscovered. case_decide.
  - destruct (startEtcdTargetDiscovery _ _); [|intros [= <- <- _]; by right].
    destruct (rw_etcdClient w); [|intros [= <- <- _]; by right].
    destruct (rw_targets w); [|intros [= <- <- _]; by right]. destruct (runMatrix o ss w). intros [= <- <- _]. by left.
  - destruct (runMatrix o ss w). intros [= <- <- _]. by left.
Qed.

Lemma runMatrix_error o ss w rows (effects effects' : list runEffect) :
  (runMatrix o ss w, effects) <> (rows, Some errRunDiscovery, effects').
Proof.
  unfold runMatrix. destruct (rw_header w); [|congruence..].
  destruct (runCells o (rw_cases w) (rw_rows w) 0 (cells o ss)) as [written err] eqn:Hr.
  destruct (runCells_spec _ _ _ _ _ _ _ Hr) as (results & _ & _ & _ & Herr). intros [= _ -> _]. done.
Qed.

(** Accepted options never ask discovery for more slots than there are. *)
Lemma scenarios_slots o ss : scenarios o = inr ss -> Forall (fun s => 1 <= sServerCount s <= loadEtcdSlotCount) ss.
Proof.
  unfold scenarios, genericScenario, loadEtcdSlotCount. intros H.
  repeat case_decide; simplify_eq/=; repeat constructor; simpl; lia.
Qed.

(** The load generator covers its matrix and cleans up. For
    options its command line was accepted with, whatever fails in the cells, in
    the output, in etcd and in the metrics endpoint: every resource [run] starts
    is closed, the later ones first, and the context is cancelled last; the
    output is empty or the header followed by one record per cell, in the order
    of clients, leases and scenarios, for exactly the cells before the first that
    failed, each made from the result of that cell; and without an error there is
    a record for every combination. *)
Theorem load_run_matrix `{PrometheusRegistry} unspecified args o w :
  parseLoadOptions unspecified args = inr o ->
  exists ss, scenarios o = inr ss /\
    let out := runLoad (Some o) w in
    balanced (ro_effects out) /\
    (ro_rows out = [] \/ exists results,
       ro_rows out = csvHeader :: zip_with (cellRecord o) (cells o ss) results /\
       length results <= length (cells o ss) /\ (forall i r, results !! i = Some r -> rw_cases w i = inr r) /\
       forall i e, ro_error out = Some (errRunCase i e) -> i = length results /\ rw_cases w i = inl e) /\
    (ro_error out = None ->
       length (ro_rows out) = S (length (clientCounts o) * (length (leaseCounts o) * length ss)) /\
       (etcdEndpoint o <> [] -> discoveryStarted ∈ ro_effects out)) /\
    (rw_etcdClient w = true -> ro_error out <> Some errRunDiscovery).
Proof.
  intros Hp.
  assert (Hss : exists ss, scenarios o = inr ss /\ ss <> []).
  { destruct (load_command_options _ _ _ Hp) as (ss & Hss & Hne). by exists ss. }
  destruct Hss as (ss & Hss & Hne). exists ss. split; [done|]. intros out.
  assert (Hparts : exists rows err effects, runDiscovered o ss w = (rows, err, effects) /\ 
    (ro_rows out = rows /\ ro_error out = err /\
      (ro_effects out = effects ++ [runCancelled] \/ ro_effects out = metricsStarted :: effects ++ [metricsClosed; runCancelled]) \/
     ro_rows out = [] /\ (exists e, ro_error out = Some (errRunMetrics e)) /\ ro_effects out = [runCancelled])).
  { destruct (runDiscovered o ss w) as [[rows err] effects] eqn:Hd. exists rows, err, effects. split; [done|].
    unfold out, runLoad. rewrite Hss. case_decide; [|rewrite Hd; left; auto].
    destruct (startLoadMetricsEndpoint _); [right; eauto|]. rewrite Hd. left; auto. }
  destruct Hparts as (rows & err & effects & Hd & Hout).
  pose proof (runDiscovered_effects _ _ _ _ _ _ Hd) as Heff. pose proof (runDiscovered_rows _ _ _ _ _ _ Hd) as Hrows.
  split_and!.
  - unfold balanced. destruct Hout as [(_ & _ & [->| ->])|(_ & _ & ->)]; [| |by left]; destruct Heff as [->| ->]; simpl; auto.
  - destruct Hout as [(-> & -> & _)|(-> & _)]; [|by left]. destruct Hrows as [Hm|[-> _]]; [|by left].
    unfold runMatrix in Hm. destruct (rw_header w); [|injection Hm as -> ->; by left..].
    destruct (runCells o (rw_cases w) (rw_rows w) 0 (cells o ss)) as [written err'] eqn:Hr. injection Hm as -> ->.
    destruct (runCells_spec _ _ _ _ _ _ _ Hr) as (results & -> & Hlen & Hres & Herr).
    right. exists results. rewrite length_zip_with in Hlen. split_and!; [done|lia|by apply Hres|]. by intros i e ->.
  - intros He. destruct Hout as [(-> & Herr & Hef)|(_ & (e & Hx) & _)]; [|congruence]. rewrite He in Herr. subst err.
    destruct Hrows as [Hm|[_ Hx]]; [|done]. split.
    + unfold runMatrix in Hm. destruct (rw_header w); [|by injection Hm..].
      destruct (runCells o (rw_cases w) (rw_rows w) 0 (cells o ss)) as [written err'] eqn:Hr. injection Hm as -> <-.
      destruct (runCells_spec _ _ _ _ _ _ _ Hr) as (results & -> & Hlen & _ & Herr). simpl.
      rewrite length_zip_with, Herr, Nat.min_id. by rewrite length_cells.
    + intros Het. unfold runDiscovered in Hd. rewrite decide_True in Hd by done.
      destruct (startEtcdTargetDiscovery _ _); [|by injection Hd]. destruct (rw_etcdClient w); [|by injection Hd].
      destruct (rw_targets w); [|by injection Hd]. destruct (runMatrix o ss w). injection Hd as _ _ <-.
      destruct Hef as [->| ->]; set_solver.
  - intros Hcl Herr. destruct Hout as [(_ & Herr' & _)|(_ & (e & Hx) & _)]; [|congruence]. rewrite Herr in Herr'. subst err.
    unfold runDiscovered in Hd. rewrite Hcl in Hd. case_decide.
    + pose proof (scenarios_slots _ _ Hss) as Hsl. destruct ss as [|s ss]; [done|]. inversion_clear Hsl as [|? ? Hs _].
      unfold startEtcdTargetDiscovery in Hd. simpl in Hd. rewrite decide_False in Hd by lia.
      destruct (rw_targets w); [|by injection Hd]. by apply runMatrix_error in Hd.
    + by apply runMatrix_error in Hd.
Qed.

(** Steps of [runCase] alone. *)
Fixpoint caseRun (hold : Z) (c : loadCase) (events : list caseEvent) : option loadCase :=
  match events with
  | [] => Some c
  | e :: events => c ← runCase hold c e; caseRun hold c events
  end.

Lemma caseRun_reachable hold c events c' : case_reachable hold c -> caseRun hold c events = Some c' -> case_reachable hold c'.
Proof.
  revert c. induction events as [|e events IH]; intros c Hc; simpl; [by intros [= <-]|].
  destruct (runCase hold c e) as [c1|] eqn:Hr; [simpl|done]. apply IH. eapply cr_step; [done|by eapply cs_run].
Qed.

(** A cell of two clients whose random generator fails. *)
Lemma case_releases_clients_witness :
  exists c failed, case_reachable 5 c /\ ca_pc c = cpDone (Some errNonce) failed /\
    ca_clients c = plainClients [0; 1] [0; 1].
Proof.
  destruct (caseRun 5 (startPlain 2 3 ["a"] None)
    [ceCreate true; ceCreate true; ceCreate true; ceNonce None; ceDeferred; ceClosed true; ceClosed false; ceClosed false])
    as [c|] eqn:Hc; [|discriminate].
  assert (Hr : case_reachable 5 c) by exact (caseRun_reachable _ _ _ _ (cr_plain 5 2 3 ["a"] None) Hc).
  pose proof (case_releases_clients 5 c Hr) as (_ & _ & Hdone).
  injection Hc as <-. eexists _, [0]. split; [exact Hr|]. split; [reflexivity|].
  destruct (Hdone (Some errNonce) [0] eq_refl) as [[_ _] _]. reflexivity.
Defined.

(** A run of the two scenarios of one cell. *)
Definition demoResult : caseResult := mkResult 1000000000 newStats [0%Z; 0%Z] 7.
Definition demoWorld : runWorld :=
  mkRunWorld true false true true rowWritten (fun i => if decide (i = 0) then inr demoResult else inl (Some errContext, []))
    (fun _ => rowWritten).
Definition demoRunArgs : list text := [bytesOf "-targets=a:1"; bytesOf "-clients=2"; bytesOf "-leases-per-client=4"].

Lemma load_run_matrix_witness :
  exists o, parseLoadOptions 0 demoRunArgs = inr o /\
    length (ro_rows (runLoad (H := plainRegistry) (Some o) demoWorld)) = 2 /\
    balanced (ro_effects (runLoad (H := plainRegistry) (Some o) demoWorld)).
Proof.
  destruct (parseLoadOptions 0 demoRunArgs) as [e|o] eqn:Ho; [vm_compute in Ho; discriminate|].
  exists o. destruct (@load_run_matrix plainRegistry 0 demoRunArgs o demoWorld Ho) as (ss & Hss & Hbal & _).
  split; [done|]. split; [|exact Hbal]. vm_compute in Ho. injection Ho as <-. vm_compute. reflexivity.
Defined.
