(* ===== verification/DummyRun.v ===== *)
(** * Runs of the benchmark commands
    (src/cmd/redlease-dummy-client/main.go, src/cmd/redlease-dummy-server/main.go)

    [run] of the raw client: three goroutines per connection, the warm-up and the
    measurement interval, and the end of everything. [run] of the benchmark peer:
    the accept loop. *)

From S2P Require Import Prelude GoText Float64 GoHeap LeaseShard Protocol Server Wire Codec Frame Generation.
From S2P Require Import DummyClient DummyClientSafety DummyServer.
From stdpp Require Import base gmap sets list numbers relations tactics.

#[local] Open Scope nat_scope.

(** ** The raw client *)

(** The goroutines of a connection; the receiver reads or has ended. *)
Record dummyWorkers := mkWorkers {
  wo_conn : dummyConn;
  wo_receiving : bool;
  wo_closed : bool                 (* [connection.Conn.Close] was called *)
}.

Inductive runPhase :=
  | rpDialing
  | rpWarmup
  | rpMeasuring (acquires releases : Z)
  (* [cancel], [closeConnections] and [workers.Wait], with what is returned then *)
  | rpClosing (result : option (Z * Z))
  | rpJoining (result : option (Z * Z))
  | rpReturned (result : option (Z * Z))
  | rpAborted.                     (* a dial failed; no goroutine was started *)

(** [dr_sent] is the number of values in the channel of the workers' errors, and
    [dr_taken] how many [waitInterval] received; [dr_acquired], [dr_released] and
    [dr_marks] are history variables: the responses counted so far, and their
    numbers at the ends of the two intervals. *)
Record dummyRun := mkDummyRun {
  dr_workers : list dummyWorkers;
  dr_phase : runPhase;
  dr_ctxDone : bool;
  dr_counters : responseCounters;
  dr_sent : nat;
  dr_taken : nat;
  dr_acquired : Z;
  dr_released : Z;
  dr_marks : list (Z * Z)
}.

Definition startDummyRun : dummyRun := mkDummyRun [] rpDialing false (mkCounters 0 0) 0 0 0 0 [].

Definition channelCapacity (o : dummyOptions) : nat := 3 * Z.to_nat (do_connections o).

Definition setWorkers (d : dummyRun) (workers : list dummyWorkers) (phase : runPhase) (ctxDone : bool) (sent taken : nat)
    : dummyRun :=
  mkDummyRun workers phase ctxDone (dr_counters d) sent taken (dr_acquired d) (dr_released d) (dr_marks d).

(** [closeConnections] *)
Definition closeConnections (workers : list dummyWorkers) : list dummyWorkers :=
  (fun w => mkWorkers (wo_conn w) (wo_receiving w) true) <$> workers.

Definition workerEnded (w : dummyWorkers) : bool :=
  negb (dc_producing (wo_conn w)) && match dc_send (wo_conn w) with dsEnded => true | _ => false end && negb (wo_receiving w).

(** The numbers of responses when an interval ends. *)
Definition mark (d : dummyRun) : dummyRun :=
  mkDummyRun (dr_workers d) (dr_phase d) (dr_ctxDone d) (dr_counters d) (dr_sent d) (dr_taken d) (dr_acquired d) (dr_released d)
    (dr_marks d ++ [(dr_acquired d, dr_released d)]).

(** The steps of [run] itself. *)
Inductive dummyRunEvent :=
  | deDial (dialled : bool)
  | deTimer                        (* [waitInterval] returns because of its timer *)
  | deError                        (* [waitInterval] receives a worker's error *)
  | deContext                      (* [waitInterval] finds its context done *)
  | deClose
  | deJoin.

Definition runDummy `{FlatBuffers} (o : dummyOptions) (d : dummyRun) (e : dummyRunEvent) : option dummyRun :=
  match dr_phase d, e with
  | rpDialing, deDial dialled =>
      let n := length (dr_workers d) in
      if decide (n < Z.to_nat (do_connections o)) then
        if dialled then Some (setWorkers d (dr_workers d ++ [mkWorkers (newDummyConn o n) true false]) rpDialing (dr_ctxDone d) 0 0)
        else Some (setWorkers d (closeConnections (dr_workers d)) rpAborted true 0 0)
      else Some (setWorkers d (dr_workers d) rpWarmup (dr_ctxDone d) 0 0)
  | rpWarmup, deTimer =>
      Some (setWorkers (mark d) (dr_workers d) (rpMeasuring (co_acquires (dr_counters d)) (co_releases (dr_counters d)))
              (dr_ctxDone d) (dr_sent d) (dr_taken d))
  | rpWarmup, deError | rpMeasuring _ _, deError =>
      match dr_sent d with
      | S sent => Some (setWorkers d (dr_workers d) (rpClosing None) (dr_ctxDone d) sent (S (dr_taken d)))
      | O => None
      end
  | rpWarmup, deContext | rpMeasuring _ _, deContext =>
      if dr_ctxDone d then Some (setWorkers d (dr_workers d) (rpClosing None) (dr_ctxDone d) (dr_sent d) (dr_taken d)) else None
  | rpMeasuring acquires releases, deTimer =>
      Some (setWorkers (mark d) (dr_workers d)
              (rpClosing (Some (u64 (co_acquires (dr_counters d) - acquires), u64 (co_releases (dr_counters d) - releases))))
              (dr_ctxDone d) (dr_sent d) (dr_taken d))
  | rpClosing result, deClose =>
      Some (setWorkers d (closeConnections (dr_workers d)) (rpJoining result) true (dr_sent d) (dr_taken d))
  | rpJoining result, deJoin =>
      if forallb workerEnded (dr_workers d) then
        Some (setWorkers d (dr_workers d) (rpReturned result) (dr_ctxDone d) (dr_sent d) (dr_taken d))
      else None
  | _, _ => None
  end.

(** Whether the goroutines have been started. *)
Definition workersStarted (p : runPhase) : bool := match p with rpDialing | rpReturned _ | rpAborted => false | _ => true end.

(** A goroutine that ends sends its result to the channel. *)
Definition setWorker (d : dummyRun) (i : nat) (w : dummyWorkers) (ended : bool) : dummyRun :=
  setWorkers d (<[i := w]> (dr_workers d)) (dr_phase d) (dr_ctxDone d) (if ended then S (dr_sent d) else dr_sent d) (dr_taken d).

Definition setConn (w : dummyWorkers) (c : dummyConn) : dummyWorkers := mkWorkers c (wo_receiving w) (wo_closed w).

Definition senderEnded (c : dummyConn) : bool := match dc_send c with dsEnded => true | _ => false end.

(** [receiveResponses] of a connection: a counted response, or its end by an error
    or because the connection was closed. *)
Definition receiveOne (d : dummyRun) (response : Response) : option dummyRun :=
  match countResponse (dr_counters d) response with
  | inl _ => None
  | inr counters =>
      let acquire := bool_decide (Operation response = ClientOperationACQUIRE) in
      Some (mkDummyRun (dr_workers d) (dr_phase d) (dr_ctxDone d) counters (dr_sent d) (dr_taken d)
              (if acquire then (dr_acquired d + 1)%Z else dr_acquired d)
              (if acquire then dr_released d else (dr_released d + 1)%Z) (dr_marks d))
  end.

Inductive dummy_step `{FlatBuffers} (o : dummyOptions) (bootID : Z) (d : dummyRun) : dummyRun -> Prop :=
  | dy_run e d' : runDummy o d e = Some d' -> dummy_step o bootID d d'
  | dy_produce i w c' :
      workersStarted (dr_phase d) = true -> dr_workers d !! i = Some w ->
      produceRequests o (dr_ctxDone d) (wo_conn w) = Some c' ->
      dummy_step o bootID d (setWorker d i (setConn w c') (negb (dc_producing c')))
  | dy_send i w viaContext ok ok2 ok3 c' :
      workersStarted (dr_phase d) = true -> dr_workers d !! i = Some w ->
      dummySend o bootID (dr_ctxDone d) viaContext ok ok2 ok3 (wo_conn w) = Some c' ->
      dummy_step o bootID d (setWorker d i (setConn w c') (senderEnded c'))
  | dy_receive i w response d' :
      workersStarted (dr_phase d) = true -> dr_workers d !! i = Some w -> wo_receiving w = true ->
      receiveOne d response = Some d' -> dummy_step o bootID d d'
  | dy_receive_ends i w :
      workersStarted (dr_phase d) = true -> dr_workers d !! i = Some w -> wo_receiving w = true ->
      dummy_step o bootID d (setWorker d i (mkWorkers (wo_conn w) false (wo_closed w)) true).

Inductive dummy_reachable `{FlatBuffers} (o : dummyOptions) (bootID : Z) : dummyRun -> Prop :=
  | dye_start : dummy_reachable o bootID startDummyRun
  | dye_step d d' : dummy_reachable o bootID d -> dummy_step o bootID d d' -> dummy_reachable o bootID d'.

(** ** Invariant of a run *)

(** How many goroutines of a connection have ended. *)
Definition endedOf (w : dummyWorkers) : nat :=
  (if dc_producing (wo_conn w) then 0 else 1) + (if senderEnded (wo_conn w) then 1 else 0) + (if wo_receiving w then 0 else 1).

Definition endedTotal (workers : list dummyWorkers) : nat := sum_list (endedOf <$> workers).

Definition result_ok (d : dummyRun) (result : option (Z * Z)) : Prop :=
  match result with
  | None => True
  | Some (acquires, releases) => exists a0 r0 a1 r1, dr_marks d = [(a0, r0); (a1, r1)] /\
      (0 <= a0 <= a1)%Z /\ (0 <= r0 <= r1)%Z /\ acquires = u64 (a1 - a0) /\ releases = u64 (r1 - r0)
  end.

Record run_inv (o : dummyOptions) (d : dummyRun) : Prop := {
  ri_length : length (dr_workers d) <= Z.to_nat (do_connections o);
  ri_channel : dr_phase d <> rpAborted -> dr_sent d + dr_taken d = endedTotal (dr_workers d);
  ri_counters : dr_counters d = mkCounters (u64 (dr_acquired d)) (u64 (dr_released d)) /\
    (0 <= dr_acquired d)%Z /\ (0 <= dr_released d)%Z;
  ri_phase : match dr_phase d with
    | rpDialing => dr_marks d = [] /\ endedTotal (dr_workers d) = 0
    | rpWarmup => dr_marks d = []
    | rpMeasuring acquires releases => exists a0 r0, dr_marks d = [(a0, r0)] /\ (0 <= a0 <= dr_acquired d)%Z /\
        (0 <= r0 <= dr_released d)%Z /\ acquires = u64 a0 /\ releases = u64 r0
    | rpClosing result => result_ok d result
    | rpJoining result => result_ok d result /\ dr_ctxDone d = true /\ Forall (fun w => wo_closed w = true) (dr_workers d)
    | rpReturned result => result_ok d result /\ dr_ctxDone d = true /\
        Forall (fun w => wo_closed w = true /\ workerEnded w = true) (dr_workers d)
    | rpAborted => dr_ctxDone d = true /\ Forall (fun w => wo_closed w = true) (dr_workers d)
    end
}.

Lemma endedOf_bound w : endedOf w <= 3 /\ (endedOf w = 3 <-> workerEnded w = true).
Proof.
  unfold endedOf, workerEnded, senderEnded. destruct (dc_producing _), (dc_send _), (wo_receiving _); simpl; split; try lia; by split.
Qed.

Lemma endedTotal_cons w workers : endedTotal (w :: workers) = endedOf w + endedTotal workers.
Proof. done. Qed.

Lemma endedTotal_app l k : endedTotal (l ++ k) = endedTotal l + endedTotal k.
Proof. induction l as [|w l IH]; [done|]. change ((w :: l) ++ k) with (w :: (l ++ k)). rewrite !endedTotal_cons. lia. Qed.

Lemma endedTotal_bound workers : endedTotal workers <= 3 * length workers.
Proof.
  induction workers as [|w workers IH]; [done|]. rewrite endedTotal_cons. pose proof (proj1 (endedOf_bound w)). simpl length. lia.
Qed.

Lemma endedTotal_insert workers i w w' :
  workers !! i = Some w -> endedTotal (<[i := w']> workers) + endedOf w = endedTotal workers + endedOf w'.
Proof.
  revert i. induction workers as [|x workers IH]; intros [|i] Hi; try done.
  - injection Hi as ->. change (<[0 := w']> (w :: workers)) with (w' :: workers). rewrite !endedTotal_cons. lia.
  - change (<[S i := w']> (x :: workers)) with (x :: <[i := w']> workers). rewrite !endedTotal_cons. specialize (IH i Hi). lia.
Qed.

Lemma closeConnections_ended workers : endedTotal (closeConnections workers) = endedTotal workers.
Proof. unfold endedTotal, closeConnections. rewrite <- list_fmap_compose. done. Qed.

Lemma produceRequests_ended o ctxDone c c' :
  produceRequests o ctxDone c = Some c' -> dc_producing c = true /\ dc_send c' = dc_send c.
Proof.
  unfold produceRequests. destruct (dc_producing c); [|done]. destruct ctxDone; [by intros [= <-]|].
  case_decide; [|done]. by intros [= <-].
Qed.

Lemma dummySend_ended `{FlatBuffers} o bootID ctxDone via ok ok2 ok3 c c' :
  dummySend o bootID ctxDone via ok ok2 ok3 c = Some c' -> senderEnded c = false /\ dc_producing c' = dc_producing c.
Proof.
  unfold dummySend, senderEnded. destruct (dc_send c) as [|p|]; [| |done].
  - destruct via; [destruct ctxDone; [|done]|destruct (dc_queue c); [done|]]; by intros [= <-].
  - destruct ctxDone; [by intros [= <-]|].
    destruct (BufferFrame ok _ _) as [w1 [?|]]; [by intros [= <-]|].
    destruct (BufferFrame ok2 _ _) as [w2 [?|]]; [by intros [= <-]|].
    destruct (dc_queue c); [|by intros [= <-]]. destruct (Flush ok3 w2) as [w3 [?|]]; by intros [= <-].
Qed.

Lemma setWorker_inv o d i w w' (ended : bool) :
  run_inv o d -> workersStarted (dr_phase d) = true -> dr_workers d !! i = Some w -> wo_closed w' = wo_closed w ->
  endedOf w' = endedOf w + (if ended then 1 else 0) -> run_inv o (setWorker d i w' ended).
Proof.
  intros [H1 H2 H3 H4] Hs Hi Hc He. pose proof (endedTotal_insert _ _ _ w' Hi) as Ht. split; simpl.
  - by rewrite length_insert.
  - intros Hp. specialize (H2 Hp). destruct ended; lia.
  - done.
  - destruct (dr_phase d); try done. destruct H4 as (? & ? & Hall). split_and!; try done.
    apply Forall_insert; [done|]. rewrite Hc. by apply (Forall_lookup_1 _ _ _ _ Hall Hi).
Qed.

Lemma receiveOne_inv o d response d' :
  receiveOne d response = Some d' -> workersStarted (dr_phase d) = true -> run_inv o d -> run_inv o d'.
Proof.
  intros Hr Hs [H1 H2 (H3 & H3a & H3r) H4]. unfold receiveOne in Hr. rewrite H3 in Hr. unfold countResponse in Hr. simpl in Hr.
  assert (Hu : forall z, u64 (u64 z + 1) = u64 (z + 1)) by (intros z; unfold u64; by rewrite Zplus_mod_idemp_l).
  assert (Hkeep : forall a r, (dr_acquired d <= a)%Z -> (dr_released d <= r)%Z ->
    run_inv o (mkDummyRun (dr_workers d) (dr_phase d) (dr_ctxDone d) (mkCounters (u64 a) (u64 r)) (dr_sent d) (dr_taken d) a r (dr_marks d))).
  { intros a r Ha Hr'. split; simpl; [done..|split_and!; [done|lia..]|].
    destruct (dr_phase d); try done. destruct H4 as (a0 & r0 & ? & ? & ? & ? & ?). exists a0, r0. split_and!; try done; lia. }
  destruct (decide (Status response <> LeaseStatusOK)); [done|].
  destruct (decide (Operation response = ClientOperationACQUIRE)) as [Ha|Ha].
  - injection Hr as <-. rewrite bool_decide_true by done. rewrite Hu. apply Hkeep; lia.
  - destruct (decide (Operation response = ClientOperationRELEASE)); [|done]. injection Hr as <-.
    rewrite bool_decide_false by done. rewrite Hu. apply Hkeep; lia.
Qed.

Lemma u64_difference a b : u64 (u64 a - u64 b) = u64 (a - b).
Proof. unfold u64. by rewrite <- Zminus_mod. Qed.

Lemma runDummy_inv `{FlatBuffers} o d e d' : runDummy o d e = Some d' -> run_inv o d -> run_inv o d'.
Proof.
  intros Hr [H1 H2 (H3 & H3a & H3r) H4]. unfold runDummy in Hr.
  destruct (dr_phase d) as [| |a r|result|result|result|] eqn:Hp, e; try done.
  - destruct H4 as [Hm He]. specialize (H2 ltac:(done)). case_decide as Hlt.
    + destruct dialled; injection Hr as <-; (split; simpl; [..|done|]).
      * rewrite length_app. simpl. lia.
      * intros _. rewrite endedTotal_app. change (endedTotal [_]) with 0. lia.
      * split; [done|]. rewrite endedTotal_app. change (endedTotal [_]) with 0. lia.
      * unfold closeConnections. by rewrite length_fmap.
      * done.
      * split; [done|]. unfold closeConnections. apply Forall_fmap. by apply Forall_true.
    + injection Hr as <-. by split.
  - injection Hr as <-. split; simpl; try done.
    + intros _. by apply H2.
    + exists (dr_acquired d), (dr_released d). rewrite H4, H3. split_and!; try done; lia.
  - destruct (dr_sent d) as [|sent] eqn:Hsent; [done|]. injection Hr as <-. split; simpl; try done. intros _. rewrite <- H2 by done. lia.
  - destruct (dr_ctxDone d); [|done]. injection Hr as <-. split; simpl; try done. intros _. by apply H2.
  - injection Hr as <-. split; simpl; try done; [intros _; by apply H2|].
    destruct H4 as (a0 & r0 & Hm & Ha & Hr0 & -> & ->). exists a0, r0, (dr_acquired d), (dr_released d).
    rewrite Hm, H3. simpl. rewrite !u64_difference. done.
  - destruct (dr_sent d) as [|sent] eqn:Hsent; [done|]. injection Hr as <-. split; simpl; try done. intros _. rewrite <- H2 by done. lia.
  - destruct (dr_ctxDone d); [|done]. injection Hr as <-. split; simpl; try done. intros _. by apply H2.
  - injection Hr as <-. split; simpl; try done.
    + unfold closeConnections. by rewrite length_fmap.
    + intros _. rewrite closeConnections_ended. by apply H2.
    + split_and!; try done. unfold closeConnections. apply Forall_fmap. by apply Forall_true.
  - destruct (forallb workerEnded (dr_workers d)) eqn:Hf; [|done]. injection Hr as <-. split; simpl; try done.
    + intros _. by apply H2.
    + destruct H4 as (? & ? & Hall). split_and!; try done. rewrite Forall_forall in *. intros w Hw. split; [by apply Hall|].
      rewrite forallb_forall in Hf. by apply Hf.
Qed.

Lemma dummy_reachable_run `{FlatBuffers} o bootID d : dummy_reachable o bootID d -> run_inv o d.
Proof.
  induction 1 as [|d d' _ IH Hs]; [split; simpl; try done; lia|].
  destruct Hs as [e d' Hr|i w c' Hst Hi Hp|i w via ok ok2 ok3 c' Hst Hi Hp|i w response d' Hst Hi Hrc Hr|i w Hst Hi Hrc].
  - by eapply runDummy_inv.
  - destruct (produceRequests_ended _ _ _ _ Hp) as [H1 H2]. eapply setWorker_inv; try done.
    unfold endedOf, senderEnded, setConn. simpl. rewrite H1, H2. destruct (dc_producing c'), (dc_send _); simpl; lia.
  - destruct (dummySend_ended _ _ _ _ _ _ _ _ _ Hp) as [H1 H2]. eapply setWorker_inv; try done.
    unfold endedOf, setConn. simpl. rewrite H1, H2. destruct (senderEnded c'); lia.
  - by eapply receiveOne_inv.
  - eapply setWorker_inv; try done. unfold endedOf. simpl. rewrite Hrc. lia.
Qed.

(** Once everything is cancelled and closed, the goroutines of a connection come
    to their end. *)
Lemma worker_ends `{FlatBuffers} o bootID d i w :
  workersStarted (dr_phase d) = true -> dr_ctxDone d = true -> dr_workers d !! i = Some w ->
  exists d' w', rtc (dummy_step o bootID) d d' /\ dr_workers d' = <[i := w']> (dr_workers d) /\ workerEnded w' = true /\
    dr_phase d' = dr_phase d /\ dr_ctxDone d' = true.
Proof.
  intros Hst Hd Hi.
  (* the producer *)
  assert (Hp : exists d1 w1, rtc (dummy_step o bootID) d d1 /\ dr_workers d1 = <[i := w1]> (dr_workers d) /\
    dc_producing (wo_conn w1) = false /\ dr_phase d1 = dr_phase d /\ dr_ctxDone d1 = true).
  { destruct (dc_producing (wo_conn w)) eqn:Hpr.
    - eexists _, _. split; [apply rtc_once; eapply (dy_produce _ _ _ i w); [done..|unfold produceRequests; rewrite Hpr, Hd; reflexivity]|].
      split_and!; done.
    - exists d, w. split; [apply rtc_refl|]. by rewrite list_insert_id. }
  destruct Hp as (d1 & w1 & Hr1 & Hw1 & Hp1 & Hph1 & Hc1).
  assert (Hi1 : dr_workers d1 !! i = Some w1) by (rewrite Hw1; apply list_lookup_insert_eq; by eapply lookup_lt_Some).
  (* the sender *)
  assert (Hs : exists d2 w2, rtc (dummy_step o bootID) d1 d2 /\ dr_workers d2 = <[i := w2]> (dr_workers d1) /\
    dc_producing (wo_conn w2) = false /\ senderEnded (wo_conn w2) = true /\ dr_phase d2 = dr_phase d1 /\ dr_ctxDone d2 = true).
  { destruct (dc_send (wo_conn w1)) as [|p|] eqn:Hs.
    - eexists _, _. split; [apply rtc_once; eapply (dy_send _ _ _ i w1 true flushOK flushOK flushOK); [by rewrite Hph1|done|
        unfold dummySend; rewrite Hs, Hc1; reflexivity]|]. split_and!; done.
    - eexists _, _. split; [apply rtc_once; eapply (dy_send _ _ _ i w1 true flushOK flushOK flushOK); [by rewrite Hph1|done|
        unfold dummySend; rewrite Hs, Hc1; reflexivity]|]. split_and!; done.
    - exists d1, w1. split; [apply rtc_refl|]. unfold senderEnded. rewrite list_insert_id, Hs; done. }
  destruct Hs as (d2 & w2 & Hr2 & Hw2 & Hp2 & Hs2 & Hph2 & Hc2).
  assert (Hi2 : dr_workers d2 !! i = Some w2) by (rewrite Hw2; apply list_lookup_insert_eq; by eapply lookup_lt_Some).
  (* the receiver *)
  assert (Hends : forall w3, wo_conn w3 = wo_conn w2 -> wo_receiving w3 = false -> workerEnded w3 = true).
  { intros w3 Heq Hrc. unfold workerEnded, senderEnded in *. rewrite Heq, Hp2, Hrc. by destruct (dc_send (wo_conn w2)). }
  assert (Hins : forall w3, <[i := w3]> (dr_workers d2) = <[i := w3]> (dr_workers d)).
  { intros w3. by rewrite Hw2, Hw1, !list_insert_insert_eq. }
  destruct (wo_receiving w2) eqn:Hrc.
  - eexists _, (mkWorkers (wo_conn w2) false (wo_closed w2)). split.
    + etrans; [exact Hr1|]. etrans; [exact Hr2|]. apply rtc_once. eapply (dy_receive_ends _ _ _ i w2); [by rewrite Hph2, Hph1|done..].
    + simpl. rewrite Hins. split_and!; [done|by apply Hends|congruence|done].
  - exists d2, w2. split; [by etrans|]. rewrite <- Hins, list_insert_id by done. split_and!; [done|by apply Hends|congruence|done].
Qed.

Lemma workers_end `{FlatBuffers} o bootID d k :
  workersStarted (dr_phase d) = true -> dr_ctxDone d = true -> k <= length (dr_workers d) ->
  exists d', rtc (dummy_step o bootID) d d' /\ dr_phase d' = dr_phase d /\ dr_ctxDone d' = true /\
    length (dr_workers d') = length (dr_workers d) /\
    forall i w, i < k -> dr_workers d' !! i = Some w -> workerEnded w = true.
Proof.
  intros Hst Hd. induction k as [|k IH]; intros Hk; [exists d; split_and!; try done; intros; lia|].
  destruct (IH ltac:(lia)) as (d1 & Hr1 & Hp1 & Hc1 & Hl1 & Hall).
  destruct (lookup_lt_is_Some_2 (dr_workers d1) k) as [w Hw]; [lia|].
  destruct (worker_ends o bootID d1 k w) as (d2 & w' & Hr2 & Hw2 & He & Hp2 & Hc2); [by rewrite Hp1|done..|].
  exists d2. split_and!; [by etrans|congruence|done|by rewrite Hw2, length_insert|].
  intros i x Hi Hx. rewrite Hw2 in Hx. destruct (decide (k = i)) as [<-|Hne].
  - rewrite list_lookup_insert_eq in Hx by (by eapply lookup_lt_Some). by injection Hx as <-.
  - rewrite list_lookup_insert_ne in Hx by done. apply (Hall i); [lia|done].
Qed.

Lemma joining_ends `{FlatBuffers} o bootID d result :
  dr_phase d = rpJoining result -> dr_ctxDone d = true ->
  exists d', rtc (dummy_step o bootID) d d' /\ dr_phase d' = rpReturned result.
Proof.
  intros Hp Hd. destruct (workers_end o bootID d (length (dr_workers d))) as (d1 & Hr & Hp1 & Hc1 & Hl1 & Hall); [by rewrite Hp|done..|].
  assert (He : forallb workerEnded (dr_workers d1) = true).
  { apply forallb_forall. intros w (i & Hi)%list_elem_of_In%list_elem_of_lookup_1. apply (Hall i); [|done].
    rewrite <- Hl1. by eapply lookup_lt_Some. }
  eexists. split; [etrans; [exact Hr|]; apply rtc_once, (dy_run _ _ _ deJoin); unfold runDummy; rewrite Hp1, Hp, He; reflexivity|done].
Qed.

(** Measurements of the raw client come to an end and leave nothing behind. In
    every run: a goroutine that ends finds room in the channel for its result;
    whenever [run] gives up or its interval is over, it can cancel, close and
    join everything and return; when it has returned, every connection is closed
    and all goroutines have ended, and the reported numbers are those of the
    responses counted during the measurement interval; and when a connection
    cannot be dialled, the others are closed. *)
Theorem dummy_run_ends `{FlatBuffers} o bootID d :
  dummy_reachable o bootID d ->
  (workersStarted (dr_phase d) = true -> (exists w, w ∈ dr_workers d /\ workerEnded w = false) ->
     dr_sent d < channelCapacity o) /\
  (forall result, dr_phase d = rpClosing result \/ dr_phase d = rpJoining result ->
     exists d', rtc (dummy_step o bootID) d d' /\ dr_phase d' = rpReturned result) /\
  (forall result, dr_phase d = rpReturned result ->
     dr_ctxDone d = true /\ Forall (fun w => wo_closed w = true /\ workerEnded w = true) (dr_workers d) /\ result_ok d result) /\
  (dr_phase d = rpAborted -> dr_ctxDone d = true /\ Forall (fun w => wo_closed w = true) (dr_workers d)).
Proof.
  intros Hr. pose proof (dummy_reachable_run o bootID d Hr) as [H1 H2 H3 H4]. split_and!.
  - intros Hst (w & Hw & He). apply list_elem_of_lookup_1 in Hw as (i & Hi).
    assert (Hne : dr_phase d <> rpAborted) by (intros Ha; by rewrite Ha in Hst). specialize (H2 Hne).
    rewrite <- (take_drop_middle _ _ _ Hi), endedTotal_app, endedTotal_cons in H2.
    pose proof (endedTotal_bound (take i (dr_workers d))) as B1. pose proof (endedTotal_bound (drop (S i) (dr_workers d))) as B2.
    destruct (endedOf_bound w) as [B3 B4]. assert (endedOf w <> 3) by (intros Hx%B4; congruence).
    rewrite length_take in B1. rewrite length_drop in B2. apply lookup_lt_Some in Hi. unfold channelCapacity. lia.
  - intros result [Hp|Hp].
    + destruct (joining_ends o bootID (setWorkers d (closeConnections (dr_workers d)) (rpJoining result) true (dr_sent d) (dr_taken d))
        result) as (d' & Hrun & Hd); [done..|].
      exists d'. split; [|done]. eapply rtc_l; [|exact Hrun]. apply (dy_run _ _ _ deClose). unfold runDummy. by rewrite Hp.
    + rewrite Hp in H4. apply joining_ends; [done|apply H4].
  - intros result Hp. rewrite Hp in H4. naive_solver.
  - intros Hp. by rewrite Hp in H4.
Qed.

(** ** The benchmark peer *)

(** A connection the peer has accepted: served, or closed after [serveConnection]
    returned. *)
Record peerConn := mkPeerConn { pc_session : option peerSession; pc_closed : bool }.

Record peerServer := mkPeerServer {
  ps_maxTTL : Z;
  ps_conns : list peerConn;
  ps_listening : bool
}.

(** [run] after its listener was opened: it accepts until [Accept] fails, and then
    closes the listener. [startPeer] that panics is recovered in
    [serveConnection]. *)
Definition acceptPeer `{FlatBuffers} (s : peerServer) (accepted : option (list (list Z))) : option peerServer :=
  if ps_listening s then
    match accepted with
    | Some input => Some (mkPeerServer (ps_maxTTL s) (ps_conns s ++ [mkPeerConn (startPeer (ps_maxTTL s) input) false]) true)
    | None => Some (mkPeerServer (ps_maxTTL s) (ps_conns s) false)
    end
  else None.

(** The goroutine of a connection: a step of [serveConnection], or the deferred
    Close once it has ended. *)
Definition stepPeer `{FlatBuffers} (s : peerServer) (index : nat) (fails : bool) : option peerServer :=
  c ← ps_conns s !! index;
  if pc_closed c then None
  else
    match pc_session c with
    | None => Some (mkPeerServer (ps_maxTTL s) (<[index := mkPeerConn None true]> (ps_conns s)) (ps_listening s))
    | Some session =>
        match sv_pc session with
        | svEnded _ => Some (mkPeerServer (ps_maxTTL s) (<[index := mkPeerConn (Some session) true]> (ps_conns s)) (ps_listening s))
        | _ =>
            session ← serveConnection (ps_maxTTL s) fails session;
            Some (mkPeerServer (ps_maxTTL s) (<[index := mkPeerConn (Some session) false]> (ps_conns s)) (ps_listening s))
        end
    end.

Inductive peers_reachable `{FlatBuffers} (maxTTL : Z) : peerServer -> Prop :=
  | prs_start : peers_reachable maxTTL (mkPeerServer maxTTL [] true)
  | prs_accept s accepted s' : peers_reachable maxTTL s -> acceptPeer s accepted = Some s' -> peers_reachable maxTTL s'
  | prs_step s index fails s' : peers_reachable maxTTL s -> stepPeer s index fails = Some s' -> peers_reachable maxTTL s'.

(** Connections of the peer are independent: the session of each is one that
    [serveConnection] reaches on the bytes of that connection alone, so that what
    holds of a session holds of every connection, and a connection is closed only
    when its session has ended. *)
Lemma peer_connections `{FlatBuffers} maxTTL s c :
  peers_reachable maxTTL s -> c ∈ ps_conns s ->
  match pc_session c with
  | None => newTemplates maxTTL = None
  | Some session => exists input, peer_reachable maxTTL input session /\
      (pc_closed c = true -> exists e, sv_pc session = svEnded e)
  end.
Proof.
  intros Hr. enough (Hall : ps_maxTTL s = maxTTL /\ Forall (fun c => match pc_session c with
    | None => newTemplates maxTTL = None
    | Some session => exists input, peer_reachable maxTTL input session /\ (pc_closed c = true -> exists e, sv_pc session = svEnded e)
    end) (ps_conns s)).
  { destruct Hall as [_ Hall]. rewrite list.Forall_forall in Hall. apply Hall. }
  induction Hr as [|s accepted s' _ [Hm IH] Ha|s index fails s' _ [Hm IH] Ha]; [by split|..].
  - unfold acceptPeer in Ha. destruct (ps_listening s); [|done].
    destruct accepted as [input|]; injection Ha as <-; (split; [done|]); simpl; [|done].
    apply Forall_app. split; [done|]. apply Forall_singleton. simpl. rewrite Hm.
    destruct (startPeer maxTTL input) as [session|] eqn:Hs.
    + exists input. split; [by constructor|done].
    + unfold startPeer in Hs. by destruct (newTemplates maxTTL).
  - unfold stepPeer in Ha. destruct (ps_conns s !! index) as [x|] eqn:Hi; [|done]. simpl in Ha.
    destruct (pc_closed x); [done|]. pose proof (Forall_lookup_1 _ _ _ _ IH Hi) as Hx. simpl in Hx.
    destruct (pc_session x) as [session|]; [|injection Ha as <-; split; [done|]; by apply Forall_insert].
    destruct Hx as (input & Hpr & _).
    assert (Hserve : (session' ← serveConnection (ps_maxTTL s) fails session;
        Some (mkPeerServer (ps_maxTTL s) (<[index := mkPeerConn (Some session') false]> (ps_conns s)) (ps_listening s))) = Some s' ->
      ps_maxTTL s' = maxTTL /\ Forall (fun c => match pc_session c with
        | None => newTemplates maxTTL = None
        | Some session => exists input, peer_reachable maxTTL input session /\ (pc_closed c = true -> exists e, sv_pc session = svEnded e)
        end) (ps_conns s')).
    { destruct (serveConnection (ps_maxTTL s) fails session) as [session'|] eqn:Hs; [|done]. intros [= <-]. split; [done|].
      apply Forall_insert; [done|]. simpl. exists input. split; [|done]. eapply pe_step; [done|]. by rewrite <- Hm. }
    destruct (sv_pc session) eqn:Hpc; [by apply Hserve..|]. injection Ha as <-. split; [done|].
    apply Forall_insert; [done|]. simpl. exists input. split; [done|]. eauto.
Qed.
